(* ===== verification/_CoqProject ===== *)
-Q . S2P
Prelude.v
ValueWrapper.v
Text.v
Logger.v
Options.v
StableVector.v
History.v
Linearizability.v
LincheckRecursive.v
Lincheck.v
Specs.v
Coro.v
Strategy.v
PickStrategy.v
Pct.v
PrettyPrint.v
Scheduler.v
TLA.v
TLAExhaustive.v
TLALinear.v
Checkers.v
Replay.v
Minimization.v
Smart.v
SmartCorrect.v
SchedulerRun.v
Directed.v
RandomComplete.v
Main.v
Verifiers.v
Blocking.v
Liveness.v
Rows.v
LinPoints.v
EndToEnd.v
AtomicRegister.v
MutexQueue.v
FutexMutex.v
RWSpinLock.v
MutexedRegister.v
Deadlock.v
NonlinearQueue.v
NonlinearSet.v
TreiberStack.v
MSQueue.v
FastQueue.v
UniqueArgsTest.v
TLATermination.v
YieldPass.v
CoYieldPass.v
RaceRegister.v
LinCheckTest.v
Examples.v
ExamplesParts.v
ExamplesTLA.v
ExamplesRun.v
ExamplesMain.v
ExamplesEnd.v
ExamplesTargets.v
ExamplesNonlinear.v
ExamplesUnique.v
ExamplesRegister.v
ExamplesDirected.v
