(* ===== verification/Prelude.v ===== *)
(** * Ltest: a verification library of lincheck-cpp

    Ltest tests concurrent data structures.  A compiler pass puts yields into the
    methods of the target; the runtime runs methods as coroutines ("tasks"),
    chooses the interleaving, records the history of invocations and responses
    and asks a checker whether it is linearizable with respect to a sequential
    specification; a history that is not can be minimized and is printed.  This
    library models that program, from the C++ sources under src/, and proves what
    its parts promise to each other.

    ** Conventions

    A computation is a function into [outcome] (a value, or the failed
    assertion, exception or undefined behaviour it ends in), or a state and
    error monad [stM S] over it when it changes an object; definitions carry the
    names of the functions they translate, with the source lines in their
    comments.  [int] is a [Z] with [wrap32], [size_t] a [Z] with [wrapu64] or,
    where it only counts elements, a [nat].  [std::vector] is a list with
    [vec_get] failing out of range.  A reference to a task ([Task&]) is the pair
    of its thread and its index, looked up in the current threads, since tasks
    are replaced in place when a round is restarted.

    Loops that depend on the code under test take fuel and fail with [OutOfFuel]
    when it runs out: [inner] for the loops inside the strategy (terminating
    tasks), [fuel] for those of a round, and the recursion depth of
    [TLA.RunStep].  The termination theorems give amounts that are enough
    (Liveness.v: the tasks of a round times the yields of a method;
    TLATermination.v: [max_tasks * (bound + 2)]).  They say what else returning
    takes, in particular that the tables printed on the way do not fail.  [Coro.Terminate] needs no
    choice: its bound of ten million resumes is the code's own.

    ** The parts

    - Values (ValueWrapper.v; value_wrapper.h) and strings (Text.v).
    - Stable vector (StableVector.v; stable_vector.h): buckets of cells with
      their addresses by [clz], refined to a list.
    - Histories and checkers: History.v (lincheck.h, lin_check.cpp),
      Linearizability.v (the definition both checkers are compared with),
      Lincheck.v (lincheck.h, the iterative search with a stack and a cache),
      LincheckRecursive.v (lincheck_recursive.h), Checkers.v (the checker as the
      [ModelChecker] a scheduler is given, with the class [CheckerCorrect] that
      the schedulers' theorems are proved against).
    - Specifications (Specs.v; verifying/specs/).
    - Coroutines (Coro.v; lib.h, lib.cpp, generators.cpp): the classes [Target]
      and [Code] are the methods under test, as frames that run from yield to
      yield on the shared object and the tokens.
    - Base strategy (Strategy.v; scheduler.h 20-260): tasks per thread, ids,
      termination and restart; the class [Strategy] with [StrategyLaws] is what
      a strategy promises to a scheduler, [StrategyVerifier] what a verifier is.
    - Strategies: PickStrategy.v (pick_strategy.h, round_robin_strategy.h,
      random_strategy.h) and Pct.v (pct_strategy.h).  Directed.v is the
      specification of a strategy that follows a script, RandomComplete.v
      compares it with the random one.
    - Tables (PrettyPrint.v; pretty_print.h): as text, with the assertions of the
      printer, and when printing succeeds.  The schedulers print every round.
    - Strategy scheduler: Scheduler.v ([RunRound], [ExploreRound],
      [ReplayRound]), Liveness.v (rounds end, and [RunRound] returns exactly when
      its table can be printed), SchedulerRun.v ([Run]).
    - Minimization: Replay.v and Minimization.v (minimization.h,
      minimization.cpp; [RoundMinimizor] with [SoundMinimizor], what a minimizer
      promises to [Run]), Smart.v and SmartCorrect.v (minimization_smart.cpp, the
      genetic algorithm).
    - Exhaustive scheduler: TLA.v (scheduler.h 485-778), TLAExhaustive.v (it
      visits what an abstract enumeration without replays visits), TLALinear.v
      (so it decides linearizability within its bounds), TLATermination.v.
    - Verifiers (Verifiers.v) and blocking (Blocking.v: the token mutex and the
      system call hook).
    - The process (Logger.v; logger.cpp, syscall_trap.cpp): [std::cout], the
      logger and the trap flag.
    - Options (Options.v; verifying.cpp) and the program itself (Main.v;
      verifying.h): options to exit code.
    - The compiler passes: YieldPass.v (codegen/yieldpass.cpp) puts the yields in,
      CoYieldPass.v (codegen/coyieldpass.cpp) announces coroutines.
    - Correct targets: LinPoints.v (the class [LinPoints], what a target
      promises: each method takes effect at one of its steps; rounds of such a
      target are accepted), Rows.v (the class [ShortTexts]: calls and answers that
      fit their cells, so that its tables are printed), EndToEnd.v (a program that
      returns then exits with 0, and under round robin and the random strategy a
      program with wait-free methods and short texts does return).
    - Targets that are linearizable: AtomicRegister.v (verifying/targets/
      atomic_register.cpp), MutexQueue.v (mutex_queue.cpp), FutexMutex.v
      (verifying/blocking/simple_mutex.cpp), RWSpinLock.v (folly_rwspinlock.cpp),
      MutexedRegister.v (mutexed_register.cpp).  UniqueArgsTest.v
      (unique_args.cpp, counique_args.cpp) tests the tool's own handling of
      arguments and coroutines.
    - Targets that are not, which the tool is meant to find out: RaceRegister.v
      (race_register.cpp), FutexMutex.v (nonlinear_mutex.cpp), Deadlock.v
      (deadlock.cpp), NonlinearQueue.v, NonlinearSet.v, TreiberStack.v and
      MSQueue.v (nonlinear_*.cpp); and FastQueue.v (fast_queue.cpp).
    - LinCheckTest.v: the tests of the checkers (test/runtime/
      lin_check_test.cpp).
    - Examples.v, ExamplesParts.v, ExamplesTLA.v, ExamplesRun.v, ExamplesMain.v,
      ExamplesEnd.v, ExamplesTargets.v, ExamplesNonlinear.v, ExamplesUnique.v,
      ExamplesRegister.v and ExamplesDirected.v instantiate the theorems that
      have hypotheses and run targets.

    ** What the theorems show

    A round that [RunRound] generates has a well-formed history of its tasks
    and, when it can be printed, is reported exactly when it is not
    linearizable; [Run] therefore reports the first such round, and the exit
    code of the program says whether there was one.  Both checkers terminate
    and decide linearizability, so they agree, and the equalities of the
    specifications are fine enough for the cache.  A replayed round repeats
    its histories, so greedy minimization removes tasks from the interleaving
    and nothing else; whatever the random numbers are, a minimized history is
    still rejected, and the solution the genetic algorithm ends with is the
    first one or has a strictly bigger fitness.  On a target that can be replayed the exhaustive
    scheduler checks the executions of an abstract enumeration in its order,
    up to the bound on rounds, although it backs up by replaying. Strategies
    keep the contract that schedulers rely on, PCT keeps its priorities, round
    robin is fair, and for every run that a tester could steer by hand there
    is a sequence of draws with which the random strategy does the same (which
    of these sequences an engine produces is not spoken of); terminating a
    round leaves only blocked last tasks behind; verifiers keep locks
    balanced.  Rounds of wait-free methods end, and the printer is the only
    thing in them that may fail.  The stable vector is a list, tables are
    aligned, and options survive their textual form.  The yield pass inserts
    yields behind the accesses of annotated functions and nowhere else, and
    the status pass ends when its filters name their coroutines (and only
    then).  A target whose methods have linearization points is never
    reported, under any strategy; when the frame of a task alone tells what
    its slice does, and it can be replayed, the exhaustive scheduler reports
    nothing either.  The atomic register, the register behind [std::mutex],
    the queue behind the token mutex, the futex mutex and the readers-writer
    lock are such targets.  Their locks exclude (the last two under a strategy
    that asks their verifiers), that of the queue does not deadlock, and the
    members of the readers-writer lock do what their names say to the fields
    of its word.  Calls of unique_args get each index once, in whatever order
    they start and end.  The planted bugs are run as examples: for
    the mutex that tries too little, for the four structures that are not
    linearizable and for the bounded queue there is a round that is reported,
    and the strategy notices the deadlock.  The fuzz test of the checkers
    passes on every input.

    ** Parameters

    What is not under src/ is a parameter: the code between two yields
    ([Target], [Code]: the compiled method and Boost.Context's switch), random
    numbers ([Rng], [RealRng], with the ranges documented for the
    distributions as [RngLaws]; RandomComplete.v also runs the strategy on a
    given sequence of draws), [std::mutex] ([StdMutex], [StdMutexLaws]), where
    an unordered container puts an element ([Unordered]; copies keep the
    order), the user's [cancel] function, LLVM's instructions ([LLVM]), the
    hash functions of the checker's cache, what gflags does to the flags, the
    files and the YAML parser of the status pass, and what [std::shuffle] does
    in a test.  One parameter stands for text of the program itself: what a
    scheduler logs while it runs with [--verbose] ([logged] of Main.v), which
    no state depends on.

    ** Not modelled

    The text that goes to the log, and the output of [debug].  The schedulers
    do print their tables, so that an assertion of the printer fails the
    round, and the numbers of tasks that the printer writes to [std::cout]
    past the log are kept; the rest of the text is dropped.  gflags, YAML and
    LLVM themselves; the global constructors that call [TargetMethod]
    (macros); the code inside [std::mutex]; the matchers of gmock in test/,
    whose tasks are the values they answer.  A fiber that never returned is
    kept alive by its own reference cycle, so [~CoroBase] and its assertion
    are not reached for it, and destruction is modelled as the strategies'
    [TerminateTasks] only.  Time and memory use are not modelled. *)

From stdpp Require Import base list list_numbers gmap strings pretty option.
From Stdlib Require Import ZArith Lia.

(** ** Outcomes

    The C++ code fails in a handful of ways that the model keeps apart: a
    failed [assert]/[panic], an exception of the standard library, an access
    the language leaves undefined, and (in the model only) a loop that used up
    its fuel. *)

Inductive failure :=
| AssertFailed (what : string)      (* assert(...) evaluated to false *)
| BadAnyCast                        (* std::bad_any_cast *)
| BadFunctionCall                   (* calling an empty std::function *)
| InvalidArgument (what : string)   (* throw std::invalid_argument *)
| RuntimeError (what : string)      (* throw std::runtime_error *)
| OutOfRange (what : string)        (* index outside of an array or a vector *)
| Undefined (what : string)         (* any other undefined behaviour *)
| OutOfFuel.                        (* the model's bound on a loop was reached *)

Inductive outcome (A : Type) : Type :=
| Ok (a : A)
| Fail (f : failure).
Arguments Ok {_} _.
Arguments Fail {_} _.

#[export] Instance failure_eq_dec : EqDecision failure.
Proof. solve_decision. Defined.

#[export] Instance outcome_eq_dec {A} `{EqDecision A} : EqDecision (outcome A).
Proof. solve_decision. Defined.

#[export] Instance outcome_ret : MRet outcome := λ A a, Ok a.
#[export] Instance outcome_bind : MBind outcome := λ A B k m,
  match m with Ok a => k a | Fail f => Fail f end.
#[export] Instance outcome_fmap : FMap outcome := λ A B g m,
  match m with Ok a => Ok (g a) | Fail f => Fail f end.

(** [assert(b)]. *)
Definition assert (what : string) (b : bool) : outcome unit :=
  if b then Ok tt else Fail (AssertFailed what).

(** A read that is undefined (or throws) when the option is empty. *)
Definition or_fail {A} (f : failure) (o : option A) : outcome A :=
  match o with Some a => Ok a | None => Fail f end.

Lemma bind_Ok {A B} (m : outcome A) (k : A → outcome B) b :
  (m ≫= k) = Ok b ↔ ∃ a, m = Ok a ∧ k a = Ok b.
Proof. destruct m; simpl; [naive_solver|]. split; [done|by intros (? & ? & ?)]. Qed.

Lemma assert_Ok what b u : assert what b = Ok u ↔ b = true.
Proof. destruct b, u; simpl; split; congruence. Qed.

Lemma or_fail_Ok {A} f (o : option A) a : or_fail f o = Ok a ↔ o = Some a.
Proof. destruct o; simpl; naive_solver. Qed.

(** Splits a hypothesis that a monadic computation returned normally. *)
Ltac inv_Ok H :=
  lazymatch type of H with
  | _ ≫= _ = Ok _ =>
      let a := fresh "a" in let E := fresh "E" in
      apply bind_Ok in H as (a & E & H); try inv_Ok E; try inv_Ok H
  | assert _ _ = Ok _ => apply assert_Ok in H
  | or_fail _ _ = Ok _ => apply or_fail_Ok in H
  | Ok _ = Ok _ => injection H as ?; subst
  | Fail _ = Ok _ => discriminate H
  end.

(** ** Machine integers *)

(** [int]: the two's complement representative of [z] on 32 bits.  Signed
    overflow is undefined in C++; the compilers the project builds with wrap,
    and so does the model. *)
Definition wrap32 (z : Z) : Z := ((z + 2 ^ 31) mod 2 ^ 32 - 2 ^ 31)%Z.

(** [size_t] / [unsigned long]. *)
Definition wrapu64 (z : Z) : Z := (z mod 2 ^ 64)%Z.

Definition in_int32 (z : Z) : Prop := (- 2 ^ 31 ≤ z < 2 ^ 31)%Z.

Lemma wrap32_id z : in_int32 z → wrap32 z = z.
Proof. unfold in_int32, wrap32. intros. rewrite Z.mod_small; lia. Qed.

Lemma wrap32_range z : in_int32 (wrap32 z).
Proof.
  unfold in_int32, wrap32.
  pose proof (Z.mod_pos_bound (z + 2 ^ 31) (2 ^ 32)). lia.
Qed.

Lemma wrap32_sub a b : wrap32 (wrap32 a - b) = wrap32 (a - b).
Proof.
  unfold wrap32. f_equal.
  replace ((a + 2 ^ 31) mod 2 ^ 32 - 2 ^ 31 - b + 2 ^ 31)%Z with ((a + 2 ^ 31) mod 2 ^ 32 - b)%Z by lia.
  rewrite Zminus_mod_idemp_l. f_equal. lia.
Qed.

Lemma wrapu64_id z : (0 ≤ z < 2 ^ 64)%Z → wrapu64 z = z.
Proof. unfold wrapu64. apply Z.mod_small. Qed.

(** ** Lists *)

Lemma forallb_id_lookup (l : list bool) :
  forallb id l = true ↔ ∀ i b, l !! i = Some b → b = true.
Proof.
  rewrite forallb_forall. split.
  - intros H i b Hi. apply H, list_elem_of_In, list_elem_of_lookup. eauto.
  - intros H b Hb. apply list_elem_of_In, list_elem_of_lookup in Hb as [i Hi]. eauto.
Qed.

Create HintDb ltest.

(** [v[i]] and [v[i] = x] on a [std::vector]: undefined out of range. *)
Definition vec_get {A} (l : list A) (i : nat) : outcome A :=
  or_fail (OutOfRange "vector") (l !! i).
Definition vec_set {A} (l : list A) (i : nat) (x : A) : outcome (list A) :=
  if bool_decide (i < length l) then Ok (<[i := x]> l) else Fail (OutOfRange "vector").

Lemma vec_get_Some {A} (l : list A) i x : l !! i = Some x → vec_get l i = Ok x.
Proof. unfold vec_get. by intros ->. Qed.
Lemma vec_set_lt {A} (l : list A) i x : i < length l → vec_set l i x = Ok (<[i := x]> l).
Proof. intros. unfold vec_set. by rewrite bool_decide_true. Qed.

Lemma vec_get_Ok {A} (l : list A) i x : vec_get l i = Ok x ↔ l !! i = Some x.
Proof. apply or_fail_Ok. Qed.
Lemma vec_set_Ok {A} (l : list A) i x l' :
  vec_set l i x = Ok l' ↔ i < length l ∧ l' = <[i := x]> l.
Proof. unfold vec_set. destruct (bool_decide_reflect (i < length l)); naive_solver. Qed.

(** The number of [true]s and of [false]s of a [std::vector<bool>]. *)
Fixpoint count_true (l : list bool) : nat :=
  match l with [] => 0 | b :: l => (if b then 1 else 0) + count_true l end.
Definition count_false (l : list bool) : nat := count_true (map negb l).

Lemma count_true_false l : count_true l + count_false l = length l.
Proof. unfold count_false. induction l as [|[] l IH]; simpl; lia. Qed.

Lemma count_true_insert l i :
  l !! i = Some false → count_true (<[i := true]> l) = S (count_true l).
Proof.
  revert i. induction l as [|b l IH]; intros [|i] Hi; simplify_eq/=; [done|].
  rewrite IH by done. lia.
Qed.

Lemma count_false_insert l i :
  l !! i = Some false → S (count_false (<[i := true]> l)) = count_false l.
Proof.
  intros Hi. pose proof (count_true_insert _ _ Hi).
  pose proof (count_true_false l). pose proof (count_true_false (<[i:=true]> l)) as Hl.
  rewrite length_insert in Hl. lia.
Qed.

Lemma count_true_full l : count_true l = length l ↔ Forall (λ b, b = true) l.
Proof.
  split.
  - induction l as [|b l IH]; [constructor|]; simpl; intros H.
    assert (count_true l ≤ length l) by (pose proof (count_true_false l); lia).
    destruct b; [|lia]. constructor; [done|]. apply IH. lia.
  - induction 1 as [|b l -> _ IH]; simpl; lia.
Qed.

Lemma count_false_0 l : count_false l = 0 ↔ Forall (λ b, b = true) l.
Proof. rewrite <-count_true_full. pose proof (count_true_false l). lia. Qed.

Lemma not_full_false l : ¬ Forall (λ b, b = true) l → ∃ i, l !! i = Some false.
Proof.
  induction l as [|[] l IH]; intros H.
  - destruct H. constructor.
  - destruct IH as [i Hi]; [|by exists (S i)]. contradict H. by constructor.
  - by exists 0.
Qed.

Lemma forallb_id_Forall (l : list bool) : forallb id l = true ↔ Forall (λ b, b = true) l.
Proof. rewrite forallb_id_lookup, Forall_lookup. done. Qed.

(** Resetting the entries of a bitmap that were just set. *)
Lemma unset_one (l : list bool) i :
  l !! i = Some false → <[i := false]> (<[i := true]> l) = l.
Proof. intros Hi. rewrite list_insert_insert_eq. by apply list_insert_id. Qed.

Lemma unset_two (l : list bool) i r :
  l !! i = Some false → l !! r = Some false →
  <[r := false]> (<[i := false]> (<[r := true]> (<[i := true]> l))) = l.
Proof.
  intros Hi Hr. destruct (decide (i = r)) as [<-|Hne].
  - rewrite !list_insert_insert_eq. by apply list_insert_id.
  - rewrite (list_insert_insert_ne _ i r) by done.
    rewrite list_insert_insert_eq, list_insert_insert_eq.
    rewrite (list_insert_id _ i) by done. by apply list_insert_id.
Qed.

Lemma drop_cons_inv {A} (l rest : list A) i x :
  drop i l = x :: rest → l !! i = Some x ∧ drop (S i) l = rest.
Proof.
  intros H. split.
  - pose proof (lookup_drop l i 0) as E. rewrite H, Nat.add_0_r in E. by rewrite <-E.
  - replace (S i) with (i + 1) by lia. by rewrite <-drop_drop, H.
Qed.

Lemma list_alter_id_at {A} (g : A → A) (l : list A) i x :
  l !! i = Some x → g x = x → alter g i l = l.
Proof.
  revert i. induction l as [|y l IH]; intros [|i] Hi Hg; simplify_eq/=; [by rewrite Hg|].
  f_equal. by apply IH.
Qed.

Lemma alter_as_insert {A} (g : A → A) (l : list A) i x : l !! i = Some x → alter g i l = <[i := g x]> l.
Proof.
  revert i. induction l as [|y l IH]; intros [|i] Hi; simplify_eq/=; [done|]. f_equal. by apply IH.
Qed.

Lemma alter_last {A} (g : A → A) (l : list A) x : alter g (length l) (l ++ [x]) = l ++ [g x].
Proof. induction l as [|y l IH]; simpl; [done|]. f_equal. exact IH. Qed.

(** Sums over a list of which one entry changes. *)
Lemma sum_list_fmap_alter {A} (f : A → nat) g (l : list A) i x :
  l !! i = Some x → sum_list (f <$> alter g i l) + f x = sum_list (f <$> l) + f (g x).
Proof.
  revert i. induction l as [|y l IH]; intros [|i] Hi; simplify_eq/=; [lia|].
  specialize (IH i Hi). unfold fmap, list_fmap in *. simpl. lia.
Qed.

Lemma sum_list_fmap_insert {A} (f : A → nat) (l : list A) i x y :
  l !! i = Some x → sum_list (f <$> <[i := y]> l) + f x = sum_list (f <$> l) + f y.
Proof.
  intros Hi. rewrite <-(sum_list_fmap_alter f (λ _, y) l i x Hi). f_equal. f_equal. f_equal.
  clear Hi. revert i. induction l as [|z l IH]; intros [|i]; simpl; [done..|by rewrite IH].
Qed.

Lemma sum_list_fmap_snoc {A} (f : A → nat) (l : list A) x : sum_list (f <$> l ++ [x]) = sum_list (f <$> l) + f x.
Proof. induction l as [|y l IH]; simpl; [lia|]. unfold fmap, list_fmap in *. simpl. lia. Qed.

Lemma sum_list_fmap_le {A} (f : A → nat) (l : list A) i x :
  l !! i = Some x → f x ≤ sum_list (f <$> l).
Proof.
  revert i. induction l as [|y l IH]; intros [|i] Hi; simplify_eq/=; [lia|].
  specialize (IH i Hi). unfold fmap, list_fmap in *. lia.
Qed.

Lemma sum_list_fmap_ext {A} (f g : A → nat) (l : list A) :
  (∀ i x, l !! i = Some x → f x = g x) → sum_list (f <$> l) = sum_list (g <$> l).
Proof.
  intros H. f_equal. apply list_eq. intros i. rewrite !list_lookup_fmap.
  destruct (l !! i) as [x|] eqn:E; simpl; [|done]. f_equal. by eapply H.
Qed.

(** ** State and failure

    Code that mutates objects and may fail is written in the monad of
    state-passing functions into [outcome]. *)

Definition stM (S A : Type) : Type := S → outcome (A * S).

#[export] Instance stM_ret {S} : MRet (stM S) := λ A a s, Ok (a, s).
#[export] Instance stM_bind {S} : MBind (stM S) := λ A B k m s,
  match m s with Ok (a, s') => k a s' | Fail f => Fail f end.

Definition st_get {S} : stM S S := λ s, Ok (s, s).
Definition st_put {S} (s : S) : stM S unit := λ _, Ok (tt, s).
Definition st_modify {S} (g : S → S) : stM S unit := λ s, Ok (tt, g s).
Definition st_gets {S A} (g : S → A) : stM S A := λ s, Ok (g s, s).
Definition st_fail {S A} (f : failure) : stM S A := λ _, Fail f.
(** A computation that may fail but does not touch the state. *)
Definition st_lift {S A} (m : outcome A) : stM S A := λ s, a ← m; Ok (a, s).
Definition st_assert {S} (what : string) (b : bool) : stM S unit := st_lift (assert what b).

Lemma st_bind_Ok {S A B} (m : stM S A) (k : A → stM S B) s b s'' :
  (m ≫= k) s = Ok (b, s'') ↔ ∃ a s', m s = Ok (a, s') ∧ k a s' = Ok (b, s'').
Proof.
  unfold mbind, stM_bind. destruct (m s) as [[a s']|f].
  - split; [eauto|]. intros (a1 & s1 & [= -> ->] & H). done.
  - split; [done|]. intros (? & ? & ? & _). done.
Qed.

(** Evaluating the first step of a stateful computation. *)
Lemma st_bind_eq {S A B} (m : stM S A) (k : A → stM S B) s a s' :
  m s = Ok (a, s') → (m ≫= k) s = k a s'.
Proof. unfold mbind, stM_bind. by intros ->. Qed.

Lemma st_bind_fail {S A B} (m : stM S A) (k : A → stM S B) s f : m s = Fail f → (m ≫= k) s = Fail f.
Proof. unfold mbind, stM_bind. by intros ->. Qed.

Lemma st_lift_eq {S A} (m : outcome A) (s : S) a : m = Ok a → st_lift m s = Ok (a, s).
Proof. unfold st_lift. by intros ->. Qed.

Lemma st_get_bind {S B} (k : S → stM S B) s : (st_get ≫= k) s = k s s.
Proof. done. Qed.
Lemma st_put_bind {S B} (k : unit → stM S B) s s' : (st_put s' ≫= k) s = k tt s'.
Proof. done. Qed.
Lemma st_modify_bind {S B} g (k : unit → stM S B) s : (st_modify g ≫= k) s = k tt (g s).
Proof. done. Qed.

Ltac st_step H := rewrite (st_bind_eq _ _ _ _ _ H).
Ltac st_step_in G H := rewrite (st_bind_eq _ _ _ _ _ H) in G.
Ltac st_lift_step H := rewrite (st_bind_eq _ _ _ _ _ (st_lift_eq _ _ _ H)).

Lemma st_lift_Ok {S A} (m : outcome A) (s : S) a s' :
  st_lift m s = Ok (a, s') ↔ m = Ok a ∧ s' = s.
Proof. unfold st_lift. destruct m; simpl; naive_solver. Qed.

Lemma st_assert_Ok {S} what b (s : S) u s' :
  st_assert what b s = Ok (u, s') ↔ b = true ∧ s' = s.
Proof. unfold st_assert. rewrite st_lift_Ok, assert_Ok. done. Qed.

(** Splits a hypothesis that a stateful computation returned normally into the
    steps it is made of. *)
Ltac inv_st H :=
  lazymatch type of H with
  | (_ ≫= _) _ = Ok _ =>
      let a := fresh "a" in let s := fresh "s" in let E := fresh "E" in
      apply st_bind_Ok in H as (a & s & E & H); try inv_st E; try inv_st H
  | mret _ _ = Ok _ => injection H as ?; subst
  | st_get _ = Ok _ => injection H as ?; subst
  | st_put _ _ = Ok _ => injection H as ?; subst
  | st_modify _ _ = Ok _ => injection H as ?; subst
  | st_gets _ _ = Ok _ => injection H as ?; subst
  | st_fail _ _ = Ok _ => discriminate H
  | st_assert _ _ _ = Ok _ => apply st_assert_Ok in H as [? ?]; subst
  | st_lift _ _ = Ok _ => apply st_lift_Ok in H as [? ?]; subst
  end.
