(* ===== verification/ValueWrapper.v ===== *)
(** * ValueWrapper: type-erased results of operations (value_wrapper.h)

    [ValueWrapper] pairs a [std::any] with two [std::function]s: the comparison
    that [operator==] calls and the printer that [to_string] calls.  The model
    keeps the payload with its dynamic type, so that [std::any_cast] to another
    type throws, and keeps both closures as optional functions, so that calling
    the empty [std::function] of a default constructed wrapper throws too. *)

From stdpp Require Import base list strings pretty option.
From Stdlib Require Import ZArith.
From S2P Require Import Prelude.

(** The values the project stores in a [std::any]. *)
Inductive any_value :=
| any_int (z : Z)                   (* int *)
| any_bool (b : bool)               (* bool *)
| any_size (n : Z)                  (* size_t *)
| any_optional_int (o : option Z)   (* std::optional<int> *)
| any_token (t : nat)               (* std::shared_ptr<Token> *)
| any_void.                         (* Void *)

#[export] Instance any_value_eq_dec : EqDecision any_value.
Proof. solve_decision. Defined.

(** A type [T] that a template of value_wrapper.h is instantiated with: how it
    is stored, [std::any_cast<T>], its [==] and its [to_string]. *)
Class CppType (T : Type) := {
  any_of : T → any_value;
  any_cast : any_value → option T;
  cpp_eqb : T → T → bool;
  cpp_to_string : T → string;
}.

Class CppTypeLaws (T : Type) `{CppType T} := {
  any_cast_of : ∀ t : T, any_cast (any_of t) = Some t;
  any_cast_inv : ∀ a (t : T), any_cast a = Some t → a = any_of t;
  cpp_eqb_spec : ∀ t u : T, cpp_eqb t u = true ↔ t = u;
}.

#[export] Instance cpp_int : CppType Z := {|
  any_of := any_int;
  any_cast a := match a with any_int z => Some z | _ => None end;
  cpp_eqb := Z.eqb;
  cpp_to_string := pretty |}.

#[export] Instance cpp_bool : CppType bool := {|
  any_of := any_bool;
  any_cast a := match a with any_bool b => Some b | _ => None end;
  cpp_eqb := Bool.eqb;
  cpp_to_string b := if b then "1" else "0" |}.

#[export] Instance cpp_optional_int : CppType (option Z) := {|
  any_of := any_optional_int;
  any_cast a := match a with any_optional_int o => Some o | _ => None end;
  cpp_eqb o1 o2 := bool_decide (o1 = o2);
  cpp_to_string o := match o with Some z => pretty z | None => "{}" end |}.

(** [size_t], kept apart from [int]. *)
Record size_t := mk_size { size_val : Z }.

#[export] Instance cpp_size : CppType size_t := {|
  any_of n := any_size (size_val n);
  any_cast a := match a with any_size n => Some (mk_size n) | _ => None end;
  cpp_eqb m n := Z.eqb (size_val m) (size_val n);
  cpp_to_string n := pretty (size_val n) |}.

#[export] Instance cpp_int_laws : CppTypeLaws Z.
Proof.
  split; [done| |apply Z.eqb_eq].
  intros [] ? ?; simplify_eq/=; done.
Qed.
#[export] Instance cpp_bool_laws : CppTypeLaws bool.
Proof.
  split; [done| |apply Bool.eqb_true_iff].
  intros [] ? ?; simplify_eq/=; done.
Qed.
#[export] Instance cpp_optional_int_laws : CppTypeLaws (option Z).
Proof.
  split; [done| |intros; apply bool_decide_eq_true].
  intros [] ? ?; simplify_eq/=; done.
Qed.

#[export] Instance cpp_size_laws : CppTypeLaws size_t.
Proof.
  split; [by intros []| |].
  - intros [] ? ?; simplify_eq/=; done.
  - intros [m] [n]. simpl. rewrite Z.eqb_eq. naive_solver.
Qed.

(** The arguments of a task, a [std::tuple] behind a [void*].  [get_arg T k] is
    [std::get<k>] after the [reinterpret_cast]: undefined when the tuple has
    another shape. *)
Definition tuple : Type := list any_value.

Definition get_arg (T : Type) `{CppType T} (k : nat) (args : tuple) : outcome T :=
  or_fail (Undefined "std::get") (args !! k ≫= any_cast).

(** [CompFunc] and [ToStringFunc]; the closures only look at the payloads. *)
Definition CompFunc := option any_value → option any_value → outcome bool.
Definition ToStringFunc := option any_value → outcome string.

Record ValueWrapper := mk_ValueWrapper {
  value : option any_value;         (* std::any value *)
  compare : option CompFunc;        (* None: empty std::function *)
  to_str : option ToStringFunc;
}.

(** [HasValue] and [GetValue<T>] (value_wrapper.h:35-39). *)
Definition HasValue (v : option any_value) : bool := match v with Some _ => true | None => false end.

Definition GetValue (T : Type) `{CppType T} (v : option any_value) : outcome T :=
  or_fail BadAnyCast (v ≫= any_cast).

Arguments GetValue : simpl never.

(** [GetDefaultToString<T>] and [GetDefaultCompator<T>]. *)
Definition GetDefaultToString (T : Type) `{CppType T} : ToStringFunc := λ a,
  t ← GetValue T a; Ok (cpp_to_string t).

Definition GetDefaultCompator (T : Type) `{CppType T} : CompFunc := λ a b,
  if negb (Bool.eqb (HasValue a) (HasValue b)) then Ok false
  else if negb (HasValue a) && negb (HasValue b) then Ok true
  else
    l ← GetValue T a;
    r ← GetValue T b;
    Ok (cpp_eqb l r).

(** The constructors: [ValueWrapper()] and the template one with its defaults. *)
Definition ValueWrapper_default : ValueWrapper := mk_ValueWrapper None None None.

Definition ValueWrapper_with (a : any_value) (cmp : CompFunc) (str : ToStringFunc)
  : ValueWrapper := mk_ValueWrapper (Some a) (Some cmp) (Some str).

Definition ValueWrapper_of {T : Type} `{CppType T} (t : T) : ValueWrapper :=
  ValueWrapper_with (any_of t) (GetDefaultCompator T) (GetDefaultToString T).

(** [operator==]: the comparison of the LEFT operand decides. *)
Definition vw_eq (this other : ValueWrapper) : outcome bool :=
  cmp ← or_fail BadFunctionCall (compare this);
  cmp (value this) (value other).

(** [to_string(const ValueWrapper&)]. *)
Definition vw_to_string (wrapper : ValueWrapper) : outcome string :=
  str ← or_fail BadFunctionCall (to_str wrapper);
  str (value wrapper).

(** [void_v], the result of every [void] method. *)
Definition void_v : ValueWrapper :=
  ValueWrapper_with any_void (λ _ _, Ok true) (λ _, Ok "void").

(** ** Properties *)

(** Two wrappers are comparable when [operator==] does not throw. *)
Definition comparable (v w : ValueWrapper) : Prop := ∃ b, vw_eq v w = Ok b.

Section laws.
Context {T : Type} `{CppTypeLaws T}.

Lemma GetValue_of (t : T) : GetValue T (Some (any_of t)) = Ok t.
Proof. unfold GetValue. simpl. by rewrite any_cast_of. Qed.

Lemma vw_eq_of (t u : T) : vw_eq (ValueWrapper_of t) (ValueWrapper_of u) = Ok (cpp_eqb t u).
Proof. unfold vw_eq. simpl. unfold GetDefaultCompator. simpl. by rewrite !GetValue_of. Qed.

(** The default comparison on any right operand, by the case it meets. *)
Lemma vw_eq_default_cases (t : T) (w : ValueWrapper) :
  vw_eq (ValueWrapper_of t) w =
    match value w with
    | None => Ok false
    | Some a => match any_cast (T:=T) a with
                | Some u => Ok (cpp_eqb t u)
                | None => Fail BadAnyCast
                end
    end.
Proof.
  unfold vw_eq. simpl. unfold GetDefaultCompator. simpl.
  destruct (value w) as [a|]; simpl; [|done].
  rewrite GetValue_of. unfold GetValue. simpl. by destruct (any_cast a).
Qed.
End laws.

Lemma vw_eq_void w : vw_eq void_v w = Ok true.
Proof. done. Qed.

Lemma comparable_of {T : Type} `{CppTypeLaws T} (t u : T) :
  comparable (ValueWrapper_of t) (ValueWrapper_of u).
Proof. eexists. apply vw_eq_of. Qed.

(** Whether the default comparison throws depends on the right operand only. *)
Lemma comparable_default {T : Type} `{CppTypeLaws T} (t u : T) w :
  comparable (ValueWrapper_of t) w → comparable (ValueWrapper_of u) w.
Proof.
  intros [b Hb]. rewrite vw_eq_default_cases in Hb. unfold comparable. rewrite vw_eq_default_cases.
  destruct (value w) as [a|]; [|by eexists]. destruct (any_cast a) as [x|]; [by eexists|done].
Qed.

Lemma vw_eq_of_refl {T : Type} `{CppTypeLaws T} (t : T) : vw_eq (ValueWrapper_of t) (ValueWrapper_of t) = Ok true.
Proof. rewrite vw_eq_of. f_equal. by apply cpp_eqb_spec. Qed.

Lemma comparable_void w : comparable void_v w.
Proof. by exists true. Qed.

#[export] Hint Resolve comparable_of comparable_void : ltest.

(** [ValueWrapper::operator==] compares what the wrappers hold when both
    hold a value of one type; it is not symmetric in general, because the left
    operand's comparator decides: [void_v] equals everything, while a wrapped
    [int] on the left of [void_v] throws [bad_any_cast], and a default wrapper
    on the left throws [bad_function_call]. *)
Theorem vw_eq_spec :
  (∀ (T : Type) (C : CppType T), CppTypeLaws T → ∀ t u : T,
     vw_eq (ValueWrapper_of t) (ValueWrapper_of u) = Ok (bool_decide (any_of t = any_of u))) ∧
  (∀ z, vw_eq void_v (ValueWrapper_of (z : Z)) = Ok true ∧
        vw_eq (ValueWrapper_of (z : Z)) void_v = Fail BadAnyCast) ∧
  (∀ w, vw_eq ValueWrapper_default w = Fail BadFunctionCall).
Proof.
  split_and!.
  - intros T C HT t u. rewrite vw_eq_of. f_equal. symmetry.
    destruct (cpp_eqb t u) eqn:E.
    + apply bool_decide_eq_true. f_equal. by apply cpp_eqb_spec.
    + apply bool_decide_eq_false. intros Heq.
      assert (t = u) as ->.
      { pose proof (any_cast_of t) as Ht. rewrite Heq, any_cast_of in Ht. by simplify_eq. }
      assert (cpp_eqb u u = true) by (by apply cpp_eqb_spec). congruence.
  - intros z. split; [done|]. by rewrite vw_eq_default_cases.
  - done.
Qed.
