(* ===== verification/Text.v ===== *)
(** * Text: strings and output streams

    Lemmas on strings, the decimal notation of [std::to_string], and a small
    logic of what a computation prints: [prints m a o c] says that [m] returns
    [a] and appends [o] to the stream it was given and [c] to [std::cout]. *)

From stdpp Require Import base list list_numbers gmap strings pretty option.
From Stdlib Require Import ZArith Lia.
From S2P Require Import Prelude.

(** ** Strings *)

Lemma string_app_cons a s1 s2 : String a s1 +:+ s2 = String a (s1 +:+ s2).
Proof. done. Qed.

Lemma string_app_nil_r s : s +:+ "" = s.
Proof. induction s as [|a s IH]; [done|]. by rewrite string_app_cons, IH. Qed.

Lemma string_app_assoc s1 s2 s3 : s1 +:+ (s2 +:+ s3) = (s1 +:+ s2) +:+ s3.
Proof. induction s1 as [|a s IH]; [done|]. by rewrite !string_app_cons, IH. Qed.

Lemma string_length_app s1 s2 : String.length (s1 +:+ s2) = String.length s1 + String.length s2.
Proof. induction s1 as [|a s IH]; [done|]. rewrite string_app_cons. simpl. by rewrite IH. Qed.

Lemma substring_app s1 s2 s3 : String.substring (String.length s1) (String.length s2) (s1 +:+ s2 +:+ s3) = s2.
Proof.
  induction s1 as [|a s1 IH]; [|done].
  change (String.substring 0 (String.length s2) (s2 +:+ s3) = s2).
  induction s2 as [|a s2 IH]; [by destruct s3|]. rewrite string_app_cons. simpl. by rewrite IH.
Qed.

(** Strings in a row, and [n] times the same. *)
Definition cat (l : list string) : string := foldr String.append "" l.
Definition times (n : nat) (s : string) : string := cat (replicate n s).

Lemma cat_app l1 l2 : cat (l1 ++ l2) = cat l1 +:+ cat l2.
Proof. induction l1 as [|s l IH]; simpl; [done|]. by rewrite IH, string_app_assoc. Qed.

Lemma length_cat l : String.length (cat l) = sum_list (String.length <$> l).
Proof. induction l as [|s l IH]; simpl; [done|]. by rewrite string_length_app, IH. Qed.

Lemma length_cat_same n l : Forall (λ s, String.length s = n) l → String.length (cat l) = length l * n.
Proof.
  rewrite length_cat. induction 1 as [|s l H _ IH]; [done|].
  rewrite fmap_cons. change (sum_list (?n :: ?l)) with (n + sum_list l). rewrite IH, H. simpl. lia.
Qed.

Lemma length_times n s : String.length (times n s) = n * String.length s.
Proof.
  unfold times. rewrite (length_cat_same (String.length s)), length_replicate; [done|]. by apply Forall_replicate.
Qed.

Lemma cat_const {A} (f : A → string) s l : (∀ x, x ∈ l → f x = s) → cat (f <$> l) = times (length l) s.
Proof.
  unfold times. induction l as [|x l IH]; simpl; intros H; [done|]. rewrite H by left. f_equal. apply IH. intros y Hy.
  apply H. by right.
Qed.

(** ** Decimals *)

Lemma pretty_N_go_length k x s :
  (x < 10 ^ N.of_nat k)%N → String.length (pretty_N_go x s) ≤ k + String.length s.
Proof.
  revert x s. induction k as [|k IH]; intros x s Hx.
  { simpl in Hx. assert (x = 0%N) as -> by lia. by rewrite pretty_N_go_0. }
  destruct (decide (x = 0%N)) as [->|]; [rewrite pretty_N_go_0; lia|]. rewrite pretty_N_go_step by lia.
  etrans; [apply IH|simpl; lia]. apply N.Div0.div_lt_upper_bound. rewrite Nat2N.inj_succ, N.pow_succ_r' in Hx. lia.
Qed.

Lemma pretty_nat_length k n :
  (Z.of_nat n < 10 ^ Z.of_nat (S k))%Z → String.length (pretty (Z.of_nat n)) ≤ S k.
Proof.
  intros H. unfold pretty, pretty_Z. destruct n as [|n]; [simpl; lia|]. simpl.
  unfold pretty, pretty_N. simpl. etrans; [apply (pretty_N_go_length (S k))|simpl; lia].
  apply N2Z.inj_lt. rewrite N2Z.inj_pow, nat_N_Z. lia.
Qed.

(** A number of [S k] digits, and its sign. *)
Lemma pretty_Z_length k z :
  (- 10 ^ Z.of_nat (S k) < z < 10 ^ Z.of_nat (S k))%Z → String.length (pretty z) ≤ S (S k).
Proof.
  intros [Hlo Hhi]. destruct (Z.le_gt_cases 0 z) as [H0|H0].
  - rewrite <-(Z2Nat.id z) by done. etrans; [apply (pretty_nat_length k); by rewrite Z2Nat.id|lia].
  - destruct z as [|x|x]; [done..|]. change (S (String.length (pretty (Z.pos x))) ≤ S (S k)).
    apply le_n_S. rewrite <-(positive_nat_Z x). apply pretty_nat_length. rewrite positive_nat_Z. lia.
Qed.

(** ** Streams *)

(** The stream the printer is given, and [std::cout]. *)
Record Streams := mk_Streams { out_text : string; cout_text : string }.

Local Abbreviation M := (stM Streams).

Definition put (msg : string) : M unit :=
  st_modify (λ s, mk_Streams (out_text s +:+ msg) (cout_text s)).
Definition put_cout (msg : string) : M unit :=
  st_modify (λ s, mk_Streams (out_text s) (cout_text s +:+ msg)).

(** [for (int i = 0; i < n; ++i) body]: counting past [INT_MAX] is undefined. *)
Fixpoint for_loop (n i : nat) (body : nat → M unit) : M unit :=
  match n with
  | 0 => mret tt
  | S n => _ ← body i; for_loop n (S i) body
  end.
Definition int_loop (n : Z) (body : nat → M unit) : M unit :=
  if (2 ^ 31 <=? n)%Z then st_fail (Undefined "++i") else for_loop (Z.to_nat n) 0 body.

(** ** What a computation prints *)

Definition emit (o c : string) (s : Streams) : Streams := mk_Streams (out_text s +:+ o) (cout_text s +:+ c).

Definition prints {A} (m : M A) (a : A) (o c : string) : Prop := ∀ s, m s = Ok (a, emit o c s).

Lemma emit_emit o1 c1 o2 c2 s : emit o2 c2 (emit o1 c1 s) = emit (o1 +:+ o2) (c1 +:+ c2) s.
Proof. unfold emit. simpl. by rewrite !string_app_assoc. Qed.

Lemma emit_nil s : emit "" "" s = s.
Proof. destruct s. unfold emit. simpl. by rewrite !string_app_nil_r. Qed.

Lemma prints_ret {A} (a : A) : prints (mret a) a "" "".
Proof. intros s. by rewrite emit_nil. Qed.

Lemma prints_bind {A B} (m : M A) (k : A → M B) a b o1 c1 o2 c2 :
  prints m a o1 c1 → prints (k a) b o2 c2 → prints (m ≫= k) b (o1 +:+ o2) (c1 +:+ c2).
Proof. intros H1 H2 s. by rewrite (st_bind_eq _ _ _ _ _ (H1 s)), H2, emit_emit. Qed.

(** Without [std::cout]. *)
Lemma prints_then {A B} (m : M A) (k : A → M B) a b o1 o2 :
  prints m a o1 "" → prints (k a) b o2 "" → prints (m ≫= k) b (o1 +:+ o2) "".
Proof. intros H1 H2. exact (prints_bind _ _ _ _ _ _ _ _ H1 H2). Qed.

Lemma prints_put msg : prints (put msg) tt msg "".
Proof. intros s. unfold put, st_modify, emit. by rewrite string_app_nil_r. Qed.

Lemma prints_put_cout msg : prints (put_cout msg) tt "" msg.
Proof. intros s. unfold put_cout, st_modify, emit. by rewrite string_app_nil_r. Qed.

Lemma prints_lift {A} (m : outcome A) a : m = Ok a → prints (st_lift m) a "" "".
Proof. intros -> s. by rewrite emit_nil. Qed.

Lemma prints_assert what b : b = true → prints (st_assert what b) tt "" "".
Proof. intros ->. by apply prints_lift. Qed.

(** Unfolding the monad's notation on the way. *)
Lemma prints_eq {A} (m : M A) a o c o' c' : prints m a o c → o = o' → c = c' → prints m a o' c'.
Proof. by intros H <- <-. Qed.

Lemma for_loop_prints (f g : nat → string) body n i :
  (∀ j, i ≤ j < i + n → prints (body j) tt (f j) (g j)) →
  prints (for_loop n i body) tt (cat (f <$> seq i n)) (cat (g <$> seq i n)).
Proof.
  revert i. induction n as [|n IH]; intros i H; simpl; [apply prints_ret|].
  apply (prints_bind _ _ tt); [apply H; lia|apply IH; intros; apply H; lia].
Qed.

Lemma int_loop_prints (f g : nat → string) body n :
  (n < 2 ^ 31)%Z → (∀ j, j < Z.to_nat n → prints (body j) tt (f j) (g j)) →
  prints (int_loop n body) tt (cat (f <$> seq 0 (Z.to_nat n))) (cat (g <$> seq 0 (Z.to_nat n))).
Proof.
  intros Hn H. unfold int_loop. rewrite (proj2 (Z.leb_gt _ _)) by lia. apply for_loop_prints. intros. apply H. lia.
Qed.

Lemma cat_empty {A} (l : list A) : cat ((λ _, "") <$> l) = "".
Proof. by induction l. Qed.

(** A loop that prints the same text every time, only to the first stream. *)
Lemma int_loop_times text body n :
  (n < 2 ^ 31)%Z → (∀ j, prints (body j) tt text "") → prints (int_loop n body) tt (times (Z.to_nat n) text) "".
Proof.
  intros Hn H. eapply prints_eq; [apply (int_loop_prints (λ _, text) (λ _, "")); auto| |apply cat_empty].
  rewrite (cat_const _ text) by done. by rewrite length_seq.
Qed.

(** [prints_tac] finds what a sequence of computations prints; [strings] compares
    concatenations. *)
Create HintDb prints.
#[export] Hint Resolve prints_ret prints_put prints_put_cout prints_lift prints_assert : prints.

Ltac prints_tac :=
  cbv beta;
  lazymatch goal with
  | |- prints (_ ≫= _) _ _ _ => eapply prints_bind; [prints_tac|prints_tac]
  | |- _ => eauto with prints
  end.

Lemma string_app_nil_l s : "" +:+ s = s.
Proof. done. Qed.

Ltac strings := rewrite <-?string_app_assoc, ?string_app_nil_l, ?string_app_nil_r; reflexivity.

(** ** Computations that leave [std::cout] alone *)

Definition silent {A} (m : M A) : Prop := ∀ s a s', m s = Ok (a, s') → cout_text s' = cout_text s.

Lemma silent_bind {A B} (m : M A) (k : A → M B) : silent m → (∀ a, silent (k a)) → silent (m ≫= k).
Proof. intros Hm Hk s b s' (a & s1 & H1 & H2)%st_bind_Ok. by rewrite (Hk a _ _ _ H2), (Hm _ _ _ H1). Qed.

Lemma silent_ret {A} (a : A) : silent (mret a).
Proof. by intros s b s' [= _ <-]. Qed.

Lemma silent_put msg : silent (put msg).
Proof. by intros s b s' [= _ <-]. Qed.

Lemma silent_lift {A} (m : outcome A) : silent (st_lift m).
Proof. by intros s b s' [_ ->]%st_lift_Ok. Qed.

Lemma silent_assert what b : silent (st_assert what b).
Proof. apply silent_lift. Qed.

Create HintDb silent.
#[export] Hint Resolve silent_ret silent_put silent_lift silent_assert : silent.

Ltac silent_tac :=
  repeat first [ progress auto with silent | apply silent_bind; [|intros ?] | case_match ].

Lemma silent_int_loop n body : (∀ i, silent (body i)) → silent (int_loop n body).
Proof.
  intros H. unfold int_loop. destruct (_ <=? _)%Z; [done|]. generalize (Z.to_nat n) as m, 0 as i. intros m.
  induction m as [|m IH]; intros i; simpl; silent_tac.
Qed.
#[export] Hint Resolve silent_int_loop : silent.

(** Runs the first part of [H], which is silent. *)
Ltac silent_step H :=
  let E := fresh "E" in
  apply st_bind_Ok in H as (? & ? & E & H);
  lazymatch type of E with
  | ?m _ = Ok (_, _) =>
      let F := fresh "Hcout" in assert (silent m) as F by silent_tac; apply F in E; clear F
  end.
