(* ===== verification/Logger.v ===== *)
(** * Logger: what the process writes, and the system call trap
      (logger.h, logger.cpp, syscall_trap.h, syscall_trap.cpp)

    The globals of the runtime that are not about tasks: the text written to
    [std::cout], the logger [l], which passes its messages on to [std::cout] when
    it is verbose, and the flag that tells the hook of Blocking.v to intercept
    system calls. *)

From stdpp Require Import base strings list.
From S2P Require Import Prelude Text.

(** [struct Logger]. *)
Record Logger := mk_Logger { log_verbose : bool }.

(** [std::cout], [__trap_syscall] and [l]. *)
Record Process := mk_Process {
  cout : string;
  trap_syscall : bool;
  logger : Logger;
}.

Local Abbreviation M := (stM Process).

Definition add_text (msg : string) (p : Process) : Process := mk_Process (cout p +:+ msg) (trap_syscall p) (logger p).

(** [std::cout << msg]. *)
Definition say (msg : string) : M unit := st_modify (add_text msg).

(** [logger_init] and [log() << msg]. *)
Definition logger_init (verbose : bool) : M unit :=
  st_modify (λ p, mk_Process (cout p) (trap_syscall p) (mk_Logger verbose)).
Definition log (msg : string) : M unit :=
  p ← st_get; if log_verbose (logger p) then say msg else mret tt.

(** [Logger::flush]: [cout] is the text written so far, buffered or not. *)
Definition flush : M unit := mret tt.

(** The constructor ([on]) and the destructor of [SyscallTrapGuard]. *)
Definition SyscallTrapGuard (on : bool) : M unit := st_modify (λ p, mk_Process (cout p) on (logger p)).

Lemma say_Ok msg p : say msg p = Ok (tt, add_text msg p).
Proof. done. Qed.

Lemma log_Ok msg p : log msg p = Ok (tt, add_text (if log_verbose (logger p) then msg else "") p).
Proof.
  unfold log. rewrite st_get_bind. destruct (log_verbose (logger p)) eqn:E; [done|].
  unfold add_text. rewrite string_app_nil_r. by destruct p.
Qed.

(** The messages of a chain [log() << m1 << m2 << ...]. *)
Fixpoint log_chain (msgs : list string) : M unit :=
  match msgs with [] => mret tt | msg :: msgs => _ ← log msg; log_chain msgs end.

(** A verbose logger writes its messages in order and nothing else; a quiet
    one writes nothing. *)
Theorem log_chain_spec msgs p :
  ∃ p', log_chain msgs p = Ok (tt, p') ∧ trap_syscall p' = trap_syscall p ∧ logger p' = logger p ∧
    cout p' = cout p +:+ (if log_verbose (logger p) then foldr String.append "" msgs else "").
Proof.
  revert p. induction msgs as [|msg msgs IH]; intros p; cbn [log_chain foldr].
  { exists p. split_and!; [done..|]. destruct (log_verbose (logger p)); by rewrite string_app_nil_r. }
  st_step (log_Ok msg p). destruct (IH (add_text (if log_verbose (logger p) then msg else "") p)) as (p' & H & Ht & Hl & Hc).
  exists p'. split_and!; [done..|]. rewrite Hc. simpl. destruct (log_verbose (logger p)); by rewrite ?string_app_nil_r, ?string_app_assoc.
Qed.

(** Computations that write to [std::cout] and do nothing else. *)
Definition only_says {A} (m : M A) : Prop := ∀ p a p', m p = Ok (a, p') → ∃ msg, p' = add_text msg p.

Lemma only_says_ret {A} (a : A) : only_says (mret a).
Proof. intros p a' p' [= _ <-]. exists "". unfold add_text. rewrite string_app_nil_r. by destruct p. Qed.

Lemma only_says_say msg : only_says (say msg).
Proof. intros p u p' [= _ <-]. by exists msg. Qed.

Lemma only_says_fail {A} f : only_says (st_fail (A := A) f).
Proof. done. Qed.

Lemma only_says_lift {A} (m : outcome A) : only_says (st_lift m).
Proof. destruct m as [a|f]; [apply (only_says_ret a)|apply (only_says_fail f)]. Qed.

Lemma only_says_bind {A B} (m : M A) (k : A → M B) : only_says m → (∀ a, only_says (k a)) → only_says (m ≫= k).
Proof.
  intros Hm Hk p b p' H. apply st_bind_Ok in H as (a & p1 & [m1 ->]%Hm & H). apply Hk in H as [m2 ->].
  exists (m1 +:+ m2). unfold add_text. simpl. by rewrite string_app_assoc.
Qed.

Create HintDb says.
#[export] Hint Resolve only_says_ret only_says_say only_says_fail only_says_lift : says.
#[export] Hint Resolve only_says_bind : says.
