(* ===== verification/Options.v ===== *)
(** * Options: command line options (verifying.h:21-74, verifying.cpp)

    The flags gflags holds, the defaults a target may override them with
    ([SetOpts]) and the options the program runs with ([ParseOpts]).  gflags'
    own parser is outside of the repository: the flags are whatever it left. *)

From Stdlib Require Import ZArith Lia Ascii.
From stdpp Require Import base gmap strings pretty option list.
From S2P Require Import Prelude Text.

(** ** Strings (verifying.cpp:21-37) *)

Definition tolower (c : Ascii.ascii) : Ascii.ascii :=
  let n := Ascii.nat_of_ascii c in
  if (65 <=? n) && (n <=? 90) then Ascii.ascii_of_nat (n + 32) else c.

Fixpoint toLower (str : string) : string :=
  match str with
  | "" => ""
  | String c str => String (tolower c) (toLower str)
  end%string.

(** [res.back() += c]. *)
Definition back_add (c : Ascii.ascii) (res : list string) : list string :=
  alter (λ s, s +:+ String c "") (length res - 1) res.

Fixpoint split_loop (s : string) (delim : Ascii.ascii) (res : list string) : list string :=
  match s with
  | "" => res
  | String c s => split_loop s delim (if bool_decide (c = delim) then res ++ [""] else back_add c res)
  end%string.
Definition split (s : string) (delim : Ascii.ascii) : list string := split_loop s delim [""].

(** [std::stoi]: leading white space, a sign, and the digits up to the first
    other character. *)
Definition is_space (c : Ascii.ascii) : bool :=
  let n := Ascii.nat_of_ascii c in ((9 <=? n) && (n <=? 13)) || (n =? 32).
Definition digit (c : Ascii.ascii) : option Z :=
  let n := Ascii.nat_of_ascii c in
  if (48 <=? n) && (n <=? 57) then Some (Z.of_nat n - 48)%Z else None.

Fixpoint skip_spaces (s : string) : string :=
  match s with
  | "" => s
  | String c s' => if is_space c then skip_spaces s' else s
  end%string.

Fixpoint read_digits (acc : Z) (s : string) : Z :=
  match s with
  | "" => acc
  | String c s => match digit c with Some d => read_digits (acc * 10 + d) s | None => acc end
  end%string.

Definition stoi_digits (negative : bool) (s : string) : outcome Z :=
  match s with
  | "" => Fail (InvalidArgument "stoi")
  | String c _ =>
      match digit c with
      | Some _ =>
          let z := if negative then (- read_digits 0 s)%Z else read_digits 0 s in
          if (- 2 ^ 31 <=? z)%Z && (z <? 2 ^ 31)%Z then Ok z else Fail (OutOfRange "stoi")
      | None => Fail (InvalidArgument "stoi")
      end
  end%string.

Definition stoi (s : string) : outcome Z :=
  let s := skip_spaces s in
  match s with
  | "" => stoi_digits false s
  | String c s' =>
      if bool_decide (c = "-"%char) then stoi_digits true s'
      else if bool_decide (c = "+"%char) then stoi_digits false s'
      else stoi_digits false s
  end%string.

(** ** Strategies by name (verifying.h:21, verifying.cpp:39-64) *)

Inductive StrategyType := RR | RND | TLA | PCT.

#[export] Instance StrategyType_eq_dec : EqDecision StrategyType.
Proof. solve_decision. Defined.

Definition GetLiteral (t : StrategyType) : string :=
  match t with RR => "rr" | RND => "random" | TLA => "tla" | PCT => "pct" end.

Definition FromLiteral (a : string) : outcome StrategyType :=
  if String.eqb a (GetLiteral PCT) then Ok PCT
  else if String.eqb a (GetLiteral RND) then Ok RND
  else if String.eqb a (GetLiteral RR) then Ok RR
  else if String.eqb a (GetLiteral TLA) then Ok TLA
  else Fail (InvalidArgument a).

(** ** Flags and options (verifying.h:42-70, verifying.cpp:66-123) *)

(** The flags; the numbers are [int32]s. *)
Record Flags := mk_Flags {
  FLAGS_threads : Z;
  FLAGS_tasks : Z;
  FLAGS_switches : Z;
  FLAGS_rounds : Z;
  FLAGS_minimize : bool;
  FLAGS_exploration_runs : Z;
  FLAGS_minimization_runs : Z;
  FLAGS_depth : Z;
  FLAGS_verbose : bool;
  FLAGS_forbid_all_same : bool;
  FLAGS_strategy : string;
  FLAGS_weights : string;
}.

Definition default_flags : Flags := mk_Flags 2 15 100000000 5 false 15 15 0 false false (GetLiteral RR) "".

(** [DefaultOptions] and [Opts]; the numbers are [size_t]s. *)
Record DefaultOptions := mk_DefaultOptions {
  def_threads : Z;
  def_tasks : Z;
  def_switches : Z;
  def_rounds : Z;
  def_depth : Z;
  def_forbid_all_same : bool;
  def_verbose : bool;
  def_strategy : string;
  def_weights : string;
  def_minimization_runs : Z;
  def_exploration_runs : Z;
}.

Record Opts := mk_Opts {
  threads : Z;
  tasks : Z;
  switches : Z;
  rounds : Z;
  minimize : bool;
  exploration_runs : Z;
  minimization_runs : Z;
  depth : Z;
  forbid_all_same : bool;
  verbose : bool;
  syscall_trap : bool;
  typ : StrategyType;
  thread_weights : list Z;
}.

Definition SetOpts (def : DefaultOptions) (flags : Flags) : Flags := {|
  FLAGS_threads := wrap32 (def_threads def);
  FLAGS_tasks := wrap32 (def_tasks def);
  FLAGS_switches := wrap32 (def_switches def);
  FLAGS_rounds := wrap32 (def_rounds def);
  FLAGS_minimize := FLAGS_minimize flags;
  FLAGS_exploration_runs := wrap32 (def_exploration_runs def);
  FLAGS_minimization_runs := wrap32 (def_minimization_runs def);
  FLAGS_depth := wrap32 (def_depth def);
  FLAGS_verbose := def_verbose def;
  FLAGS_forbid_all_same := def_forbid_all_same def;
  FLAGS_strategy := def_strategy def;
  FLAGS_weights := def_weights def;
|}.

(** The loop over the weights. *)
Fixpoint parse_weights (splited : list string) : outcome (list Z) :=
  match splited with
  | [] => Ok []
  | s :: splited => w ← stoi s; ws ← parse_weights splited; Ok (w :: ws)
  end.

Definition ParseOpts (flags : Flags) : outcome Opts :=
  t ← FromLiteral (FLAGS_strategy flags);
  ws ← (if String.eqb (FLAGS_weights flags) "" then Ok [] else parse_weights (split (FLAGS_weights flags) ","%char));
  Ok {|
    threads := wrapu64 (FLAGS_threads flags);
    tasks := wrapu64 (FLAGS_tasks flags);
    switches := wrapu64 (FLAGS_switches flags);
    rounds := wrapu64 (FLAGS_rounds flags);
    minimize := FLAGS_minimize flags;
    exploration_runs := wrapu64 (FLAGS_exploration_runs flags);
    minimization_runs := wrapu64 (FLAGS_minimization_runs flags);
    depth := wrapu64 (FLAGS_depth flags);
    forbid_all_same := FLAGS_forbid_all_same flags;
    verbose := FLAGS_verbose flags;
    syscall_trap := false;
    typ := t;
    thread_weights := ws;
  |}.

(** ** Splitting and joining *)

Fixpoint join (delim : ascii) (l : list string) : string :=
  match l with
  | [] => ""
  | [s] => s
  | s :: l => s +:+ String delim (join delim l)
  end.

(** Every character satisfies [P]. *)
Fixpoint all_chars (P : ascii → Prop) (s : string) : Prop :=
  match s with
  | "" => True
  | String c s => P c ∧ all_chars P s
  end%string.

Lemma back_add_snoc c l s : back_add c (l ++ [s]) = l ++ [s +:+ String c ""].
Proof.
  unfold back_add. rewrite length_app. simpl. replace (length l + 1 - 1) with (length l) by lia.
  by rewrite (alter_last (λ s, s +:+ String c "")%string).
Qed.

Lemma split_loop_app delim s t l x :
  all_chars (λ c, c ≠ delim) s → split_loop (s +:+ t) delim (l ++ [x]) = split_loop t delim (l ++ [x +:+ s]).
Proof.
  revert x. induction s as [|c s IH]; intros x H; [by rewrite string_app_nil_r|]. destruct H as [Hc H].
  rewrite string_app_cons. simpl. rewrite bool_decide_false, back_add_snoc, IH by done. do 3 f_equal. strings.
Qed.

Lemma split_loop_join delim l done x :
  Forall (all_chars (λ c, c ≠ delim)) (x :: l) →
  split_loop (join delim (x :: l)) delim (done ++ [""]) = done ++ x :: l.
Proof.
  revert done x. induction l as [|y l IH]; intros done x [Hx Hl]%Forall_cons.
  - cbn [join]. rewrite <-(string_app_nil_r x) at 1. by rewrite split_loop_app.
  - change (join delim (x :: y :: l)) with (x +:+ String delim (join delim (y :: l))).
    rewrite split_loop_app by done. cbn [split_loop]. rewrite bool_decide_true by done.
    rewrite IH by done. by rewrite <-app_assoc.
Qed.

Lemma split_join delim l : l ≠ [] → Forall (all_chars (λ c, c ≠ delim)) l → split (join delim l) delim = l.
Proof. destruct l as [|x l]; [done|]. intros _ H. by apply (split_loop_join delim l []). Qed.

(** ** Reading what [std::to_string] wrote *)

Lemma pretty_N_char_digit d : (d < 10)%N → digit (pretty_N_char d) = Some (Z.of_N d).
Proof.
  intros H. assert (d ∈ (N.of_nat <$> seq 0 10)) as Hd.
  { apply list_elem_of_fmap. exists (N.to_nat d). rewrite elem_of_seq. lia. }
  revert Hd. simpl. rewrite !elem_of_cons, elem_of_nil. intros Hd. by repeat destruct Hd as [->|Hd].
Qed.

Lemma pretty_N_go_ind (P : N → string → Prop) :
  (∀ s, P 0%N s) →
  (∀ x s, (0 < x)%N → P (x / 10)%N (String (pretty_N_char (x mod 10)) s) → P x s) → ∀ x s, P x s.
Proof.
  intros H0 Hs x. induction (N.lt_wf_0 x) as [x _ IH]. intros s. destruct (decide (x = 0%N)) as [->|Hx]; [done|].
  apply Hs; [lia|]. apply IH. apply N.div_lt; lia.
Qed.

Lemma read_pretty_N_go x s : read_digits 0 (pretty_N_go x s) = read_digits (Z.of_N x) s.
Proof.
  revert x s. apply pretty_N_go_ind; [done|]. intros x s Hx IH. rewrite pretty_N_go_step, IH by done. cbn [read_digits].
  rewrite pretty_N_char_digit by (apply N.mod_lt; lia). f_equal.
  rewrite (N.div_mod x 10) at 3 by done. lia.
Qed.

(** It starts with a digit, and has nothing but digits. *)
Lemma pretty_N_go_head x s : (0 < x)%N → ∃ d s', (d < 10)%N ∧ pretty_N_go x s = String (pretty_N_char d) s'.
Proof.
  revert x s. apply (pretty_N_go_ind (λ x s, (0 < x)%N → _)); [lia|]. intros x s Hx IH _.
  rewrite pretty_N_go_step by done. destruct (N.eq_0_gt_0_cases (x / 10)) as [->|Hne].
  - rewrite pretty_N_go_0. eexists _, s. split; [|done]. by apply N.mod_lt.
  - by apply IH.
Qed.

Definition is_digit (c : ascii) : Prop := is_Some (digit c).

Lemma pretty_N_go_digits x s : all_chars is_digit s → all_chars is_digit (pretty_N_go x s).
Proof.
  revert x s. apply (pretty_N_go_ind (λ x s, all_chars is_digit s → all_chars is_digit (pretty_N_go x s))).
  { intros s Hs. by rewrite pretty_N_go_0. }
  intros x s Hx IH Hs.
  rewrite pretty_N_go_step by done. apply IH. split; [|done]. eexists. by apply pretty_N_char_digit, N.mod_lt.
Qed.

Lemma all_chars_impl (P Q : ascii → Prop) s : (∀ c, P c → Q c) → all_chars P s → all_chars Q s.
Proof. intros H. induction s as [|c s IH]; simpl; [done|]. intros [Hc Hs]. auto. Qed.

Lemma digit_not_special c : is_digit c → is_space c = false ∧ c ≠ "-"%char ∧ c ≠ "+"%char ∧ c ≠ ","%char.
Proof.
  intros [d Hd]. unfold digit in Hd. unfold is_space.
  destruct ((48 <=? nat_of_ascii c) && (nat_of_ascii c <=? 57)) eqn:E; [|done].
  apply andb_true_iff in E as [E1%Nat.leb_le E2%Nat.leb_le]. split.
  - rewrite !orb_false_iff, andb_false_iff, !Nat.leb_gt, Nat.eqb_neq. lia.
  - split_and!; intros ->; vm_compute in E1, E2; lia.
Qed.

Lemma pretty_pos x : pretty (Z.pos x) = pretty_N_go (N.pos x) "".
Proof. done. Qed.

Lemma stoi_digits_pretty (negative : bool) x :
  let z := if negative then Z.neg x else Z.pos x in
  in_int32 z → stoi_digits negative (pretty_N_go (N.pos x) "") = Ok z.
Proof.
  intros z Hz. unfold in_int32 in Hz. destruct (pretty_N_go_head (N.pos x) "") as (d & s' & Hd & E); [lia|].
  pose proof (read_pretty_N_go (N.pos x) "") as Hr. rewrite E in *. unfold stoi_digits.
  rewrite (pretty_N_char_digit d Hd), Hr. cbn [read_digits].
  replace (if negative then (- Z.of_N (N.pos x))%Z else Z.of_N (N.pos x)) with z by by destruct negative.
  cbv zeta. by rewrite (proj2 (Z.leb_le _ _)), (proj2 (Z.ltb_lt _ _)) by lia.
Qed.

Lemma stoi_pretty z : in_int32 z → stoi (pretty z) = Ok z.
Proof.
  intros Hz. destruct z as [|x|x]; [done|..].
  - rewrite pretty_pos. rewrite <-(stoi_digits_pretty false x Hz).
    destruct (pretty_N_go_head (N.pos x) "") as (d & s' & Hd & ->); [lia|].
    destruct (digit_not_special (pretty_N_char d)) as (Hs & H1 & H2 & _).
    { eexists. by apply pretty_N_char_digit. }
    unfold stoi. cbn [skip_spaces]. by rewrite Hs, !bool_decide_false by done.
  - exact (stoi_digits_pretty true x Hz).
Qed.

Lemma pretty_no_comma (z : Z) : all_chars (λ c, c ≠ ","%char) (pretty z).
Proof.
  assert (∀ x, all_chars (λ c, c ≠ ","%char) (pretty_N_go (N.pos x) "")) as H.
  { intros x. apply (all_chars_impl is_digit); [intros c Hc; by apply digit_not_special|]. by apply pretty_N_go_digits. }
  destruct z as [|x|x]; [done|apply H|]. by split; [|apply H].
Qed.

(** ** Options *)

Lemma FromLiteral_GetLiteral t : FromLiteral (GetLiteral t) = Ok t.
Proof. by destruct t. Qed.

Lemma FromLiteral_Ok a t : FromLiteral a = Ok t → a = GetLiteral t.
Proof.
  unfold FromLiteral. destruct (String.eqb_spec a (GetLiteral PCT)) as [->|_]; [by intros [= <-]|].
  destruct (String.eqb_spec a (GetLiteral RND)) as [->|_]; [by intros [= <-]|].
  destruct (String.eqb_spec a (GetLiteral RR)) as [->|_]; [by intros [= <-]|].
  by destruct (String.eqb_spec a (GetLiteral TLA)) as [->|_]; [intros [= <-]|].
Qed.

Lemma parse_weights_pretty ws : Forall in_int32 ws → parse_weights (pretty <$> ws) = Ok ws.
Proof.
  induction 1 as [|w ws Hw _ IH]; [done|]. rewrite fmap_cons. cbn [parse_weights].
  rewrite stoi_pretty, IH by done. done.
Qed.

(** [--weights] as one writes it. *)
Definition weights_text (ws : list Z) : string := join "," (pretty <$> ws).

Lemma join_nonempty l s : l ≠ [] → (∀ x, x ∈ l → x ≠ ""%string) → join s l ≠ ""%string.
Proof.
  destruct l as [|x [|y l]]; [done|..]; intros _ H; [apply H; by left|]. destruct x as [|c x]; [|done].
  by specialize (H "" ltac:(by left)).
Qed.

Lemma pretty_Z_nonempty (z : Z) : pretty z ≠ ""%string.
Proof.
  destruct z as [|x|x]; [done| |done]. rewrite pretty_pos.
  by destruct (pretty_N_go_head (N.pos x) "") as (d & s' & _ & ->); [lia|].
Qed.

(** C37: The defaults a target sets reach the program: after [SetOpts], when no
    flag is given on the command line, [ParseOpts] reads back the numbers, the
    strategy from its literal and the weights from the comma separated list. *)
Theorem ParseOpts_SetOpts def flags t ws :
  let small x := (0 ≤ x < 2 ^ 31)%Z in
  small (def_threads def) → small (def_tasks def) → small (def_switches def) → small (def_rounds def) →
  small (def_depth def) → small (def_minimization_runs def) → small (def_exploration_runs def) →
  def_strategy def = GetLiteral t → def_weights def = weights_text ws → Forall in_int32 ws →
  ParseOpts (SetOpts def flags) = Ok {|
    threads := def_threads def;
    tasks := def_tasks def;
    switches := def_switches def;
    rounds := def_rounds def;
    minimize := FLAGS_minimize flags;
    exploration_runs := def_exploration_runs def;
    minimization_runs := def_minimization_runs def;
    depth := def_depth def;
    forbid_all_same := def_forbid_all_same def;
    verbose := def_verbose def;
    syscall_trap := false;
    typ := t;
    thread_weights := ws;
  |}.
Proof.
  intros small H1 H2 H3 H4 H5 H6 H7 Hs Hw Hws. unfold small in *. unfold ParseOpts, SetOpts. simpl.
  assert (∀ x, (0 ≤ x < 2 ^ 31)%Z → wrapu64 (wrap32 x) = x) as Hid.
  { intros x Hx. rewrite wrap32_id by (unfold in_int32; lia). apply wrapu64_id. lia. }
  rewrite Hs, FromLiteral_GetLiteral, Hw, !Hid by done. simpl. destruct ws as [|w ws]; [done|].
  destruct (String.eqb_spec (weights_text (w :: ws)) "") as [E|_].
  - exfalso. revert E. apply join_nonempty; [done|]. intros x (z & -> & _)%list_elem_of_fmap. apply pretty_Z_nonempty.
  - unfold weights_text. rewrite split_join, parse_weights_pretty; [done..|].
    apply Forall_fmap, Forall_true. intros z. apply pretty_no_comma.
Qed.

(** A negative number on the command line becomes a huge [size_t]: only
    flags that are not negative keep their value. *)
Theorem ParseOpts_sizes flags o :
  ParseOpts flags = Ok o → in_int32 (FLAGS_threads flags) → in_int32 (FLAGS_depth flags) →
  FLAGS_strategy flags = GetLiteral (typ o) ∧ syscall_trap o = false ∧
  threads o = (if (0 <=? FLAGS_threads flags)%Z then FLAGS_threads flags else 2 ^ 64 + FLAGS_threads flags)%Z ∧
  depth o = (if (0 <=? FLAGS_depth flags)%Z then FLAGS_depth flags else 2 ^ 64 + FLAGS_depth flags)%Z.
Proof.
  intros H H1 H2. unfold ParseOpts in H. apply bind_Ok in H as (t & Ht & H). apply bind_Ok in H as (ws & Hws & H).
  injection H as <-. simpl. split_and!; [by apply FromLiteral_Ok|done|..]; unfold in_int32, wrapu64 in *.
  - destruct (Z.leb_spec 0 (FLAGS_threads flags)); [apply Z.mod_small; lia|].
    rewrite <-(Z_mod_plus_full _ 1), Z.mod_small; lia.
  - destruct (Z.leb_spec 0 (FLAGS_depth flags)); [apply Z.mod_small; lia|].
    rewrite <-(Z_mod_plus_full _ 1), Z.mod_small; lia.
Qed.
