(* ===== verification/StableVector.v ===== *)
(** * StableVector: the vector that owns the tasks (stable_vector.h)

    A vector whose elements never move: the element with index [i] lives in
    bucket [log2 (i + 1)], an array of [2 ^ bucket] cells.  The model keeps the
    memory: a bucket is a null pointer or an array of cells, a cell is raw
    memory or a constructed element; dereferencing null, indexing out of an
    array, reading or destroying a raw cell and [__builtin_clzll(0)] are
    failures.  [sv_rep v l] says that [v] holds the list [l]; every operation is
    shown to implement the list operation, within the bounds of [entities]. *)

From stdpp Require Import base list strings option.
From Stdlib Require Import ZArith Lia.
From S2P Require Import Prelude.

(** An array of [2 ^ i] cells. *)
Abbreviation bucket T := (list (option T)).

Section stable_vector.
Context {T : Type}.

Record StableVector := mk_StableVector {
  entities : list (option (bucket T));   (* std::array<type_t *, 31> *)
  total_size : Z;                    (* size_t *)
}.

(** The number of entries of [entities]. *)
Definition max_buckets : nat := 31.

Definition sv_empty : StableVector := mk_StableVector (replicate max_buckets None) 0.

(** [63 - __builtin_clzll(x)]. *)
Definition clzll (x : Z) : outcome Z :=
  if (x =? 0)%Z then Fail (Undefined "__builtin_clzll(0)") else Ok (63 - Z.log2 x)%Z.
Definition top_bit (x : Z) : outcome Z := c ← clzll x; Ok (63 - c)%Z.

Definition get_entity (v : StableVector) (index : Z) : outcome (option (bucket T)) :=
  or_fail (OutOfRange "entities") (entities v !! Z.to_nat index).
Definition set_entity (v : StableVector) (index : Z) (e : option (bucket T)) : StableVector :=
  mk_StableVector (<[Z.to_nat index := e]> (entities v)) (total_size v).

(** [entities[index][internal_index]]: the bucket and the cell it holds. *)
Definition get_cell (v : StableVector) (index internal_index : Z) : outcome (bucket T * option T) :=
  e ← get_entity v index;
  cells ← or_fail (Undefined "null bucket") e;
  cell ← or_fail (OutOfRange "bucket") (cells !! Z.to_nat internal_index);
  Ok (cells, cell).

Definition set_cell (v : StableVector) (index internal_index : Z) (cells : bucket T)
    (cell : option T) : StableVector :=
  set_entity v index (Some (<[Z.to_nat internal_index := cell]> cells)).

Definition set_size (v : StableVector) (n : Z) : StableVector := mk_StableVector (entities v) n.

(** [emplace_back] (lines 51-62). *)
Definition emplace_back (x : T) (v : StableVector) : outcome StableVector :=
  let n := (total_size v + 1)%Z in
  index ← top_bit n;
  v ← (if (Z.land n (total_size v) =? 0)%Z then
         e ← get_entity v index;
         match e with
         | None => Ok (set_entity v index (Some (replicate (Z.to_nat (Z.shiftl 1 index)) None)))
         | Some _ => Ok v
         end
       else Ok v);
  let internal_index := Z.lxor n (Z.shiftl 1 index) in
  '(cells, _) ← get_cell v index internal_index;
  Ok (set_size (set_cell v index internal_index cells (Some x)) n).

(** [pop_back] (lines 64-73). *)
Definition pop_back (v : StableVector) : outcome StableVector :=
  let n := total_size v in
  index ← top_bit n;
  v ← (if (Z.land (n - 1) n =? 0)%Z then
         e ← get_entity v (index + 1)%Z;
         match e with
         | Some _ => Ok (set_entity v (index + 1)%Z None)
         | None => Ok v
         end
       else Ok v);
  let internal_index := Z.lxor n (Z.shiftl 1 index) in
  '(cells, cell) ← get_cell v index internal_index;
  _ ← or_fail (Undefined "destroying raw memory") cell;
  Ok (set_size (set_cell v index internal_index cells None) (n - 1)).

(** [operator[]] (lines 75-87). *)
Definition at_index (v : StableVector) (i : Z) : outcome T :=
  let i := (i + 1)%Z in
  index ← top_bit i;
  let internal_index := Z.lxor i (Z.shiftl 1 index) in
  '(_, cell) ← get_cell v index internal_index;
  or_fail (Undefined "reading raw memory") cell.

Definition front (v : StableVector) : outcome T := at_index v 0.
Definition back (v : StableVector) : outcome T := at_index v (total_size v - 1).
Definition size (v : StableVector) : Z := total_size v.
Definition empty (v : StableVector) : bool := (size v =? 0)%Z.

(** [resize] (lines 89-96): the two loops, run the number of times their
    conditions allow. *)
Fixpoint grow (n : nat) (x : T) (v : StableVector) : outcome StableVector :=
  match n with
  | 0 => Ok v
  | S n => v ← emplace_back x v; grow n x v
  end.
Fixpoint shrink (n : nat) (v : StableVector) : outcome StableVector :=
  match n with
  | 0 => Ok v
  | S n => v ← pop_back v; shrink n v
  end.
Definition resize (new_size : Z) (x : T) (v : StableVector) : outcome StableVector :=
  v ← grow (Z.to_nat (new_size - total_size v)) x v;
  shrink (Z.to_nat (total_size v - new_size)) v.

(** The move constructor (lines 12-17) and the move assignment (21-28): the
    new state of the target and of [rhs]. *)
Definition move_construct (rhs : StableVector) : StableVector * StableVector :=
  (mk_StableVector (entities rhs) (total_size rhs),
   mk_StableVector (replicate max_buckets None) (total_size rhs)).
Definition move_assign (this rhs : StableVector) : StableVector * StableVector :=
  (mk_StableVector (entities rhs) (total_size rhs), mk_StableVector (entities this) 0).

(** The destructor (lines 32-45): the elements it destroys, in order. *)
Fixpoint destroy_cells (cells : bucket T) (i j limit : Z) : outcome (list T) :=
  match cells with
  | [] => Ok []
  | cell :: rest =>
      if ((j <? Z.shiftl 1 i) && (j + Z.shiftl 1 i <? limit))%Z then
        x ← or_fail (Undefined "destroying raw memory") cell;
        xs ← destroy_cells rest i (j + 1) limit;
        Ok (x :: xs)
      else Ok []
  end.
Fixpoint destroy_buckets (es : list (option (bucket T))) (i limit : Z) : outcome (list T) :=
  match es with
  | Some cells :: rest =>
      xs ← destroy_cells cells i 0 limit;
      ys ← destroy_buckets rest (i + 1) limit;
      Ok (xs ++ ys)
  | _ => Ok []
  end.
Definition destructor (v : StableVector) : outcome (list T) :=
  destroy_buckets (entities v) 0 (size v + 1).
End stable_vector.
Arguments StableVector : clear implicits.

(** ** Bit arithmetic *)

(** The bucket and the offset of the element number [n] (from 1). *)
Record address (n k j : nat) : Prop := {
  ad_split : n = 2 ^ k + j;
  ad_offset : j < 2 ^ k;
}.

Lemma address_fun n k j k' j' : address n k j → address n k' j' → k = k' ∧ j = j'.
Proof.
  intros [H1 H2] [H3 H4].
  assert (k = k') as ->; [|lia].
  destruct (lt_eq_lt_dec k k') as [[Hlt| ->]|Hlt]; [|done|]; exfalso.
  - assert (2 ^ S k ≤ 2 ^ k') by (apply Nat.pow_le_mono_r; lia). simpl in *. lia.
  - assert (2 ^ S k' ≤ 2 ^ k) by (apply Nat.pow_le_mono_r; lia). simpl in *. lia.
Qed.

Lemma pow2_Z k : Z.of_nat (2 ^ k) = (2 ^ Z.of_nat k)%Z.
Proof. by rewrite Nat2Z.inj_pow. Qed.

Lemma shiftl_1 k : Z.shiftl 1 (Z.of_nat k) = Z.of_nat (2 ^ k).
Proof. rewrite Z.shiftl_1_l, pow2_Z. done. Qed.

Lemma land_pow2_small k r : (0 ≤ r < 2 ^ Z.of_nat k)%Z → Z.land r (2 ^ Z.of_nat k) = 0%Z.
Proof.
  intros Hr. apply Z.bits_inj'. intros i Hi. rewrite Z.land_spec, Z.bits_0, Z.pow2_bits_eqb by lia.
  destruct (Z.eqb_spec (Z.of_nat k) i) as [<-|]; [|by rewrite andb_false_r].
  rewrite andb_true_r. destruct (Z.eq_dec r 0) as [->|]; [apply Z.bits_0|].
  apply Z.bits_above_log2; [lia|]. apply Z.log2_lt_pow2; lia.
Qed.

Lemma lxor_address n k j :
  address n k j → Z.lxor (Z.of_nat n) (Z.shiftl 1 (Z.of_nat k)) = Z.of_nat j.
Proof.
  intros [-> Hj]. rewrite shiftl_1, Nat2Z.inj_add, !pow2_Z.
  assert (Z.of_nat j < 2 ^ Z.of_nat k)%Z by (rewrite <-pow2_Z; lia).
  rewrite (Z.add_comm (2 ^ _)), Z.add_nocarry_lxor by (apply land_pow2_small; lia).
  rewrite Z.lxor_assoc, Z.lxor_nilpotent. apply Z.lxor_0_r.
Qed.

Lemma top_bit_address n k j : address n k j → top_bit (Z.of_nat n) = Ok (Z.of_nat k).
Proof.
  intros [-> Hj]. unfold top_bit, clzll. pose proof (Nat.pow_nonzero 2 k ltac:(lia)).
  destruct (Z.eqb_spec (Z.of_nat (2 ^ k + j)) 0); [lia|]. simpl. f_equal.
  rewrite (Z.log2_unique (Z.of_nat (2 ^ k + j)) (Z.of_nat k)); [lia|lia|].
  rewrite Z.pow_succ_r by lia. rewrite <-pow2_Z. lia.
Qed.

Lemma land_pred_address n k j :
  address n k j → (Z.land (Z.of_nat n) (Z.of_nat n - 1) =? 0)%Z = (j =? 0)%nat.
Proof.
  intros [-> Hj]. rewrite Nat2Z.inj_add, pow2_Z.
  assert (Z.of_nat j < 2 ^ Z.of_nat k)%Z by (rewrite <-pow2_Z; lia).
  destruct (Nat.eqb_spec j 0) as [->|Hne].
  - rewrite Z.add_0_r.
    replace (2 ^ Z.of_nat k - 1)%Z with (Z.ones (Z.of_nat k)) by (rewrite Z.ones_equiv; lia).
    rewrite Z.land_ones by lia. apply Z.eqb_eq, Z.mod_same. lia.
  - apply Z.eqb_neq. intros H0.
    assert (∀ x, (0 ≤ x < 2 ^ Z.of_nat k)%Z → Z.testbit (2 ^ Z.of_nat k + x) (Z.of_nat k) = true) as Hbit.
    { intros x Hx. apply Z.testbit_true; [lia|].
      replace (2 ^ Z.of_nat k + x)%Z with (x + 1 * 2 ^ Z.of_nat k)%Z by lia.
      rewrite Z.div_add, Z.div_small by lia. done. }
    assert (Z.testbit (Z.land (2 ^ Z.of_nat k + Z.of_nat j) (2 ^ Z.of_nat k + Z.of_nat j - 1)) (Z.of_nat k) = true) as Hl.
    { rewrite Z.land_spec, Hbit by lia.
      replace (2 ^ Z.of_nat k + Z.of_nat j - 1)%Z with (2 ^ Z.of_nat k + (Z.of_nat j - 1))%Z by lia.
      by rewrite Hbit by lia. }
    rewrite H0, Z.bits_0 in Hl. done.
Qed.

Lemma address_exists n : 0 < n → ∃ k j, address n k j.
Proof.
  intros Hn. exists (Nat.log2 n), (n - 2 ^ Nat.log2 n).
  pose proof (Nat.log2_spec n Hn) as [H1 H2]. simpl in H2. split; lia.
Qed.

Lemma address_bound n k j m :
  address n k j → (Z.of_nat n < 2 ^ Z.of_nat m)%Z → k < m.
Proof.
  intros [-> Hj] Hn. destruct (decide (k < m)) as [?|Hge]; [done|]. exfalso.
  assert (2 ^ Z.of_nat m ≤ 2 ^ Z.of_nat k)%Z by (apply Z.pow_le_mono_r; lia).
  rewrite Nat2Z.inj_add, pow2_Z in Hn. lia.
Qed.

Lemma pow2_pos k : 0 < 2 ^ k.
Proof. pose proof (Nat.pow_nonzero 2 k). lia. Qed.

#[export] Hint Resolve pow2_pos : ltest.

(** ** Representation *)

Section representation.
Context {T : Type}.

(** [v] holds [l]: every allocated bucket has its size and its share of [l]
    (raw cells beyond the end); the buckets that [l] needs are allocated, and
    at most one more. *)
Record sv_rep (v : StableVector T) (l : list T) : Prop := {
  sr_entities : length (entities v) = max_buckets;
  sr_size : total_size v = Z.of_nat (length l);
  sr_bucket : ∀ k b, entities v !! k = Some (Some b) →
    length b = 2 ^ k ∧ ∀ j, j < 2 ^ k → b !! j = Some (l !! (2 ^ k + j - 1));
  sr_used : ∀ k, 2 ^ k ≤ length l → ∃ b, entities v !! k = Some (Some b);
  sr_spare : ∀ k b, entities v !! k = Some (Some b) → 2 ^ k ≤ 2 * length l + 1;
}.

Implicit Types (v : StableVector T) (l : list T).

Lemma sv_empty_rep : sv_rep sv_empty [].
Proof.
  assert (∀ k b, entities (T:=T) sv_empty !! k = Some (Some b) → False) as Hno.
  { intros k b. unfold sv_empty. simpl entities.
    intros [? ?]%(lookup_replicate_1 max_buckets (None : option (bucket T))). done. }
  split; [reflexivity|done| | |].
  - intros k b Hb. by destruct (Hno _ _ Hb).
  - intros k Hk. pose proof (pow2_pos k). simpl in Hk. lia.
  - intros k b Hb. by destruct (Hno _ _ Hb).
Qed.

Lemma get_entity_nat v k : get_entity v (Z.of_nat k) = or_fail (OutOfRange "entities") (entities v !! k).
Proof. unfold get_entity. by rewrite Nat2Z.id. Qed.

Lemma get_cell_rep v l k j b :
  sv_rep v l → entities v !! k = Some (Some b) → j < 2 ^ k →
  get_cell v (Z.of_nat k) (Z.of_nat j) = Ok (b, l !! (2 ^ k + j - 1)).
Proof.
  intros HR Hb Hj. unfold get_cell. rewrite get_entity_nat, Hb. simpl.
  rewrite Nat2Z.id. destruct (sr_bucket _ _ HR _ _ Hb) as [_ Hc]. by rewrite Hc.
Qed.

(** [v] and [v'] hold the same list; [v'] also has bucket [k]. *)
Lemma alloc_rep v l k :
  sv_rep v l → k < max_buckets → 2 ^ k = S (length l) →
  sv_rep (set_entity v (Z.of_nat k) (Some (replicate (2 ^ k) None))) l.
Proof.
  intros HR Hk Hn. destruct HR as [He Hs Hb Hu Hsp]. unfold set_entity. rewrite Nat2Z.id.
  split; simpl; [by rewrite length_insert|done| | |].
  - intros k' b. destruct (decide (k = k')) as [<-|Hne].
    + rewrite list_lookup_insert_eq by lia. intros [= <-]. rewrite length_replicate. split; [done|].
      intros j Hj. rewrite lookup_replicate_2 by done. symmetry. f_equal.
      apply lookup_ge_None. lia.
    + rewrite list_lookup_insert_ne by done. apply Hb.
  - intros k' Hk'. rewrite list_lookup_insert_ne; [by apply Hu|]. intros <-. lia.
  - intros k' b. destruct (decide (k = k')) as [<-|Hne].
    + intros _. lia.
    + rewrite list_lookup_insert_ne by done. apply Hsp.
Qed.

Lemma store_rep v l x k j b :
  sv_rep v l → address (S (length l)) k j → entities v !! k = Some (Some b) →
  sv_rep (set_size (set_cell v (Z.of_nat k) (Z.of_nat j) b (Some x)) (Z.of_nat (S (length l))))
    (l ++ [x]).
Proof.
  intros HR Ha Hbk. pose proof Ha as [Hn Hj]. destruct HR as [He Hs Hb Hu Hsp].
  pose proof (lookup_lt_Some _ _ _ Hbk) as Hkl. destruct (Hb _ _ Hbk) as [Hlb Hcb].
  unfold set_cell, set_entity, set_size. simpl. rewrite !Nat2Z.id.
  assert (∀ k' j', j' < 2 ^ k' → (k', j') ≠ (k, j) →
            (l ++ [x]) !! (2 ^ k' + j' - 1) = l !! (2 ^ k' + j' - 1)) as Hother.
  { intros k' j' Hj' Hne. pose proof (pow2_pos k').
    destruct (lt_eq_lt_dec (2 ^ k' + j' - 1) (length l)) as [[?|Heq]|?].
    - by rewrite lookup_app_l.
    - destruct Hne. destruct (address_fun (S (length l)) k' j' k j) as [-> ->]; [split; lia|done..].
    - rewrite !lookup_ge_None_2; [done|lia|rewrite length_app; simpl; lia]. }
  split; simpl; [by rewrite length_insert|rewrite length_app; simpl; lia| | |].
  - intros k' b'. destruct (decide (k = k')) as [<-|Hne].
    + rewrite list_lookup_insert_eq by done. intros [= <-]. rewrite length_insert. split; [done|].
      intros j' Hj'. destruct (decide (j' = j)) as [->|Hjj].
      * rewrite list_lookup_insert_eq by lia. f_equal. symmetry.
        rewrite lookup_app_r by lia. by replace (2 ^ k + j - 1 - length l) with 0 by lia.
      * rewrite list_lookup_insert_ne by done. rewrite Hother by (done || congruence). by apply Hcb.
    + rewrite list_lookup_insert_ne by done. intros Hb'. destruct (Hb _ _ Hb') as [? Hc]. split; [done|].
      intros j' Hj'. rewrite Hother by (done || congruence). by apply Hc.
  - intros k' Hk'. destruct (decide (k = k')) as [<-|Hne]; [rewrite list_lookup_insert_eq by done; eauto|].
    rewrite list_lookup_insert_ne by done. apply Hu. rewrite length_app in Hk'. simpl in Hk'.
    destruct (decide (2 ^ k' = S (length l))) as [Heq|]; [|lia]. destruct Hne.
    eapply (address_fun (S (length l)) k j k' 0); [done|]. split; [lia|apply pow2_pos].
  - intros k' b'. rewrite length_app. simpl. destruct (decide (k = k')) as [<-|Hne].
    + intros _. lia.
    + rewrite list_lookup_insert_ne by done. intros Hb'%Hsp. lia.
Qed.

Lemma emplace_back_rep v l x :
  sv_rep v l → (Z.of_nat (length l) + 1 < 2 ^ 31)%Z →
  ∃ v', emplace_back x v = Ok v' ∧ sv_rep v' (l ++ [x]).
Proof.
  intros HR Hlen. destruct (address_exists (S (length l))) as (k & j & Ha); [lia|].
  assert (k < max_buckets) as Hk by (eapply address_bound; [done|]; unfold max_buckets; lia).
  unfold emplace_back. rewrite (sr_size _ _ HR).
  replace (Z.of_nat (length l) + 1)%Z with (Z.of_nat (S (length l))) by lia.
  rewrite (top_bit_address _ _ _ Ha). cbn [mbind outcome_bind].
  replace (Z.of_nat (length l)) with (Z.of_nat (S (length l)) - 1)%Z by lia.
  rewrite (land_pred_address _ _ _ Ha), (lxor_address _ _ _ Ha), get_entity_nat, shiftl_1, Nat2Z.id.
  assert (∃ v1 b, (if (j =? 0)%nat
            then e ← or_fail (OutOfRange "entities") (entities v !! k);
                 match e with
                 | Some _ => Ok v
                 | None => Ok (set_entity v (Z.of_nat k) (Some (replicate (2 ^ k) None)))
                 end
            else Ok v) = Ok v1 ∧ sv_rep v1 l ∧ entities v1 !! k = Some (Some b)) as (v1 & b & -> & HR1 & Hb1).
  { pose proof Ha as [Hn Hj]. destruct (Nat.eqb_spec j 0) as [->|Hj0].
    - destruct (lookup_lt_is_Some_2 (entities v) k) as [e He]; [by rewrite (sr_entities _ _ HR)|].
      rewrite He. simpl. destruct e as [b|]; [by exists v, b|]. eexists _, _.
      split; [done|]. split; [apply alloc_rep; [done..|lia]|].
      unfold set_entity. simpl. rewrite Nat2Z.id, list_lookup_insert_eq; [done|].
      by rewrite (sr_entities _ _ HR).
    - destruct (sr_used _ _ HR k) as [b Hb]; [lia|]. by exists v, b. }
  cbn [mbind outcome_bind]. rewrite (get_cell_rep _ _ _ _ _ HR1 Hb1) by apply Ha.
  eexists. split; [done|]. by apply store_rep.
Qed.

(** Beyond [2 ^ 31 - 1] elements [emplace_back] indexes outside of [entities]. *)
Lemma emplace_back_full v l x :
  sv_rep v l → (Z.of_nat (length l) + 1 = 2 ^ 31)%Z →
  emplace_back x v = Fail (OutOfRange "entities").
Proof.
  intros HR Hlen. unfold emplace_back. rewrite (sr_size _ _ HR), Hlen.
  replace (Z.of_nat (length l)) with (2 ^ 31 - 1)%Z by lia.
  change (top_bit (2 ^ 31)) with (@Ok Z 31%Z). cbn [mbind outcome_bind].
  change (Z.land (2 ^ 31) (2 ^ 31 - 1) =? 0)%Z with true.
  unfold get_entity. change (Z.to_nat 31) with 31.
  rewrite (lookup_ge_None_2 (entities v) 31); [done|]. by rewrite (sr_entities _ _ HR).
Qed.

(** Freeing the spare bucket of a vector about to shrink. *)
Lemma free_rep v l k :
  sv_rep v l → length l = 2 ^ k → sv_rep (set_entity v (Z.of_nat (S k)) None) l.
Proof.
  intros [He Hs Hb Hu Hsp] Hn. unfold set_entity. rewrite Nat2Z.id.
  pose proof (pow2_pos k).
  split; simpl; [by rewrite length_insert|done| | |].
  - intros k' b [[_ [? _]]|[_ Hb']]%list_lookup_insert_Some; [done|]. by apply Hb.
  - intros k' Hk'. rewrite list_lookup_insert_ne; [by apply Hu|]. intros <-. simpl in Hk'. lia.
  - intros k' b [[_ [? _]]|[_ Hb']]%list_lookup_insert_Some; [done|]. by eapply Hsp.
Qed.

Lemma unstore_rep v l x k j b :
  sv_rep v (l ++ [x]) → address (S (length l)) k j → entities v !! k = Some (Some b) →
  (j = 0 → ∀ b', entities v !! S k ≠ Some (Some b')) →
  sv_rep (set_size (set_cell v (Z.of_nat k) (Z.of_nat j) b None) (Z.of_nat (length l))) l.
Proof.
  intros HR Ha Hbk Hspare. pose proof Ha as [Hn Hj]. destruct HR as [He Hs Hb Hu Hsp].
  rewrite length_app in Hu, Hsp. simpl in Hu, Hsp.
  pose proof (lookup_lt_Some _ _ _ Hbk) as Hkl. destruct (Hb _ _ Hbk) as [Hlb Hcb].
  unfold set_cell, set_entity, set_size. simpl. rewrite !Nat2Z.id.
  assert (∀ k' j', j' < 2 ^ k' → (k', j') ≠ (k, j) →
            (l ++ [x]) !! (2 ^ k' + j' - 1) = l !! (2 ^ k' + j' - 1)) as Hother.
  { intros k' j' Hj' Hne. pose proof (pow2_pos k').
    destruct (lt_eq_lt_dec (2 ^ k' + j' - 1) (length l)) as [[?|Heq]|?].
    - by rewrite lookup_app_l.
    - destruct Hne. destruct (address_fun (S (length l)) k' j' k j) as [-> ->]; [split; lia|done..].
    - rewrite !lookup_ge_None_2; [done|lia|rewrite length_app; simpl; lia]. }
  split; simpl; [by rewrite length_insert|done| | |].
  - intros k' b'. destruct (decide (k = k')) as [<-|Hne].
    + rewrite list_lookup_insert_eq by done. intros [= <-]. rewrite length_insert. split; [done|].
      intros j' Hj'. destruct (decide (j' = j)) as [->|Hjj].
      * rewrite list_lookup_insert_eq by lia. f_equal. symmetry. apply lookup_ge_None. lia.
      * rewrite list_lookup_insert_ne by done. rewrite <-Hother by (done || congruence). by apply Hcb.
    + rewrite list_lookup_insert_ne by done. intros Hb'. destruct (Hb _ _ Hb') as [? Hc]. split; [done|].
      intros j' Hj'. rewrite <-Hother by (done || congruence). by apply Hc.
  - intros k' Hk'. destruct (decide (k = k')) as [<-|Hne]; [rewrite list_lookup_insert_eq by done; eauto|].
    rewrite list_lookup_insert_ne by done. apply Hu. lia.
  - intros k' b'. destruct (decide (k = k')) as [<-|Hne]; [intros _; lia|].
    rewrite list_lookup_insert_ne by done. intros Hb'. pose proof (Hsp _ _ Hb') as Hle.
    destruct (decide (k' = S k)) as [->|Hk'].
    + destruct (decide (j = 0)) as [Hj0|]; [by destruct (Hspare Hj0 b')|]. simpl. lia.
    + destruct (decide (k' ≤ k)).
      * assert (2 ^ k' ≤ 2 ^ k) by (apply Nat.pow_le_mono_r; lia). lia.
      * assert (2 ^ S (S k) ≤ 2 ^ k') by (apply Nat.pow_le_mono_r; lia). simpl in *. lia.
Qed.

Lemma pop_back_rep v l x :
  sv_rep v (l ++ [x]) → (Z.of_nat (length l) + 1 ≠ 2 ^ 30)%Z →
  ∃ v', pop_back v = Ok v' ∧ sv_rep v' l.
Proof.
  intros HR Hlen. destruct (address_exists (S (length l))) as (k & j & Ha); [lia|].
  pose proof Ha as [Hn Hj].
  assert (total_size v = Z.of_nat (S (length l))) as Hsz.
  { rewrite (sr_size _ _ HR), length_app. simpl. lia. }
  destruct (sr_used _ _ HR k) as [b Hb]; [rewrite length_app; simpl; lia|].
  pose proof (lookup_lt_Some _ _ _ Hb) as Hk. rewrite (sr_entities _ _ HR) in Hk.
  unfold pop_back. rewrite Hsz, (top_bit_address _ _ _ Ha). cbn [mbind outcome_bind].
  rewrite Z.land_comm, (land_pred_address _ _ _ Ha), (lxor_address _ _ _ Ha).
  replace (Z.of_nat k + 1)%Z with (Z.of_nat (S k)) by lia. rewrite get_entity_nat.
  assert (∃ v1, (if (j =? 0)%nat
            then e ← or_fail (OutOfRange "entities") (entities v !! S k);
                 match e with
                 | Some _ => Ok (set_entity v (Z.of_nat (S k)) None)
                 | None => Ok v
                 end
            else Ok v) = Ok v1 ∧ sv_rep v1 (l ++ [x]) ∧ entities v1 !! k = Some (Some b) ∧
              (j = 0 → ∀ b', entities v1 !! S k ≠ Some (Some b'))) as (v1 & -> & HR1 & Hb1 & Hno).
  { destruct (Nat.eqb_spec j 0) as [->|Hj0]; [|by exists v].
    assert (S k < max_buckets) as HSk.
    { destruct (decide (k = 30)) as [->|]; [|unfold max_buckets in *; lia].
      destruct Hlen. replace (Z.of_nat (length l) + 1)%Z with (Z.of_nat (S (length l))) by lia.
      rewrite Hn, Nat.add_0_r, pow2_Z. done. }
    destruct (lookup_lt_is_Some_2 (entities v) (S k)) as [e He]; [by rewrite (sr_entities _ _ HR)|].
    rewrite He. simpl. destruct e as [b'|].
    - eexists. split; [done|]. split; [apply free_rep; [done|rewrite length_app; simpl; lia]|].
      unfold set_entity. cbn [entities]. rewrite Nat2Z.id.
      rewrite list_lookup_insert_ne by lia. split; [done|]. intros _ b1.
      rewrite list_lookup_insert_eq; [done|]. by rewrite (sr_entities _ _ HR).
    - exists v. split_and!; [done..|]. intros _ b1. by rewrite He. }
  cbn [mbind outcome_bind]. rewrite (get_cell_rep _ _ _ _ _ HR1 Hb1) by done. cbn [mbind outcome_bind].
  rewrite lookup_app_r by lia. replace (2 ^ k + j - 1 - length l) with 0 by lia. simpl.
  eexists. split; [done|].
  replace (Z.of_nat (S (length l)) - 1)%Z with (Z.of_nat (length l)) by lia.
  by eapply unstore_rep.
Qed.

(** At [2 ^ 30] elements [pop_back] reads [entities[31]], past the array. *)
Lemma pop_back_2_30 v l :
  sv_rep v l → (Z.of_nat (length l) = 2 ^ 30)%Z → pop_back v = Fail (OutOfRange "entities").
Proof.
  intros HR Hlen. unfold pop_back. rewrite (sr_size _ _ HR), Hlen.
  change (top_bit (2 ^ 30)) with (@Ok Z 30%Z). cbn [mbind outcome_bind].
  change (Z.land (2 ^ 30 - 1) (2 ^ 30) =? 0)%Z with true.
  unfold get_entity. change (Z.to_nat (30 + 1)) with 31.
  rewrite (lookup_ge_None_2 (entities v) 31); [done|]. by rewrite (sr_entities _ _ HR).
Qed.

Lemma pop_back_empty v : sv_rep v [] → pop_back v = Fail (Undefined "__builtin_clzll(0)").
Proof. intros HR. unfold pop_back. by rewrite (sr_size _ _ HR). Qed.

Lemma at_index_rep v l i x :
  sv_rep v l → l !! i = Some x → at_index v (Z.of_nat i) = Ok x.
Proof.
  intros HR Hi. destruct (address_exists (S i)) as (k & j & Ha); [lia|].
  pose proof Ha as [Hn Hj]. pose proof (lookup_lt_Some _ _ _ Hi) as Hil.
  destruct (sr_used _ _ HR k) as [b Hb]; [lia|].
  unfold at_index. replace (Z.of_nat i + 1)%Z with (Z.of_nat (S i)) by lia.
  rewrite (top_bit_address _ _ _ Ha). cbn [mbind outcome_bind].
  rewrite (lxor_address _ _ _ Ha), (get_cell_rep _ _ _ _ _ HR Hb) by done. cbn [mbind outcome_bind].
  replace (2 ^ k + j - 1) with i by lia. by rewrite Hi.
Qed.

Lemma back_rep v l x : sv_rep v (l ++ [x]) → back v = Ok x.
Proof.
  intros HR. unfold back. rewrite (sr_size _ _ HR), length_app. simpl.
  replace (Z.of_nat (length l + 1) - 1)%Z with (Z.of_nat (length l)) by lia.
  apply at_index_rep with (l := l ++ [x]); [done|]. by rewrite lookup_app_r, Nat.sub_diag by lia.
Qed.

Lemma empty_rep v l : sv_rep v l → empty v = bool_decide (l = []).
Proof.
  intros HR. unfold empty, size. rewrite (sr_size _ _ HR).
  destruct l; [done|]. by rewrite bool_decide_false.
Qed.

(** *** [resize] *)

Lemma grow_rep n x v l :
  sv_rep v l → (Z.of_nat (length l + n) < 2 ^ 31)%Z →
  ∃ v', grow n x v = Ok v' ∧ sv_rep v' (l ++ replicate n x).
Proof.
  revert v l. induction n as [|n IH]; intros v l HR Hlen.
  - exists v. simpl. by rewrite app_nil_r.
  - simpl. destruct (emplace_back_rep v l x HR) as (v1 & -> & HR1); [lia|]. simpl.
    destruct (IH v1 (l ++ [x]) HR1) as (v2 & -> & HR2); [rewrite length_app; simpl; lia|].
    exists v2. split; [done|]. by rewrite <-app_assoc in HR2.
Qed.

Lemma shrink_rep n v l l' :
  sv_rep v (l ++ l') → length l' = n → (Z.of_nat (length l + n) < 2 ^ 30)%Z →
  ∃ v', shrink n v = Ok v' ∧ sv_rep v' l.
Proof.
  revert v l'. induction n as [|n IH]; intros v l' HR Hn Hlen.
  - apply length_zero_iff_nil in Hn as ->. exists v. by rewrite app_nil_r in HR.
  - destruct l' as [|y l' _] using rev_ind; [done|]. rewrite length_app in Hn. simpl in Hn.
    rewrite app_assoc in HR. simpl.
    destruct (pop_back_rep v (l ++ l') y HR) as (v1 & -> & HR1); [rewrite length_app; lia|].
    simpl. apply (IH v1 l'); [done|lia|lia].
Qed.

Lemma resize_rep v l n x :
  sv_rep v l → (Z.of_nat (length l) < 2 ^ 30)%Z → (Z.of_nat n < 2 ^ 30)%Z →
  ∃ v', resize (Z.of_nat n) x v = Ok v' ∧ sv_rep v' (take n l ++ replicate (n - length l) x).
Proof.
  intros HR Hl Hn. unfold resize. rewrite (sr_size _ _ HR).
  replace (Z.to_nat (Z.of_nat n - Z.of_nat (length l))) with (n - length l) by lia.
  destruct (grow_rep (n - length l) x v l HR) as (v1 & -> & HR1); [lia|]. cbn [mbind outcome_bind].
  rewrite (sr_size _ _ HR1), length_app, length_replicate.
  replace (Z.to_nat (Z.of_nat (length l + (n - length l)) - Z.of_nat n)) with (length l - n) by lia.
  destruct (decide (length l ≤ n)).
  - replace (length l - n) with 0 by lia. exists v1. rewrite take_ge by lia. done.
  - replace (n - length l) with 0 in * by lia. simpl in *. rewrite !app_nil_r in *.
    rewrite <-(take_drop n l) in HR1.
    destruct (shrink_rep (length l - n) v1 (take n l) (drop n l)) as (v2 & -> & HR2);
      [done|by rewrite length_drop|rewrite length_take; lia|]. by exists v2.
Qed.

(** *** The destructor *)

Lemma destroy_cells_rep v l k b n j :
  sv_rep v l → entities v !! k = Some (Some b) → j + n = 2 ^ k →
  destroy_cells (drop j b) (Z.of_nat k) (Z.of_nat j) (Z.of_nat (length l) + 1) =
    Ok (take n (drop (2 ^ k + j - 1) l)).
Proof.
  intros HR Hb. revert j. destruct (sr_bucket _ _ HR _ _ Hb) as [Hlb Hcb].
  pose proof (pow2_pos k). induction n as [|n IH]; intros j Hj.
  - rewrite drop_ge by lia. done.
  - specialize (Hcb j ltac:(lia)).
    rewrite (drop_S b _ j Hcb). simpl. rewrite shiftl_1.
    rewrite (proj2 (Z.ltb_lt (Z.of_nat j) (Z.of_nat (2 ^ k)))) by lia. simpl.
    destruct (l !! (2 ^ k + j - 1)) as [x|] eqn:Hx.
    + pose proof (lookup_lt_Some _ _ _ Hx).
      rewrite (proj2 (Z.ltb_lt _ _)) by lia. simpl.
      replace (Z.of_nat j + 1)%Z with (Z.of_nat (S j)) by lia. rewrite IH by lia. simpl.
      rewrite (drop_S l _ _ Hx). replace (2 ^ k + S j - 1) with (S (2 ^ k + j - 1)) by lia. done.
    + apply lookup_ge_None in Hx. rewrite (proj2 (Z.ltb_ge _ _)) by lia.
      by rewrite drop_ge by lia.
Qed.

Lemma destroy_buckets_rep v l n k :
  sv_rep v l → k + n = max_buckets →
  destroy_buckets (drop k (entities v)) (Z.of_nat k) (Z.of_nat (length l) + 1) =
    Ok (drop (2 ^ k - 1) l).
Proof.
  intros HR. revert k. induction n as [|n IH]; intros k Hk.
  - rewrite (drop_ge (entities v)) by (rewrite (sr_entities _ _ HR); lia). simpl.
    f_equal. rewrite drop_ge; [done|]. destruct (decide (2 ^ k ≤ length l)) as [Hu|]; [|lia].
    destruct (sr_used _ _ HR k Hu) as [b Hb]. apply lookup_lt_Some in Hb.
    rewrite (sr_entities _ _ HR) in Hb. lia.
  - destruct (lookup_lt_is_Some_2 (entities v) k) as [e He]; [rewrite (sr_entities _ _ HR); lia|].
    rewrite (drop_S (entities v) e k He). destruct e as [b|]; simpl.
    + pose proof (destroy_cells_rep v l k b (2 ^ k) 0 HR He eq_refl) as Hd.
      rewrite drop_0, Nat.add_0_r in Hd. change (Z.of_nat 0) with 0%Z in Hd. rewrite Hd. simpl.
      replace (Z.of_nat k + 1)%Z with (Z.of_nat (S k)) by lia. rewrite IH by lia. simpl.
      f_equal. pose proof (pow2_pos k).
      replace (2 ^ k + (2 ^ k + 0) - 1) with (2 ^ k - 1 + 2 ^ k) by lia.
      by rewrite <-drop_drop, take_drop.
    + f_equal. rewrite drop_ge; [done|]. destruct (decide (2 ^ k ≤ length l)) as [Hu|]; [|lia].
      destruct (sr_used _ _ HR k Hu) as [b Hb]. congruence.
Qed.

Lemma destructor_rep v l : sv_rep v l → destructor v = Ok l.
Proof.
  intros HR. unfold destructor, size. rewrite (sr_size _ _ HR).
  apply (destroy_buckets_rep v l max_buckets 0 HR). done.
Qed.
End representation.

(** ** Refinement: any use of the vector is the use of a list *)

Inductive sv_op (T : Type) :=
| EmplaceBack (x : T)
| PopBack
| Index (i : nat)
| Front
| Back
| Resize (n : nat) (x : T)
| Size
| Empty.
Arguments EmplaceBack {_} _.
Arguments PopBack {_}.
Arguments Index {_} _.
Arguments Front {_}.
Arguments Back {_}.
Arguments Resize {_} _ _.
Arguments Size {_}.
Arguments Empty {_}.

Inductive sv_result (T : Type) :=
| Done
| Element (x : T)
| Count (n : Z)
| Truth (b : bool).
Arguments Done {_}.
Arguments Element {_} _.
Arguments Count {_} _.
Arguments Truth {_} _.

Section refinement.
Context {T : Type}.
Implicit Types (v : StableVector T) (l : list T).

(** One member function called on the vector. *)
Definition sv_exec (op : sv_op T) (v : StableVector T) : outcome (sv_result T * StableVector T) :=
  match op with
  | EmplaceBack x => v' ← emplace_back x v; Ok (Done, v')
  | PopBack => v' ← pop_back v; Ok (Done, v')
  | Index i => x ← at_index v (Z.of_nat i); Ok (Element x, v)
  | Front => x ← front v; Ok (Element x, v)
  | Back => x ← back v; Ok (Element x, v)
  | Resize n x => v' ← resize (Z.of_nat n) x v; Ok (Done, v')
  | Size => Ok (Count (size v), v)
  | Empty => Ok (Truth (empty v), v)
  end.

Fixpoint sv_run (ops : list (sv_op T)) (v : StableVector T) : outcome (list (sv_result T) * StableVector T) :=
  match ops with
  | [] => Ok ([], v)
  | op :: ops => '(r, v) ← sv_exec op v; '(rs, v) ← sv_run ops v; Ok (r :: rs, v)
  end.

(** The same on lists; [None] where the vector's contract is violated: no
    element to return or remove, or [2 ^ 30] elements and more. *)
Definition list_exec (op : sv_op T) (l : list T) : option (sv_result T * list T) :=
  match op with
  | EmplaceBack x => if bool_decide (Z.of_nat (length l) + 1 < 2 ^ 30)%Z then Some (Done, l ++ [x]) else None
  | PopBack => if bool_decide (l = []) then None else Some (Done, removelast l)
  | Index i => (λ x, (Element x, l)) <$> l !! i
  | Front => (λ x, (Element x, l)) <$> list.head l
  | Back => (λ x, (Element x, l)) <$> list.last l
  | Resize n x =>
      if bool_decide (Z.of_nat n < 2 ^ 30)%Z then Some (Done, take n l ++ replicate (n - length l) x) else None
  | Size => Some (Count (Z.of_nat (length l)), l)
  | Empty => Some (Truth (bool_decide (l = [])), l)
  end.

Fixpoint list_run (ops : list (sv_op T)) (l : list T) : option (list (sv_result T) * list T) :=
  match ops with
  | [] => Some ([], l)
  | op :: ops => '(r, l) ← list_exec op l; '(rs, l) ← list_run ops l; Some (r :: rs, l)
  end.

(** [v] stands for [l], far from the limit. *)
Definition implements v l : Prop := sv_rep v l ∧ (Z.of_nat (length l) < 2 ^ 30)%Z.

Lemma snoc_cases l : l ≠ [] → ∃ l' x, l = l' ++ [x].
Proof. destruct l as [|x l _] using rev_ind; [done|]. eauto. Qed.

Lemma pop_implements v l :
  implements v l → l ≠ [] → ∃ v', pop_back v = Ok v' ∧ implements v' (removelast l).
Proof.
  intros [HR Hl] (l' & x & ->)%snoc_cases. rewrite length_app in Hl. simpl in Hl.
  rewrite removelast_last. destruct (pop_back_rep v l' x HR) as (v' & ? & ?); [lia|].
  exists v'. split; [done|]. split; [done|lia].
Qed.

Lemma sv_exec_implements op v l r l' :
  implements v l → list_exec op l = Some (r, l') → ∃ v', sv_exec op v = Ok (r, v') ∧ implements v' l'.
Proof.
  intros HI Hop. pose proof HI as [HR Hl]. destruct op as [x| |i| | |n x| |]; cbn [list_exec sv_exec] in *.
  - case_bool_decide; simplify_eq. destruct (emplace_back_rep v l x HR) as (v' & -> & ?); [lia|].
    exists v'. split; [done|]. split; [done|]. rewrite length_app. simpl. lia.
  - case_bool_decide; simplify_eq. destruct (pop_implements v l HI) as (v' & -> & ?); [done|]. by exists v'.
  - apply fmap_Some in Hop as (x & Hx & [= -> ->]). rewrite (at_index_rep _ _ _ _ HR Hx). by exists v.
  - apply fmap_Some in Hop as (x & Hx & [= -> ->]). rewrite head_lookup in Hx. unfold front.
    change 0%Z with (Z.of_nat 0). rewrite (at_index_rep _ _ _ _ HR Hx). by exists v.
  - apply fmap_Some in Hop as (x & Hx & [= -> ->]). apply last_Some in Hx as [l'' ->].
    rewrite (back_rep _ _ _ HR). by exists v.
  - case_bool_decide as Hn; simplify_eq. destruct (resize_rep v l n x HR Hl Hn) as (v' & -> & ?).
    exists v'. split; [done|]. split; [done|]. rewrite length_app, length_take, length_replicate. lia.
  - injection Hop as <- <-. exists v. unfold size. by rewrite (sr_size _ _ HR).
  - injection Hop as <- <-. exists v. by rewrite (empty_rep _ _ HR).
Qed.

(** C25: a StableVector is a list: every sequence of member calls that stays
    within the contract (below [2 ^ 30] elements, no access to an element
    that does not exist) succeeds, returns at each call what a list returns,
    and the destructor of the resulting vector then destroys the elements of
    the resulting list, each once and in order. *)
Theorem StableVector_refines_list ops rs l :
  list_run ops [] = Some (rs, l) →
  ∃ v, sv_run ops sv_empty = Ok (rs, v) ∧ size v = Z.of_nat (length l) ∧ destructor v = Ok l.
Proof.
  assert (implements sv_empty []) as HI by (split; [apply sv_empty_rep|done]).
  revert HI. generalize (@sv_empty T) as v, (@nil T) as l0.
  revert rs. induction ops as [|op ops IH]; intros rs v l0 HI Hrun; cbn [list_run sv_run] in *.
  - injection Hrun as <- <-. destruct HI as [HR _]. exists v. split_and!; [done|apply (sr_size _ _ HR)|by apply destructor_rep].
  - apply bind_Some in Hrun as ([r l1] & Hop & Hrun). apply bind_Some in Hrun as ([rs' l2] & Hrun & [= <- <-]).
    destruct (sv_exec_implements op v l0 r l1 HI Hop) as (v1 & -> & HI1). cbn [mbind outcome_bind].
    destruct (IH _ _ _ HI1 Hrun) as (v2 & -> & ?). by exists v2.
Qed.

(** C39: the limits of a StableVector: with [2 ^ 31 - 1] elements
    [emplace_back] indexes [entities] out of range; [pop_back] already does
    with [2 ^ 30] elements, although a vector may hold that many; and
    [pop_back] of an empty vector calls [__builtin_clzll(0)]. *)
Theorem StableVector_limits v l x :
  sv_rep v l →
  (Z.of_nat (length l) = 2 ^ 31 - 1 → emplace_back x v = Fail (OutOfRange "entities"))%Z ∧
  (Z.of_nat (length l) = 2 ^ 30 → pop_back v = Fail (OutOfRange "entities"))%Z ∧
  (l = [] → pop_back v = Fail (Undefined "__builtin_clzll(0)")).
Proof.
  intros HR. split_and!; intros Hl.
  - apply (emplace_back_full _ _ _ HR). lia.
  - by apply (pop_back_2_30 _ _ HR).
  - subst. by apply pop_back_empty.
Qed.

(** A vector of size 0 destroys nothing, whatever its buckets hold. *)
Lemma destroy_buckets_none (es : list (option (bucket T))) i :
  (0 ≤ i)%Z → destroy_buckets es i 1 = Ok [].
Proof.
  revert i. induction es as [|[b|] es IH]; intros i Hi; [done| |done]. simpl.
  assert (1 ≤ Z.shiftl 1 i)%Z by (rewrite Z.shiftl_1_l; lia).
  assert (destroy_cells b i 0 1 = Ok []) as ->; [|simpl; rewrite IH by lia; done].
  destruct b as [|c b]; [done|]. cbn [destroy_cells].
  rewrite (proj2 (Z.ltb_ge (0 + Z.shiftl 1 i) 1)) by lia. by rewrite andb_false_r.
Qed.

(** moving: the constructor and the assignment hand the elements over,
    and neither leaves [rhs] as an empty vector.  The constructor keeps
    [rhs.total_size], so [rhs] claims [length l] elements it does not have;
    the assignment gives the old elements of the target to [rhs] with size 0,
    so that nothing destroys them. *)
Theorem StableVector_moves this rhs old l :
  sv_rep this old → sv_rep rhs l →
  sv_rep (move_construct rhs).1 l ∧ sv_rep (move_assign this rhs).1 l ∧
  size (move_construct rhs).2 = Z.of_nat (length l) ∧
  (∀ i, i < max_buckets → get_entity (move_construct rhs).2 (Z.of_nat i) = Ok None) ∧
  entities (move_assign this rhs).2 = entities this ∧ destructor (move_assign this rhs).2 = Ok [].
Proof.
  intros Hthis HR. split_and!.
  - by destruct rhs.
  - by destruct rhs.
  - apply (sr_size _ _ HR).
  - intros i Hi. rewrite get_entity_nat. cbn [move_construct snd entities]. by rewrite lookup_replicate_2.
  - done.
  - by apply destroy_buckets_none.
Qed.
End refinement.
