(* ===== verification/History.v ===== *)
(** * History: invocations, responses and their matching

    The events of lincheck.h and [get_inv_res_mapping] of lin_check.cpp.

    A [Task] is a [std::shared_ptr<CoroBase>] that lives in a slot of the
    strategy's [threads]; events hold a reference to that slot, and
    [get_inv_res_mapping] identifies operations by the address of the slot.
    The model names a slot by its thread and its position in the thread, and
    everything read through the reference (name, arguments, return value) is
    looked up when it is read, since a slot may be overwritten later. *)

From stdpp Require Import base list gmap strings option.
From S2P Require Import Prelude ValueWrapper.

(** [const Task*]: the address of the slot [threads[fst][snd]]. *)
Definition TaskRef : Type := nat * nat.

Record Invoke := mk_Invoke { inv_task : TaskRef; inv_thread_id : Z }.

Record Response := mk_Response {
  res_task : TaskRef;
  result : ValueWrapper;
  res_thread_id : Z;
}.

(** [std::variant<Invoke, Response>]. *)
Inductive HistoryEvent :=
| EInvoke (i : Invoke)
| EResponse (r : Response).

Definition is_response (e : HistoryEvent) : bool :=
  match e with EInvoke _ => false | EResponse _ => true end.

(** [v.index()] of the variant. *)
Definition event_index (e : HistoryEvent) : nat := if is_response e then 1 else 0.

Definition event_task (e : HistoryEvent) : TaskRef :=
  match e with EInvoke i => inv_task i | EResponse r => res_task r end.

Definition event_thread (e : HistoryEvent) : Z :=
  match e with EInvoke i => inv_thread_id i | EResponse r => res_thread_id r end.

(** What a checker reads of a task through its reference: [GetName()],
    [GetArgs()] and [GetRetVal()], which asserts [IsReturned()]. *)
Record TaskInfo (Args : Type) := mk_TaskInfo {
  task_name : string;
  task_args : Args;
  task_ret : option ValueWrapper;   (* None: not returned yet *)
}.
Arguments mk_TaskInfo {_} _ _ _.
Arguments task_name {_} _.
Arguments task_args {_} _.
Arguments task_ret {_} _.

Definition GetRetVal {Args} (t : TaskInfo Args) : outcome ValueWrapper :=
  or_fail (AssertFailed "IsReturned()") (task_ret t).

(** ** [get_inv_res_mapping] (lin_check.cpp:8-27)

    [uids] maps the task of an invocation to its index; a later invocation of
    the same slot overwrites it. *)
Fixpoint inv_res_loop (i : nat) (history : list HistoryEvent)
    (inv_res : gmap nat nat) (uids : gmap TaskRef nat) : outcome (gmap nat nat) :=
  match history with
  | [] => Ok inv_res
  | EInvoke inv :: rest =>
      inv_res_loop (S i) rest inv_res (<[inv_task inv := i]> uids)
  | EResponse res :: rest =>
      inv_id ← or_fail (AssertFailed "uids.find(&res.GetTask()) != uids.end()")
                       (uids !! res_task res);
      inv_res_loop (S i) rest (<[inv_id := i]> inv_res) uids
  end.

Definition get_inv_res_mapping (history : list HistoryEvent) : outcome (gmap nat nat) :=
  inv_res_loop 0 history ∅ ∅.

(** ** Well-formed histories *)

Section history.
Context (h : list HistoryEvent).

Definition invoke_at (i : nat) (t : TaskRef) : Prop :=
  ∃ inv, h !! i = Some (EInvoke inv) ∧ inv_task inv = t.
Definition response_at (j : nat) (t : TaskRef) : Prop :=
  ∃ res, h !! j = Some (EResponse res) ∧ res_task res = t.

Definition is_invoke_at (i : nat) : Prop := ∃ t, invoke_at i t.
Definition is_response_at (i : nat) : Prop := ∃ t, response_at i t.

(** The response at [j] answers the invocation at [i]. *)
Definition matching (i j : nat) : Prop := ∃ t, invoke_at i t ∧ response_at j t.

(** The operation invoked at [a] returned before the one invoked at [b] began. *)
Definition precedes (a b : nat) : Prop := ∃ r, matching a r ∧ r < b.

(** Every task is invoked at most once and answered at most once, after its
    invocation. *)
Record well_formed : Prop := {
  wf_invoke_inj : ∀ i j t, invoke_at i t → invoke_at j t → i = j;
  wf_response_inj : ∀ i j t, response_at i t → response_at j t → i = j;
  wf_response_after : ∀ j t, response_at j t → ∃ i, i < j ∧ invoke_at i t;
}.

Lemma event_cases i : i < length h → is_invoke_at i ∨ is_response_at i.
Proof.
  intros [e He]%lookup_lt_is_Some_2.
  destruct e as [inv|res]; [left; exists (inv_task inv)|right; exists (res_task res)]; eexists; eauto.
Qed.

Lemma invoke_at_lt i t : invoke_at i t → i < length h.
Proof. intros (? & ?%lookup_lt_Some & _). done. Qed.
Lemma response_at_lt i t : response_at i t → i < length h.
Proof. intros (? & ?%lookup_lt_Some & _). done. Qed.

Lemma invoke_response_excl i t u : invoke_at i t → response_at i u → False.
Proof. intros (? & ? & _) (? & ? & _). congruence. Qed.

Lemma invoke_at_fun i t u : invoke_at i t → invoke_at i u → t = u.
Proof. intros (? & ? & ?) (? & ? & ?). congruence. Qed.
Lemma response_at_fun i t u : response_at i t → response_at i u → t = u.
Proof. intros (? & ? & ?) (? & ? & ?). congruence. Qed.

Section wf.
Context (WF : well_formed).

Lemma matching_lt i j : matching i j → i < j.
Proof.
  intros (t & Hi & Hj). destruct (wf_response_after WF _ _ Hj) as (i' & Hlt & Hi').
  by rewrite (wf_invoke_inj WF _ _ _ Hi Hi').
Qed.

Lemma matching_fun i j k : matching i j → matching i k → j = k.
Proof.
  intros (t & Hi & Hj) (u & Hi' & Hk). rewrite (invoke_at_fun _ _ _ Hi' Hi) in Hk.
  eauto using wf_response_inj.
Qed.

Lemma matching_inj i j k : matching i k → matching j k → i = j.
Proof.
  intros (t & Hi & Hk) (u & Hj & Hk'). rewrite (response_at_fun _ _ _ Hk' Hk) in Hj.
  eauto using wf_invoke_inj.
Qed.

Lemma response_matched j : is_response_at j → ∃ i, matching i j.
Proof. intros (t & Hj). destruct (wf_response_after WF _ _ Hj) as (i & _ & Hi). by exists i, t. Qed.
End wf.
End history.

Lemma matching_invoke h i j : matching h i j → is_invoke_at h i.
Proof. intros (t & ? & ?). by exists t. Qed.
Lemma matching_response h i j : matching h i j → is_response_at h j.
Proof. intros (t & ? & ?). by exists t. Qed.

#[export] Hint Resolve matching_invoke matching_response : ltest.

#[export] Instance is_invoke_at_dec h i : Decision (is_invoke_at h i).
Proof.
  refine (match h !! i as o return h !! i = o → _ with
          | Some (EInvoke inv) => λ H, left _
          | _ => λ H, right _
          end eq_refl).
  - exists (inv_task inv), inv. done.
  - intros (t & inv & Hi & _). congruence.
  - intros (t & inv & Hi & _). congruence.
Defined.

(** ** A decision procedure for [well_formed] *)

Definition invokes (e : option HistoryEvent) (t : TaskRef) : bool :=
  match e with Some (EInvoke inv) => bool_decide (inv_task inv = t) | _ => false end.
Definition responds (e : option HistoryEvent) (t : TaskRef) : bool :=
  match e with Some (EResponse res) => bool_decide (res_task res = t) | _ => false end.

Definition event_ok (h : list HistoryEvent) (j : nat) : bool :=
  match h !! j with
  | Some (EInvoke inv) => forallb (λ i, negb (invokes (h !! i) (inv_task inv))) (seq 0 j)
  | Some (EResponse res) =>
      forallb (λ i, negb (responds (h !! i) (res_task res))) (seq 0 j) &&
      existsb (λ i, invokes (h !! i) (res_task res)) (seq 0 j)
  | None => true
  end.

Definition well_formedb (h : list HistoryEvent) : bool := forallb (event_ok h) (seq 0 (length h)).

Lemma invokes_true h i t : invokes (h !! i) t = true ↔ invoke_at h i t.
Proof.
  unfold invokes, invoke_at. destruct (h !! i) as [[inv|res]|]; rewrite ?bool_decide_eq_true; naive_solver.
Qed.
Lemma responds_true h i t : responds (h !! i) t = true ↔ response_at h i t.
Proof.
  unfold responds, response_at. destruct (h !! i) as [[inv|res]|]; rewrite ?bool_decide_eq_true; naive_solver.
Qed.

Lemma well_formedb_ok h j : well_formedb h = true → j < length h → event_ok h j = true.
Proof.
  unfold well_formedb. rewrite forallb_forall. intros H Hj. apply H. apply in_seq. lia.
Qed.

Lemma well_formedb_sound h : well_formedb h = true → well_formed h.
Proof.
  intros Hb.
  assert (∀ i j t, invoke_at h i t → invoke_at h j t → ¬ i < j) as Hinv.
  { intros i j t Hi Hj Hlt. pose proof (well_formedb_ok h j Hb (invoke_at_lt _ _ _ Hj)) as Hok.
    destruct Hj as (inv & Hj & <-). unfold event_ok in Hok. rewrite Hj, forallb_forall in Hok.
    specialize (Hok i). rewrite (proj2 (invokes_true _ _ _) Hi) in Hok.
    by specialize (Hok ltac:(apply in_seq; lia)). }
  assert (∀ i j t, response_at h i t → response_at h j t → ¬ i < j) as Hres.
  { intros i j t Hi Hj Hlt. pose proof (well_formedb_ok h j Hb (response_at_lt _ _ _ Hj)) as Hok.
    destruct Hj as (res & Hj & <-). unfold event_ok in Hok.
    rewrite Hj, andb_true_iff, forallb_forall in Hok. destruct Hok as [Hok _].
    specialize (Hok i). rewrite (proj2 (responds_true _ _ _) Hi) in Hok.
    by specialize (Hok ltac:(apply in_seq; lia)). }
  split.
  - intros i j t Hi Hj. pose proof (Hinv i j t Hi Hj). pose proof (Hinv j i t Hj Hi). lia.
  - intros i j t Hi Hj. pose proof (Hres i j t Hi Hj). pose proof (Hres j i t Hj Hi). lia.
  - intros j t Hj. pose proof (well_formedb_ok h j Hb (response_at_lt _ _ _ Hj)) as Hok.
    destruct Hj as (res & Hj & <-). unfold event_ok in Hok. rewrite Hj, andb_true_iff in Hok.
    destruct Hok as [_ (i & Hi%in_seq & Hit)%existsb_exists]. exists i. split; [lia|].
    by apply invokes_true.
Qed.

(** ** Correctness of the mapping *)

Lemma invoke_at_app_l h h' i t : invoke_at h i t → invoke_at (h ++ h') i t.
Proof. intros (inv & Hi & <-). exists inv. split; [|done]. by apply lookup_app_l_Some. Qed.
Lemma response_at_app_l h h' i t : response_at h i t → response_at (h ++ h') i t.
Proof. intros (inv & Hi & <-). exists inv. split; [|done]. by apply lookup_app_l_Some. Qed.

Lemma invoke_at_snoc h e i t :
  invoke_at (h ++ [e]) i t ↔
  invoke_at h i t ∨ (i = length h ∧ ∃ inv, e = EInvoke inv ∧ inv_task inv = t).
Proof.
  unfold invoke_at. setoid_rewrite lookup_snoc_Some. split.
  - intros (inv & [[? ?]|[-> ->]] & <-); eauto 10.
  - intros [(inv & Hi & <-)|(-> & inv & -> & <-)]; eauto 10 using lookup_lt_Some.
Qed.

Lemma response_at_snoc h e i t :
  response_at (h ++ [e]) i t ↔
  response_at h i t ∨ (i = length h ∧ ∃ res, e = EResponse res ∧ res_task res = t).
Proof.
  unfold response_at. setoid_rewrite lookup_snoc_Some. split.
  - intros (inv & [[? ?]|[-> ->]] & <-); eauto 10.
  - intros [(inv & Hi & <-)|(-> & inv & -> & <-)]; eauto 10 using lookup_lt_Some.
Qed.

(** The state of the loop after the prefix [done] of a well-formed history. *)
Record mapping_inv (done : list HistoryEvent) (inv_res : gmap nat nat)
    (uids : gmap TaskRef nat) : Prop := {
  mi_uids : ∀ t i, uids !! t = Some i ↔ invoke_at done i t;
  mi_inv_res : ∀ i j, inv_res !! i = Some j ↔ matching done i j;
}.

Lemma matching_snoc_invoke h inv i j :
  well_formed (h ++ [EInvoke inv]) →
  matching (h ++ [EInvoke inv]) i j ↔ matching h i j.
Proof.
  intros WF. split.
  - intros (t & Hi & Hj). pose proof (matching_lt _ WF i j ltac:(by exists t)) as Hlt.
    apply invoke_at_snoc in Hi as [Hi|(-> & _)].
    + apply response_at_snoc in Hj as [Hj|(_ & ? & ? & _)]; [by exists t|done].
    + apply response_at_lt in Hj. rewrite length_app in Hj. simpl in Hj. lia.
  - intros (t & Hi & Hj). exists t. by split; [apply invoke_at_app_l|apply response_at_app_l].
Qed.

Lemma matching_snoc_response h res i j :
  matching (h ++ [EResponse res]) i j ↔
  matching h i j ∨ (invoke_at h i (res_task res) ∧ j = length h).
Proof.
  split.
  - intros (t & Hi & Hj). apply invoke_at_snoc in Hi as [Hi|(_ & ? & ? & _)]; [|done].
    apply response_at_snoc in Hj as [Hj|(-> & r & [= <-] & <-)]; [left; by exists t|by right].
  - intros [(t & Hi & Hj)|(Hi & ->)].
    + exists t. by split; [apply invoke_at_app_l|apply response_at_app_l].
    + exists (res_task res). split; [by apply invoke_at_app_l|].
      apply response_at_snoc. eauto 10.
Qed.

Lemma well_formed_prefix h h' : well_formed (h ++ h') → well_formed h.
Proof.
  intros WF. split.
  - eauto using wf_invoke_inj, invoke_at_app_l.
  - eauto using wf_response_inj, response_at_app_l.
  - intros j t Hj. destruct (wf_response_after _ WF j t) as (i & Hlt & Hi); [by apply response_at_app_l|].
    exists i. split; [done|]. destruct Hi as (inv & Hi & <-). exists inv. split; [|done].
    apply response_at_lt in Hj. rewrite lookup_app_l in Hi; [done|lia].
Qed.

Lemma mapping_inv_invoke done inv inv_res uids :
  well_formed (done ++ [EInvoke inv]) →
  mapping_inv done inv_res uids →
  mapping_inv (done ++ [EInvoke inv]) inv_res (<[inv_task inv := length done]> uids).
Proof.
  intros WF [Hu Hm]. split.
  - intros t i. rewrite lookup_insert, invoke_at_snoc. case_decide as Heq.
    + split; [intros [= <-]; eauto 10|]. intros [Hi|(-> & _)]; [|done]. exfalso.
      assert (i = length done) as ->.
      { eapply (wf_invoke_inj _ WF i _ t); [by apply invoke_at_app_l|]. apply invoke_at_snoc. eauto 10. }
      apply invoke_at_lt in Hi. lia.
    + rewrite Hu. split; [by left|]. intros [?|(_ & ? & [= <-] & ?)]; done.
  - intros i j. rewrite Hm. symmetry. by apply matching_snoc_invoke.
Qed.

Lemma mapping_inv_response done res inv_res uids :
  well_formed (done ++ [EResponse res]) →
  mapping_inv done inv_res uids →
  ∃ i, uids !! res_task res = Some i ∧
       mapping_inv (done ++ [EResponse res]) (<[i := length done]> inv_res) uids.
Proof.
  intros WF [Hu Hm].
  destruct (wf_response_after _ WF (length done) (res_task res)) as (i & Hlt & Hi).
  { apply response_at_snoc. eauto 10. }
  apply invoke_at_snoc in Hi as [Hi|(_ & ? & ? & _)]; [|done].
  exists i. split; [by apply Hu|]. split.
  - intros t k. rewrite Hu, invoke_at_snoc. split; [by left|]. by intros [?|(_ & ? & ? & _)].
  - intros a b. rewrite lookup_insert, matching_snoc_response, <-Hm. case_decide as Heq; [subst a|].
    + split; [intros [= <-]; eauto|]. intros [Hab|[_ ->]]; [|done]. exfalso.
      apply Hm in Hab as (t & Ht & Hb). rewrite (invoke_at_fun _ _ _ _ Ht Hi) in Hb.
      assert (b = length done) as ->.
      { eapply (wf_response_inj _ WF b _ (res_task res)); [by apply response_at_app_l|].
        apply response_at_snoc. eauto 10. }
      apply response_at_lt in Hb. lia.
    + split; [by left|]. intros [?|[Ha _]]; [done|]. exfalso.
      apply Heq. by eapply wf_invoke_inj; [by eapply well_formed_prefix| |].
Qed.

Lemma inv_res_loop_spec h done inv_res uids :
  well_formed (done ++ h) →
  mapping_inv done inv_res uids →
  ∃ m, inv_res_loop (length done) h inv_res uids = Ok m ∧
       ∀ i j, m !! i = Some j ↔ matching (done ++ h) i j.
Proof.
  revert done inv_res uids. induction h as [|e h IH]; intros done inv_res uids WF HI; simpl.
  - rewrite app_nil_r in *. eexists. split; [done|]. apply HI.
  - assert (done ++ e :: h = (done ++ [e]) ++ h) as Hassoc by by rewrite <-app_assoc.
    rewrite Hassoc in *. pose proof (well_formed_prefix _ _ WF) as WF1.
    replace (S (length done)) with (length (done ++ [e])) by (rewrite length_app; simpl; lia).
    destruct e as [inv|res].
    + apply IH; [done|]. by apply mapping_inv_invoke.
    + destruct (mapping_inv_response _ _ _ _ WF1 HI) as (i & -> & HI'). simpl. by apply IH.
Qed.

(** On a well-formed history [get_inv_res_mapping] succeeds (its assertion
    holds) and maps exactly the answered invocations to their responses. *)
Lemma get_inv_res_mapping_wf h :
  well_formed h →
  ∃ m, get_inv_res_mapping h = Ok m ∧ ∀ i j, m !! i = Some j ↔ matching h i j.
Proof.
  intros WF. apply (inv_res_loop_spec h [] ∅ ∅ WF). split.
  - intros t i. rewrite lookup_empty. split; [done|]. by intros (? & ? & _).
  - intros i j. rewrite lookup_empty. split; [done|]. by intros (? & (? & ? & _) & _).
Qed.

(** On every history in which each task is invoked at most once and answered
    at most once after its invocation, [get_inv_res_mapping] never fails its
    assertion, and maps exactly the answered invocations, each to the response
    of the same task. *)
Theorem get_inv_res_mapping_spec h :
  well_formed h →
  ∃ m, get_inv_res_mapping h = Ok m ∧ ∀ i j, m !! i = Some j ↔ matching h i j.
Proof. apply get_inv_res_mapping_wf. Qed.

(** ** Growing a history

    [records h started finished]: the history is well formed, the tasks it
    invokes are the ones in [started], and the results it records are the ones in
    [finished]. *)
Record records (h : list HistoryEvent) (started : TaskRef → Prop)
    (finished : TaskRef → ValueWrapper → Prop) : Prop := {
  rec_wf : well_formed h;
  rec_invoked : ∀ t, (∃ i, invoke_at h i t) ↔ started t;
  rec_result : ∀ t v, (∃ i th, h !! i = Some (EResponse (mk_Response t v th))) ↔ finished t v;
}.

Lemma response_at_result h t :
  (∃ i, response_at h i t) ↔ ∃ v i th, h !! i = Some (EResponse (mk_Response t v th)).
Proof.
  split.
  - intros (i & [t' v th] & Hi & <-). eauto.
  - intros (v & i & th & Hi). exists i. eexists. split; [exact Hi|done].
Qed.

Lemma well_formed_snoc_invoke h inv :
  well_formed h → (∀ i, ¬ invoke_at h i (inv_task inv)) → well_formed (h ++ [EInvoke inv]).
Proof.
  intros WF Hnew. split.
  - intros i j t [Hi|(-> & inv1 & [= <-] & <-)]%invoke_at_snoc [Hj|(-> & inv2 & [= <-] & Ht)]%invoke_at_snoc;
      [by eapply wf_invoke_inj| | |done]; exfalso; subst; by eapply Hnew.
  - intros i j t [Hi|(_ & ? & ? & _)]%response_at_snoc [Hj|(_ & ? & ? & _)]%response_at_snoc; try done.
    by eapply wf_response_inj.
  - intros j t [Hj|(_ & ? & ? & _)]%response_at_snoc; [|done].
    destruct (wf_response_after h WF j t Hj) as (i & Hlt & Hi). exists i.
    split; [done|]. apply invoke_at_snoc. by left.
Qed.

Lemma well_formed_snoc_response h res :
  well_formed h → (∃ i, invoke_at h i (res_task res)) → (∀ i, ¬ response_at h i (res_task res)) →
  well_formed (h ++ [EResponse res]).
Proof.
  intros WF (i0 & Hi0) Hnew. split.
  - intros i j t [Hi|(_ & ? & ? & _)]%invoke_at_snoc [Hj|(_ & ? & ? & _)]%invoke_at_snoc; try done.
    by eapply wf_invoke_inj.
  - intros i j t [Hi|(-> & r1 & [= <-] & <-)]%response_at_snoc [Hj|(-> & r2 & [= <-] & Ht)]%response_at_snoc;
      [by eapply wf_response_inj| | |done]; exfalso; subst; by eapply Hnew.
  - intros j t [Hj|(-> & r & [= <-] & <-)]%response_at_snoc.
    + destruct (wf_response_after h WF j t Hj) as (i & Hlt & Hi). exists i.
      split; [done|]. apply invoke_at_snoc. by left.
    + exists i0. split; [by eapply invoke_at_lt|]. apply invoke_at_snoc. by left.
Qed.

Lemma records_nil (S : TaskRef → Prop) (F : TaskRef → ValueWrapper → Prop) :
  (∀ t, ¬ S t) → (∀ t v, ¬ F t v) → records [] S F.
Proof.
  intros HS HF. split.
  - split; [intros i j t (? & ? & _)|intros i j t (? & ? & _)|intros j t (? & ? & _)]; done.
  - intros t. split; [by intros (? & ? & ? & _)|by intros ?%HS].
  - intros t v. split; [by intros (? & ? & ?)|by intros ?%HF].
Qed.

Lemma records_ext h S S' F F' :
  records h S F → (∀ t, S t ↔ S' t) → (∀ t v, F t v ↔ F' t v) → records h S' F'.
Proof.
  intros [WF HS HF] ES EF. split; [done| |].
  - intros t. by rewrite HS, ES.
  - intros t v. by rewrite HF, EF.
Qed.

Lemma records_invoke h S F t th :
  records h S F → ¬ S t →
  records (h ++ [EInvoke (mk_Invoke t th)]) (λ u, u = t ∨ S u) F.
Proof.
  intros [WF HS HF] Ht. split.
  - apply well_formed_snoc_invoke; [done|]. intros i Hi. apply Ht, HS. eauto.
  - intros u. setoid_rewrite invoke_at_snoc. rewrite <-HS. split.
    + intros (i & [Hi|(-> & inv & [= <-] & <-)]); eauto.
    + intros [->|(i & Hi)]; [|eauto]. exists (length h). right. split; [done|]. by eexists.
  - intros u v. setoid_rewrite lookup_snoc_Some. rewrite <-HF. split.
    + intros (i & th' & [[_ Hi]|[_ ?]]); [eauto|done].
    + intros (i & th' & Hi). exists i, th'. left. split; [by eapply lookup_lt_Some|done].
Qed.

Lemma records_response h S F t v th :
  records h S F → S t → (∀ w, ¬ F t w) →
  records (h ++ [EResponse (mk_Response t v th)]) S (λ u w, (u = t ∧ w = v) ∨ F u w).
Proof.
  intros [WF HS HF] Ht Hnone. split.
  - apply well_formed_snoc_response; [done|by apply HS|]. intros i Hi.
    destruct (proj1 (response_at_result h t)) as (w & j & th' & Hj); [by exists i|].
    apply (Hnone w), HF. eauto.
  - intros u. setoid_rewrite invoke_at_snoc. rewrite <-HS. split.
    + intros (i & [Hi|(_ & ? & ? & _)]); [eauto|done].
    + intros (i & Hi). eauto.
  - intros u w. setoid_rewrite lookup_snoc_Some. rewrite <-HF. split.
    + intros (i & th' & [[_ Hi]|[_ [= <- <- <-]]]); [right; eauto|by left].
    + intros [[-> ->]|(i & th' & Hi)].
      * exists (length h), th. by right.
      * exists i, th'. left. split; [by eapply lookup_lt_Some|done].
Qed.
