(* ===== verification/Linearizability.v ===== *)
(** * Linearizability: what a checker must decide

    The contract of [ModelChecker::Check] (lincheck.h:39-41) for the two
    linearizability checkers, following Herlihy and Wing: there is a sequence
    of the operations that contains every answered one and possibly some of the
    unanswered ones, respects the real-time order of the history, and is a run
    of the sequential specification that yields the recorded results.

    The second half of the file shows that the search space both checkers walk
    (a bitmap of the linearized entries and a state) decides this contract. *)

From stdpp Require Import base list gmap strings option sorting.
From S2P Require Import Prelude ValueWrapper History.

Section linearizability.
Context {State Args : Type}.

(** [Method] (lincheck.h:67): a method gets a pointer to the specification
    object, which it updates, and to the arguments, which it casts. *)
Definition Method : Type := State → Args → outcome (ValueWrapper * State).

Context (specification_methods : gmap string Method).
(** The tasks, as they are when the checker runs. *)
Context (task_at : TaskRef → option (TaskInfo Args)).

Definition read_task (t : TaskRef) : outcome (TaskInfo Args) :=
  or_fail (Undefined "dangling Task&") (task_at t).

(** [specification_methods.find(name)->second] behind its assertion. *)
Definition find_method (name : string) : outcome Method :=
  or_fail (AssertFailed "specification_methods.find(name) != end()")
          (specification_methods !! name).

(** [method(&copy, inv.GetTask()->GetArgs())] after the assertion that the
    method exists; the state is the updated copy. *)
Definition apply_method (s : State) (inv : Invoke) : outcome (ValueWrapper * State) :=
  task ← read_task (inv_task inv);
  method ← find_method (task_name task);
  method s (task_args task).

(** [res == inv.GetTask()->GetRetVal()]. *)
Definition result_matches (res : ValueWrapper) (inv : Invoke) : outcome bool :=
  task ← read_task (inv_task inv);
  ret ← GetRetVal task;
  vw_eq res ret.

Context (h : list HistoryEvent).

(** Running the operation invoked at [i] from [s] leads to [s'] and, when the
    operation is answered, to the recorded result. *)
Definition accepts (s : State) (i : nat) (s' : State) : Prop :=
  ∃ inv res, h !! i = Some (EInvoke inv) ∧ apply_method s inv = Ok (res, s') ∧
    ((∃ r, matching h i r) → result_matches res inv = Ok true).

Inductive legal : State → list nat → Prop :=
| legal_nil s : legal s []
| legal_cons s i s' seq : accepts s i s' → legal s' seq → legal s (i :: seq).

Record linearization (s0 : State) (seq : list nat) : Prop := {
  lin_nodup : NoDup seq;
  lin_ops : ∀ i, i ∈ seq → is_invoke_at h i;
  lin_complete : ∀ i r, matching h i r → i ∈ seq;
  lin_order : ∀ p q a b, seq !! p = Some a → seq !! q = Some b → precedes h a b → p < q;
  lin_legal : legal s0 seq;
}.

Definition linearizable (s0 : State) : Prop := ∃ seq, linearization s0 seq.

(** The conditions under which a checker can run at all: a well-formed
    history of live tasks that the specification knows, with arguments it
    accepts and results it can compare. *)
Record checkable : Prop := {
  ck_wf : well_formed h;
  ck_task : ∀ i t, invoke_at h i t →
    ∃ info (m : Method), task_at t = Some info ∧ specification_methods !! task_name info = Some m ∧
      ∀ s, ∃ r, m s (task_args info) = Ok r;
  ck_ret : ∀ i r t info (m : Method), matching h i r → invoke_at h i t → task_at t = Some info →
    specification_methods !! task_name info = Some m →
    ∃ v, task_ret info = Some v ∧
      ∀ s res s', m s (task_args info) = Ok (res, s') → comparable res v;
}.

(** ** The search space *)

(** [linearized[j]] for every response [j] before [i], and not [linearized[i]]. *)
Definition minimal (L : list bool) (i : nat) : Prop :=
  is_invoke_at h i ∧ L !! i = Some false ∧
  ∀ j, j < i → is_response_at h j → L !! j = Some true.

(** [L'] is [L] with the operation invoked at [i] marked as linearized. *)
Definition marks (L : list bool) (i : nat) (L' : list bool) : Prop :=
  (∃ r, matching h i r ∧ L' = <[r := true]> (<[i := true]> L)) ∨
  ((¬ ∃ r, matching h i r) ∧ L' = <[i := true]> L).

Inductive completes : list bool → State → Prop :=
| completes_done L s : Forall (λ b, b = true) L → completes L s
| completes_step L s i L' s' :
    minimal L i → accepts s i s' → marks L i L' → completes L' s' → completes L s.

(** Bitmaps that mark an invocation and its response together. *)
Definition coherent (L : list bool) : Prop :=
  length L = length h ∧ ∀ i r, matching h i r → L !! i = L !! r.

Context (CK : checkable).

Lemma accepts_fun s i s1 s2 : accepts s i s1 → accepts s i s2 → s1 = s2.
Proof. intros (? & ? & ? & H1 & _) (? & ? & ? & H2 & _). simplify_eq. rewrite H1 in H2. by simplify_eq. Qed.

(** What a checker computes for the invocation at [i]. *)
Lemma apply_method_total s i inv :
  h !! i = Some (EInvoke inv) →
  ∃ res s', apply_method s inv = Ok (res, s') ∧
    (∀ r, matching h i r → ∃ b, result_matches res inv = Ok b).
Proof.
  intros Hi. destruct (ck_task CK i (inv_task inv)) as (info & m & Ht & Hm & Htot); [by exists inv|].
  destruct (Htot s) as [[res s'] Hres].
  exists res, s'. unfold apply_method, result_matches, read_task, find_method.
  rewrite Ht. simpl. rewrite Hm. simpl. split; [done|].
  intros r Hr. destruct (ck_ret CK i r (inv_task inv) info m) as (v & Hv & Hcmp); [done| |done..|].
  { by exists inv. }
  unfold GetRetVal. rewrite Hv. simpl. by eapply Hcmp.
Qed.

Lemma pending_accepts s i :
  is_invoke_at h i → (¬ ∃ r, matching h i r) → ∃ s', accepts s i s'.
Proof.
  intros (t & inv & Hi & _) Hno. destruct (apply_method_total s i inv Hi) as (res & s' & Ha & _).
  exists s', inv, res. done.
Qed.

Lemma accepts_invoke s i s' : accepts s i s' → is_invoke_at h i.
Proof. intros (inv & ? & Hi & _). exists (inv_task inv), inv. done. Qed.

(** *** Marking *)

Lemma matching_dec i : (∃ r, matching h i r) ∨ ¬ ∃ r, matching h i r.
Proof.
  destruct (get_inv_res_mapping_wf h (ck_wf CK)) as (m & _ & Hm).
  destruct (m !! i) as [r|] eqn:E; [left; exists r; by apply Hm|].
  right. intros (r & Hr). apply Hm in Hr. congruence.
Qed.

Lemma marks_exists L i : ∃ L', marks L i L'.
Proof.
  destruct (matching_dec i) as [(r & Hr)|Hno]; eexists; [left; eauto|right; eauto].
Qed.

Lemma marks_lookup L i L' j :
  coherent L → is_invoke_at h i → marks L i L' →
  L' !! j = Some true ↔ L !! j = Some true ∨ j = i ∨ matching h i j.
Proof.
  intros [Hlen _] [t Ht] HM. apply invoke_at_lt in Ht.
  destruct HM as [(r & Hr & ->)|(Hno & ->)].
  - pose proof (matching_response _ _ _ Hr) as [u Hu]. apply response_at_lt in Hu.
    destruct (decide (j = r)) as [->|Hjr].
    { rewrite list_lookup_insert_eq; [naive_solver|]. rewrite length_insert. lia. }
    rewrite list_lookup_insert_ne by done. destruct (decide (j = i)) as [->|Hji].
    { rewrite list_lookup_insert_eq by lia. naive_solver. }
    rewrite list_lookup_insert_ne by done. split; [by left|].
    intros [?|[?|Hj]]; [done..|]. by destruct Hjr; eapply matching_fun; [apply CK| |].
  - destruct (decide (j = i)) as [->|Hji].
    { rewrite list_lookup_insert_eq by lia. naive_solver. }
    rewrite list_lookup_insert_ne by done. naive_solver.
Qed.

Lemma marks_fun L i L1 L2 : marks L i L1 → marks L i L2 → L1 = L2.
Proof.
  intros [(r & Hr & ->)|[Hno ->]] [(r' & Hr' & ->)|[Hno' ->]]; [|naive_solver..].
  by rewrite (matching_fun _ (ck_wf CK) _ _ _ Hr Hr').
Qed.

Lemma marks_length L i L' : marks L i L' → length L' = length L.
Proof. intros [(r & _ & ->)|[_ ->]]; by rewrite !length_insert. Qed.

Lemma bool_lookup_true (L L' : list bool) i j :
  i < length L → j < length L' → (L !! i = Some true ↔ L' !! j = Some true) → L !! i = L' !! j.
Proof.
  intros [b Hb]%lookup_lt_is_Some_2 [b' Hb']%lookup_lt_is_Some_2. rewrite Hb, Hb'.
  intros H. destruct b, b'; naive_solver.
Qed.

Lemma marks_coherent L i L' :
  coherent L → is_invoke_at h i → marks L i L' → coherent L'.
Proof.
  intros HC Hi HM. pose proof (marks_length _ _ _ HM) as Hlen. destruct HC as [Hl Hco].
  split; [lia|]. intros a r Har. pose proof (matching_invoke _ _ _ Har) as Ha.
  pose proof (matching_response _ _ _ Har) as Hr.
  apply bool_lookup_true.
  { destruct Ha as [t Ht]. apply invoke_at_lt in Ht. lia. }
  { destruct Hr as [t Ht]. apply response_at_lt in Ht. lia. }
  rewrite !(marks_lookup L i L') by done. rewrite (Hco _ _ Har).
  assert (¬ matching h i a) as Hnia.
  { intros (t & _ & Hb)%id. destruct Ha as [u Hu]. by eapply invoke_response_excl. }
  assert (r ≠ i) as Hri.
  { intros ->. destruct Hi as [u Hu], Hr as [v Hv]. by eapply invoke_response_excl. }
  split.
  - intros [?|[->|?]]; [by left| |done]. by right; right.
  - intros [?|[?|Hir]]; [by left|done|]. right; left. by eapply matching_inj; [apply CK| |].
Qed.

(** Marking a minimal operation leaves strictly less to do. *)
Lemma marks_count L i L' :
  coherent L → L !! i = Some false → is_invoke_at h i → marks L i L' →
  count_true L < count_true L'.
Proof.
  intros [Hlen Hco] Hi Hinv [(r & Hr & ->)|[_ ->]]; [|rewrite count_true_insert by done; lia].
  assert (r ≠ i).
  { intros ->. destruct Hinv as [u Hu], (matching_response _ _ _ Hr) as [v Hv].
    by eapply invoke_response_excl. }
  rewrite count_true_insert; [rewrite count_true_insert by done; lia|].
  by rewrite list_lookup_insert_ne, <-(Hco _ _ Hr).
Qed.

Lemma initial_coherent : coherent (replicate (length h) false).
Proof.
  split; [by rewrite length_replicate|]. intros i r Hir.
  destruct (matching_invoke _ _ _ Hir) as [t Ht%invoke_at_lt].
  destruct (matching_response _ _ _ Hir) as [u Hu%response_at_lt].
  by rewrite !lookup_replicate_2.
Qed.

(** Some operation at or after [i] can be linearized next, successfully. *)
Definition extends_from (i : nat) (L : list bool) (s : State) : Prop :=
  ∃ k L' s', i ≤ k ∧ minimal L k ∧ accepts s k s' ∧ marks L k L' ∧ completes L' s'.

Lemma extends_from_0 L s :
  ¬ Forall (λ b, b = true) L → extends_from 0 L s ↔ completes L s.
Proof.
  intros Hn. split.
  - intros (k & L' & s' & _ & ? & ? & ? & ?). by eapply completes_step.
  - inversion 1 as [|? ? k L' s']; [done|]. exists k, L', s'. split_and!; eauto; lia.
Qed.

Lemma extends_from_S i L s :
  (∀ L' s', minimal L i → accepts s i s' → marks L i L' → ¬ completes L' s') →
  extends_from i L s ↔ extends_from (S i) L s.
Proof.
  intros Hno. split; intros (k & L' & s' & Hle & H1 & H2 & H3 & H4).
  - assert (k ≠ i) by (intros ->; by eapply Hno). exists k, L', s'. split_and!; auto; lia.
  - exists k, L', s'. split_and!; auto; lia.
Qed.

(** When only pending operations are left, they all can be linearized. *)
Lemma pending_completes L s :
  coherent L → (∀ j, is_response_at h j → L !! j = Some true) → completes L s.
Proof.
  remember (count_false L) as n eqn:Hn. revert L s Hn.
  induction n as [n IH] using lt_wf_ind. intros L s Hn HC Hresp.
  destruct (decide (Forall (λ b, b = true) L)) as [?|(i & Hi)%not_full_false]; [by apply completes_done|].
  pose proof HC as [Hlen Hco].
  assert (i < length h) as Hlt by (rewrite <-Hlen; by eapply lookup_lt_Some).
  destruct (event_cases h i Hlt) as [Hinv|Hr]; [|by rewrite Hresp in Hi].
  assert (¬ ∃ r, matching h i r) as Hno.
  { intros (r & Hr). rewrite (Hco _ _ Hr), Hresp in Hi; [done|]. by eapply matching_response. }
  destruct (pending_accepts s i Hinv Hno) as (s' & Hacc).
  assert (marks L i (<[i := true]> L)) as HM by (right; done).
  assert (minimal L i) as Hmin by (split; [done|]; split; [done|]; auto).
  eapply completes_step; [done..|].
  eapply IH; [|reflexivity|by eapply marks_coherent|].
  - pose proof (count_false_insert _ _ Hi). lia.
  - intros j Hj. rewrite list_lookup_insert_ne; [by apply Hresp|]. intros <-.
    destruct Hinv as [u Hu], Hj as [v Hv]. by eapply invoke_response_excl.
Qed.

Lemma dead_response L s :
  coherent L → ¬ completes L s → ∃ r, is_response_at h r ∧ L !! r = Some false.
Proof.
  intros HC Hdead.
  destruct (decide (Forall (λ j, ¬ is_invoke_at h j → L !! j = Some true) (List.seq 0 (length h))))
    as [Hall|Hex].
  - destruct Hdead. apply pending_completes; [done|]. intros j Hj. rewrite Forall_forall in Hall.
    apply Hall.
    + apply elem_of_seq. destruct Hj as [t ?%response_at_lt]. lia.
    + intros [u Hu]. destruct Hj as [v Hv]. by eapply invoke_response_excl.
  - apply not_Forall_Exists in Hex; [|apply _]. apply Exists_exists in Hex as (j & Hj & Hbit).
    apply elem_of_seq in Hj. destruct HC as [Hlen _].
    destruct (lookup_lt_is_Some_2 L j) as [b Hb]; [lia|].
    exists j. assert (j < length h) as Hlt by lia.
    destruct (event_cases h j Hlt) as [?|?]; [by destruct Hbit|]. split; [done|].
    destruct b; [|done]. by destruct Hbit.
Qed.

Lemma invoke_bit L i :
  coherent L → is_invoke_at h i → L !! i = Some true ∨ L !! i = Some false.
Proof.
  intros [Hlen _] [t Ht%invoke_at_lt]. rewrite <-Hlen in Ht.
  apply lookup_lt_is_Some_2 in Ht as [[] ?]; auto.
Qed.

(** The operations a bitmap leaves to linearize, in some order. *)
Record remaining (L : list bool) (seq : list nat) : Prop := {
  rem_nodup : NoDup seq;
  rem_ops : ∀ i, i ∈ seq ↔ is_invoke_at h i ∧ L !! i = Some false;
  rem_order : ∀ p q a b, seq !! p = Some a → seq !! q = Some b → precedes h a b → p < q;
}.

Lemma remaining_marks L L' i seq :
  coherent L → is_invoke_at h i → L !! i = Some false → marks L i L' → i ∉ seq →
  (∀ k, k ∈ i :: seq ↔ is_invoke_at h k ∧ L !! k = Some false) ↔
  (∀ k, k ∈ seq ↔ is_invoke_at h k ∧ L' !! k = Some false).
Proof.
  intros HC Hi HLi HM Hni. pose proof (marks_coherent _ _ _ HC Hi HM) as HC'.
  assert (∀ k, is_invoke_at h k → L' !! k = Some false ↔ L !! k = Some false ∧ k ≠ i) as Hbit.
  { intros k Hk. pose proof (marks_lookup L i L' k HC Hi HM) as Hl.
    destruct (invoke_bit L k HC Hk) as [E|E], (invoke_bit L' k HC' Hk) as [E'|E'];
      rewrite E, E' in *; [naive_solver| | |naive_solver].
    - exfalso. naive_solver.
    - split; [done|]. intros [_ Hki]. destruct Hl as [Hl _].
      destruct (Hl eq_refl) as [?|[?|Hm]]; [done..|].
      destruct (matching_response _ _ _ Hm) as [u Hu], Hk as [v Hv].
      destruct (invoke_response_excl _ _ _ _ Hv Hu). }
  split.
  - intros Hk k. split.
    + intros Hin. destruct (proj1 (Hk k)) as [? ?]; [by right|]. split; [done|].
      apply Hbit; [done|]. split; [done|]. by intros ->.
    + intros [Hki [HL Hne]%Hbit]; [|done]. by destruct (proj1 (elem_of_cons _ _ _) (proj2 (Hk k) (conj Hki HL))).
  - intros Hk k. rewrite elem_of_cons, Hk. split.
    + intros [->|[? ?%Hbit]]; naive_solver.
    + intros [Hki HL]. destruct (decide (k = i)); [by left|]. right. by rewrite Hbit.
Qed.

Lemma minimal_not_after L a b :
  coherent L → is_invoke_at h a → L !! a = Some false → minimal L b → ¬ precedes h a b.
Proof.
  intros [_ Hco] Ha HLa (_ & _ & Hmin) (r & Hr & Hlt).
  rewrite (Hco _ _ Hr), (Hmin r) in HLa; [done..|]. by eapply matching_response.
Qed.

Lemma completes_remaining L s :
  completes L s → coherent L → ∃ seq, remaining L seq ∧ legal s seq.
Proof.
  induction 1 as [L s Hall|L s i L' s' Hmin Hacc HM _ IH]; intros HC.
  - exists []. split; [|constructor]. split; [constructor| |done].
    intros k. split; [by intros ?%elem_of_nil|]. intros [_ Hk].
    rewrite Forall_lookup in Hall. by specialize (Hall _ _ Hk).
  - pose proof Hmin as (Hi & HLi & _).
    destruct IH as (seq & [Hnd Hops Hord] & Hleg); [by eapply marks_coherent|].
    assert (i ∉ seq) as Hni.
    { intros [_ Hbad]%Hops. pose proof (marks_lookup L i L' i HC Hi HM). naive_solver. }
    pose proof (proj2 (remaining_marks _ _ _ _ HC Hi HLi HM Hni) Hops) as Hops'.
    exists (i :: seq). split; [|by econstructor]. split; [by constructor|done|].
    intros [|p] [|q] a b Hp Hq Hab; simplify_eq/=; [|lia| |].
    + destruct Hab as (r & Hr & Hlt). pose proof (matching_lt _ (ck_wf CK) _ _ Hr). lia.
    + exfalso. assert (a ∈ seq) as Hin by (apply list_elem_of_lookup; eauto).
      destruct (proj1 (Hops' a)) as [Ha HLa]; [by right|]. by eapply minimal_not_after.
    + specialize (Hord p q a b Hp Hq Hab). lia.
Qed.

Lemma remaining_completes seq L s :
  coherent L → remaining L seq → legal s seq → completes L s.
Proof.
  revert L s. induction seq as [|i seq IH]; intros L s HC [Hnd Hops Hord] Hleg.
  - apply completes_done. apply Forall_lookup. intros k b Hk.
    assert (k < length h) as Hlt by (destruct HC as [<- _]; by eapply lookup_lt_Some).
    assert (∀ a, is_invoke_at h a → L !! a = Some true) as Hinv.
    { intros a Ha. destruct (invoke_bit L a HC Ha) as [?|Hf]; [done|].
      pose proof (proj2 (Hops a) (conj Ha Hf)) as Hin. by apply elem_of_nil in Hin. }
    destruct (event_cases h k Hlt) as [Hki|Hkr]; [specialize (Hinv k Hki); congruence|].
    destruct (response_matched _ (ck_wf CK) _ Hkr) as (a & Ha).
    destruct HC as [_ Hco]. specialize (Hinv a ltac:(by eapply matching_invoke)).
    rewrite (Hco _ _ Ha) in Hinv. congruence.
  - inversion Hleg as [|? ? s' ? Hacc Hleg']; subst. apply NoDup_cons in Hnd as [Hni Hnd].
    destruct (proj1 (Hops i)) as [Hi HLi]; [by left|].
    destruct (marks_exists L i) as [L' HM]. eapply completes_step; [|done..|].
    + split; [done|]. split; [done|]. intros j Hj Hjr.
      destruct (response_matched _ (ck_wf CK) _ Hjr) as (a & Ha).
      pose proof (matching_invoke _ _ _ Ha) as Hai. pose proof HC as [_ Hco].
      rewrite <-(Hco _ _ Ha). destruct (invoke_bit L a HC Hai) as [?|Hf]; [done|].
      pose proof (proj2 (Hops a) (conj Hai Hf)) as [p Hp]%list_elem_of_lookup.
      specialize (Hord p 0 a i Hp eq_refl ltac:(by exists j)). lia.
    + apply IH; [by eapply marks_coherent| |done]. split; [done| |].
      * by eapply remaining_marks.
      * intros p q a b Hp Hq Hab. specialize (Hord (S p) (S q) a b Hp Hq Hab). lia.
Qed.

Lemma legal_snoc_pending seq s xs :
  legal s seq → (∀ i, i ∈ xs → is_invoke_at h i ∧ ¬ ∃ r, matching h i r) →
  legal s (seq ++ xs).
Proof.
  intros Hleg Hxs. revert s Hleg. induction seq as [|i seq IH]; simpl; intros s Hleg.
  - clear Hleg. revert s. induction xs as [|x xs IH]; intros s; [constructor|].
    destruct (Hxs x) as [Hx Hno]; [by left|].
    destruct (pending_accepts s x Hx Hno) as (s' & Hacc). econstructor; [done|].
    apply IH. intros i Hi. apply Hxs. by right.
  - inversion Hleg; subst. econstructor; [done|]. by apply IH.
Qed.

(** Pending operations can always be appended, so a linearization extends to
    one of every invocation, as the checkers build it. *)
Lemma linearization_remaining s seq :
  linearization s seq →
  ∃ seq', remaining (replicate (length h) false) seq' ∧ legal s seq'.
Proof.
  intros [Hnd Hops Hcomp Hord Hleg].
  set (xs := filter (λ i, is_invoke_at h i ∧ i ∉ seq) (List.seq 0 (length h))).
  assert (∀ i, i ∈ xs ↔ is_invoke_at h i ∧ i ∉ seq) as Hxs.
  { intros i. unfold xs. rewrite list_elem_of_filter, elem_of_seq. split; [naive_solver|].
    intros [Hi ?]. split; [done|]. destruct Hi as [t ?%invoke_at_lt]. lia. }
  exists (seq ++ xs). split; [split|].
  - apply NoDup_app. split; [done|]. split; [|apply NoDup_filter, NoDup_seq].
    intros i Hi [_ Hni]%Hxs. done.
  - intros i. rewrite elem_of_app, Hxs. split.
    + intros [Hi|[Hi _]]; (split; [by auto|]).
      * apply lookup_replicate_2. destruct (Hops i Hi) as [t ?%invoke_at_lt]. done.
      * apply lookup_replicate_2. destruct Hi as [t ?%invoke_at_lt]. done.
    + intros [Hi _]. destruct (decide (i ∈ seq)); auto.
  - intros p q a b Hp Hq Hab. pose proof Hab as (r & Hr & _).
    pose proof (Hcomp _ _ Hr) as Hin.
    assert (p < length seq) as Hpl.
    { destruct (decide (p < length seq)); [done|]. rewrite lookup_app_r in Hp by lia.
      assert (a ∈ xs) as [_ ?]%Hxs by (apply list_elem_of_lookup; eauto). done. }
    destruct (decide (q < length seq)) as [Hql|]; [|lia].
    rewrite lookup_app_l in Hp, Hq by done. eauto.
  - apply legal_snoc_pending; [done|]. intros i [Hi Hni]%Hxs. split; [done|].
    intros (r & Hr). eauto.
Qed.

Theorem completes_linearizable s :
  completes (replicate (length h) false) s ↔ linearizable s.
Proof.
  split.
  - intros Hc. destruct (completes_remaining _ _ Hc initial_coherent) as (seq & [Hnd Hops Hord] & Hleg).
    exists seq. split; [done| |  |done..].
    + intros i Hi. by apply Hops.
    + intros i r Hr. apply Hops. pose proof (matching_invoke _ _ _ Hr) as Hi. split; [done|].
      apply lookup_replicate_2. destruct Hi as [t ?%invoke_at_lt]. done.
  - intros (seq & Hlin). destruct (linearization_remaining _ _ Hlin) as (seq' & Hrem & Hleg).
    eapply remaining_completes; eauto using initial_coherent.
Qed.
End linearizability.
