(* ===== verification/LincheckRecursive.v ===== *)
(** * LinearizabilityCheckerRecursive (lincheck_recursive.h)

    The reference checker, the one [ltest::Run] uses: a depth first search over
    the minimal operations.  [linearized] is passed by reference, so the model
    threads it; the recursion is bounded by fuel, and [Check] supplies one unit
    more than the history has entries, which [Check_recursive_correct] shows is
    enough: every call linearizes at least one entry more. *)

From stdpp Require Import base list gmap strings option.
From S2P Require Import Prelude ValueWrapper History Linearizability.

Section recursive.
Context {State Args : Type}.
Context (specification_methods : gmap string (Method (State:=State) (Args:=Args))).
Context (task_at : TaskRef → option (TaskInfo Args)).
Context (first_state : State).

Section step.
Context (inv_res : gmap nat nat).
(** The recursive call of [recursive_step]. *)
Context (recursive_call : list bool → State → outcome (bool * list bool)).

(** The [for] loop over the minimal operations, from index [i] on
    ([events] are the entries of the history from [i] on). *)
Fixpoint walk_minimal (events : list HistoryEvent) (i : nat)
    (linearized : list bool) (data_structure_state : State) : outcome (bool * list bool) :=
  match events with
  | [] => Ok (false, linearized)
  | event :: rest =>
      skip ← vec_get linearized i;
      if (skip : bool) then walk_minimal rest (S i) linearized data_structure_state
      else
        match event with
        | EResponse _ => Ok (false, linearized)
        | EInvoke minimal_op =>
            '(res, data_structure_state_copy) ←
              apply_method specification_methods task_at data_structure_state minimal_op;
            match inv_res !! i with
            | None =>
                linearized ← vec_set linearized i true;
                '(found, linearized) ← recursive_call linearized data_structure_state_copy;
                if (found : bool) then Ok (true, linearized)
                else
                  linearized ← vec_set linearized i false;
                  walk_minimal rest (S i) linearized data_structure_state
            | Some response =>
                equal ← result_matches task_at res minimal_op;
                if (equal : bool) then
                  linearized ← vec_set linearized i true;
                  linearized ← vec_set linearized response true;
                  '(found, linearized) ← recursive_call linearized data_structure_state_copy;
                  if (found : bool) then Ok (true, linearized)
                  else
                    linearized ← vec_set linearized i false;
                    linearized ← vec_set linearized response false;
                    walk_minimal rest (S i) linearized data_structure_state
                else walk_minimal rest (S i) linearized data_structure_state
            end
        end
  end.
End step.

Fixpoint recursive_step (fuel : nat) (inv_res : gmap nat nat)
    (history : list HistoryEvent) (linearized : list bool)
    (data_structure_state : State) : outcome (bool * list bool) :=
  match fuel with
  | 0 => Fail OutOfFuel
  | S fuel =>
      if forallb id linearized then Ok (true, linearized)
      else walk_minimal inv_res (recursive_step fuel inv_res history)
             history 0 linearized data_structure_state
  end.

Definition Check_recursive (history : list HistoryEvent) : outcome bool :=
  match history with
  | [] => Ok true
  | _ =>
      inv_res ← get_inv_res_mapping history;
      '(found, _) ← recursive_step (S (length history)) inv_res history
                      (replicate (length history) false) first_state;
      Ok found
  end.

(** ** Correctness *)

Section correct.
Context (h : list HistoryEvent).
Context (CK : checkable specification_methods task_at h).
Context (inv_res : gmap nat nat) (Hmap : ∀ i j, inv_res !! i = Some j ↔ matching h i j).

Local Abbreviation completes := (completes specification_methods task_at h).
Local Abbreviation extends_from := (extends_from specification_methods task_at h).
Local Abbreviation accepts := (accepts specification_methods task_at h).

(** What one call promises about the bitmap and the state it is given. *)
Definition step_ok (L : list bool) (s : State) (r : outcome (bool * list bool))
    (P : Prop) : Prop :=
  ∃ b L', r = Ok (b, L') ∧ (b = true ↔ P) ∧ (b = false → L' = L).

(** The two ways [walk_minimal] moves past an index. *)
Lemma step_ok_next i L s r :
  (∀ L' s', minimal h L i → accepts s i s' → marks h L i L' → ¬ completes L' s') →
  step_ok L s r (extends_from (S i) L s) → step_ok L s r (extends_from i L s).
Proof. intros Hno (b & L' & ? & ? & ?). exists b, L'. by rewrite (extends_from_S _ _ _ i L s Hno). Qed.

Lemma step_ok_found i L L' s s' L'' :
  minimal h L i → accepts s i s' → marks h L i L' → completes L' s' →
  step_ok L s (Ok (true, L'')) (extends_from i L s).
Proof. intros. exists true, L''. split_and!; [done| |done]. split; [|done]. intros _. by exists i, L', s'. Qed.

Lemma response_bit_lt i r L :
  coherent h L → matching h i r → L !! i = Some false → L !! r = Some false ∧ r < length L.
Proof.
  intros [Hlen Hco] Hir Hi. split; [by rewrite <-(Hco _ _ Hir)|].
  destruct (matching_response _ _ _ Hir) as [t ?%response_at_lt]. lia.
Qed.

Lemma pre_S (L : list bool) i :
  (∀ j, j < i → is_response_at h j → L !! j = Some true) → L !! i = Some true →
  ∀ j, j < S i → is_response_at h j → L !! j = Some true.
Proof. intros Hpre Hi j Hj Hr. destruct (decide (j = i)) as [->|]; [done|]. apply Hpre; [lia|done]. Qed.

Context (m : nat) (call : list bool → State → outcome (bool * list bool)).
Context (Hcall : ∀ L s, coherent h L → m < count_true L →
                   step_ok L s (call L s) (completes L s)).

(** The loop body at index [i], given that the rest of the loop is right. *)
Section body.
Context (i : nat) (L : list bool) (s : State) (rest : list HistoryEvent).
Context (HC : coherent h L) (Hm : count_true L = m).
Context (Hrest : step_ok L s (walk_minimal inv_res call rest (S i) L s)
                   (extends_from (S i) L s)).

Lemma walk_skip event :
  L !! i = Some true →
  step_ok L s (walk_minimal inv_res call (event :: rest) i L s) (extends_from i L s).
Proof.
  intros Hbit. simpl. rewrite (vec_get_Some _ _ _ Hbit). simpl.
  apply step_ok_next; [|done]. intros L' s' (_ & Hf & _). congruence.
Qed.

Lemma walk_response res :
  h !! i = Some (EResponse res) → L !! i = Some false →
  step_ok L s (walk_minimal inv_res call (EResponse res :: rest) i L s) (extends_from i L s).
Proof.
  intros Hi Hbit. simpl. rewrite (vec_get_Some _ _ _ Hbit). simpl.
  exists false, L. split_and!; [done| |done]. split; [done|].
  intros (k & L' & s' & Hk & (Hki & Hf & Hmin) & _). exfalso.
  assert (is_response_at h i) as Hr by (exists (res_task res), res; done).
  destruct (decide (k = i)) as [->|].
  - destruct Hki as [u Hu], Hr as [v Hv]. by eapply invoke_response_excl.
  - specialize (Hmin i ltac:(lia) Hr). congruence.
Qed.

Context (inv : Invoke) (Hi : h !! i = Some (EInvoke inv)) (Hmin : minimal h L i).

Lemma walk_answered r :
  matching h i r →
  step_ok L s (walk_minimal inv_res call (EInvoke inv :: rest) i L s) (extends_from i L s).
Proof.
  intros Hir. pose proof Hmin as (Hinv & Hbit & _). pose proof HC as [Hlen _].
  destruct (response_bit_lt _ _ _ HC Hir Hbit) as [HLr Hrl].
  pose proof (lookup_lt_Some _ _ _ Hbit) as Hil.
  simpl. rewrite (vec_get_Some _ _ _ Hbit). simpl.
  destruct (apply_method_total _ _ _ CK s i inv Hi) as (res & s' & Happ & Hres).
  rewrite Happ. simpl. rewrite (proj2 (Hmap _ _) Hir).
  destruct (Hres r Hir) as [b Hb]. rewrite Hb. simpl. destruct b.
  2:{ apply step_ok_next; [|done]. intros L'' s'' _ (inv' & res' & Hi' & Happ' & Hm'). simplify_eq.
      rewrite Happ in Happ'. simplify_eq. rewrite Hm' in Hb; [done|]. by exists r. }
  assert (marks h L i (<[r := true]> (<[i := true]> L))) as HM by (left; eauto).
  assert (accepts s i s') as Hacc by (exists inv, res; done).
  rewrite vec_set_lt by lia. simpl. rewrite vec_set_lt by (rewrite length_insert; lia). simpl.
  destruct (Hcall (<[r := true]> (<[i := true]> L)) s') as (b & L' & -> & Hb' & HL').
  { by eapply marks_coherent. }
  { rewrite <-Hm. by apply (marks_count h L i). }
  simpl. destruct b; [eapply step_ok_found; naive_solver|].
  rewrite HL' by done. rewrite vec_set_lt by (rewrite !length_insert; lia). simpl.
  rewrite vec_set_lt by (rewrite !length_insert; lia). simpl.
  rewrite unset_two by done. apply step_ok_next; [|done].
  intros L'' s'' _ Hacc' [(r' & Hr' & ->)|[Hno _]]; [|by destruct Hno; eauto].
  rewrite (accepts_fun _ _ _ _ _ _ _ Hacc' Hacc).
  rewrite (matching_fun _ (ck_wf _ _ _ CK) _ _ _ Hr' Hir). naive_solver.
Qed.

Lemma walk_pending :
  (¬ ∃ r, matching h i r) →
  step_ok L s (walk_minimal inv_res call (EInvoke inv :: rest) i L s) (extends_from i L s).
Proof.
  intros Hno. pose proof Hmin as (Hinv & Hbit & _).
  pose proof (lookup_lt_Some _ _ _ Hbit) as Hil.
  simpl. rewrite (vec_get_Some _ _ _ Hbit). simpl.
  destruct (apply_method_total _ _ _ CK s i inv Hi) as (res & s' & Happ & _).
  rewrite Happ. simpl.
  destruct (inv_res !! i) as [r|] eqn:E; [apply Hmap in E; naive_solver|].
  assert (marks h L i (<[i := true]> L)) as HM by (right; eauto).
  assert (accepts s i s') as Hacc by (exists inv, res; done).
  rewrite vec_set_lt by lia. simpl.
  destruct (Hcall (<[i := true]> L) s') as (b & L' & -> & Hb' & HL').
  { by eapply marks_coherent. }
  { rewrite <-Hm. by apply (marks_count h L i). }
  simpl. destruct b; [eapply step_ok_found; naive_solver|].
  rewrite HL' by done. rewrite vec_set_lt by (rewrite length_insert; lia). simpl.
  rewrite unset_one by done. apply step_ok_next; [|done].
  intros L'' s'' _ Hacc' [(r' & Hr' & _)|[_ ->]]; [by destruct Hno; eauto|].
  rewrite (accepts_fun _ _ _ _ _ _ _ Hacc' Hacc). naive_solver.
Qed.
End body.

Lemma walk_minimal_ok events i L s :
  drop i h = events → coherent h L → count_true L = m →
  (∀ j, j < i → is_response_at h j → L !! j = Some true) →
  step_ok L s (walk_minimal inv_res call events i L s) (extends_from i L s).
Proof.
  revert i. induction events as [|event rest IH]; intros i Hdrop HC Hm Hpre.
  { exists false, L. split_and!; [done| |done]. split; [done|].
    intros (k & L' & s' & Hk & ([t Ht%invoke_at_lt] & _) & _).
    assert (length (drop i h) = 0) as Hl by by rewrite Hdrop. rewrite length_drop in Hl. lia. }
  destruct (drop_cons_inv _ _ _ _ Hdrop) as [Hi Hdrop'].
  pose proof (lookup_lt_Some _ _ _ Hi) as Hlt. pose proof HC as [Hlen _].
  destruct (lookup_lt_is_Some_2 L i) as [bit Hbit]; [lia|].
  destruct event as [inv|res]; (destruct bit; [apply walk_skip; [|done]; apply IH; auto; apply pre_S; auto|]).
  - assert (is_invoke_at h i) as Hinv by (exists (inv_task inv), inv; done).
    assert (step_ok L s (walk_minimal inv_res call rest (S i) L s) (extends_from (S i) L s)) as Hrest.
    { apply IH; auto. intros j Hj Hr. destruct (decide (j = i)) as [->|]; [|apply Hpre; [lia|done]].
      destruct Hinv as [u Hu], Hr as [v Hv]. destruct (invoke_response_excl _ _ _ _ Hu Hv). }
    destruct (matching_dec _ _ _ CK i) as [[r Hr]|Hno]; [by eapply walk_answered|by apply walk_pending].
  - by apply walk_response.
Qed.
End correct.

Lemma recursive_step_ok h inv_res fuel L s :
  checkable specification_methods task_at h →
  (∀ i j, inv_res !! i = Some j ↔ matching h i j) →
  coherent h L → count_false L < fuel →
  step_ok L s (recursive_step fuel inv_res h L s)
    (completes specification_methods task_at h L s).
Proof.
  intros CK Hmap. revert L s. induction fuel as [|fuel IH]; intros L s HC Hf; [lia|]. simpl.
  destruct (forallb id L) eqn:Hall.
  - apply forallb_id_Forall in Hall. exists true, L. split_and!; [done| |done].
    split; [|done]. intros _. by apply completes_done.
  - assert (¬ Forall (λ b, b = true) L) as Hn by (rewrite <-forallb_id_Forall; congruence).
    destruct (walk_minimal_ok h CK inv_res Hmap (count_true L) (recursive_step fuel inv_res h)) with
      (events := h) (i := 0) (L := L) (s := s) as (b & L' & -> & Hb & HL'); [|done..|lia|].
    + intros L1 s1 HC1 Hlt. apply IH; [done|].
      pose proof (count_true_false L). pose proof (count_true_false L1).
      destruct HC as [? _], HC1 as [? _]. lia.
    + exists b, L'. by rewrite <-extends_from_0.
Qed.

Lemma Check_recursive_unfold history :
  history ≠ [] →
  Check_recursive history =
    (inv_res ← get_inv_res_mapping history;
     '(found, _) ← recursive_step (S (length history)) inv_res history
                     (replicate (length history) false) first_state;
     Ok found).
Proof. by destruct history. Qed.

Lemma Check_recursive_decides h :
  checkable specification_methods task_at h →
  ∃ b, Check_recursive h = Ok b ∧
    (b = true ↔ linearizable specification_methods task_at h first_state).
Proof.
  intros CK. pose proof (completes_linearizable _ _ _ CK first_state) as Hiff.
  destruct (decide (h = [])) as [->|Hne].
  { exists true. split; [done|]. split; [|done]. intros _. apply Hiff. by apply completes_done. }
  rewrite Check_recursive_unfold by done.
  destruct (get_inv_res_mapping_wf h (ck_wf _ _ _ CK)) as (m & -> & Hm).
  cbn [mbind outcome_bind].
  destruct (recursive_step_ok h m (S (length h)) (replicate (length h) false) first_state)
    as (b & L' & E & Hb & _); [done|done|apply initial_coherent| |].
  { pose proof (count_true_false (replicate (length h) false)) as Hc.
    rewrite length_replicate in Hc. lia. }
  rewrite E. exists b. by rewrite <-Hiff.
Qed.

(** C18: On every checkable history the recursive checker terminates without
    failing an assertion, throwing or indexing out of range, and answers
    [true] exactly when the history is linearizable. *)
Theorem Check_recursive_correct h :
  checkable specification_methods task_at h →
  ∃ b, Check_recursive h = Ok b ∧
    (b = true ↔ linearizable specification_methods task_at h first_state).
Proof. apply Check_recursive_decides. Qed.
End recursive.
