(* ===== verification/Lincheck.v ===== *)
(** * LinearizabilityChecker (lincheck.h): the iterative search with a cache

    The Wing-Gong-Lowe search: one loop over an explicit stack of open sections
    and of saved states, with a hash set of the (bitmap, state) pairs already
    reached.  The state of the loop is the record [wgl]; [wgl_step] is one
    iteration; [Check] runs it with fuel.

    The main theorem states that for every checkable history there is an amount
    of fuel from which on [Check] returns, never reads [history] or [linearized]
    out of range, and answers whether the history is linearizable.  The cache is
    sound when the user's [SpecificationObjectEqual] only identifies states no
    method can tell apart ([spec_equal_bisim]); hash functions are arbitrary. *)

From stdpp Require Import base list gmap strings option relations.
From S2P Require Import Prelude ValueWrapper History Linearizability.

Section wgl.
Context {State Args : Type}.
Context (specification_methods : gmap string (Method (State:=State) (Args:=Args))).
Context (task_at : TaskRef → option (TaskInfo Args)).
Context (first_state : State).
(** The template parameters, and [std::hash<std::vector<bool>>]. *)
Context (SpecificationObjectHash : State → Z).
Context (SpecificationObjectEqual : State → State → bool).
Context (vector_hash : list bool → Z).

(** [PairHash] and [PairEqual] (lincheck.h:82-106). *)
Definition PairHash (pair : list bool * State) : Z :=
  Z.lxor (vector_hash pair.1) (SpecificationObjectHash pair.2).

Definition PairEqual (lhs rhs : list bool * State) : bool :=
  bool_decide (lhs.1 = rhs.1) && SpecificationObjectEqual lhs.2 rhs.2.

(** [states_cache.find(key) != states_cache.end()]: an element with the hash
    of the key that the key predicate identifies with it. *)
Definition cache_contains (key : list bool * State) (cache : list (list bool * State)) : bool :=
  existsb (λ e, (PairHash key =? PairHash e)%Z && PairEqual e key) cache.

(** The local variables of [Check].  The two vectors used as stacks are lists
    whose head is [back()]. *)
Record wgl := mk_wgl {
  current_section_start : nat;
  data_structure_state : State;
  open_sections_stack : list nat;
  states_stack : list State;
  linearized : list bool;
  linearized_entries_count : nat;
  states_cache : list (list bool * State);
}.

Definition advance (w : wgl) : wgl :=
  mk_wgl (S (current_section_start w)) (data_structure_state w) (open_sections_stack w)
    (states_stack w) (linearized w) (linearized_entries_count w) (states_cache w).

(** Setting or resetting the bits of the invocation at [i] and of its response. *)
Definition set_section (l : list bool) (i : nat) (response : option nat) (b : bool)
  : outcome (list bool) :=
  l ← vec_set l i b;
  match response with
  | None => Ok l
  | Some r => vec_set l r b
  end.

(** The entries one section counts for. *)
Definition section_size (response : option nat) : nat :=
  match response with None => 1 | Some _ => 2 end.

(** The branch for an invocation. *)
Definition step_invoke (inv_res : gmap nat nat) (w : wgl) (inv : Invoke) : outcome wgl :=
  let cur := current_section_start w in
  '(res, data_structure_state_copy) ←
    apply_method specification_methods task_at (data_structure_state w) inv;
  let response := inv_res !! cur in
  equal ← match response with
          | None => Ok true
          | Some _ => result_matches task_at res inv
          end;
  if (equal : bool) then
    l ← set_section (linearized w) cur response true;
    let count := linearized_entries_count w + section_size response in
    let was_checked := cache_contains (l, data_structure_state_copy) (states_cache w) in
    if was_checked then
      l ← set_section l cur response false;
      Ok (mk_wgl (S cur) (data_structure_state w) (open_sections_stack w) (states_stack w)
            l (count - section_size response) (states_cache w))
    else
      Ok (mk_wgl 0 data_structure_state_copy (cur :: open_sections_stack w)
            (data_structure_state w :: states_stack w) l count
            ((l, data_structure_state_copy) :: states_cache w))
  else Ok (advance w).

(** The branch for a response: [inl] continues, [inr] returns. *)
Definition step_response (inv_res : gmap nat nat) (w : wgl) : outcome (wgl + bool) :=
  match open_sections_stack w, states_stack w with
  | [], _ => Ok (inr false)
  | _ :: _, [] => Fail (Undefined "states_stack.back()")
  | last_inv :: sections, previous_state :: states =>
      let response := inv_res !! last_inv in
      l ← set_section (linearized w) last_inv response false;
      Ok (inl (mk_wgl (S last_inv) previous_state sections states l
                 (linearized_entries_count w - section_size response) (states_cache w)))
  end.

(** One evaluation of the loop condition and of the loop body. *)
Definition wgl_step (inv_res : gmap nat nat) (history : list HistoryEvent) (w : wgl)
  : outcome (wgl + bool) :=
  if bool_decide (linearized_entries_count w = length history) then Ok (inr true)
  else
    done ← vec_get (linearized w) (current_section_start w);
    if (done : bool) then Ok (inl (advance w))
    else
      event ← vec_get history (current_section_start w);
      match event with
      | EInvoke inv => w' ← step_invoke inv_res w inv; Ok (inl w')
      | EResponse _ => step_response inv_res w
      end.

Fixpoint wgl_loop (fuel : nat) (inv_res : gmap nat nat) (history : list HistoryEvent)
    (w : wgl) : outcome bool :=
  match fuel with
  | 0 => Fail OutOfFuel
  | S fuel =>
      next ← wgl_step inv_res history w;
      match next with
      | inl w' => wgl_loop fuel inv_res history w'
      | inr b => Ok b
      end
  end.

Definition wgl_init (history : list HistoryEvent) : wgl :=
  mk_wgl 0 first_state [] [] (replicate (length history) false) 0 [].

Definition Check (fuel : nat) (history : list HistoryEvent) : outcome bool :=
  inv_res ← get_inv_res_mapping history;
  wgl_loop fuel inv_res history (wgl_init history).

(** ** Correctness *)

(** [SpecificationObjectEqual] only identifies indistinguishable states: equal
    states answer every call alike and stay equal. *)
Definition same_outcome (r1 r2 : outcome (ValueWrapper * State)) : Prop :=
  match r1, r2 with
  | Ok (v1, s1), Ok (v2, s2) =>
      SpecificationObjectEqual s1 s2 = true ∧ ∀ w, vw_eq v1 w = vw_eq v2 w
  | Fail _, Fail _ => True
  | _, _ => False
  end.

Definition spec_equal_bisim : Prop :=
  ∀ s t name (m : Method) args, SpecificationObjectEqual s t = true →
    specification_methods !! name = Some m → same_outcome (m s args) (m t args).

Section correct.
Context (Hbisim : spec_equal_bisim).
Context (h : list HistoryEvent).
Context (CK : checkable specification_methods task_at h).
Context (inv_res : gmap nat nat) (Hmap : ∀ i j, inv_res !! i = Some j ↔ matching h i j).

Local Abbreviation completes := (completes specification_methods task_at h).
Local Abbreviation accepts := (accepts specification_methods task_at h).
Local Abbreviation extends_from := (extends_from specification_methods task_at h).

Lemma accepts_bisim s t i t' :
  SpecificationObjectEqual s t = true → accepts t i t' →
  ∃ s', accepts s i s' ∧ SpecificationObjectEqual s' t' = true.
Proof.
  intros Heq (inv & res & Hi & Happ & Hres).
  destruct (ck_task _ _ _ CK i (inv_task inv)) as (info & m & Ht & Hm & _); [by exists inv|].
  unfold apply_method, read_task, find_method in Happ. rewrite Ht in Happ. simpl in Happ.
  rewrite Hm in Happ. simpl in Happ.
  pose proof (Hbisim s t _ m (task_args info) Heq Hm) as Hsame. rewrite Happ in Hsame.
  destruct (m s (task_args info)) as [[res1 s1]|] eqn:E1; [|done].
  destruct Hsame as [Heq' Hv]. exists s1. split; [|done].
  exists inv, res1. split; [done|]. split.
  - unfold apply_method, read_task, find_method. rewrite Ht. simpl. by rewrite Hm.
  - intros Hr. specialize (Hres Hr). unfold result_matches in *.
    apply bind_Ok in Hres as (x & Hx & Hres). rewrite Hx. simpl.
    apply bind_Ok in Hres as (v & Hret & Hres). rewrite Hret. simpl. by rewrite Hv.
Qed.

Lemma completes_bisim L s t :
  SpecificationObjectEqual s t = true → completes L t → completes L s.
Proof.
  intros Heq Hc. revert s Heq.
  induction Hc as [L t Hall|L t i L' t' Hmin Hacc HM _ IH]; intros s Heq.
  - by apply completes_done.
  - destruct (accepts_bisim _ _ _ _ Heq Hacc) as (s' & Hacc' & Heq').
    eapply completes_step; eauto.
Qed.

(** *** Iterations *)

Definition next (w w' : wgl) : Prop := wgl_step inv_res h w = Ok (inl w').
Definition returns (w : wgl) (b : bool) : Prop :=
  ∃ w', rtc next w w' ∧ wgl_step inv_res h w' = Ok (inr b).

Lemma returns_next w w' b : rtc next w w' → returns w' b → returns w b.
Proof. intros H1 (w'' & H2 & Hr). exists w''. split; [by etrans|done]. Qed.

Lemma returns_loop w b :
  returns w b → ∃ n, ∀ fuel, n ≤ fuel → wgl_loop fuel inv_res h w = Ok b.
Proof.
  intros (w' & Hw & Hr). induction Hw as [w|w w1 w' H1 _ IH].
  - exists 1. intros [|fuel] Hf; [lia|]. simpl. by rewrite Hr.
  - destruct (IH Hr) as (n & Hn). exists (S n). intros [|fuel] Hf; [lia|]. simpl.
    rewrite H1. simpl. apply Hn. lia.
Qed.

Lemma set_section_marks L i b :
  coherent h L → is_invoke_at h i →
  ∃ L', set_section L i (inv_res !! i) b = Ok L' ∧ length L' = length L ∧
    (b = true → marks h L i L') ∧
    (L !! i = Some false → b = true →
       count_true L' = count_true L + section_size (inv_res !! i) ∧
       set_section L' i (inv_res !! i) false = Ok L).
Proof.
  intros HC Hi. pose proof HC as [Hlen Hco].
  assert (i < length L) as Hil by (destruct Hi as [t ?%invoke_at_lt]; lia).
  unfold set_section. rewrite vec_set_lt by done. simpl.
  destruct (inv_res !! i) as [r|] eqn:E.
  - apply Hmap in E.
    assert (r < length L) as Hrl.
    { destruct (matching_response _ _ _ E) as [t ?%response_at_lt]. lia. }
    rewrite vec_set_lt by (rewrite length_insert; lia).
    eexists. split; [done|]. rewrite !length_insert. split; [done|]. split; [intros ->; left; eauto|].
    intros HLi ->. assert (L !! r = Some false) as HLr by by rewrite <-(Hco _ _ E).
    assert (i ≠ r) as Hne by (pose proof (matching_lt _ (ck_wf _ _ _ CK) _ _ E); lia).
    split.
    + rewrite count_true_insert by (by rewrite list_lookup_insert_ne).
      rewrite count_true_insert by done. simpl. lia.
    + rewrite vec_set_lt by (rewrite !length_insert; lia). simpl.
      rewrite vec_set_lt by (rewrite !length_insert; lia). by rewrite unset_two.
  - assert (¬ ∃ r, matching h i r) as Hno by (intros (r & Hr%Hmap); congruence).
    eexists. split; [done|]. rewrite length_insert. split; [done|]. split; [intros ->; by right|].
    intros HLi ->. split; [rewrite count_true_insert by done; simpl; lia|].
    rewrite vec_set_lt by (rewrite length_insert; lia). simpl. by rewrite unset_one.
Qed.

Lemma rejected_not_accepts s i s1 inv res r s' :
  h !! i = Some (EInvoke inv) →
  apply_method specification_methods task_at s inv = Ok (res, s1) →
  matching h i r → result_matches task_at res inv = Ok false → ¬ accepts s i s'.
Proof.
  intros Hi Happ Hr Hf (inv' & res' & Hi' & Happ' & Hm). simplify_eq.
  rewrite Happ in Happ'. simplify_eq. rewrite Hm in Hf; [done|by exists r].
Qed.

Lemma cache_contains_true key cache :
  cache_contains key cache = true →
  ∃ s, (key.1, s) ∈ cache ∧ SpecificationObjectEqual s key.2 = true.
Proof.
  unfold cache_contains. intros ([L s] & Hin & Hb)%existsb_exists.
  apply andb_true_iff in Hb as [_ Hb]. apply andb_true_iff in Hb as [HL%bool_decide_eq_true Hs].
  simpl in HL. subst L. exists s. split; [by apply list_elem_of_In|done].
Qed.

Definition dead (e : list bool * State) : Prop := ¬ completes e.1 e.2.

(** Configurations of the cache beyond the current depth are dead ends; the
    others may still be open sections of the stack. *)
Definition cache_ok (cache : list (list bool * State)) (depth : nat) : Prop :=
  ∀ e, e ∈ cache → depth < count_true e.1 → dead e.

(** The loop is at index [cur], with bitmap [L], state [s] and cache [C]. *)
Definition at_index cur s K SS L C : wgl := mk_wgl cur s K SS L (count_true L) C.

(** What the loop does from [at_index cur s K SS L C]: it returns [true], or
    it comes to an answered operation it cannot linearize, having shown that
    no operation at or after [cur] can be linearized next. *)
Definition explores cur s K SS L C : Prop :=
  (returns (at_index cur s K SS L C) true ∧ completes L s) ∨
  ∃ c' C', rtc next (at_index cur s K SS L C) (at_index c' s K SS L C') ∧
    is_response_at h c' ∧ L !! c' = Some false ∧
    ¬ extends_from cur L s ∧ (∀ e, e ∈ C' → e ∈ C ∨ dead e).

Lemma explores_next cur w' s K SS L C C1 :
  rtc next (at_index cur s K SS L C) w' → w' = at_index (S cur) s K SS L C1 →
  (∀ e, e ∈ C1 → e ∈ C ∨ dead e) →
  (∀ L' s', minimal h L cur → accepts s cur s' → marks h L cur L' → ¬ completes L' s') →
  explores (S cur) s K SS L C1 → explores cur s K SS L C.
Proof.
  intros Hn -> HC1 Hno [[Hr Hc]|(c' & C' & Hs & Hr & Hf & Hext & HC')].
  - left. split; [|done]. by eapply returns_next.
  - right. exists c', C'. split_and!; [by etrans|done|done| |].
    + by rewrite (extends_from_S _ _ _ cur L s Hno).
    + intros e [?%HC1|?]%HC'; auto.
Qed.

Section at_minimal.
(** The loop stands at a minimal invocation. *)
Context (cur : nat) (s : State) (K : list nat) (SS : list State) (L : list bool)
  (C : list (list bool * State)).
Context (HC : coherent h L) (Hcache : cache_ok C (count_true L)).
Context (inv : Invoke) (Hi : h !! cur = Some (EInvoke inv)) (Hmin : minimal h L cur).

Lemma step_at_invoke :
  wgl_step inv_res h (at_index cur s K SS L C) =
    (w' ← step_invoke inv_res (at_index cur s K SS L C) inv; Ok (inl w')).
Proof.
  destruct Hmin as (_ & Hf & _). destruct HC as [Hlen _].
  unfold wgl_step. simpl. rewrite bool_decide_false.
  - by rewrite (vec_get_Some _ _ _ Hf), (vec_get_Some _ _ _ Hi).
  - intros Heq. rewrite <-Hlen in Heq. apply count_true_full in Heq.
    rewrite Forall_lookup in Heq. by specialize (Heq _ _ Hf).
Qed.

(** A response left in [L'] is one left in [L], after [cur]. *)
Lemma left_after L' r :
  marks h L cur L' → is_response_at h r → L' !! r = Some false →
  cur < r ∧ L !! r = Some false.
Proof.
  intros HM Hr Hf. pose proof Hmin as (Hinv & Hcur & Hbefore).
  pose proof (marks_lookup _ _ _ CK L cur L' r HC Hinv HM) as Hl.
  assert (r < length L) as [b Hb]%lookup_lt_is_Some_2.
  { destruct HC as [-> _]. destruct Hr as [t ?%response_at_lt]. done. }
  destruct b; [rewrite (proj2 Hl) in Hf; [done|by left]|]. split; [|done].
  destruct (lt_eq_lt_dec cur r) as [[?| <-]|Hlt]; [done| |].
  - destruct Hinv as [u Hu], Hr as [v Hv]. destruct (invoke_response_excl _ _ _ _ Hu Hv).
  - rewrite (Hbefore r Hlt Hr) in Hb. done.
Qed.

(** The three outcomes of the branch for an invocation. *)
Lemma invoke_cases :
  (next (at_index cur s K SS L C) (at_index (S cur) s K SS L C) ∧
     (∃ r, cur < r ∧ L !! r = Some false) ∧
     (∀ L' s', accepts s cur s' → marks h L cur L' → ¬ completes L' s')) ∨
  (∃ L' s', accepts s cur s' ∧ marks h L cur L' ∧
     set_section L' cur (inv_res !! cur) false = Ok L ∧
     count_true L' = count_true L + section_size (inv_res !! cur) ∧
     next (at_index cur s K SS L C)
          (at_index 0 s' (cur :: K) (s :: SS) L' ((L', s') :: C))).
Proof.
  pose proof Hmin as (Hinv & Hf & _).
  destruct (apply_method_total _ _ _ CK s cur inv Hi) as (res & s' & Happ & Hres).
  destruct (set_section_marks L cur true HC Hinv)
    as (L' & Hset & Hlen' & HM & Hundo).
  specialize (HM eq_refl). destruct (Hundo Hf eq_refl) as [Hcount Hback].
  unfold next. rewrite step_at_invoke. unfold step_invoke. simpl. rewrite Happ. simpl.
  assert (∃ b, match inv_res !! cur with
               | None => Ok true | Some _ => result_matches task_at res inv end = Ok b ∧
               (b = true → accepts s cur s') ∧
               (b = false → ∃ r, matching h cur r ∧ result_matches task_at res inv = Ok false))
    as (b & Hb & Hacc & Hrej).
  { destruct (inv_res !! cur) as [r|] eqn:E.
    - apply Hmap in E. destruct (Hres r E) as [b Hb]. exists b. rewrite Hb.
      split_and!; [done|intros ->; by exists inv, res|intros ->; by exists r].
    - exists true. split_and!; [done| |done]. intros _. exists inv, res. split_and!; [done..|].
      intros (r & Hr%Hmap). congruence. }
  rewrite Hb. simpl. destruct b.
  2:{ left. destruct Hrej as (r & Hr & Hrej); [done|]. split_and!; [done| |].
      - exists r. destruct HC as [_ Hco]. rewrite <-(Hco _ _ Hr). split; [|done].
        by eapply matching_lt; [apply CK|].
      - intros L'' s'' Ha. exfalso. by eapply rejected_not_accepts. }
  specialize (Hacc eq_refl). rewrite Hset. simpl.
  destruct (cache_contains (L', s') C) eqn:Hhit; simpl.
  - apply cache_contains_true in Hhit as (sc & Hin & Heq). simpl in *.
    assert (¬ completes L' s') as Hdead.
    { intros Hc. apply (Hcache _ Hin); [simpl; destruct (inv_res !! cur); simpl in *; lia|].
      by eapply completes_bisim. }
    left. rewrite Hback. simpl. split_and!.
    + by rewrite Nat.add_sub.
    + destruct (dead_response _ _ _ CK L' s') as (r & Hr & Hrf); [by eapply marks_coherent|done|].
      exists r. by eapply left_after.
    + intros L'' s'' Ha HM'. rewrite (accepts_fun _ _ _ _ _ _ _ Ha Hacc).
      by rewrite (marks_fun _ _ _ CK _ _ _ _ HM' HM).
  - right. exists L', s'. split_and!; try done. unfold at_index. by rewrite Hcount.
Qed.
End at_minimal.

(** One iteration from [at_index], away from a minimal invocation. *)
Lemma step_not_full cur s K SS L C (b : bool) :
  coherent h L → L !! cur = Some b → ¬ Forall (λ b, b = true) L →
  wgl_step inv_res h (at_index cur s K SS L C) =
    if b then Ok (inl (at_index (S cur) s K SS L C))
    else
      event ← vec_get h cur;
      match event with
      | EInvoke inv => w' ← step_invoke inv_res (at_index cur s K SS L C) inv; Ok (inl w')
      | EResponse _ => step_response inv_res (at_index cur s K SS L C)
      end.
Proof.
  intros [Hlen _] Hb Hn. unfold wgl_step. simpl. rewrite bool_decide_false.
  - rewrite (vec_get_Some _ _ _ Hb). by destruct b.
  - rewrite <-Hlen. by intros ?%count_true_full.
Qed.

Lemma explores_full cur s K SS L C :
  coherent h L → Forall (λ b, b = true) L → explores cur s K SS L C.
Proof.
  intros [Hlen _] Hfull. left. split; [|by apply completes_done].
  eexists. split; [apply rtc_refl|]. unfold wgl_step. simpl.
  rewrite bool_decide_true; [done|]. rewrite <-Hlen. by apply count_true_full.
Qed.

(** Closing the innermost section. *)
Lemma next_pop c' s s' K SS L L' C cur :
  coherent h L' → L' !! c' = Some false → is_response_at h c' →
  set_section L' cur (inv_res !! cur) false = Ok L →
  count_true L' = count_true L + section_size (inv_res !! cur) →
  next (at_index c' s' (cur :: K) (s :: SS) L' C) (at_index (S cur) s K SS L C).
Proof.
  intros HC Hf Hr Hset Hcount. unfold next.
  rewrite (step_not_full _ _ _ _ _ _ false HC Hf).
  2:{ rewrite Forall_lookup. intros Hall. by specialize (Hall _ _ Hf). }
  destruct Hr as (t & res & Hres & _). rewrite (vec_get_Some _ _ _ Hres).
  unfold step_response. simpl. rewrite Hset. simpl. rewrite Hcount, Nat.add_sub. done.
Qed.

(** The loop condition of an exploration: everything before [cur] that is a
    response is linearized, and something is left from [cur] on. *)
Definition responses_done (L : list bool) (cur : nat) : Prop :=
  ∀ j, j < cur → is_response_at h j → L !! j = Some true.
Definition left_from (L : list bool) (cur : nat) : Prop :=
  Forall (λ b, b = true) L ∨ ∃ j, cur ≤ j ∧ L !! j = Some false.

Lemma responses_done_S L cur :
  responses_done L cur → L !! cur = Some true ∨ is_invoke_at h cur → responses_done L (S cur).
Proof.
  intros Hd Hcur k Hk Hkr. destruct (decide (k = cur)) as [->|]; [|apply Hd; [lia|done]].
  destruct Hcur as [?|[u Hu]]; [done|].
  destruct Hkr as [v Hv]. destruct (invoke_response_excl _ _ _ _ Hu Hv).
Qed.

Lemma left_from_0 L : left_from L 0.
Proof.
  destruct (decide (Forall (λ b, b = true) L)) as [?|(k & Hk)%not_full_false]; [by left|].
  right. exists k. split; [lia|done].
Qed.

Lemma explore_skip cur s K SS L C :
  coherent h L → L !! cur = Some true → ¬ Forall (λ b, b = true) L →
  explores (S cur) s K SS L C → explores cur s K SS L C.
Proof.
  intros HC Hb Hnf. eapply (explores_next cur _ _ _ _ _ _ C).
  - apply rtc_once. unfold next. by rewrite (step_not_full _ _ _ _ _ _ true HC Hb).
  - done.
  - by left.
  - intros L' s' (_ & Hf & _). congruence.
Qed.

Lemma explore_response cur s K SS L C :
  L !! cur = Some false → is_response_at h cur → explores cur s K SS L C.
Proof.
  intros Hb Hresp. right. exists cur, C. split_and!; [apply rtc_refl|done..| |by left].
  intros (k & L' & s' & Hk & (Hki & Hkf & Hmin) & _).
  destruct (decide (k = cur)) as [->|].
  - destruct Hki as [u Hu], Hresp as [v Hv]. by eapply invoke_response_excl.
  - specialize (Hmin cur ltac:(lia) Hresp). congruence.
Qed.

(** Opening a section at [cur], given that the deeper bitmaps and the rest of
    this one are explored. *)
Lemma explore_invoke cur s K SS L C :
  coherent h L → cache_ok C (count_true L) → minimal h L cur →
  (∀ L' s' C', coherent h L' → count_true L < count_true L' →
     cache_ok C' (count_true L') → explores 0 s' (cur :: K) (s :: SS) L' C') →
  (∀ C', cache_ok C' (count_true L) → left_from L (S cur) → explores (S cur) s K SS L C') →
  explores cur s K SS L C.
Proof.
  intros HC Hcache Hmin Hdeep Hrest. pose proof Hmin as (Hinv & Hb & _).
  pose proof Hinv as (t & inv & Hi & _).
  destruct (invoke_cases cur s K SS L C HC Hcache inv Hi Hmin)
    as [(Hn1 & (r & Hr & Hrf) & Hno)|(L' & s' & Hacc & HM & Hset & Hcount & Hpush)].
  { eapply (explores_next cur _ _ _ _ _ _ C); [by apply rtc_once|done|by left| |].
    - intros L' s' _. apply Hno.
    - apply Hrest; [done|]. right. by exists r. }
  assert (coherent h L') as HC' by by eapply marks_coherent.
  assert (count_true L < count_true L') as Hlt by (by apply (marks_count h L cur)).
  destruct (Hdeep L' s' ((L', s') :: C)) as [[Hret Hcomp]|(c' & C' & Hrun & Hcr & Hcf & Hext & HC1)];
    [done|done| | |].
  { intros e [->|Hin]%elem_of_cons He; [simpl in He; lia|]. apply Hcache; [done|lia]. }
  - left. split; [eapply returns_next; [by apply rtc_once|done]|]. by eapply completes_step.
  - assert (dead (L', s')) as Hdead.
    { intros Hc. apply Hext. apply extends_from_0; [|done].
      rewrite Forall_lookup. intros Hall. by specialize (Hall _ _ Hcf). }
    assert (∀ e, e ∈ C' → e ∈ C ∨ dead e) as HC2.
    { intros e [[->|?]%elem_of_cons|?]%HC1; auto. }
    eapply (explores_next cur _ _ _ _ _ _ C'); [|done|done| |].
    + eapply rtc_l; [done|]. eapply rtc_r; [done|]. by apply next_pop.
    + intros L'' s'' _ Ha HM'. rewrite (accepts_fun _ _ _ _ _ _ _ Ha Hacc).
      by rewrite (marks_fun _ _ _ CK _ _ _ _ HM' HM).
    + apply Hrest.
      * intros e [Hin|?]%HC2 He; [|done]. by apply Hcache.
      * right. exists c'. by eapply left_after.
Qed.

Lemma explore L s K SS C cur :
  coherent h L → cache_ok C (count_true L) → responses_done L cur → left_from L cur →
  explores cur s K SS L C.
Proof.
  remember (count_false L) as n eqn:Hn. revert L s K SS C cur Hn.
  induction n as [n IHn] using lt_wf_ind. intros L s K SS C cur -> HC.
  remember (length h - cur) as d eqn:Hd. revert C cur Hd.
  induction d as [d IHd] using lt_wf_ind. intros C cur -> Hcache Hpre Hleft.
  destruct (decide (Forall (λ b, b = true) L)) as [?|Hnf]; [by apply explores_full|].
  destruct Hleft as [?|(j & Hj & HLj)]; [done|].
  pose proof HC as [Hlen Hco]. pose proof (lookup_lt_Some _ _ _ HLj) as Hjl.
  assert (cur < length h) as Hcl by lia.
  destruct (lookup_lt_is_Some_2 L cur) as [[] Hb]; [lia| |].
  - apply explore_skip; [done..|]. apply (IHd (length h - S cur)); [lia|done..| |].
    + apply responses_done_S; [done|by left].
    + right. exists j. split; [|done]. destruct (decide (j = cur)) as [->|]; [congruence|lia].
  - destruct (event_cases h cur Hcl) as [Hinv|Hresp]; [|by apply explore_response].
    apply explore_invoke; [done..| |].
    + intros L' s' C' HC' Hlt HCo. apply (IHn (count_false L')); [|done..| |apply left_from_0].
      * pose proof (count_true_false L). pose proof (count_true_false L').
        destruct HC' as [? _]. lia.
      * intros k Hk. lia.
    + intros C' HC' Hl. apply (IHd (length h - S cur)); [lia|done..| |done].
      apply responses_done_S; [done|by right].
Qed.

Lemma wgl_init_returns :
  ∃ b, returns (wgl_init h) b ∧
    (b = true ↔ completes (replicate (length h) false) first_state).
Proof.
  set (L := replicate (length h) false).
  assert (count_true L = 0) as H0.
  { unfold L. clear. induction (length h); simpl; auto. }
  assert (wgl_init h = at_index 0 first_state [] [] L []) as ->.
  { unfold at_index. by rewrite H0. }
  destruct (explore L first_state [] [] [] 0)
    as [[Hr Hc]|(c' & C' & Hrun & Hr & Hf & Hext & _)].
  - apply initial_coherent.
  - intros e He. by apply elem_of_nil in He.
  - intros j Hj. lia.
  - apply left_from_0.
  - by exists true.
  - assert (¬ Forall (λ b, b = true) L) as Hnf.
    { rewrite Forall_lookup. intros Hall. by specialize (Hall _ _ Hf). }
    exists false. split.
    + exists (at_index c' first_state [] [] L C'). split; [done|].
      rewrite (step_not_full _ _ _ _ _ _ false (initial_coherent h) Hf Hnf).
      destruct Hr as (t & res & Hres & _). by rewrite (vec_get_Some _ _ _ Hres).
    + split; [done|]. intros Hc. destruct Hext. by apply extends_from_0.
Qed.
End correct.

Lemma Check_decides h :
  spec_equal_bisim → checkable specification_methods task_at h →
  ∃ b n, (∀ fuel, n ≤ fuel → Check fuel h = Ok b) ∧
    (b = true ↔ linearizable specification_methods task_at h first_state).
Proof.
  intros Hb CK. pose proof (completes_linearizable _ _ _ CK first_state) as Hiff.
  destruct (get_inv_res_mapping_wf h (ck_wf _ _ _ CK)) as (m & Hm & Hmap).
  destruct (wgl_init_returns Hb h CK m Hmap) as (b & Hr & Hbc).
  destruct (returns_loop _ _ _ _ Hr) as (n & Hn).
  exists b, n. split; [|by rewrite Hbc]. intros fuel Hf. unfold Check. rewrite Hm. by apply Hn.
Qed.

(** C2: On every checkable history, with enough fuel, the iterative checker
    returns without failing an assertion, throwing or indexing out of range, and
    answers [true] exactly when the history is linearizable, whatever the hash
    functions are, as long as the equality of the user identifies only states
    that no method can tell apart. *)
Theorem Check_correct h :
  spec_equal_bisim → checkable specification_methods task_at h →
  ∃ b n, (∀ fuel, n ≤ fuel → Check fuel h = Ok b) ∧
    (b = true ↔ linearizable specification_methods task_at h first_state).
Proof. apply Check_decides. Qed.
End wgl.
