(* ===== verification/Specs.v ===== *)
(** * Specs: the sequential specifications (verifying/specs)

    Each specification object with its operations, the [GetMethods] table the
    checkers call, its hash and its equality.  Every equality is shown to
    identify only states no method tells apart, which is what the cache of the
    iterative checker needs; each structure comes with the law that makes it a
    specification (first-in first-out, last-in first-out, bounded, ...). *)

From stdpp Require Import base list gmap strings pretty option.
From S2P Require Import Prelude ValueWrapper History Linearizability Lincheck.

Abbreviation SpecMethod State := (Method (State:=State) (Args:=tuple)).

(** [int res = 0; for (int elem : c) res += elem; return res;] as [size_t]. *)
Definition sum_hash (elems : list Z) : Z :=
  wrapu64 (foldl (λ res elem, wrap32 (res + elem)) 0%Z elems).

(** An equality that only relates equal states is always sound. *)
Lemma leibniz_bisim {State} (methods : gmap string (SpecMethod State)) (eqb : State → State → bool) :
  (∀ s t, eqb s t = true → s = t) → (∀ s t, s = t → eqb s t = true) →
  spec_equal_bisim methods eqb.
Proof.
  intros H1 H2 s t name m args ->%H1 _. unfold same_outcome.
  destruct (m t args) as [[v s']|]; [|done]. split; [by apply H2|done].
Qed.

(** An equality that never holds is sound too: the cache never hits. *)
Lemma never_bisim {State} (methods : gmap string (SpecMethod State)) :
  spec_equal_bisim methods (λ _ _, false).
Proof. by intros s t name m args. Qed.

(** ** queue.h *)
Module Queue.
Record Queue := mk_Queue { deq : list Z }.

Definition init : Queue := mk_Queue [].

Definition Push (v : Z) (q : Queue) : Queue := mk_Queue (deq q ++ [v]).

Definition Pop (q : Queue) : Z * Queue :=
  match deq q with
  | [] => (0%Z, q)
  | res :: rest => (res, mk_Queue rest)
  end.

(** [ValueIndex] is the position of the value in the arguments of [Push]. *)
Definition push_func (ValueIndex : nat) : SpecMethod Queue := λ l args,
  v ← get_arg Z ValueIndex args;
  Ok (void_v, Push v l).

Definition pop_func : SpecMethod Queue := λ l args,
  let '(res, l) := Pop l in Ok (ValueWrapper_of res, l).

Definition GetMethods (ValueIndex : nat) : gmap string (SpecMethod Queue) :=
  <["Push" := push_func ValueIndex]> (<["Pop" := pop_func]> ∅).

Definition QueueHash (r : Queue) : Z := sum_hash (deq r).
Definition QueueEquals (lhs rhs : Queue) : bool := bool_decide (deq lhs = deq rhs).

Lemma QueueEquals_bisim i : spec_equal_bisim (GetMethods i) QueueEquals.
Proof.
  apply leibniz_bisim.
  - intros [] []. unfold QueueEquals. rewrite bool_decide_eq_true. simpl. congruence.
  - intros s t ->. by apply bool_decide_eq_true.
Qed.

(** Calls of one client: the values it pushed and the ones it popped. *)
Inductive call := push (v : Z) | pop.

Fixpoint run (calls : list call) (q : Queue) : list Z * Queue :=
  match calls with
  | [] => ([], q)
  | push v :: rest => run rest (Push v q)
  | pop :: rest =>
      let '(res, q') := Pop q in
      let '(out, q'') := run rest q' in
      (match deq q with [] => out | _ => res :: out end, q'')
  end.

Definition pushed (calls : list call) : list Z :=
  omap (λ c, match c with push v => Some v | pop => None end) calls.

(** the queue specification is first in, first out: for every sequence of
    calls, what the successful pops returned, followed by what is still queued,
    is what was queued followed by what was pushed. *)
Theorem run_fifo calls q :
  let '(out, q') := run calls q in out ++ deq q' = deq q ++ pushed calls.
Proof.
  revert q. induction calls as [|[v|] calls IH]; intros q; simpl; [by rewrite app_nil_r| |].
  - specialize (IH (Push v q)). destruct (run calls (Push v q)) as [out q'].
    rewrite IH. simpl. by rewrite <-app_assoc.
  - unfold Pop. destruct (deq q) as [|res rest] eqn:E; simpl.
    + specialize (IH q). destruct (run calls q) as [out q']. by rewrite IH, E.
    + specialize (IH (mk_Queue rest)). destruct (run calls (mk_Queue rest)) as [out q'].
      simpl in *. by rewrite IH.
Qed.
End Queue.

(** ** stack.h *)
Module Stack.
(** The head of [deq] is [deq.back()]. *)
Record Stack := mk_Stack { deq : list Z }.

Definition init : Stack := mk_Stack [].

Definition Push (v : Z) (s : Stack) : Stack := mk_Stack (v :: deq s).

Definition Pop (s : Stack) : Z * Stack :=
  match deq s with
  | [] => (0%Z, s)
  | res :: rest => (res, mk_Stack rest)
  end.

Definition push_func (ValueIndex : nat) : SpecMethod Stack := λ l args,
  v ← get_arg Z ValueIndex args;
  Ok (void_v, Push v l).

Definition pop_func : SpecMethod Stack := λ l args,
  let '(res, l) := Pop l in Ok (ValueWrapper_of res, l).

Definition GetMethods (ValueIndex : nat) : gmap string (SpecMethod Stack) :=
  <["Push" := push_func ValueIndex]> (<["Pop" := pop_func]> ∅).

Definition StackHash (r : Stack) : Z := sum_hash (reverse (deq r)).
Definition StackEquals (lhs rhs : Stack) : bool := bool_decide (deq lhs = deq rhs).

Lemma StackEquals_bisim i : spec_equal_bisim (GetMethods i) StackEquals.
Proof.
  apply leibniz_bisim.
  - intros [] []. unfold StackEquals. rewrite bool_decide_eq_true. simpl. congruence.
  - intros s t ->. by apply bool_decide_eq_true.
Qed.

Fixpoint push_all (vs : list Z) (s : Stack) : Stack :=
  match vs with [] => s | v :: vs => push_all vs (Push v s) end.
Fixpoint pop_n (n : nat) (s : Stack) : list Z * Stack :=
  match n with
  | 0 => ([], s)
  | S n => let '(res, s') := Pop s in let '(out, s'') := pop_n n s' in (res :: out, s'')
  end.

(** the stack specification is last in, first out: popping as many values
    as were pushed returns them in reverse order and restores the stack. *)
Theorem push_all_pop_n vs s : pop_n (length vs) (push_all vs s) = (reverse vs, s).
Proof.
  assert (∀ ws s, deq (push_all ws s) = reverse ws ++ deq s) as Hdeq.
  { induction ws as [|w ws IH]; intros t; simpl; [done|].
    by rewrite IH, reverse_cons, <-app_assoc. }
  assert (∀ ws s t, deq t = ws ++ deq s → pop_n (length ws) t = (ws, s)) as Hpop.
  { induction ws as [|w ws IH]; intros [s1] [t1]; simpl; [by intros ->|].
    intros ->. unfold Pop. simpl. by rewrite (IH (mk_Stack s1)). }
  rewrite <-length_reverse. apply Hpop, Hdeq.
Qed.
End Stack.

(** ** set.h *)
Module SetSpec.
Record Set_ := mk_Set { st : gset Z }.

Definition init : Set_ := mk_Set ∅.

Definition Insert (v : Z) (s : Set_) : Z * Set_ :=
  (if bool_decide (v ∈ st s) then 0%Z else 1%Z, mk_Set ({[v]} ∪ st s)).

Definition Erase (v : Z) (s : Set_) : Z * Set_ :=
  (if bool_decide (v ∈ st s) then 1%Z else 0%Z, mk_Set (st s ∖ {[v]})).

Definition insert_func (ValueIndex : nat) : SpecMethod Set_ := λ l args,
  v ← get_arg Z ValueIndex args;
  let '(res, l) := Insert v l in Ok (ValueWrapper_of res, l).

Definition erase_func (ValueIndex : nat) : SpecMethod Set_ := λ l args,
  v ← get_arg Z ValueIndex args;
  let '(res, l) := Erase v l in Ok (ValueWrapper_of res, l).

Definition GetMethods (ValueIndex : nat) : gmap string (SpecMethod Set_) :=
  <["Insert" := insert_func ValueIndex]> (<["Erase" := erase_func ValueIndex]> ∅).

Definition SetHash (r : Set_) : Z := sum_hash (elements (st r)).
Definition SetEquals (lhs rhs : Set_) : bool := bool_decide (st lhs = st rhs).

Lemma SetEquals_bisim i : spec_equal_bisim (GetMethods i) SetEquals.
Proof.
  apply leibniz_bisim.
  - intros [] []. unfold SetEquals. rewrite bool_decide_eq_true. simpl. congruence.
  - intros s t ->. by apply bool_decide_eq_true.
Qed.

(** The results say whether the operation changed the set. *)
Lemma Insert_result v s :
  (Insert v s).1 = 1%Z ↔ st (Insert v s).2 ≠ st s.
Proof.
  simpl. case_bool_decide as Hv; (split; [try done|]); try set_solver.
Qed.
Lemma Erase_result v s :
  (Erase v s).1 = 1%Z ↔ st (Erase v s).2 ≠ st s.
Proof.
  simpl. case_bool_decide as Hv; (split; [try done|]); try set_solver.
Qed.
End SetSpec.

(** ** register.h *)
Module Register.
Record LinearRegister := mk_Register { x : Z }.

Definition init : LinearRegister := mk_Register 0.

Definition add (r : LinearRegister) : LinearRegister := mk_Register (wrap32 (x r + 1)).
Definition get (r : LinearRegister) : Z := x r.

Definition add_func : SpecMethod LinearRegister := λ l _, Ok (void_v, add l).
Definition get_func : SpecMethod LinearRegister := λ l _, Ok (ValueWrapper_of (get l), l).

Definition GetMethods : gmap string (SpecMethod LinearRegister) :=
  <["add" := add_func]> (<["get" := get_func]> ∅).

Definition LinearRegisterHash (r : LinearRegister) : Z := wrapu64 (x r).
Definition LinearRegisterEquals (lhs rhs : LinearRegister) : bool := (x lhs =? x rhs)%Z.

Lemma LinearRegisterEquals_bisim : spec_equal_bisim GetMethods LinearRegisterEquals.
Proof.
  apply leibniz_bisim.
  - intros [] []. unfold LinearRegisterEquals. rewrite Z.eqb_eq. simpl. congruence.
  - intros s t ->. apply Z.eqb_refl.
Qed.

Lemma get_after_adds n :
  (Z.of_nat n < 2 ^ 31)%Z → get (Nat.iter n add init) = Z.of_nat n.
Proof.
  induction n as [|n IH]; [done|]. intros Hn. simpl. unfold get, add in *. simpl.
  rewrite IH by lia. rewrite wrap32_id; [lia|]. unfold in_int32. lia.
Qed.
End Register.

(** ** mutex.h *)
Module Mutex.
Record LinearMutex := mk_Mutex { isLocked : Z }.

Definition init : LinearMutex := mk_Mutex 0.

Definition Lock (l : LinearMutex) : Z * LinearMutex :=
  if negb (isLocked l =? 0)%Z then (1%Z, l) else (0%Z, mk_Mutex 1).

Definition Unlock (l : LinearMutex) : Z * LinearMutex := (0%Z, mk_Mutex 0).

Definition lock_func : SpecMethod LinearMutex := λ l _,
  let '(res, l) := Lock l in Ok (ValueWrapper_of res, l).
Definition unlock_func : SpecMethod LinearMutex := λ l _,
  let '(res, l) := Unlock l in Ok (ValueWrapper_of res, l).

Definition GetMethods : gmap string (SpecMethod LinearMutex) :=
  <["Lock" := lock_func]> (<["Unlock" := unlock_func]> ∅).

Definition LinearMutexHash (r : LinearMutex) : Z := 0.
Definition LinearMutexEquals (lhs rhs : LinearMutex) : bool := false.

Lemma LinearMutexEquals_bisim : spec_equal_bisim GetMethods LinearMutexEquals.
Proof. apply never_bisim. Qed.

Inductive call := lock | unlock.

Fixpoint run (calls : list call) (l : LinearMutex) : list Z * LinearMutex :=
  match calls with
  | [] => ([], l)
  | c :: rest =>
      let '(res, l) := match c with lock => Lock l | unlock => Unlock l end in
      let '(out, l) := run rest l in (res :: out, l)
  end.

(** Positions of the successful [Lock]s. *)
Definition acquires (calls : list call) (out : list Z) (p : nat) : Prop :=
  calls !! p = Some lock ∧ out !! p = Some 0%Z.

Lemma run_locked_no_acquire calls l out l' p :
  isLocked l ≠ 0%Z → run calls l = (out, l') → acquires calls out p →
  ∃ u, u < p ∧ calls !! u = Some unlock.
Proof.
  revert l out p. induction calls as [|c calls IH]; intros l out p Hl Hrun [Hc Ho]; [done|].
  simpl in Hrun. destruct c.
  - unfold Lock in Hrun. rewrite (proj2 (Z.eqb_neq _ _) Hl) in Hrun. simpl in Hrun.
    destruct (run calls l) as [out1 l1] eqn:E. injection Hrun as <- <-.
    destruct p as [|p]; [done|]. destruct (IH l out1 p Hl E) as (u & Hu & Huc); [done|].
    exists (S u). split; [lia|done].
  - destruct p as [|p]; [done|]. exists 0. split; [lia|done].
Qed.

(** the mutex specification excludes: in every run, between two successful
    [Lock]s there is an [Unlock]. *)
Theorem mutual_exclusion calls l out l' p q :
  run calls l = (out, l') → p < q → acquires calls out p → acquires calls out q →
  ∃ u, p < u < q ∧ calls !! u = Some unlock.
Proof.
  revert l out p q. induction calls as [|c calls IH]; intros l out p q Hrun Hpq [Hc Ho] Hq; [done|].
  simpl in Hrun. destruct (match c with lock => Lock l | unlock => Unlock l end) as [res l1] eqn:Ec.
  destruct (run calls l1) as [out1 l2] eqn:E. injection Hrun as <- <-.
  destruct q as [|q]; [lia|]. destruct p as [|p].
  - simpl in Hc, Ho. simplify_eq. unfold Lock in Ec. destruct (isLocked l =? 0)%Z; simpl in Ec; [|done].
    injection Ec as <-. destruct (run_locked_no_acquire calls (mk_Mutex 1) out1 l2 q) as (u & ? & ?); [done..|].
    exists (S u). split; [lia|done].
  - destruct (IH l1 out1 p q E) as (u & ? & ?); [lia|done..|]. exists (S u). split; [lia|done].
Qed.
End Mutex.

Module SharedMutex.
Definition READER : Z := 1.
Definition WRITER : Z := -1.
Definition FREE : Z := 0.

Record SharedLinearMutex := mk_SharedMutex { locked_state : Z }.

Definition init : SharedLinearMutex := mk_SharedMutex FREE.

Definition lock (l : SharedLinearMutex) : Z * SharedLinearMutex :=
  if negb (locked_state l =? FREE)%Z then (1%Z, l) else (0%Z, mk_SharedMutex WRITER).

Definition unlock (l : SharedLinearMutex) : Z * SharedLinearMutex := (0%Z, mk_SharedMutex FREE).

Definition lock_shared (l : SharedLinearMutex) : Z * SharedLinearMutex :=
  if (locked_state l =? WRITER)%Z then (1%Z, l)
  else (0%Z, mk_SharedMutex (wrap32 (locked_state l + READER))).

Definition unlock_shared (l : SharedLinearMutex) : Z * SharedLinearMutex :=
  (0%Z, mk_SharedMutex (wrap32 (locked_state l - READER))).

Definition int_method (f : SharedLinearMutex → Z * SharedLinearMutex)
  : SpecMethod SharedLinearMutex := λ l _, let '(res, l) := f l in Ok (ValueWrapper_of res, l).

Definition GetMethods : gmap string (SpecMethod SharedLinearMutex) :=
  <["lock" := int_method lock]> (<["unlock" := int_method unlock]>
  (<["lock_shared" := int_method lock_shared]>
  (<["unlock_shared" := int_method unlock_shared]> ∅))).

Definition SharedLinearMutexHash (r : SharedLinearMutex) : Z := 0.
Definition SharedLinearMutexEquals (lhs rhs : SharedLinearMutex) : bool := false.

Lemma SharedLinearMutexEquals_bisim : spec_equal_bisim GetMethods SharedLinearMutexEquals.
Proof. apply never_bisim. Qed.

(** [n] readers or one writer hold the lock. *)
Inductive holders : SharedLinearMutex → nat → bool → Prop :=
| held_shared n : (Z.of_nat n < 2 ^ 31)%Z → holders (mk_SharedMutex (Z.of_nat n)) n false
| held_exclusive : holders (mk_SharedMutex WRITER) 0 true.

(** the shared mutex specification: when [n] readers or one writer hold
    the lock, [lock] succeeds exactly when nobody does and [lock_shared]
    exactly when no writer does; a successful call adds its caller to the
    holders, a failed one changes nothing, and the release of a holder removes
    it.  So a writer never shares the lock, and readers are counted, as long
    as there are fewer than [2 ^ 31]. *)
Theorem holders_spec l n w :
  holders l n w → (Z.of_nat n + 1 < 2 ^ 31)%Z →
  (if bool_decide (n = 0 ∧ w = false) then (lock l).1 = 0%Z ∧ holders (lock l).2 0 true
   else lock l = (1%Z, l)) ∧
  (if w then lock_shared l = (1%Z, l)
   else (lock_shared l).1 = 0%Z ∧ holders (lock_shared l).2 (S n) false) ∧
  (w = true → holders (unlock l).2 0 false) ∧
  (∀ m, n = S m → holders (unlock_shared l).2 m false).
Proof.
  unfold lock, lock_shared, unlock, unlock_shared, FREE, READER, WRITER.
  destruct 1 as [n Hn|]; intros Hlt; cbn [locked_state].
  - destruct (Z.eqb_spec (Z.of_nat n) (-1)); [lia|]. split; [|split; [|split]].
    + destruct (Z.eqb_spec (Z.of_nat n) 0).
      * rewrite bool_decide_true by (split; [lia|done]). split; [done|constructor].
      * rewrite bool_decide_false by lia. done.
    + cbn [fst snd]. split; [done|]. rewrite wrap32_id by (unfold in_int32; lia).
      replace (Z.of_nat n + 1)%Z with (Z.of_nat (S n)) by lia. constructor. lia.
    + done.
    + intros m ->. cbn [snd locked_state]. rewrite wrap32_id by (unfold in_int32; lia).
      replace (Z.of_nat (S m) - 1)%Z with (Z.of_nat m) by lia. constructor. lia.
  - split; [|split; [|split]]; try done. intros _. apply (held_shared 0). lia.
Qed.
End SharedMutex.

(** ** bounded_queue.h *)
Module BoundedQueue.
Definition size : nat := 2.

Record Queue := mk_Queue { deq : list Z }.

Definition init : Queue := mk_Queue [].

Definition Push (v : Z) (q : Queue) : Z * Queue :=
  if bool_decide (size ≤ length (deq q)) then (0%Z, q)
  else (1%Z, mk_Queue (deq q ++ [v])).

Definition Pop (q : Queue) : Z * Queue :=
  match deq q with
  | [] => (0%Z, q)
  | res :: rest => (res, mk_Queue rest)
  end.

Definition push_func : SpecMethod Queue := λ l args,
  v ← get_arg Z 0 args;
  let '(res, l) := Push v l in Ok (ValueWrapper_of res, l).

Definition pop_func : SpecMethod Queue := λ l args,
  let '(res, l) := Pop l in Ok (ValueWrapper_of res, l).

Definition GetMethods : gmap string (SpecMethod Queue) :=
  <["Push" := push_func]> (<["Pop" := pop_func]> ∅).

Definition QueueHash (r : Queue) : Z := sum_hash (deq r).
Definition QueueEquals (lhs rhs : Queue) : bool := bool_decide (deq lhs = deq rhs).

Lemma bounded_QueueEquals_bisim : spec_equal_bisim GetMethods QueueEquals.
Proof.
  apply leibniz_bisim.
  - intros [] []. unfold QueueEquals. rewrite bool_decide_eq_true. simpl. congruence.
  - intros s t ->. by apply bool_decide_eq_true.
Qed.

(** The capacity is never exceeded, and [Push] fails exactly when it is reached. *)
Lemma Push_bounded v q :
  length (deq q) ≤ size →
  length (deq (Push v q).2) ≤ size ∧ ((Push v q).1 = 0%Z ↔ length (deq q) = size).
Proof.
  unfold Push. case_bool_decide; simpl; [split; [lia|]; split; [lia|done]|].
  rewrite length_app. simpl. split; [lia|]. split; [done|lia].
Qed.
End BoundedQueue.

(** ** unique_args.h *)
Module UniqueArgs.
Definition limit : Z := 3.

Record UniqueArgsRef := mk_UniqueArgs { called : Z }.

Definition init : UniqueArgsRef := mk_UniqueArgs 0.

Definition Print : ToStringFunc := λ v,
  val ← GetValue (option Z) v;
  match val with
  | None => Ok "{}"
  | Some z => Ok (pretty z)
  end.

(** [std::exchange(called, 0)] yields the old value, converted to
    [std::optional<int>] by the conditional operator. *)
Definition Get (i : size_t) (l : UniqueArgsRef) : ValueWrapper * UniqueArgsRef :=
  let called' := wrapu64 (called l + 1) in
  let '(res, called'') :=
    if (called' =? limit)%Z then (Some (wrap32 called'), 0%Z) else (None, called') in
  (ValueWrapper_with (any_of (res : option Z)) (GetDefaultCompator (option Z)) Print,
   mk_UniqueArgs called'').

Definition get_func : SpecMethod UniqueArgsRef := λ l args,
  i ← get_arg size_t 0 args;
  Ok (Get i l).

Definition GetMethods : gmap string (SpecMethod UniqueArgsRef) := <["Get" := get_func]> ∅.

Definition UniqueArgsHash (r : UniqueArgsRef) : Z := called r.
Definition UniqueArgsEquals (lhs rhs : UniqueArgsRef) : bool := (called lhs =? called rhs)%Z.

Lemma UniqueArgsEquals_bisim : spec_equal_bisim GetMethods UniqueArgsEquals.
Proof.
  apply leibniz_bisim.
  - intros [] []. unfold UniqueArgsEquals. rewrite Z.eqb_eq. simpl. congruence.
  - intros s t ->. apply Z.eqb_refl.
Qed.

Definition gets (n : nat) (l : UniqueArgsRef) : UniqueArgsRef :=
  Nat.iter n (λ l, (Get (mk_size 0) l).2) l.

(** [called] counts modulo [limit]. *)
Lemma gets_called n : called (gets n init) = (Z.of_nat n mod limit)%Z.
Proof.
  induction n as [|n IH]; [done|]. rewrite Nat2Z.inj_succ.
  change (gets (S n) init) with (Get (mk_size 0) (gets n init)).2.
  unfold Get. rewrite IH. unfold limit.
  pose proof (Z.mod_pos_bound (Z.of_nat n) 3) as Hb. rewrite wrapu64_id by lia.
  assert (Z.succ (Z.of_nat n) mod 3 = (Z.of_nat n mod 3 + 1) mod 3)%Z as ->.
  { unfold Z.succ. rewrite Z.add_mod by lia. done. }
  destruct (Z.eqb_spec (Z.of_nat n mod 3 + 1) 3) as [->|]; cbn [snd called]; [done|].
  symmetry. apply Z.mod_small. lia.
Qed.

(** in the specification of unique_args every [limit]-th call of [Get], and
    no other, answers with [limit]; the others answer with an empty optional. *)
Theorem Get_every_limit n i :
  GetValue (option Z) (value (Get i (gets n init)).1) =
    Ok (if ((Z.of_nat n + 1) mod limit =? 0)%Z then Some limit else None).
Proof.
  unfold Get. rewrite gets_called. unfold limit. pose proof (Z.mod_pos_bound (Z.of_nat n) 3) as Hb.
  rewrite wrapu64_id by lia. rewrite <-(Z.add_mod_idemp_l (Z.of_nat n) 1 3) by lia.
  assert (Z.of_nat n mod 3 = 0 ∨ Z.of_nat n mod 3 = 1 ∨ Z.of_nat n mod 3 = 2)%Z as [->|[->| ->]] by lia; done.
Qed.
End UniqueArgs.

(** the cache of the iterative checker is sound for every specification of
    the repository: its equality identifies only states no method tells apart. *)
Theorem specs_equal_sound ValueIndex :
  spec_equal_bisim (Queue.GetMethods ValueIndex) Queue.QueueEquals ∧
  spec_equal_bisim (Stack.GetMethods ValueIndex) Stack.StackEquals ∧
  spec_equal_bisim (SetSpec.GetMethods ValueIndex) SetSpec.SetEquals ∧
  spec_equal_bisim Register.GetMethods Register.LinearRegisterEquals ∧
  spec_equal_bisim Mutex.GetMethods Mutex.LinearMutexEquals ∧
  spec_equal_bisim SharedMutex.GetMethods SharedMutex.SharedLinearMutexEquals ∧
  spec_equal_bisim BoundedQueue.GetMethods BoundedQueue.QueueEquals ∧
  spec_equal_bisim UniqueArgs.GetMethods UniqueArgs.UniqueArgsEquals.
Proof.
  split_and!; [apply Queue.QueueEquals_bisim|apply Stack.StackEquals_bisim|apply SetSpec.SetEquals_bisim
    |apply Register.LinearRegisterEquals_bisim|apply Mutex.LinearMutexEquals_bisim
    |apply SharedMutex.SharedLinearMutexEquals_bisim|apply BoundedQueue.bounded_QueueEquals_bisim
    |apply UniqueArgs.UniqueArgsEquals_bisim].
Qed.
