(* ===== verification/Coro.v ===== *)
(** * Coro: coroutines, tokens and futexes (lib.h, lib.cpp, generators.cpp)

    A task is a stackful coroutine.  The fiber itself is Boost's: what runs
    between two [CoroYield]s is the parameter [run_slice], which resumes a
    suspended frame of the method under test on the shared memory and says
    whether it yielded (where, with what effects) or returned.  Everything the
    runtime does around it is modelled: the state of [CoroBase], [Resume],
    [Terminate], [Restart], parking on tokens, blocking on futexes. *)

From stdpp Require Import base list gmap strings option.
From S2P Require Import Prelude ValueWrapper.

(** [CoroutineStatus] (lib.h:29-32). *)
Record CoroutineStatus := mk_CoroutineStatus { cs_name : string; has_started : bool }.

(** [CoroBase::FutexState]: a null [addr] means that the task is not waiting. *)
Record FutexState := mk_FutexState { addr : option Z; fvalue : Z }.

Definition no_futex : FutexState := mk_FutexState None 0.

(** The code under test and what the runtime relies on from it. *)
Class Target := {
  TargetObj : Type;
  (** A suspended method: the program point and the locals on its stack. *)
  Frame : Type;
  (** [TargetObj state{}] and [state.Reset()]. *)
  target_init : TargetObj;
  target_Reset : TargetObj → TargetObj;
  (** The [int] at an address a futex call was given. *)
  read_word : TargetObj → Z → Z;
  (** Entering the method [name] with its arguments. *)
  start : string → tuple → Frame;
}.

(** The parked flags of the live tokens. *)
Abbreviation Tokens := (gmap nat bool).

(** The end of a slice: a yield, with the futex the task asked to wait for
    ([SetBlocked]) and the status change announced, or a return. *)
Inductive slice `{Target} :=
| Yielded (frame : Frame) (obj : TargetObj) (tokens : Tokens)
    (blocked : option (Z * Z)) (status : option CoroutineStatus)
| Returned (ret : ValueWrapper) (obj : TargetObj) (tokens : Tokens).

(** A [CoroYield], with nothing to tell the runtime. *)
Definition yields `{Target} (f : Frame) (o : TargetObj) (ts : Tokens) : outcome slice := Ok (Yielded f o ts None None).

(** Running a frame until its next yield; an assertion of the method under test
    may fail on the way. *)
Class Code `{Target} := run_slice : Frame → TargetObj → Tokens → outcome slice.

(** The memory outside of the tasks: the object under test ([state]), the
    tokens, and the globals [coroutine_status] and [generated_token]. *)
Record World `{Target} := mk_World {
  state : TargetObj;
  tokens : Tokens;
  coroutine_status : option CoroutineStatus;
  generated_token : option nat;
}.

(** [CoroBase] and [Coro] (lib.h:55-208).  [ctx] is empty once the fiber has
    returned. *)
Record CoroBase `{Target} := mk_CoroBase {
  id : Z;
  name : string;
  args : tuple;
  ret : ValueWrapper;
  is_returned : bool;
  fstate : FutexState;
  token : option nat;
  ctx : option Frame;
}.

Arguments Yielded {_} _ _ _ _ _.
Arguments Returned {_} _ _ _.
Arguments World : clear implicits.
Arguments World {_}.
Arguments mk_World {_} _ _ _ _.
Arguments CoroBase : clear implicits.
Arguments CoroBase {_}.
Arguments mk_CoroBase {_} _ _ _ _ _ _ _ _.
Arguments slice {_}.

(** The object and the tokens at the end of a slice. *)
Definition slice_obj `{Target} (sl : slice) : TargetObj :=
  match sl with Yielded _ o _ _ _ => o | Returned _ o _ => o end.
Definition slice_tokens `{Target} (sl : slice) : Tokens :=
  match sl with Yielded _ _ ts _ _ => ts | Returned _ _ ts => ts end.

Section coro.
Context `{HT : Target} `{HC : !Code}.

Definition world_init : World := mk_World target_init ∅ None None.

Definition IsReturned (c : CoroBase) : bool := is_returned c.
Definition GetId (c : CoroBase) : Z := id c.
Definition GetName (c : CoroBase) : string := name c.

(** [CoroBase::GetRetVal] (lib.cpp:39-42). *)
Definition coro_GetRetVal (c : CoroBase) : outcome ValueWrapper :=
  _ ← assert "IsReturned()" (IsReturned c); Ok (ret c).

(** [Token::Park], [Unpark] and [Reset] (lib.cpp:81-88); [Park] also yields. *)
Definition Park (t : nat) (ts : Tokens) : Tokens := <[t := true]> ts.
Definition Unpark (t : nat) (ts : Tokens) : Tokens := <[t := false]> ts.
Definition Token_Reset (t : nat) (ts : Tokens) : Tokens := <[t := false]> ts.

(** [CoroBase::IsParked] (lib.cpp:44). *)
Definition IsParked (c : CoroBase) (w : World) : bool :=
  match token c with
  | None => false
  | Some t => default false (tokens w !! t)
  end.

(** [SetToken]. *)
Definition SetToken (t : nat) (c : CoroBase) : CoroBase :=
  mk_CoroBase (id c) (name c) (args c) (ret c) (is_returned c) (fstate c) (Some t) (ctx c).

Definition set_fstate (c : CoroBase) (f : FutexState) : CoroBase :=
  mk_CoroBase (id c) (name c) (args c) (ret c) (is_returned c) f (token c) (ctx c).

(** [SetBlocked] and [IsBlocked] (lib.h:100-111).  [IsBlocked] forgets the
    futex when the word it waits on has changed. *)
Definition SetBlocked (uaddr value : Z) (c : CoroBase) : CoroBase :=
  set_fstate c (mk_FutexState (Some uaddr) value).

Definition blocked_on (f : FutexState) (w : World) : bool :=
  match addr f with
  | None => false
  | Some a => (read_word (state w) a =? fvalue f)%Z
  end.

Definition IsBlocked (c : CoroBase) (w : World) : bool * CoroBase :=
  if blocked_on (fstate c) w then (true, c) else (false, set_fstate c no_futex).

(** [Coro::New] (lib.h:167-189). *)
Definition New (name : string) (args : tuple) (task_id : Z) : CoroBase :=
  mk_CoroBase task_id name args ValueWrapper_default false no_futex None (Some (start name args)).

(** [Coro::Restart] (lib.h:151-164): the new coroutine takes the token over. *)
Definition Restart (c : CoroBase) : outcome CoroBase :=
  _ ← assert "IsReturned()" (IsReturned c);
  let coro := New (name c) (args c) (id c) in
  Ok (match token c with None => coro | Some t => SetToken t coro end).

(** [CoroBase::Resume] (lib.cpp:26-35) and the body of the fiber, which
    stores the result and sets [is_returned] (lib.h:179-187). *)
Definition Resume (c : CoroBase) (w : World) : outcome (CoroBase * World) :=
  _ ← assert "!IsReturned()" (negb (IsReturned c));
  frame ← or_fail (AssertFailed "this_coro->ctx") (ctx c);
  next ← run_slice frame (state w) (tokens w);
  match next with
  | Yielded frame' obj toks blocked status =>
      let c' := mk_CoroBase (id c) (name c) (args c) (ret c) false (fstate c) (token c) (Some frame') in
      let c' := match blocked with None => c' | Some (a, v) => SetBlocked a v c' end in
      let status' := match status with None => coroutine_status w | Some s => Some s end in
      Ok (c', mk_World obj toks status' (generated_token w))
  | Returned v obj toks =>
      Ok (mk_CoroBase (id c) (name c) (args c) v true (fstate c) (token c) None,
          mk_World obj toks (coroutine_status w) (generated_token w))
  end.

(** [CoroBase::Terminate] (lib.cpp:71-79). *)
Definition max_tries : Z := 10000000.

Fixpoint Terminate_loop (fuel : nat) (tries : Z) (c : CoroBase) (w : World)
  : outcome (CoroBase * World) :=
  if IsReturned c then Ok (c, w)
  else
    match fuel with
    | 0 => Fail OutOfFuel
    | S fuel =>
        let tries := (tries + 1)%Z in
        '(c, w) ← Resume c w;
        _ ← assert "coroutine is spinning too long, possible wrong terminating order"
              (tries <? max_tries)%Z;
        Terminate_loop fuel tries c w
    end.

Definition Terminate (fuel : nat) : CoroBase → World → outcome (CoroBase * World) :=
  Terminate_loop fuel 0.

(** A [CoroutineStatusChange] (lib.cpp:65-69): a yield that announces it. *)
Definition CoroutineStatusChange (name : string) (start : bool) (f : Frame) (o : TargetObj) (ts : Tokens)
  : outcome slice := Ok (Yielded f o ts None (Some (mk_CoroutineStatus name start))).

(** [generators::makeSingleArg] (generators.h:14-18). *)
Definition makeSingleArg (arg : any_value) : tuple := [arg].

(** [generators::genEmpty] and [genToken] (generators.cpp:10-18). *)
Definition genEmpty (thread_num : nat) (w : World) : outcome (tuple * World) := Ok ([], w).

Definition genToken (thread_num : nat) (w : World) : outcome (tuple * World) :=
  _ ← assert "forgot to reset generated_token"
        (match generated_token w with None => true | Some _ => false end);
  let t := fresh (dom (tokens w)) in
  Ok ([any_token t],
      mk_World (state w) (<[t := false]> (tokens w)) (coroutine_status w) (Some t)).

(** [TaskBuilder] (lib.h:214-228) as [TargetMethod] builds it
    (verifying_macro.h:60-72): generate the arguments, create the coroutine,
    hand it the token a generator may have left. *)
Record TaskBuilder := mk_TaskBuilder {
  tb_name : string;
  tb_gen : nat → World → outcome (tuple * World);
}.

(** [TargetMethod] (verifying_macro.h:55-76, 79-104): a static object for each
    [target_method], whose constructor appends a builder. *)
Definition TargetMethod (method_name : string) (gen : nat → World → outcome (tuple * World))
    (task_builders : list TaskBuilder) : list TaskBuilder :=
  task_builders ++ [mk_TaskBuilder method_name gen].

Definition Build (b : TaskBuilder) (thread_id : nat) (task_id : Z) (w : World)
  : outcome (CoroBase * World) :=
  '(args, w) ← tb_gen b thread_id w;
  let coro := New (tb_name b) args task_id in
  match generated_token w with
  | None => Ok (coro, w)
  | Some t => Ok (SetToken t coro, mk_World (state w) (tokens w) (coroutine_status w) None)
  end.

(** ** Resuming *)

(** What identifies a task to the rest of the runtime. *)
Definition same_task (c c' : CoroBase) : Prop :=
  id c' = id c ∧ name c' = name c ∧ args c' = args c ∧ token c' = token c.

Lemma same_task_refl c : same_task c c.
Proof. done. Qed.
Lemma same_task_trans c1 c2 c3 : same_task c1 c2 → same_task c2 c3 → same_task c1 c3.
Proof. unfold same_task. intros (? & ? & ? & ?) (? & ? & ? & ?). split_and!; congruence. Qed.

Lemma Resume_Ok c w c' w' :
  Resume c w = Ok (c', w') → IsReturned c = false ∧ same_task c c'.
Proof.
  unfold Resume. intros H. inv_Ok H. apply negb_true_iff in E. split; [done|].
  destruct a1 as [f o ts [[a1 v]|] st|v o ts]; simplify_eq/=; done.
Qed.

Lemma Resume_generated c w c' w' : Resume c w = Ok (c', w') → generated_token w' = generated_token w.
Proof.
  unfold Resume. intros H. inv_Ok H. destruct a1 as [f o ts [[a1 v]|] st|v o ts]; by simplify_eq/=.
Qed.

(** Building a task uses the generated token up. *)
Lemma Build_generated b th i w c w' : Build b th i w = Ok (c, w') → generated_token w' = None.
Proof.
  unfold Build. intros H. apply bind_Ok in H as ([a w1] & _ & H). destruct (generated_token w1) eqn:E; by simplify_eq.
Qed.

Lemma IsBlocked_task c w : same_task c (IsBlocked c w).2.
Proof. unfold IsBlocked. by destruct (blocked_on (fstate c) w). Qed.
Lemma IsBlocked_returned c w : IsReturned (IsBlocked c w).2 = IsReturned c.
Proof. unfold IsBlocked. by destruct (blocked_on (fstate c) w). Qed.

(** [n] resumes in a row, none of them of a returned task. *)
Inductive resumes : nat → CoroBase → World → CoroBase → World → Prop :=
| resumes_O c w : resumes 0 c w c w
| resumes_S n c w c1 w1 c2 w2 :
    Resume c w = Ok (c1, w1) → resumes n c1 w1 c2 w2 → resumes (S n) c w c2 w2.

Lemma resumes_task n c w c' w' : resumes n c w c' w' → same_task c c'.
Proof.
  induction 1 as [|n c w c1 w1 c2 w2 H _ IH]; [done|].
  apply Resume_Ok in H as [_ H]. by eapply same_task_trans.
Qed.

Lemma resumes_returned n c w c' w' :
  resumes n c w c' w' → IsReturned c = true → n = 0 ∧ c' = c ∧ w' = w.
Proof. destruct 1 as [|n c w c1 w1 c2 w2 H _]; [done|]. intros ?. apply Resume_Ok in H as [? _]. congruence. Qed.

(** The loop of [Terminate], from its [tries]-th iteration on. *)
Lemma Terminate_loop_Ok fuel tries c w c' w' :
  (Z.to_nat (max_tries - tries) ≤ fuel)%nat →
  Terminate_loop fuel tries c w = Ok (c', w') ↔
  ∃ n : nat, (n = 0%nat ∨ (tries + Z.of_nat n < max_tries)%Z) ∧ resumes n c w c' w' ∧ IsReturned c' = true.
Proof.
  revert tries c w. induction fuel as [|fuel IH]; intros tries c w Hf; cbn [Terminate_loop].
  - destruct (IsReturned c) eqn:Hc.
    + split; [intros [= <- <-]; exists 0; split_and!; [by left|constructor|done]|].
      intros (n & _ & Hr & _). by apply resumes_returned in Hr as (_ & -> & ->).
    + split; [done|]. intros (n & [->|Hn] & Hr & Hret).
      * inversion Hr; subst. congruence.
      * assert (n = 0) as -> by lia. inversion Hr; subst. congruence.
  - destruct (IsReturned c) eqn:Hc.
    + split; [intros [= <- <-]; exists 0; split_and!; [by left|constructor|done]|].
      intros (n & _ & Hr & _). by apply resumes_returned in Hr as (_ & -> & ->).
    + cbv zeta. split.
      * intros H. apply bind_Ok in H as ([c1 w1] & Hres & H).
        apply bind_Ok in H as (u & Hlt & H). apply assert_Ok, Z.ltb_lt in Hlt.
        apply IH in H as (n & Hn & Hr & Hret); [|lia].
        exists (S n). split_and!; [right; destruct Hn; lia|by econstructor|done].
      * intros (n & Hn & Hr & Hret). inversion Hr as [|m ? ? c1 w1 ? ? Hres Hr']; subst; [congruence|].
        destruct Hn as [?|Hn]; [lia|]. rewrite Hres. cbn [mbind outcome_bind].
        rewrite (proj2 (Z.ltb_lt _ _)) by lia. cbn [mbind outcome_bind assert].
        apply IH; [lia|]. exists m. split_and!; [|done..]. right. lia.
Qed.

(** C36: [Terminate] returns exactly when some number of resumes below
    [max_tries] completes the coroutine, and then with the state those resumes
    lead to: the fuel [max_tries] is enough, and what counts as "spinning too
    long" is precisely ten million resumes. *)
Theorem Terminate_spec fuel c w c' w' :
  (Z.to_nat max_tries ≤ fuel)%nat →
  Terminate fuel c w = Ok (c', w') ↔
  ∃ n, (Z.of_nat n < max_tries)%Z ∧ resumes n c w c' w' ∧ IsReturned c' = true.
Proof.
  intros Hf. unfold Terminate. rewrite Terminate_loop_Ok by (rewrite Z.sub_0_r; done).
  split; intros (n & Hn & H); exists n; (split; [|done]); [|right; lia].
  destruct Hn as [->|?]; [done|lia].
Qed.

(** ** Restarting *)

Lemma Restart_Ok c c' :
  Restart c = Ok c' ↔
  IsReturned c = true ∧
  c' = mk_CoroBase (id c) (name c) (args c) ValueWrapper_default false no_futex (token c)
         (Some (start (name c) (args c))).
Proof.
  unfold Restart. destruct (IsReturned c); simpl; [|split; [done|by intros [? _]]].
  destruct (token c) as [t|]; simpl; split; [intros [= <-]|intros [_ ->]|intros [= <-]|intros [_ ->]]; done.
Qed.

(** A restarted task is a new coroutine of the same method, arguments and
    id, but it keeps the token with its flag: a task that returned while its
    token was parked (nothing calls [Token::Reset]) starts parked. *)
Theorem Restart_keeps_parked c w :
  IsReturned c = true →
  ∃ c', Restart c = Ok c' ∧ IsReturned c' = false ∧ same_task c c' ∧
    ctx c' = Some (start (name c) (args c)) ∧ IsParked c' w = IsParked c w.
Proof.
  intros Hc. eexists. split; [by apply Restart_Ok|]. done.
Qed.

(** ** Wait-free methods

    The runtime terminates a round "in a dangerous way" and assumes that this
    works.  It does when every method finishes in a bounded number of its own
    steps, whatever the others do, and never blocks. *)

(** [budget] bounds the yields a frame still makes. *)
Definition wait_free (budget : Frame → nat) : Prop :=
  ∀ f o ts,
    match run_slice f o ts with
    | Ok (Yielded f' _ _ blocked _) => blocked = None ∧ budget f' < budget f
    | Ok (Returned _ _ _) => True
    | Fail _ => False
    end.

(** The task does not wait on a futex, and has a fiber while it is unfinished. *)
Definition live (c : CoroBase) : Prop :=
  fstate c = no_futex ∧ (IsReturned c = false → is_Some (ctx c)).

Definition task_budget (budget : Frame → nat) (c : CoroBase) : nat :=
  if IsReturned c then 0
  else match ctx c with Some f => S (budget f) | None => 0 end.

Lemma Resume_wait_free budget c w :
  wait_free budget → live c → IsReturned c = false →
  ∃ c' w', Resume c w = Ok (c', w') ∧ live c' ∧ task_budget budget c' < task_budget budget c.
Proof.
  intros Hwf [Hfs Hctx] Hr. destruct (Hctx Hr) as [f Hf]. specialize (Hwf f (state w) (tokens w)).
  unfold Resume, task_budget. rewrite Hr, Hf. cbn [negb assert or_fail mbind outcome_bind].
  destruct (run_slice f (state w) (tokens w)) as [[f' o ts b st|v o ts]|]; [| |done].
  - destruct Hwf as [-> Hlt]. do 2 eexists. split; [done|]. split; [|simpl; lia].
    split; [done|]. intros _. by eexists.
  - do 2 eexists. split; [done|]. split; [|simpl; lia]. split; [done|]. intros [=].
Qed.

Lemma IsBlocked_live c w : live c → IsBlocked c w = (false, c).
Proof. intros [Hfs _]. unfold IsBlocked, set_fstate. rewrite Hfs. simpl. rewrite <-Hfs. by destruct c. Qed.
End coro.
