(* ===== verification/Strategy.v ===== *)
(** * Strategy: the tasks of a round (scheduler.h:21-262)

    The data every strategy shares ([Strategy], [BaseStrategyWithThreads]) and
    the operations on it that do not depend on how the next thread is picked:
    looking tasks up, marking them as removed, terminating and restarting a
    round.  The [StableVector]s of tasks are lists here; StableVector.v shows
    that the real container behaves as a list.

    [StrategyVerifier] is the interface of the user's verifier, [Strategy] the
    interface a scheduler sees, with the contract ([StrategyLaws]) that the
    concrete strategies discharge. *)

From stdpp Require Import base gmap strings option list.
From S2P Require Import Prelude ValueWrapper History Coro.

(** [CreatedTaskMetaData] (scheduler.h:23-27). *)
Record CreatedTaskMetaData := mk_Created {
  ct_name : string;
  ct_is_new : bool;
  ct_thread_id : nat;
}.

(** [TaskWithMetaData] (scheduler.h:29-33): [Task&] is the task's slot. *)
Record TaskWithMetaData := mk_TaskWithMetaData {
  task : TaskRef;
  is_new : bool;
  thread_id : nat;
}.

(** The concept [StrategyVerifier] (scheduler.h:39-49).  A verifier reads
    nothing but the name of the task [OnFinished] gets. *)
Class StrategyVerifier := {
  Verifier : Type;
  Verifier_init : Verifier;
  Verify : CreatedTaskMetaData → Verifier → outcome (bool * Verifier);
  OnFinished : string → bool → nat → Verifier → outcome Verifier;
  Verifier_Reset : Verifier → Verifier;
  (** The name of the method or coroutine, the thread, and whether it starts. *)
  UpdateState : string → nat → bool → Verifier → outcome Verifier;
}.

(** The state of [Strategy] and [BaseStrategyWithThreads]. *)
Record BaseStrategy `{Target} `{StrategyVerifier} := mk_Base {
  new_task_id : Z;
  removed_tasks : gset Z;
  round_schedule : list Z;
  sched_checker : Verifier;
  world : World;
  threads : list (list CoroBase);
  constructors : list TaskBuilder;
}.
Arguments BaseStrategy : clear implicits.
Arguments BaseStrategy {_ _}.
Arguments mk_Base {_ _} _ _ _ _ _ _ _.

Section base.
Context `{HT : Target} `{HC : !Code} `{HV : StrategyVerifier}.

Local Abbreviation M := (stM BaseStrategy).

Definition with_removed (r : gset Z) (s : BaseStrategy) : BaseStrategy :=
  mk_Base (new_task_id s) r (round_schedule s) (sched_checker s) (world s) (threads s) (constructors s).
Definition with_schedule (r : list Z) (s : BaseStrategy) : BaseStrategy :=
  mk_Base (new_task_id s) (removed_tasks s) r (sched_checker s) (world s) (threads s) (constructors s).
Definition with_checker (v : Verifier) (s : BaseStrategy) : BaseStrategy :=
  mk_Base (new_task_id s) (removed_tasks s) (round_schedule s) v (world s) (threads s) (constructors s).
Definition with_world (w : World) (s : BaseStrategy) : BaseStrategy :=
  mk_Base (new_task_id s) (removed_tasks s) (round_schedule s) (sched_checker s) w (threads s) (constructors s).
Definition with_threads (t : list (list CoroBase)) (s : BaseStrategy) : BaseStrategy :=
  mk_Base (new_task_id s) (removed_tasks s) (round_schedule s) (sched_checker s) (world s) t (constructors s).
Definition with_constructors (c : list TaskBuilder) (s : BaseStrategy) : BaseStrategy :=
  mk_Base (new_task_id s) (removed_tasks s) (round_schedule s) (sched_checker s) (world s) (threads s) c.
Definition with_new_task_id (i : Z) (s : BaseStrategy) : BaseStrategy :=
  mk_Base i (removed_tasks s) (round_schedule s) (sched_checker s) (world s) (threads s) (constructors s).

(** What the constructors of the strategies set up (pick_strategy.h:14-30,
    pct_strategy.h:52-73): empty threads and a schedule of [-1]s. *)
Definition base_init (threads_count : nat) (constructors : list TaskBuilder) : BaseStrategy :=
  mk_Base 0 ∅ (replicate threads_count (-1)%Z) Verifier_init world_init
    (replicate threads_count []) constructors.

(** ** Slots *)

Definition slot (s : BaseStrategy) (r : TaskRef) : option CoroBase :=
  thread ← threads s !! r.1; thread !! r.2.

(** [threads[thread][index]]. *)
Definition get_task (r : TaskRef) : M CoroBase :=
  λ s, c ← or_fail (OutOfRange "threads[thread][index]") (slot s r); Ok (c, s).

(** [threads[thread][index] = task]. *)
Definition set_slot (r : TaskRef) (c : CoroBase) (s : BaseStrategy) : BaseStrategy :=
  with_threads (alter (λ thread, <[r.2 := c]> thread) r.1 (threads s)) s.

Definition task_IsReturned (r : TaskRef) : M bool :=
  c ← get_task r; mret (IsReturned c).

Definition task_IsParked (r : TaskRef) : M bool :=
  c ← get_task r; s ← st_get; mret (IsParked c (world s)).

(** [IsBlocked] may clear the futex of the task. *)
Definition task_IsBlocked (r : TaskRef) : M bool :=
  c ← get_task r;
  s ← st_get;
  let '(b, c') := IsBlocked c (world s) in
  _ ← st_put (set_slot r c' s);
  mret b.

Definition task_Resume (r : TaskRef) : M unit :=
  c ← get_task r;
  s ← st_get;
  '(c', w') ← st_lift (Resume c (world s));
  st_put (with_world w' (set_slot r c' s)).

Definition task_Terminate (fuel : nat) (r : TaskRef) : M unit :=
  c ← get_task r;
  s ← st_get;
  '(c', w') ← st_lift (Terminate fuel c (world s));
  st_put (with_world w' (set_slot r c' s)).

(** The slot of the last task of a thread; [back()] of an empty thread is
    undefined. *)
Definition back_ref (thread : nat) : M TaskRef :=
  s ← st_get;
  tasks ← st_lift (vec_get (threads s) thread);
  match length tasks with
  | 0 => st_fail (Undefined "back()")
  | S n => mret (thread, n)
  end.

Definition thread_empty (thread : nat) : M bool :=
  s ← st_get;
  tasks ← st_lift (vec_get (threads s) thread);
  mret (match tasks with [] => true | _ :: _ => false end).

(** ** Lookups *)

(** [IsTaskRemoved], [SetTaskRemoved] (scheduler.h:71-82). *)
Definition IsTaskRemoved (s : BaseStrategy) (task_id : Z) : bool :=
  bool_decide (task_id ∈ removed_tasks s).

Definition SetTaskRemoved (task_id : Z) (is_removed : bool) (s : BaseStrategy) : BaseStrategy :=
  with_removed (if is_removed then {[task_id]} ∪ removed_tasks s
                else removed_tasks s ∖ {[task_id]}) s.

(** [GetTask] (scheduler.h:123-140). *)
Fixpoint find_in_thread (tasks : list CoroBase) (i : nat) (task_id : Z) : option nat :=
  match tasks with
  | [] => None
  | c :: tasks => if (GetId c =? task_id)%Z then Some i else find_in_thread tasks (S i) task_id
  end.

Fixpoint find_task (ths : list (list CoroBase)) (thread_id : nat) (task_id : Z)
  : option (TaskRef * nat) :=
  match ths with
  | [] => None
  | thread :: ths =>
      match find_in_thread thread 0 task_id with
      | Some i => Some ((thread_id, i), thread_id)
      | None => find_task ths (S thread_id) task_id
      end
  end.

Definition GetTask (s : BaseStrategy) (task_id : Z) : option (TaskRef * nat) :=
  find_task (threads s) 0 task_id.

(** [GetValidTasksCount], [GetTotalTasksCount], [GetThreadsCount]
    (scheduler.h:159-180). *)
Definition GetValidTasksCount (s : BaseStrategy) : nat :=
  sum_list ((λ thread : list CoroBase,
    sum_list ((λ c, if IsTaskRemoved s (GetId c) then 0 else 1) <$> thread)) <$> threads s).

Definition GetTotalTasksCount (s : BaseStrategy) : nat :=
  sum_list (length <$> threads s).

Definition GetThreadsCount (s : BaseStrategy) : nat := length (threads s).

(** [GetNextTaskInThread] (scheduler.h:239-250): [i] is the index of the head
    of [tasks]. *)
Fixpoint skip_finished (s : BaseStrategy) (tasks : list CoroBase) (i : Z) : Z :=
  match tasks with
  | [] => i
  | c :: tasks =>
      if IsReturned c || IsTaskRemoved s (GetId c) then skip_finished s tasks (i + 1) else i
  end.

Definition GetNextTaskInThread (thread_index : nat) (s : BaseStrategy) : outcome Z :=
  thread ← vec_get (threads s) thread_index;
  task_index ← vec_get (round_schedule s) thread_index;
  if (task_index =? -1)%Z then Ok (skip_finished s thread 0)
  else if (task_index <? -1)%Z then Fail (OutOfRange "thread[task_index]")
  else Ok (skip_finished s (drop (Z.to_nat task_index) thread) task_index).

(** [OnVerifierTaskFinish] (scheduler.h:182-184). *)
Definition OnVerifierTaskFinish (t : TaskWithMetaData) : M unit :=
  c ← get_task (task t);
  s ← st_get;
  v ← st_lift (OnFinished (GetName c) (is_new t) (thread_id t) (sched_checker s));
  st_put (with_checker v s).

(** ** [TerminateTasks] (scheduler.h:192-237) *)

(** The index of the first task that has not returned. *)
Fixpoint skip_returned (tasks : list CoroBase) (i : nat) : nat :=
  match tasks with
  | [] => i
  | c :: tasks => if IsReturned c then skip_returned tasks (S i) else i
  end.

(** One iteration of the [for] loop over the threads; the accumulator is
    [task_indexes] and [has_nonterminated_threads]. *)
Definition terminate_thread (acc : list nat * bool) (thread_index : nat) : M (list nat * bool) :=
  let '(task_indexes, has_nonterminated_threads) := acc in
  s ← st_get;
  thread ← st_lift (vec_get (threads s) thread_index);
  first ← st_lift (vec_get task_indexes thread_index);
  let task_index := skip_returned (drop first thread) first in
  task_indexes ← st_lift (vec_set task_indexes thread_index task_index);
  if task_index <? length thread then
    blocked ← task_IsBlocked (thread_index, task_index);
    if (blocked : bool) then
      _ ← st_assert "Trying to terminate blocked task, which is not last in the thread."
            (task_index =? length thread - 1);
      task_indexes ← st_lift (vec_set task_indexes thread_index (S task_index));
      mret (task_indexes, has_nonterminated_threads)
    else
      _ ← task_Resume (thread_index, task_index);
      mret (task_indexes, true)
  else mret (task_indexes, has_nonterminated_threads).

Fixpoint terminate_pass (acc : list nat * bool) (thread_indexes : list nat) : M (list nat * bool) :=
  match thread_indexes with
  | [] => mret acc
  | i :: rest => acc ← terminate_thread acc i; terminate_pass acc rest
  end.

Fixpoint terminate_loop (fuel : nat) (task_indexes : list nat) : M unit :=
  match fuel with
  | 0 => st_fail OutOfFuel
  | S fuel =>
      s ← st_get;
      '(task_indexes, has_nonterminated_threads) ←
        terminate_pass (task_indexes, false) (seq 0 (length (threads s)));
      if (has_nonterminated_threads : bool) then terminate_loop fuel task_indexes else mret tt
  end.

(** [sched_checker.Reset(); state.Reset();]. *)
Definition reset_round (s : BaseStrategy) : BaseStrategy :=
  let w := world s in
  with_world (mk_World (target_Reset (state w)) (tokens w) (coroutine_status w) (generated_token w))
    (with_checker (Verifier_Reset (sched_checker s)) s).

Definition TerminateTasks (fuel : nat) : M unit :=
  s ← st_get;
  _ ← st_assert "sizes expected to be the same"
        (length (round_schedule s) =? length (threads s));
  _ ← st_modify (λ s, with_schedule (replicate (length (round_schedule s)) (-1)%Z) s);
  _ ← terminate_loop fuel (replicate (length (threads s)) 0);
  st_modify reset_round.

(** [while (thread.size() > 0) thread.pop_back();] for every thread. *)
Definition clear_threads (s : BaseStrategy) : BaseStrategy :=
  with_threads ((λ _, []) <$> threads s) s.

(** ** [ResetCurrentRound] (scheduler.h:146-157) *)

Definition restart_task (s : BaseStrategy) (c : CoroBase) : outcome CoroBase :=
  if IsTaskRemoved s (GetId c) then Ok c else Restart c.

Fixpoint restart_all (s : BaseStrategy) (tasks : list CoroBase) : outcome (list CoroBase) :=
  match tasks with
  | [] => Ok []
  | c :: tasks => c' ← restart_task s c; tasks' ← restart_all s tasks; Ok (c' :: tasks')
  end.

Fixpoint restart_threads (s : BaseStrategy) (ths : list (list CoroBase))
  : outcome (list (list CoroBase)) :=
  match ths with
  | [] => Ok []
  | t :: ths => t' ← restart_all s t; ths' ← restart_threads s ths; Ok (t' :: ths')
  end.

Definition base_ResetCurrentRound (fuel : nat) : M unit :=
  _ ← TerminateTasks fuel;
  s ← st_get;
  ths ← st_lift (restart_threads s (threads s));
  st_put (with_threads ths s).

(** What a checker reads through a [Task&]. *)
Definition task_at (s : BaseStrategy) (r : TaskRef) : option (TaskInfo tuple) :=
  c ← slot s r;
  Some (mk_TaskInfo (name c) (args c) (if IsReturned c then Some (ret c) else None)).

(** ** Slots and their tasks *)

Lemma slot_Some s th i c :
  slot s (th, i) = Some c ↔ ∃ thread, threads s !! th = Some thread ∧ thread !! i = Some c.
Proof. unfold slot. simpl. destruct (threads s !! th); simpl; naive_solver. Qed.

Lemma slot_set_slot s r c c0 :
  slot s r = Some c0 → slot (set_slot r c s) r = Some c.
Proof.
  destruct r as [th i]. rewrite !slot_Some. intros (thread & Ht & Hi). exists (<[i:=c]> thread).
  split; [unfold set_slot; simpl; by rewrite list_lookup_alter_eq, Ht|].
  apply list_lookup_insert_eq. by eapply lookup_lt_Some.
Qed.

Lemma slot_set_slot_ne s r r' c : r ≠ r' → slot (set_slot r c s) r' = slot s r'.
Proof.
  destruct r as [th i], r' as [th' i']. intros Hne. unfold slot, set_slot; simpl.
  destruct (decide (th = th')) as [<-|]; [|by rewrite list_lookup_alter_ne].
  rewrite list_lookup_alter_eq. destruct (threads s !! th) as [thread|]; simpl; [|done].
  rewrite list_lookup_insert_ne; [done|]. congruence.
Qed.

Lemma set_slot_id s r c : slot s r = Some c → set_slot r c s = s.
Proof.
  destruct s, r as [th i]. intros (thread & Ht & Hi)%slot_Some. simpl in *.
  unfold set_slot, with_threads; simpl. f_equal. eapply list_alter_id_at; [done|].
  by apply list_insert_id.
Qed.

(** What can happen to a task while its round runs: it never changes what it
    is, and once it has returned its result stays. *)
Definition later (c c' : CoroBase) : Prop :=
  same_task c c' ∧ (IsReturned c = true → IsReturned c' = true ∧ ret c' = ret c).

Lemma later_refl c : later c c.
Proof. split; [apply same_task_refl|done]. Qed.
Lemma later_trans c1 c2 c3 : later c1 c2 → later c2 c3 → later c1 c3.
Proof.
  intros [H1 E1] [H2 E2]. split; [by eapply same_task_trans|].
  intros [Hr Hv]%E1. apply E2 in Hr as [? ->]. done.
Qed.

Lemma Resume_later c w c' w' : Resume c w = Ok (c', w') → later c c'.
Proof. intros [Hr Hs]%Resume_Ok. split; [done|]. congruence. Qed.

(** A round that goes on: its tasks, in their places, and nothing else. *)
Record evolves (s s' : BaseStrategy) : Prop := {
  ev_threads : Forall2 (Forall2 later) (threads s) (threads s');
  ev_new_task_id : new_task_id s' = new_task_id s;
  ev_removed : removed_tasks s' = removed_tasks s;
  ev_schedule : round_schedule s' = round_schedule s;
  ev_checker : sched_checker s' = sched_checker s;
  ev_constructors : constructors s' = constructors s;
  ev_generated : generated_token (world s') = generated_token (world s);
}.

Lemma later_threads_refl (ths : list (list CoroBase)) : Forall2 (Forall2 later) ths ths.
Proof.
  apply Forall_Forall2_diag, Forall_true. intros t.
  apply Forall_Forall2_diag, Forall_true. apply later_refl.
Qed.

Lemma Forall2_later_trans (l1 l2 l3 : list CoroBase) :
  Forall2 later l1 l2 → Forall2 later l2 l3 → Forall2 later l1 l3.
Proof.
  intros H1. revert l3. induction H1 as [|x y l k Hxy _ IH]; intros l3 H2; inversion H2; subst; constructor.
  - by eapply later_trans.
  - by apply IH.
Qed.

Lemma later_threads_trans (t1 t2 t3 : list (list CoroBase)) :
  Forall2 (Forall2 later) t1 t2 → Forall2 (Forall2 later) t2 t3 → Forall2 (Forall2 later) t1 t3.
Proof.
  intros H1. revert t3. induction H1 as [|x y l k Hxy _ IH]; intros t3 H2; inversion H2; subst; constructor.
  - by eapply Forall2_later_trans.
  - by apply IH.
Qed.

#[global] Instance evolves_preorder : PreOrder evolves.
Proof.
  split.
  - intros s. by split; [apply later_threads_refl|..].
  - intros s1 s2 s3 H1 H2. destruct H1, H2.
    split; [by eapply later_threads_trans|congruence..].
Qed.

Lemma evolves_world s w : generated_token w = generated_token (world s) → evolves s (with_world w s).
Proof. by split; [apply later_threads_refl|..]. Qed.

Lemma evolves_set_slot s r c c' :
  slot s r = Some c → later c c' → evolves s (set_slot r c' s).
Proof.
  destruct r as [th i]. intros (thread & Ht & Hi)%slot_Some Hl. split; try done.
  unfold set_slot; simpl. apply Forall2_alter_r; [apply later_threads_refl|].
  intros x y Hx Hy _. assert (x = thread) as -> by congruence. assert (y = thread) as -> by congruence.
  rewrite <-(list_insert_id thread i c Hi) at 1.
  apply Forall2_insert; [|done]. apply Forall_Forall2_diag, Forall_true, later_refl.
Qed.

Lemma evolves_resume s r c c' w :
  slot s r = Some c → Resume c (world s) = Ok (c', w) → evolves s (with_world w (set_slot r c' s)).
Proof.
  intros Hc HR. etransitivity; [eapply evolves_set_slot; [done|by eapply Resume_later]|].
  by eapply evolves_world, Resume_generated.
Qed.

Lemma evolves_slot s s' r c :
  evolves s s' → slot s r = Some c → ∃ c', slot s' r = Some c' ∧ later c c'.
Proof.
  destruct r as [th i]. intros [H _ _ _ _ _] (thread & Ht & Hi)%slot_Some.
  destruct (Forall2_lookup_l _ _ _ _ _ H Ht) as (thread' & Ht' & Hth).
  destruct (Forall2_lookup_l _ _ _ _ _ Hth Hi) as (c' & Hi' & Hl).
  exists c'. split; [|done]. apply slot_Some. eauto.
Qed.

Lemma evolves_slot_inv s s' r c' :
  evolves s s' → slot s' r = Some c' → ∃ c, slot s r = Some c ∧ later c c'.
Proof.
  destruct r as [th i]. intros [H _ _ _ _ _] (thread & Ht & Hi)%slot_Some.
  destruct (Forall2_lookup_r _ _ _ _ _ H Ht) as (thread' & Ht' & Hth).
  destruct (Forall2_lookup_r _ _ _ _ _ Hth Hi) as (c & Hi' & Hl).
  exists c. split; [|done]. apply slot_Some. eauto.
Qed.

Lemma evolves_lengths s s' : evolves s s' → length <$> threads s' = length <$> threads s.
Proof.
  intros [H _ _ _ _ _]. induction H as [|t t' ths ths' Ht _ IH]; [done|].
  simpl. f_equal; [symmetry; by eapply Forall2_length|done].
Qed.

Lemma evolves_threads_length s s' : evolves s s' → length (threads s') = length (threads s).
Proof. intros H. symmetry. by eapply Forall2_length, ev_threads. Qed.

Lemma evolves_thread s s' th thread :
  evolves s s' → threads s !! th = Some thread →
  ∃ thread', threads s' !! th = Some thread' ∧ length thread' = length thread ∧ Forall2 later thread thread'.
Proof.
  intros [H _ _ _ _ _] Ht. destruct (Forall2_lookup_l _ _ _ _ _ H Ht) as (thread' & ? & Hl).
  exists thread'. split_and!; [done|symmetry; by eapply Forall2_length|done].
Qed.

Lemma get_task_Ok r s c s' : get_task r s = Ok (c, s') ↔ slot s r = Some c ∧ s' = s.
Proof. unfold get_task, or_fail. destruct (slot s r); simpl; naive_solver. Qed.

Lemma task_IsReturned_Ok r s b s' :
  task_IsReturned r s = Ok (b, s') ↔ ∃ c, slot s r = Some c ∧ b = IsReturned c ∧ s' = s.
Proof.
  unfold task_IsReturned. rewrite st_bind_Ok. setoid_rewrite get_task_Ok. split.
  - intros (c & s1 & [Hc ->] & [= <- <-]). eauto.
  - intros (c & Hc & -> & ->). by exists c, s.
Qed.

Lemma task_IsBlocked_Ok r s b s' :
  task_IsBlocked r s = Ok (b, s') ↔
  ∃ c, slot s r = Some c ∧ b = blocked_on (fstate c) (world s) ∧
    s' = set_slot r (IsBlocked c (world s)).2 s.
Proof.
  unfold task_IsBlocked. rewrite st_bind_Ok. setoid_rewrite get_task_Ok. split.
  - intros (c & s1 & [Hc ->] & H). exists c. split; [done|]. revert H.
    unfold mbind, stM_bind, st_get, st_put, IsBlocked; simpl.
    destruct (blocked_on (fstate c) (world s)); intros [= <- <-]; done.
  - intros (c & Hc & -> & ->). exists c, s. split; [done|].
    unfold mbind, stM_bind, st_get, st_put, IsBlocked; simpl.
    by destruct (blocked_on (fstate c) (world s)).
Qed.

Lemma task_Resume_Ok r s u s' :
  task_Resume r s = Ok (u, s') ↔
  ∃ c c' w', slot s r = Some c ∧ Resume c (world s) = Ok (c', w') ∧
    s' = with_world w' (set_slot r c' s).
Proof.
  unfold task_Resume. rewrite st_bind_Ok. setoid_rewrite get_task_Ok. split.
  - intros (c & s1 & [Hc ->] & H). revert H. unfold mbind, stM_bind, st_get, st_put, st_lift; simpl.
    destruct (Resume c (world s)) as [[c' w']|] eqn:E; simpl; [|done].
    intros [= <- <-]. eauto 10.
  - intros (c & c' & w' & Hc & HR & ->). exists c, s. split; [done|]. destruct u.
    unfold mbind, stM_bind, st_get, st_put, st_lift; simpl. by rewrite HR.
Qed.

(** ** Looking at a round

    Asking whether a task is blocked may forget its futex; nothing else. *)
Definition same_but_futex (c c' : CoroBase) : Prop := c' = set_fstate c (fstate c').

Record looked (s s' : BaseStrategy) : Prop := {
  lk_threads : Forall2 (Forall2 same_but_futex) (threads s) (threads s');
  lk_world : world s' = world s;
  lk_new_task_id : new_task_id s' = new_task_id s;
  lk_removed : removed_tasks s' = removed_tasks s;
  lk_schedule : round_schedule s' = round_schedule s;
  lk_checker : sched_checker s' = sched_checker s;
  lk_constructors : constructors s' = constructors s;
}.

Lemma same_but_futex_refl c : same_but_futex c c.
Proof. by destruct c. Qed.
Lemma same_but_futex_trans c1 c2 c3 : same_but_futex c1 c2 → same_but_futex c2 c3 → same_but_futex c1 c3.
Proof. unfold same_but_futex, set_fstate. intros -> ->. done. Qed.
Lemma same_but_futex_later c c' : same_but_futex c c' → later c c'.
Proof. intros ->. by split. Qed.

Lemma futex_threads_refl (ths : list (list CoroBase)) : Forall2 (Forall2 same_but_futex) ths ths.
Proof.
  apply Forall_Forall2_diag, Forall_true. intros t.
  apply Forall_Forall2_diag, Forall_true, same_but_futex_refl.
Qed.

Lemma futex_threads_trans (t1 t2 t3 : list (list CoroBase)) :
  Forall2 (Forall2 same_but_futex) t1 t2 → Forall2 (Forall2 same_but_futex) t2 t3 →
  Forall2 (Forall2 same_but_futex) t1 t3.
Proof.
  intros H1. revert t3. induction H1 as [|x y l k Hxy _ IH]; intros t3 H2; inversion H2 as [|? z ? ? Hyz]; subst;
    constructor; [|by apply IH].
  clear -Hxy Hyz. revert z Hyz. induction Hxy as [|c d l k Hcd _ IH]; intros z Hyz; inversion Hyz; subst;
    constructor; [by eapply same_but_futex_trans|by apply IH].
Qed.

#[global] Instance looked_preorder : PreOrder looked.
Proof.
  split.
  - intros s. by split; [apply futex_threads_refl|..].
  - intros s1 s2 s3 H1 H2. destruct H1, H2.
    split; [by eapply futex_threads_trans|congruence..].
Qed.

Lemma looked_evolves s s' : looked s s' → evolves s s'.
Proof.
  intros []. split; [|done..|congruence]. eapply Forall2_impl; [done|]. intros t t' Ht. simpl.
  eapply Forall2_impl; [exact Ht|]. apply same_but_futex_later.
Qed.

Lemma looked_threads_length s s' : looked s s' → length (threads s') = length (threads s).
Proof. intros ?%looked_evolves. by apply evolves_threads_length. Qed.

Lemma task_IsBlocked_looked r s b s' : task_IsBlocked r s = Ok (b, s') → looked s s'.
Proof.
  destruct r as [th i].
  intros (c & (thread & Ht & Hi)%slot_Some & _ & ->)%task_IsBlocked_Ok. split; try done.
  unfold set_slot; simpl. apply Forall2_alter_r; [apply futex_threads_refl|].
  intros x y Hx Hy _. assert (x = thread) as -> by congruence. assert (y = thread) as -> by congruence.
  rewrite <-(list_insert_id thread i c Hi) at 1.
  apply Forall2_insert; [apply Forall_Forall2_diag, Forall_true, same_but_futex_refl|].
  unfold IsBlocked. destruct (blocked_on (fstate c) (world s)); [apply same_but_futex_refl|done].
Qed.

Lemma task_IsBlocked_evolves r s b s' : task_IsBlocked r s = Ok (b, s') → evolves s s'.
Proof. intros ?%task_IsBlocked_looked. by apply looked_evolves. Qed.

Lemma task_Resume_evolves r s u s' : task_Resume r s = Ok (u, s') → evolves s s'.
Proof.
  intros (c & c' & w' & Hc & HR & ->)%task_Resume_Ok. by eapply evolves_resume.
Qed.

(** ** Termination of the tasks of a round *)

Lemma skip_returned_spec thread f :
  f ≤ length thread →
  let j := skip_returned (drop f thread) f in
  f ≤ j ≤ length thread ∧
  (∀ k c, f ≤ k < j → thread !! k = Some c → IsReturned c = true) ∧
  (∀ c, thread !! j = Some c → IsReturned c = false).
Proof.
  remember (drop f thread) as rest eqn:E. revert f E.
  induction rest as [|c rest IH]; intros f E Hf; simpl.
  - assert (length thread ≤ f) by (apply drop_nil_inv; done).
    split_and!; [lia..| |]; [intros; lia|].
    intros c Hc%lookup_lt_Some. lia.
  - symmetry in E. apply drop_cons_inv in E as [Hc E].
    pose proof (lookup_lt_Some _ _ _ Hc). destruct (IsReturned c) eqn:Hr.
    + destruct (IH (S f)) as (? & H2 & H3); [done|lia|]. split_and!; [lia..| |done].
      intros k c' Hk Hc'. destruct (decide (k = f)) as [->|]; [congruence|].
      apply (H2 k); [lia|done].
    + split_and!; [lia..| |]; [intros; lia|]. intros c' ?. congruence.
Qed.

Definition all_live (s : BaseStrategy) : Prop := ∀ r c, slot s r = Some c → live c.

(** What the loop does to a task: it asks whether it is blocked, or resumes it. *)
Definition touches (r : TaskRef) (s s' : BaseStrategy) : Prop :=
  (∃ b, task_IsBlocked r s = Ok (b, s')) ∨ (∃ u, task_Resume r s = Ok (u, s')).
Definition term_step (s s' : BaseStrategy) : Prop := ∃ r, touches r s s'.

Lemma touches_evolves r s s' : touches r s s' → evolves s s'.
Proof. intros [[b H]|[u H]]; [by eapply task_IsBlocked_evolves|by eapply task_Resume_evolves]. Qed.

Lemma touches_other r u s s' : touches r s s' → r ≠ u → slot s' u = slot s u.
Proof.
  intros [(b & (c & _ & _ & ->)%task_IsBlocked_Ok)|(v & (c & c' & w & _ & _ & ->)%task_Resume_Ok)] Hne;
    by apply slot_set_slot_ne.
Qed.

(** A task [c] that was blocked in a state the loop went through from [s0]. *)
Definition given_up (s0 : BaseStrategy) (r : TaskRef) (c : CoroBase) : Prop :=
  ∃ s1, rtc term_step s0 s1 ∧ slot s1 r = Some c ∧ blocked_on (fstate c) (world s1) = true.

(** Below [task_indexes] everything has returned, except that the last task of
    a thread may have been given up. *)
Definition finished_below (s0 : BaseStrategy) (th : nat) (thread : list CoroBase) (f : nat) : Prop :=
  ∀ k c, k < f → thread !! k = Some c →
    IsReturned c = true ∨ (S k = length thread ∧ given_up s0 (th, k) c).

Record term_inv (s0 s : BaseStrategy) (ti : list nat) : Prop := {
  ti_reached : rtc term_step s0 s;
  ti_length : length ti = length (threads s);
  ti_below th f thread : ti !! th = Some f → threads s !! th = Some thread →
    f ≤ length thread ∧ finished_below s0 th thread f;
}.

(** Touching a task that is not below. *)
Lemma term_inv_touch s0 s s' ti th j f :
  ti !! th = Some f → f ≤ j → touches (th, j) s s' → term_inv s0 s ti → term_inv s0 s' ti.
Proof.
  intros Hf Hfj Htouch [Hr Hlen H]. pose proof (touches_evolves _ _ _ Htouch) as Hev.
  split; [by eapply rtc_r; [|exists (th, j)]|by rewrite (evolves_threads_length _ _ Hev)|].
  intros th' f' thread' Hf' Ht'.
  destruct (Forall2_lookup_r _ _ _ _ _ (ev_threads _ _ Hev) Ht') as (thread & Ht & Hl).
  destruct (H th' f' thread Hf' Ht) as [Hle Hall].
  assert (length thread' = length thread) as Hlen' by (symmetry; by eapply Forall2_length). rewrite Hlen'.
  split; [done|]. intros k c' Hk Hc'. rewrite Hlen'.
  destruct (Forall2_lookup_r _ _ _ _ _ Hl Hc') as (c & Hc & [_ Hret]).
  destruct (Hall k c Hk Hc) as [?|[HS Hg]]; [left; by apply Hret|right; split; [done|]].
  assert (slot s' (th', k) = slot s (th', k)) as E.
  { eapply touches_other; [exact Htouch|]. intros [= <- <-]. rewrite Hf in Hf'. injection Hf' as <-. lia. }
  rewrite (proj2 (slot_Some s' th' k c')), (proj2 (slot_Some s th' k c)) in E by eauto. by injection E as <-.
Qed.

Lemma term_inv_init s : term_inv s s (replicate (length (threads s)) 0).
Proof.
  split; [done|by rewrite length_replicate|]. intros th f thread [-> _]%lookup_replicate _.
  split; [lia|]. intros k c Hk. lia.
Qed.

Lemma term_inv_insert s0 s ti th thread j :
  term_inv s0 s ti → threads s !! th = Some thread → j ≤ length thread → finished_below s0 th thread j →
  term_inv s0 s (<[th := j]> ti).
Proof.
  intros [Hr Hlen H] Ht Hj Hall. split; [done|by rewrite length_insert|].
  intros th' f thread' Hf Ht'. destruct (decide (th' = th)) as [->|Hne].
  - rewrite list_lookup_insert_eq in Hf by (rewrite Hlen; by eapply lookup_lt_Some).
    by simplify_eq.
  - rewrite list_lookup_insert_ne in Hf by done. by apply (H th').
Qed.

(** One thread of one pass. *)
Lemma terminate_thread_inv s0 ti has th s ti' has' s' :
  term_inv s0 s ti → terminate_thread (ti, has) th s = Ok ((ti', has'), s') →
  evolves s s' ∧ term_inv s0 s' ti' ∧ (has = true → has' = true) ∧
  (∀ th', th' ≠ th → ti' !! th' = ti !! th') ∧
  (∀ thread, has' = false → threads s !! th = Some thread → ti' !! th = Some (length thread)).
Proof.
  intros HI H. unfold terminate_thread in H. rewrite st_get_bind in H.
  apply st_bind_Ok in H as (thread & sx & [H0%vec_get_Ok ->]%st_lift_Ok & H).
  apply st_bind_Ok in H as (f & sx & [H1%vec_get_Ok ->]%st_lift_Ok & H). cbv zeta in H.
  apply st_bind_Ok in H as (ti1 & sx & [[Hth ->]%vec_set_Ok ->]%st_lift_Ok & H).
  destruct (ti_below _ _ _ HI th f thread H1 H0) as [Hf Hbelow].
  pose proof (skip_returned_spec thread f Hf) as (Hj & Hret & Hnot).
  set (j := skip_returned (drop f thread) f) in *.
  assert (finished_below s0 th thread j) as Hbelow'.
  { intros k c Hk Hc. destruct (decide (k < f)); [by apply Hbelow|left; by eapply Hret; [|done]; lia]. }
  pose proof (term_inv_insert s0 s ti th thread j HI H0 ltac:(lia) Hbelow') as HI1.
  assert (∀ x th', th' ≠ th → <[th := x]> ti !! th' = ti !! th') as Hne
    by (intros; by rewrite list_lookup_insert_ne).
  destruct (Nat.ltb_spec j (length thread)) as [Hjl|Hjl].
  - apply st_bind_Ok in H as (b & s1 & Hb & H). pose proof (task_IsBlocked_evolves _ _ _ _ Hb) as Hev.
    assert (<[th := j]> ti !! th = Some j) as Hti by by apply list_lookup_insert_eq.
    destruct b.
    + inv_st H. apply Nat.eqb_eq in H2. apply vec_set_Ok in H3 as [_ ->].
      split_and!; [done| |done|..].
      * assert (s' = s) as ->.
        { apply task_IsBlocked_Ok in Hb as (c & Hc & Hb & ->). unfold IsBlocked. rewrite <-Hb.
          by apply set_slot_id. }
        eapply term_inv_insert; [done..|lia|]. intros k c Hk Hc.
        destruct (decide (k = j)) as [->|]; [|apply Hbelow'; [lia|done]]. right. split; [lia|].
        apply task_IsBlocked_Ok in Hb as (c' & Hc' & Hb & _).
        assert (slot s (th, j) = Some c) as Hc2 by (apply slot_Some; eauto).
        assert (c' = c) as -> by congruence. exists s. by split; [apply (ti_reached _ _ _ HI)|].
      * intros th' ?. by rewrite list_insert_insert_eq, Hne.
      * intros thread' _ Ht'. assert (thread' = thread) as -> by congruence.
        rewrite list_lookup_insert_eq by (by rewrite length_insert). f_equal. lia.
    + inv_st H. split_and!; [| |done|by auto|done].
      * etransitivity; [done|]. by eapply task_Resume_evolves.
      * match goal with R : task_Resume _ _ = _ |- _ =>
          eapply (term_inv_touch _ s1); [exact Hti|done|right; eexists; exact R|] end.
        by eapply term_inv_touch; [exact Hti|done|left; eexists; exact Hb|].
  - inv_st H. split_and!; [done..|by auto|].
    intros thread' _ Ht'. assert (thread' = thread) as -> by congruence.
    rewrite list_lookup_insert_eq by done. f_equal. lia.
Qed.

Lemma terminate_thread_evolves acc th s acc' s' :
  terminate_thread acc th s = Ok (acc', s') → evolves s s'.
Proof.
  destruct acc as [ti has]. intros H. unfold terminate_thread in H. inv_st H.
  destruct (_ <? _); [|by inv_st H].
  apply st_bind_Ok in H as (b & s1 & Hb%task_IsBlocked_evolves & H). etransitivity; [done|].
  destruct b; inv_st H; [done|by eapply task_Resume_evolves].
Qed.

Lemma terminate_pass_inv s0 ths ti has s ti' has' s' :
  term_inv s0 s ti → NoDup ths → terminate_pass (ti, has) ths s = Ok ((ti', has'), s') →
  evolves s s' ∧ term_inv s0 s' ti' ∧ (has = true → has' = true) ∧
  (∀ th', th' ∉ ths → ti' !! th' = ti !! th') ∧
  (∀ th thread, has' = false → th ∈ ths → threads s !! th = Some thread →
    ti' !! th = Some (length thread)).
Proof.
  revert ti has s. induction ths as [|th ths IH]; intros ti has s HI Hnd H; simpl in H.
  { inv_st H. split_and!; [done..|]. intros ? ? _ ?%elem_of_nil. done. }
  apply st_bind_Ok in H as ([ti1 has1] & s1 & H1 & H). pose proof (NoDup_cons_1_1 _ _ Hnd) as Hth. apply NoDup_cons_1_2 in Hnd.
  apply (terminate_thread_inv s0) in H1 as (Hev & HI1 & Hhas1 & Hne1 & Hdone1); [|done].
  apply IH in H as (Hev' & HI' & Hhas' & Hne' & Hdone'); [|done..].
  split_and!; [by etransitivity|done|auto|..].
  - intros th' [? ?]%not_elem_of_cons. rewrite Hne' by done. by apply Hne1.
  - intros th' thread Hf [->|Hin]%elem_of_cons Ht.
    + rewrite Hne' by done. apply Hdone1; [|done]. destruct has1; [by rewrite Hhas' in Hf|done].
    + destruct (evolves_thread _ _ _ _ Hev Ht) as (thread' & Ht' & <- & _). by eapply Hdone'.
Qed.

(** Every task has returned, but for last tasks of threads that were given up. *)
Definition terminated (gave_up : TaskRef → CoroBase → Prop) (ths : list (list CoroBase)) : Prop :=
  ∀ th thread k c, ths !! th = Some thread → thread !! k = Some c →
    IsReturned c = true ∨ (S k = length thread ∧ gave_up (th, k) c).

(** A pass that found nothing to resume. *)
Lemma term_inv_terminated s0 s s' ti :
  evolves s s' → term_inv s0 s' ti →
  (∀ th thread, th ∈ seq 0 (length (threads s)) → threads s !! th = Some thread → ti !! th = Some (length thread)) →
  terminated (given_up s0) (threads s').
Proof.
  intros Hev HI Hdone th thread' k c Ht' Hc.
  destruct (Forall2_lookup_r _ _ _ _ _ (ev_threads _ _ Hev) Ht') as (thread & Ht & Hl).
  assert (length thread = length thread') as Hlen by (by eapply Forall2_length).
  apply (ti_below _ _ _ HI th (length thread) thread'); [|done|rewrite Hlen; by eapply lookup_lt_Some|done].
  apply Hdone; [|done]. apply elem_of_seq. apply lookup_lt_Some in Ht. lia.
Qed.

Lemma terminate_loop_inv s0 fuel ti s s' u :
  term_inv s0 s ti → terminate_loop fuel ti s = Ok (u, s') →
  evolves s s' ∧ terminated (given_up s0) (threads s').
Proof.
  revert ti s. induction fuel as [|fuel IH]; intros ti s HI H; cbn [terminate_loop] in H; [done|].
  apply st_bind_Ok in H as (? & ? & [= <- <-] & H).
  apply st_bind_Ok in H as ([ti1 has1] & s1 & H1 & H).
  apply (terminate_pass_inv s0) in H1 as (Hev & HI1 & _ & _ & Hdone); [|done..|apply NoDup_seq].
  destruct has1; [apply IH in H as [Hev' ?]; [split; [by etransitivity|done]|done]|].
  inv_st H. split; [done|]. eapply term_inv_terminated; eauto.
Qed.

Lemma TerminateTasks_unfold fuel s u s' :
  TerminateTasks fuel s = Ok (u, s') →
  length (round_schedule s) = length (threads s) ∧ ∃ s1,
  terminate_loop fuel (replicate (length (threads s)) 0)
    (with_schedule (replicate (length (round_schedule s)) (-1)%Z) s) = Ok (tt, s1) ∧
  s' = reset_round s1.
Proof.
  unfold TerminateTasks. intros H. inv_st H. apply Nat.eqb_eq in H0.
  split; [done|]. eexists. split; [|done]. by match goal with x : unit |- _ => destruct x end.
Qed.

Lemma TerminateTasks_evolves fuel s u s' :
  TerminateTasks fuel s = Ok (u, s') →
  ∃ s1, evolves (with_schedule (replicate (length (round_schedule s)) (-1)%Z) s) s1 ∧ s' = reset_round s1.
Proof.
  intros (Hlen & s1 & H & ->)%TerminateTasks_unfold. exists s1. split; [|done].
  by eapply terminate_loop_inv in H as [Hev _]; [|apply (term_inv_init (with_schedule _ s))].
Qed.

Lemma TerminateTasks_Ok fuel s u s' :
  TerminateTasks fuel s = Ok (u, s') →
  Forall2 (Forall2 later) (threads s) (threads s') ∧
  terminated (given_up (with_schedule (replicate (length (round_schedule s)) (-1)%Z) s)) (threads s') ∧
  round_schedule s' = replicate (length (threads s)) (-1)%Z ∧
  sched_checker s' = Verifier_Reset (sched_checker s) ∧
  (∃ w, state (world s') = target_Reset (state w)) ∧
  new_task_id s' = new_task_id s ∧ removed_tasks s' = removed_tasks s.
Proof.
  intros (Hlen & s1 & H & ->)%TerminateTasks_unfold.
  eapply terminate_loop_inv in H as [[Hth Hid Hrm Hsch Hck _] Ht];
    [|apply (term_inv_init (with_schedule _ s))].
  split_and!; [done|done| | |by exists (world s1)|done|done]; simpl.
  - by rewrite Hsch, <-Hlen.
  - by rewrite Hck.
Qed.

(** C32: When [TerminateTasks] returns, every task of the round has returned,
    except perhaps the last task of a thread, and that one was blocked, as it is
    now, in a state that the loop went through; no task was replaced or lost a
    result, every schedule index is back to -1, and the verifier and the object
    under test are reset. *)
Theorem TerminateTasks_spec fuel s u s' :
  TerminateTasks fuel s = Ok (u, s') →
  Forall2 (Forall2 later) (threads s) (threads s') ∧
  terminated (given_up (with_schedule (replicate (length (round_schedule s)) (-1)%Z) s)) (threads s') ∧
  round_schedule s' = replicate (length (threads s)) (-1)%Z ∧
  sched_checker s' = Verifier_Reset (sched_checker s) ∧
  (∃ w, state (world s') = target_Reset (state w)) ∧
  new_task_id s' = new_task_id s ∧ removed_tasks s' = removed_tasks s.
Proof. apply TerminateTasks_Ok. Qed.

Lemma restart_threads_length s ths ths' : restart_threads s ths = Ok ths' → length ths' = length ths.
Proof.
  revert ths'. induction ths as [|t ths IH]; intros ths' H; simpl in H; [by simplify_eq|].
  inv_Ok H. simpl. f_equal. by apply IH.
Qed.

(** A task that is about to start. *)
Definition fresh_coro (c : CoroBase) : Prop :=
  IsReturned c = false ∧ ret c = ValueWrapper_default ∧ ctx c = Some (start (name c) (args c)).

Lemma restart_all_fresh s tasks tasks' :
  restart_all s tasks = Ok tasks' →
  Forall2 (λ c c', same_task c c' ∧ (IsTaskRemoved s (GetId c) = false → fresh_coro c')) tasks tasks'.
Proof.
  revert tasks'. induction tasks as [|c tasks IH]; intros tasks' H; simpl in H; [by simplify_eq|].
  apply bind_Ok in H as (c' & Hc & H). apply bind_Ok in H as (rest & Hrest & H). simplify_eq.
  constructor; [|by apply IH]. unfold restart_task in Hc. destruct (IsTaskRemoved s (GetId c)).
  - simplify_eq. by split.
  - apply Restart_Ok in Hc as [_ ->]. by split.
Qed.

Lemma restart_threads_fresh s ths ths' :
  restart_threads s ths = Ok ths' →
  Forall2 (Forall2 (λ c c', same_task c c' ∧ (IsTaskRemoved s (GetId c) = false → fresh_coro c')))
    ths ths'.
Proof.
  revert ths'. induction ths as [|t ths IH]; intros ths' H; simpl in H; [by simplify_eq|].
  apply bind_Ok in H as (t' & Ht & H). apply bind_Ok in H as (rest & Hrest & H). simplify_eq.
  constructor; [by apply restart_all_fresh|by apply IH].
Qed.

(** Whatever the methods do: after a successful reset, the schedule starts
    over and no task that is not removed has started. *)
Lemma base_ResetCurrentRound_Ok fuel s u s' :
  base_ResetCurrentRound fuel s = Ok (u, s') →
  round_schedule s' = replicate (length (threads s')) (-1)%Z ∧ removed_tasks s' = removed_tasks s ∧
  (∀ r c', slot s' r = Some c' → IsTaskRemoved s' (GetId c') = false → fresh_coro c') ∧
  (∀ r, is_Some (slot s' r) ↔ is_Some (slot s r)) ∧
  (∀ r c c', slot s r = Some c → slot s' r = Some c' → same_task c c') ∧
  (∃ w, state (world s') = target_Reset (state w)).
Proof.
  unfold base_ResetCurrentRound. intros H. apply st_bind_Ok in H as (u1 & s1 & H1 & H).
  apply TerminateTasks_Ok in H1 as (Hth & _ & Hsch & _ & Hw & _ & Hrm).
  rewrite st_get_bind in H. apply st_bind_Ok in H as (ths & s2 & [Hr ->]%st_lift_Ok & H). inv_st H.
  apply restart_threads_fresh in Hr. simpl.
  assert (length (threads s) = length ths) as Hlen.
  { transitivity (length (threads s1)); by eapply Forall2_length. }
  assert (∀ r c, slot s r = Some c → ∃ c1 c', slot s1 r = Some c1 ∧ slot (with_threads ths s1) r = Some c' ∧
    same_task c c') as Hfwd.
  { intros [th i] c (thread & Ht & Hi)%slot_Some.
    destruct (Forall2_lookup_l _ _ _ _ _ Hth Ht) as (t1 & Ht1 & Hl1).
    destruct (Forall2_lookup_l _ _ _ _ _ Hl1 Hi) as (c1 & Hc1 & [Hs1 _]).
    destruct (Forall2_lookup_l _ _ _ _ _ Hr Ht1) as (t2 & Ht2 & Hl2).
    destruct (Forall2_lookup_l _ _ _ _ _ Hl2 Hc1) as (c2 & Hc2 & [Hs2 _]).
    exists c1, c2. split_and!; [apply slot_Some; eauto..|by eapply same_task_trans]. }
  split_and!; [by rewrite Hsch, Hlen|done| | | |done].
  - intros [th i] c' (t2 & Ht2 & Hc2)%slot_Some Hrem. simpl in Ht2.
    destruct (Forall2_lookup_r _ _ _ _ _ Hr Ht2) as (t1 & Ht1 & Hl2).
    destruct (Forall2_lookup_r _ _ _ _ _ Hl2 Hc2) as (c1 & Hc1 & [(Hid & _) Hf]).
    apply Hf. unfold IsTaskRemoved, GetId in *. simpl in Hrem. by rewrite <-Hid.
  - intros [th i]. split; [|intros [c Hc]; destruct (Hfwd _ _ Hc) as (_ & c' & _ & ? & _); by eexists].
    intros [c' (t2 & Ht2 & Hc2)%slot_Some]. simpl in Ht2.
    destruct (Forall2_lookup_r _ _ _ _ _ Hr Ht2) as (t1 & Ht1 & Hl2).
    destruct (Forall2_lookup_r _ _ _ _ _ Hl2 Hc2) as (c1 & Hc1 & _).
    destruct (Forall2_lookup_r _ _ _ _ _ Hth Ht1) as (t0 & Ht0 & Hl1).
    destruct (Forall2_lookup_r _ _ _ _ _ Hl1 Hc1) as (c0 & Hc0 & _). exists c0. apply slot_Some. eauto.
  - intros r c c' Hc Hc'. destruct (Hfwd r c Hc) as (_ & c2 & _ & Hc2 & Hs). congruence.
Qed.

(** ** Wait-free rounds terminate *)

Section wait_free.
Context (budget : Frame → nat) (Hwf : wait_free budget).

Definition thread_budget (thread : list CoroBase) : nat := sum_list (task_budget budget <$> thread).
Definition round_budget (s : BaseStrategy) : nat := sum_list (thread_budget <$> threads s).

Lemma set_slot_budget s r c c' :
  slot s r = Some c →
  round_budget (set_slot r c' s) + task_budget budget c = round_budget s + task_budget budget c'.
Proof.
  destruct r as [th i]. intros (thread & Ht & Hi)%slot_Some. unfold round_budget, set_slot; simpl.
  pose proof (sum_list_fmap_alter thread_budget (λ t, <[i:=c']> t) (threads s) th thread Ht) as H.
  pose proof (sum_list_fmap_insert (task_budget budget) thread i c c' Hi) as H'.
  unfold thread_budget in H at 2 4. lia.
Qed.

Lemma set_slot_live s r c c' :
  slot s r = Some c → all_live s → live c' → all_live (set_slot r c' s).
Proof.
  intros Hr Hall Hl r' c1 H1. destruct (decide (r = r')) as [<-|Hne].
  - rewrite (slot_set_slot _ _ _ _ Hr) in H1. by simplify_eq.
  - rewrite slot_set_slot_ne in H1 by done. by eapply Hall.
Qed.

(** A live task is never blocked, and asking does not change it. *)
Lemma task_IsBlocked_live s r c :
  all_live s → slot s r = Some c → task_IsBlocked r s = Ok (false, s).
Proof.
  intros Hall Hr. apply task_IsBlocked_Ok. exists c. split; [done|].
  destruct (Hall r c Hr) as [Hfs Hctx]. rewrite Hfs. split; [done|].
  rewrite (IsBlocked_live c (world s)) by done. cbn [snd].
  symmetry. by apply set_slot_id.
Qed.

Lemma task_Resume_live s r c :
  all_live s → slot s r = Some c → IsReturned c = false →
  ∃ s', task_Resume r s = Ok (tt, s') ∧ evolves s s' ∧ all_live s' ∧ round_budget s' < round_budget s.
Proof.
  intros Hall Hr Hret. destruct (Resume_wait_free budget c (world s) Hwf (Hall _ _ Hr) Hret)
    as (c' & w' & HR & Hl & Hlt).
  assert (task_Resume r s = Ok (tt, with_world w' (set_slot r c' s))) as E
    by (apply task_Resume_Ok; eauto 10).
  exists (with_world w' (set_slot r c' s)). split_and!; [done|by eapply task_Resume_evolves| |].
  - intros r' c1 H1. by eapply (set_slot_live s r c c').
  - pose proof (set_slot_budget s r c c' Hr). unfold round_budget in *; simpl in *. lia.
Qed.

Lemma terminate_thread_total s0 s ti has th :
  all_live s → term_inv s0 s ti → th < length (threads s) →
  ∃ ti' has' s', terminate_thread (ti, has) th s = Ok ((ti', has'), s') ∧ all_live s' ∧
    round_budget s' ≤ round_budget s ∧ (has' = has ∨ round_budget s' < round_budget s).
Proof.
  intros Hall HI Hth. destruct (lookup_lt_is_Some_2 _ _ Hth) as [thread Ht].
  destruct (lookup_lt_is_Some_2 ti th) as [f Hf]; [by rewrite (ti_length _ _ _ HI)|].
  destruct (ti_below _ _ _ HI _ _ _ Hf Ht) as [Hfl _].
  destruct (skip_returned_spec thread f Hfl) as (_ & _ & Hnot).
  unfold terminate_thread. rewrite st_get_bind.
  st_lift_step (vec_get_Some _ _ _ Ht). st_lift_step (vec_get_Some _ _ _ Hf).
  rewrite (st_bind_eq _ _ _ _ _ (st_lift_eq _ _ _ (vec_set_lt ti th _ (lookup_lt_Some _ _ _ Hf)))).
  set (j := skip_returned (drop f thread) f) in *.
  destruct (Nat.ltb_spec j (length thread)) as [Hj|Hj].
  - destruct (lookup_lt_is_Some_2 thread j Hj) as [c Hc].
    assert (slot s (th, j) = Some c) as Hslot by (apply slot_Some; eauto).
    st_step (task_IsBlocked_live s _ c Hall Hslot).
    destruct (task_Resume_live s _ c Hall Hslot (Hnot c Hc)) as (s' & HR & _ & Hall' & Hlt).
    st_step HR. do 3 eexists. split_and!; [done|done|lia|by right].
  - do 3 eexists. split_and!; [done|done|lia|by left].
Qed.

Lemma terminate_pass_total s0 s ti has ths :
  all_live s → term_inv s0 s ti → NoDup ths → (∀ th, th ∈ ths → th < length (threads s)) →
  ∃ ti' has' s', terminate_pass (ti, has) ths s = Ok ((ti', has'), s') ∧ all_live s' ∧
    round_budget s' ≤ round_budget s ∧ (has' = has ∨ round_budget s' < round_budget s) ∧
    evolves s s' ∧ term_inv s0 s' ti' ∧ (has = true → has' = true) ∧
    (∀ th', th' ∉ ths → ti' !! th' = ti !! th') ∧
    (has' = false → ∀ th thread, th ∈ ths → threads s !! th = Some thread →
      ti' !! th = Some (length thread)).
Proof.
  revert s ti has. induction ths as [|th ths IH]; intros s ti has Hall HI Hnd Hin; simpl.
  { do 3 eexists. split_and!; [done|done|lia|by left|done..|]. intros _ ? ? ?%elem_of_nil. done. }
  pose proof (NoDup_cons_1_1 _ _ Hnd) as Hth. apply NoDup_cons_1_2 in Hnd.
  destruct (terminate_thread_total s0 s ti has th) as (ti1 & has1 & s1 & E1 & Hall1 & Hle1 & Hd1);
    [done|done|apply Hin; by left|].
  pose proof (terminate_thread_inv s0 _ _ _ _ _ _ _ HI E1)
    as (Hev1 & HI1 & Hhas1 & Hne1 & Hfull1).
  destruct (IH s1 ti1 has1)
    as (ti2 & has2 & s2 & E2 & Hall2 & Hle2 & Hd2 & Hev2 & HI2 & Hhas2 & Hne2 & Hfull2); [done..| |].
  { intros th' ?. rewrite (evolves_threads_length _ _ Hev1). apply Hin. by right. }
  st_step E1. exists ti2, has2, s2. split_and!; [done|done|lia| |by etransitivity|done|by auto|..].
  - destruct Hd1 as [->|?]; [|right; lia]. destruct Hd2 as [->|?]; [by left|right; lia].
  - intros th' [? ?]%not_elem_of_cons. rewrite Hne2 by done. by apply Hne1.
  - intros Hf th' thread [->|Hin']%elem_of_cons Ht.
    + rewrite Hne2 by done. apply Hfull1; [|done]. destruct has1; [by rewrite Hhas2 in Hf|done].
    + destruct (evolves_thread _ _ _ _ Hev1 Ht) as (thread' & Ht' & <- & _). by eapply Hfull2.
Qed.

Lemma terminate_loop_total fuel s0 s ti :
  all_live s → term_inv s0 s ti → round_budget s < fuel →
  ∃ s', terminate_loop fuel ti s = Ok (tt, s') ∧ evolves s s' ∧ all_live s' ∧
    terminated (given_up s0) (threads s').
Proof.
  revert s ti. induction fuel as [|fuel IH]; intros s ti Hall HI Hf; [lia|]. cbn [terminate_loop].
  destruct (terminate_pass_total s0 s ti false (seq 0 (length (threads s))))
    as (ti1 & has1 & s1 & E1 & Hall1 & Hle1 & Hd1 & Hev1 & HI1 & _ & _ & Hfull1);
    [done|done|apply NoDup_seq|intros th Hin%elem_of_seq; lia|].
  rewrite st_get_bind. st_step E1. destruct has1.
  - destruct Hd1 as [?|Hlt]; [done|]. destruct (IH s1 ti1) as (s2 & E2 & Hev2 & ? & ?); [done|done|lia|].
    exists s2. split_and!; [done|by etransitivity|done|done].
  - exists s1. split_and!; [done..|]. by eapply term_inv_terminated; [exact Hev1|exact HI1|apply Hfull1].
Qed.

(** The states the loop goes through stay live, so that nothing is given up. *)
Lemma term_step_live s s' : rtc term_step s s' → all_live s → all_live s'.
Proof.
  induction 1 as [|s s1 s' [r Ht] _ IH]; [done|]. intros Hall. apply IH. destruct Ht as [[b Hb]|[u Hu]].
  - destruct (proj1 (task_IsBlocked_Ok _ _ _ _) Hb) as (c & Hc & _).
    rewrite (task_IsBlocked_live _ _ _ Hall Hc) in Hb. by injection Hb as _ <-.
  - destruct (proj1 (task_Resume_Ok _ _ _ _) Hu) as (c & c' & w' & Hc & HR & _).
    destruct (task_Resume_live _ _ _ Hall Hc (proj1 (Resume_Ok _ _ _ _ HR))) as (s2 & H2 & _ & Hall2 & _).
    rewrite H2 in Hu. by injection Hu as _ <-.
Qed.

Lemma given_up_live s0 r c : all_live s0 → ¬ given_up s0 r c.
Proof.
  intros Hall (s1 & Hr & Hc & Hb). destruct (term_step_live _ _ Hr Hall _ _ Hc) as [Hfs _].
  by rewrite Hfs in Hb.
Qed.

Lemma TerminateTasks_wait_free fuel s :
  length (round_schedule s) = length (threads s) → all_live s → round_budget s < fuel →
  ∃ s', TerminateTasks fuel s = Ok (tt, s') ∧ Forall2 (Forall2 later) (threads s) (threads s') ∧
    (∀ r c, slot s' r = Some c → IsReturned c = true) ∧ removed_tasks s' = removed_tasks s.
Proof.
  intros Hlen Hall Hf. set (s1 := with_schedule (replicate (length (round_schedule s)) (-1)%Z) s).
  destruct (terminate_loop_total fuel s1 s1 (replicate (length (threads s)) 0))
    as (s2 & E & [Hth _ Hrm _ _ _] & Hall2 & Hterm); [done|apply (term_inv_init s1)|done|].
  exists (reset_round s2). unfold TerminateTasks. rewrite st_get_bind.
  assert (st_assert "sizes expected to be the same" (length (round_schedule s) =? length (threads s)) s
          = Ok (tt, s)) as Ea by (rewrite st_assert_Ok, Nat.eqb_eq; done).
  st_step Ea. rewrite st_modify_bind. st_step E.
  split_and!; [done|done| |done]. intros [th i] c (thread & Ht & Hi)%slot_Some.
  destruct (Hterm th thread i c Ht Hi) as [?|[_ Hg]]; [done|]. by destruct (given_up_live s1 _ _ Hall Hg).
Qed.

(** What becomes of a returned task. *)
Definition restarted (s : BaseStrategy) (c : CoroBase) : CoroBase :=
  if IsTaskRemoved s (GetId c) then c
  else mk_CoroBase (id c) (name c) (args c) ValueWrapper_default false no_futex (token c)
         (Some (start (name c) (args c))).

Lemma restart_all_Ok s (tasks : list CoroBase) :
  Forall (λ c, IsReturned c = true) tasks → restart_all s tasks = Ok (restarted s <$> tasks).
Proof.
  induction 1 as [|c tasks Hc _ IH]; [done|]. simpl. unfold restart_task, restarted at 1.
  destruct (IsTaskRemoved s (GetId c)); [|rewrite (proj2 (Restart_Ok c _) (conj Hc eq_refl))];
    cbn [mbind outcome_bind]; by rewrite IH.
Qed.

Lemma restart_threads_Ok s (ths : list (list CoroBase)) :
  Forall (Forall (λ c, IsReturned c = true)) ths →
  restart_threads s ths = Ok ((λ thread : list CoroBase, restarted s <$> thread) <$> ths).
Proof.
  induction 1 as [|t ths Ht _ IH]; [done|]. simpl. rewrite restart_all_Ok by done.
  cbn [mbind outcome_bind]. by rewrite IH.
Qed.

(** For wait-free methods [ResetCurrentRound] always succeeds, with fuel
    for the work left in the round: afterwards the round has the same tasks
    in the same places, the removed ones returned and every other one at the
    start of its method, with its id, arguments and token. *)
Theorem ResetCurrentRound_wait_free fuel s :
  length (round_schedule s) = length (threads s) → all_live s → round_budget s < fuel →
  ∃ s', base_ResetCurrentRound fuel s = Ok (tt, s') ∧ removed_tasks s' = removed_tasks s ∧
    length <$> threads s' = length <$> threads s ∧
    ∀ r c, slot s r = Some c → ∃ c', slot s' r = Some c' ∧ same_task c c' ∧
      if IsTaskRemoved s (GetId c) then IsReturned c' = true
      else IsReturned c' = false ∧ fstate c' = no_futex ∧ ctx c' = Some (start (name c) (args c)).
Proof.
  intros Hlen Hall Hf.
  destruct (TerminateTasks_wait_free fuel s Hlen Hall Hf) as (s1 & E & Hth & Hret & Hrm).
  unfold base_ResetCurrentRound. st_step E. rewrite st_get_bind.
  assert (Forall (Forall (λ c, IsReturned c = true)) (threads s1)) as Hall1.
  { apply Forall_lookup. intros th thread Ht. apply Forall_lookup. intros i c Hi.
    apply (Hret (th, i)), slot_Some. eauto. }
  st_lift_step (restart_threads_Ok s1 _ Hall1). eexists. split_and!; [done|done| |].
  - simpl. rewrite <-list_fmap_compose. clear -Hth.
    induction Hth as [|t t' ths ths' Ht _ IH]; [done|]. simpl. f_equal; [|done].
    rewrite length_fmap. symmetry. by eapply Forall2_length.
  - intros [th i] c (thread & Ht & Hi)%slot_Some.
    destruct (Forall2_lookup_l _ _ _ _ _ Hth Ht) as (thread1 & Ht1 & Hl).
    destruct (Forall2_lookup_l _ _ _ _ _ Hl Hi) as (c1 & Hi1 & [Hsame _]).
    eexists. split; [apply slot_Some; simpl|].
    { eexists. rewrite list_lookup_fmap, Ht1. split; [done|]. by rewrite list_lookup_fmap, Hi1. }
    unfold restarted.
    assert (IsTaskRemoved s1 (GetId c1) = IsTaskRemoved s (GetId c)) as ->.
    { unfold IsTaskRemoved, GetId. destruct Hsame as (-> & _). by rewrite Hrm. }
    destruct Hsame as (Hid & Hname & Hargs & Htok).
    destruct (IsTaskRemoved s (GetId c)).
    + split; [done|]. apply (Hret (th, i)), slot_Some. eauto.
    + split; [done|]. split_and!; [done..|]. simpl. by rewrite Hname, Hargs.
Qed.
End wait_free.

(** ** Finding tasks *)

Lemma find_in_thread_Some tasks k task_id i :
  find_in_thread tasks k task_id = Some i →
  ∃ c, k ≤ i ∧ tasks !! (i - k) = Some c ∧ GetId c = task_id.
Proof.
  revert k. induction tasks as [|c tasks IH]; intros k H; simplify_eq/=.
  destruct (Z.eqb_spec (GetId c) task_id) as [E|_]; simplify_eq.
  - exists c. by rewrite Nat.sub_diag.
  - apply IH in H as (c' & Hk & Hc & E). exists c'. split_and!; [lia| |done].
    by replace (i - k) with (S (i - S k)) by lia.
Qed.

Lemma find_in_thread_None tasks k task_id :
  find_in_thread tasks k task_id = None ↔ Forall (λ c, GetId c ≠ task_id) tasks.
Proof.
  revert k. induction tasks as [|c tasks IH]; intros k; simpl; [done|].
  rewrite Forall_cons_iff, <-(IH (S k)). destruct (Z.eqb_spec (GetId c) task_id); naive_solver.
Qed.

Lemma find_task_Some ths k task_id r th :
  find_task ths k task_id = Some (r, th) →
  ∃ thread c, r.1 = th ∧ k ≤ th ∧ ths !! (th - k) = Some thread ∧ thread !! r.2 = Some c ∧
    GetId c = task_id.
Proof.
  revert k. induction ths as [|t ths IH]; intros k H; [done|]. cbn [find_task] in H.
  destruct (find_in_thread t 0 task_id) as [i|] eqn:E.
  - simplify_eq. apply find_in_thread_Some in E as (c & _ & Hc & Hid). rewrite Nat.sub_0_r in Hc.
    exists t, c. by rewrite Nat.sub_diag.
  - apply IH in H as (thread & c & Hr & Hk & Ht & Hc & Hid). exists thread, c.
    split_and!; [done|lia| |done..]. by replace (th - k) with (S (th - S k)) by lia.
Qed.

Lemma find_task_None ths k task_id :
  find_task ths k task_id = None ↔ Forall (Forall (λ c, GetId c ≠ task_id)) ths.
Proof.
  revert k. induction ths as [|t ths IH]; intros k; simpl; [done|].
  rewrite Forall_cons_iff, <-(IH (S k)), <-(find_in_thread_None t 0 task_id).
  destruct (find_in_thread t 0 task_id); naive_solver.
Qed.

Lemma GetTask_Some s task_id r th :
  GetTask s task_id = Some (r, th) →
  ∃ c, slot s r = Some c ∧ GetId c = task_id ∧ r.1 = th.
Proof.
  intros (thread & c & Hr & _ & Ht & Hc & Hid)%find_task_Some. rewrite Nat.sub_0_r in Ht.
  exists c. split_and!; [|done..]. destruct r as [th' i]; simpl in *; subst. apply slot_Some. eauto.
Qed.

Lemma GetTask_Ok s task_id :
  match GetTask s task_id with
  | Some (r, th) => ∃ c, slot s r = Some c ∧ GetId c = task_id ∧ r.1 = th
  | None => ∀ r c, slot s r = Some c → GetId c ≠ task_id
  end.
Proof.
  destruct (GetTask s task_id) as [[r th]|] eqn:E; [by apply GetTask_Some|].
  intros [th i] c (thread & Ht & Hi)%slot_Some.
  unfold GetTask in E. rewrite find_task_None, Forall_lookup in E.
  specialize (E _ _ Ht). rewrite Forall_lookup in E. by eapply E.
Qed.

(** [GetTask] finds the task with the given id: it returns a slot of the
    round that holds a task with that id, and the thread of that slot, and it
    returns nothing only when no task of the round has the id. *)
Theorem GetTask_spec s task_id :
  match GetTask s task_id with
  | Some (r, th) => ∃ c, slot s r = Some c ∧ GetId c = task_id ∧ r.1 = th
  | None => ∀ r c, slot s r = Some c → GetId c ≠ task_id
  end.
Proof. apply GetTask_Ok. Qed.

(** ** The next task of a thread *)

(** A task a replay of the round still has to run. *)
Definition to_run (s : BaseStrategy) (c : CoroBase) : Prop :=
  IsReturned c = false ∧ IsTaskRemoved s (GetId c) = false.

Lemma skip_finished_spec s thread (f : nat) :
  f ≤ length thread →
  ∃ j : nat, skip_finished s (drop f thread) (Z.of_nat f) = Z.of_nat j ∧ f ≤ j ≤ length thread ∧
    (∀ k c, f ≤ k < j → thread !! k = Some c → ¬ to_run s c) ∧
    (∀ c, thread !! j = Some c → to_run s c).
Proof.
  remember (drop f thread) as rest eqn:E. revert f E.
  induction rest as [|c rest IH]; intros f E Hf; simpl.
  - assert (length thread ≤ f) by (apply drop_nil_inv; done).
    exists f. split_and!; [done|lia..| |]; [intros; lia|]. intros c Hc%lookup_lt_Some. lia.
  - symmetry in E. apply drop_cons_inv in E as [Hc E]. pose proof (lookup_lt_Some _ _ _ Hc).
    destruct (IsReturned c || IsTaskRemoved s (GetId c)) eqn:Hr.
    + destruct (IH (S f)) as (j & Hj & ? & H2 & H3); [done|lia|]. exists j.
      replace (Z.of_nat f + 1)%Z with (Z.of_nat (S f)) by lia. split_and!; [done|lia..| |done].
      intros k c' Hk Hc'. destruct (decide (k = f)) as [->|]; [|apply (H2 k); [lia|done]].
      assert (c' = c) as -> by congruence. intros [E1 E2]. by rewrite E1, E2 in Hr.
    + exists f. apply orb_false_iff in Hr as [? ?]. split_and!; [done|lia..| |]; [intros; lia|].
      intros c' Hc'. by assert (c' = c) as -> by congruence.
Qed.

Lemma GetNextTaskInThread_Ok s th thread (sched : Z) :
  threads s !! th = Some thread → round_schedule s !! th = Some sched →
  (-1 ≤ sched ≤ Z.of_nat (length thread))%Z →
  ∃ j : nat, GetNextTaskInThread th s = Ok (Z.of_nat j) ∧ j ≤ length thread ∧
    (sched ≤ Z.of_nat j)%Z ∧
    (∀ k c, (sched ≤ Z.of_nat k)%Z → k < j → thread !! k = Some c → ¬ to_run s c) ∧
    (∀ c, thread !! j = Some c → to_run s c).
Proof.
  intros Ht Hs Hr. unfold GetNextTaskInThread, vec_get. rewrite Ht, Hs. cbn [or_fail mbind outcome_bind].
  destruct (Z.eqb_spec sched (-1)) as [->|Hne].
  - destruct (skip_finished_spec s thread 0) as (j & Hj & ? & H2 & H3); [lia|].
    exists j. change (skip_finished s thread 0) with (skip_finished s (drop 0 thread) (Z.of_nat 0)).
    rewrite Hj. split_and!; [done|lia|lia| |done]. intros k c _ ?. apply H2. lia.
  - destruct (skip_finished_spec s thread (Z.to_nat sched)) as (j & Hj & ? & H2 & H3); [lia|].
    exists j. rewrite (proj2 (Z.ltb_ge sched (-1))) by lia.
    rewrite Z2Nat.id in Hj by lia. rewrite Hj. split_and!; [done|lia|lia| |done].
    intros k c ? ?. apply H2. lia.
Qed.

(** [GetNextTaskInThread] returns the first task, from the thread's
    schedule index on, that has neither returned nor been removed, and the
    size of the thread when there is none. *)
Theorem GetNextTaskInThread_spec s th thread (sched : Z) :
  threads s !! th = Some thread → round_schedule s !! th = Some sched →
  (-1 ≤ sched ≤ Z.of_nat (length thread))%Z →
  ∃ j : nat, GetNextTaskInThread th s = Ok (Z.of_nat j) ∧ j ≤ length thread ∧
    (sched ≤ Z.of_nat j)%Z ∧
    (∀ k c, (sched ≤ Z.of_nat k)%Z → k < j → thread !! k = Some c → ¬ to_run s c) ∧
    (∀ c, thread !! j = Some c → to_run s c).
Proof. apply GetNextTaskInThread_Ok. Qed.

Lemma skip_finished_le s tasks i : (i ≤ skip_finished s tasks i)%Z.
Proof.
  revert i. induction tasks as [|c tasks IH]; intros i; simpl; [lia|].
  destruct (_ || _); [|lia]. specialize (IH (i + 1)%Z). lia.
Qed.

Lemma GetNextTaskInThread_nonneg th s j : GetNextTaskInThread th s = Ok j → (0 ≤ j)%Z.
Proof.
  unfold GetNextTaskInThread. intros H. inv_Ok H.
  destruct (Z.eqb_spec a0 (-1)); [simplify_eq; apply skip_finished_le|].
  destruct (Z.ltb_spec a0 (-1)); simplify_eq.
  pose proof (skip_finished_le s (drop (Z.to_nat a0) a) a0). lia.
Qed.
End base.

(** ** The interface of a strategy (scheduler.h:55-119)

    A concrete strategy extends [BaseStrategy] with fields of its own and
    implements the virtual methods.  [fuel] bounds the loops of the runtime that
    run code under test. *)
Class Strategy `{Target} `{StrategyVerifier} := {
  St : Type;
  base : St → BaseStrategy;
  set_base : BaseStrategy → St → St;
  Next : nat → stM St TaskWithMetaData;
  NextSchedule : stM St TaskWithMetaData;
  StartNextRound : nat → stM St unit;
  ResetCurrentRound : nat → stM St unit;
}.

(** Running a method of the base class on a derived object. *)
Definition on_base `{Strategy} {A} (m : stM BaseStrategy A) : stM St A :=
  λ s, '(a, b) ← m (base s); Ok (a, set_base b s).

Section contract.
Context `{HT : Target} `{HC : !Code} `{HV : StrategyVerifier}.

(** All the tasks of a thread have returned. *)
Definition thread_done (thread : list CoroBase) : Prop :=
  ∀ c, last thread = Some c → IsReturned c = true.

(** What [Next] promises: it hands out the last task of a thread.  Either that
    task is running, and neither parked nor waiting on a futex; or the last
    task of the thread has returned (or there is none) and the task handed out
    is a new one, built by one of the constructors with the next id. *)
Inductive next_ok (s : BaseStrategy) (t : TaskWithMetaData) (s' : BaseStrategy) : Prop :=
| next_running n c thread :
    looked s s' → is_new t = false → task t = (thread_id t, n) →
    threads s' !! thread_id t = Some thread → length thread = S n → last thread = Some c →
    IsReturned c = false → IsParked c (world s') = false → blocked_on (fstate c) (world s') = false →
    next_ok s t s'
| next_new s1 b c thread :
    looked s s1 → is_new t = true → task t = (thread_id t, length thread) →
    threads s1 !! thread_id t = Some thread → thread_done thread →
    b ∈ constructors s → Build b (thread_id t) (new_task_id s) (world s1) = Ok (c, world s') →
    threads s' = <[thread_id t := thread ++ [c]]> (threads s1) →
    new_task_id s' = wrap32 (new_task_id s + 1) → removed_tasks s' = removed_tasks s →
    round_schedule s' = round_schedule s → (∀ b', b' ∈ constructors s' ↔ b' ∈ constructors s) →
    next_ok s t s'.

Lemma next_ok_threads_length s t s' : next_ok s t s' → length (threads s') = length (threads s).
Proof.
  destruct 1 as [n c thread Hlk|s1 b c thread Hlk _ _ _ _ _ _ Hths]; [by apply looked_threads_length|].
  rewrite Hths, length_insert. by apply looked_threads_length.
Qed.

(** What [NextSchedule] promises: the task handed out is the next task to run
    of its thread; it is new when the thread has moved on to it. *)
Record next_schedule_ok (s : BaseStrategy) (t : TaskWithMetaData) (s' : BaseStrategy) : Prop := {
  ns_index : GetNextTaskInThread (thread_id t) s = Ok (Z.of_nat (task t).2);
  ns_thread : (task t).1 = thread_id t;
  ns_task : is_Some (slot s (task t));
  ns_new : is_new t = negb (bool_decide (round_schedule s !! thread_id t = Some (Z.of_nat (task t).2)));
  ns_state : s' = with_schedule (<[thread_id t := Z.of_nat (task t).2]> (round_schedule s)) s;
}.
End contract.

Class StrategyLaws `{HT : Target} `{HC : !Code} `{HV : StrategyVerifier} `{HS : !Strategy} : Prop := {
  base_set_base b s : base (set_base b s) = b;
  Next_contract fuel s t s' : Next fuel s = Ok (t, s') → next_ok (base s) t (base s');
  NextSchedule_contract s t s' : NextSchedule s = Ok (t, s') → next_schedule_ok (base s) t (base s');
  (** The ids start over, the round is terminated and its tasks are gone. *)
  StartNextRound_contract fuel s u s' :
    StartNextRound fuel s = Ok (u, s') →
    ∃ b, TerminateTasks fuel (with_new_task_id 0 (base s)) = Ok (tt, b) ∧ base s' = clear_threads b;
  ResetCurrentRound_contract fuel s u s' :
    ResetCurrentRound fuel s = Ok (u, s') → base_ResetCurrentRound fuel (base s) = Ok (tt, base s');
}.

(** What a strategy asks its verifier when it starts a method in a thread. *)
Class StrategyAsks `{HT : Target} `{HC : !Code} `{HV : StrategyVerifier} `{HS : !Strategy}
    (asks : Verifier → nat → string → Verifier → Prop) : Prop :=
  Next_asks fuel s t s' :
    Next fuel s = Ok (t, s') → is_new t = true → ∀ c, slot (base s') (task t) = Some c →
    asks (sched_checker (base s)) (thread_id t) (name c) (sched_checker (base s')).

(** The verifier has accepted a method, and may have refused others before. *)
Inductive asked `{StrategyVerifier} : Verifier → nat → string → Verifier → Prop :=
| asked_accepts v th n v' : Verify (mk_Created n true th) v = Ok (true, v') → asked v th n v'
| asked_refuses v th m n v1 v' :
    Verify (mk_Created m true th) v = Ok (false, v1) → asked v1 th n v' → asked v th n v'.
