(* ===== verification/PickStrategy.v ===== *)
(** * PickStrategy: generating a round thread by thread (pick_strategy.h)

    The strategies that pick a thread and then either go on with its last task
    or create a new one, with their two instances: round robin
    (round_robin_strategy.h) and random (random_strategy.h).

    Random numbers come from the Standard Library's engine and distributions,
    seeded by [std::random_device]: a parameter ([Rng]) with the documented
    ranges of its functions ([RngLaws]). *)

From stdpp Require Import base gmap strings option list.
From S2P Require Import Prelude ValueWrapper History Coro Strategy.

(** [std::mt19937], [std::shuffle], [std::uniform_int_distribution] and
    [std::discrete_distribution]. *)
Class Rng := {
  rng : Type;
  shuffle : ∀ {A : Type}, list A → rng → list A * rng;
  uniform_int : Z → Z → rng → Z * rng;
  discrete : list Z → rng → Z * rng;
}.

Class RngLaws `{Rng} : Prop := {
  shuffle_perm {A} (l : list A) g : Permutation (shuffle l g).1 l;
  uniform_int_range a b g : (a ≤ b)%Z → (a ≤ (uniform_int a b g).1 ≤ b)%Z;
  discrete_range ws g :
    Forall (λ w, 0 ≤ w)%Z ws → (0 < foldr Z.add 0 ws)%Z →
    (0 ≤ (discrete ws g).1 < Z.of_nat (length ws))%Z;
}.

(** A [PickStrategy] with the fields [Sub] of its subclass. *)
Record PickState `{Target} `{StrategyVerifier} `{Rng} (Sub : Type) := mk_Pick {
  pick_base : BaseStrategy;
  pick_rng : rng;
  pick_sub : Sub;
}.
Arguments mk_Pick {_ _ _ _} _ _ _.
Arguments pick_base {_ _ _ _} _.
Arguments pick_rng {_ _ _ _} _.
Arguments pick_sub {_ _ _ _} _.

(** The virtual methods [Pick] and [PickSchedule]. *)
Class PickMethods `{Target} `{StrategyVerifier} `{Rng} (Sub : Type) := {
  Pick : stM (PickState Sub) nat;
  PickSchedule : stM (PickState Sub) nat;
}.

Section pick.
Context `{HT : Target} `{HC : !Code} `{HV : StrategyVerifier} `{HR : Rng}.
Context {Sub : Type}.

Local Abbreviation M := (stM (PickState Sub)).

Definition with_pick_base (b : BaseStrategy) (s : PickState Sub) : PickState Sub :=
  mk_Pick b (pick_rng s) (pick_sub s).
Definition with_rng (g : rng) (s : PickState Sub) : PickState Sub :=
  mk_Pick (pick_base s) g (pick_sub s).
Definition with_sub (x : Sub) (s : PickState Sub) : PickState Sub :=
  mk_Pick (pick_base s) (pick_rng s) x.

Definition in_base {A} (m : stM BaseStrategy A) : M A :=
  λ s, '(a, b) ← m (pick_base s); Ok (a, with_pick_base b s).

(** A thread whose last task cannot be resumed: the test that [Pick] and
    [PctStrategy::Next] share, [IsBlocked] being asked last. *)
Definition waiting (thread : nat) : stM BaseStrategy bool :=
  empty ← thread_empty thread;
  if (empty : bool) then mret false
  else
    r ← back_ref thread;
    parked ← task_IsParked r;
    if (parked : bool) then mret true else task_IsBlocked r.

(** A thread that has nothing to run in a replay, or whose next task is
    parked: the test that the [PickSchedule]s and [PctStrategy::NextSchedule]
    share. *)
Definition nothing_to_run (thread : nat) : stM BaseStrategy bool :=
  s ← st_get;
  tasks ← st_lift (vec_get (threads s) thread);
  task_index ← st_lift (GetNextTaskInThread thread s);
  if (task_index =? Z.of_nat (length tasks))%Z then mret true
  else task_IsParked (thread, Z.to_nat task_index).

(** The search for a constructor the verifier accepts (pick_strategy.h:44-53). *)
Fixpoint find_verified (cs : list TaskBuilder) (thread : nat) : stM BaseStrategy (option TaskBuilder) :=
  match cs with
  | [] => mret None
  | constructor :: cs =>
      s ← st_get;
      '(ok, v) ← st_lift (Verify (mk_Created (tb_name constructor) true thread) (sched_checker s));
      _ ← st_put (with_checker v s);
      if (ok : bool) then mret (Some constructor) else find_verified cs thread
  end.

(** [threads[thread].emplace_back(constructor.Build(&state, thread, new_task_id++))]. *)
Definition emplace_task (constructor : TaskBuilder) (thread : nat) : stM BaseStrategy unit :=
  s ← st_get;
  '(c, w) ← st_lift (Build constructor thread (new_task_id s) (world s));
  tasks ← st_lift (vec_get (threads s) thread);
  st_put (with_new_task_id (wrap32 (new_task_id s + 1))
           (with_world w (with_threads (<[thread := tasks ++ [c]]> (threads s)) s))).

(** The search and the new task, once the constructors are in their order. *)
Definition new_task (th : nat) : stM BaseStrategy TaskWithMetaData :=
  s ← st_get;
  verified_constructor ← find_verified (constructors s) th;
  match verified_constructor with
  | None => st_fail (AssertFailed "Oops, possible deadlock or incorrect verifier")
  | Some constructor =>
      _ ← emplace_task constructor th;
      r ← back_ref th;
      mret (mk_TaskWithMetaData r true th)
  end.

(** [threads[thread].empty() || threads[thread].back()->IsReturned()]. *)
Definition needs_new_task (thread : nat) : stM BaseStrategy bool :=
  empty ← thread_empty thread;
  if (empty : bool) then mret true
  else r ← back_ref thread; task_IsReturned r.

(** [PickStrategy::Next] (pick_strategy.h:34-66). *)
Definition pick_Next `{!PickMethods Sub} : M TaskWithMetaData :=
  current_thread ← Pick;
  fresh ← in_base (needs_new_task current_thread);
  if (fresh : bool) then
    s ← st_get;
    let '(cs, g) := shuffle (constructors (pick_base s)) (pick_rng s) in
    _ ← st_put (with_rng g (with_pick_base (with_constructors cs (pick_base s)) s));
    verified_constructor ← in_base (find_verified cs current_thread);
    match verified_constructor with
    | None => st_fail (AssertFailed "Oops, possible deadlock or incorrect verifier")
    | Some constructor =>
        _ ← in_base (emplace_task constructor current_thread);
        r ← in_base (back_ref current_thread);
        mret (mk_TaskWithMetaData r true current_thread)
    end
  else
    r ← in_base (back_ref current_thread);
    mret (mk_TaskWithMetaData r false current_thread).

Lemma in_base_eq {A} (m : stM BaseStrategy A) (s : PickState Sub) a b :
  m (pick_base s) = Ok (a, b) → in_base m s = Ok (a, with_pick_base b s).
Proof. unfold in_base. by intros ->. Qed.

Lemma new_task_eq cs (s : PickState Sub) th :
  constructors (pick_base s) = cs →
  (verified_constructor ← in_base (find_verified cs th);
   match verified_constructor with
   | None => st_fail (AssertFailed "Oops, possible deadlock or incorrect verifier")
   | Some constructor =>
       _ ← in_base (emplace_task constructor th);
       r ← in_base (back_ref th);
       mret (mk_TaskWithMetaData r true th)
   end) s = in_base (new_task th) s.
Proof.
  intros <-. destruct s as [b g x]. unfold in_base, new_task, mbind, stM_bind, st_get. simpl.
  destruct (find_verified _ _ _) as [[[bd|] b1]|]; [|done..]. simpl.
  destruct (emplace_task _ _ _) as [[u b2]|]; [|done]. simpl.
  by destruct (back_ref _ _) as [[r b3]|].
Qed.

(** The end of [NextSchedule], for the picked thread (pick_strategy.h:71-76,
    pct_strategy.h:143-149). *)
Definition schedule_thread (current_thread : nat) : stM BaseStrategy TaskWithMetaData :=
  s ← st_get;
  next_task_index ← st_lift (GetNextTaskInThread current_thread s);
  previous ← st_lift (vec_get (round_schedule s) current_thread);
  let is_new := negb (previous =? next_task_index)%Z in
  schedule ← st_lift (vec_set (round_schedule s) current_thread next_task_index);
  _ ← st_put (with_schedule schedule s);
  let r := (current_thread, Z.to_nat next_task_index) in
  _ ← get_task r;
  mret (mk_TaskWithMetaData r is_new current_thread).

Definition pick_NextSchedule `{!PickMethods Sub} : M TaskWithMetaData :=
  current_thread ← PickSchedule;
  in_base (schedule_thread current_thread).

(** [PickStrategy::StartNextRound] (pick_strategy.h:79-92). *)
Definition pick_StartNextRound (fuel : nat) : M unit :=
  _ ← in_base (st_modify (with_new_task_id 0));
  _ ← in_base (TerminateTasks fuel);
  in_base (st_modify clear_threads).

#[global] Instance PickStrategy `{!PickMethods Sub} : Strategy := {|
  St := PickState Sub;
  base := pick_base;
  set_base := with_pick_base;
  Next _ := pick_Next;
  NextSchedule := pick_NextSchedule;
  StartNextRound := pick_StartNextRound;
  ResetCurrentRound fuel := in_base (base_ResetCurrentRound fuel);
|}.
End pick.

(** ** The shared operations *)

Section pick_facts.
Context `{HT : Target} `{HC : !Code} `{HV : StrategyVerifier}.

(** Whether the last task of a thread is parked or blocked. *)
Definition waits (s : BaseStrategy) (th : nat) : bool :=
  match threads s !! th ≫= last with
  | Some c => IsParked c (world s) || blocked_on (fstate c) (world s)
  | None => false
  end.

Lemma thread_empty_eq s th thread :
  threads s !! th = Some thread →
  thread_empty th s = Ok (match thread with [] => true | _ => false end, s).
Proof.
  intros Ht. unfold thread_empty. rewrite st_get_bind. by st_lift_step (vec_get_Some _ _ _ Ht).
Qed.

Lemma back_ref_eq s th thread n :
  threads s !! th = Some thread → length thread = S n → back_ref th s = Ok ((th, n), s).
Proof.
  intros Ht Hn. unfold back_ref. rewrite st_get_bind. st_lift_step (vec_get_Some _ _ _ Ht).
  by rewrite Hn.
Qed.

Lemma back_slot s th thread n c :
  threads s !! th = Some thread → length thread = S n →
  slot s (th, n) = Some c ↔ last thread = Some c.
Proof. intros Ht Hn. rewrite slot_Some, last_lookup, Hn. simpl. rewrite Ht. naive_solver. Qed.

Lemma last_is_Some_length {A} (l : list A) n : length l = S n → ∃ x, last l = Some x.
Proof. intros Hl. rewrite last_lookup, Hl. apply lookup_lt_is_Some_2. simpl. lia. Qed.

(** The test returns whether the thread waits; it changes nothing when it
    does, and otherwise at most forgets a futex. *)
Lemma waiting_eq s th :
  th < length (threads s) →
  ∃ s', waiting th s = Ok (waits s th, s') ∧ looked s s' ∧
    (waits s th = true → s' = s) ∧ ∀ th', waits s' th' = waits s th'.
Proof.
  intros [thread Ht]%lookup_lt_is_Some_2. unfold waiting, waits.
  st_step (thread_empty_eq s th thread Ht). rewrite Ht. cbn [mbind option_bind].
  destruct (length thread) as [|n] eqn:Hn.
  { apply nil_length_inv in Hn as ->. exists s. by split_and!; [|reflexivity|..]. }
  destruct (last_is_Some_length thread n Hn) as [c Hc]. rewrite Hc.
  destruct thread as [|c0 thread0] eqn:Hthread; [done|]. rewrite <-Hthread in *.
  st_step (back_ref_eq s th thread n Ht Hn).
  assert (slot s (th, n) = Some c) as Hslot by (by eapply back_slot).
  assert (task_IsParked (th, n) s = Ok (IsParked c (world s), s)) as Hp.
  { unfold task_IsParked. rewrite (st_bind_eq _ _ s c s) by (by apply get_task_Ok). done. }
  st_step Hp. destruct (IsParked c (world s)) eqn:Hpark.
  { exists s. by split_and!; [|reflexivity|..]. }
  assert (task_IsBlocked (th, n) s = Ok (blocked_on (fstate c) (world s),
    set_slot (th, n) (IsBlocked c (world s)).2 s)) as Hb by (apply task_IsBlocked_Ok; eauto).
  eexists. split; [exact Hb|]. split; [by eapply task_IsBlocked_looked|].
  unfold IsBlocked. destruct (blocked_on (fstate c) (world s)) eqn:Hbl; cbn [snd].
  - by rewrite set_slot_id.
  - split; [done|]. intros th'. unfold set_slot; simpl.
    destruct (decide (th' = th)) as [->|]; [|by rewrite list_lookup_alter_ne].
    rewrite list_lookup_alter_eq, Ht. simpl. rewrite Hc, Hpark, Hbl. rewrite last_lookup, length_insert, Hn. simpl.
    rewrite list_lookup_insert_eq by lia. simpl. unfold IsParked in *; simpl. by rewrite Hpark.
Qed.

Lemma waiting_Ok th s w s' :
  waiting th s = Ok (w, s') →
  th < length (threads s) ∧ looked s s' ∧ waits s th = w ∧ ∀ th', waits s' th' = waits s th'.
Proof.
  intros H. assert (th < length (threads s)) as Hth.
  { unfold waiting, thread_empty in H. inv_st H. apply vec_get_Ok in H0. by eapply lookup_lt_Some. }
  destruct (waiting_eq s th Hth) as (s1 & E & Hev & _ & Hno). rewrite E in H. by simplify_eq.
Qed.

Lemma nothing_to_run_Ok th s w s' :
  nothing_to_run th s = Ok (w, s') → th < length (threads s) ∧ s' = s.
Proof.
  unfold nothing_to_run. intros H. inv_st H.
  match goal with E : vec_get _ _ = Ok _ |- _ => apply vec_get_Ok, lookup_lt_Some in E end.
  split; [done|]. destruct (_ =? _)%Z; [by inv_st H|].
  unfold task_IsParked in H. apply st_bind_Ok in H as (c & s1 & [_ ->]%get_task_Ok & H). by inv_st H.
Qed.
(** The threads that can run. *)
Definition ready (b : BaseStrategy) (ths : list nat) : list nat :=
  filter (λ i, waits b i = false) ths.

Definition same_waits (b b' : BaseStrategy) : Prop :=
  length (threads b') = length (threads b) ∧ ∀ i, waits b' i = waits b i.

#[global] Instance same_waits_preorder : PreOrder same_waits.
Proof.
  split; [done|]. intros b1 b2 b3 [E1 H1] [E2 H2].
  split; [congruence|]. intros i. by rewrite H2, H1.
Qed.

Lemma ready_same b b' ths : same_waits b b' → ready b' ths = ready b ths.
Proof.
  intros [_ H]. apply list_filter_iff. intros i. by rewrite H.
Qed.
End pick_facts.

(** What [Next] and [NextSchedule] rely on: a picked thread does not wait, and
    picking a thread for a replay changes nothing in the round. *)
Class PickLaws `{HT : Target} `{HV : StrategyVerifier} `{HR : Rng} {Sub} `{HP : !PickMethods Sub} : Prop := {
  Pick_law (s : PickState Sub) t s' :
    Pick s = Ok (t, s') →
    t < length (threads (pick_base s)) ∧ looked (pick_base s) (pick_base s') ∧
    waits (pick_base s') t = false;
  PickSchedule_law (s : PickState Sub) t s' :
    PickSchedule s = Ok (t, s') → t < length (threads (pick_base s)) ∧ pick_base s' = pick_base s;
}.
Arguments PickLaws {_ _ _} Sub {_}.

(** ** The contract of [Strategy] *)

Section pick_contract.
Context `{HT : Target} `{HC : !Code} `{HV : StrategyVerifier} `{HR : Rng}.

Lemma needs_new_task_Ok th s f s' :
  needs_new_task th s = Ok (f, s') →
  s' = s ∧ ∃ thread, threads s !! th = Some thread ∧
    (if f then thread_done thread
     else ∃ n c, length thread = S n ∧ last thread = Some c ∧ IsReturned c = false).
Proof.
  unfold needs_new_task, thread_empty. intros H.
  apply st_bind_Ok in H as (e & s1 & He & H). inv_st He. apply vec_get_Ok in H0.
  destruct a as [|c0 thread0] eqn:Ht; rewrite <-Ht in *.
  - inv_st H. split; [done|]. exists []. split; [by subst|]. done.
  - destruct (length a) as [|n] eqn:Hn; [by subst|].
    st_step_in H (back_ref_eq s1 th a n H0 Hn). apply task_IsReturned_Ok in H as (c & Hc & -> & ->).
    apply (back_slot s1 th a n c H0 Hn) in Hc. split; [done|]. exists a. split; [done|].
    destruct (IsReturned c) eqn:Hr; [|by exists n, c]. intros c' Hc'. congruence.
Qed.

Lemma find_verified_Ok cs th s r s' :
  find_verified cs th s = Ok (r, s') →
  (∃ v, s' = with_checker v s) ∧
  ∀ b, r = Some b → b ∈ cs ∧ asked (sched_checker s) th (tb_name b) (sched_checker s').
Proof.
  revert s. induction cs as [|b cs IH]; intros s H; cbn [find_verified] in H.
  - inv_st H. split; [|done]. exists (sched_checker s'). by destruct s'.
  - apply st_bind_Ok in H as (? & ? & [= <- <-] & H). apply st_bind_Ok in H as ([ok v] & s1 & H1 & H).
    inv_st H1. rewrite st_put_bind in H. destruct ok.
    + inv_st H. split; [eauto|]. intros b' [= ->]. split; [by left|by constructor].
    + apply IH in H as [[v' ->] Hin]. split; [by exists v'|]. intros b' Hb'.
      destruct (Hin b' Hb') as [? ?]. split; [by right|by eapply asked_refuses].
Qed.

Lemma Build_Ok b th i w c w' :
  Build b th i w = Ok (c, w') →
  IsReturned c = false ∧ GetId c = i ∧ name c = tb_name b.
Proof.
  unfold Build. intros H. apply bind_Ok in H as ([a w1] & _ & H).
  destruct (generated_token w1); by simplify_eq.
Qed.

Lemma emplace_task_Ok b th s u s' :
  emplace_task b th s = Ok (u, s') →
  ∃ c thread, Build b th (new_task_id s) (world s) = Ok (c, world s') ∧
    threads s !! th = Some thread ∧ threads s' = <[th := thread ++ [c]]> (threads s) ∧
    new_task_id s' = wrap32 (new_task_id s + 1) ∧ removed_tasks s' = removed_tasks s ∧
    round_schedule s' = round_schedule s ∧ constructors s' = constructors s ∧ sched_checker s' = sched_checker s.
Proof.
  unfold emplace_task. intros H. rewrite st_get_bind in H.
  apply st_bind_Ok in H as ([c w] & s1 & H1 & H). inv_st H1.
  apply st_bind_Ok in H as (thread & s2 & H2 & H). inv_st H2. apply vec_get_Ok in H1. inv_st H.
  exists c, thread. done.
Qed.

Lemma schedule_thread_Ok th s t s' :
  schedule_thread th s = Ok (t, s') → next_schedule_ok s t s'.
Proof.
  unfold schedule_thread. intros H. rewrite st_get_bind in H.
  apply st_bind_Ok in H as (j & s1 & H1 & H). inv_st H1.
  apply st_bind_Ok in H as (p & s2 & H2 & H). inv_st H2.
  apply st_bind_Ok in H as (sch & s3 & H3 & H). inv_st H3.
  rewrite st_put_bind in H. apply st_bind_Ok in H as (c & s4 & [Hc ->]%get_task_Ok & H). inv_st H.
  apply vec_get_Ok in H1. apply vec_set_Ok in H2 as [_ ->].
  pose proof (GetNextTaskInThread_nonneg _ _ _ H0) as Hj.
  split; simpl; rewrite ?Z2Nat.id by done; try done.
  rewrite H1. f_equal. destruct (Z.eqb_spec p j) as [->|Hne].
  - by rewrite bool_decide_true.
  - rewrite bool_decide_false; [done|]. congruence.
Qed.

(** What [next_ok] asks for, when the picked thread goes on with its task or
    gets a new one. *)
Lemma continue_ok b b1 th r b2 :
  looked b b1 → waits b1 th = false → needs_new_task th b1 = Ok (false, b1) →
  back_ref th b1 = Ok (r, b2) → next_ok b (mk_TaskWithMetaData r false th) b2.
Proof.
  intros Hev Hw (_ & thread & Ht & n & c & Hn & Hc & Hr)%needs_new_task_Ok Hb.
  rewrite (back_ref_eq _ th thread n Ht Hn) in Hb. injection Hb as <- <-.
  unfold waits in Hw. rewrite Ht in Hw. cbn [mbind option_bind] in Hw. rewrite Hc in Hw.
  apply orb_false_iff in Hw as [? ?]. by eapply (next_running _ _ _ n c thread).
Qed.

Lemma new_task_ok b b1 cs th t b2 :
  looked b b1 → needs_new_task th b1 = Ok (true, b1) → Permutation cs (constructors b1) →
  new_task th (with_constructors cs b1) = Ok (t, b2) →
  next_ok b t b2 ∧ is_new t = true ∧ thread_id t = th ∧
  ∀ c, slot b2 (task t) = Some c → asked (sched_checker b) th (name c) (sched_checker b2).
Proof.
  intros Hev (_ & thread & Ht & Hf)%needs_new_task_Ok Hperm H. unfold new_task in H. rewrite st_get_bind in H.
  apply st_bind_Ok in H as (o & b3 & [[v ->] Hin]%find_verified_Ok & H).
  destruct o as [constructor|]; [|done]. destruct (Hin constructor eq_refl) as [Hin' Hasked].
  apply st_bind_Ok in H as (u & b4 & He%emplace_task_Ok & H).
  destruct He as (c & thread' & Hbuild & Ht' & Hths & Hnew & Hrm & Hsch & Hcs & Hck).
  apply st_bind_Ok in H as (r & b5 & Hr & H). injection H as <- <-.
  simpl in *. assert (thread' = thread) as -> by congruence.
  assert (threads b4 !! th = Some (thread ++ [c])) as Hb4.
  { rewrite Hths, list_lookup_insert_eq; [done|by eapply lookup_lt_Some]. }
  rewrite (back_ref_eq b4 th _ (length thread) Hb4) in Hr by (rewrite length_app; simpl; lia).
  simplify_eq. pose proof Hev as [_ _ Eid Erm Esch Eck Ecs]. split_and!; [|done..|].
  - eapply (next_new _ _ _ b1 constructor c thread); simpl; try done; try congruence.
    + by rewrite <-Ecs, <-Hperm.
    + intros b'. by rewrite Hperm, Ecs.
  - intros c1 (thread1 & Ht1 & Hc1)%slot_Some. simpl in *. assert (thread1 = thread ++ [c]) as -> by congruence.
    rewrite lookup_app_r, Nat.sub_diag in Hc1 by done. injection Hc1 as <-.
    destruct (Build_Ok _ _ _ _ _ _ Hbuild) as (_ & _ & ->). rewrite <-Eck. exact Hasked.
Qed.

Section laws.
Context {Sub} `{HP : !PickMethods Sub} `{HL : !PickLaws Sub} `{HRL : !RngLaws}.

Lemma pick_Next_ok s t s' :
  pick_Next s = Ok (t, s') →
  next_ok (pick_base s) t (pick_base s') ∧
  (is_new t = true → ∀ c, slot (pick_base s') (task t) = Some c →
     asked (sched_checker (pick_base s)) (thread_id t) (name c) (sched_checker (pick_base s'))).
Proof.
  unfold pick_Next. intros H. apply st_bind_Ok in H as (th & s1 & (_ & Hev & Hw)%Pick_law & H).
  apply st_bind_Ok in H as (f & s2 & H1 & H).
  unfold in_base in H1. apply bind_Ok in H1 as ([f' b] & Hn & [= <- <-]).
  pose proof Hn as [-> _]%needs_new_task_Ok. destruct f'.
  - rewrite st_get_bind in H. simpl in H.
    pose proof (shuffle_perm (constructors (pick_base s1)) (pick_rng s1)) as Hperm.
    destruct (shuffle _ _) as [cs g]. simpl in Hperm. rewrite st_put_bind, new_task_eq in H by done.
    unfold in_base in H. apply bind_Ok in H as ([t' b] & Ht & [= <- <-]).
    destruct (new_task_ok _ _ cs th t' b Hev Hn Hperm Ht) as (Hok & _ & Hth & Ha). split; [exact Hok|].
    intros _ c Hc. rewrite Hth. by apply Ha.
  - apply st_bind_Ok in H as (r & s3 & H1 & H). inv_st H.
    unfold in_base in H1. apply bind_Ok in H1 as ([r' b] & Hr & [= <- <-]).
    split; [by eapply continue_ok|done].
Qed.

#[global] Instance PickStrategy_laws : StrategyLaws.
Proof.
  split; simpl.
  - done.
  - intros _ s t s' H. by apply pick_Next_ok.
  - intros s t s' H. unfold pick_NextSchedule in H.
    apply st_bind_Ok in H as (th & s1 & [_ E]%PickSchedule_law & H).
    unfold in_base in H. apply bind_Ok in H as ([t' b] & Ht%schedule_thread_Ok & [= <- <-]).
    by rewrite E in Ht.
  - intros fuel s u s' H. unfold pick_StartNextRound in H.
    apply st_bind_Ok in H as (u1 & s1 & [= <- <-] & H).
    apply st_bind_Ok in H as (u2 & s2 & H2 & H). injection H as _ <-.
    unfold in_base in H2. apply bind_Ok in H2 as ([[] b] & Hb & [= <- <-]).
    by exists b.
  - intros fuel s u s' H. unfold in_base in H.
    apply bind_Ok in H as ([[] b] & Hb & [= <- <-]). done.
Qed.

(** The verifier is asked before a method starts. *)
#[global] Instance PickStrategy_asks : StrategyAsks asked.
Proof. intros fuel s t s' H. by apply pick_Next_ok. Qed.
End laws.
End pick_contract.

(** ** Round robin (round_robin_strategy.h) *)

Module RoundRobin.
Section round_robin.
Context `{HT : Target} `{HC : !Code} `{HV : StrategyVerifier} `{HR : Rng}.

(** The only field of the class, [size_t next_task]. *)
Record RoundRobinStrategy := mk_RoundRobin { next_task : Z }.

Local Abbreviation M := (stM (PickState RoundRobinStrategy)).

(** [(next_task++) % threads.size()]. *)
Definition advance_next_task : M nat :=
  s ← st_get;
  let n := next_task (pick_sub s) in
  _ ← st_put (with_sub (mk_RoundRobin (wrapu64 (n + 1))) s);
  mret (Z.to_nat (n `mod` Z.of_nat (length (threads (pick_base s))))).

(** The [for] loop of [Pick] and of [PickSchedule], with [attempts] left:
    the first thread in turn that is not to be skipped. *)
Fixpoint pick_loop (skip : nat → stM BaseStrategy bool) (attempts : nat) : M nat :=
  match attempts with
  | 0 => st_fail (AssertFailed "deadlock")
  | S attempts =>
      cur ← advance_next_task;
      continue ← in_base (skip cur);
      if (continue : bool) then pick_loop skip attempts else mret cur
  end.

Definition Pick : M nat :=
  s ← st_get; pick_loop waiting (length (threads (pick_base s))).
Definition PickSchedule : M nat :=
  s ← st_get; pick_loop nothing_to_run (length (threads (pick_base s))).

#[global] Instance RoundRobin_methods : PickMethods RoundRobinStrategy :=
  {| PickStrategy.Pick := Pick; PickStrategy.PickSchedule := PickSchedule |}.

Definition init (threads_count : nat) (constructors : list TaskBuilder) (g : rng)
  : PickState RoundRobinStrategy :=
  mk_Pick (base_init threads_count constructors) g (mk_RoundRobin 0).

(** ** Fairness *)

(** The thread [k] places after [next_task]. *)
Definition turn (s : PickState RoundRobinStrategy) (k : nat) : nat :=
  Z.to_nat ((next_task (pick_sub s) + Z.of_nat k) `mod` Z.of_nat (length (threads (pick_base s)))).

(** [next_task] has not wrapped around, and will not while one pick runs. *)
Definition in_range (s : PickState RoundRobinStrategy) : Prop :=
  (0 ≤ next_task (pick_sub s))%Z ∧
  (next_task (pick_sub s) + Z.of_nat (length (threads (pick_base s))) < 2 ^ 64)%Z.

Lemma turn_lt s k : 0 < length (threads (pick_base s)) → turn s k < length (threads (pick_base s)).
Proof.
  intros Hn. unfold turn.
  pose proof (Z.mod_pos_bound (next_task (pick_sub s) + Z.of_nat k)
    (Z.of_nat (length (threads (pick_base s))))). lia.
Qed.

Lemma advance_eq s :
  (0 ≤ next_task (pick_sub s))%Z → (next_task (pick_sub s) + 1 < 2 ^ 64)%Z →
  advance_next_task s = Ok (turn s 0, with_sub (mk_RoundRobin (next_task (pick_sub s) + 1)) s).
Proof.
  intros. unfold advance_next_task, turn. rewrite st_get_bind, st_put_bind, wrapu64_id by lia.
  by rewrite Z.add_0_r.
Qed.

(** The first thread in turn that does not wait, or a deadlock. *)
Lemma pick_loop_waiting attempts s :
  0 < length (threads (pick_base s)) → (0 ≤ next_task (pick_sub s))%Z →
  (next_task (pick_sub s) + Z.of_nat attempts < 2 ^ 64)%Z →
  (∃ k s', k < attempts ∧ pick_loop waiting attempts s = Ok (turn s k, s') ∧
    (∀ j, j < k → waits (pick_base s) (turn s j) = true) ∧
    waits (pick_base s) (turn s k) = false ∧
    next_task (pick_sub s') = (next_task (pick_sub s) + Z.of_nat k + 1)%Z ∧
    looked (pick_base s) (pick_base s') ∧ waits (pick_base s') (turn s k) = false) ∨
  (pick_loop waiting attempts s = Fail (AssertFailed "deadlock") ∧
    ∀ j, j < attempts → waits (pick_base s) (turn s j) = true).
Proof.
  revert s. induction attempts as [|attempts IH]; intros s Hn H0 Hlt; cbn [pick_loop].
  { right. split; [done|lia]. }
  st_step (advance_eq s H0 ltac:(lia)).
  set (s1 := with_sub (mk_RoundRobin (next_task (pick_sub s) + 1)) s).
  destruct (waiting_eq (pick_base s) (turn s 0)) as (b & Hw & Hev & Hyes & Hno); [by apply turn_lt|].
  assert (in_base (waiting (turn s 0)) s1 = Ok (waits (pick_base s) (turn s 0), with_pick_base b s1))
    as Hin by (unfold in_base; simpl; by rewrite Hw).
  st_step Hin. destruct (waits (pick_base s) (turn s 0)) eqn:Hwaits.
  - rewrite (Hyes eq_refl) in *. change (with_pick_base (pick_base s) s1) with s1.
    assert (∀ k, turn s1 k = turn s (S k)) as Hturn.
    { intros k. unfold turn; simpl. do 2 f_equal. lia. }
    destruct (IH s1) as [(k & s' & Hk & E & Hbefore & Hk' & Hnext & Hrest)|[E Hall]]; simpl; [exact Hn|lia|lia| |].
    + left. exists (S k), s'. rewrite <-Hturn. destruct Hrest as (? & ?). split_and!; [lia|exact E| |exact Hk'| |done..].
      * intros [|j] Hj; [done|]. rewrite <-Hturn. apply Hbefore. lia.
      * rewrite Hnext. simpl. lia.
    + right. split; [done|]. intros [|j] Hj; [done|]. rewrite <-Hturn. apply Hall. lia.
  - left. exists 0, (with_pick_base b s1). split_and!; [lia|done|lia|done|simpl; lia|done|by rewrite <-Hwaits; apply Hno].
Qed.

Lemma pick_loop_Ok (R : BaseStrategy → BaseStrategy → Prop) `{!PreOrder R} skip attempts s t s' :
  (∀ th b w b', skip th b = Ok (w, b') → R b b') →
  pick_loop skip attempts s = Ok (t, s') →
  ∃ b, R (pick_base s) b ∧ skip t b = Ok (false, pick_base s').
Proof.
  intros HR'. revert s. induction attempts as [|attempts IH]; intros s H; [done|]. cbn [pick_loop] in H.
  apply st_bind_Ok in H as (cur & s1 & H1 & H). apply st_bind_Ok in H as (w & s2 & H2 & H).
  assert (pick_base s1 = pick_base s) as E.
  { unfold advance_next_task in H1. inv_st H1. done. }
  unfold in_base in H2. apply bind_Ok in H2 as ([w' b] & Hw & [= <- <-]). rewrite E in Hw.
  destruct w'.
  - apply IH in H as (b' & HRb & Hb). exists b'. split; [|done]. etransitivity; [by eapply HR'|done].
  - inv_st H. by exists (pick_base s).
Qed.

#[global] Instance RoundRobin_laws : PickLaws RoundRobinStrategy.
Proof.
  split; intros s t s'; simpl.
  - unfold Pick. rewrite st_get_bind. intros H.
    apply (pick_loop_Ok looked) in H as (b & Hev & (? & ? & Hw & Hw')%waiting_Ok); [specialize (Hw' t)|].
    + rewrite <-(looked_threads_length _ _ Hev). split_and!; [done|by etransitivity|congruence].
    + by intros ???? (_ & ? & _)%waiting_Ok.
  - unfold PickSchedule. rewrite st_get_bind. intros H.
    apply (pick_loop_Ok eq) in H as (b & <- & [? ?]%nothing_to_run_Ok); [done|].
    by intros ???? [_ ->]%nothing_to_run_Ok.
Qed.

(** [RoundRobinStrategy::Pick] returns the first thread, in turn from
    [next_task] on, whose last task is neither parked nor waiting on a
    futex, and moves [next_task] past it; it reports a deadlock exactly when
    every thread waits. *)
Theorem Pick_spec s :
  0 < length (threads (pick_base s)) → in_range s →
  (∃ k s', k < length (threads (pick_base s)) ∧ Pick s = Ok (turn s k, s') ∧
    (∀ j, j < k → waits (pick_base s) (turn s j) = true) ∧
    waits (pick_base s) (turn s k) = false ∧
    next_task (pick_sub s') = (next_task (pick_sub s) + Z.of_nat k + 1)%Z) ∨
  (Pick s = Fail (AssertFailed "deadlock") ∧
    ∀ th, th < length (threads (pick_base s)) → waits (pick_base s) th = true).
Proof.
  intros Hn [H0 Hlt]. unfold Pick. rewrite st_get_bind.
  destruct (pick_loop_waiting (length (threads (pick_base s))) s Hn H0 Hlt)
    as [(k & s' & ? & ? & ? & ? & ? & _)|[E Hall]]; [left; eauto 10|]. right. split; [done|].
  intros th Hth. set (n := Z.of_nat (length (threads (pick_base s)))).
  set (j := ((Z.of_nat th - next_task (pick_sub s)) `mod` n)%Z).
  assert (0 ≤ j < n)%Z by (apply Z.mod_pos_bound; lia).
  replace th with (turn s (Z.to_nat j)); [apply Hall; lia|].
  unfold turn. fold n. rewrite Z2Nat.id by lia. unfold j.
  rewrite Z.add_mod_idemp_r by lia. replace (_ + _)%Z with (Z.of_nat th) by lia.
  rewrite Z.mod_small by lia. lia.
Qed.

(** How many places after [next_task] the thread [th] comes. *)
Definition distance (s : PickState RoundRobinStrategy) (th : nat) : Z :=
  ((Z.of_nat th - next_task (pick_sub s)) `mod` Z.of_nat (length (threads (pick_base s))))%Z.

Lemma distance_turn s k :
  k < length (threads (pick_base s)) → distance s (turn s k) = Z.of_nat k.
Proof.
  intros Hk. set (n := Z.of_nat (length (threads (pick_base s)))).
  unfold distance, turn. fold n. rewrite Z2Nat.id by (apply Z.mod_pos_bound; lia).
  rewrite Zminus_mod_idemp_l. replace (_ - _)%Z with (Z.of_nat k) by lia.
  by rewrite Z.mod_small by lia.
Qed.

(** C31: Round robin is fair: when a thread could run and another one was
    picked, the thread comes strictly earlier in the next turn; since its
    distance is below the number of threads, it is picked after fewer picks
    than there are threads. *)
Theorem Pick_fair s t s' th :
  in_range s → th < length (threads (pick_base s)) → waits (pick_base s) th = false →
  Pick s = Ok (t, s') → t ≠ th →
  (0 ≤ distance s' th < distance s th)%Z ∧ (distance s th < Z.of_nat (length (threads (pick_base s))))%Z.
Proof.
  intros [H0 Hlt] Hth Hw HP Hne. assert (0 < length (threads (pick_base s))) as Hn by lia.
  unfold Pick in HP. rewrite st_get_bind in HP.
  destruct (pick_loop_waiting _ s Hn H0 Hlt)
    as [(k & s1 & Hk & E & Hbefore & _ & Hnext & Hev & _)|[E _]]; [|congruence].
  rewrite E in HP. simplify_eq. set (n := Z.of_nat (length (threads (pick_base s)))).
  assert (0 ≤ distance s th < n)%Z as Hd by (apply Z.mod_pos_bound; lia).
  assert (turn s (Z.to_nat (distance s th)) = th) as Hturn.
  { unfold turn, distance. fold n. rewrite Z2Nat.id by (apply Z.mod_pos_bound; lia).
    rewrite Z.add_mod_idemp_r by lia. replace (_ + _)%Z with (Z.of_nat th) by lia.
    rewrite Z.mod_small by lia. lia. }
  assert (k < Z.to_nat (distance s th)) as Hkd.
  { destruct (decide (k = Z.to_nat (distance s th))) as [->|]; [done|].
    destruct (decide (Z.to_nat (distance s th) < k)) as [Hl|]; [|lia].
    specialize (Hbefore _ Hl). congruence. }
  split; [|lia]. unfold distance at 1 2. rewrite (looked_threads_length _ _ Hev), Hnext. fold n.
  replace (Z.of_nat th - (next_task (pick_sub s) + Z.of_nat k + 1))%Z
    with (Z.of_nat th - next_task (pick_sub s) - (Z.of_nat k + 1))%Z by lia.
  rewrite <-Zminus_mod_idemp_l.
  change ((Z.of_nat th - next_task (pick_sub s)) `mod` n)%Z with (distance s th).
  rewrite Z.mod_small by lia. lia.
Qed.
End round_robin.
End RoundRobin.

(** ** Random (random_strategy.h) *)

Module Random.
Section random.
Context `{HT : Target} `{HC : !Code} `{HV : StrategyVerifier} `{HR : Rng}.

Record RandomStrategy := mk_Random { weights : list Z; pick_weights : list Z }.

Local Abbreviation M := (stM (PickState RandomStrategy)).

(** The first loop: the weights of the threads that can run. *)
Fixpoint collect (skip : nat → stM BaseStrategy bool) (threads : list nat) : M unit :=
  match threads with
  | [] => mret tt
  | i :: threads =>
      continue ← in_base (skip i);
      _ ← (if (continue : bool) then mret tt
           else
             s ← st_get;
             w ← st_lift (vec_get (weights (pick_sub s)) i);
             st_put (with_sub (mk_Random (weights (pick_sub s)) (pick_weights (pick_sub s) ++ [w])) s));
      collect skip threads
  end.

(** The second loop: the [num]-th of these threads. *)
Fixpoint select (skip : nat → stM BaseStrategy bool) (threads : list nat) (num : Z) : M nat :=
  match threads with
  | [] => st_fail (AssertFailed "Cannot pick thread to continue round")
  | i :: threads =>
      continue ← in_base (skip i);
      if (continue : bool) then select skip threads num
      else if (num =? 0)%Z then mret i
      else select skip threads (num - 1)
  end.

Definition pick_with (skip : nat → stM BaseStrategy bool) : M nat :=
  _ ← st_modify (λ s, with_sub (mk_Random (weights (pick_sub s)) []) s);
  s ← st_get;
  let indexes := seq 0 (length (threads (pick_base s))) in
  _ ← collect skip indexes;
  s ← st_get;
  _ ← st_assert "deadlock" (negb (bool_decide (pick_weights (pick_sub s) = [])));
  let '(num, g) := discrete (pick_weights (pick_sub s)) (pick_rng s) in
  _ ← st_put (with_rng g s);
  select skip indexes num.

Definition Pick : M nat := pick_with waiting.
Definition PickSchedule : M nat := pick_with nothing_to_run.

#[global] Instance Random_methods : PickMethods RandomStrategy :=
  {| PickStrategy.Pick := Pick; PickStrategy.PickSchedule := PickSchedule |}.

Definition init (threads_count : nat) (constructors : list TaskBuilder) (weights : list Z) (g : rng)
  : PickState RandomStrategy :=
  mk_Pick (base_init threads_count constructors) g (mk_Random weights []).

(** ** The contract *)

Section with_skip.
Context (R : BaseStrategy → BaseStrategy → Prop) `{!PreOrder R}.
Context (skip : nat → stM BaseStrategy bool) (Hskip : ∀ th b w b', skip th b = Ok (w, b') → R b b').

Lemma in_base_Ok {A} (m : stM BaseStrategy A) (s : PickState RandomStrategy) a s' :
  in_base m s = Ok (a, s') ↔ ∃ b, m (pick_base s) = Ok (a, b) ∧ s' = with_pick_base b s.
Proof.
  unfold in_base. rewrite bind_Ok. split.
  - intros ([a' b] & Hm & [= <- <-]). eauto.
  - intros (b & Hm & ->). by exists (a, b).
Qed.

Lemma collect_Ok ths s u s' : collect skip ths s = Ok (u, s') → R (pick_base s) (pick_base s').
Proof.
  revert s. induction ths as [|th ths IH]; intros s H; cbn [collect] in H; [by inv_st H|].
  apply st_bind_Ok in H as (w & s1 & (b & Hw & ->)%in_base_Ok & H).
  apply st_bind_Ok in H as (u1 & s2 & H2 & H). etransitivity; [by eapply Hskip|].
  apply IH in H. destruct w; inv_st H2; done.
Qed.

Lemma select_Ok ths num s t s' :
  select skip ths num s = Ok (t, s') →
  ∃ b, R (pick_base s) b ∧ skip t b = Ok (false, pick_base s').
Proof.
  revert num s. induction ths as [|th ths IH]; intros num s H; cbn [select] in H; [done|].
  apply st_bind_Ok in H as (w & s1 & (b & Hw & ->)%in_base_Ok & H).
  assert (∀ n, select skip ths n (with_pick_base b s) = Ok (t, s') →
    ∃ b, R (pick_base s) b ∧ skip t b = Ok (false, pick_base s')) as Hrec.
  { intros n (b' & HR1 & Hb)%IH. exists b'. split; [|done]. etransitivity; [by eapply Hskip|done]. }
  destruct w; [by eapply Hrec|]. destruct (num =? 0)%Z; [|by eapply Hrec].
  inv_st H. by exists (pick_base s).
Qed.

Lemma pick_with_Ok s t s' :
  pick_with skip s = Ok (t, s') →
  ∃ b, R (pick_base s) b ∧ skip t b = Ok (false, pick_base s').
Proof.
  unfold pick_with. rewrite st_modify_bind, st_get_bind. intros H.
  apply st_bind_Ok in H as (u & s1 & H1%collect_Ok & H). rewrite st_get_bind in H.
  apply st_bind_Ok in H as (u' & s2 & [_ ->]%st_assert_Ok & H).
  destruct (discrete _ _) as [num g]. rewrite st_put_bind in H.
  apply select_Ok in H as (b & HR1 & Hb). exists b. split; [|done]. by etransitivity.
Qed.
End with_skip.

#[global] Instance Random_laws : PickLaws RandomStrategy.
Proof.
  split; intros s t s'; simpl.
  - intros H. apply (pick_with_Ok looked) in H as (b & Hev & (? & ? & Hw & Hw')%waiting_Ok).
    + specialize (Hw' t). rewrite <-(looked_threads_length _ _ Hev).
      split_and!; [done|by etransitivity|congruence].
    + by intros ???? (_ & ? & _)%waiting_Ok.
  - intros H. apply (pick_with_Ok eq) in H as (b & <- & [? ?]%nothing_to_run_Ok); [done|].
    by intros ???? [_ ->]%nothing_to_run_Ok.
Qed.

(** ** The distribution *)

Lemma waiting_step i (s : PickState RandomStrategy) :
  i < length (threads (pick_base s)) →
  ∃ b, in_base (waiting i) s = Ok (waits (pick_base s) i, with_pick_base b s) ∧
    same_waits (pick_base s) b.
Proof.
  intros Hi. destruct (waiting_eq (pick_base s) i Hi) as (b & Hw & Hev & _ & Hno).
  exists b. split; [by unfold in_base; rewrite Hw|]. split; [by apply looked_threads_length|done].
Qed.

Lemma collect_waiting ths s :
  (∀ i, i ∈ ths → i < length (threads (pick_base s))) →
  length (threads (pick_base s)) ≤ length (weights (pick_sub s)) →
  ∃ s' ws, collect waiting ths s = Ok (tt, s') ∧ same_waits (pick_base s) (pick_base s') ∧
    pick_rng s' = pick_rng s ∧ weights (pick_sub s') = weights (pick_sub s) ∧
    pick_weights (pick_sub s') = pick_weights (pick_sub s) ++ ws ∧
    length ws = length (ready (pick_base s) ths) ∧ Forall (λ w, w ∈ weights (pick_sub s)) ws.
Proof.
  revert s. induction ths as [|i ths IH]; intros s Hin Hlen; cbn [collect].
  { exists s, []. rewrite app_nil_r. split_and!; try done. }
  destruct (waiting_step i s) as (b & E & Hsame); [apply Hin; by left|]. st_step E.
  unfold ready. rewrite filter_cons.
  destruct (waits (pick_base s) i) eqn:Hw.
  - rewrite decide_False by done. unfold mbind at 1, stM_bind at 1, mret at 1, stM_ret.
    destruct (IH (with_pick_base b s)) as (s' & ws & Ec & Hs & ? & ? & ? & Hl & ?); simpl.
    { intros j Hj. rewrite (proj1 Hsame). apply Hin. by right. }
    { by rewrite (proj1 Hsame). }
    exists s', ws. rewrite (ready_same _ _ _ Hsame) in Hl. split_and!; try done. by etransitivity.
  - rewrite decide_True by done.
    destruct (lookup_lt_is_Some_2 (weights (pick_sub s)) i) as [w Hwi].
    { eapply Nat.lt_le_trans; [apply Hin; by left|done]. }
    rewrite (st_bind_eq _ _ _ tt (with_sub (mk_Random (weights (pick_sub s)) (pick_weights (pick_sub s) ++ [w]))
      (with_pick_base b s))).
    2:{ rewrite st_get_bind. by st_lift_step (vec_get_Some _ _ _ Hwi). }
    destruct (IH (with_sub (mk_Random (weights (pick_sub s)) (pick_weights (pick_sub s) ++ [w]))
      (with_pick_base b s))) as (s' & ws & Ec & Hs & ? & ? & Hpw & Hl & Hfw); simpl.
    { intros j Hj. rewrite (proj1 Hsame). apply Hin. by right. }
    { by rewrite (proj1 Hsame). }
    simpl in *. exists s', (w :: ws). rewrite (ready_same _ _ _ Hsame) in Hl.
    split_and!; try done; [by etransitivity|by rewrite Hpw, <-app_assoc|by simpl; f_equal|].
    constructor; [|done]. apply list_elem_of_lookup. eauto.
Qed.

Lemma select_waiting ths num s t :
  (∀ i, i ∈ ths → i < length (threads (pick_base s))) → (0 ≤ num)%Z →
  ready (pick_base s) ths !! Z.to_nat num = Some t →
  ∃ s', select waiting ths num s = Ok (t, s').
Proof.
  revert num s. induction ths as [|i ths IH]; intros num s Hin Hnum Ht; cbn [select]; [done|].
  destruct (waiting_step i s) as (b & E & Hsame); [apply Hin; by left|]. st_step E.
  assert (∀ j, j ∈ ths → j < length (threads (pick_base (with_pick_base b s)))) as Hin'.
  { intros j Hj. simpl. rewrite (proj1 Hsame). apply Hin. by right. }
  unfold ready in Ht. rewrite filter_cons in Ht. destruct (waits (pick_base s) i) eqn:Hw.
  - rewrite decide_False in Ht by done. apply IH; [done..|]. simpl. by rewrite (ready_same _ _ _ Hsame).
  - rewrite decide_True in Ht by done. destruct (Z.eqb_spec num 0) as [->|Hne].
    { injection Ht as ->. by eexists. }
    apply IH; [done|lia|]. simpl. rewrite (ready_same _ _ _ Hsame).
    replace (Z.to_nat num) with (S (Z.to_nat (num - 1))) in Ht by lia. done.
Qed.

(** With positive weights, [RandomStrategy::Pick] reports a deadlock when
    every thread waits; otherwise it always finds a thread, never failing
    its second assertion, and that thread is the one the random number picks
    among those that do not wait. *)
Theorem Pick_random_spec `{HRL : !RngLaws} s :
  length (threads (pick_base s)) ≤ length (weights (pick_sub s)) →
  Forall (λ w, 0 < w)%Z (weights (pick_sub s)) →
  let candidates := ready (pick_base s) (seq 0 (length (threads (pick_base s)))) in
  (candidates = [] ∧ Pick s = Fail (AssertFailed "deadlock")) ∨
  ∃ ws t s', length ws = length candidates ∧ Pick s = Ok (t, s') ∧
    (0 ≤ (discrete ws (pick_rng s)).1)%Z ∧
    candidates !! Z.to_nat (discrete ws (pick_rng s)).1 = Some t.
Proof.
  intros Hlen Hpos candidates. unfold Pick, pick_with. rewrite st_modify_bind, st_get_bind.
  set (s0 := with_sub (mk_Random (weights (pick_sub s)) []) s). cbv zeta.
  change (pick_base s0) with (pick_base s).
  assert (∀ i, i ∈ seq 0 (length (threads (pick_base s))) → i < length (threads (pick_base s))) as Hin
    by (intros i Hi%elem_of_seq; lia).
  destruct (collect_waiting (seq 0 (length (threads (pick_base s)))) s0 Hin Hlen)
    as (s1 & ws & E & Hsame & Hrng & _ & Hws & Hl & Hfw).
  st_step E. rewrite st_get_bind. simpl in Hws. rewrite Hws.
  change (length ws = length candidates) in Hl.
  destruct (decide (ws = [])) as [->|Hne].
  - left. split; [by apply nil_length_inv|done].
  - right. destruct ws as [|w ws0]; [done|]. set (ws := w :: ws0) in *.
    assert (0 ≤ (discrete ws (pick_rng s)).1 < Z.of_nat (length ws))%Z as Hr.
    { assert (Forall (λ w, 0 < w)%Z ws) as Hp.
      { eapply Forall_impl; [exact Hfw|]. intros x Hx. by eapply (Forall_forall _ _) in Hx. }
      apply discrete_range; [eapply Forall_impl; [exact Hp|]; simpl; lia|].
      clear -Hp. subst ws. inversion Hp as [|? ? Hw0 Hws0]; subst. simpl.
      assert (0 ≤ foldr Z.add 0 ws0)%Z; [|lia].
      clear -Hws0. induction Hws0; simpl in *; lia. }
    destruct (lookup_lt_is_Some_2 candidates (Z.to_nat (discrete ws (pick_rng s)).1)) as [t Ht]; [lia|].
    rewrite (st_bind_eq _ _ s1 tt s1) by (by apply st_assert_Ok).
    rewrite Hrng. simpl. destruct (discrete ws (pick_rng s)) as [num g] eqn:Ed.
    rewrite st_put_bind.
    destruct (select_waiting (seq 0 (length (threads (pick_base s)))) num (with_rng g s1) t) as [s' Es].
    + intros i Hi. simpl. rewrite (proj1 Hsame). by apply Hin.
    + simpl in Hr. lia.
    + simpl in *. by rewrite (ready_same _ _ _ Hsame).
    + exists ws, t, s'. rewrite Ed. split_and!; [done..|simpl in *; lia|done].
Qed.
End random.
End Random.
