(* ===== verification/Pct.v ===== *)
(** * PctStrategy: probabilistic concurrency testing (pct_strategy.h)

    The strategy of Burckhardt et al.: every thread has a priority, the thread
    with the highest priority among those that can run is resumed, and at a few
    random points of the schedule the priority of the running thread drops. *)

From stdpp Require Import base gmap strings option list.
From S2P Require Import Prelude ValueWrapper History Coro Strategy PickStrategy.

(** The fields of [PctStrategy] (pct_strategy.h:225-236). *)
Record PctState `{Target} `{StrategyVerifier} `{Rng} := mk_Pct {
  pct_base : BaseStrategy;
  k_statistics : list Z;
  threads_count : nat;
  current_depth : Z;
  current_schedule_length : Z;
  priorities : list Z;
  priority_change_points : list Z;
  forbid_all_same : bool;
  pct_rng : rng;
}.
Arguments PctState : clear implicits.
Arguments PctState {_ _ _}.
Arguments mk_Pct {_ _ _} _ _ _ _ _ _ _ _ _.

Section pct.
Context `{HT : Target} `{HC : !Code} `{HV : StrategyVerifier} `{HR : Rng}.

Local Abbreviation M := (stM PctState).

Definition with_pct_base (b : BaseStrategy) (s : PctState) : PctState :=
  mk_Pct b (k_statistics s) (threads_count s) (current_depth s) (current_schedule_length s)
    (priorities s) (priority_change_points s) (forbid_all_same s) (pct_rng s).
Definition with_pct_rng (g : rng) (s : PctState) : PctState :=
  mk_Pct (pct_base s) (k_statistics s) (threads_count s) (current_depth s)
    (current_schedule_length s) (priorities s) (priority_change_points s) (forbid_all_same s) g.
Definition with_length (n : Z) (s : PctState) : PctState :=
  mk_Pct (pct_base s) (k_statistics s) (threads_count s) (current_depth s) n
    (priorities s) (priority_change_points s) (forbid_all_same s) (pct_rng s).
Definition with_priorities (p : list Z) (s : PctState) : PctState :=
  mk_Pct (pct_base s) (k_statistics s) (threads_count s) (current_depth s)
    (current_schedule_length s) p (priority_change_points s) (forbid_all_same s) (pct_rng s).

Definition pct_in_base {A} (m : stM BaseStrategy A) : M A :=
  λ s, '(a, b) ← m (pct_base s); Ok (a, with_pct_base b s).

(** The loop over the threads (pct_strategy.h:55-70 and 118-134): the
    accumulator is [max] and [index_of_max]. *)
Fixpoint max_loop (skip : nat → stM BaseStrategy bool) (ths : list nat) (max : Z) (index_of_max : nat)
  : M (Z * nat) :=
  match ths with
  | [] => mret (max, index_of_max)
  | i :: ths =>
      continue ← pct_in_base (skip i);
      if (continue : bool) then max_loop skip ths max index_of_max
      else
        s ← st_get;
        p ← st_lift (vec_get (priorities s) i);
        if (max <=? p)%Z then max_loop skip ths p i else max_loop skip ths max index_of_max
  end.

(** The thread with the highest priority, behind the assertion that there is one
    (pct_strategy.h:50-72). *)
Definition pct_pick : M nat :=
  s ← st_get;
  '(max, index_of_max) ← max_loop waiting (seq 0 (length (threads (pct_base s)))) 0 0;
  _ ← st_assert "all threads are empty or parked" (negb (max =? 0)%Z);
  mret index_of_max.

(** The priority of the running thread at the [i]-th change point and after
    (pct_strategy.h:76-81): [points] are the change points from [i] on. *)
Fixpoint change_priority (points : list Z) (i : Z) (length depth : Z) (index_of_max : nat)
    (priorities : list Z) : outcome (list Z) :=
  match points with
  | [] => Ok priorities
  | point :: points =>
      priorities ← (if (length =? point)%Z then vec_set priorities index_of_max (wrapu64 (depth - i))
                    else Ok priorities);
      change_priority points (i + 1) length depth index_of_max priorities
  end.

Definition advance_schedule (index_of_max : nat) : M unit :=
  s ← st_get;
  let length := wrapu64 (current_schedule_length s + 1) in
  p ← st_lift (change_priority (priority_change_points s) 0 length (current_depth s)
                 index_of_max (priorities s));
  st_put (with_priorities p (with_length length s)).

(** [constructors.at(constructors_distribution(rng))]. *)
Definition random_constructor : M TaskBuilder :=
  s ← st_get;
  let cs := constructors (pct_base s) in
  let '(i, g) := uniform_int 0 (Z.of_nat (length cs) - 1) (pct_rng s) in
  _ ← st_put (with_pct_rng g s);
  st_lift (or_fail (OutOfRange "constructors.at") (cs !! Z.to_nat i)).

(** [CountNames] (pct_strategy.h:192-206): a set of names. *)
Definition CountNames (s : BaseStrategy) (except_thread : nat) : gset string :=
  list_to_set (omap (λ it : nat * list CoroBase,
    if bool_decide (it.1 = except_thread) then None else GetName <$> last it.2)
    (imap pair (threads s))).

(** The [while (true)] loop (pct_strategy.h:90-100). *)
Fixpoint choose_constructor (fuel : nat) (names : gset string) (thread : nat) (constructor : TaskBuilder)
  : M TaskBuilder :=
  match fuel with
  | 0 => st_fail OutOfFuel
  | S fuel =>
      let name := tb_name constructor in
      let names := {[name]} ∪ names in
      rejected ← (if bool_decide (size names = 1) then mret true
                  else
                    s ← st_get;
                    '(ok, v) ← st_lift (Verify (mk_Created name true thread) (sched_checker (pct_base s)));
                    _ ← st_put (with_pct_base (with_checker v (pct_base s)) s);
                    mret (negb ok));
      if (rejected : bool) then
        constructor ← random_constructor;
        choose_constructor fuel names thread constructor
      else mret constructor
  end.

(** [Next] (pct_strategy.h:50-109). *)
Definition pct_Next (fuel : nat) : M TaskWithMetaData :=
  index_of_max ← pct_pick;
  _ ← advance_schedule index_of_max;
  fresh ← pct_in_base (needs_new_task index_of_max);
  if (fresh : bool) then
    constructor ← random_constructor;
    s ← st_get;
    constructor ←
      (if forbid_all_same s then
         choose_constructor fuel (CountNames (pct_base s) index_of_max) index_of_max constructor
       else mret constructor);
    _ ← pct_in_base (emplace_task constructor index_of_max);
    r ← pct_in_base (back_ref index_of_max);
    mret (mk_TaskWithMetaData r true index_of_max)
  else
    r ← pct_in_base (back_ref index_of_max);
    mret (mk_TaskWithMetaData r false index_of_max).

(** [NextSchedule] (pct_strategy.h:111-149). *)
Definition pct_NextSchedule : M TaskWithMetaData :=
  s ← st_get;
  '(_, index_of_max) ← max_loop nothing_to_run (seq 0 (length (threads (pct_base s)))) 0 0;
  _ ← advance_schedule index_of_max;
  pct_in_base (schedule_thread index_of_max).

(** [PrepareForDepth] (pct_strategy.h:208-223).  [uniform_int_distribution(1, k)]
    wants [1 <= k]: a draw with a smaller [k] is undefined.  The constructor
    passes 0 and draws nothing, which every library accepts that does not check
    the bounds when the distribution is made. *)
Fixpoint draw_change_points (n : nat) (k : Z) (g : rng) : outcome (list Z * rng) :=
  match n with
  | 0 => Ok ([], g)
  | S n =>
      if (k <? 1)%Z then Fail (Undefined "uniform_int_distribution(1, k)")
      else
        let '(x, g) := uniform_int 1 k g in
        '(xs, g) ← draw_change_points n k g;
        Ok (x :: xs, g)
  end.

Definition PrepareForDepth (depth k : Z) (s : PctState) : outcome PctState :=
  let '(p, g) := shuffle ((λ i : nat, wrapu64 (current_depth s + Z.of_nat i)) <$> seq 0 (threads_count s))
                   (pct_rng s) in
  '(points, g) ← draw_change_points (Z.to_nat (depth - 1)) k g;
  Ok (mk_Pct (pct_base s) (k_statistics s) (threads_count s) (current_depth s) (current_schedule_length s)
        p points (forbid_all_same s) g).

(** [UpdateStatistics] (pct_strategy.h:176-190). *)
Definition UpdateStatistics : M unit := λ s,
  let depth := Z.min (current_depth s + 1) 50 in
  let stats := k_statistics s ++ [current_schedule_length s] in
  let new_k := (wrapu64 (foldr Z.add 0 stats) `div` Z.of_nat (length stats))%Z in
  s ← PrepareForDepth depth new_k
        (mk_Pct (pct_base s) stats (threads_count s) depth 0 (priorities s) (priority_change_points s)
           (forbid_all_same s) (pct_rng s));
  Ok (tt, s).

(** [StartNextRound] (pct_strategy.h:151-166) and [ResetCurrentRound]. *)
Definition pct_StartNextRound (fuel : nat) : M unit :=
  _ ← pct_in_base (st_modify (with_new_task_id 0));
  _ ← pct_in_base (TerminateTasks fuel);
  _ ← pct_in_base (st_modify clear_threads);
  UpdateStatistics.

Definition pct_ResetCurrentRound (fuel : nat) : M unit :=
  _ ← pct_in_base (base_ResetCurrentRound fuel);
  UpdateStatistics.

(** The constructor (pct_strategy.h:17-46); [avg_k] is zero, and dividing it
    by the number of constructors is undefined when there are none. *)
Definition pct_init (count : nat) (cs : list TaskBuilder) (forbid : bool) (g : rng) : outcome PctState :=
  match cs with
  | [] => Fail (Undefined "avg_k / constructors.size()")
  | _ :: _ => PrepareForDepth 1 0 (mk_Pct (base_init count cs) [] count 1 0 [] [] forbid g)
  end.

#[global] Instance PctStrategy : Strategy := {|
  St := PctState;
  base := pct_base;
  set_base := with_pct_base;
  Next := pct_Next;
  NextSchedule := pct_NextSchedule;
  StartNextRound := pct_StartNextRound;
  ResetCurrentRound := pct_ResetCurrentRound;
|}.

(** ** The picked thread *)

Lemma pct_in_base_Ok {A} (m : stM BaseStrategy A) (s : PctState) a s' :
  pct_in_base m s = Ok (a, s') ↔ ∃ b, m (pct_base s) = Ok (a, b) ∧ s' = with_pct_base b s.
Proof.
  unfold pct_in_base. rewrite bind_Ok. split.
  - intros ([a' b] & Hm & [= <- <-]). eauto.
  - intros (b & Hm & ->). by exists (a, b).
Qed.

Lemma max_loop_Ok (R : BaseStrategy → BaseStrategy → Prop) `{!PreOrder R} skip ths max i s m k s' :
  (∀ th b w b', skip th b = Ok (w, b') → R b b') →
  max_loop skip ths max i s = Ok ((m, k), s') →
  (∃ b, R (pct_base s) b ∧ s' = with_pct_base b s) ∧
  ((m, k) = (max, i) ∨ ∃ b b1, R (pct_base s) b ∧ skip k b = Ok (false, b1) ∧ R b1 (pct_base s')).
Proof.
  intros Hskip. revert max i s. induction ths as [|th ths IH]; intros max i s H; cbn [max_loop] in H.
  { inv_st H. split; [|by left]. exists (pct_base s'). split; [done|]. by destruct s'. }
  apply st_bind_Ok in H as (w & s1 & (b & Hw & ->)%pct_in_base_Ok & H).
  pose proof (Hskip _ _ _ _ Hw) as HRb.
  assert (∀ mx ix, max_loop skip ths mx ix (with_pct_base b s) = Ok ((m, k), s') →
    (∃ b', R b b' ∧ s' = with_pct_base b' s) ∧
    ((m, k) = (mx, ix) ∨ ∃ b1 b2, R b b1 ∧ skip k b1 = Ok (false, b2) ∧ R b2 (pct_base s'))) as Hrec.
  { intros mx ix Hm. apply IH in Hm as [(b' & HRb' & ->) Hc]. split; [eauto|done]. }
  assert ((∃ b', R b b' ∧ s' = with_pct_base b' s) →
          ∃ b', R (pct_base s) b' ∧ s' = with_pct_base b' s) as Hbase.
  { intros (b' & ? & ?). exists b'. split; [by etransitivity|done]. }
  assert ((∃ b1 b2, R b b1 ∧ skip k b1 = Ok (false, b2) ∧ R b2 (pct_base s')) →
          ∃ b1 b2, R (pct_base s) b1 ∧ skip k b1 = Ok (false, b2) ∧ R b2 (pct_base s')) as Hfound.
  { intros (b1 & b2 & ? & ? & ?). exists b1, b2. split_and!; [by etransitivity|done..]. }
  destruct w; [apply Hrec in H as [? [?|?]]; auto|]. rewrite st_get_bind in H.
  apply st_bind_Ok in H as (p & s2 & Hp & H). apply st_lift_Ok in Hp as [_ ->].
  destruct (max <=? p)%Z; apply Hrec in H as [Hb [E|?]]; auto. split; [auto|right].
  injection E as -> ->. destruct Hb as (b' & HRb' & ->). by exists (pct_base s), b.
Qed.

(** Looking for a thread changes no answer. *)
Definition looks (b b' : BaseStrategy) : Prop := looked b b' ∧ same_waits b b'.

#[local] Instance looks_preorder : PreOrder looks.
Proof.
  split.
  - intros b. split; reflexivity.
  - intros b1 b2 b3 [] []. split; by etransitivity.
Qed.

Lemma waiting_looks th b w b' : waiting th b = Ok (w, b') → looks b b' ∧ w = waits b th.
Proof.
  intros (_ & Hev & <- & Hw)%waiting_Ok. split; [|done]. split; [done|].
  split; [by apply looked_threads_length|done].
Qed.

(** ** The highest priority *)

Definition priority (s : PctState) (th : nat) : Z := default 0%Z (priorities s !! th).

(** The running maximum: it is reached at [index_of_max] and bounds the
    priorities of the threads of [ths] that can run. *)
Lemma max_loop_max ths max i s :
  (∀ th, th ∈ ths → th < length (threads (pct_base s)) ∧ th < length (priorities s)) →
  ∃ m k b, max_loop waiting ths max i s = Ok ((m, k), with_pct_base b s) ∧ looks (pct_base s) b ∧
    (max ≤ m)%Z ∧ (∀ th, th ∈ ready (pct_base s) ths → (priority s th ≤ m)%Z) ∧
    ((m, k) = (max, i) ∨ (k ∈ ready (pct_base s) ths ∧ priority s k = m)).
Proof.
  revert max i s. induction ths as [|th ths IH]; intros max i s Hin; cbn [max_loop].
  { exists max, i, (pct_base s). split_and!; [by destruct s|reflexivity|lia| |by left].
    intros th Hth. by apply elem_of_nil in Hth. }
  destruct (Hin th) as [Hth Hp]; [by left|].
  destruct (waiting_eq (pct_base s) th Hth) as (b & Hw & _).
  destruct (waiting_looks _ _ _ _ Hw) as [Hl _].
  rewrite (st_bind_eq _ _ s (waits (pct_base s) th) (with_pct_base b s))
    by (apply pct_in_base_Ok; eauto).
  assert (ready b ths = ready (pct_base s) ths) as Hsame by (apply ready_same, Hl).
  assert (∀ mx ix, ∃ m k b', max_loop waiting ths mx ix (with_pct_base b s) = Ok ((m, k), with_pct_base b' s) ∧
    looks (pct_base s) b' ∧ (mx ≤ m)%Z ∧
    (∀ th, th ∈ ready (pct_base s) ths → (priority s th ≤ m)%Z) ∧
    ((m, k) = (mx, ix) ∨ (k ∈ ready (pct_base s) ths ∧ priority s k = m))) as Hrec.
  { intros mx ix. destruct (IH mx ix (with_pct_base b s)) as (m & k & b' & E & Hl' & Hm & Hall & Hk).
    - intros th' Hin'. simpl. rewrite (looked_threads_length _ _ (proj1 Hl)). apply Hin. by right.
    - simpl in *. rewrite Hsame in *. exists m, k, b'. split_and!; try done. by etransitivity. }
  unfold ready. rewrite filter_cons. destruct (waits (pct_base s) th) eqn:Hwt.
  - rewrite decide_False by done. apply Hrec.
  - rewrite decide_True by done. rewrite st_get_bind.
    destruct (lookup_lt_is_Some_2 (priorities s) th Hp) as [p Hpth].
    rewrite (st_bind_eq _ _ _ p (with_pct_base b s)) by (apply st_lift_Ok; split; [by apply vec_get_Ok|done]).
    assert (priority s th = p) as Hprio by (unfold priority; by rewrite Hpth).
    destruct (Z.leb_spec max p) as [Hle|Hlt].
    + destruct (Hrec p th) as (m & k & b' & E & Hl' & Hm & Hall & Hk). exists m, k, b'.
      split_and!; [done|done|lia| |].
      * intros th' [->|?]%elem_of_cons; [lia|by apply Hall].
      * right. destruct Hk as [[= -> ->]|[? ?]]; split; [by left|done|by right|done].
    + destruct (Hrec max i) as (m & k & b' & E & Hl' & Hm & Hall & Hk). exists m, k, b'.
      split_and!; [done|done|lia| |].
      * intros th' [->|?]%elem_of_cons; [lia|by apply Hall].
      * destruct Hk as [?|[? ?]]; [by left|right]. split; [by right|done].
Qed.

(** What the constructor establishes and every operation keeps: one positive
    priority per thread, and [current_depth - 1] change points. *)
Record pct_inv (s : PctState) : Prop := {
  inv_threads : length (threads (pct_base s)) = threads_count s;
  inv_priorities : length (priorities s) = threads_count s;
  inv_positive : Forall (λ p, 0 < p)%Z (priorities s);
  inv_depth : (1 ≤ current_depth s ≤ 50)%Z;
  inv_points : Z.of_nat (length (priority_change_points s)) = (current_depth s - 1)%Z;
}.

(** C29: PCT picks a thread that can run and whose priority is maximal among
    the threads that can run; since priorities are positive, its assertion
    fails exactly when every thread is parked or blocked. *)
Theorem pct_pick_spec s :
  pct_inv s →
  (pct_pick s = Fail (AssertFailed "all threads are empty or parked") ∧
    ∀ th, th < threads_count s → waits (pct_base s) th = true) ∨
  ∃ k s', pct_pick s = Ok (k, s') ∧ k < threads_count s ∧ waits (pct_base s) k = false ∧
    ∀ th, th < threads_count s → waits (pct_base s) th = false → (priority s th ≤ priority s k)%Z.
Proof.
  intros [Ht Hp Hpos _ _]. unfold pct_pick. rewrite st_get_bind.
  destruct (max_loop_max (seq 0 (length (threads (pct_base s)))) 0 0 s)
    as (m & k & b & E & Hl & Hm & Hall & Hk).
  { intros th Hth%elem_of_seq. lia. }
  assert (∀ th, th ∈ ready (pct_base s) (seq 0 (length (threads (pct_base s)))) ↔
    waits (pct_base s) th = false ∧ th < threads_count s) as Hready.
  { intros th. unfold ready. rewrite list_elem_of_filter, elem_of_seq. rewrite Ht.
    split; intros [? ?]; (split; [done|lia]). }
  st_step E. destruct (Z.eqb_spec m 0) as [->|Hne].
  - left. split; [done|]. intros th Hth. destruct (waits (pct_base s) th) eqn:Hw; [done|].
    specialize (Hall th (proj2 (Hready th) (conj Hw Hth))). exfalso.
    destruct (lookup_lt_is_Some_2 (priorities s) th) as [p Hpth]; [lia|].
    eapply Forall_lookup_1 in Hpos; [|done]. unfold priority in Hall. rewrite Hpth in Hall. simpl in *. lia.
  - right. destruct Hk as [?|[Hk Hpk]]; [congruence|]. apply Hready in Hk as [Hwk Hk].
    exists k, (with_pct_base b s). split_and!; [done|done|done|].
    intros th Hth Hw. rewrite Hpk. by apply Hall, Hready.
Qed.

(** ** The contract of [Strategy] *)

Lemma pct_pick_Ok s k s' :
  pct_pick s = Ok (k, s') →
  ∃ b, looks (pct_base s) b ∧ s' = with_pct_base b s ∧ waits b k = false.
Proof.
  unfold pct_pick. rewrite st_get_bind. intros H.
  apply st_bind_Ok in H as ([m i] & s1 & H1 & H).
  apply st_bind_Ok in H as (u & s2 & [Hm ->]%st_assert_Ok & H). inv_st H.
  apply (max_loop_Ok looks) in H1 as [(b & Hb & ->) [[= -> ->]|(b1 & b2 & _ & Hw & Hl)]].
  - done.
  - exists b. split_and!; [done|done|]. simpl in Hl.
    apply waiting_Ok in Hw as (_ & _ & Hw & Hsame). destruct Hl as [_ [_ Hl]].
    by rewrite Hl, Hsame.
  - intros ???? [? _]%waiting_looks. done.
Qed.

Lemma advance_schedule_Ok k s u s' :
  advance_schedule k s = Ok (u, s') →
  ∃ p n, s' = with_priorities p (with_length n s) ∧
    change_priority (priority_change_points s) 0 n (current_depth s) k (priorities s) = Ok p.
Proof.
  unfold advance_schedule. rewrite st_get_bind. intros H. cbv zeta in H.
  apply st_bind_Ok in H as (p & s1 & [H1 ->]%st_lift_Ok & H). inv_st H. eauto.
Qed.

Lemma random_constructor_Ok s c s' :
  random_constructor s = Ok (c, s') → ∃ g, s' = with_pct_rng g s ∧ c ∈ constructors (pct_base s).
Proof.
  unfold random_constructor. rewrite st_get_bind. cbv zeta.
  destruct (uniform_int _ _ _) as [i g]. rewrite st_put_bind. intros [Hc%or_fail_Ok ->]%st_lift_Ok. exists g.
  split; [done|]. by eapply list_elem_of_lookup_2.
Qed.

Lemma choose_constructor_Ok fuel names th c s c' s' :
  choose_constructor fuel names th c s = Ok (c', s') → c ∈ constructors (pct_base s) →
  c' ∈ constructors (pct_base s) ∧
  ∃ v g, s' = with_pct_rng g (with_pct_base (with_checker v (pct_base s)) s).
Proof.
  revert names c s. induction fuel as [|fuel IH]; intros names c s H Hc; [done|].
  cbn [choose_constructor] in H. cbv zeta in H.
  apply st_bind_Ok in H as (rejected & s1 & H1 & H).
  assert (∃ v, s1 = with_pct_base (with_checker v (pct_base s)) s) as [v ->].
  { destruct (bool_decide _).
    - inv_st H1. exists (sched_checker (pct_base s1)). by destruct s1 as [[]].
    - rewrite st_get_bind in H1. apply st_bind_Ok in H1 as ([ok v] & s2 & [_ ->]%st_lift_Ok & H1).
      rewrite st_put_bind in H1. inv_st H1. eauto. }
  destruct rejected.
  - apply st_bind_Ok in H as (c1 & s2 & (g & -> & Hc1)%random_constructor_Ok & H).
    apply IH in H as (Hc' & v' & g' & ->); [|done]. split; [done|]. by exists v', g'.
  - inv_st H. split; [done|]. exists v, (pct_rng s). by destruct s as [[]].
Qed.

Lemma pct_new_task_Ok th s r s' (c : TaskBuilder) thread :
  threads (pct_base s) !! th = Some thread →
  (_ ← pct_in_base (emplace_task c th); pct_in_base (back_ref th)) s = Ok (r, s') →
  r = (th, length thread) ∧ ∃ b co, s' = with_pct_base b s ∧
    Build c th (new_task_id (pct_base s)) (world (pct_base s)) = Ok (co, world b) ∧
    threads b = <[th := thread ++ [co]]> (threads (pct_base s)) ∧
    new_task_id b = wrap32 (new_task_id (pct_base s) + 1) ∧
    removed_tasks b = removed_tasks (pct_base s) ∧ round_schedule b = round_schedule (pct_base s) ∧
    constructors b = constructors (pct_base s).
Proof.
  intros Ht H. apply st_bind_Ok in H as (u & s1 & (b & He & ->)%pct_in_base_Ok & H).
  apply emplace_task_Ok in He as (co & thread' & Hb & Ht' & Hths & Hnew & Hrm & Hsch & Hcs & _).
  assert (thread' = thread) as -> by congruence.
  apply pct_in_base_Ok in H as (b' & Hr & ->). simpl in Hr.
  assert (threads b !! th = Some (thread ++ [co])) as Hb1.
  { rewrite Hths, list_lookup_insert_eq; [done|by eapply lookup_lt_Some]. }
  rewrite (back_ref_eq b th _ (length thread) Hb1) in Hr by (rewrite length_app; simpl; lia).
  simplify_eq. split; [done|]. by exists b', co.
Qed.

Lemma pct_Next_ok fuel s t s' :
  pct_Next fuel s = Ok (t, s') → next_ok (pct_base s) t (pct_base s').
Proof.
  unfold pct_Next. intros H. apply st_bind_Ok in H as (th & s1 & H1 & H).
  apply pct_pick_Ok in H1 as (b & [Hev _] & -> & Hw).
  apply st_bind_Ok in H as (u & s2 & H2 & H). apply advance_schedule_Ok in H2 as (p & n & -> & _).
  apply st_bind_Ok in H as (f & s3 & (b1 & Hn & ->)%pct_in_base_Ok & H). simpl in Hn.
  apply needs_new_task_Ok in Hn as (-> & thread & Ht & Hf). destruct f.
  - apply st_bind_Ok in H as (c & s4 & (g & -> & Hc)%random_constructor_Ok & H).
    rewrite st_get_bind in H. apply st_bind_Ok in H as (c1 & s5 & H5 & H).
    assert (c1 ∈ constructors b ∧ ∃ v g', s5 = with_pct_rng g' (with_pct_base (with_checker v b)
      (with_priorities p (with_length n s)))) as (Hc1 & v & g' & ->).
    { simpl in H5, Hc. destruct (forbid_all_same s); [by apply choose_constructor_Ok in H5|].
      inv_st H5. split; [done|]. exists (sched_checker b), g. by destruct s, b. }
    apply st_bind_Ok in H as (u1 & s6 & H6 & H). apply st_bind_Ok in H as (r & s7 & H7 & H). inv_st H.
    destruct (pct_new_task_Ok th (with_pct_rng g'
      (with_pct_base (with_checker v b) (with_priorities p (with_length n s)))) r s' c1 thread)
      as (-> & b2 & co & -> & Hbuild & Hths & Hnew & Hrm & Hsch & Hcs);
      [exact Ht|apply st_bind_Ok; eauto|]. simpl in *. pose proof Hev as [_ _ Eid Erm Esch _ Ecs].
    eapply (next_new _ _ _ b c1 co thread); simpl; try done; try congruence.
    intros b'. by rewrite Hcs, Ecs.
  - destruct Hf as (m & c & Hm & Hc & Hr). apply st_bind_Ok in H as (r & s4 & H4 & H). inv_st H.
    apply pct_in_base_Ok in H4 as (b2 & Hb & ->). simpl in Hb.
    rewrite (back_ref_eq _ th thread m Ht Hm) in Hb. simplify_eq. unfold waits in Hw. rewrite Ht in Hw.
    cbn [mbind option_bind] in Hw. rewrite Hc in Hw. apply orb_false_iff in Hw as [? ?].
    by eapply (next_running _ _ _ m c thread).
Qed.

Lemma PrepareForDepth_base depth k s s' : PrepareForDepth depth k s = Ok s' → pct_base s' = pct_base s.
Proof.
  unfold PrepareForDepth. destruct (shuffle _ _) as [p g]. intros ([points g'] & _ & [= <-])%bind_Ok. done.
Qed.

Lemma UpdateStatistics_base s u s' : UpdateStatistics s = Ok (u, s') → pct_base s' = pct_base s.
Proof. intros (s1 & H & [= _ <-])%bind_Ok. by apply PrepareForDepth_base in H. Qed.

#[global] Instance PctStrategy_laws : StrategyLaws.
Proof.
  split; simpl.
  - done.
  - apply pct_Next_ok.
  - intros s t s' H. unfold pct_NextSchedule in H. rewrite st_get_bind in H.
    apply st_bind_Ok in H as ([m th] & s1 & H1 & H).
    apply (max_loop_Ok eq) in H1 as [(b & <- & ->) _]; [|by intros ???? [_ ->]%nothing_to_run_Ok].
    apply st_bind_Ok in H as (u & s2 & H2 & H). apply advance_schedule_Ok in H2 as (p & n & -> & _).
    apply pct_in_base_Ok in H as (b & Ht%schedule_thread_Ok & ->). done.
  - intros fuel s u s' H. unfold pct_StartNextRound in H.
    apply st_bind_Ok in H as (u1 & s1 & [= <- <-] & H).
    apply st_bind_Ok in H as (u2 & s2 & (b & Hb & ->)%pct_in_base_Ok & H).
    apply st_bind_Ok in H as (u3 & s3 & [= <- <-] & H%UpdateStatistics_base).
    destruct u2. exists b. by rewrite H.
  - intros fuel s u s' H. unfold pct_ResetCurrentRound in H.
    apply st_bind_Ok in H as ([] & s1 & (b & Hb & ->)%pct_in_base_Ok & H%UpdateStatistics_base).
    by rewrite H.
Qed.

(** ** The invariant *)

Lemma draw_change_points_length n k g xs g' : draw_change_points n k g = Ok (xs, g') → length xs = n.
Proof.
  revert g xs g'. induction n as [|n IH]; intros g xs g' H; simpl in H; [by simplify_eq|].
  destruct (k <? 1)%Z; [done|]. destruct (uniform_int 1 k g) as [x g1].
  apply bind_Ok in H as ([ys g2] & H & [= <- <-]). simpl. f_equal. by eapply IH.
Qed.

Lemma PrepareForDepth_inv `{HRL : !RngLaws} k s s' :
  PrepareForDepth (current_depth s) k s = Ok s' →
  length (threads (pct_base s)) = threads_count s → (1 ≤ current_depth s ≤ 50)%Z →
  (Z.of_nat (threads_count s) < 2 ^ 63)%Z →
  pct_inv s'.
Proof.
  intros H Ht Hd Hn. unfold PrepareForDepth in H.
  set (init := (λ i : nat, wrapu64 (current_depth s + Z.of_nat i)) <$> seq 0 (threads_count s)) in *.
  pose proof (shuffle_perm init (pct_rng s)) as Hperm. destruct (shuffle init (pct_rng s)) as [p g].
  apply bind_Ok in H as ([xs g'] & Hlen%draw_change_points_length & [= <-]). split; simpl; try done.
  - rewrite Hperm. unfold init. by rewrite length_fmap, length_seq.
  - rewrite Hperm. unfold init. apply Forall_fmap, Forall_forall. intros i Hi%elem_of_seq. simpl.
    rewrite wrapu64_id; lia.
  - lia.
Qed.

Lemma change_priority_Ok points i n depth k p p' :
  change_priority points i n depth k p = Ok p' →
  (0 ≤ i)%Z → (i + Z.of_nat (length points) < depth)%Z → (depth < 2 ^ 64)%Z →
  Forall (λ x, 0 < x)%Z p → length p' = length p ∧ Forall (λ x, 0 < x)%Z p'.
Proof.
  revert i p. induction points as [|x points IH]; intros i p H Hi Hlt Hd Hpos; cbn [change_priority] in H.
  { by simplify_eq. }
  apply bind_Ok in H as (p1 & H1 & H). cbn [length] in Hlt.
  assert (length p1 = length p ∧ Forall (λ x, 0 < x)%Z p1) as [Hl1 Hp1].
  { destruct (n =? x)%Z; [|by simplify_eq]. apply vec_set_Ok in H1 as [_ ->].
    rewrite length_insert. split; [done|]. apply Forall_insert; [done|]. rewrite wrapu64_id; lia. }
  rewrite <-Hl1. apply (IH (i + 1)%Z); [done|lia..|done].
Qed.

Lemma advance_schedule_inv k s u s' : pct_inv s → advance_schedule k s = Ok (u, s') → pct_inv s'.
Proof.
  intros [Ht Hp Hpos Hd Hpt] H. apply advance_schedule_Ok in H as (p & n & -> & H).
  apply change_priority_Ok in H as [Hl Hpos']; [|lia..|done]. split; simpl; [done|congruence|done..].
Qed.

(** The invariant does not look at the round itself. *)
Lemma pct_inv_base s b :
  pct_inv s → length (threads b) = length (threads (pct_base s)) → pct_inv (with_pct_base b s).
Proof. intros [] E. split; simpl; [congruence|done..]. Qed.
Lemma pct_inv_rng s g : pct_inv s → pct_inv (with_pct_rng g s).
Proof. intros []. by split. Qed.

Lemma UpdateStatistics_inv `{HRL : !RngLaws} s u s' :
  UpdateStatistics s = Ok (u, s') → pct_inv s → (Z.of_nat (threads_count s) < 2 ^ 63)%Z → pct_inv s'.
Proof.
  intros (s1 & H & [= _ <-])%bind_Ok [Ht Hp Hpos Hd Hpt] Hn.
  eapply (PrepareForDepth_inv _ (mk_Pct _ _ _ _ _ _ _ _ _)); [exact H|simpl..]; [done|lia|done].
Qed.

Lemma pct_Next_inv fuel s t s' : pct_inv s → pct_Next fuel s = Ok (t, s') → pct_inv s'.
Proof.
  intros HI H. unfold pct_Next in H. apply st_bind_Ok in H as (th & s1 & H1 & H).
  apply pct_pick_Ok in H1 as (b & [Hev _] & -> & _).
  apply st_bind_Ok in H as (u & s2 & H2 & H). apply advance_schedule_inv in H2.
  2:{ apply pct_inv_base; [done|by apply looked_threads_length]. }
  clear HI Hev s b. apply st_bind_Ok in H as (f & s3 & (b & Hn & ->)%pct_in_base_Ok & H).
  apply needs_new_task_Ok in Hn as (-> & thread & Ht & _).
  assert (with_pct_base (pct_base s2) s2 = s2) as E by (by destruct s2). rewrite E in H. clear E.
  destruct f.
  - apply st_bind_Ok in H as (c & s4 & (g & -> & Hc)%random_constructor_Ok & H).
    rewrite st_get_bind in H. apply st_bind_Ok in H as (c1 & s5 & H5 & H).
    assert (∃ b g, s5 = with_pct_rng g (with_pct_base b s2) ∧ threads b = threads (pct_base s2))
      as (b & g' & -> & Hb).
    { destruct (forbid_all_same _).
      - apply choose_constructor_Ok in H5 as (_ & v & g' & ->); [|done]. by do 2 eexists.
      - inv_st H5. exists (pct_base s2), g. by destruct s2. }
    apply st_bind_Ok in H as (u1 & s6 & H6 & H). apply st_bind_Ok in H as (r & s7 & H7 & H). inv_st H.
    destruct (pct_new_task_Ok th (with_pct_rng g' (with_pct_base b s2)) r s' c1 thread)
      as (_ & b2 & co & -> & _ & Hths & _); [simpl; by rewrite Hb|apply st_bind_Ok; eauto|].
    simpl in Hths. apply (pct_inv_rng (with_pct_base b2 s2)), pct_inv_base; [done|].
    by rewrite Hths, length_insert, Hb.
  - apply st_bind_Ok in H as (r & s4 & H4 & H). inv_st H. apply pct_in_base_Ok in H4 as (b & Hb & ->).
    unfold back_ref in Hb. inv_st Hb. destruct (length a); inv_st Hb. by destruct s2.
Qed.

(** C30: The constructor of [PctStrategy] establishes its invariant (a positive
    priority per thread and as many change points as the depth asks for), and
    [Next], [NextSchedule], [StartNextRound] and [ResetCurrentRound] keep it,
    so the priority [max != 0] that [Next] asserts is never a legal one. *)
Theorem pct_inv_preserved `{HRL : !RngLaws} fuel s :
  (Z.of_nat (threads_count s) < 2 ^ 63)%Z → pct_inv s →
  (∀ t s', pct_Next fuel s = Ok (t, s') → pct_inv s') ∧
  (∀ t s', pct_NextSchedule s = Ok (t, s') → pct_inv s') ∧
  (∀ u s', pct_StartNextRound fuel s = Ok (u, s') → pct_inv s') ∧
  (∀ u s', pct_ResetCurrentRound fuel s = Ok (u, s') → pct_inv s') ∧
  (∀ cs forbid g s', pct_init (threads_count s) cs forbid g = Ok s' → pct_inv s').
Proof.
  intros Hn HI. split_and!.
  - intros t s'. by apply pct_Next_inv.
  - intros t s' H. unfold pct_NextSchedule in H. rewrite st_get_bind in H.
    apply st_bind_Ok in H as ([m th] & s1 & H1 & H).
    apply (max_loop_Ok eq) in H1 as [(b & <- & ->) _]; [|by intros ???? [_ ->]%nothing_to_run_Ok].
    apply st_bind_Ok in H as (u & s2 & H2 & H). apply advance_schedule_inv in H2; [|by destruct s].
    apply pct_in_base_Ok in H as (b & [_ _ _ _ ->]%schedule_thread_Ok & ->).
    by apply pct_inv_base.
  - intros u s' H. unfold pct_StartNextRound in H.
    apply st_bind_Ok in H as (u1 & s1 & [= <- <-] & H).
    apply st_bind_Ok in H as (u2 & s2 & (b & Hb & ->)%pct_in_base_Ok & H).
    apply st_bind_Ok in H as (u3 & s3 & [= <- <-] & H).
    apply TerminateTasks_Ok in Hb as (Hth & _). eapply UpdateStatistics_inv; [exact H| |done].
    destruct HI as [Ht ? ? ? ?]. split; simpl; [|done..]. rewrite length_fmap, <-Ht.
    symmetry. by eapply Forall2_length.
  - intros u s' H. unfold pct_ResetCurrentRound in H.
    apply st_bind_Ok in H as ([] & s1 & (b & Hb & ->)%pct_in_base_Ok & H).
    eapply UpdateStatistics_inv; [exact H| |done]. clear H.
    unfold base_ResetCurrentRound in Hb. apply st_bind_Ok in Hb as (u2 & s2 & Hb & H).
    apply TerminateTasks_Ok in Hb as (Hth & _). inv_st H.
    destruct HI as [Ht ? ? ? ?]. split; simpl; [|done..]. rewrite <-Ht.
    etransitivity; [by eapply restart_threads_length|]. symmetry. by eapply Forall2_length.
  - intros [|c cs] forbid g s' H; [done|].
    eapply (PrepareForDepth_inv 0 (mk_Pct _ _ _ _ _ _ _ _ _)); [exact H|simpl..]; [by rewrite length_replicate|lia|done].
Qed.
End pct.
