(* ===== verification/PrettyPrint.v ===== *)
(** * PrettyPrint: histories as tables (pretty_print.h, verifying_macro.h)

    [PrettyPrinter] prints a history with a column per thread and a row per
    event.  There are two functions, one for the sequential history and one for
    the full history of [TLAScheduler].  The theorems say when printing succeeds
    (a cell is twenty characters wide), that the table is aligned, and that the
    numbers of the tasks of a full history go to [std::cout]. *)

From Stdlib Require Import ZArith Lia.
From stdpp Require Import base gmap strings pretty option list_numbers list.
From S2P Require Import Prelude ValueWrapper Text History Coro.

(** ** Arguments as strings (verifying_macro.h:24-53, verifying.cpp:10-19) *)

(** [ltest::toString]; the types without an instance do not link. *)
Definition toString (a : any_value) : outcome string :=
  match a with
  | any_int z | any_size z => Ok (pretty z)
  | any_bool b => Ok (if b then "1" else "0")
  | any_token _ => Ok "token"
  | any_optional_int _ | any_void => Fail (Undefined "toString")
  end.

Fixpoint toStringList (t : tuple) : outcome (list string) :=
  match t with
  | [] => Ok []
  | a :: t => s ← toString a; l ← toStringList t; Ok (s :: l)
  end.

(** [FullHistoryWithThreads] (pretty_print.h:14): a thread with the task it ran
    or the status change it announced. *)
Definition FullHistoryWithThreads : Type := list (nat * (TaskRef + CoroutineStatus)).

(** [index] of a full history: a number for each task. *)
Abbreviation Numbers := (gmap TaskRef Z).

(** [PrettyPrinter], of which there is one: its [threads_num]. *)
Class PrettyPrinter := printer_threads : Z.

Section printer.
Context `{HT : Target}.
(** [threads_num], and the tasks the references of the history point to. *)
Context (threads_num : Z) (task_of : TaskRef → option CoroBase).

Local Abbreviation M := (stM Streams).

Definition GetStrArgs (c : CoroBase) : outcome (list string) := toStringList (args c).

Definition deref (r : TaskRef) : M CoroBase := st_lift (or_fail (Undefined "task") (task_of r)).

Definition cell_width : Z := 20.
Definition newline : string := String (Ascii.ascii_of_nat 10) "".

(** ** The lines (pretty_print.h:45-79) *)

Definition print_spaces (count : Z) : M unit := int_loop count (λ _, put " ").

Definition print_separator : M unit :=
  _ ← put "*";
  _ ← int_loop threads_num (λ _, _ ← int_loop cell_width (λ _, put "-"); put "*");
  put newline.

Definition print_header : M unit :=
  _ ← put "|";
  _ ← int_loop threads_num (λ i,
    let rest := wrap32 (cell_width - 1 - Z.of_nat (String.length (pretty (Z.of_nat i)))) in
    _ ← print_spaces (Z.quot rest 2);
    _ ← put "T"; _ ← put (pretty (Z.of_nat i));
    _ ← print_spaces (rest - Z.quot rest 2);
    put "|");
  put newline.

Definition print_empty_cell : M unit := _ ← print_spaces cell_width; put "|".

(** [FitPrinter::Out]: [rest] counts the characters that are left. *)
Definition fp_Out (msg : string) (rest : Z) : M Z :=
  _ ← put msg; mret (wrap32 (rest - Z.of_nat (String.length msg))).

(** The end of a row: the rest of the cell and the empty cells behind it. *)
Definition print_row_end (num rest : Z) : M unit :=
  _ ← print_spaces rest;
  _ ← put "|";
  _ ← int_loop (wrapu64 (threads_num - num - 1)) (λ _, print_empty_cell);
  put newline.

(** ** The sequential history (pretty_print.h:32-120) *)

Definition get_thread_num (v : HistoryEvent) : Z :=
  match v with EInvoke i => inv_thread_id i | EResponse r => res_thread_id r end.

Fixpoint print_args (first : bool) (args : list string) (rest : Z) : M Z :=
  match args with
  | [] => mret rest
  | a :: args =>
      rest ← (if first then mret rest else fp_Out ", " rest);
      rest ← fp_Out a rest;
      print_args false args rest
  end.

(** The name of a method and its arguments. *)
Definition print_call (c : CoroBase) (rest : Z) : M Z :=
  rest ← fp_Out (GetName c) rest;
  rest ← fp_Out "(" rest;
  args ← st_lift (GetStrArgs c);
  rest ← print_args true args rest;
  fp_Out ")" rest.

Definition print_event (e : HistoryEvent) (rest : Z) : M Z :=
  match e with
  | EInvoke i =>
      c ← deref (inv_task i);
      rest ← fp_Out ("[" +:+ pretty (GetId c) +:+ "] ") rest;
      print_call c rest
  | EResponse r =>
      c ← deref (res_task r);
      v ← st_lift (coro_GetRetVal c);
      t ← st_lift (vw_to_string v);
      fp_Out ("<-- " +:+ t) rest
  end.

Definition print_row (e : HistoryEvent) : M unit :=
  let num := get_thread_num e in
  _ ← put "|";
  _ ← int_loop num (λ _, print_empty_cell);
  rest ← fp_Out " " cell_width;
  rest ← print_event e rest;
  _ ← st_assert "fp.rest > 0" (0 <? rest)%Z;
  print_row_end num rest.

Fixpoint print_rows (result : list HistoryEvent) : M unit :=
  match result with
  | [] => mret tt
  | e :: result => _ ← print_row e; print_rows result
  end.

Definition PrettyPrint (result : list HistoryEvent) : M unit :=
  _ ← print_separator;
  _ ← print_header;
  _ ← print_separator;
  _ ← print_rows result;
  print_separator.

(** ** The full history (pretty_print.h:122-235) *)

(** [index] is a [std::map] from tasks. *)
Definition number (r : TaskRef) (index : Numbers) : Numbers :=
  match index !! r with Some _ => index | None => <[r := Z.of_nat (size index)]> index end.

(** [print_formated_spaces]. *)
Fixpoint print_formated_spaces (count : nat) (rest : Z) : M Z :=
  match count with
  | 0 => mret rest
  | S count => rest ← fp_Out " " rest; print_formated_spaces count rest
  end.

Definition print_task_row (num : nat) (r : TaskRef) (index : Numbers) : M (Z * Numbers) :=
  c ← deref r;
  let index := number r index in
  let text := pretty (default 0%Z (index !! r)) in
  let length := Z.of_nat (String.length text) in
  _ ← put_cout text;
  _ ← st_assert "spaces - length >= 0" (0 <=? 7 - length)%Z;
  _ ← print_spaces (7 - length);
  _ ← put "|";
  _ ← int_loop (Z.of_nat num) (λ _, print_empty_cell);
  rest ← fp_Out " " cell_width;
  rest ← print_call c rest;
  mret (rest, index).

Definition print_status_row (num : nat) (cor : CoroutineStatus) (co_depth : list Z) : M (Z * list Z) :=
  _ ← print_spaces 7;
  _ ← put "|";
  _ ← int_loop (Z.of_nat num) (λ _, print_empty_cell);
  d ← st_lift (vec_get co_depth num);
  '(rest, d) ←
    (if has_started cor then
       rest ← print_formated_spaces (Z.to_nat (d + 1)) cell_width;
       rest ← fp_Out ">" rest; mret (rest, (d + 1)%Z)
     else
       rest ← print_formated_spaces (Z.to_nat d) cell_width;
       rest ← fp_Out "<" rest; mret (rest, (d - 1)%Z));
  rest ← fp_Out (cs_name cor) rest;
  _ ← st_assert "fp.rest > 0" (0 <? rest)%Z;
  mret (rest, <[num := d]> co_depth).

Fixpoint print_full_rows (result : FullHistoryWithThreads) (index : Numbers) (co_depth : list Z) : M unit :=
  match result with
  | [] => mret tt
  | (num, row) :: result =>
      '(rest, (index, co_depth)) ←
        (match row with
         | inl r => '(rest, index) ← print_task_row num r index; mret (rest, (index, co_depth))
         | inr cor => '(rest, co_depth) ← print_status_row num cor co_depth; mret (rest, (index, co_depth))
         end);
      _ ← print_row_end (Z.of_nat num) rest;
      print_full_rows result index co_depth
  end.

Definition FullPrettyPrint (result : FullHistoryWithThreads) : M unit :=
  _ ← print_spaces 7; _ ← print_separator;
  _ ← print_spaces 7; _ ← print_header;
  _ ← print_spaces 7; _ ← print_separator;
  _ ← print_full_rows result ∅ (replicate (Z.to_nat threads_num) 0%Z);
  _ ← print_spaces 7; print_separator.

(** ** What the parts print *)

(** A computation that prints the text [p] gives, or fails as [p] does. *)
Definition prints_or {A} (m : M A) (p : outcome (A * string)) : Prop :=
  ∀ s, m s = match p with Ok (a, o) => Ok (a, emit o "" s) | Fail f => Fail f end.

Lemma prints_or_Ok {A} (m : M A) a o : prints m a o "" → prints_or m (Ok (a, o)).
Proof. done. Qed.

Lemma prints_or_bind {A B} (m : M A) (k : A → M B) a o p :
  prints m a o "" → prints_or (k a) p → prints_or (m ≫= k) ('(b, o') ← p; Ok (b, o +:+ o')).
Proof.
  intros H1 H2 s. rewrite (st_bind_eq _ _ _ _ _ (H1 s)), H2. destruct p as [[b o']|]; [|done]. simpl.
  by rewrite emit_emit.
Qed.

Lemma prints_or_bind_or {A B} (m : M A) (k : A → M B) p q :
  prints_or m p → (∀ a o, p = Ok (a, o) → prints_or (k a) (q a)) →
  prints_or (m ≫= k) ('(a, o) ← p; '(b, o') ← q a; Ok (b, o +:+ o')).
Proof.
  intros H1 H2 s. destruct p as [[a o]|f].
  - rewrite (st_bind_eq _ _ _ _ _ (H1 s)), (H2 a o eq_refl). simpl. destruct (q a) as [[b o']|]; [|done]. simpl.
    by rewrite emit_emit.
  - unfold mbind, stM_bind. by rewrite H1.
Qed.

Lemma prints_or_lift {A B} (m : outcome A) (k : A → M B) p :
  (∀ a, prints_or (k a) (p a)) → prints_or (st_lift m ≫= k) (a ← m; p a).
Proof. intros H s. destruct m as [a|f]; [|done]. apply H. Qed.

Lemma prints_or_eq {A} (m : M A) p q : prints_or m p → p = q → prints_or m q.
Proof. by intros H <-. Qed.

(** What is left of a cell after a text. *)
Definition left (t : string) : Z := wrap32 (cell_width - Z.of_nat (String.length t)).

Lemma left_app t msg : wrap32 (left t - Z.of_nat (String.length msg)) = left (t +:+ msg).
Proof. unfold left. rewrite wrap32_sub, string_length_app. f_equal. lia. Qed.

Lemma fp_Out_prints msg t : prints (fp_Out msg (left t)) (left (t +:+ msg)) msg "".
Proof. rewrite <-left_app. eapply prints_eq; [unfold fp_Out; prints_tac|strings..]. Qed.

(** The text of the arguments, and of an event. *)
Fixpoint commas (first : bool) (args : list string) : string :=
  match args with
  | [] => ""
  | a :: args => (if first then "" else ", ") +:+ a +:+ commas false args
  end.

Definition call_text (c : CoroBase) : outcome string :=
  args ← GetStrArgs c; Ok (GetName c +:+ "(" +:+ commas true args +:+ ")").

Definition event_text (e : HistoryEvent) : outcome string :=
  match e with
  | EInvoke i =>
      c ← or_fail (Undefined "task") (task_of (inv_task i));
      call ← call_text c;
      Ok (("[" +:+ pretty (GetId c) +:+ "] ") +:+ call)
  | EResponse r =>
      c ← or_fail (Undefined "task") (task_of (res_task r));
      v ← coro_GetRetVal c;
      t ← vw_to_string v;
      Ok ("<-- " +:+ t)
  end.

Lemma print_args_prints first args t :
  prints (print_args first args (left t)) (left (t +:+ commas first args)) (commas first args) "".
Proof.
  revert first t. induction args as [|a args IH]; intros first t; simpl.
  { rewrite string_app_nil_r. apply prints_ret. }
  assert (prints (if first then mret (left t) else fp_Out ", " (left t))
    (left (t +:+ if first then "" else ", ")) (if first then "" else ", ") "") as H.
  { destruct first; [rewrite string_app_nil_r; apply prints_ret|apply fp_Out_prints]. }
  rewrite !string_app_assoc.
  eapply prints_eq; [eapply prints_bind; [exact H|]; eapply prints_bind; [apply fp_Out_prints|apply IH]|strings..].
Qed.

Lemma print_call_prints c t :
  prints_or (print_call c (left t)) (call ← call_text c; Ok (left (t +:+ call), call)).
Proof.
  unfold print_call. eapply prints_or_eq.
  - eapply prints_or_bind; [apply fp_Out_prints|]. eapply prints_or_bind; [apply fp_Out_prints|].
    apply prints_or_lift. intros args. apply prints_or_Ok.
    eapply prints_eq; [eapply prints_bind; [apply print_args_prints|apply fp_Out_prints]|reflexivity|strings].
  - unfold call_text. destruct (GetStrArgs c) as [args|]; [|done]. simpl. strings.
Qed.

Lemma print_event_prints e t :
  prints_or (print_event e (left t)) (text ← event_text e; Ok (left (t +:+ text), text)).
Proof.
  destruct e as [i|r]; unfold print_event, event_text, deref; eapply prints_or_eq.
  - apply prints_or_lift. intros c. eapply prints_or_bind; [apply fp_Out_prints|apply print_call_prints].
  - destruct (or_fail _ _) as [c|]; [|done]. simpl. destruct (call_text c) as [call|]; [|done]. simpl. strings.
  - apply prints_or_lift. intros c. apply prints_or_lift. intros v. apply prints_or_lift. intros x.
    apply prints_or_Ok, fp_Out_prints.
  - destruct (or_fail _ _) as [c|]; [|done]. simpl. destruct (coro_GetRetVal c) as [v|]; [|done]. simpl.
    by destruct (vw_to_string v).
Qed.

(** ** The table *)

Definition blank : string := times 20 " ".
Definition pad (t : string) : string := t +:+ times (20 - String.length t) " ".
Definition width : nat := Z.to_nat threads_num.

(** A line with a cell per thread, and its columns. *)
Definition line (cell : nat → string) : string := "|" +:+ cat ((λ j, cell j +:+ "|") <$> seq 0 width).
Definition column (j : nat) (l : string) : string := String.substring (1 + 21 * j) 20 l.

Definition separator : string := "*" +:+ times width (times 20 "-" +:+ "*").
Definition header_cell (i : nat) : string :=
  let rest := 19 - String.length (pretty (Z.of_nat i)) in
  times (Nat.div rest 2) " " +:+ "T" +:+ pretty (Z.of_nat i) +:+ times (rest - Nat.div rest 2) " ".
Definition row_line (num : nat) (text : string) : string := line (λ j, if j =? num then pad text else blank).

Lemma length_pad t : String.length t ≤ 20 → String.length (pad t) = 20.
Proof. intros H. unfold pad. rewrite string_length_app, length_times. simpl. lia. Qed.

Lemma length_blank : String.length blank = 20.
Proof. done. Qed.

Lemma length_cells (cell : nat → string) i n :
  (∀ j, j < i + n → String.length (cell j) = 20) →
  String.length (cat ((λ j, cell j +:+ "|") <$> seq i n)) = 21 * n.
Proof.
  intros H. rewrite (length_cat_same 21), length_fmap, length_seq; [lia|]. apply Forall_fmap, Forall_forall.
  intros j Hj%elem_of_seq. simpl. rewrite string_length_app, H by lia. done.
Qed.

Lemma length_line cell : (∀ j, j < width → String.length (cell j) = 20) → String.length (line cell) = 1 + 21 * width.
Proof. intros H. unfold line. rewrite string_length_app, length_cells; [done|]. intros. apply H. lia. Qed.

Lemma seq_split n j : j < n → seq 0 n = seq 0 j ++ j :: seq (S j) (n - j - 1).
Proof. intros H. replace n with (j + S (n - j - 1)) at 1 by lia. by rewrite seq_app. Qed.

Lemma line_split cell j : j < width →
  line cell = ("|" +:+ cat ((λ j, cell j +:+ "|") <$> seq 0 j)) +:+ cell j +:+
              ("|" +:+ cat ((λ j, cell j +:+ "|") <$> seq (S j) (width - j - 1))).
Proof. intros H. unfold line. rewrite (seq_split width j), fmap_app, cat_app by done. simpl. strings. Qed.

(** Reading a column back. *)
Lemma column_line cell j :
  (∀ j, j < width → String.length (cell j) = 20) → j < width → column j (line cell) = cell j.
Proof.
  intros H Hj. rewrite (line_split _ _ Hj). unfold column.
  replace (1 + 21 * j) with (String.length ("|" +:+ cat ((λ j, cell j +:+ "|") <$> seq 0 j))).
  - rewrite <-(H j Hj) at 1. apply substring_app.
  - rewrite string_length_app, length_cells; [done|]. intros. apply H. lia.
Qed.

Lemma row_line_split num text : num < width →
  row_line num text = "|" +:+ times num (blank +:+ "|") +:+ pad text +:+ "|" +:+ times (width - num - 1) (blank +:+ "|").
Proof.
  intros H. unfold row_line. rewrite (line_split _ _ H), Nat.eqb_refl.
  rewrite !(cat_const _ (blank +:+ "|")), !length_seq; [strings|..].
  - intros j Hj%elem_of_seq. by rewrite (proj2 (Nat.eqb_neq _ _)) by lia.
  - intros j Hj%elem_of_seq. by rewrite (proj2 (Nat.eqb_neq _ _)) by lia.
Qed.

Lemma print_spaces_prints k : (k < 2 ^ 31)%Z → prints (print_spaces k) tt (times (Z.to_nat k) " ") "".
Proof. intros H. apply int_loop_times; [done|]. auto with prints. Qed.

Lemma print_empty_cell_prints : prints print_empty_cell tt (blank +:+ "|") "".
Proof. unfold print_empty_cell. eapply prints_then; [by apply print_spaces_prints|apply prints_put]. Qed.

Context (Hthreads : (0 ≤ threads_num < 2 ^ 31)%Z).

Lemma print_separator_prints : prints print_separator tt (separator +:+ newline) "".
Proof.
  unfold print_separator. eapply prints_eq.
  - eapply prints_then; [apply prints_put|]. eapply prints_then; [|apply prints_put].
    apply (int_loop_times (times 20 "-" +:+ "*")); [lia|]. intros _.
    eapply prints_then; [|apply prints_put]. apply (int_loop_times "-"); [done|]. auto with prints.
  - unfold separator. strings.
  - done.
Qed.

Lemma header_number_length i : i < width → String.length (pretty (Z.of_nat i)) ≤ 10.
Proof. intros H. apply pretty_nat_length. unfold width in H. lia. Qed.

Lemma length_header_cell i : i < width → String.length (header_cell i) = 20.
Proof.
  intros H%header_number_length. unfold header_cell. rewrite !string_length_app, !length_times.
  set (k := String.length (pretty (Z.of_nat i))) in *.
  assert ((19 - k) `div` 2 ≤ 19 - k) as Hd by (apply Nat.Div0.div_le_upper_bound; lia).
  revert Hd. generalize ((19 - k) `div` 2). intros d Hd. simpl. lia.
Qed.

Lemma header_cell_prints i : i < width →
  prints (let rest := wrap32 (cell_width - 1 - Z.of_nat (String.length (pretty (Z.of_nat i)))) in
    _ ← print_spaces (Z.quot rest 2);
    _ ← put "T"; _ ← put (pretty (Z.of_nat i));
    _ ← print_spaces (rest - Z.quot rest 2);
    put "|") tt (header_cell i +:+ "|") "".
Proof.
  intros H%header_number_length. unfold header_cell, cell_width.
  set (k := String.length (pretty (Z.of_nat i))) in *. rewrite wrap32_id by (unfold in_int32; lia).
  replace (20 - 1 - Z.of_nat k)%Z with (Z.of_nat (19 - k)) by lia.
  rewrite Z.quot_div_nonneg by lia.
  change 2%Z with (Z.of_nat 2). rewrite <-Nat2Z.inj_div, <-Nat2Z.inj_sub.
  2: { apply Nat.Div0.div_le_upper_bound. lia. }
  assert ((19 - k) `div` 2 ≤ 19) by (apply Nat.Div0.div_le_upper_bound; lia). eapply prints_eq.
  - cbv zeta. eapply prints_then; [apply print_spaces_prints; lia|]. eapply prints_then; [apply prints_put|].
    eapply prints_then; [apply prints_put|]. eapply prints_then; [apply print_spaces_prints; lia|apply prints_put].
  - rewrite !Nat2Z.id. strings.
  - done.
Qed.

Lemma print_header_prints : prints print_header tt (line header_cell +:+ newline) "".
Proof.
  unfold print_header. eapply prints_eq.
  - eapply prints_bind; [apply prints_put|]. eapply prints_bind; [|apply prints_put].
    apply (int_loop_prints (λ i, header_cell i +:+ "|") (λ _, "")); [lia|]. apply header_cell_prints.
  - unfold line, width. strings.
  - rewrite cat_empty. done.
Qed.

(** ** The rows *)

(** The line of an event, when its text fits. *)
Definition row_of (e : HistoryEvent) : outcome string :=
  text ← event_text e;
  _ ← assert "fp.rest > 0" (0 <? left (" " +:+ text))%Z;
  Ok (row_line (Z.to_nat (get_thread_num e)) (" " +:+ text)).

Fixpoint rows_of (result : list HistoryEvent) : outcome (list string) :=
  match result with
  | [] => Ok []
  | e :: result => l ← row_of e; ls ← rows_of result; Ok (l :: ls)
  end.

Definition unlines (ls : list string) : string := cat ((λ l, l +:+ newline) <$> ls).

(** The thread of the event exists and its text is a string of a sensible size. *)
Definition printable (e : HistoryEvent) : Prop :=
  (0 ≤ get_thread_num e < threads_num)%Z ∧
  ∀ text, event_text e = Ok text → (Z.of_nat (String.length text) < 2 ^ 31)%Z.

Lemma left_fits text : (Z.of_nat (String.length text) < 2 ^ 31)%Z →
  left (" " +:+ text) = (19 - Z.of_nat (String.length text))%Z.
Proof.
  intros H. unfold left, cell_width. rewrite wrap32_id, string_length_app; simpl; [lia|]. unfold in_int32.
  rewrite string_length_app. simpl. lia.
Qed.

Lemma print_row_end_prints num rest :
  (0 ≤ num < threads_num)%Z → (rest < 2 ^ 31)%Z →
  prints (print_row_end num rest) tt
    (times (Z.to_nat rest) " " +:+ "|" +:+ times (width - Z.to_nat num - 1) (blank +:+ "|") +:+ newline) "".
Proof.
  intros Hn Hr. unfold print_row_end. rewrite wrapu64_id by lia. eapply prints_eq.
  - eapply prints_then; [by apply print_spaces_prints|]. eapply prints_then; [apply prints_put|].
    eapply prints_then; [|apply prints_put]. apply int_loop_times; [lia|]. intros _. apply print_empty_cell_prints.
  - replace (Z.to_nat (threads_num - num - 1)) with (width - Z.to_nat num - 1) by (unfold width; lia). done.
  - done.
Qed.

Lemma print_row_prints e : printable e → prints_or (print_row e) (l ← row_of e; Ok (tt, l +:+ newline)).
Proof.
  intros [Hn Hlen]. unfold print_row, row_of. eapply prints_or_eq.
  - eapply prints_or_bind; [apply prints_put|].
    eapply prints_or_bind; [apply int_loop_times; [lia|intros _; apply print_empty_cell_prints]|].
    eapply prints_or_bind; [apply (fp_Out_prints " " "")|].
    eapply (prints_or_bind_or _ _ _ (λ rest, _ ← assert _ (0 <? rest)%Z; Ok (tt, _)));
      [apply print_event_prints|].
    intros rest o Hrest. apply (prints_or_lift (assert _ (0 <? rest)%Z) _ (λ _, Ok (tt, _))). intros _.
    apply prints_or_Ok, print_row_end_prints; [done|].
    apply bind_Ok in Hrest as (text & _ & Hrest). injection Hrest as <- _. apply wrap32_range.
  - destruct (event_text e) as [text|f]; [|done]. specialize (Hlen _ eq_refl). simpl.
    change ("" +:+ ?s) with s. rewrite left_fits by done.
    destruct (Z.ltb_spec 0 (19 - Z.of_nat (String.length text))); [|done]. simpl. do 2 f_equal.
    rewrite row_line_split by (unfold width; lia). unfold pad.
    replace (20 - String.length (" " +:+ text)) with (Z.to_nat (19 - Z.of_nat (String.length text)))
      by (rewrite string_length_app; simpl; lia).
    strings.
Qed.

Lemma print_rows_prints result : Forall printable result →
  prints_or (print_rows result) (ls ← rows_of result; Ok (tt, unlines ls)).
Proof.
  induction 1 as [|e result He _ IH]; simpl.
  { apply prints_or_Ok, prints_ret. }
  eapply prints_or_eq; [eapply (prints_or_bind_or _ _ _ (λ _, _)); [by apply print_row_prints|intros _ _ _; apply IH]|].
  destruct (row_of e) as [l|]; [|done]. simpl. by destruct (rows_of result).
Qed.

Definition table (rows : list string) : list string :=
  separator :: line header_cell :: separator :: rows ++ [separator].

Lemma PrettyPrint_prints result : Forall printable result →
  prints_or (PrettyPrint result) (ls ← rows_of result; Ok (tt, unlines (table ls))).
Proof.
  intros H. unfold PrettyPrint. eapply prints_or_eq.
  - eapply prints_or_bind; [apply print_separator_prints|]. eapply prints_or_bind; [apply print_header_prints|].
    eapply prints_or_bind; [apply print_separator_prints|].
    eapply (prints_or_bind_or _ _ _ (λ _, Ok (tt, _))); [by apply print_rows_prints|].
    intros _ _ _. apply prints_or_Ok, print_separator_prints.
  - destruct (rows_of result) as [ls|]; [|done]. simpl. unfold unlines, table. do 2 f_equal. simpl.
    rewrite fmap_app, cat_app. simpl. strings.
Qed.

Lemma rows_of_Ok result ls : rows_of result = Ok ls ↔ Forall2 (λ e l, row_of e = Ok l) result ls.
Proof.
  revert ls. induction result as [|e result IH]; intros ls; simpl.
  { split; [intros [= <-]; constructor|by intros ->%Forall2_nil_inv_l]. }
  split.
  - intros (l & Hl & (ls' & Hls & [= <-])%bind_Ok)%bind_Ok. constructor; [done|by apply IH].
  - intros (l & ls' & Hl & Hls & ->)%Forall2_cons_inv_l. rewrite Hl. simpl. apply IH in Hls. by rewrite Hls.
Qed.

Lemma row_of_Ok e l : printable e → row_of e = Ok l ↔
  ∃ text, event_text e = Ok text ∧ String.length text < 19 ∧ l = row_line (Z.to_nat (get_thread_num e)) (" " +:+ text).
Proof.
  intros [_ Hlen]. unfold row_of. rewrite bind_Ok. split.
  - intros (text & Ht & (u & Hb%assert_Ok & H)%bind_Ok). injection H as <-. exists text.
    rewrite left_fits in Hb by auto. apply Z.ltb_lt in Hb. split_and!; [done|lia|done].
  - intros (text & Ht & Hlt & ->). exists text. split; [done|]. rewrite left_fits by auto.
    by rewrite (proj2 (Z.ltb_lt _ _)) by lia.
Qed.

Lemma row_line_cells num text : String.length text < 20 → ∀ j, j < width →
  String.length (if j =? num then pad text else blank) = 20.
Proof. intros H j _. destruct (j =? num); [apply length_pad; lia|done]. Qed.

Lemma length_separator : String.length separator = 1 + 21 * width.
Proof.
  unfold separator. rewrite string_length_app, length_times, string_length_app, length_times. simpl. lia.
Qed.

(** C38: When [PrettyPrint] succeeds it has printed an aligned table and nothing
    to [std::cout]: every line is as wide as the separator, there is a row per
    event behind the header, and in that row the column of the event's thread
    holds the text of the event and the other columns are blank. *)
Theorem PrettyPrint_table result s u s' :
  Forall printable result → PrettyPrint result s = Ok (u, s') →
  ∃ lines, out_text s' = out_text s +:+ unlines lines ∧ cout_text s' = cout_text s ∧
    length lines = length result + 4 ∧ Forall (λ l, String.length l = 1 + 21 * width) lines ∧
    ∀ k e, result !! k = Some e → ∃ text l, event_text e = Ok text ∧ lines !! (k + 3) = Some l ∧
      ∀ j, j < width → column j l = if j =? Z.to_nat (get_thread_num e) then pad (" " +:+ text) else blank.
Proof.
  intros Hp H. rewrite PrettyPrint_prints in H by done.
  destruct (rows_of result) as [ls|] eqn:Hls; [|done]. injection H as _ <-. apply rows_of_Ok in Hls.
  exists (table ls). split_and!; [done|apply string_app_nil_r| | |].
  - unfold table. simpl. rewrite length_app, (Forall2_length _ _ _ Hls). simpl. lia.
  - repeat apply Forall_cons_2; [apply length_separator|by apply length_line, length_header_cell|apply length_separator|].
    apply Forall_app. split; [|by constructor; [apply length_separator|]].
    apply Forall_lookup. intros k l Hl. destruct (Forall2_lookup_r _ _ _ _ _ Hls Hl) as (e & He & Hrow).
    apply row_of_Ok in Hrow as (text & _ & Hlt & ->); [|by eapply Forall_lookup in Hp].
    apply length_line, row_line_cells. rewrite string_length_app. simpl. lia.
  - intros k e He. destruct (Forall2_lookup_l _ _ _ _ _ Hls He) as (l & Hl & Hrow).
    apply row_of_Ok in Hrow as (text & Ht & Hlt & ->); [|by eapply Forall_lookup in Hp].
    eexists text, _. split_and!; [done| |].
    + unfold table. rewrite Nat.add_comm. simpl. by apply lookup_app_l_Some.
    + intros j Hj. apply (column_line _ _ (row_line_cells _ (" " +:+ text) ltac:(rewrite string_length_app; simpl; lia)) Hj).
Qed.

(** [PrettyPrint] returns exactly when every event has a text (the task is
    there, a response has a printable result) that leaves room in a cell of
    twenty characters; otherwise it fails. *)
Theorem PrettyPrint_returns result s :
  Forall printable result →
  ((∃ u s', PrettyPrint result s = Ok (u, s')) ↔
   Forall (λ e, ∃ text, event_text e = Ok text ∧ String.length text < 19) result).
Proof.
  intros Hp. rewrite PrettyPrint_prints by done. transitivity (∃ ls, rows_of result = Ok ls).
  { destruct (rows_of result) as [ls|]; [|naive_solver]. split; eauto. }
  setoid_rewrite rows_of_Ok. split.
  - intros [ls H]. apply Forall_lookup. intros k e He. destruct (Forall2_lookup_l _ _ _ _ _ H He) as (l & _ & Hrow).
    apply row_of_Ok in Hrow as (text & ? & ? & _); [by exists text|by eapply Forall_lookup in Hp].
  - intros H. induction Hp as [|e result He _ IH]; [by exists []|].
    apply Forall_cons_1 in H as [(text & Ht & Hlt) H]. destruct (IH H) as [ls Hls]. eexists (_ :: ls). constructor; [|done].
    apply row_of_Ok; [done|]. eauto.
Qed.

End printer.

(** ** The numbers of the full history *)

Section numbers.
Context `{HT : Target} (threads_num : Z) (task_of : TaskRef → option CoroBase).

Local Abbreviation M := (stM Streams).

Lemma silent_fp_Out msg rest : silent (fp_Out msg rest).
Proof. unfold fp_Out. silent_tac. Qed.
Lemma silent_print_spaces n : silent (print_spaces n).
Proof. unfold print_spaces. auto with silent. Qed.
#[local] Hint Resolve silent_fp_Out silent_print_spaces : silent.

Lemma silent_print_empty_cell : silent print_empty_cell.
Proof. unfold print_empty_cell. silent_tac. Qed.
#[local] Hint Resolve silent_print_empty_cell : silent.

Lemma silent_print_separator : silent (print_separator threads_num).
Proof. unfold print_separator. silent_tac. apply silent_int_loop. intros i. silent_tac. Qed.
Lemma silent_print_header : silent (print_header threads_num).
Proof. unfold print_header. silent_tac. apply silent_int_loop. intros i. cbv zeta. silent_tac. Qed.
Lemma silent_print_row_end num rest : silent (print_row_end threads_num num rest).
Proof. unfold print_row_end. silent_tac. Qed.
Lemma silent_print_args first args rest : silent (print_args first args rest).
Proof. revert first rest. induction args as [|a args IH]; intros first rest; simpl; silent_tac. Qed.
#[local] Hint Resolve silent_print_separator silent_print_header silent_print_row_end silent_print_args : silent.

Lemma silent_print_call c rest : silent (print_call c rest).
Proof. unfold print_call. silent_tac. Qed.
Lemma silent_formated n rest : silent (print_formated_spaces n rest).
Proof. revert rest. induction n as [|n IH]; intros rest; simpl; silent_tac. Qed.
#[local] Hint Resolve silent_print_call silent_formated : silent.

Lemma silent_print_status_row num cor co_depth : silent (print_status_row num cor co_depth).
Proof. unfold print_status_row. silent_tac. Qed.
#[local] Hint Resolve silent_print_status_row : silent.

(** The tasks of a full history, and those seen so far in the order they came. *)
Definition tasks_of (result : FullHistoryWithThreads) : list TaskRef :=
  omap (λ e, match e.2 with inl r => Some r | inr _ => None end) result.
Definition seen (order : list TaskRef) (r : TaskRef) : list TaskRef :=
  if bool_decide (r ∈ order) then order else order ++ [r].
Definition first_seen (rs : list TaskRef) : list TaskRef := foldl seen [] rs.

(** [index] numbers the tasks seen so far. *)
Record numbers (order : list TaskRef) (index : Numbers) : Prop := {
  num_nodup : NoDup order;
  num_size : size index = length order;
  num_lookup : ∀ r k, index !! r = Some k ↔ ∃ n, k = Z.of_nat n ∧ order !! n = Some r;
}.

Lemma number_numbers order index r : numbers order index → numbers (seen order r) (number r index).
Proof.
  intros [Hnd Hsize Hl]. unfold seen, number. destruct (index !! r) as [k|] eqn:E.
  { rewrite bool_decide_true; [done|]. apply Hl in E as (n & _ & E). by eapply list_elem_of_lookup_2. }
  assert (r ∉ order) as Hr by (intros (n & Hn)%list_elem_of_lookup; assert (index !! r = Some (Z.of_nat n))
    by (apply Hl; eauto); congruence).
  rewrite bool_decide_false by done. split.
  - apply NoDup_app. split_and!; [done|by intros x Hx ->%list_elem_of_singleton|apply NoDup_singleton].
  - rewrite map_size_insert_None, length_app, Hsize by done. simpl. lia.
  - intros r' k. rewrite Hsize. destruct (decide (r' = r)) as [->|Hne].
    + rewrite lookup_insert_eq. split.
      * intros [= <-]. exists (length order). split; [done|]. by rewrite lookup_app_r, Nat.sub_diag by lia.
      * intros (n & -> & Hn). apply lookup_app_Some in Hn as [Hn|[Hge Hn]].
        { destruct Hr. by eapply list_elem_of_lookup_2. }
        apply list_lookup_singleton_Some in Hn as [Hn _]. do 2 f_equal. lia.
    + rewrite lookup_insert_ne by done. rewrite Hl. split; intros (n & -> & Hn); exists n; (split; [done|]).
      * by apply lookup_app_l_Some.
      * apply lookup_app_Some in Hn as [Hn|[Hge Hn]]; [done|].
        by apply list_lookup_singleton_Some in Hn as [_ ->].
Qed.

Lemma numbers_seen order index r : numbers order index →
  ∃ n, number r index !! r = Some (Z.of_nat n) ∧ seen order r !! n = Some r.
Proof.
  intros H%(number_numbers _ _ r). assert (r ∈ seen order r) as (n & Hn)%list_elem_of_lookup.
  { unfold seen. case_bool_decide; [done|]. apply elem_of_app. right. by left. }
  exists n. split; [|done]. apply (num_lookup _ _ H). eauto.
Qed.

(** Later tasks do not change the numbers. *)
Lemma seen_prefix order rs : ∃ more, foldl seen order rs = order ++ more.
Proof.
  revert order. induction rs as [|r rs IH]; intros order; simpl; [exists []; by rewrite app_nil_r|].
  destruct (IH (seen order r)) as [more ->]. unfold seen. case_bool_decide; [by eexists|].
  rewrite <-app_assoc. by eexists.
Qed.

Definition number_text (n : nat) : string := pretty (Z.of_nat n).

Lemma print_task_row_Ok num r index s rest index' s' :
  print_task_row task_of num r index s = Ok ((rest, index'), s') →
  index' = number r index ∧ cout_text s' = cout_text s +:+ pretty (default 0%Z (number r index !! r)).
Proof.
  unfold print_task_row. intros H. apply st_bind_Ok in H as (c & s1 & [_ ->]%st_lift_Ok & H). cbv zeta in H.
  apply st_bind_Ok in H as (u & s2 & Hput & H). injection Hput as _ <-.
  do 6 silent_step H. injection H as _ <- <-. split; [done|]. simpl in *. congruence.
Qed.

(** The numbers that the rows of [rs] get. *)
Definition numbered (order : list TaskRef) (rs : list TaskRef) (ns : list nat) : Prop :=
  Forall2 (λ r n, order !! n = Some r) rs ns.

Lemma print_full_rows_Ok result order index co_depth s u s' :
  numbers order index → print_full_rows threads_num task_of result index co_depth s = Ok (u, s') →
  ∃ ns, numbered (foldl seen order (tasks_of result)) (tasks_of result) ns ∧
    cout_text s' = cout_text s +:+ cat (number_text <$> ns).
Proof.
  revert order index co_depth s. induction result as [|[num [r|cor]] result IH];
    intros order index co_depth s Hn H; cbn [print_full_rows] in H.
  - injection H as _ <-. exists []. split; [constructor|]. by rewrite string_app_nil_r.
  - apply st_bind_Ok in H as ([rest [index' co_depth']] & s1 & Hrow & H).
    apply st_bind_Ok in Hrow as ([rest1 index1] & s2 & Hrow & E). injection E as <- <- <- <-.
    apply print_task_row_Ok in Hrow as [-> Hout]. silent_step H.
    destruct (IH _ _ _ _ (number_numbers _ _ r Hn) H) as (ns & Hns & Hrest).
    destruct (numbers_seen _ _ r Hn) as (n & Hnr & Hsn). rewrite Hnr in Hout.
    exists (n :: ns). split.
    + constructor; [|done]. destruct (seen_prefix (seen order r) (tasks_of result)) as [more Hm].
      simpl. rewrite Hm. by apply lookup_app_l_Some.
    + rewrite Hrest, E, Hout. simpl. by rewrite string_app_assoc.
  - apply st_bind_Ok in H as ([rest [index' co_depth']] & s1 & Hrow & H).
    apply st_bind_Ok in Hrow as ([rest1 co_depth1] & s2 & Hrow & E). injection E as <- <- <- <-.
    apply silent_print_status_row in Hrow. silent_step H.
    destruct (IH _ _ _ _ Hn H) as (ns & Hns & Hrest). exists ns. split; [done|]. by rewrite Hrest, E, Hrow.
Qed.

Lemma elem_of_seen order r x : x ∈ seen order r ↔ x ∈ order ∨ x = r.
Proof.
  unfold seen. case_bool_decide; [naive_solver|]. by rewrite elem_of_app, list_elem_of_singleton.
Qed.

Lemma first_seen_spec rs : NoDup (first_seen rs) ∧ ∀ r, r ∈ first_seen rs ↔ r ∈ rs.
Proof.
  unfold first_seen. induction rs as [|r rs [Hnd Hin]] using rev_ind; [split; [constructor|done]|].
  rewrite foldl_snoc. split.
  - unfold seen. case_bool_decide; [done|]. apply NoDup_app.
    split_and!; [done|by intros x Hx ->%list_elem_of_singleton|apply NoDup_singleton].
  - intros x. by rewrite elem_of_seen, elem_of_app, list_elem_of_singleton, Hin.
Qed.

(** The full history's printer numbers the tasks in the order they first
    appear, the same task always the same and two tasks differently, but it
    writes the numbers to [std::cout] whatever stream it was given. *)
Theorem FullPrettyPrint_numbers result s u s' :
  FullPrettyPrint threads_num task_of result s = Ok (u, s') →
  let order := first_seen (tasks_of result) in
  NoDup order ∧ (∀ r, r ∈ order ↔ r ∈ tasks_of result) ∧
  ∃ ns, Forall2 (λ r n, order !! n = Some r) (tasks_of result) ns ∧
    cout_text s' = cout_text s +:+ cat (number_text <$> ns).
Proof.
  intros H. split; [apply first_seen_spec|]. split; [apply first_seen_spec|].
  unfold FullPrettyPrint in H. do 6 silent_step H. apply st_bind_Ok in H as (u1 & s2 & Hrows & H). silent_step H.
  apply silent_print_separator in H.
  apply (print_full_rows_Ok _ []) in Hrows as (ns & Hns & Hout).
  - exists ns. split; [exact Hns|]. rewrite H, E5, Hout. f_equal. congruence.
  - split; [constructor|done|]. intros r k. rewrite lookup_empty. split; [done|]. intros (n & _ & Hn).
    by rewrite lookup_nil in Hn.
Qed.
End numbers.

(** ** When the full history can be printed *)

Create HintDb total.

Section full_returns.
Context `{HT : Target} (threads_num : Z) (task_of : TaskRef → option CoroBase).
Context (Hthreads : (0 ≤ threads_num < 2 ^ 31)%Z).

Local Abbreviation M := (stM Streams).

Definition total {A} (m : M A) : Prop := ∀ s, ∃ a s', m s = Ok (a, s').

Lemma total_bind {A B} (m : M A) (k : A → M B) : total m → (∀ a, total (k a)) → total (m ≫= k).
Proof. intros Hm Hk s. destruct (Hm s) as (a & s1 & E). rewrite (st_bind_eq _ _ _ _ _ E). apply Hk. Qed.
Lemma total_prints {A} (m : M A) a o c : prints m a o c → total m.
Proof. intros H s. rewrite H. eauto. Qed.
Lemma total_ret {A} (a : A) : total (mret a).
Proof. intros s. by exists a, s. Qed.
Lemma total_put msg : total (put msg).
Proof. intros s. by eexists _, _. Qed.
Lemma total_fp_Out msg rest : total (fp_Out msg rest).
Proof. intros s. by eexists _, _. Qed.
Lemma total_spaces k : (k < 2 ^ 31)%Z → total (print_spaces k).
Proof. intros H. by eapply total_prints, print_spaces_prints. Qed.
Lemma total_separator : total (print_separator threads_num).
Proof. by eapply total_prints, print_separator_prints. Qed.
Lemma total_header : total (print_header threads_num).
Proof. by eapply total_prints, print_header_prints. Qed.
Lemma total_empty_cells n : (n < 2 ^ 31)%Z → total (int_loop n (λ _, print_empty_cell)).
Proof. intros H. eapply total_prints, (int_loop_times (blank +:+ "|")); [done|]. intros _. apply print_empty_cell_prints. Qed.
#[local] Hint Resolve total_ret total_put total_fp_Out total_separator total_header : total.

Lemma total_print_args first args rest : total (print_args first args rest).
Proof.
  revert first rest. induction args as [|a args IH]; intros first rest; simpl; [auto with total|].
  apply total_bind; [destruct first; auto with total|]. intros rest1. apply total_bind; auto with total.
Qed.

Lemma total_print_call c strs rest : GetStrArgs c = Ok strs → total (print_call c rest).
Proof.
  intros Ha. unfold print_call. apply total_bind; [auto with total|]. intros r1. apply total_bind; [auto with total|].
  intros r2 s. st_lift_step Ha. revert s. change (total (rest ← print_args true strs r2; fp_Out ")" rest)).
  apply total_bind; [apply total_print_args|auto with total].
Qed.

Lemma total_row_end num rest : (0 ≤ num < threads_num)%Z → (rest < 2 ^ 31)%Z → total (print_row_end threads_num num rest).
Proof.
  intros Hnum Hrest. unfold print_row_end. apply total_bind; [by apply total_spaces|]. intros _.
  apply total_bind; [auto with total|]. intros _. apply total_bind; [|auto with total].
  apply total_empty_cells. rewrite wrapu64_id; change (2 ^ 31)%Z with 2147483648%Z in *; lia.
Qed.

(** What is left of a cell is an [int]. *)
Lemma fp_Out_int msg rest s rest' s' : fp_Out msg rest s = Ok (rest', s') → (rest' < 2 ^ 31)%Z.
Proof. unfold fp_Out. intros H. apply st_bind_Ok in H as (u & s1 & _ & H). inv_st H. apply wrap32_range. Qed.

Lemma print_call_int c rest s rest' s' : print_call c rest s = Ok (rest', s') → (rest' < 2 ^ 31)%Z.
Proof. unfold print_call. intros H. do 4 (apply st_bind_Ok in H as (? & ? & _ & H)). by eapply fp_Out_int. Qed.

(** A task that can be a row: its arguments can be printed and it is there. *)
Definition prints_task (r : TaskRef) : Prop := ∃ c strs, task_of r = Some c ∧ GetStrArgs c = Ok strs.

Lemma print_task_row_returns num r order index s :
  numbers (seen order r) (number r index) → (Z.of_nat (length (seen order r)) ≤ 10 ^ 7)%Z → (Z.of_nat num < threads_num)%Z → prints_task r →
  ∃ rest s', print_task_row task_of num r index s = Ok ((rest, number r index), s') ∧ (rest < 2 ^ 31)%Z.
Proof.
  intros Hn Hlen Hnum (c & strs & Hc & Ha). unfold print_task_row, deref. st_lift_step (f_equal (or_fail (Undefined "task")) Hc).
  cbv zeta. set (text := pretty _).
  assert (String.length text ≤ 7) as Hdigits.
  { assert (∃ n, number r index !! r = Some (Z.of_nat n) ∧ seen order r !! n = Some r) as (n & Hi & Hs).
    { assert (r ∈ seen order r) as (n & Hs)%list_elem_of_lookup by (apply elem_of_seen; by right).
      exists n. split; [|done]. apply (num_lookup _ _ Hn). eauto. }
    unfold text. rewrite Hi. apply (pretty_nat_length 6). apply lookup_lt_Some in Hs.
    change (Z.of_nat 7) with 7%Z. lia. }
  assert (total (_ ← put_cout text;
    _ ← st_assert "spaces - length >= 0" (0 <=? 7 - Z.of_nat (String.length text))%Z;
    _ ← print_spaces (7 - Z.of_nat (String.length text));
    _ ← put "|";
    _ ← int_loop (Z.of_nat num) (λ _, print_empty_cell);
    rest ← fp_Out " " cell_width;
    print_call c rest)) as Ht.
  { apply total_bind; [intros s1; by eexists _, _|]. intros _. apply total_bind.
    { intros s1. exists tt, s1. apply st_assert_Ok. split; [apply Z.leb_le; lia|done]. }
    intros _. apply total_bind; [apply total_spaces; lia|]. intros _. apply total_bind; [auto with total|]. intros _.
    apply total_bind; [apply total_empty_cells; lia|]. intros _. apply total_bind; [auto with total|]. intros rest.
    by eapply total_print_call. }
  destruct (Ht s) as (rest & s' & E). exists rest, s'.
  do 6 (apply st_bind_Ok in E as (? & ? & ? & E)). split; [|by eapply print_call_int].
  repeat match goal with H : _ ?s1 = Ok (_, ?s2) |- (_ ≫= _) ?s1 = _ => rewrite (st_bind_eq _ _ _ _ _ H); cbv beta end.
  done.
Qed.

(** Rows of tasks only, at most ten million of them: the numbers have seven
    digits at most, which is all that [FullPrettyPrint] asserts of such rows. *)
Definition task_row (e : nat * (TaskRef + CoroutineStatus)) : Prop :=
  (Z.of_nat e.1 < threads_num)%Z ∧ ∃ r, e.2 = inl r ∧ prints_task r.

Lemma print_full_rows_returns result order index co_depth s :
  numbers order index → Forall task_row result → (Z.of_nat (length order + length result) ≤ 10 ^ 7)%Z →
  ∃ u s', print_full_rows threads_num task_of result index co_depth s = Ok (u, s').
Proof.
  intros Hn H. revert order index s Hn. induction H as [|[num row] result [Hnum (r & Hr & Hp)] _ IH];
    intros order index s Hn Hlen; cbn [print_full_rows]; [by eexists _, _|].
  simpl in Hnum, Hr, Hlen. subst row. pose proof (number_numbers _ _ r Hn) as Hn1.
  assert (length (seen order r) ≤ S (length order)) as Hseen.
  { unfold seen. case_bool_decide; [lia|]. rewrite length_app. simpl. lia. }
  destruct (print_task_row_returns num r order index s Hn1 ltac:(lia) Hnum Hp) as (rest & s1 & E & Hrest).
  assert ((('(rest, index) ← print_task_row task_of num r index; mret (rest, (index, co_depth))) : M _) s =
    Ok ((rest, (number r index, co_depth)), s1)) as E' by by st_step E.
  rewrite (st_bind_eq _ _ _ _ _ E'). cbv beta iota.
  destruct (total_row_end (Z.of_nat num) rest ltac:(lia) Hrest s1) as (u & s2 & E2).
  rewrite (st_bind_eq _ _ _ _ _ E2). apply (IH (seen order r)); [done|lia].
Qed.

Lemma FullPrettyPrint_returns result s :
  Forall task_row result → (Z.of_nat (length result) ≤ 10 ^ 7)%Z → ∃ u s', FullPrettyPrint threads_num task_of result s = Ok (u, s').
Proof.
  intros H Hlen. revert s. change (total (FullPrettyPrint threads_num task_of result)). unfold FullPrettyPrint.
  do 6 (apply total_bind; [first [by apply total_spaces|auto with total]|intros _]).
  apply total_bind.
  - intros s. apply (print_full_rows_returns _ []); [|done|done]. split; [constructor|done|].
    intros r k. rewrite lookup_empty. split; [done|]. intros (n & _ & Hn). by rewrite lookup_nil in Hn.
  - intros _. apply total_bind; [by apply total_spaces|auto with total].
Qed.
End full_returns.
