(* ===== verification/Scheduler.v ===== *)
(** * StrategyScheduler: running, exploring and replaying rounds (scheduler.h:264-483)

    A scheduler drives a strategy through the [Strategy] interface and hands the
    sequential history to a model checker.  [RunRound] generates a round while it
    runs it, [ExploreRound] runs other interleavings of the current round, and
    [ReplayRound] repeats a given interleaving. *)

From stdpp Require Import base gmap strings option list.
From S2P Require Import Prelude ValueWrapper Text History Linearizability Coro Strategy PrettyPrint.

(** [ModelChecker] (lincheck.h:39-41).  A checker reads the tasks through the
    references of the history, so it gets the current tasks. *)
Class ModelChecker := mc_Check : (TaskRef → option (TaskInfo tuple)) → list HistoryEvent → outcome bool.

(** [Scheduler::FullHistory], [SeqHistory], [BothHistories] and [Result]
    (scheduler_fwd.h:12-17). *)
Definition FullHistory : Type := list TaskRef.
Definition SeqHistory : Type := list HistoryEvent.
Definition BothHistories : Type := FullHistory * SeqHistory.
Definition Result : Type := option BothHistories.

Section scheduler.
Context `{HT : Target} `{HC : !Code} `{HV : StrategyVerifier} `{HS : !Strategy}.
Context `{HMC : ModelChecker} {HPP : PrettyPrinter}.
(** Fuel for the loops inside of the strategy (terminating tasks). *)
Context (inner : nat).

Local Abbreviation M := (stM St).

Definition task_GetRetVal (r : TaskRef) : stM BaseStrategy ValueWrapper :=
  c ← get_task r; st_lift (coro_GetRetVal c).

Definition invocation (t : TaskWithMetaData) : HistoryEvent :=
  EInvoke (mk_Invoke (task t) (Z.of_nat (thread_id t))).
Definition response (t : TaskWithMetaData) (v : ValueWrapper) : HistoryEvent :=
  EResponse (mk_Response (task t) v (Z.of_nat (thread_id t))).

(** [if (!checker.Check(history)) return make_pair(...); return nullopt;]. *)
Definition check_histories (h : BothHistories) : M (option BothHistories) :=
  s ← st_get;
  ok ← st_lift (mc_Check (task_at (base s)) h.2);
  mret (if (ok : bool) then None else Some h).

(** ** [RunRound] (scheduler.h:331-366) *)

(** One iteration of the loop; the result says whether the task returned. *)
Definition run_step (h : BothHistories) : M (bool * BothHistories) :=
  t ← Next inner;
  let seq := if is_new t then h.2 ++ [invocation t] else h.2 in
  let full := h.1 ++ [task t] in
  _ ← on_base (task_Resume (task t));
  returned ← on_base (task_IsReturned (task t));
  if (returned : bool) then
    _ ← on_base (OnVerifierTaskFinish t);
    result ← on_base (task_GetRetVal (task t));
    mret (true, (full, seq ++ [response t result]))
  else mret (false, (full, seq)).

(** The loop, with [remaining] tasks to finish. *)
Fixpoint run_loop (fuel remaining : nat) (h : BothHistories) : M BothHistories :=
  match remaining with
  | 0 => mret h
  | S remaining' =>
      match fuel with
      | 0 => st_fail OutOfFuel
      | S fuel =>
          '(finished, h) ← run_step h;
          run_loop fuel (if (finished : bool) then remaining' else remaining) h
      end
  end.

(** [pretty_printer.PrettyPrint(sequential_history, log())]: what the log is
    given is dropped here, but whether printing succeeds is not. *)
Definition print_log (h : SeqHistory) : M unit :=
  s ← st_get;
  _ ← st_lift (PrettyPrint printer_threads (slot (base s)) h (mk_Streams "" ""));
  mret tt.

Definition RunRound (fuel max_tasks : nat) : M Result :=
  h ← run_loop fuel max_tasks ([], []);
  _ ← print_log h.2;
  check_histories h.

(** ** [ExploreRound] (scheduler.h:369-403) *)

Definition explore_step (h : BothHistories) : M (bool * BothHistories) :=
  t ← NextSchedule;
  let seq := if is_new t then h.2 ++ [invocation t] else h.2 in
  let full := h.1 ++ [task t] in
  _ ← on_base (task_Resume (task t));
  returned ← on_base (task_IsReturned (task t));
  if (returned : bool) then
    result ← on_base (task_GetRetVal (task t));
    mret (true, (full, seq ++ [response t result]))
  else mret (false, (full, seq)).

Fixpoint explore_loop (fuel tasks_to_run : nat) (h : BothHistories) : M BothHistories :=
  match tasks_to_run with
  | 0 => mret h
  | S remaining =>
      match fuel with
      | 0 => st_fail OutOfFuel
      | S fuel =>
          '(finished, h) ← explore_step h;
          explore_loop fuel (if (finished : bool) then remaining else tasks_to_run) h
      end
  end.

(** One of the runs. *)
Definition explore_once (fuel : nat) : M Result :=
  _ ← ResetCurrentRound inner;
  s ← st_get;
  h ← explore_loop fuel (GetValidTasksCount (base s)) ([], []);
  check_histories h.

Fixpoint ExploreRound (fuel runs : nat) : M Result :=
  match runs with
  | 0 => mret None
  | S runs =>
      r ← explore_once fuel;
      match r with
      | Some h => mret (Some h)
      | None => ExploreRound fuel runs
      end
  end.

(** ** [ReplayRound] (scheduler.h:406-463) *)

Definition count_resumes (tasks_ordering : list Z) : gmap Z Z :=
  foldl (λ m id, <[id := (default 0 (m !! id) + 1)%Z]> m) ∅ tasks_ordering.

(** The rest of the loop body once the task is found. *)
Definition replay_resume (r : TaskRef) (next_task_id : Z) (resumes_count : gmap Z Z)
  : M (gmap Z Z) :=
  if (default 0 (resumes_count !! next_task_id) =? 0)%Z then
    _ ← on_base (task_Terminate inner r);
    mret (<[next_task_id := default 0%Z (resumes_count !! next_task_id)]> resumes_count)
  else
    _ ← on_base (task_Resume r);
    mret (<[next_task_id := (default 0 (resumes_count !! next_task_id) - 1)%Z]> resumes_count).

Fixpoint replay_loop (tasks_ordering : list Z) (started_tasks : gset Z) (resumes_count : gmap Z Z)
    (h : BothHistories) : M BothHistories :=
  match tasks_ordering with
  | [] => mret h
  | next_task_id :: tasks_ordering =>
      let is_new := negb (bool_decide (next_task_id ∈ started_tasks)) in
      let started_tasks := {[next_task_id]} ∪ started_tasks in
      s ← st_get;
      match GetTask (base s) next_task_id with
      | None => st_fail (RuntimeError "Invalid task id")
      | Some (r, th) =>
          let t := mk_TaskWithMetaData r is_new th in
          let seq := if is_new then h.2 ++ [invocation t] else h.2 in
          let full := h.1 ++ [r] in
          already ← on_base (task_IsReturned r);
          if (already : bool) then replay_loop tasks_ordering started_tasks resumes_count (full, seq)
          else
            resumes_count ← replay_resume r next_task_id resumes_count;
            returned ← on_base (task_IsReturned r);
            if (returned : bool) then
              result ← on_base (task_GetRetVal r);
              replay_loop tasks_ordering started_tasks resumes_count (full, seq ++ [response t result])
            else replay_loop tasks_ordering started_tasks resumes_count (full, seq)
      end
  end.

Definition ReplayRound (tasks_ordering : list Z) : M Result :=
  _ ← ResetCurrentRound inner;
  h ← replay_loop tasks_ordering ∅ (count_resumes tasks_ordering) ([], []);
  check_histories h.

(** ** Printing a history *)

Lemma print_log_inv h s u s' : print_log h s = Ok (u, s') → s' = s.
Proof.
  unfold print_log. rewrite st_get_bind. intros H. apply st_bind_Ok in H as (x & s1 & [_ ->]%st_lift_Ok & H).
  by inv_st H.
Qed.

Lemma check_histories_inv h s r s' : check_histories h s = Ok (r, s') → s' = s.
Proof.
  unfold check_histories. rewrite st_get_bind. intros H. apply st_bind_Ok in H as (ok & s1 & [_ ->]%st_lift_Ok & H).
  by inv_st H.
Qed.

(** A round that returns, taken apart: it was played, printed and checked. *)
Lemma RunRound_parts fuel n s r s' :
  RunRound fuel n s = Ok (r, s') →
  ∃ h, run_loop fuel n ([], []) s = Ok (h, s') ∧ print_log h.2 s' = Ok (tt, s') ∧ check_histories h s' = Ok (r, s').
Proof.
  unfold RunRound. intros H. apply st_bind_Ok in H as (h & s1 & Hrun & H).
  apply st_bind_Ok in H as ([] & s2 & Hp & H). pose proof (print_log_inv _ _ _ _ Hp) as ->.
  pose proof (check_histories_inv _ _ _ _ H) as ->. by exists h.
Qed.

(** The text of an event leaves room in its cell. *)
Definition row_fits (b : BaseStrategy) (e : HistoryEvent) : Prop :=
  ∃ text, event_text (slot b) e = Ok text ∧ String.length text < 19.
Definition rows_fit (b : BaseStrategy) (h : SeqHistory) : Prop := Forall (row_fits b) h.

(** The threads of a history are columns of its table, and no text is so long
    that its length overflows. *)
Definition columns (n : nat) (h : SeqHistory) : Prop :=
  Forall (λ e, 0 ≤ get_thread_num e < Z.of_nat n)%Z h.
Definition sensible (b : BaseStrategy) (h : SeqHistory) : Prop :=
  Forall (λ e, ∀ text, event_text (slot b) e = Ok text → (Z.of_nat (String.length text) < 2 ^ 31)%Z) h.

Lemma rows_fit_sensible b h : rows_fit b h → sensible b h.
Proof.
  intros H. eapply Forall_impl; [exact H|]. intros e (text & Ht & Hl) text' Ht'. assert (text' = text) as -> by congruence.
  change (2 ^ 31)%Z with 2147483648%Z. lia.
Qed.

(** The table of a round is printed exactly when every row fits. *)
Lemma print_log_Ok h s :
  columns (length (threads (base s))) h → sensible (base s) h →
  printer_threads = Z.of_nat (length (threads (base s))) → (printer_threads < 2 ^ 31)%Z →
  print_log h s = Ok (tt, s) ↔ rows_fit (base s) h.
Proof.
  intros Hc Hs Hn Hlt.
  assert (Forall (printable printer_threads (slot (base s))) h) as Hp.
  { unfold columns, sensible in *. rewrite Hn. rewrite !Forall_forall in *. intros e He. split; [by apply Hc|by apply Hs]. }
  rewrite <-(PrettyPrint_returns printer_threads (slot (base s)) (conj (eq_ind_r (λ n, 0 ≤ n)%Z (Zle_0_nat _) Hn) Hlt) h
    (mk_Streams "" "") Hp).
  unfold print_log. rewrite st_get_bind. unfold st_lift, mbind, stM_bind. simpl. split.
  - destruct (PrettyPrint _ _ _ _) as [[u s1]|]; [by eauto|done].
  - by intros (u & s1 & ->).
Qed.

(** ** The histories of a round *)

Section laws.
Context `{HL : !StrategyLaws}.

Lemma on_base_Ok {A} (m : stM BaseStrategy A) (s : St) a s' :
  on_base m s = Ok (a, s') ↔ ∃ b, m (base s) = Ok (a, b) ∧ s' = set_base b s.
Proof.
  unfold on_base. rewrite bind_Ok. split.
  - intros ([a' b] & Hm & [= <- <-]). eauto.
  - intros (b & Hm & ->). by exists (a, b).
Qed.

(** A task that was invoked, and a task that answered [v]. *)
Definition created (b : BaseStrategy) (r : TaskRef) : Prop := is_Some (slot b r).
Definition answered (b : BaseStrategy) (r : TaskRef) (v : ValueWrapper) : Prop :=
  ∃ c, slot b r = Some c ∧ IsReturned c = true ∧ ret c = v.

(** Only the last task of a thread may be unfinished. *)
Definition only_last_runs (b : BaseStrategy) : Prop :=
  ∀ th thread k c, threads b !! th = Some thread → thread !! k = Some c →
    S k < length thread → IsReturned c = true.

(** The invariant of the generation of a round. *)
Definition generating (b : BaseStrategy) (h : SeqHistory) : Prop :=
  only_last_runs b ∧ records h (created b) (answered b).

Lemma answered_fun b r v w : answered b r v → answered b r w → v = w.
Proof. intros (c & Hc & _ & <-) (c' & Hc' & _ & <-). congruence. Qed.

Lemma slot_length b r c : slot b r = Some c →
  ∃ thread, threads b !! r.1 = Some thread ∧ r.2 < length thread.
Proof.
  destruct r as [th i]. intros (thread & Ht & Hi)%slot_Some. exists thread.
  split; [done|by eapply lookup_lt_Some].
Qed.

Lemma evolves_created b b' : evolves b b' → ∀ r, created b' r ↔ created b r.
Proof.
  intros Hev r. split; intros [c Hc].
  - destruct (evolves_slot_inv _ _ _ _ Hev Hc) as (c' & ? & _). by eexists.
  - destruct (evolves_slot _ _ _ _ Hev Hc) as (c' & ? & _). by eexists.
Qed.

Lemma looked_slot b b' r c' :
  looked b b' → slot b' r = Some c' → ∃ c, slot b r = Some c ∧ same_but_futex c c'.
Proof.
  destruct r as [th i]. intros [H _ _ _ _ _ _] (thread & Ht & Hi)%slot_Some.
  destruct (Forall2_lookup_r _ _ _ _ _ H Ht) as (thread' & Ht' & Hth).
  destruct (Forall2_lookup_r _ _ _ _ _ Hth Hi) as (c & Hi' & Hl).
  exists c. split; [|done]. apply slot_Some. eauto.
Qed.

Lemma looked_answered b b' : looked b b' → ∀ r v, answered b' r v ↔ answered b r v.
Proof.
  intros Hl r v. split.
  - intros (c' & Hc' & Hr & <-). destruct (looked_slot _ _ _ _ Hl Hc') as (c & Hc & E).
    rewrite E in Hr |- *. by exists c.
  - intros (c & Hc & Hr & <-). destruct (evolves_slot _ _ _ _ (looked_evolves _ _ Hl) Hc)
      as (c' & Hc' & _ & Hl'). destruct (Hl' Hr). by exists c'.
Qed.

(** Resuming an unfinished task answers it, or changes no answer. *)
Lemma answered_resume b r c c' w :
  slot b r = Some c → IsReturned c = false →
  ∀ u v, answered (with_world w (set_slot r c' b)) u v ↔
    (IsReturned c' = true ∧ u = r ∧ v = ret c') ∨ answered b u v.
Proof.
  intros Hc Hr u v. unfold answered. change (slot (with_world w (set_slot r c' b)) u) with (slot (set_slot r c' b) u).
  destruct (decide (r = u)) as [<-|Hne].
  - rewrite (slot_set_slot _ _ _ _ Hc). split.
    + intros (c1 & [= <-] & ? & ?). by left.
    + intros [(? & _ & ->)|(c1 & H1 & ? & _)]; [by exists c'|]. congruence.
  - rewrite slot_set_slot_ne by done. split; [intros ?; by right|]. intros [(_ & -> & _)|?]; done.
Qed.

Lemma created_resume b r c c' w :
  slot b r = Some c → ∀ u, created (with_world w (set_slot r c' b)) u ↔ created b u.
Proof.
  intros Hc u. unfold created. change (slot (with_world w (set_slot r c' b)) u) with (slot (set_slot r c' b) u).
  destruct (decide (r = u)) as [<-|Hne]; [|by rewrite slot_set_slot_ne].
  rewrite (slot_set_slot _ _ _ _ Hc), Hc. split; intros _; by eexists.
Qed.

(** What the strategy hands out is the last task of a thread and unfinished. *)
Lemma next_ok_slot b t b' :
  next_ok b t b' →
  ∃ thread n c, threads b' !! thread_id t = Some thread ∧ length thread = S n ∧
    task t = (thread_id t, n) ∧ slot b' (task t) = Some c ∧ IsReturned c = false.
Proof.
  destruct 1 as [n c thread _ _ Ht Hth Hn Hc Hr _ _|s1 b0 c thread _ _ Ht Hth _ _ Hb Hths _ _ _ _].
  - exists thread, n, c. split_and!; try done. rewrite Ht. apply slot_Some.
    exists thread. split; [done|]. by rewrite last_lookup, Hn in Hc.
  - assert (threads b' !! thread_id t = Some (thread ++ [c])) as Hth'.
    { rewrite Hths, list_lookup_insert_eq; [done|by eapply lookup_lt_Some]. }
    exists (thread ++ [c]), (length thread), c. split_and!; try done.
    + rewrite length_app. simpl. lia.
    + rewrite Ht. apply slot_Some. eexists. split; [done|].
      by rewrite lookup_app_r, Nat.sub_diag by lia.
    + unfold Build in Hb. apply bind_Ok in Hb as ([a w1] & _ & Hb).
      destruct (generated_token w1); by simplify_eq.
Qed.

Lemma evolves_only_last b b' : evolves b b' → only_last_runs b → only_last_runs b'.
Proof.
  intros Hev H th thread' k c' Ht' Hc' Hk.
  destruct (Forall2_lookup_r _ _ _ _ _ (ev_threads _ _ Hev) Ht') as (thread & Ht & Hl).
  destruct (Forall2_lookup_r _ _ _ _ _ Hl Hc') as (c & Hc & [_ Hr]).
  apply Hr, (H th thread k c); [done..|]. assert (length thread = length thread') as ->; [|done].
  by eapply Forall2_length.
Qed.

(** The slots of a round to which a task was added. *)
Section push.
Context (s1 s' : BaseStrategy) (th : nat) (thread : list CoroBase) (c : CoroBase).
Context (Ht : threads s1 !! th = Some thread).
Context (Hths : threads s' = <[th := thread ++ [c]]> (threads s1)).

Lemma slot_push_eq : slot s' (th, length thread) = Some c.
Proof.
  apply slot_Some. exists (thread ++ [c]). split; [|by rewrite lookup_app_r, Nat.sub_diag by lia].
  rewrite Hths, list_lookup_insert_eq; [done|by eapply lookup_lt_Some].
Qed.

Lemma slot_push_ne r : r ≠ (th, length thread) → slot s' r = slot s1 r.
Proof.
  destruct r as [th' i]. intros Hne. unfold slot. rewrite Hths. cbn [fst snd].
  destruct (decide (th = th')) as [<-|]; [|by rewrite list_lookup_insert_ne].
  rewrite list_lookup_insert_eq, Ht by (by eapply lookup_lt_Some). cbn [mbind option_bind].
  destruct (decide (i < length thread)); [by rewrite lookup_app_l|].
  rewrite lookup_app_r by lia. rewrite (lookup_ge_None_2 thread) by lia.
  apply lookup_ge_None_2. simpl. destruct (decide (i = length thread)) as [->|]; [done|lia].
Qed.

Lemma slot_push_fresh : slot s1 (th, length thread) = None.
Proof. unfold slot. simpl. rewrite Ht. simpl. apply lookup_ge_None_2. lia. Qed.
End push.

Lemma generating_next b h t b' :
  next_ok b t b' → generating b h →
  generating b' (if is_new t then h ++ [invocation t] else h).
Proof.
  destruct 1 as [n c thread Hlk -> _ _ _ _ _ _ _|s1 b0 c thread Hlk -> Ht Hth Hdone _ Hb Hths _ _ _ _];
    intros [Hlast Hrec].
  - split; [eapply evolves_only_last; [by apply looked_evolves|done]|].
    eapply records_ext; [exact Hrec| |]; intros; symmetry;
      [by apply evolves_created, looked_evolves|by apply looked_answered].
  - apply looked_evolves in Hlk as Hev. split.
    + intros th' thread' k c' Ht' Hc' Hk. rewrite Hths in Ht'.
      destruct (decide (th' = thread_id t)) as [->|Hne].
      * rewrite list_lookup_insert_eq in Ht' by (by eapply lookup_lt_Some). injection Ht' as <-.
        rewrite length_app in Hk. simpl in Hk. rewrite lookup_app_l in Hc' by lia.
        destruct (decide (S k = length thread)) as [E|].
        -- apply Hdone. rewrite last_lookup, <-E. done.
        -- eapply (evolves_only_last _ _ Hev Hlast); [exact Hth|exact Hc'|lia].
      * rewrite list_lookup_insert_ne in Ht' by done.
        by eapply (evolves_only_last _ _ Hev Hlast).
    + assert (¬ created b (task t)) as Hnew.
      { rewrite <-(evolves_created _ _ Hev), Ht. unfold created.
        rewrite (slot_push_fresh _ _ _ Hth). by intros [? ?]. }
      assert (IsReturned c = false) as Hcr.
      { unfold Build in Hb. apply bind_Ok in Hb as ([a w1] & _ & Hb).
        destruct (generated_token w1); by simplify_eq. }
      pose proof (slot_push_eq _ _ _ _ _ Hth Hths) as Hnews. rewrite <-Ht in Hnews.
      pose proof (λ r, slot_push_ne _ _ _ _ _ Hth Hths r) as Hold. rewrite <-Ht in Hold.
      eapply records_ext; [exact (records_invoke h _ _ (task t) (Z.of_nat (thread_id t)) Hrec Hnew)| |].
      * intros u. unfold created. destruct (decide (u = task t)) as [->|Hne].
        -- rewrite Hnews. split; intros _; [by eexists|by left].
        -- rewrite (Hold u Hne). pose proof (evolves_created _ _ Hev u). unfold created in *. naive_solver.
      * intros u v. rewrite <-(looked_answered _ _ Hlk). unfold answered.
        destruct (decide (u = task t)) as [->|Hne]; [|by rewrite (Hold u Hne)].
        rewrite Hnews. split; [|intros (c' & [= <-] & ? & _); congruence].
        intros (c' & Hc' & _). destruct Hnew. rewrite <-(evolves_created _ _ Hev). by eexists.
Qed.

Lemma task_GetRetVal_Ok r b v b' :
  task_GetRetVal r b = Ok (v, b') ↔ ∃ c, slot b r = Some c ∧ IsReturned c = true ∧ v = ret c ∧ b' = b.
Proof.
  unfold task_GetRetVal. rewrite st_bind_Ok. setoid_rewrite get_task_Ok.
  setoid_rewrite st_lift_Ok. unfold coro_GetRetVal. split.
  - intros (c & b1 & [Hc ->] & Hr & ->). destruct (IsReturned c) eqn:E; simpl in Hr; simplify_eq.
    by exists c.
  - intros (c & Hc & Hr & -> & ->). exists c, b. split; [done|]. rewrite Hr. done.
Qed.

(** What resuming the task in slot [r] did to the round. *)
Definition resumed (b : BaseStrategy) (r : TaskRef) (c c' : CoroBase) (b' : BaseStrategy) : Prop :=
  slot b r = Some c ∧ IsReturned c = false ∧ same_task c c' ∧
  ∃ w, Resume c (world b) = Ok (c', w) ∧ b' = with_world w (set_slot r c' b).

Lemma task_Resume_resumed r b u b' :
  task_Resume r b = Ok (u, b') → ∃ c c', resumed b r c c' b' ∧ slot b' r = Some c'.
Proof.
  intros (c & c' & w & Hc & HR & ->)%task_Resume_Ok. exists c, c'.
  pose proof (Resume_Ok _ _ _ _ HR) as [Hr Hsame].
  split; [split_and!; [done..|by exists w]|]. exact (slot_set_slot b r c' c Hc).
Qed.

(** How a history grows when a task was resumed. *)
Lemma records_resumed b r c c' b' h (S : TaskRef → Prop) F th :
  resumed b r c c' b' → records h S F → S r → (∀ v, ¬ F r v) →
  records (if IsReturned c' then h ++ [EResponse (mk_Response r (ret c') th)] else h) S
    (λ u v, (IsReturned c' = true ∧ u = r ∧ v = ret c') ∨ F u v).
Proof.
  intros _ Hrec Hst HF. destruct (IsReturned c').
  - eapply records_ext; [exact (records_response h S F r (ret c') th Hrec Hst HF)|done|naive_solver].
  - eapply records_ext; [exact Hrec|done|]. intros u v. split; [by right|]. by intros [[? _]|?].
Qed.

Fixpoint responses (h : SeqHistory) : nat :=
  match h with [] => 0 | e :: h => event_index e + responses h end.

Lemma responses_snoc h e : responses (h ++ [e]) = responses h + event_index e.
Proof. induction h as [|e' h IH]; simpl; [lia|]. rewrite IH. lia. Qed.

Lemma resumed_last b r c c' b' : resumed b r c c' b' → only_last_runs b → only_last_runs b'.
Proof.
  intros (Hc & _ & Hsame & w & HR & ->) H. eapply evolves_only_last; [|done].
  by eapply evolves_resume.
Qed.

(** What the verifier is told when a task has made a step. *)
Definition told (c' : CoroBase) (thread_id : nat) (v v' : Verifier) : Prop :=
  if IsReturned c' then ∃ new, OnFinished (name c') new thread_id v = Ok v' else v' = v.

(** One iteration of [RunRound]'s loop, taken apart. *)
Lemma run_step_parts h s fin h' s' :
  run_step h s = Ok ((fin, h'), s') →
  ∃ t sn c c' b v, Next inner s = Ok (t, sn) ∧ resumed (base sn) (task t) c c' b ∧
    base s' = with_checker v b ∧ told c' (thread_id t) (sched_checker b) v ∧ fin = IsReturned c' ∧
    h' = (h.1 ++ [task t],
          let seq := if is_new t then h.2 ++ [invocation t] else h.2 in
          if IsReturned c' then seq ++ [response t (ret c')] else seq).
Proof.
  intros H. unfold run_step in H.
  apply st_bind_Ok in H as (t & s1 & Hnext & H).
  apply st_bind_Ok in H as (u & s2 & (b & HR & ->)%on_base_Ok & H).
  apply task_Resume_resumed in HR as (c & c' & Hres & Hc').
  apply st_bind_Ok in H as (fin' & s3 & (b1 & H3 & ->)%on_base_Ok & H).
  rewrite base_set_base in H3. apply task_IsReturned_Ok in H3 as (c1 & Hc1 & -> & ->).
  assert (c1 = c') as -> by congruence.
  destruct (IsReturned c') eqn:Hret.
  - apply st_bind_Ok in H as (u1 & s4 & (b2 & H4 & ->)%on_base_Ok & H).
    rewrite base_set_base in H4. unfold OnVerifierTaskFinish in H4.
    apply st_bind_Ok in H4 as (c2 & b3 & [Hc2 ->]%get_task_Ok & H4). assert (c2 = c') as -> by congruence. rewrite st_get_bind in H4.
    apply st_bind_Ok in H4 as (v & b3 & [Hv ->]%st_lift_Ok & H4). inv_st H4.
    apply st_bind_Ok in H as (v1 & s5 & (b3 & H5 & ->)%on_base_Ok & H). inv_st H.
    rewrite base_set_base in H5.
    apply task_GetRetVal_Ok in H5 as (c3 & Hc3 & _ & -> & ->).
    assert (c3 = c') as -> by (change (slot b (task t) = Some c3) in Hc3; congruence).
    exists t, s1, c, c', b, v. unfold told. rewrite !base_set_base, Hret. split_and!; try done. by eexists.
  - inv_st H. exists t, s1, c, c', b, (sched_checker b). unfold told. rewrite !base_set_base, Hret.
    by destruct b.
Qed.

Lemma run_step_inv h s fin h' s' :
  run_step h s = Ok ((fin, h'), s') →
  ∃ t bn c c' b v, next_ok (base s) t bn ∧ resumed bn (task t) c c' b ∧
    base s' = with_checker v b ∧ told c' (thread_id t) (sched_checker b) v ∧ fin = IsReturned c' ∧
    h' = (h.1 ++ [task t],
          let seq := if is_new t then h.2 ++ [invocation t] else h.2 in
          if IsReturned c' then seq ++ [response t (ret c')] else seq).
Proof.
  intros (t & sn & c & c' & b & v & Hnext%Next_contract & H)%run_step_parts. by exists t, (base sn), c, c', b, v.
Qed.

Lemma run_step_Ok h s fin h' s' :
  run_step h s = Ok ((fin, h'), s') → generating (base s) h.2 →
  generating (base s') h'.2 ∧ responses h'.2 = responses h.2 + (if fin then 1 else 0).
Proof.
  intros (t & bn & c & c' & b & v & Hnext & Hres & -> & _ & -> & ->)%run_step_inv Hgen. cbn [snd].
  pose proof (generating_next _ _ _ _ Hnext Hgen) as [Hlast Hrec].
  set (seq := if is_new t then h.2 ++ [invocation t] else h.2) in *. cbv zeta.
  assert (responses seq = responses h.2) as Hcount.
  { unfold seq. destruct (is_new t); [|done]. rewrite responses_snoc. change (event_index (invocation t)) with 0. lia. }
  split.
  - change (generating b (if IsReturned c' then seq ++ [response t (ret c')] else seq)).
    pose proof Hres as (Hc & Hr & _ & w & _ & Hb). split; [by eapply resumed_last|].
    eapply records_ext; [eapply (records_resumed _ _ _ _ _ _ _ _ (Z.of_nat (thread_id t)) Hres Hrec)| |].
    + by eexists.
    + intros v' (c2 & Hc2 & ? & _). congruence.
    + rewrite Hb. intros r. symmetry. by eapply created_resume.
    + rewrite Hb. intros r v'. symmetry. by apply (answered_resume _ _ c).
  - destruct (IsReturned c'); [|lia]. rewrite responses_snoc, Hcount. done.
Qed.

Lemma run_loop_Ok fuel remaining h s h' s' :
  run_loop fuel remaining h s = Ok (h', s') → generating (base s) h.2 →
  generating (base s') h'.2 ∧ responses h'.2 = responses h.2 + remaining.
Proof.
  revert remaining h s. induction fuel as [|fuel IH]; intros [|remaining] h s H Hgen;
    cbn [run_loop] in H; try done; try (inv_st H; split; [done|lia]).
  apply st_bind_Ok in H as ([fin h1] & s1 & H1 & H).
  apply run_step_Ok in H1 as [Hgen1 Hc1]; [|done].
  apply IH in H as [Hgen' Hc']; [|done]. split; [done|]. rewrite Hc', Hc1. destruct fin; lia.
Qed.

(** The events of a round are on its threads. *)
Lemma run_step_columns h s fin h' s' :
  run_step h s = Ok ((fin, h'), s') → columns (length (threads (base s))) h.2 →
  length (threads (base s')) = length (threads (base s)) ∧ columns (length (threads (base s'))) h'.2.
Proof.
  intros (t & bn & c & c' & b & v & Hnext & Hres & -> & _ & -> & ->)%run_step_inv Hh.
  pose proof (next_ok_slot _ _ _ Hnext) as (thread & n & d & Hth%lookup_lt_Some & _).
  pose proof (next_ok_threads_length _ _ _ Hnext) as Hlen. destruct Hres as (_ & _ & _ & w & _ & ->).
  simpl. rewrite length_alter. split; [done|]. rewrite Hlen in *. unfold columns in *.
  assert (∀ v, (0 ≤ get_thread_num (response t v) < Z.of_nat (length (threads (base s))))%Z) as Hr
    by (intros; simpl; lia).
  assert ((0 ≤ get_thread_num (invocation t) < Z.of_nat (length (threads (base s))))%Z) as Hi by (simpl; lia).
  destruct (is_new t), (IsReturned c'); rewrite ?Forall_app; auto.
Qed.

Lemma run_loop_columns fuel remaining h s h' s' :
  run_loop fuel remaining h s = Ok (h', s') → columns (length (threads (base s))) h.2 →
  length (threads (base s')) = length (threads (base s)) ∧ columns (length (threads (base s'))) h'.2.
Proof.
  revert remaining h s. induction fuel as [|fuel IH]; intros [|remaining] h s H Hh;
    cbn [run_loop] in H; try done; try (by inv_st H).
  apply st_bind_Ok in H as ([fin h1] & s1 & H1 & H). apply run_step_columns in H1 as [<- Hh1]; [|done].
  by eapply IH.
Qed.

(** No task has been created yet. *)
Definition empty_round (b : BaseStrategy) : Prop := ∀ r, slot b r = None.

Lemma clear_threads_empty b : empty_round (clear_threads b).
Proof. intros [th i]. unfold slot, clear_threads. simpl. rewrite list_lookup_fmap. by destruct (threads b !! th). Qed.

Lemma generating_empty b : empty_round b → generating b [].
Proof.
  intros He. split.
  - intros th thread k c Ht Hc _. exfalso. specialize (He (th, k)).
    assert (slot b (th, k) = Some c) by (apply slot_Some; eauto). congruence.
  - apply records_nil.
    + intros r [c Hc]. by rewrite He in Hc.
    + intros r v (c & Hc & _). by rewrite He in Hc.
Qed.

(** ** The histories of an explored round *)

Definition removed_task (b : BaseStrategy) (c : CoroBase) : bool := IsTaskRemoved b (GetId c).

(** The task in slot [r] is not removed, and its thread has got to it. *)
Definition scheduled (b : BaseStrategy) (r : TaskRef) : Prop :=
  ∃ c sched, slot b r = Some c ∧ removed_task b c = false ∧
    round_schedule b !! r.1 = Some sched ∧ (Z.of_nat r.2 ≤ sched)%Z.

Definition to_run_count (b : BaseStrategy) : nat :=
  sum_list ((λ thread : list CoroBase,
    sum_list ((λ c, if IsReturned c || removed_task b c then 0 else 1) <$> thread)) <$> threads b).

(** The invariant of an exploration. *)
Record exploring (b : BaseStrategy) (h : SeqHistory) : Prop := {
  ex_length : length (round_schedule b) = length (threads b);
  ex_range : ∀ th sched, round_schedule b !! th = Some sched →
    sched = (-1)%Z ∨ ∃ c, slot b (th, Z.to_nat sched) = Some c ∧ (0 ≤ sched)%Z;
  ex_later : ∀ r c sched, slot b r = Some c → removed_task b c = false →
    round_schedule b !! r.1 = Some sched → (sched < Z.of_nat r.2)%Z → IsReturned c = false;
  ex_records : records h (scheduled b) (λ r v, scheduled b r ∧ answered b r v);
}.

(** The task [Next] hands out is the first one its thread can still run. *)
Lemma next_schedule_found b h t b' :
  next_schedule_ok b t b' → exploring b h →
  ∃ i c sched, task t = (thread_id t, i) ∧ slot b (thread_id t, i) = Some c ∧ to_run b c ∧
    round_schedule b !! thread_id t = Some sched ∧ (sched ≤ Z.of_nat i)%Z ∧
    (∀ k c', (sched ≤ Z.of_nat k)%Z → k < i → slot b (thread_id t, k) = Some c' → ¬ to_run b c') ∧
    is_new t = negb (bool_decide (sched = Z.of_nat i)) ∧
    b' = with_schedule (<[thread_id t := Z.of_nat i]> (round_schedule b)) b.
Proof.
  intros [Hidx Hth [c Hc] Hnew ->] [Hlen Hrange _ _].
  destruct (task t) as [th i] eqn:Et. cbn [fst snd] in *. subst th.
  pose proof Hc as (thread & Hthread & Hi)%slot_Some.
  destruct (lookup_lt_is_Some_2 (round_schedule b) (thread_id t)) as [sched Hs].
  { rewrite Hlen. by eapply lookup_lt_Some. }
  destruct (GetNextTaskInThread_Ok b (thread_id t) thread sched Hthread Hs) as (j & Hj & _ & Hge & Hskip & Hrun).
  { destruct (Hrange _ _ Hs) as [->|(c' & (thread' & Ht' & Hc')%slot_Some & H0)]; [lia|].
    assert (thread' = thread) as -> by congruence. apply lookup_lt_Some in Hc'. lia. }
  rewrite Hidx in Hj. assert (i = j) as <- by (injection Hj; lia). clear Hj.
  exists i, c, sched. split_and!; try done; [by apply Hrun| |].
  - intros k c' ? ? (thread' & Ht' & Hc')%slot_Some. assert (thread' = thread) as -> by congruence. eauto.
  - rewrite Hnew, Hs. f_equal. apply bool_decide_ext. split; [by intros [= ->]|by intros ->].
Qed.

(** Moving a thread's position on to task [i] schedules that task and no
    other. *)
Lemma scheduled_advance b h th i c sched u :
  exploring b h → slot b (th, i) = Some c → removed_task b c = false →
  round_schedule b !! th = Some sched → (sched ≤ Z.of_nat i)%Z →
  (∀ k c', (sched ≤ Z.of_nat k)%Z → k < i → slot b (th, k) = Some c' → ¬ to_run b c') →
  scheduled (with_schedule (<[th := Z.of_nat i]> (round_schedule b)) b) u ↔ u = (th, i) ∨ scheduled b u.
Proof.
  intros [_ _ Hlater _] Hc Hrem Hs Hge Hskip. pose proof (lookup_lt_Some _ _ _ Hs) as Hlt.
  destruct u as [th' k]. destruct (decide (th' = th)) as [->|Hne].
  2:{ unfold scheduled. cbn [round_schedule with_schedule fst snd].
      rewrite list_lookup_insert_ne by done. split; [by right|]. by intros [[=]|?]. }
  unfold scheduled. cbn [round_schedule with_schedule fst snd].
  rewrite list_lookup_insert_eq by done. split.
  - intros (c' & ? & Hc' & Hrem' & [= <-] & Hle).
    destruct (decide (k = i)) as [->|Hki]; [by left|right]. exists c', sched. split_and!; [done..|].
    destruct (decide (Z.of_nat k ≤ sched)%Z) as [?|Hgt]; [done|exfalso].
    apply (Hskip k c'); [lia|lia|done|]. split; [|done].
    eapply (Hlater (th, k)); [done|done|done|simpl; lia].
  - intros [[= ->]|(c' & sc & Hc' & Hrem' & Hsc & Hle)].
    + exists c, (Z.of_nat i). by split_and!.
    + exists c', (Z.of_nat i). split_and!; [done..|]. assert (sc = sched) as -> by congruence. lia.
Qed.

(** Scheduling one more task is one more invocation of the history. *)
Lemma records_scheduled b b' h r c ev :
  records h (scheduled b) (λ r v, scheduled b r ∧ answered b r v) →
  (∀ u, scheduled b' u ↔ u = r ∨ scheduled b u) → (∀ u v, answered b' u v ↔ answered b u v) →
  slot b r = Some c → IsReturned c = false → ¬ scheduled b r →
  records (h ++ [EInvoke (mk_Invoke r ev)]) (scheduled b') (λ r v, scheduled b' r ∧ answered b' r v).
Proof.
  intros Hrec Hiff Hans Hc Hret Hnot. eapply records_ext; [by apply records_invoke| |].
  - intros u. symmetry. apply Hiff.
  - intros u v. rewrite Hiff, Hans. split; [intros [? ?]; split; [by right|done]|].
    intros [[->|?] Ha]; [|done]. exfalso. destruct Ha as (c' & Hc' & Hr' & _).
    assert (c' = c) as -> by congruence. congruence.
Qed.

(** Handing out the next task of a thread. *)
Lemma exploring_next b h t b' :
  next_schedule_ok b t b' → exploring b h →
  exploring b' (if is_new t then h ++ [invocation t] else h) ∧
  ∃ c, slot b' (task t) = Some c ∧ IsReturned c = false ∧ removed_task b' c = false ∧ scheduled b' (task t).
Proof.
  intros Hnext Hex. destruct (next_schedule_found _ _ _ _ Hnext Hex)
    as (i & c & sched & Et & Hc & [Hret Hrem] & Hs & Hge & Hskip & Hnew & ->).
  pose proof (λ u, scheduled_advance b h _ i c sched u Hex Hc Hrem Hs Hge Hskip) as Hiff.
  destruct Hex as [Hlen Hrange Hlater Hrec]. rewrite Et.
  set (b' := with_schedule (<[thread_id t := Z.of_nat i]> (round_schedule b)) b) in *.
  assert (round_schedule b' !! thread_id t = Some (Z.of_nat i)) as Hs'
    by (apply list_lookup_insert_eq; by eapply lookup_lt_Some).
  assert (∀ th, th ≠ thread_id t → round_schedule b' !! th = round_schedule b !! th) as Hs_ne
    by (intros; by apply list_lookup_insert_ne).
  split; [|exists c; split_and!; [done..|apply Hiff; by left]]. split.
  - simpl. by rewrite length_insert.
  - intros th sc Hsc. destruct (decide (th = thread_id t)) as [->|Hne].
    + rewrite Hs' in Hsc. injection Hsc as <-. right. exists c. rewrite Nat2Z.id. split; [exact Hc|lia].
    + rewrite Hs_ne in Hsc by done. by apply Hrange.
  - intros [th k] c' sc Hc' Hrem' Hsc Hlt. cbn [fst snd] in *.
    destruct (decide (th = thread_id t)) as [->|Hne].
    + rewrite Hs' in Hsc. injection Hsc as <-. eapply (Hlater (thread_id t, k)); [done|done|done|simpl; lia].
    + rewrite Hs_ne in Hsc by done. by eapply (Hlater (th, k)).
  - rewrite Hnew. destruct (bool_decide_reflect (sched = Z.of_nat i)) as [->|Hne]; simpl.
    + assert (∀ u, scheduled b u ↔ scheduled b' u) as Heq.
      { intros u. rewrite Hiff. split; [by right|]. intros [->|?]; [|done]. by exists c, (Z.of_nat i). }
      eapply records_ext; [exact Hrec|exact Heq|].
      intros u v. split; intros [? ?]; (split; [by apply Heq|done]).
    + unfold invocation. rewrite Et. eapply records_scheduled; [exact Hrec|exact Hiff|done|exact Hc|done|].
      intros (c' & sc & Hc' & _ & Hsc & Hle). simpl in *. assert (sc = sched) as -> by congruence. lia.
Qed.

Lemma set_slot_to_run b r c c' w :
  slot b r = Some c → same_task c c' →
  to_run_count (with_world w (set_slot r c' b)) + (if IsReturned c || removed_task b c then 0 else 1) =
  to_run_count b + (if IsReturned c' || removed_task b c then 0 else 1).
Proof.
  destruct r as [th i]. intros (thread & Ht & Hi)%slot_Some (Hid & _).
  set (f := λ c, if IsReturned c || removed_task b c then 0 else 1).
  pose proof (sum_list_fmap_alter (λ thread : list CoroBase, sum_list (f <$> thread))
    (λ t, <[i := c']> t) (threads b) th thread Ht) as H.
  pose proof (sum_list_fmap_insert f thread i c c' Hi) as H'.
  assert (removed_task b c' = removed_task b c) as Erem by (unfold removed_task, GetId; by rewrite Hid).
  assert (f c' = if IsReturned c' || removed_task b c then 0 else 1) as <- by (unfold f; by rewrite Erem).
  fold (f c). unfold to_run_count. change (threads (with_world w (set_slot (th, i) c' b))) with
    (alter (λ t, <[i := c']> t) th (threads b)).
  change (λ c0, if IsReturned c0 || removed_task (with_world w (set_slot (th, i) c' b)) c0 then 0 else 1) with f.
  change (λ c0, if IsReturned c0 || removed_task b c0 then 0 else 1) with f. lia.
Qed.

(** Resuming a scheduled task keeps the invariant. *)
Lemma exploring_resumed b h r c c' b' th :
  exploring b h → resumed b r c c' b' → removed_task b c = false → scheduled b r →
  exploring b' (if IsReturned c' then h ++ [EResponse (mk_Response r (ret c') th)] else h) ∧
  to_run_count b = to_run_count b' + (if IsReturned c' then 1 else 0).
Proof.
  intros [Hlen Hrange Hlater Hrec] Hres Hrem Hsched.
  pose proof Hres as (Hc & Hr & Hsame & w & HR & Hb').
  assert (∀ u, scheduled b' u ↔ scheduled b u) as Hs.
  { intros u. subst b'. unfold scheduled, removed_task.
    change (slot (with_world w (set_slot r c' b)) u) with (slot (set_slot r c' b) u).
    destruct (decide (r = u)) as [<-|Hne]; [|by rewrite slot_set_slot_ne].
    rewrite (slot_set_slot _ _ _ _ Hc), Hc. destruct Hsame as (Hid & _).
    split; intros (c0 & sc & [= <-] & Hrm & Hsc & Hle).
    - exists c, sc. split_and!; [done| |done|done]. unfold GetId in *. by rewrite <-Hid.
    - exists c', sc. split_and!; [done| |done|done]. unfold GetId in *. by rewrite Hid. }
  split; [split|].
  - subst b'. simpl. by rewrite length_alter.
  - intros th' sc Hsc. subst b'. destruct (Hrange th' sc Hsc) as [?|(c0 & Hc0 & H0)]; [by left|right].
    change (slot (with_world w (set_slot r c' b)) (th', Z.to_nat sc)) with (slot (set_slot r c' b) (th', Z.to_nat sc)).
    destruct (decide (r = (th', Z.to_nat sc))) as [->|Hne].
    + exists c'. split; [by eapply slot_set_slot|done].
    + exists c0. by rewrite slot_set_slot_ne.
  - intros u c0 sc Hc0 Hrm Hsc Hlt. subst b'.
    change (slot (set_slot r c' b) u = Some c0) in Hc0.
    destruct (decide (r = u)) as [<-|Hne]; [|rewrite slot_set_slot_ne in Hc0 by done; by eapply Hlater].
    exfalso. destruct Hsched as (c1 & sc1 & _ & _ & Hsc1 & Hle).
    change (round_schedule b !! r.1 = Some sc) in Hsc. assert (sc1 = sc) as -> by congruence. lia.
  - eapply records_ext; [eapply (records_resumed _ _ _ _ _ _ _ _ th Hres Hrec)| |].
    + done.
    + intros v [_ (c0 & Hc0 & ? & _)]. congruence.
    + intros u. by rewrite Hs.
    + intros u v. rewrite Hs. subst b'. rewrite (answered_resume b r c c' w Hc Hr u v). naive_solver.
  - subst b'. pose proof (set_slot_to_run b r c c' w Hc Hsame) as Hcount.
    rewrite Hr, Hrem in Hcount. simpl in Hcount. destruct (IsReturned c'); simpl in Hcount; lia.
Qed.

Lemma explore_step_Ok h s fin h' s' :
  explore_step h s = Ok ((fin, h'), s') → exploring (base s) h.2 →
  exploring (base s') h'.2 ∧
  to_run_count (base s) = to_run_count (base s') + (if fin then 1 else 0).
Proof.
  intros H Hex. unfold explore_step in H.
  apply st_bind_Ok in H as (t & s1 & Hnext%NextSchedule_contract & H).
  assert (to_run_count (base s1) = to_run_count (base s)) as Hcount by (by destruct Hnext as [_ _ _ _ ->]).
  destruct (exploring_next _ _ _ _ Hnext Hex) as (Hex1 & c & Hc & Hr & Hrem & Hsched).
  set (seq := if is_new t then h.2 ++ [invocation t] else h.2) in *.
  apply st_bind_Ok in H as (u & s2 & (b & HR & ->)%on_base_Ok & H).
  apply task_Resume_resumed in HR as (c0 & c' & Hres & Hc').
  assert (c0 = c) as -> by (destruct Hres as [? _]; congruence).
  apply st_bind_Ok in H as (fin' & s3 & (b1 & H3 & ->)%on_base_Ok & H).
  rewrite base_set_base in H3. apply task_IsReturned_Ok in H3 as (c1 & Hc1 & -> & ->).
  assert (c1 = c') as -> by congruence.
  destruct (exploring_resumed _ _ _ _ _ _ (Z.of_nat (thread_id t)) Hex1 Hres Hrem Hsched) as [Hb Hcb].
  rewrite <-Hcount, Hcb. destruct (IsReturned c') eqn:Hret.
  - apply st_bind_Ok in H as (v1 & s5 & (b3 & H5 & ->)%on_base_Ok & H). inv_st H.
    rewrite base_set_base in H5. apply task_GetRetVal_Ok in H5 as (c3 & Hc3 & _ & -> & ->).
    rewrite base_set_base. by assert (c3 = c') as -> by congruence.
  - inv_st H. by rewrite base_set_base.
Qed.

Lemma explore_loop_Ok fuel n h s h' s' :
  explore_loop fuel n h s = Ok (h', s') → exploring (base s) h.2 → to_run_count (base s) = n →
  exploring (base s') h'.2 ∧ to_run_count (base s') = 0.
Proof.
  revert n h s. induction fuel as [|fuel IH]; intros [|n] h s H Hex Hn; cbn [explore_loop] in H; try done;
    try by inv_st H.
  apply st_bind_Ok in H as ([fin h1] & s1 & H1 & H).
  apply explore_step_Ok in H1 as [Hex1 Hc1]; [|done].
  apply IH in H; [done|done|]. destruct fin; lia.
Qed.

Lemma to_run_count_0 b r c :
  to_run_count b = 0 → slot b r = Some c → removed_task b c = false → IsReturned c = true.
Proof.
  destruct r as [th i]. intros H0 (thread & Ht & Hi)%slot_Some Hrem.
  unfold to_run_count in H0.
  pose proof (sum_list_fmap_le (λ thread : list CoroBase,
    sum_list ((λ c, if IsReturned c || removed_task b c then 0 else 1) <$> thread)) _ _ _ Ht) as H1.
  pose proof (sum_list_fmap_le (λ c, if IsReturned c || removed_task b c then 0 else 1) _ _ _ Hi) as H2.
  rewrite H0 in H1. cbv beta in H1, H2. destruct (IsReturned c); [done|]. rewrite Hrem in H2. simpl in H2. lia.
Qed.

Lemma exploring_reset fuel b u b' :
  base_ResetCurrentRound fuel b = Ok (u, b') →
  exploring b' [] ∧ to_run_count b' = GetValidTasksCount b'.
Proof.
  intros (Hsch & Hrem & Hfresh & _)%base_ResetCurrentRound_Ok.
  assert (∀ r, ¬ scheduled b' r) as Hnone.
  { intros [th i] (c & sc & _ & _ & Hsc & Hle). rewrite Hsch in Hsc.
    apply lookup_replicate in Hsc as [-> _]. simpl in Hle. lia. }
  split; [split|].
  - by rewrite Hsch, length_replicate.
  - intros th sc Hsc. rewrite Hsch in Hsc. apply lookup_replicate in Hsc as [-> _]. by left.
  - intros r c sc Hc Hrm _ _. by eapply (Hfresh r c).
  - apply records_nil; [done|]. intros r v [Hs _]. by eapply Hnone.
  - unfold to_run_count, GetValidTasksCount.
    apply sum_list_fmap_ext. intros th thread Ht. apply sum_list_fmap_ext. intros i c Hi.
    unfold removed_task. destruct (IsTaskRemoved b' (GetId c)) eqn:E; [by rewrite orb_true_r|].
    destruct (Hfresh (th, i) c) as [-> _]; [apply slot_Some; eauto|done|done].
Qed.

(** ** What the checker makes of it *)

Section checker.
Context {SpecState : Type} (spec : gmap string (Method (State:=SpecState) (Args:=tuple))).
Context (first_state : SpecState).

(** The specification knows the methods of the round, runs on all their
    arguments, and yields results that can be compared with theirs. *)
Definition covered (b : BaseStrategy) : Prop :=
  ∀ r c, slot b r = Some c →
    ∃ m : Method (State:=SpecState) (Args:=tuple), spec !! name c = Some m ∧
      (∀ s, ∃ res, m s (args c) = Ok res) ∧
      (IsReturned c = true → ∀ s res s', m s (args c) = Ok (res, s') → comparable res (ret c)).

(** A history that records the tasks of a covered round can be checked. *)
Lemma records_checkable b h (S : TaskRef → Prop) F :
  covered b → records h S F → (∀ r, S r → created b r) → (∀ r v, F r v → answered b r v) →
  checkable spec (task_at b) h.
Proof.
  intros Hcov [WF HI HR] HS' HF.
  assert (∀ i r, invoke_at h i r → ∃ c, slot b r = Some c ∧
    task_at b r = Some (mk_TaskInfo (name c) (args c) (if IsReturned c then Some (ret c) else None))) as Htask.
  { intros i r Hi. destruct (HS' r) as [c Hc]; [apply HI; eauto|]. exists c. split; [done|].
    unfold task_at. by rewrite Hc. }
  split; [done| |].
  - intros i r Hi. destruct (Htask i r Hi) as (c & Hc & Ht).
    destruct (Hcov r c Hc) as (m & Hm & Htot & _). by eexists _, m.
  - intros i j r info m (u & Hiu & Hj) Hi Hinfo Hm.
    assert (u = r) as -> by (by eapply invoke_at_fun).
    destruct (Htask i r Hi) as (c & Hc & Ht). rewrite Ht in Hinfo. injection Hinfo as <-. simpl in *.
    destruct (Hcov r c Hc) as (m' & Hm' & _ & Hcmp). assert (m' = m) as -> by congruence.
    destruct (proj1 (response_at_result h r)) as (v & k & th & Hk); [by eexists|].
    destruct (HF r v) as (c' & Hc' & Hr & _); [apply HR; eauto|].
    assert (c' = c) as -> by congruence. rewrite Hr. exists (ret c). split; [done|]. by apply Hcmp.
Qed.

(** What a round is judged by: the checker decides linearizability. *)
Class CheckerCorrect : Prop :=
  check_decides : ∀ tasks h, checkable spec tasks h →
    ∃ ok, mc_Check tasks h = Ok ok ∧ (ok = true ↔ linearizable spec tasks h first_state).

Lemma check_histories_Ok `{HCC : !CheckerCorrect} h s r s' :
  check_histories h s = Ok (r, s') → checkable spec (task_at (base s)) h.2 →
  s' = s ∧ ((r = None ∧ linearizable spec (task_at (base s)) h.2 first_state) ∨
            (r = Some h ∧ ¬ linearizable spec (task_at (base s)) h.2 first_state)).
Proof.
  intros H Hck. unfold check_histories in H. rewrite st_get_bind in H.
  apply st_bind_Ok in H as (ok & s1 & [Hok ->]%st_lift_Ok & H). inv_st H. split; [done|].
  destruct (check_decides _ _ Hck) as (ok' & Hok' & Hiff). rewrite Hok in Hok'. injection Hok' as <-.
  destruct ok; [left; split; [done|by apply Hiff]|right].
  split; [done|]. intros Hl%Hiff. done.
Qed.


(** A history an exploration hands to the checker: well formed, about the
    tasks that are not removed, every one of which is answered. *)
Definition complete_history (b : BaseStrategy) (h : SeqHistory) : Prop :=
  records h (λ r, ∃ c, slot b r = Some c ∧ removed_task b c = false)
            (λ r v, ∃ c, slot b r = Some c ∧ removed_task b c = false ∧ ret c = v) ∧
  ∀ r c, slot b r = Some c → removed_task b c = false → IsReturned c = true.

Lemma exploring_complete b h :
  exploring b h → to_run_count b = 0 → complete_history b h.
Proof.
  intros [Hlen Hrange Hlater Hrec] H0.
  assert (∀ r c, slot b r = Some c → removed_task b c = false → IsReturned c = true) as Hall
    by (intros; by eapply to_run_count_0).
  assert (∀ r, scheduled b r ↔ ∃ c, slot b r = Some c ∧ removed_task b c = false) as Hs.
  { intros r. split; [intros (c & sc & ? & ? & _); eauto|]. intros (c & Hc & Hrm).
    destruct (slot_length _ _ _ Hc) as (thread & Ht & _).
    destruct (lookup_lt_is_Some_2 (round_schedule b) r.1) as [sc Hsc].
    { rewrite Hlen. by eapply lookup_lt_Some. }
    exists c, sc. split_and!; [done..|]. destruct (decide (Z.of_nat r.2 ≤ sc)%Z); [done|exfalso].
    pose proof (Hall r c Hc Hrm). assert (IsReturned c = false); [|congruence].
    eapply Hlater; [done..|lia]. }
  split; [|done]. eapply records_ext; [exact Hrec|exact Hs|].
  intros r v. split.
  - intros [(c & ? & Hc & Hrm & _) (c' & Hc' & _ & <-)]. exists c'. split_and!; [done| |done].
    by assert (c' = c) as -> by congruence.
  - intros (c & Hc & Hrm & <-). split; [apply Hs; eauto|]. exists c. split_and!; [done| |done].
    by eapply Hall.
Qed.

Lemma explore_once_Ok `{HCC : !CheckerCorrect} fuel s r s' :
  explore_once fuel s = Ok (r, s') → covered (base s') →
  ∃ full seq, complete_history (base s') seq ∧
    ((r = None ∧ linearizable spec (task_at (base s')) seq first_state) ∨
     (r = Some (full, seq) ∧ ¬ linearizable spec (task_at (base s')) seq first_state)).
Proof.
  intros H Hcov. unfold explore_once in H.
  apply st_bind_Ok in H as (u & s1 & H1%ResetCurrentRound_contract & H). rewrite st_get_bind in H.
  apply st_bind_Ok in H as ([full seq] & s2 & Hrun & H).
  destruct (exploring_reset _ _ _ _ H1) as [Hex Hcount].
  destruct (explore_loop_Ok _ _ _ _ _ _ Hrun Hex Hcount) as [Hex' H0]. simpl in Hex'.
  assert (s' = s2) as ->.
  { unfold check_histories in H. rewrite st_get_bind in H.
    apply st_bind_Ok in H as (ok & s3 & [_ ->]%st_lift_Ok & H). by inv_st H. }
  pose proof (exploring_complete _ _ Hex' H0) as Hcomp. destruct Hcomp as [Hrec Hall] eqn:E. clear E.
  assert (checkable spec (task_at (base s2)) seq) as Hck.
  { eapply records_checkable; [done|exact Hrec| |].
    - intros t (c & Hc & _). by eexists.
    - intros t v (c & Hc & Hrm & <-). exists c. split_and!; [done| |done]. by eapply Hall. }
  apply check_histories_Ok in H as [_ Hr]; [|done]. exists full, seq. by split.
Qed.

(** C23: A history [ExploreRound] returns is well formed, invokes and answers
    exactly the tasks of the round that are not removed, and is not
    linearizable. *)
Theorem ExploreRound_spec `{HCC : !CheckerCorrect} fuel runs s full seq s' :
  ExploreRound fuel runs s = Ok (Some (full, seq), s') → covered (base s') →
  complete_history (base s') seq ∧
  ¬ linearizable spec (task_at (base s')) seq first_state.
Proof.
  revert s. induction runs as [|runs IH]; intros s H Hcov; cbn [ExploreRound] in H; [done|].
  apply st_bind_Ok in H as (r & s1 & H1 & H). destruct r as [h|]; [|by eapply IH].
  inv_st H. apply explore_once_Ok in H1 as (full' & seq' & Hcomp & [[? _]|[[= <- <-] Hlin]]); done.
Qed.
End checker.
End laws.
End scheduler.
