(* ===== verification/TLA.v ===== *)
(** * TLA: the exhaustive scheduler (scheduler.h:485-778)

    [TLAScheduler] enumerates the executions in which [max_tasks] tasks finish,
    with at most [max_switches] context switches and [max_depth] tasks on a
    thread.  A coroutine cannot go back, so the scheduler backtracks by
    terminating every task and replaying the frames of its stack from the
    start.  The definitions follow the code; TLAExhaustive.v compares them with
    the transition system they are meant to explore. *)

From stdpp Require Import base gmap strings option list.
From S2P Require Import Prelude ValueWrapper Text History Linearizability Coro Strategy PrettyPrint Scheduler.

Module TLA.

(** [Frame]: the task of a row of the table, and whether the row created it. *)
Record TFrame := mk_TFrame { frame_task : option TaskRef; frame_is_new : bool }.

(** The limits and the constructors the scheduler was created with. *)
Record Config `{Target} := mk_Config {
  max_tasks : nat;
  max_rounds : nat;
  max_switches : nat;
  max_depth : nat;
  constructors : list TaskBuilder;
}.

(** The running state. *)
Record TLAState `{Target} `{StrategyVerifier} := mk_TLA {
  started_tasks : nat;
  finished_tasks : nat;
  finished_rounds : nat;
  world : World;
  sequential_history : SeqHistory;
  full_history : FullHistoryWithThreads;
  thread_id_history : list nat;
  threads : list (list CoroBase);
  frames : list TFrame;
  verifier : Verifier;
  (** What the printer has written to [std::cout] past the log. *)
  printed : string;
}.
Arguments Config : clear implicits.
Arguments Config {_}.
Arguments mk_Config {_} _ _ _ _ _.
Arguments TLAState : clear implicits.
Arguments TLAState {_ _}.
Arguments mk_TLA {_ _} _ _ _ _ _ _ _ _ _ _ _.

(** ** Tasks of a vector of threads *)

Section tasks.
Context `{HT : Target}.

Definition task_in (ths : list (list CoroBase)) (r : TaskRef) : option CoroBase :=
  thread ← ths !! r.1; thread !! r.2.
Definition put_task (r : TaskRef) (c : CoroBase) (ths : list (list CoroBase)) : list (list CoroBase) :=
  alter (λ thread, <[r.2 := c]> thread) r.1 ths.

(** The tasks in the order of [TerminateTasks]. *)
Definition all_refs (ths : list (list CoroBase)) : list TaskRef :=
  concat (imap (λ i (thread : list CoroBase), (λ j, (i, j)) <$> seq 0 (length thread)) ths).

(** What a checker sees of a task. *)
Definition view (ths : list (list CoroBase)) (r : TaskRef) : option (TaskInfo tuple) :=
  c ← task_in ths r;
  Some (mk_TaskInfo (name c) (args c) (if IsReturned c then Some (ret c) else None)).
End tasks.

Section tla.
Context `{HT : Target} `{HC : !Code} `{HV : StrategyVerifier} `{HMC : ModelChecker} {HPP : PrettyPrinter}.
(** The constructor arguments, and the user's [cancel] function, which prepares
    the object under test for the termination of its tasks. *)
Context (cfg : Config) (cancel : TargetObj → TargetObj).
(** Fuel for [CoroBase::Terminate]. *)
Context (inner : nat).

Local Abbreviation M := (stM TLAState).

Definition with_world (w : World) (s : TLAState) : TLAState :=
  mk_TLA (started_tasks s) (finished_tasks s) (finished_rounds s) w (sequential_history s)
    (full_history s) (thread_id_history s) (threads s) (frames s) (verifier s) (printed s).
Definition with_threads (t : list (list CoroBase)) (s : TLAState) : TLAState :=
  mk_TLA (started_tasks s) (finished_tasks s) (finished_rounds s) (world s) (sequential_history s)
    (full_history s) (thread_id_history s) t (frames s) (verifier s) (printed s).
Definition with_frames (f : list TFrame) (s : TLAState) : TLAState :=
  mk_TLA (started_tasks s) (finished_tasks s) (finished_rounds s) (world s) (sequential_history s)
    (full_history s) (thread_id_history s) (threads s) f (verifier s) (printed s).
Definition with_verifier (v : Verifier) (s : TLAState) : TLAState :=
  mk_TLA (started_tasks s) (finished_tasks s) (finished_rounds s) (world s) (sequential_history s)
    (full_history s) (thread_id_history s) (threads s) (frames s) v (printed s).
Definition with_seq (h : SeqHistory) (s : TLAState) : TLAState :=
  mk_TLA (started_tasks s) (finished_tasks s) (finished_rounds s) (world s) h
    (full_history s) (thread_id_history s) (threads s) (frames s) (verifier s) (printed s).
Definition with_full (h : FullHistoryWithThreads) (s : TLAState) : TLAState :=
  mk_TLA (started_tasks s) (finished_tasks s) (finished_rounds s) (world s) (sequential_history s)
    h (thread_id_history s) (threads s) (frames s) (verifier s) (printed s).
Definition with_ids (l : list nat) (s : TLAState) : TLAState :=
  mk_TLA (started_tasks s) (finished_tasks s) (finished_rounds s) (world s) (sequential_history s)
    (full_history s) l (threads s) (frames s) (verifier s) (printed s).
Definition with_counts (started finished rounds : nat) (s : TLAState) : TLAState :=
  mk_TLA started finished rounds (world s) (sequential_history s)
    (full_history s) (thread_id_history s) (threads s) (frames s) (verifier s) (printed s).

Definition with_printed (text : string) (s : TLAState) : TLAState :=
  mk_TLA (started_tasks s) (finished_tasks s) (finished_rounds s) (world s) (sequential_history s)
    (full_history s) (thread_id_history s) (threads s) (frames s) (verifier s) text.

(** The constructor of the scheduler. *)
Definition init (threads_count : nat) : TLAState :=
  mk_TLA 0 0 0 world_init [] [] [] (replicate threads_count []) [] Verifier_init "".

Definition get_task (r : TaskRef) : M CoroBase :=
  λ s, c ← or_fail (OutOfRange "threads[i].tasks[j]") (task_in (threads s) r); Ok (c, s).
Definition set_task (r : TaskRef) (c : CoroBase) (w : World) : M unit :=
  st_modify (λ s, with_world w (with_threads (put_task r c (threads s)) s)).

Definition resume_task (r : TaskRef) : M unit :=
  c ← get_task r; s ← st_get; '(c', w') ← st_lift (Resume c (world s)); set_task r c' w'.

(** ** [TerminateTasks] (scheduler.h:540-554) *)

Fixpoint terminate_refs (refs : list TaskRef) : M unit :=
  match refs with
  | [] => mret tt
  | r :: refs =>
      c ← get_task r;
      if IsReturned c then terminate_refs refs
      else
        s ← st_get;
        '(c', w') ← st_lift (Terminate inner c (world s));
        _ ← set_task r c' w';
        terminate_refs refs
  end.

Definition set_obj (o : TargetObj) (s : TLAState) : TLAState :=
  let w := world s in
  with_world (mk_World o (tokens w) (coroutine_status w) (generated_token w)) s.
Definition clear_status (s : TLAState) : TLAState :=
  let w := world s in
  with_world (mk_World (state w) (tokens w) None (generated_token w)) s.

Definition TerminateTasks : M unit :=
  _ ← st_modify (λ s, set_obj (cancel (state (world s))) s);
  s ← st_get;
  terminate_refs (all_refs (threads s)).

(** ** [Replay] (scheduler.h:556-576) *)

Definition replay_frame (step : nat) : M unit :=
  s ← st_get;
  f ← st_lift (or_fail (OutOfRange "frames[step]") (frames s !! step));
  r ← st_lift (or_fail (AssertFailed "task") (frame_task f));
  _ ← (if frame_is_new f then
         c ← get_task r;
         c' ← st_lift (Restart c);
         set_task r c' (world s)
       else mret tt);
  resume_task r.

Fixpoint replay_frames (steps : list nat) : M unit :=
  match steps with
  | [] => mret tt
  | step :: steps => _ ← replay_frame step; replay_frames steps
  end.

Definition Replay (step_end : nat) : M unit :=
  _ ← TerminateTasks;
  _ ← st_modify (λ s, set_obj (target_Reset (state (world s))) s);
  _ ← replay_frames (seq 0 step_end);
  st_modify clear_status.

(** ** The full history (scheduler.h:578-600, 664-679) *)

Definition push_full (thread_id : nat) (e : TaskRef + CoroutineStatus) : M unit :=
  st_modify (λ s, with_full (full_history s ++ [(thread_id, e)]) s).

Definition UpdateFullHistory (thread_id : nat) (r : TaskRef) (is_new : bool) : M unit :=
  s ← st_get;
  match coroutine_status (world s) with
  | Some cs =>
      _ ← (if is_new then
             _ ← st_assert "coroutine_status->has_started" (has_started cs);
             push_full thread_id (inl r)
           else mret tt);
      v ← st_lift (UpdateState (cs_name cs) thread_id (has_started cs) (verifier s));
      _ ← st_modify (with_verifier v);
      _ ← push_full thread_id (inr cs);
      st_modify clear_status
  | None =>
      c ← get_task r;
      v ← st_lift (UpdateState (GetName c) thread_id is_new (verifier s));
      _ ← st_modify (with_verifier v);
      push_full thread_id (inl r)
  end.

(** [pop_back()] of a vector. *)
Definition vec_pop_back {A} (what : string) (l : list A) : outcome (list A) :=
  match l with [] => Fail (Undefined what) | _ :: _ => Ok (removelast l) end.

(** [std::find_if] for the first entry of a thread: the distance from the
    beginning, the length when there is none. *)
Fixpoint first_of_thread (thread : nat) (l : FullHistoryWithThreads) : nat :=
  match l with
  | [] => 0
  | e :: l => if e.1 =? thread then 0 else S (first_of_thread thread l)
  end.

(** Removing the last row: a status change takes the start of its task with it
    when that start is the entry before and the first one of the thread. *)
Definition pop_full_history (full : FullHistoryWithThreads) : outcome FullHistoryWithThreads :=
  match last full with
  | None => Fail (Undefined "full_history.back()")
  | Some (_, inl _) => vec_pop_back "full_history.pop_back()" full
  | Some (thread, inr cor) =>
      prev ← (if length full <? 2 then Fail (OutOfRange "full_history[size - 2]")
              else vec_get full (length full - 2));
      let first_ind := first_of_thread thread (removelast full) in
      full ← (if has_started cor && (first_ind =? length full - 2) &&
                 match prev.2 with inl _ => true | inr _ => false end
              then vec_pop_back "full_history.pop_back()" full else Ok full);
      vec_pop_back "full_history.pop_back()" full
  end.

(** ** [ResumeTask] (scheduler.h:601-692) *)

(** [is_over || res.has_value()]. *)
Definition stops (r : bool * Result) : bool := r.1 || match r.2 with Some _ => true | None => false end.

(** The reference to [thread.tasks.back()]. *)
Definition back_ref (thread_id : nat) : M TaskRef :=
  s ← st_get;
  tasks ← st_lift (vec_get (threads s) thread_id);
  match length tasks with
  | 0 => st_fail (Undefined "tasks.back()")
  | S n => mret (thread_id, n)
  end.

Definition set_frame (frame : nat) (f : TFrame → TFrame) : M unit :=
  st_modify (λ s, with_frames (alter f frame (frames s)) s).

(** From the choice of the task to the record of its response. *)
Definition run_task (frame thread_id : nat) (is_new : bool) : M bool :=
  r ← back_ref thread_id;
  _ ← set_frame frame (λ f, mk_TFrame (Some r) (frame_is_new f));
  _ ← st_modify (λ s, with_ids (thread_id_history s ++ [thread_id]) s);
  _ ← (if is_new then
         st_modify (λ s, with_seq (sequential_history s ++
           [invocation (mk_TaskWithMetaData r true thread_id)]) s)
       else mret tt);
  c ← get_task r;
  s ← st_get;
  _ ← st_assert "!task->IsParked()" (negb (IsParked c (world s)));
  _ ← resume_task r;
  _ ← UpdateFullHistory thread_id r is_new;
  c ← get_task r;
  if IsReturned c then
    s ← st_get;
    v ← st_lift (OnFinished (GetName c) false thread_id (verifier s));
    result ← st_lift (coro_GetRetVal c);
    _ ← st_modify (λ s, with_seq (sequential_history s ++
          [response (mk_TaskWithMetaData r is_new thread_id) result])
        (with_verifier v (with_counts (started_tasks s) (finished_tasks s + 1) (finished_rounds s) s)));
    mret true
  else mret false.

(** [pretty_printer.PrettyPrint(full_history, log())]: the log is dropped, but
    the numbers of the tasks go to [std::cout], and printing may fail. *)
Definition print_full_log : M unit :=
  s ← st_get;
  '(_, out) ← st_lift (FullPrettyPrint printer_threads (task_in (threads s)) (full_history s)
                         (mk_Streams "" (printed s)));
  st_put (with_printed (cout_text out) s).

(** The history is complete: print and check it. *)
Definition finish_round : M (bool * Result) :=
  _ ← print_full_log;
  _ ← st_modify (λ s, with_counts (started_tasks s) (finished_tasks s) (finished_rounds s + 1) s);
  s ← st_get;
  ok ← st_lift (mc_Check (view (threads s)) (sequential_history s));
  if negb (ok : bool) then mret (false, Some ([], sequential_history s))
  else if finished_rounds s =? max_rounds cfg then mret (true, None)
  else mret (false, None).

(** Undoing the row. *)
Definition undo_row (is_finished is_new : bool) : M unit :=
  s ← st_get;
  ids ← st_lift (vec_pop_back "thread_id_history.pop_back()" (thread_id_history s));
  full ← st_lift (pop_full_history (full_history s));
  _ ← st_put (with_full full (with_ids ids s));
  _ ← (if (is_finished : bool) then
         s ← st_get;
         h ← st_lift (vec_pop_back "sequential_history.pop_back()" (sequential_history s));
         st_put (with_counts (started_tasks s) (finished_tasks s - 1) (finished_rounds s) (with_seq h s))
       else mret tt);
  if (is_new : bool) then
    s ← st_get;
    h ← st_lift (vec_pop_back "sequential_history.pop_back()" (sequential_history s));
    st_put (with_counts (started_tasks s - 1) (finished_tasks s) (finished_rounds s) (with_seq h s))
  else mret tt.

Definition next_switches (s : TLAState) (switches thread_id : nat) (is_new : bool) : nat :=
  if is_new then switches
  else if bool_decide (last (thread_id_history s) = Some thread_id) then switches else S switches.

(** [rec] is [RunStep]. *)
Definition ResumeTask (rec : nat → nat → M (bool * Result)) (frame step switches thread_id : nat)
    (is_new : bool) : M (bool * Result) :=
  s ← st_get;
  let nxt_switches := next_switches s switches thread_id is_new in
  if negb is_new && (max_switches cfg <? nxt_switches) then mret (false, None)
  else
    is_finished ← run_task frame thread_id is_new;
    s ← st_get;
    r ← (if finished_tasks s =? max_tasks cfg then finish_round else rec (step + 1) nxt_switches);
    if stops r then mret r
    else _ ← undo_row is_finished is_new; mret (false, None).

(** ** [RunStep] (scheduler.h:694-755) *)

Definition st_verify (name : string) (is_new : bool) (thread_id : nat) : M bool :=
  s ← st_get;
  '(ok, v) ← st_lift (Verify (mk_Created name is_new thread_id) (verifier s));
  _ ← st_put (with_verifier v s);
  mret ok.

(** [tasks.emplace_back(cons.Build(&state, i, -1)); started_tasks++]. *)
Definition create_task (b : TaskBuilder) (i : nat) : M unit :=
  s ← st_get;
  '(c, w) ← st_lift (Build b i (-1) (world s));
  st_put (with_counts (started_tasks s + 1) (finished_tasks s) (finished_rounds s)
    (with_world w (with_threads (alter (λ tasks, tasks ++ [c]) i (threads s)) s))).

(** [tasks.pop_back()], behind it the assertion on the size. *)
Definition drop_task (i : nat) : M unit :=
  s ← st_get;
  tasks ← st_lift (vec_get (threads s) i);
  tasks' ← st_lift (vec_pop_back "tasks.pop_back()" tasks);
  st_put (with_threads (<[i := tasks']> (threads s)) s).

Definition thread_size (i : nat) : M nat :=
  s ← st_get; tasks ← st_lift (vec_get (threads s) i); mret (length tasks).

(** One iteration of the loop over the constructors, for a thread that can get
    a new task. *)
Definition try_constructor (rec : nat → nat → M (bool * Result)) (frame step switches i : nat)
    (b : TaskBuilder) : M (bool * Result) :=
  ok ← st_verify (tb_name b) true i;
  if negb (ok : bool) then mret (false, None)
  else
    _ ← set_frame frame (λ f, mk_TFrame (frame_task f) true);
    size_before ← thread_size i;
    _ ← create_task b i;
    r ← ResumeTask rec frame step switches i true;
    if stops r then mret r
    else
      _ ← drop_task i;
      size_after ← thread_size i;
      _ ← st_assert "size_before == size_after" (size_before =? size_after);
      _ ← Replay step;
      mret (false, None).

Fixpoint try_constructors (rec : nat → nat → M (bool * Result)) (frame step switches i : nat)
    (cs : list TaskBuilder) : M (bool * Result) :=
  match cs with
  | [] => mret (false, None)
  | b :: cs =>
      r ← try_constructor rec frame step switches i b;
      if stops r then mret r else try_constructors rec frame step switches i cs
  end.

(** [tasks.back()] when it is there and has not returned. *)
Definition unfinished (tasks : list CoroBase) : option CoroBase :=
  match last tasks with
  | Some c => if IsReturned c then None else Some c
  | None => None
  end.

(** Going on with the last task of the thread. *)
Definition continue_task (rec : nat → nat → M (bool * Result)) (frame step switches i : nat)
    (method : string) : M (bool * Result) :=
  ok ← st_verify method false i;
  if negb (ok : bool) then mret (false, None)
  else
    _ ← set_frame frame (λ f, mk_TFrame (frame_task f) false);
    r ← ResumeTask rec frame step switches i false;
    if stops r then mret r else _ ← Replay step; mret (false, None).

(** One iteration of the loop over the threads; [all_parked] is threaded
    through. *)
Definition try_thread (rec : nat → nat → M (bool * Result)) (frame step switches i : nat)
    (all_parked : bool) : M ((bool * Result) * bool) :=
  s ← st_get;
  tasks ← st_lift (vec_get (threads s) i);
  match unfinished tasks with
  | Some c =>
      if IsParked c (world s) then mret ((false, None), all_parked)
      else r ← continue_task rec frame step switches i (GetName c); mret (r, false)
  | None =>
      if negb (started_tasks s =? max_tasks cfg) && (length tasks <? max_depth cfg) then
        r ← try_constructors rec frame step switches i (constructors cfg); mret (r, false)
      else mret ((false, None), false)
  end.

Fixpoint try_threads (rec : nat → nat → M (bool * Result)) (frame step switches : nat) (ids : list nat)
    (all_parked : bool) : M ((bool * Result) * bool) :=
  match ids with
  | [] => mret ((false, None), all_parked)
  | i :: ids =>
      '(r, all_parked) ← try_thread rec frame step switches i all_parked;
      if stops r then mret (r, all_parked)
      else try_threads rec frame step switches ids all_parked
  end.

(** [fuel] bounds the depth of the recursion. *)
Fixpoint RunStep (fuel step switches : nat) : M (bool * Result) :=
  match fuel with
  | 0 => st_fail OutOfFuel
  | S fuel =>
      s ← st_get;
      let frame := length (frames s) in
      _ ← st_put (with_frames (frames s ++ [mk_TFrame None false]) s);
      '(r, all_parked) ← try_threads (RunStep fuel) frame step switches (seq 0 (length (threads s))) true;
      if stops r then mret r
      else
        _ ← st_assert "deadlock" (negb all_parked);
        s ← st_get;
        fs ← st_lift (vec_pop_back "frames.pop_back()" (frames s));
        _ ← st_put (with_frames fs s);
        mret (false, None)
  end.

Definition Run (fuel : nat) : M Result := r ← RunStep fuel 0 0; mret r.2.
End tla.
End TLA.
