(* ===== verification/TLAExhaustive.v ===== *)
(** * TLAExhaustive: the exhaustive scheduler explores every execution

    The executions [TLAScheduler] is meant to enumerate are the paths of a
    transition system without frames, replays or backtracking ([astep] on
    [aconf]).  [executions] lists them depth first, a pure function; [RunStep]
    checks them in that order, stops at the first that is rejected or at
    [max_rounds], and returns what it found ([verdict], [Run_exhaustive]).  The
    heart of the proof is that a replay restores the state the frames on the
    stack describe ([replayable], [Replay_restores]). *)

From stdpp Require Import base gmap strings option list.
From S2P Require Import Prelude ValueWrapper History Linearizability Coro Strategy PrettyPrint Scheduler TLA.

Import TLA.

(** ** Tasks of a vector of threads *)

Section tasks.
Context `{HT : Target}.
Implicit Types ths : list (list CoroBase).

Lemma task_in_Some ths th i c :
  task_in ths (th, i) = Some c ↔ ∃ thread, ths !! th = Some thread ∧ thread !! i = Some c.
Proof. unfold task_in. simpl. destruct (ths !! th); simpl; naive_solver. Qed.

Lemma task_in_put_eq ths r c c0 : task_in ths r = Some c0 → task_in (put_task r c ths) r = Some c.
Proof.
  destruct r as [th i]. rewrite !task_in_Some. intros (thread & Ht & Hi). exists (<[i:=c]> thread).
  split; [unfold put_task; simpl; by rewrite list_lookup_alter_eq, Ht|].
  apply list_lookup_insert_eq. by eapply lookup_lt_Some.
Qed.

Lemma task_in_put_ne ths r r' c : r ≠ r' → task_in (put_task r c ths) r' = task_in ths r'.
Proof.
  destruct r as [th i], r' as [th' i']. intros Hne. unfold task_in, put_task; simpl.
  destruct (decide (th = th')) as [<-|]; [|by rewrite list_lookup_alter_ne].
  rewrite list_lookup_alter_eq. destruct (ths !! th) as [thread|]; simpl; [|done].
  rewrite list_lookup_insert_ne; [done|]. congruence.
Qed.

(** The shape of a vector of threads: the sizes of the threads. *)
Definition shape ths : list nat := length <$> ths.

Lemma shape_put r c ths : shape (put_task r c ths) = shape ths.
Proof.
  unfold shape, put_task. apply list_eq. intros i. rewrite !list_lookup_fmap.
  destruct (decide (i = r.1)) as [->|]; [|by rewrite list_lookup_alter_ne].
  rewrite list_lookup_alter_eq. destruct (ths !! r.1); simpl; [by rewrite length_insert|done].
Qed.

Lemma task_in_shape ths ths' r : shape ths = shape ths' → is_Some (task_in ths r) → is_Some (task_in ths' r).
Proof.
  destruct r as [th i]. intros Hs [c (thread & Ht & Hi)%task_in_Some].
  assert (shape ths !! th = Some (length thread)) as Hl by (unfold shape; by rewrite list_lookup_fmap, Ht).
  rewrite Hs in Hl. unfold shape in Hl. rewrite list_lookup_fmap in Hl.
  destruct (ths' !! th) as [thread'|] eqn:Ht'; [|done]. injection Hl as Hl.
  destruct (lookup_lt_is_Some_2 thread' i) as [c' Hc']; [rewrite Hl; by eapply lookup_lt_Some|].
  exists c'. apply task_in_Some. eauto.
Qed.

Lemma threads_eq ths ths' :
  shape ths = shape ths' → (∀ r c, task_in ths r = Some c → task_in ths' r = Some c) → ths = ths'.
Proof.
  intros Hs H. apply list_eq. intros th.
  assert (shape ths !! th = shape ths' !! th) as Hl by (by rewrite Hs).
  unfold shape in Hl. rewrite !list_lookup_fmap in Hl.
  destruct (ths !! th) as [thread|] eqn:Ht, (ths' !! th) as [thread'|] eqn:Ht'; try done. injection Hl as Hl.
  f_equal. apply list_eq. intros i. destruct (thread !! i) as [c|] eqn:Hi.
  - assert (task_in ths (th, i) = Some c) as Hc by (apply task_in_Some; eauto).
    apply H, task_in_Some in Hc as (t & ? & ?). by simplify_eq.
  - symmetry. apply lookup_ge_None. rewrite <-Hl. by apply lookup_ge_None.
Qed.

(** [ths'] has the tasks of [ths], in whatever state they are. *)
Definition same_tasks ths ths' : Prop :=
  shape ths = shape ths' ∧
  ∀ r c, task_in ths r = Some c → ∃ c', task_in ths' r = Some c' ∧ same_task c c'.

Lemma same_tasks_refl ths : same_tasks ths ths.
Proof. split; [done|]. intros r c Hc. exists c. by split. Qed.

Lemma same_tasks_trans ths1 ths2 ths3 :
  same_tasks ths1 ths2 → same_tasks ths2 ths3 → same_tasks ths1 ths3.
Proof.
  intros [Hs1 H1] [Hs2 H2]. split; [congruence|]. intros r c Hc.
  destruct (H1 r c Hc) as (c' & Hc' & ?), (H2 r _ Hc') as (c'' & ? & ?).
  exists c''. split; [done|by eapply same_task_trans].
Qed.

Lemma same_tasks_put ths r c c' :
  task_in ths r = Some c → same_task c c' → same_tasks ths (put_task r c' ths).
Proof.
  intros Hc Hs. split; [by rewrite shape_put|]. intros u c0 Hu. destruct (decide (r = u)) as [<-|Hne].
  - exists c'. split; [by eapply task_in_put_eq|congruence].
  - exists c0. split; [by rewrite task_in_put_ne|done].
Qed.
End tasks.

(** ** Programs that can be replayed

    Replaying restores a state when the object under test forgets its past on
    [Reset], and when neither the methods nor the generators use tokens, which
    nothing resets.  The verifier is not restored either, so it is not to refuse
    anything. *)

Record replay_safe `{HT : Target} `{HC : !Code} `{HV : StrategyVerifier} (cfg : Config) : Prop := {
  rs_reset o : target_Reset o = target_init;
  rs_code f o sl : run_slice f o ∅ = Ok sl → slice_tokens sl = ∅;
  rs_gen b th w a w' : b ∈ constructors cfg → tb_gen b th w = Ok (a, w') → w' = w;
  rs_verify t v r v' : Verify t v = Ok (r, v') → r = true;
}.

Section semantics.
Context `{HT : Target} `{HC : !Code} `{HV : StrategyVerifier}.
Context (cfg : Config) (Hsafe : replay_safe cfg).

Definition quiet_world (w : World) : Prop := tokens w = ∅ ∧ generated_token w = None.

(** A resume, as the memory of the tasks sees it. *)
Definition plain_step (c : CoroBase) (o : TargetObj) (c' : CoroBase) (o' : TargetObj) : Prop :=
  ∃ st, Resume c (mk_World o ∅ None None) = Ok (c', mk_World o' ∅ st None).

Lemma Resume_plain c w c' w' :
  quiet_world w → Resume c w = Ok (c', w') → plain_step c (state w) c' (state w') ∧ quiet_world w'.
Proof.
  intros [Hts Hg] H. unfold plain_step, Resume in *. rewrite Hts in H.
  destruct (assert _ _) as [u|]; [|done]; simpl in *. destruct (or_fail _ _) as [f|]; [|done]; simpl in *.
  destruct (run_slice f (state w) ∅) as [[f' o' ts b st|v o' ts]|] eqn:E; simplify_eq/=;
    apply (rs_code _ Hsafe) in E; simpl in E; subst ts; rewrite Hg; split; try done; eauto.
Qed.

Lemma plain_step_Resume c o c' o' w :
  plain_step c o c' o' → state w = o → quiet_world w →
  ∃ w', Resume c w = Ok (c', w') ∧ state w' = o' ∧ quiet_world w'.
Proof.
  intros [st H] <- [Hts Hg]. unfold Resume in *. rewrite Hts.
  destruct (assert _ _) as [u|]; [|done]; simpl in *. destruct (or_fail _ _) as [f|]; [|done]; simpl in *.
  destruct (run_slice f (state w) ∅) as [[f' o1 ts b st1|v o1 ts]|]; simplify_eq/=;
    (eexists; by split_and!).
Qed.

Lemma plain_step_same c o c' o' : plain_step c o c' o' → same_task c c' ∧ IsReturned c = false.
Proof. intros [st H]. by apply Resume_Ok in H as [? ?]. Qed.

Lemma plain_step_fun c o c1 o1 c2 o2 : plain_step c o c1 o1 → plain_step c o c2 o2 → c1 = c2 ∧ o1 = o2.
Proof. intros [? H1] [? H2]. rewrite H1 in H2. by injection H2 as <- <- _. Qed.

Lemma Terminate_loop_plain fuel tries c w c' w' :
  Terminate_loop fuel tries c w = Ok (c', w') → quiet_world w →
  same_task c c' ∧ IsReturned c' = true ∧ quiet_world w'.
Proof.
  revert tries c w. induction fuel as [|fuel IH]; intros tries c w H Hq; cbn [Terminate_loop] in H;
    destruct (IsReturned c) eqn:Hr; try done; try by simplify_eq.
  cbv zeta in H. apply bind_Ok in H as ([c1 w1] & H1 & H). apply bind_Ok in H as (u & _ & H).
  apply Resume_Ok in H1 as Hs. destruct Hs as [_ Hs]. apply Resume_plain in H1 as [_ Hq1]; [|done].
  destruct (IH _ _ _ H Hq1) as (? & ? & ?). split; [by eapply same_task_trans|done].
Qed.

(** ** The state the frames describe *)

(** [replayable fs ths o]: running the frames [fs] from the beginning gives the
    threads [ths] and the object [o]. *)
Inductive replayable : list TFrame → list (list CoroBase) → TargetObj → Prop :=
| replayable_nil n : replayable [] (replicate n []) target_init
| replayable_go fs ths o r c c' o' :
    replayable fs ths o → task_in ths r = Some c → plain_step c o c' o' →
    replayable (fs ++ [mk_TFrame (Some r) false]) (put_task r c' ths) o'
| replayable_start fs ths o i thread method args c' o' :
    replayable fs ths o → ths !! i = Some thread → plain_step (New method args (-1)) o c' o' →
    replayable (fs ++ [mk_TFrame (Some (i, length thread)) true])
      (<[i := thread ++ [c']]> ths) o'.

(** Everything but the threads and the world. *)
Definition same_rest (s s' : TLAState) : Prop := s' = with_threads (threads s') (with_world (world s') s).

Lemma same_rest_refl s : same_rest s s.
Proof. by destruct s. Qed.
Lemma same_rest_trans s1 s2 s3 : same_rest s1 s2 → same_rest s2 s3 → same_rest s1 s3.
Proof. unfold same_rest. intros -> ->. done. Qed.

Local Abbreviation M := (stM TLAState).

Lemma tla_get_task_Ok r s c s' : get_task r s = Ok (c, s') ↔ task_in (threads s) r = Some c ∧ s' = s.
Proof. unfold get_task. destruct (task_in (threads s) r); simpl; naive_solver. Qed.

Lemma resume_task_Ok r s u s' :
  resume_task r s = Ok (u, s') ↔
  ∃ c c' w', task_in (threads s) r = Some c ∧ Resume c (world s) = Ok (c', w') ∧
    s' = with_world w' (with_threads (put_task r c' (threads s)) s).
Proof.
  unfold resume_task. split.
  - intros H. apply st_bind_Ok in H as (c & s1 & [Hc ->]%tla_get_task_Ok & H). rewrite st_get_bind in H.
    apply st_bind_Ok in H as ([c' w'] & s2 & [Hr ->]%st_lift_Ok & H). unfold set_task in H. inv_st H. eauto 10.
  - intros (c & c' & w' & Hc & Hr & ->). st_step (proj2 (tla_get_task_Ok r s c s) (conj Hc eq_refl)).
    rewrite st_get_bind. st_lift_step Hr. by destruct u.
Qed.

(** Resuming in a quiet world. *)
Lemma resume_task_plain r s u s' :
  resume_task r s = Ok (u, s') → quiet_world (world s) →
  ∃ c c', task_in (threads s) r = Some c ∧ plain_step c (state (world s)) c' (state (world s')) ∧
    threads s' = put_task r c' (threads s) ∧ quiet_world (world s') ∧ same_rest s s'.
Proof.
  intros (c & c' & w' & Hc & Hr & ->)%resume_task_Ok Hq. apply Resume_plain in Hr as [Hp Hq']; [|done].
  exists c, c'. by split_and!.
Qed.

Lemma terminate_refs_Ok inner refs s u s' :
  terminate_refs inner refs s = Ok (u, s') → quiet_world (world s) →
  same_tasks (threads s) (threads s') ∧ quiet_world (world s') ∧ same_rest s s' ∧
  (∀ r c, task_in (threads s') r = Some c → IsReturned c = true ∨ ((r ∉ refs) ∧ task_in (threads s) r = Some c)).
Proof.
  revert s. induction refs as [|r refs IH]; intros s H Hq; cbn [terminate_refs] in H.
  { inv_st H. split_and!; [apply same_tasks_refl|by destruct Hq..|apply same_rest_refl|].
    intros r c Hc. right. split; [set_solver|done]. }
  apply st_bind_Ok in H as (c & s1 & [Hc ->]%tla_get_task_Ok & H). destruct (IsReturned c) eqn:Hr.
  { destruct (IH _ H Hq) as (? & ? & ? & Hall). split_and!; [done..|]. intros u' c' Hc'.
    destruct (Hall u' c' Hc') as [?|[? Hold]]; [by left|]. destruct (decide (u' = r)) as [->|]; [|right; set_solver].
    left. congruence. }
  rewrite st_get_bind in H. apply st_bind_Ok in H as ([c' w'] & s2 & [Ht ->]%st_lift_Ok & H).
  unfold set_task in H. rewrite st_modify_bind in H.
  apply Terminate_loop_plain in Ht as (Hs & Hret & Hq'); [|done].
  destruct (IH _ H Hq') as (Hst & Hq2 & Hrest & Hall). split_and!; [| |eapply same_rest_trans; [|exact Hrest]; done|].
  - eapply same_tasks_trans; [|exact Hst]. by eapply same_tasks_put.
  - done.
  - intros u' c0 Hc0. destruct (Hall u' c0 Hc0) as [?|[? Hold]]; [by left|]. simpl in Hold.
    destruct (decide (r = u')) as [<-|Hne]; [left|right].
    + rewrite (task_in_put_eq _ _ _ _ Hc) in Hold. congruence.
    + rewrite task_in_put_ne in Hold by done. set_solver.
Qed.

Lemma all_refs_In ths r : is_Some (task_in ths r) → r ∈ all_refs ths.
Proof.
  destruct r as [th i]. intros [c (thread & Ht & Hi)%task_in_Some]. unfold all_refs.
  apply list_elem_of_In, in_concat. exists ((λ j, (th, j)) <$> seq 0 (length thread)). split.
  - apply list_elem_of_In, list_elem_of_lookup. exists th. by rewrite list_lookup_imap, Ht.
  - apply list_elem_of_In, list_elem_of_fmap. exists i. split; [done|]. apply elem_of_seq.
    apply lookup_lt_Some in Hi. lia.
Qed.

(** ** Replaying *)

Lemma replayable_token fs ths o r c : replayable fs ths o → task_in ths r = Some c → token c = None.
Proof.
  intros H. revert r c. induction H as [n|fs ths o r0 c0 c0' o' _ IH Hc0 Hp|fs ths o i thread method args c0' o' _ IH Ht Hp];
    intros r c Hc.
  - destruct r as [th i]. apply task_in_Some in Hc as (thread & Ht & Hi).
    apply lookup_replicate in Ht as [-> _]. done.
  - apply plain_step_same in Hp as [(_ & _ & _ & Htok) _]. destruct (decide (r0 = r)) as [<-|Hne].
    + rewrite (task_in_put_eq _ _ _ _ Hc0) in Hc. simplify_eq. rewrite Htok. by eapply IH.
    + rewrite task_in_put_ne in Hc by done. by eapply IH.
  - apply plain_step_same in Hp as [(_ & _ & _ & Htok) _]. destruct r as [th j].
    apply task_in_Some in Hc as (thread' & Ht' & Hj). destruct (decide (i = th)) as [<-|Hne].
    + rewrite list_lookup_insert_eq in Ht' by (by eapply lookup_lt_Some). simplify_eq.
      apply lookup_snoc_Some in Hj as [[_ Hj]|[_ ->]]; [|done].
      apply (IH (i, j)), task_in_Some. eauto.
    + rewrite list_lookup_insert_ne in Ht' by done. apply (IH (th, j)), task_in_Some. eauto.
Qed.

(** Adding a task to a thread. *)
Lemma task_in_push ths i thread c r d :
  ths !! i = Some thread →
  task_in (<[i := thread ++ [c]]> ths) r = Some d ↔
  (r = (i, length thread) ∧ d = c) ∨ task_in ths r = Some d.
Proof.
  intros Ht. destruct r as [th j]. rewrite !task_in_Some. destruct (decide (i = th)) as [<-|Hne].
  - rewrite list_lookup_insert_eq by (by eapply lookup_lt_Some). split.
    + intros (t & [= <-] & [[_ Hj]|[-> <-]]%lookup_snoc_Some); [right; eauto|by left].
    + intros [[[= ->] ->]|(t & Ht' & Hj)]; (eexists; split; [done|]); [by rewrite lookup_app_r, Nat.sub_diag by lia|].
      simplify_eq. by apply lookup_app_l_Some.
  - rewrite list_lookup_insert_ne by done. split; [eauto|]. intros [[[= -> _] _]|?]; done.
Qed.

Lemma task_in_fresh ths i thread : ths !! i = Some thread → task_in ths (i, length thread) = None.
Proof. intros Ht. unfold task_in. simpl. rewrite Ht. simpl. apply lookup_ge_None. lia. Qed.

Lemma replay_frames_snoc l x s u s' :
  replay_frames (l ++ [x]) s = Ok (u, s') →
  ∃ s1, replay_frames l s = Ok (tt, s1) ∧ replay_frame x s1 = Ok (u, s').
Proof.
  revert s. induction l as [|y l IH]; intros s H; cbn [app replay_frames] in H.
  - apply st_bind_Ok in H as (u1 & s1 & H1 & H). inv_st H. destruct u1. exists s. by split.
  - apply st_bind_Ok in H as (u1 & s1 & H1 & H). destruct (IH _ H) as (s2 & H2 & H3).
    exists s2. split; [|done]. cbn [replay_frames]. st_step H1. done.
Qed.

Lemma replay_frame_go step r s u s' :
  replay_frame step s = Ok (u, s') → frames s !! step = Some (mk_TFrame (Some r) false) →
  resume_task r s = Ok (u, s').
Proof.
  unfold replay_frame. rewrite st_get_bind. intros H Hf. rewrite Hf in H.
  apply st_bind_Ok in H as (f & s1 & [[= <-] ->]%st_lift_Ok & H).
  apply st_bind_Ok in H as (r' & s1 & [[= <-] ->]%st_lift_Ok & H). exact H.
Qed.

Lemma replay_frame_start step r s u s' :
  replay_frame step s = Ok (u, s') → frames s !! step = Some (mk_TFrame (Some r) true) →
  ∃ c c', task_in (threads s) r = Some c ∧ Restart c = Ok c' ∧
    resume_task r (with_threads (put_task r c' (threads s)) s) = Ok (u, s').
Proof.
  unfold replay_frame. rewrite st_get_bind. intros H Hf. rewrite Hf in H.
  apply st_bind_Ok in H as (f & s1 & [[= <-] ->]%st_lift_Ok & H).
  apply st_bind_Ok in H as (r' & s1 & [[= <-] ->]%st_lift_Ok & H). cbn [frame_is_new] in H.
  apply st_bind_Ok in H as (u1 & s2 & H1 & H).
  apply st_bind_Ok in H1 as (c & s1 & [Hc ->]%tla_get_task_Ok & H1).
  apply st_bind_Ok in H1 as (c' & s1 & [Hr ->]%st_lift_Ok & H1). unfold set_task in H1. inv_st H1.
  exists c, c'. split_and!; [done..|]. by destruct s.
Qed.

(** Where a replay starts: everything has returned, and the tasks of [ths] are
    there. *)
Record rewound (ths : list (list CoroBase)) (s : TLAState) : Prop := {
  rw_tasks r c : task_in ths r = Some c → ∃ c0, task_in (threads s) r = Some c0 ∧ same_task c0 c;
  rw_returned r c : task_in (threads s) r = Some c → IsReturned c = true;
  rw_obj : state (world s) = target_init;
  rw_quiet : quiet_world (world s);
}.

Lemma rewound_go ths s r c o c' o' :
  rewound (put_task r c' ths) s → task_in ths r = Some c → plain_step c o c' o' → rewound ths s.
Proof.
  intros [Hpres Hret Hobj Hq] Hc Hp. split; [|done..]. intros v d Hv. destruct (decide (r = v)) as [<-|Hne].
  - destruct (Hpres r c') as (c0 & ? & Hs); [by eapply task_in_put_eq|]. exists c0. split; [done|].
    apply plain_step_same in Hp as [Hs' _]. assert (d = c) as -> by congruence.
    unfold same_task in *. destruct Hs as (?&?&?&?), Hs' as (?&?&?&?). split_and!; congruence.
  - destruct (Hpres v d) as (c0 & ? & ?); [by rewrite task_in_put_ne|]. eauto.
Qed.

Lemma rewound_push ths s i thread c :
  rewound (<[i := thread ++ [c]]> ths) s → ths !! i = Some thread → rewound ths s.
Proof.
  intros [Hpres Hret Hobj Hq] Ht. split; [|done..]. intros v d Hv. apply Hpres, task_in_push; [done|by right].
Qed.

(** Where it ends: the tasks of [ths] are as they were. *)
Record replayed (ths : list (list CoroBase)) (o : TargetObj) (s s' : TLAState) : Prop := {
  rp_tasks r c : task_in ths r = Some c → task_in (threads s') r = Some c;
  rp_others r : task_in ths r = None → task_in (threads s') r = task_in (threads s) r;
  rp_shape : shape (threads s') = shape (threads s);
  rp_obj : state (world s') = o;
  rp_quiet : quiet_world (world s');
  rp_rest : same_rest s s';
}.

(** Running one more frame. *)
Lemma replayed_resume ths ths' o o' s s1 s' r c c' u :
  replayed ths o s s1 →
  (∀ v d, task_in ths' v = Some d ↔ (v = r ∧ d = c') ∨ (v ≠ r ∧ task_in ths v = Some d)) →
  plain_step c o c' o' → is_Some (task_in (threads s1) r) →
  resume_task r (with_threads (put_task r c (threads s1)) s1) = Ok (u, s') →
  replayed ths' o' s s'.
Proof.
  intros [Htasks Hothers Hshape Hobj Hq Hrest] Hths Hp [d Hd] H.
  apply resume_task_plain in H as (c0 & c1 & Hc0 & Hp' & Hthr & Hq' & Hrest'); [|done].
  simpl in *. rewrite (task_in_put_eq _ _ _ _ Hd) in Hc0. injection Hc0 as <-. rewrite Hobj in Hp'.
  destruct (plain_step_fun _ _ _ _ _ _ Hp Hp') as [<- Ho].
  assert (task_in (put_task r c (threads s1)) r = Some c) as Hc by (by eapply task_in_put_eq).
  split; [| |by rewrite Hthr, !shape_put|done|done|].
  - intros v e He. rewrite Hthr. apply Hths in He as [[-> ->]|[Hne He]]; [by eapply task_in_put_eq|].
    rewrite !task_in_put_ne by done. by apply Htasks.
  - intros v Hv. rewrite Hthr. assert (v ≠ r) as Hne.
    { intros ->. assert (task_in ths' r = Some c') by (apply Hths; by left). congruence. }
    rewrite !task_in_put_ne by done. apply Hothers. destruct (task_in ths v) as [e|] eqn:E; [|done].
    assert (task_in ths' v = Some e) by (apply Hths; by right). congruence.
  - eapply same_rest_trans; [exact Hrest|]. eapply same_rest_trans; [|exact Hrest']. done.
Qed.

Lemma replay_frames_restores fs ths o s u s' :
  replayable fs ths o → fs `prefix_of` frames s → rewound ths s →
  replay_frames (seq 0 (length fs)) s = Ok (u, s') → replayed ths o s s'.
Proof.
  intros H. revert s u s'.
  induction H as [n|fs ths o r c c' o' Hfs IH Hc Hp|fs ths o i thread method args c' o' Hfs IH Ht Hp];
    intros s u s' Hpre Hrw H.
  - simpl in H. inv_st H. destruct Hrw as [Hpres Hret Hobj Hq]. split; try done; [|apply same_rest_refl].
    intros [th i] c (thread & Ht & Hi)%task_in_Some. apply lookup_replicate in Ht as [-> _]. done.
  - rewrite length_app, seq_app in H. apply replay_frames_snoc in H as (s1 & H1 & H).
    assert (replayed ths o s s1) as Hrp.
    { eapply IH; [by eapply prefix_app_l|by eapply rewound_go|exact H1]. }
    assert (frames s1 = frames s) as Hfr by (by rewrite (rp_rest _ _ _ _ Hrp)).
    apply replay_frame_go with (r:=r) in H.
    2:{ rewrite Hfr. destruct Hpre as [k ->]. simpl. rewrite <-app_assoc.
        by rewrite lookup_app_r, Nat.sub_diag by lia. }
    assert (task_in (threads s1) r = Some c) as Hc1 by (by eapply rp_tasks).
    eapply replayed_resume; [exact Hrp| |exact Hp|by eexists|].
    + intros v d. destruct (decide (r = v)) as [<-|Hne].
      * rewrite (task_in_put_eq _ _ _ _ Hc). naive_solver.
      * rewrite task_in_put_ne by done. naive_solver.
    + assert (put_task r c (threads s1) = threads s1) as ->; [|by destruct s1; exact H].
      symmetry. apply threads_eq; [by rewrite shape_put|]. intros v d Hv. destruct (decide (r = v)) as [<-|Hne].
      * rewrite (task_in_put_eq _ _ _ _ Hc1). congruence.
      * by rewrite task_in_put_ne.
  - rewrite length_app, seq_app in H. apply replay_frames_snoc in H as (s1 & H1 & H).
    assert (replayed ths o s s1) as Hrp.
    { eapply IH; [by eapply prefix_app_l|by eapply rewound_push|exact H1]. }
    assert (frames s1 = frames s) as Hfr by (by rewrite (rp_rest _ _ _ _ Hrp)).
    apply replay_frame_start with (r:=(i, length thread)) in H as (c0 & c1 & Hc0 & Hrs & H).
    2:{ rewrite Hfr. destruct Hpre as [k ->]. simpl. rewrite <-app_assoc.
        by rewrite lookup_app_r, Nat.sub_diag by lia. }
    rewrite (rp_others _ _ _ _ Hrp) in Hc0 by (by apply task_in_fresh).
    destruct (rw_tasks _ _ Hrw (i, length thread) c') as (c2 & Hc2 & Hs); [apply task_in_push; [done|by left]|].
    assert (c2 = c0) as -> by congruence. apply Restart_Ok in Hrs as [_ ->].
    apply plain_step_same in Hp as Hs'. destruct Hs' as [(E1 & E2 & E3 & E4) _].
    destruct Hs as (F1 & F2 & F3 & F4). simpl in *.
    rewrite <-F1, <-F2, <-F3, <-F4, E1, E2, E3, E4 in H. simpl in H.
    eapply replayed_resume; [exact Hrp| |exact Hp| |exact H].
    + intros v d. rewrite (task_in_push _ _ _ _ _ _ Ht). pose proof (task_in_fresh _ _ _ Ht).
      split; [|naive_solver]. intros [[-> ->]|Hv]; [by left|right]. split; [|done]. intros ->. congruence.
    + rewrite (rp_others _ _ _ _ Hrp) by (by apply task_in_fresh). by eexists.
Qed.

(** [Replay] restores the state the frames describe. *)
Lemma Replay_restores cancel inner fs ths o s u s' :
  Replay cancel inner (length fs) s = Ok (u, s') → replayable fs ths o → fs `prefix_of` frames s →
  same_tasks ths (threads s) → quiet_world (world s) →
  threads s' = ths ∧ state (world s') = o ∧ coroutine_status (world s') = None ∧
  quiet_world (world s') ∧ same_rest s s'.
Proof.
  intros H Hfs Hpre Hsame Hq. unfold Replay in H.
  apply st_bind_Ok in H as (u1 & s1 & H1 & H). rewrite st_modify_bind in H.
  apply st_bind_Ok in H as (u2 & s2 & H2 & H). inv_st H.
  unfold TerminateTasks in H1. rewrite st_modify_bind, st_get_bind in H1.
  apply terminate_refs_Ok in H1 as (Hst & Hq1 & Hrest1 & Hall); [|done]. simpl in Hst, Hall.
  pose proof (same_tasks_trans _ _ _ Hsame Hst) as Hst'.
  assert (∀ r c, task_in (threads s1) r = Some c → IsReturned c = true) as Hret.
  { intros r c Hc. destruct (Hall r c Hc) as [?|[Hni Hc']]; [done|]. destruct Hni.
    apply all_refs_In. by eexists. }
  assert (same_rest s s1) as Hrs1 by (eapply same_rest_trans; [|exact Hrest1]; done).
  eapply replay_frames_restores in H2 as [Htasks _ Hshape Hobj Hq2 Hrest2]; [|exact Hfs| |].
  - assert (same_rest s s2) as Hrs2.
    { eapply same_rest_trans; [exact Hrs1|]. eapply same_rest_trans; [|exact Hrest2]. done. }
    split_and!; [| |done|by destruct Hq2|by eapply same_rest_trans; [exact Hrs2|]].
    + symmetry. apply threads_eq; [|exact Htasks]. simpl. rewrite Hshape. by destruct Hst'.
    + done.
  - simpl. by rewrite Hrs1.
  - split; [|done|by apply rs_reset with (1:=Hsafe)|by destruct Hq1].
    intros r c Hc. destruct Hst' as [_ Hst']. destruct (Hst' r c Hc) as (c' & Hc' & Hs). exists c'.
    split; [done|]. unfold same_task in *. naive_solver.
Qed.
End semantics.

(** ** The executions *)

(** A configuration of the abstract system: no stack of frames. *)
Record aconf `{HT : Target} := mk_conf {
  c_threads : list (list CoroBase);
  c_obj : TargetObj;
  c_seq : SeqHistory;
  c_ids : list nat;
  c_started : nat;
  c_finished : nat;
  c_switches : nat;
}.
Arguments aconf : clear implicits.
Arguments aconf {_}.
Arguments mk_conf {_} _ _ _ _ _ _ _.

(** ** Computations that check no execution *)

Create HintDb rounds.

Section rounds.
Context `{HT : Target} `{HC : !Code} `{HV : StrategyVerifier}.
Local Abbreviation M := (stM TLAState).

Definition keeps_rounds {A} (n : nat) (m : M A) : Prop :=
  ∀ s a s', finished_rounds s = n → m s = Ok (a, s') → finished_rounds s' = n.

Lemma keeps_ret {A} n (a : A) : keeps_rounds n (mret a).
Proof. intros s b s' Hs H. by inv_st H. Qed.
Lemma keeps_lift {A} n (m : outcome A) : keeps_rounds n (st_lift m).
Proof. by intros s b s' Hs [_ ->]%st_lift_Ok. Qed.
Lemma keeps_fail {A} n f : keeps_rounds n (st_fail (A := A) f).
Proof. done. Qed.
Lemma keeps_put n s0 : finished_rounds s0 = n → keeps_rounds n (st_put s0).
Proof. intros H s b s' Hs E. by inv_st E. Qed.
Lemma keeps_modify n f : (∀ s, finished_rounds (f s) = finished_rounds s) → keeps_rounds n (st_modify f).
Proof. intros H s b s' <- E. inv_st E. apply H. Qed.
Lemma keeps_bind {A B} n (m : M A) (k : A → M B) :
  keeps_rounds n m → (∀ a, keeps_rounds n (k a)) → keeps_rounds n (m ≫= k).
Proof. intros Hm Hk s b s' Hs (a & s1 & H1 & H2)%st_bind_Ok. eapply Hk; [|exact H2]. by eapply Hm. Qed.
Lemma keeps_get {B} n (k : TLAState → M B) :
  (∀ s, finished_rounds s = n → keeps_rounds n (k s)) → keeps_rounds n (st_get ≫= k).
Proof. intros Hk s b s' Hs. rewrite st_get_bind. by apply Hk. Qed.
Lemma keeps_get_task n r : keeps_rounds n (get_task r).
Proof. by intros s c s' Hs [_ ->]%tla_get_task_Ok. Qed.
Lemma keeps_resume n r : keeps_rounds n (resume_task r).
Proof. by intros s u s' Hs (c & c' & w & _ & _ & ->)%resume_task_Ok. Qed.

#[local] Hint Resolve keeps_ret keeps_lift keeps_fail keeps_get_task keeps_resume : rounds.

Ltac rounds_step :=
  cbv beta zeta;
  lazymatch goal with
  | |- keeps_rounds _ (st_get ≫= _) => apply keeps_get; intros ? ?
  | |- keeps_rounds _ (_ ≫= _) => apply keeps_bind; [|intros ?]
  | |- keeps_rounds _ (st_put _) => apply keeps_put; simpl; congruence
  | |- keeps_rounds _ (st_modify _) => apply keeps_modify; intros ?; reflexivity
  | |- keeps_rounds _ (st_assert _ _) => apply keeps_lift
  | |- keeps_rounds _ (match _ with _ => _ end) => case_match
  | |- _ => solve [auto with rounds]
  end.
Ltac rounds_tac := repeat rounds_step.

Lemma run_task_rounds n frame i is_new : keeps_rounds n (run_task frame i is_new).
Proof. unfold run_task, back_ref, set_frame, UpdateFullHistory, push_full. rounds_tac. Qed.

Lemma undo_row_rounds n fin is_new : keeps_rounds n (undo_row fin is_new).
Proof. unfold undo_row. rounds_tac. Qed.

Lemma terminate_refs_rounds inner n refs : keeps_rounds n (terminate_refs inner refs).
Proof. induction refs as [|r refs IH]; cbn [terminate_refs]; unfold set_task; rounds_tac. Qed.

Lemma replay_frames_rounds n steps : keeps_rounds n (replay_frames steps).
Proof. induction steps as [|k steps IH]; cbn [replay_frames]; unfold replay_frame, set_task; rounds_tac. Qed.
#[local] Hint Resolve terminate_refs_rounds replay_frames_rounds : rounds.

Lemma Replay_rounds cancel inner n step : keeps_rounds n (Replay cancel inner step).
Proof. unfold Replay, TerminateTasks. rounds_tac. Qed.

Lemma set_frame_rounds n frame f : keeps_rounds n (set_frame frame f).
Proof. unfold set_frame. rounds_tac. Qed.
Lemma create_task_rounds n b i : keeps_rounds n (create_task b i).
Proof. unfold create_task. rounds_tac. Qed.
Lemma drop_task_rounds n i : keeps_rounds n (drop_task i).
Proof. unfold drop_task. rounds_tac. Qed.
End rounds.

Section executions.
Context `{HT : Target} `{HC : !Code} `{HV : StrategyVerifier} `{HMC : ModelChecker} {HPP : PrettyPrinter}.
Context (cfg : Config).

Definition conf_init (threads_count : nat) : aconf :=
  mk_conf (replicate threads_count []) target_init [] [] 0 0 0.

(** The task [(i, n)] ran to [c'] on the object, which is now [o']. *)
Definition run_conf (is_new : bool) (i n : nat) (c' : CoroBase) (o' : TargetObj) (sw : nat) (C : aconf) : aconf :=
  mk_conf (put_task (i, n) c' (c_threads C)) o'
    (c_seq C ++ (if is_new then [EInvoke (mk_Invoke (i, n) (Z.of_nat i))] else [])
             ++ (if IsReturned c' then [EResponse (mk_Response (i, n) (ret c') (Z.of_nat i))] else []))
    (c_ids C ++ [i]) (c_started C) (c_finished C + if IsReturned c' then 1 else 0) sw.

Definition add_task (i : nat) (c : CoroBase) (C : aconf) : aconf :=
  mk_conf (alter (λ thread, thread ++ [c]) i (c_threads C)) (c_obj C) (c_seq C) (c_ids C)
    (c_started C + 1) (c_finished C) (c_switches C).

(** The context switches once the thread [i] goes on. *)
Definition switches_to (i : nat) (C : aconf) : nat :=
  if bool_decide (last (c_ids C) = Some i) then c_switches C else S (c_switches C).

(** The thread [i] goes on with its last task, or starts a new one. *)
Inductive astep (i : nat) (C : aconf) : aconf → Prop :=
| astep_go thread n c c' o' :
    c_threads C !! i = Some thread → length thread = S n → thread !! n = Some c →
    IsReturned c = false → switches_to i C ≤ max_switches cfg →
    plain_step c (c_obj C) c' o' →
    astep i C (run_conf false i n c' o' (switches_to i C) C)
| astep_start thread b c w c' o' :
    c_threads C !! i = Some thread → unfinished thread = None →
    c_started C ≠ max_tasks cfg → length thread < max_depth cfg → b ∈ constructors cfg →
    Build b i (-1) (mk_World (c_obj C) ∅ None None) = Ok (c, w) →
    plain_step c (c_obj C) c' o' →
    astep i C (run_conf true i (length thread) c' o' (c_switches C) (add_task i c C)).

(** An execution that goes on until [max_tasks] tasks have finished. *)
Inductive finishes : aconf → aconf → Prop :=
| finishes_here C : c_finished C = max_tasks cfg → finishes C C
| finishes_step i C C1 D :
    c_finished C ≠ max_tasks cfg → astep i C C1 → finishes C1 D → finishes C D.

Definition accepted (D : aconf) : Prop := mc_Check (view (c_threads D)) (c_seq D) = Ok true.
Definition rejected (D : aconf) : Prop := mc_Check (view (c_threads D)) (c_seq D) = Ok false.

(** ** The enumeration

    The choices of a configuration in the order of the loops over the threads
    and the constructors, and the executions depth first; [fuel] bounds their
    length.  A choice whose slice or generator fails leads nowhere. *)

Definition slice_of (c : CoroBase) (o : TargetObj) : option (CoroBase * TargetObj) :=
  match Resume c (mk_World o ∅ None None) with Ok (c', w') => Some (c', state w') | Fail _ => None end.

Definition start_choice (i n : nat) (C : aconf) (b : TaskBuilder) : option aconf :=
  match Build b i (-1) (mk_World (c_obj C) ∅ None None) with
  | Ok (c, _) =>
      '(c', o') ← slice_of c (c_obj C); Some (run_conf true i n c' o' (c_switches C) (add_task i c C))
  | Fail _ => None
  end.

Definition go_choice (i n : nat) (C : aconf) (c : CoroBase) : option aconf :=
  '(c', o') ← slice_of c (c_obj C); Some (run_conf false i n c' o' (switches_to i C) C).

Definition thread_choices (i : nat) (C : aconf) : list aconf :=
  match c_threads C !! i with
  | None => []
  | Some thread =>
      match unfinished thread with
      | Some c =>
          if max_switches cfg <? switches_to i C then [] else option_list (go_choice i (length thread - 1) C c)
      | None =>
          if negb (c_started C =? max_tasks cfg) && (length thread <? max_depth cfg)
          then omap (start_choice i (length thread) C) (constructors cfg) else []
      end
  end.

Definition choices (C : aconf) : list aconf := seq 0 (length (c_threads C)) ≫= λ i, thread_choices i C.

Fixpoint executions (fuel : nat) (C : aconf) : list aconf :=
  if c_finished C =? max_tasks cfg then [C]
  else match fuel with 0 => [] | S fuel => choices C ≫= executions fuel end.

(** The fuel is enough for every execution from [C]. *)
Fixpoint complete (fuel : nat) (C : aconf) : Prop :=
  c_finished C = max_tasks cfg ∨ match fuel with 0 => False | S fuel => Forall (complete fuel) (choices C) end.

(** ** What a search over the executions [ds] finds

    [n] executions were checked before it and [n'] are after it.  It goes
    through [ds] in order until one is rejected or [max_rounds] are checked. *)
Definition crosses (n n' : nat) : Prop := n < max_rounds cfg ≤ n'.

Definition verdict (ds : list aconf) (r : bool * Result) (n n' : nat) : Prop :=
  match r with
  | (_, Some h) =>
      h.1 = [] ∧ ∃ ds1 D ds2, ds = ds1 ++ D :: ds2 ∧ Forall accepted ds1 ∧ rejected D ∧ h.2 = c_seq D ∧
        ¬ crosses n (n + length ds1)
  | (true, None) =>
      ∃ ds1 ds2, ds = ds1 ++ ds2 ∧ Forall accepted ds1 ∧ n' = n + length ds1 ∧ n < n' ∧ n' = max_rounds cfg
  | (false, None) => Forall accepted ds ∧ n' = n + length ds ∧ ¬ crosses n n'
  end.

Lemma verdict_nil n : verdict [] (false, None) n n.
Proof. split_and!; [constructor|simpl; lia|unfold crosses; lia]. Qed.

(** A search that stopped has not seen what comes behind. *)
Lemma verdict_stop ds ds' r n n' : stops r = true → verdict ds r n n' → verdict (ds ++ ds') r n n'.
Proof.
  intros Hs. destruct r as [[] [h|]]; try done; simpl.
  1, 3: intros (? & ds1 & D & ds2 & -> & ?); split; [done|]; exists ds1, D, (ds2 ++ ds'); by rewrite <-app_assoc.
  intros (ds1 & ds2 & -> & ?). exists ds1, (ds2 ++ ds'). by rewrite <-app_assoc.
Qed.

(** One that did not goes on. *)
Lemma verdict_app ds1 ds2 r1 r n n1 n' :
  stops r1 = false → verdict ds1 r1 n n1 → verdict ds2 r n1 n' → verdict (ds1 ++ ds2) r n n'.
Proof.
  intros Hs. destruct r1 as [[] [h|]]; try done. simpl. intros (Ha & -> & Hc).
  destruct r as [[] [h|]]; simpl; unfold crosses in *.
  1, 3: intros (? & l & D & l' & -> & ? & ? & ? & ?); split; [done|]; exists (ds1 ++ l), D, l';
    rewrite <-app_assoc, Forall_app, length_app; split_and!; auto; lia.
  - intros (l & l' & -> & ? & -> & ? & ?). exists (ds1 ++ l), l'.
    rewrite <-app_assoc, Forall_app, length_app. split_and!; auto; lia.
  - intros (? & -> & ?). rewrite Forall_app, length_app. split_and!; auto; lia.
Qed.

(** ** Configurations and states *)

Record represents (C : aconf) (s : TLAState) : Prop := {
  re_threads : threads s = c_threads C;
  re_obj : state (world s) = c_obj C;
  re_status : coroutine_status (world s) = None;
  re_quiet : quiet_world (world s);
  re_seq : sequential_history s = c_seq C;
  re_ids : thread_id_history s = c_ids C;
  re_started : started_tasks s = c_started C;
  re_finished : finished_tasks s = c_finished C;
}.

(** As [represents], before the replay: the tasks are the right ones, but not
    their states. *)
Record undone (C : aconf) (s : TLAState) : Prop := {
  un_tasks : same_tasks (c_threads C) (threads s);
  un_quiet : quiet_world (world s);
  un_seq : sequential_history s = c_seq C;
  un_ids : thread_id_history s = c_ids C;
  un_started : started_tasks s = c_started C;
  un_finished : finished_tasks s = c_finished C;
}.

Lemma represents_undone C s : represents C s → undone C s.
Proof. intros []. split; try done. rewrite re_threads0. apply same_tasks_refl. Qed.

(** Inside of [RunStep], with its frame on the stack. *)
Definition has_frames (fs : list TFrame) (s : TLAState) : Prop := ∃ f, frames s = fs ++ [f].

Context (Hsafe : replay_safe cfg).

Lemma Replay_represents cancel inner fs C s u s' :
  Replay cancel inner (length fs) s = Ok (u, s') → replayable fs (c_threads C) (c_obj C) →
  has_frames fs s → undone C s → represents C s' ∧ has_frames fs s'.
Proof.
  intros H Hfs [f Hf] [Ht Hq Hseq Hids Hst Hfin].
  destruct (Replay_restores cfg Hsafe _ _ _ _ _ _ _ _ H Hfs) as (Hths & Ho & Hstat & Hq' & Hrest);
    [rewrite Hf; by eexists|done|done|].
  rewrite Hrest. split; [|by exists f]. split; simpl; try done; by destruct Hq'.
Qed.

(** ** The enumeration and the transition system *)

(** The last task of a thread that has not returned. *)
Lemma unfinished_Some thread c :
  unfinished thread = Some c →
  ∃ n, length thread = S n ∧ thread !! n = Some c ∧ IsReturned c = false.
Proof.
  unfold unfinished. rewrite last_lookup. destruct thread as [|x thread]; [done|]. simpl length.
  destruct (_ !! _) as [d|] eqn:E; [|done]. destruct (IsReturned d) eqn:Hr; [done|]. intros [= ->]. eauto.
Qed.

Lemma slice_of_plain c o c' o' : slice_of c o = Some (c', o') ↔ plain_step c o c' o'.
Proof.
  unfold slice_of. split.
  - destruct (Resume _ _) as [[c1 w1]|] eqn:E; [|done]. intros [= <- <-].
    by apply (Resume_plain cfg Hsafe) in E as [E _].
  - intros [st ->]. done.
Qed.

Lemma thread_choices_astep i C C1 : C1 ∈ thread_choices i C ↔ astep i C C1.
Proof.
  unfold thread_choices. split.
  - destruct (c_threads C !! i) as [thread|] eqn:Ht; [|by intros ?%elem_of_nil].
    destruct (unfinished thread) as [c|] eqn:Hun.
    + destruct (Nat.ltb_spec (max_switches cfg) (switches_to i C)) as [|Hsw]; [by intros ?%elem_of_nil|].
      destruct (unfinished_Some _ _ Hun) as (n & Hn & Hc & Hr). rewrite Hn. simpl. rewrite Nat.sub_0_r.
      unfold go_choice. destruct (slice_of c _) as [[c' o']|] eqn:Hs; simpl; [|by intros ?%elem_of_nil].
      apply slice_of_plain in Hs. intros ->%list_elem_of_singleton.
      by eapply astep_go.
    + destruct (_ && _) eqn:E; [|by intros ?%elem_of_nil].
      apply andb_true_iff in E as [E1 E2]. apply negb_true_iff, Nat.eqb_neq in E1. apply Nat.ltb_lt in E2.
      intros (b & Hb & H)%list_elem_of_omap. unfold start_choice in H.
      destruct (Build _ _ _ _) as [[c w]|] eqn:Hbuild; [|done].
      apply bind_Some in H as ([c' o'] & Hs%slice_of_plain & [= <-]). by eapply astep_start.
  - intros [thread n c c' o' Ht Hn Hc Hr Hsw Hp%slice_of_plain|thread b c w c' o' Ht Hidle Hst Hd Hb Hbuild Hp%slice_of_plain];
      rewrite Ht.
    + unfold unfinished. rewrite last_lookup, Hn. simpl. rewrite Hc, Hr, (proj2 (Nat.ltb_ge _ _) Hsw), Nat.sub_0_r.
      unfold go_choice. rewrite Hp. simpl. by left.
    + rewrite Hidle, (proj2 (Nat.eqb_neq _ _) Hst), (proj2 (Nat.ltb_lt _ _) Hd). simpl.
      apply list_elem_of_omap. exists b. split; [done|]. unfold start_choice. by rewrite Hbuild, Hp.
Qed.

Lemma choices_astep C C1 : C1 ∈ choices C ↔ ∃ i, astep i C C1.
Proof.
  unfold choices. rewrite list_elem_of_bind. setoid_rewrite thread_choices_astep. split; [naive_solver|].
  intros [i Hi]. exists i. split; [done|]. apply elem_of_seq. split; [lia|].
  destruct Hi; simpl; by eapply lookup_lt_Some.
Qed.

Lemma executions_finished fuel C : c_finished C = max_tasks cfg → executions fuel C = [C].
Proof. intros H%Nat.eqb_eq. destruct fuel; simpl; by rewrite H. Qed.
Lemma executions_open fuel C : c_finished C ≠ max_tasks cfg → executions (S fuel) C = choices C ≫= executions fuel.
Proof. intros H%Nat.eqb_neq. simpl. by rewrite H. Qed.
Lemma complete_finished fuel C : c_finished C = max_tasks cfg → complete fuel C.
Proof. intros H. destruct fuel; by left. Qed.

Lemma executions_finishes fuel C D : D ∈ executions fuel C → finishes C D.
Proof.
  revert C. induction fuel as [|fuel IH]; intros C; simpl; destruct (Nat.eqb_spec (c_finished C) (max_tasks cfg)) as [Hf|Hf].
  - intros ->%list_elem_of_singleton. by constructor.
  - by intros ?%elem_of_nil.
  - intros ->%list_elem_of_singleton. by constructor.
  - intros (C1 & HD & [i Hi]%choices_astep)%list_elem_of_bind. eapply finishes_step; [done|exact Hi|by apply IH].
Qed.

Lemma complete_executions fuel C D : complete fuel C → finishes C D → D ∈ executions fuel C.
Proof.
  revert C. induction fuel as [|fuel IH]; intros C Hc HD; inversion HD as [? Hf|i ? C1 ? Hf Hi HD1]; subst.
  1, 3: rewrite executions_finished by done; by apply list_elem_of_singleton.
  - by destruct Hc.
  - rewrite executions_open by done. destruct Hc as [|Hc]; [done|]. apply list_elem_of_bind. exists C1.
    assert (C1 ∈ choices C) as Hin by (apply choices_astep; eauto). split; [|done].
    apply IH; [|done]. by eapply Forall_forall in Hc.
Qed.

Lemma UpdateFullHistory_Ok th r is_new s u s' :
  UpdateFullHistory th r is_new s = Ok (u, s') →
  ∃ full v w', s' = with_full full (with_verifier v (with_world w' s)) ∧ state w' = state (world s) ∧
    tokens w' = tokens (world s) ∧ generated_token w' = generated_token (world s) ∧
    coroutine_status w' = None.
Proof.
  unfold UpdateFullHistory. rewrite st_get_bind. intros H.
  destruct (coroutine_status (world s)) as [cs|] eqn:Hcs.
  - apply st_bind_Ok in H as (u1 & s1 & H1 & H).
    assert (∃ full, s1 = with_full full s) as [full ->].
    { destruct is_new; [|injection H1 as _ <-; exists (full_history s); by destruct s].
      apply st_bind_Ok in H1 as (u2 & s2 & [_ ->]%st_assert_Ok & H1). unfold push_full in H1. inv_st H1.
      by eexists. }
    apply st_bind_Ok in H as (v & s2 & [_ ->]%st_lift_Ok & H). unfold push_full in H. inv_st H.
    eexists _, v, _. by split_and!.
  - apply st_bind_Ok in H as (c & s1 & [_ ->]%tla_get_task_Ok & H).
    apply st_bind_Ok in H as (v & s2 & [_ ->]%st_lift_Ok & H). unfold push_full in H. inv_st H.
    exists (full_history s ++ [(th, inl r)]), v, (world s). by split_and!.
Qed.

Lemma vec_pop_back_snoc {A} what (l : list A) x : vec_pop_back what (l ++ [x]) = Ok l.
Proof. unfold vec_pop_back. rewrite removelast_last. by destruct l. Qed.

Lemma vec_pop_back_Ok {A} what (l l' : list A) : vec_pop_back what l = Ok l' → l' = removelast l.
Proof. unfold vec_pop_back. destruct l; [discriminate|]. intros H. by injection H. Qed.

Lemma undo_row_Ok fin is_new s u s' h e1 e2 l i :
  undo_row fin is_new s = Ok (u, s') →
  sequential_history s = h ++ (if is_new then [e1] else []) ++ (if fin then [e2] else []) →
  thread_id_history s = l ++ [i] →
  ∃ full, s' = with_full full (with_ids l (with_seq h (with_counts
    (if is_new then started_tasks s - 1 else started_tasks s)
    (if fin then finished_tasks s - 1 else finished_tasks s) (finished_rounds s) s))).
Proof.
  intros H Hseq Hids. unfold undo_row in H. rewrite st_get_bind, Hids, vec_pop_back_snoc in H.
  apply st_bind_Ok in H as (ids & s1 & [[= <-] ->]%st_lift_Ok & H).
  apply st_bind_Ok in H as (full & s1 & [_ ->]%st_lift_Ok & H). rewrite st_put_bind in H.
  exists full. apply st_bind_Ok in H as (u1 & s1 & H1 & H).
  destruct fin.
  - rewrite st_get_bind in H1. simpl in H1. rewrite Hseq, app_assoc, vec_pop_back_snoc in H1.
    apply st_bind_Ok in H1 as (h1 & s2 & [[= <-] ->]%st_lift_Ok & H1). inv_st H1.
    destruct is_new; [|inv_st H; by rewrite app_nil_r].
    rewrite st_get_bind in H. simpl in H. rewrite vec_pop_back_snoc in H.
    apply st_bind_Ok in H as (h1 & s2 & [[= <-] ->]%st_lift_Ok & H). by inv_st H.
  - inv_st H1. rewrite app_nil_r in Hseq. destruct is_new.
    + rewrite st_get_bind in H. simpl in H. rewrite Hseq, vec_pop_back_snoc in H.
      apply st_bind_Ok in H as (h1 & s2 & [[= <-] ->]%st_lift_Ok & H). by inv_st H.
    + inv_st H. rewrite app_nil_r in Hseq. rewrite <-Hseq. by destruct s.
Qed.

Lemma back_ref_Ok i s r s' :
  back_ref i s = Ok (r, s') →
  ∃ thread n, threads s !! i = Some thread ∧ length thread = S n ∧ r = (i, n) ∧ s' = s.
Proof.
  unfold back_ref. rewrite st_get_bind. intros H.
  apply st_bind_Ok in H as (thread & s1 & [Ht%vec_get_Ok ->]%st_lift_Ok & H).
  destruct (length thread) as [|n] eqn:Hn; [done|]. inv_st H. eauto 10.
Qed.

(** Recording that the task has run. *)
Lemma record_response is_new i n s C fin s' c' o' sw :
  (c ← get_task (i, n);
   if IsReturned c then
     s ← st_get;
     v ← st_lift (OnFinished (GetName c) false i (verifier s));
     result ← st_lift (coro_GetRetVal c);
     _ ← st_modify (λ s, with_seq (sequential_history s ++
           [response (mk_TaskWithMetaData (i, n) is_new i) result])
         (with_verifier v (with_counts (started_tasks s) (finished_tasks s + 1) (finished_rounds s) s)));
     mret true
   else mret false : stM TLAState bool) s = Ok (fin, s') →
  threads s = put_task (i, n) c' (c_threads C) → is_Some (task_in (c_threads C) (i, n)) →
  state (world s) = o' → coroutine_status (world s) = None → quiet_world (world s) →
  sequential_history s = c_seq C ++ (if is_new then [EInvoke (mk_Invoke (i, n) (Z.of_nat i))] else []) →
  thread_id_history s = c_ids C ++ [i] → started_tasks s = c_started C → finished_tasks s = c_finished C →
  fin = IsReturned c' ∧ represents (run_conf is_new i n c' o' sw C) s' ∧ frames s' = frames s.
Proof.
  intros H Hths [d Hd] Ho Hst Hq Hseq Hids Hs Hf.
  apply st_bind_Ok in H as (c & s1 & [Hc ->]%tla_get_task_Ok & H).
  rewrite Hths, (task_in_put_eq _ _ _ _ Hd) in Hc. injection Hc as <-.
  unfold coro_GetRetVal in H. destruct (IsReturned c') eqn:Hr.
  - rewrite st_get_bind in H. apply st_bind_Ok in H as (v & s1 & [_ ->]%st_lift_Ok & H).
    apply st_bind_Ok in H as (res & s1 & [[= <-] ->]%st_lift_Ok & H). inv_st H.
    split_and!; [done| |done]. split; simpl; rewrite ?Hr; try done; [|by rewrite Hf].
    by rewrite Hseq, <-app_assoc.
  - inv_st H. split_and!; [done| |done]. split; simpl; rewrite ?Hr; try done; [|by rewrite Hf, Nat.add_0_r].
    by rewrite Hseq, app_nil_r.
Qed.

Lemma run_task_Ok fs tk i is_new s fin s' C sw :
  run_task (length fs) i is_new s = Ok (fin, s') → represents C s →
  frames s = fs ++ [mk_TFrame tk is_new] →
  ∃ thread n c c' o', c_threads C !! i = Some thread ∧ length thread = S n ∧ thread !! n = Some c ∧
    plain_step c (c_obj C) c' o' ∧ fin = IsReturned c' ∧
    represents (run_conf is_new i n c' o' sw C) s' ∧
    frames s' = fs ++ [mk_TFrame (Some (i, n)) is_new].
Proof.
  intros H HRep Hfr. destruct HRep as [Hths Ho Hst Hq Hseq Hids Hs Hf]. unfold run_task in H.
  apply st_bind_Ok in H as (r & s0 & (thread & n & Ht & Hn & -> & ->)%back_ref_Ok & H).
  unfold set_frame in H. rewrite !st_modify_bind in H.
  apply st_bind_Ok in H as (u1 & s1 & H1 & H).
  match type of H1 with _ ?st = _ => set (s0 := st) in H1 end.
  assert (s1 = with_seq (c_seq C ++ (if is_new then [EInvoke (mk_Invoke (i, n) (Z.of_nat i))] else [])) s0) as ->.
  { destruct is_new; inv_st H1; [by rewrite <-Hseq|]. rewrite app_nil_r, <-Hseq. by destruct s. }
  assert (frames s0 = fs ++ [mk_TFrame (Some (i, n)) is_new]) as Hfr0.
  { subst s0. simpl. by rewrite Hfr, alter_last. }
  apply st_bind_Ok in H as (c0 & s1 & [_ ->]%tla_get_task_Ok & H). rewrite st_get_bind in H.
  apply st_bind_Ok in H as (u2 & s1 & [_ ->]%st_assert_Ok & H).
  apply st_bind_Ok in H as (u3 & s1 & H2 & H).
  apply (resume_task_plain cfg Hsafe) in H2 as (c & c' & Hc & Hp & Hths1 & Hq1 & Hrest1); [|by destruct Hq].
  apply st_bind_Ok in H as (u4 & s2 & H3 & H).
  apply UpdateFullHistory_Ok in H3 as (full & v & w' & -> & Hw1 & Hw2 & Hw3 & Hw4).
  simpl in Hc, Hp, Hths1. rewrite Hths in Hc, Hths1, Ht. rewrite Ho in Hp.
  apply record_response with (C := C) (c' := c') (o' := state (world s1)) (sw := sw) in H as (-> & Hrep & Hfr2);
    simpl; try done; try (rewrite Hrest1; done).
  - exists thread, n, c, c', (state (world s1)). split_and!; try done.
    + apply task_in_Some in Hc as (t & ? & ?). congruence.
    + rewrite Hfr2. simpl. rewrite Hrest1. exact Hfr0.
  - unfold quiet_world. rewrite Hw2, Hw3. done.
  - rewrite Hrest1. subst s0. simpl. by rewrite Hids.
Qed.

(** What a search from [C] that has [fuel] left does. *)
Definition rec_ok (rec : nat → nat → stM TLAState (bool * Result)) (fuel : nat) : Prop :=
  ∀ C s r s', rec (length (frames s)) (c_switches C) s = Ok (r, s') → represents C s →
    replayable (frames s) (c_threads C) (c_obj C) → c_finished C ≠ max_tasks cfg →
    verdict (executions fuel C) r (finished_rounds s) (finished_rounds s') ∧
    (stops r = false → represents C s' ∧ frames s' = frames s ∧ complete fuel C).

Lemma print_full_log_Ok s u s' : print_full_log s = Ok (u, s') → ∃ text, s' = with_printed text s.
Proof.
  unfold print_full_log. rewrite st_get_bind. intros H. apply st_bind_Ok in H as ([x out] & s1 & [_ ->]%st_lift_Ok & H).
  inv_st H. by eexists.
Qed.

Lemma represents_printed C text s : represents C s → represents C (with_printed text s).
Proof. by intros []. Qed.

Lemma finish_round_Ok fuel C s r s' :
  finish_round cfg s = Ok (r, s') → represents C s → c_finished C = max_tasks cfg →
  verdict (executions fuel C) r (finished_rounds s) (finished_rounds s') ∧
  (stops r = false → represents C s' ∧ frames s' = frames s ∧ complete fuel C).
Proof.
  intros H HRep Hfin. unfold finish_round in H.
  apply st_bind_Ok in H as (u & s0 & [text ->]%print_full_log_Ok & H).
  apply (represents_printed _ text) in HRep as [Hths Ho Hst Hq Hseq Hids Hs Hf].
  rewrite st_modify_bind, st_get_bind in H.
  apply st_bind_Ok in H as (ok & s1 & [Hok ->]%st_lift_Ok & H). simpl in *. rewrite Hths, Hseq in Hok.
  rewrite (executions_finished _ _ Hfin).
  destruct ok; simpl in H.
  - destruct (finished_rounds s + 1 =? max_rounds cfg) eqn:Hmax; inv_st H; simpl.
    + apply Nat.eqb_eq in Hmax. split; [|intros [=]]. exists [C], []. simpl. split_and!; [done|by constructor|lia..].
    + apply Nat.eqb_neq in Hmax. split; [split_and!; [by constructor|done|unfold crosses; lia]|].
      intros _. split_and!; [by split|done|by apply complete_finished].
  - inv_st H. split; [|intros [=]]. split; [done|]. exists [], C, []. split_and!; [done|constructor|done|by rewrite <-Hseq|].
    unfold crosses. simpl. lia.
Qed.

(** Resuming the task chosen and everything behind it. *)
Lemma ResumeTask_run rec fuel fs tk i is_new s r s' C :
  rec_ok rec fuel →
  ResumeTask cfg rec (length fs) (length fs) (c_switches C) i is_new s = Ok (r, s') →
  represents C s → frames s = fs ++ [mk_TFrame tk is_new] →
  (is_new = false → switches_to i C ≤ max_switches cfg) →
  (∀ thread n c c' o', c_threads C !! i = Some thread → length thread = S n → thread !! n = Some c →
     plain_step c (c_obj C) c' o' →
     replayable (fs ++ [mk_TFrame (Some (i, n)) is_new]) (put_task (i, n) c' (c_threads C)) o') →
  ∃ thread n c c' o', c_threads C !! i = Some thread ∧ length thread = S n ∧ thread !! n = Some c ∧
    plain_step c (c_obj C) c' o' ∧
    let C1 := run_conf is_new i n c' o' (if is_new then c_switches C else switches_to i C) C in
    verdict (executions fuel C1) r (finished_rounds s) (finished_rounds s') ∧
    (stops r = false → has_frames fs s' ∧
       undone (mk_conf (c_threads C) (c_obj C) (c_seq C) (c_ids C)
         (if is_new then c_started C - 1 else c_started C) (c_finished C) (c_switches C)) s' ∧ complete fuel C1).
Proof.
  intros Hrec H HRep Hfr Hsw Hreplay. unfold ResumeTask in H. rewrite st_get_bind in H. cbv zeta in H.
  assert (next_switches s (c_switches C) i is_new = if is_new then c_switches C else switches_to i C) as Enx.
  { unfold next_switches, switches_to. by rewrite (re_ids _ _ HRep). }
  rewrite Enx in H. set (sw := if is_new then c_switches C else switches_to i C) in *.
  assert (negb is_new && (max_switches cfg <? sw) = false) as E.
  { destruct is_new; [done|]. apply Nat.ltb_ge. by apply Hsw. }
  rewrite E in H. apply st_bind_Ok in H as (fin & s1 & Hrun & H).
  pose proof (run_task_rounds _ _ _ _ _ _ _ eq_refl Hrun) as Hn1.
  destruct (run_task_Ok _ _ _ _ _ _ _ _ sw Hrun HRep Hfr)
    as (thread & n & c & c' & o' & Ht & Hn & Hc & Hp & -> & HC1 & Hfr1).
  exists thread, n, c, c', o'. split_and!; [done..|]. intros C1. fold C1 in HC1.
  rewrite st_get_bind in H. apply st_bind_Ok in H as (r1 & s2 & H1 & H).
  assert (verdict (executions fuel C1) r1 (finished_rounds s1) (finished_rounds s2) ∧
    (stops r1 = false → represents C1 s2 ∧ frames s2 = frames s1 ∧ complete fuel C1)) as [Hv Hgo].
  { rewrite (re_finished _ _ HC1) in H1.
    destruct (c_finished C1 =? max_tasks cfg) eqn:Hmax.
    - apply Nat.eqb_eq in Hmax. by eapply finish_round_Ok.
    - apply Nat.eqb_neq in Hmax. apply (Hrec C1); [|done| |done].
      + rewrite Hfr1, length_app. exact H1.
      + rewrite Hfr1. by apply (Hreplay thread n c). }
  destruct (stops r1) eqn:Hs.
  { inv_st H. rewrite Hs, <-Hn1. done. }
  apply st_bind_Ok in H as (u & s3 & H2 & H). inv_st H. destruct (Hgo eq_refl) as (HC2 & Hfr2 & Hcomp).
  pose proof (undo_row_rounds _ _ _ _ _ _ eq_refl H2) as Hn3.
  split; [rewrite Hn3, <-Hn1; by destruct r1 as [[] [|]]|]. intros _.
  eapply undo_row_Ok in H2 as [full ->]; [|exact (re_seq _ _ HC2)|exact (re_ids _ _ HC2)].
  split; [exists (mk_TFrame (Some (i, n)) is_new); simpl; by rewrite Hfr2|]. split; [|exact Hcomp].
  destruct HC2 as [Hths2 _ _ Hq2 _ _ Hs2 Hf2]. split; simpl; try done.
  - rewrite Hths2. simpl. eapply same_tasks_put; [apply task_in_Some; eauto|]. by apply plain_step_same in Hp as [? _].
  - by rewrite Hs2.
  - rewrite Hf2. simpl. destruct (IsReturned c'); lia.
Qed.

(** ** The choices of a row *)

Lemma represents_world C s : represents C s → world s = mk_World (c_obj C) ∅ None None.
Proof. intros [_ Ho Hst [Hts Hg] _ _ _ _]. destruct (world s). simpl in *. by subst. Qed.

Lemma Build_plain b i id w c w' :
  b ∈ constructors cfg → Build b i id w = Ok (c, w') → generated_token w = None →
  w' = w ∧ ∃ args, c = New (tb_name b) args id.
Proof.
  intros Hb H Hg. unfold Build in H. apply bind_Ok in H as ([a w1] & H1 & H).
  apply (rs_gen _ Hsafe) in H1 as ->; [|done]. rewrite Hg in H. simplify_eq. split; [done|by eexists].
Qed.

Lemma put_new i thread (c c' : CoroBase) ths :
  ths !! i = Some thread →
  put_task (i, length thread) c' (alter (λ t, t ++ [c]) i ths) = <[i := thread ++ [c']]> ths.
Proof.
  intros Ht. unfold put_task. simpl. apply list_eq. intros j. destruct (decide (j = i)) as [->|Hne].
  - rewrite list_lookup_alter_eq, list_lookup_alter_eq, Ht. simpl.
    rewrite list_lookup_insert_eq by (by eapply lookup_lt_Some).
    rewrite insert_app_r_alt by lia. by rewrite Nat.sub_diag.
  - by rewrite !list_lookup_alter_ne, list_lookup_insert_ne by done.
Qed.

Lemma shape_added i thread (c : CoroBase) ths ths' tasks :
  ths !! i = Some thread → shape (alter (λ t, t ++ [c]) i ths) = shape ths' → ths' !! i = Some tasks →
  length tasks = S (length thread).
Proof.
  intros Ht Hs Ht'. apply (f_equal (λ l, l !! i)) in Hs. unfold shape in Hs.
  rewrite !list_lookup_fmap, list_lookup_alter_eq, Ht, Ht' in Hs. simpl in Hs. injection Hs as <-.
  rewrite length_app. simpl. lia.
Qed.

Lemma same_tasks_drop i thread (c : CoroBase) ths ths' tasks :
  ths !! i = Some thread → same_tasks (alter (λ t, t ++ [c]) i ths) ths' → ths' !! i = Some tasks →
  same_tasks ths (<[i := removelast tasks]> ths').
Proof.
  intros Ht [Hs H] Ht'.
  pose proof (shape_added _ _ _ _ _ _ Ht Hs Ht') as Hlen.
  destruct tasks as [|x tasks _] using rev_ind; [done|]. rewrite removelast_last.
  rewrite length_app in Hlen. simpl in Hlen. split.
  - apply list_eq. intros j. unfold shape in *. apply (f_equal (λ l, l !! j)) in Hs.
    rewrite !list_lookup_fmap in *. destruct (decide (j = i)) as [->|Hne].
    + rewrite Ht, list_lookup_insert_eq by (by eapply lookup_lt_Some). simpl. f_equal. lia.
    + rewrite list_lookup_insert_ne by done. by rewrite list_lookup_alter_ne in Hs.
  - intros [th j] d (t & Hth & Hj)%task_in_Some. destruct (decide (i = th)) as [<-|Hne].
    + assert (t = thread) as -> by congruence. assert (j < length thread) by (by eapply lookup_lt_Some).
      destruct (H (i, j) d) as (d' & Hd' & ?).
      { apply task_in_Some. rewrite list_lookup_alter_eq, Ht. eexists. split; [done|]. by apply lookup_app_l_Some. }
      exists d'. split; [|done]. apply task_in_Some in Hd' as (t' & ? & Hd'). simplify_eq.
      rewrite lookup_app_l in Hd' by lia. apply task_in_Some. exists tasks. split; [|done].
      apply list_lookup_insert_eq. by eapply lookup_lt_Some.
    + destruct (H (th, j) d) as (d' & Hd' & ?).
      { apply task_in_Some. rewrite list_lookup_alter_ne by done. eauto. }
      exists d'. split; [|done]. apply task_in_Some in Hd' as (t' & ? & Hd').
      apply task_in_Some. rewrite list_lookup_insert_ne by done. eauto.
Qed.

Lemma st_verify_Ok n is_new i s ok s' :
  st_verify n is_new i s = Ok (ok, s') → ok = true ∧ ∃ v, s' = with_verifier v s.
Proof.
  unfold st_verify. rewrite st_get_bind. intros H.
  apply st_bind_Ok in H as ([ok' v] & s1 & [Hv%(rs_verify _ Hsafe) ->]%st_lift_Ok & H). inv_st H. eauto.
Qed.

Lemma represents_verifier C v s : represents C s → represents C (with_verifier v s).
Proof. by intros []. Qed.
Lemma represents_frames C fs s : represents C s → represents C (with_frames fs s).
Proof. by intros []. Qed.

Lemma create_task_Ok b i s u s' C thread :
  create_task b i s = Ok (u, s') → represents C s → b ∈ constructors cfg → c_threads C !! i = Some thread →
  ∃ c args, Build b i (-1) (mk_World (c_obj C) ∅ None None) = Ok (c, mk_World (c_obj C) ∅ None None) ∧
    c = New (tb_name b) args (-1) ∧ represents (add_task i c C) s' ∧ frames s' = frames s.
Proof.
  unfold create_task. rewrite st_get_bind. intros H HRep Hb Ht. rewrite (represents_world _ _ HRep) in H.
  apply st_bind_Ok in H as ([c w] & s1 & [Hbuild ->]%st_lift_Ok & H). inv_st H.
  destruct (Build_plain _ _ _ _ _ _ Hb Hbuild) as [-> [args ->]]; [done|].
  eexists _, args. split_and!; try done. destruct HRep as [Hths Ho Hst Hq Hseq Hids Hs Hf].
  split; simpl; try done; congruence.
Qed.

Lemma drop_task_Ok i s u s' C c thread :
  drop_task i s = Ok (u, s') → c_threads C !! i = Some thread →
  undone (mk_conf (c_threads (add_task i c C)) (c_obj C) (c_seq C) (c_ids C) (c_started C) (c_finished C)
    (c_switches C)) s →
  undone C s' ∧ frames s' = frames s.
Proof.
  unfold drop_task. rewrite st_get_bind. intros H Ht [Hst Hq Hseq Hids Hs Hf].
  apply st_bind_Ok in H as (tasks & s1 & [Ht'%vec_get_Ok ->]%st_lift_Ok & H).
  apply st_bind_Ok in H as (tasks' & s1 & [Hpop ->]%st_lift_Ok & H). inv_st H.
  apply vec_pop_back_Ok in Hpop as ->.
  split; [|done]. split; try done. by apply (same_tasks_drop i thread c (c_threads C) (threads s) tasks).
Qed.

(** The last task of a thread to which one was added. *)
Lemma added_task C i thread c thread' n c0 :
  c_threads C !! i = Some thread → c_threads (add_task i c C) !! i = Some thread' →
  length thread' = S n → thread' !! n = Some c0 → n = length thread ∧ c0 = c.
Proof.
  intros Ht Ht' Hn Hc. simpl in Ht'. rewrite list_lookup_alter_eq, Ht in Ht'. injection Ht' as <-.
  rewrite length_app in Hn. simpl in Hn. assert (n = length thread) as -> by lia.
  rewrite lookup_app_r, Nat.sub_diag in Hc by lia. by injection Hc as <-.
Qed.

Section rows.
Context (cancel : TargetObj → TargetObj) (inner : nat) (rec : nat → nat → stM TLAState (bool * Result)).
Context (fuel : nat) (Hrec : rec_ok rec fuel) (C : aconf) (fs : list TFrame).
Context (Hfs : replayable fs (c_threads C) (c_obj C)) (Hopen : c_finished C ≠ max_tasks cfg).

(** Before and after each choice of the row. *)
Definition at_row (s : TLAState) : Prop := represents C s ∧ has_frames fs s.

Lemma at_row_set_frame (s s' : TLAState) (u : unit) b :
  at_row s → set_frame (length fs) (λ f, mk_TFrame (frame_task f) b) s = Ok (u, s') →
  represents C s' ∧ ∃ tk, frames s' = fs ++ [mk_TFrame tk b].
Proof.
  intros [HRep [f Hf]] H. unfold set_frame in H. inv_st H. split; [by apply represents_frames|].
  exists (frame_task f). simpl. by rewrite Hf, alter_last.
Qed.

Lemma at_row_Replay (s s' : TLAState) (u : unit) :
  Replay cancel inner (length fs) s = Ok (u, s') → has_frames fs s → undone C s → at_row s'.
Proof. intros H Hf Hu. by eapply Replay_represents. Qed.

Lemma thread_size_Ok i s n s' : thread_size i s = Ok (n, s') → s' = s.
Proof.
  unfold thread_size. rewrite st_get_bind. intros H.
  apply st_bind_Ok in H as (tasks & s1 & [_ ->]%st_lift_Ok & H). by inv_st H.
Qed.

(** Searching through the choices [Cs] of the row, from [s] to [s']. *)
Definition explores (Cs : list aconf) (r : bool * Result) (s s' : TLAState) : Prop :=
  verdict (Cs ≫= executions fuel) r (finished_rounds s) (finished_rounds s') ∧
  (stops r = false → at_row s' ∧ Forall (complete fuel) Cs).

Lemma explores_nil s : at_row s → explores [] (false, None) s s.
Proof. intros Hrow. split; [apply verdict_nil|]. intros _. split; [done|constructor]. Qed.

Lemma explores_stop Cs Cs' r s s' : stops r = true → explores Cs r s s' → explores (Cs ++ Cs') r s s'.
Proof.
  intros Hs [Hv _]. split; [|congruence]. rewrite bind_app. by apply verdict_stop.
Qed.

Lemma explores_app Cs1 Cs2 r1 r s s1 s' :
  explores Cs1 r1 s s1 → stops r1 = false → explores Cs2 r s1 s' → explores (Cs1 ++ Cs2) r s s'.
Proof.
  intros [Hv1 Hgo1] Hs [Hv2 Hgo2]. split.
  - rewrite bind_app. by eapply verdict_app.
  - intros Hs'. destruct (Hgo1 Hs), (Hgo2 Hs'). split; [done|]. by apply Forall_app.
Qed.

Lemma replayable_added i thread b args c' o' :
  c_threads C !! i = Some thread → plain_step (New (tb_name b) args (-1)) (c_obj C) c' o' →
  replayable (fs ++ [mk_TFrame (Some (i, length thread)) true])
    (put_task (i, length thread) c' (c_threads (add_task i (New (tb_name b) args (-1)) C))) o'.
Proof.
  intros Ht Hp. simpl. rewrite (put_new i thread) by done. eapply replayable_start; [exact Hfs|done|exact Hp].
Qed.

Lemma try_constructor_Ok i thread b s r s' :
  try_constructor cfg cancel inner rec (length fs) (length fs) (c_switches C) i b s = Ok (r, s') →
  at_row s → c_threads C !! i = Some thread → unfinished thread = None →
  c_started C ≠ max_tasks cfg → length thread < max_depth cfg → b ∈ constructors cfg →
  explores (option_list (start_choice i (length thread) C b)) r s s'.
Proof.
  intros H Hrow Ht Hidle Hst Hdepth Hb. unfold try_constructor in H.
  apply st_bind_Ok in H as (ok & s1 & [-> [v ->]]%st_verify_Ok & H). cbn [negb] in H.
  apply st_bind_Ok in H as (u1 & s2 & Hsf & H).
  pose proof (set_frame_rounds _ _ _ _ _ _ eq_refl Hsf) as Hr2. simpl in Hr2.
  eapply at_row_set_frame in Hsf as [HRep2 [tk Hfr2]];
    [|destruct Hrow as [? Hf]; split; [by apply represents_verifier|exact Hf]].
  apply st_bind_Ok in H as (n & s3 & ->%thread_size_Ok & H).
  apply st_bind_Ok in H as (u2 & s3 & Hcreate & H).
  pose proof (create_task_rounds _ _ _ _ _ _ eq_refl Hcreate) as Hr3.
  eapply create_task_Ok in Hcreate as (c & args & Hbuild & Hc & HRep3 & Hfr3); [|done..].
  rewrite <-Hfr3 in Hfr2. apply st_bind_Ok in H as (r1 & s4 & Hresume & H).
  change (c_switches C) with (c_switches (add_task i c C)) in Hresume.
  eapply ResumeTask_run in Hresume as (thread' & n' & c0 & c' & o' & Ht' & Hn' & Hc0 & Hp & Hv & Hundone);
    [|done|done|done|done|].
  2:{ intros thread' n' c0 c' o' Ht' Hn' Hc0 Hp. destruct (added_task _ _ _ _ _ _ _ Ht Ht' Hn' Hc0) as [-> ->].
      subst c. by apply replayable_added. }
  destruct (added_task _ _ _ _ _ _ _ Ht Ht' Hn' Hc0) as [-> ->].
  set (C1 := run_conf true i (length thread) c' o' (c_switches (add_task i c C)) (add_task i c C)) in *.
  assert (start_choice i (length thread) C b = Some C1) as ->.
  { unfold start_choice. rewrite Hbuild. by rewrite (proj2 (slice_of_plain c (c_obj C) c' o') Hp). }
  cbv zeta in Hv. fold C1 in Hv. rewrite Hr3, Hr2 in Hv. unfold explores.
  change (option_list (Some C1) ≫= executions fuel) with (executions fuel C1 ++ []). rewrite app_nil_r.
  destruct (stops r1) eqn:Hs; [inv_st H; split; [done|congruence]|].
  destruct (Hundone eq_refl) as (Hhf & Hun & Hcomp). apply st_bind_Ok in H as (u3 & s5 & Hdrop & H).
  pose proof (drop_task_rounds _ _ _ _ _ eq_refl Hdrop) as Hr5.
  simpl in Hun. rewrite Nat.add_sub in Hun.
  eapply drop_task_Ok in Hdrop as [Hun5 Hfr5]; [|exact Ht|exact Hun].
  apply st_bind_Ok in H as (n2 & s6 & ->%thread_size_Ok & H).
  apply st_bind_Ok in H as (u4 & s6 & [_ ->]%st_assert_Ok & H).
  apply st_bind_Ok in H as (u5 & s6 & Hrep & H). inv_st H.
  pose proof (Replay_rounds _ _ _ _ _ _ _ eq_refl Hrep) as Hr6. rewrite Hr6, Hr5.
  split; [by destruct r1 as [[] [|]]|]. intros _. split; [|by constructor].
  apply at_row_Replay in Hrep; [done|destruct Hhf as [f Hf]; exists f; congruence|done].
Qed.

Lemma try_constructors_Ok i thread cs s r s' :
  try_constructors cfg cancel inner rec (length fs) (length fs) (c_switches C) i cs s = Ok (r, s') →
  at_row s → c_threads C !! i = Some thread → unfinished thread = None →
  c_started C ≠ max_tasks cfg → length thread < max_depth cfg → cs ⊆ constructors cfg →
  explores (omap (start_choice i (length thread) C) cs) r s s'.
Proof.
  intros H Hrow Ht Hidle Hst Hdepth Hsub. revert s H Hrow.
  induction cs as [|b cs IH]; intros s H Hrow; cbn [try_constructors] in H; [inv_st H; by apply explores_nil|].
  apply st_bind_Ok in H as (r1 & s1 & H1 & H).
  pose proof (try_constructor_Ok _ _ _ _ _ _ H1 Hrow Ht Hidle Hst Hdepth ltac:(set_solver)) as Hex.
  assert (omap (start_choice i (length thread) C) (b :: cs) =
    option_list (start_choice i (length thread) C b) ++ omap (start_choice i (length thread) C) cs) as ->
    by (simpl; by destruct (start_choice i (length thread) C b)).
  destruct (stops r1) eqn:Hs; [inv_st H; by apply explores_stop|].
  eapply explores_app; [exact Hex|done|]. apply IH; [set_solver|done|]. by apply Hex.
Qed.

(** The choices of a thread with an unfinished task, and of an idle one. *)
Lemma thread_choices_unfinished i thread n c :
  c_threads C !! i = Some thread → length thread = S n → thread !! n = Some c → IsReturned c = false →
  thread_choices i C = if max_switches cfg <? switches_to i C then [] else option_list (go_choice i n C c).
Proof.
  intros Ht Hn Hc Hr. unfold thread_choices, unfinished. rewrite Ht, last_lookup, Hn. simpl. rewrite Hc, Hr.
  by rewrite Nat.sub_0_r.
Qed.

Lemma continue_task_Ok i thread n c s r s' :
  continue_task cfg cancel inner rec (length fs) (length fs) (c_switches C) i (GetName c) s = Ok (r, s') →
  at_row s → c_threads C !! i = Some thread → length thread = S n → thread !! n = Some c →
  IsReturned c = false → explores (thread_choices i C) r s s'.
Proof.
  intros H Hrow Ht Hn Hc Hr. rewrite (thread_choices_unfinished i thread n c) by done. unfold continue_task in H.
  apply st_bind_Ok in H as (ok & s1 & [-> [v ->]]%st_verify_Ok & H). cbn [negb] in H.
  apply st_bind_Ok in H as (u1 & s2 & Hsf & H).
  pose proof (set_frame_rounds _ _ _ _ _ _ eq_refl Hsf) as Hfr2r.
  eapply at_row_set_frame in Hsf as [HRep2 [tk Hfr2]];
    [|destruct Hrow as [? Hf]; split; [by apply represents_verifier|exact Hf]].
  apply st_bind_Ok in H as (r1 & s3 & Hresume & H).
  destruct (Nat.ltb_spec (max_switches cfg) (switches_to i C)) as [Hsw|Hsw].
  - unfold ResumeTask in Hresume. rewrite st_get_bind in Hresume. cbv zeta in Hresume.
    unfold next_switches in Hresume. rewrite (re_ids _ _ HRep2) in Hresume.
    fold (switches_to i C) in Hresume. rewrite (proj2 (Nat.ltb_lt _ _) Hsw) in Hresume.
    simpl in Hresume. inv_st Hresume. simpl in H. apply st_bind_Ok in H as (u2 & s4 & Hrep & H). inv_st H.
    pose proof (Replay_rounds _ _ _ _ _ _ _ eq_refl Hrep) as Hr'. simpl in Hfr2r.
    split; [rewrite Hr', Hfr2r; apply verdict_nil|]. intros _. split; [|constructor].
    eapply at_row_Replay; [exact Hrep|by eexists|by apply represents_undone].
  - eapply ResumeTask_run in Hresume as (thread' & n' & c0 & c' & o' & Ht' & Hn' & Hc0 & Hp & Hv & Hundone);
      [|done|done|done|done|].
    2:{ intros thread' n' c0 c' o' Ht' Hn' Hc0 Hp. eapply replayable_go; [exact Hfs| |exact Hp].
        apply task_in_Some. eauto. }
    assert (thread' = thread) as -> by congruence. assert (n' = n) as -> by congruence.
    assert (c0 = c) as -> by congruence. simpl in Hv, Hfr2r. rewrite Hfr2r in Hv.
    apply slice_of_plain in Hp.
    set (C1 := run_conf false i n c' o' (switches_to i C) C) in *.
    assert (go_choice i n C c = Some C1) as -> by (unfold go_choice; by rewrite Hp). unfold explores.
    change (option_list (Some C1) ≫= executions fuel) with (executions fuel C1 ++ []). rewrite app_nil_r.
    destruct (stops r1) eqn:Hs; [inv_st H; split; [done|congruence]|].
    destruct (Hundone eq_refl) as (Hhf & Hu & Hcomp). apply st_bind_Ok in H as (u2 & s4 & Hrep & H). inv_st H.
    pose proof (Replay_rounds _ _ _ _ _ _ _ eq_refl Hrep) as Hr'.
    split; [rewrite Hr'; by destruct r1 as [[] [|]]|]. intros _. split; [|by constructor].
    eapply at_row_Replay; [exact Hrep|done|by destruct Hu].
Qed.

(** The thread [i]. *)
Lemma try_thread_Ok i thread ap s r ap' s' :
  try_thread cfg cancel inner rec (length fs) (length fs) (c_switches C) i ap s = Ok ((r, ap'), s') →
  at_row s → c_threads C !! i = Some thread → explores (thread_choices i C) r s s'.
Proof.
  intros H Hrow Ht. unfold try_thread in H. rewrite st_get_bind in H.
  apply st_bind_Ok in H as (tasks & s1 & [Ht'%vec_get_Ok ->]%st_lift_Ok & H).
  rewrite (re_threads _ _ (proj1 Hrow)), Ht in Ht'. injection Ht' as <-.
  destruct (unfinished thread) as [c|] eqn:Hun.
  - destruct (unfinished_Some _ _ Hun) as (n & Hn & Hc & Hr).
    assert (IsParked c (world s) = false) as Hpk.
    { unfold IsParked. rewrite (replayable_token _ _ _ (i, n) c Hfs); [done|]. apply task_in_Some. eauto. }
    rewrite Hpk in H. apply st_bind_Ok in H as (r1 & s1 & H1 & H). inv_st H. by eapply continue_task_Ok.
  - rewrite (re_started _ _ (proj1 Hrow)) in H. unfold thread_choices. rewrite Ht, Hun.
    destruct (negb (c_started C =? max_tasks cfg) && (length thread <? max_depth cfg)) eqn:E.
    + apply andb_true_iff in E as [E1 E2]. apply negb_true_iff, Nat.eqb_neq in E1. apply Nat.ltb_lt in E2.
      apply st_bind_Ok in H as (r1 & s1 & H1 & H). inv_st H.
      exact (try_constructors_Ok _ _ _ _ _ _ H1 Hrow Ht Hun E1 E2 (reflexivity _)).
    + inv_st H. by apply explores_nil.
Qed.

Lemma try_threads_Ok ids ap s r ap' s' :
  try_threads cfg cancel inner rec (length fs) (length fs) (c_switches C) ids ap s = Ok ((r, ap'), s') →
  at_row s → Forall (λ i, is_Some (c_threads C !! i)) ids → explores (ids ≫= λ i, thread_choices i C) r s s'.
Proof.
  intros H Hrow Hids. revert ap s H Hrow. induction Hids as [|i ids [thread Ht] _ IH]; intros ap s H Hrow;
    cbn [try_threads] in H.
  { inv_st H. by apply explores_nil. }
  apply st_bind_Ok in H as ([r1 ap1] & s1 & H1 & H).
  pose proof (try_thread_Ok _ _ _ _ _ _ _ H1 Hrow Ht) as Hex. cbn [mbind list_bind].
  destruct (stops r1) eqn:Hs; [inv_st H; by apply explores_stop|].
  eapply explores_app; [exact Hex|done|]. eapply IH; [exact H|]. by apply Hex.
Qed.
End rows.

Lemma RunStep_ok cancel inner fuel : rec_ok (RunStep cfg cancel inner fuel) fuel.
Proof.
  induction fuel as [|fuel IH]; intros C s r s' H HRep Hfs Hopen; cbn [RunStep] in H; [done|].
  rewrite st_get_bind in H. cbv zeta in H. rewrite st_put_bind in H.
  apply st_bind_Ok in H as ([r1 ap] & s1 & H1 & H).
  assert (at_row C (frames s) (with_frames (frames s ++ [mk_TFrame None false]) s)) as Hrow.
  { split; [by apply represents_frames|by eexists]. }
  destruct (try_threads_Ok cancel inner _ _ IH C (frames s) Hfs Hopen _ _ _ _ _ _ H1 Hrow) as [Hv Hgo].
  { simpl. rewrite (re_threads _ _ HRep). apply Forall_forall. intros i Hi%elem_of_seq.
    apply lookup_lt_is_Some. lia. }
  simpl in Hv, Hgo. rewrite (re_threads _ _ HRep) in Hv, Hgo. rewrite (executions_open _ _ Hopen).
  destruct (stops r1) eqn:Hs; [inv_st H; split; [done|congruence]|].
  destruct (Hgo eq_refl) as [[HRep1 [f Hf]] Hall].
  apply st_bind_Ok in H as (u & s2 & [_ ->]%st_assert_Ok & H). rewrite st_get_bind, Hf, vec_pop_back_snoc in H.
  apply st_bind_Ok in H as (fs' & s2 & [[= <-] ->]%st_lift_Ok & H). inv_st H. simpl in *. split.
  - by destruct r1 as [[] [|]].
  - intros _. split_and!; [by apply represents_frames|done|by right].
Qed.

Lemma represents_init threads_count : represents (conf_init threads_count) (init threads_count).
Proof. by split. Qed.

(** The executions that may be checked: the first [max_rounds], or all if that
    is zero. *)
Definition within_rounds (ds : list aconf) : list aconf :=
  if max_rounds cfg =? 0 then ds else take (max_rounds cfg) ds.

(** [Run], as a search over the executions. *)
Lemma Run_verdict cancel inner fuel threads_count r s' :
  Run cfg cancel inner fuel (init threads_count) = Ok (r, s') → max_tasks cfg ≠ 0 →
  ∃ b, verdict (executions fuel (conf_init threads_count)) (b, r) 0 (finished_rounds s') ∧
    (r = None → finished_rounds s' = max_rounds cfg ∨
      within_rounds (executions fuel (conf_init threads_count)) = executions fuel (conf_init threads_count) ∧
      ∀ D, finishes (conf_init threads_count) D ↔ D ∈ executions fuel (conf_init threads_count)).
Proof.
  intros H Hmax. unfold Run in H. apply st_bind_Ok in H as (r1 & s1 & H1 & H). inv_st H.
  destruct (RunStep_ok cancel inner fuel (conf_init threads_count) (init threads_count) r1 s' H1) as [Hv Hgo];
    [apply represents_init|constructor|done|].
  exists r1.1. split; [destruct r1; exact Hv|]. intros Hr.
  destruct r1 as [[] [h|]]; try done; [left; by destruct Hv as (ds1 & ds2 & _ & _ & _ & _ & ?)|].
  right. destruct (Hgo eq_refl) as (_ & _ & Hc). split.
  - unfold within_rounds. destruct Hv as (_ & Hn & Hcr). unfold crosses in Hcr. cbn in Hn, Hcr.
    destruct (Nat.eqb_spec (max_rounds cfg) 0); [done|]. apply take_ge. lia.
  - intros D. split; [by apply complete_executions|apply executions_finishes].
Qed.

(** The reference: the first of the executions that is rejected, as a result. *)
Definition rejectedb (D : aconf) : bool :=
  match mc_Check (view (c_threads D)) (c_seq D) with Ok ok => negb ok | Fail _ => false end.

Fixpoint first_rejected (ds : list aconf) : Result :=
  match ds with [] => None | D :: ds => if rejectedb D then Some ([], c_seq D) else first_rejected ds end.

Lemma accepted_rejectedb D : accepted D → rejectedb D = false.
Proof. unfold accepted, rejectedb. by intros ->. Qed.
Lemma rejected_rejectedb D : rejected D → rejectedb D = true.
Proof. unfold rejected, rejectedb. by intros ->. Qed.

Lemma first_rejected_app ds ds' : Forall accepted ds → first_rejected (ds ++ ds') = first_rejected ds'.
Proof. induction 1 as [|D ds HD _ IH]; simpl; [done|]. by rewrite (accepted_rejectedb D HD). Qed.

(** What the verdict of a search from the start says about these. *)
Lemma verdict_first ds r n' : verdict ds r 0 n' →
  r.2 = first_rejected (within_rounds ds) ∧
  (r.2 = None → Forall accepted (within_rounds ds) ∧ n' = length (within_rounds ds)) ∧
  ∀ ds1 D ds2, within_rounds ds = ds1 ++ D :: ds2 → rejectedb D = true → Forall (λ D, rejectedb D = false) ds1 →
    Forall accepted ds1.
Proof.
  unfold within_rounds. destruct r as [b [h|]]; simpl.
  - intros Hv. assert (h.1 = [] ∧ ∃ ds1 D ds2, ds = ds1 ++ D :: ds2 ∧ Forall accepted ds1 ∧ rejected D ∧ h.2 = c_seq D ∧
      ¬ crosses 0 (0 + length ds1)) as (Hh & l & D & l' & -> & Ha & Hrej & Hseq & Hc) by (by destruct b). clear Hv.
    assert (∃ l'', (if max_rounds cfg =? 0 then l ++ D :: l' else take (max_rounds cfg) (l ++ D :: l')) = l ++ D :: l'')
      as [l'' ->].
    { destruct (Nat.eqb_spec (max_rounds cfg) 0) as [|Hne]; [by eexists|]. unfold crosses in Hc. simpl in Hc.
      rewrite take_app_ge by lia. destruct (max_rounds cfg - length l) as [|k] eqn:E; [lia|]. by eexists. }
    split_and!; [|done|].
    + rewrite (first_rejected_app _ _ Ha). simpl. rewrite (rejected_rejectedb D Hrej). destruct h as [full sq]. simpl in Hh, Hseq.
      by subst full sq.
    + intros ds1 D' ds2 E HD' Hds1. assert (ds1 = l) as ->; [|done].
      revert ds1 E Hds1. clear Hc Hseq. induction Ha as [|x l Hx _ IH]; intros [|y ds1] E Hds1; simplify_eq/=.
      * done.
      * apply Forall_cons_1 in Hds1 as [Hy _]. by rewrite (rejected_rejectedb _ Hrej) in Hy.
      * by rewrite (accepted_rejectedb _ Hx) in HD'.
      * f_equal. apply IH; [done|]. by apply Forall_cons_1 in Hds1 as [_ ?].
  - intros Hv. assert (Forall accepted (if max_rounds cfg =? 0 then ds else take (max_rounds cfg) ds) ∧
      n' = length (if max_rounds cfg =? 0 then ds else take (max_rounds cfg) ds)) as [Ha Hn].
    { destruct b.
      - destruct Hv as (ds1 & ds2 & -> & Ha & Hn & Hlt & Hmax). simpl in Hn.
        destruct (Nat.eqb_spec (max_rounds cfg) 0); [lia|]. rewrite take_app_length' by lia. split; [done|lia].
      - destruct Hv as (Ha & Hn & Hc). unfold crosses in Hc. simpl in Hn.
        destruct (Nat.eqb_spec (max_rounds cfg) 0); [done|]. rewrite take_ge by lia. done. }
    clear Hv. split_and!; [|done|].
    + rewrite <-(app_nil_r (if _ : bool then _ else _)). by rewrite first_rejected_app.
    + intros ds1 D ds2 E HD _. rewrite E in Ha. apply Forall_app in Ha as [? _]. done.
Qed.

(** C3: The exhaustive scheduler returns what its enumeration returns.  On a
    target that can be replayed (its object is like new after [Reset], its
    methods and generators use no tokens and the generators do not touch the
    object, the verifier refuses nothing) and with [max_tasks] not 0, a [Run] that
    returns has checked the
    executions in the order of [executions], at most [max_rounds] of them: the
    result is the first one that the checker rejects, those before it were
    accepted, and when nothing is returned the count of rounds is the number of
    executions that were checked, which are all there are unless it reached
    [max_rounds]. *)
Theorem Run_exhaustive cancel inner fuel threads_count r s' :
  Run cfg cancel inner fuel (init threads_count) = Ok (r, s') → max_tasks cfg ≠ 0 →
  let ds := executions fuel (conf_init threads_count) in
  (∀ D, D ∈ ds → finishes (conf_init threads_count) D) ∧
  r = first_rejected (within_rounds ds) ∧
  (∀ ds1 D ds2, within_rounds ds = ds1 ++ D :: ds2 → rejectedb D = true → Forall (λ D, rejectedb D = false) ds1 →
    Forall accepted ds1) ∧
  (r = None → Forall accepted (within_rounds ds) ∧ finished_rounds s' = length (within_rounds ds) ∧
    (finished_rounds s' = max_rounds cfg ∨
     within_rounds ds = ds ∧ ∀ D, finishes (conf_init threads_count) D ↔ D ∈ ds)).
Proof.
  intros H Hmax ds. destruct (Run_verdict cancel inner fuel threads_count r s' H Hmax) as (b & Hv & Hc).
  destruct (verdict_first _ _ _ Hv) as (H1 & H2 & H3). simpl in H1, H2.
  split_and!; [intros D; apply executions_finishes|done..|]. intros Hr. destruct (H2 Hr) as [Ha Hn]. split_and!; [done..|]. by apply Hc.
Qed.
End executions.
