(* ===== verification/TLALinear.v ===== *)
(** * TLALinear: what the exhaustive scheduler says about the object under test

    The history of an execution records its tasks ([recorded]), so a checker
    that decides linearizability turns [Run_verdict] into a statement about the
    object: [TLAScheduler::Run] finds the first history that is not linearizable
    among those that it may check. *)

From stdpp Require Import base gmap strings option list.
From S2P Require Import Prelude ValueWrapper History Linearizability Coro Strategy PrettyPrint Scheduler TLA TLAExhaustive.

Import TLA.

Section linear.
Context `{HT : Target} `{HC : !Code} `{HV : StrategyVerifier} `{HMC : ModelChecker} {HPP : PrettyPrinter}.
Context (cfg : Config).

(** The threads of an execution as the threads of a round. *)
Definition as_base (ths : list (list CoroBase)) : BaseStrategy :=
  mk_Base 0 ∅ [] Verifier_init world_init ths [].

Lemma view_as_base ths : view ths = task_at (as_base ths).
Proof. done. Qed.

Record recorded (C : aconf) : Prop := {
  rc_records : records (c_seq C) (created (as_base (c_threads C))) (answered (as_base (c_threads C)));
  rc_responses : responses (c_seq C) = c_finished C;
}.

Lemma recorded_init n : recorded (conf_init n).
Proof.
  split; [|done]. apply records_nil.
  - intros [th i] [c (thread & Ht & Hi)%slot_Some]. by apply lookup_replicate in Ht as [-> _].
  - intros [th i] v (c & (thread & Ht & Hi)%slot_Some & _). by apply lookup_replicate in Ht as [-> _].
Qed.

(** Running a task that is there and has not returned. *)
Lemma records_run ths r c c' h th :
  task_in ths r = Some c → IsReturned c = false →
  records h (created (as_base ths)) (answered (as_base ths)) →
  records (h ++ if IsReturned c' then [EResponse (mk_Response r (ret c') th)] else [])
    (created (as_base (put_task r c' ths))) (answered (as_base (put_task r c' ths))).
Proof.
  intros Hc Hr Hrec.
  assert (∀ v, ¬ answered (as_base ths) r v) as Hnone.
  { intros v (d & Hd & Hret & _). change (task_in ths r = Some d) in Hd. congruence. }
  assert (created (as_base ths) r) as Hcr by (exists c; exact Hc).
  pose proof (answered_resume (as_base ths) r c c' world_init Hc Hr) as Ha.
  pose proof (created_resume (as_base ths) r c c' world_init Hc) as Hcre.
  destruct (IsReturned c').
  - eapply records_ext; [exact (records_response _ _ _ r (ret c') th Hrec Hcr Hnone)| |].
    + intros u. symmetry. exact (Hcre u).
    + intros u v. symmetry. etransitivity; [exact (Ha u v)|]. naive_solver.
  - rewrite app_nil_r. eapply records_ext; [exact Hrec| |].
    + intros u. symmetry. exact (Hcre u).
    + intros u v. symmetry. etransitivity; [exact (Ha u v)|]. naive_solver.
Qed.

(** Adding a task. *)
Lemma records_add ths i thread c h th :
  ths !! i = Some thread → IsReturned c = false →
  records h (created (as_base ths)) (answered (as_base ths)) →
  records (h ++ [EInvoke (mk_Invoke (i, length thread) th)])
    (created (as_base (alter (λ t, t ++ [c]) i ths))) (answered (as_base (alter (λ t, t ++ [c]) i ths))).
Proof.
  intros Ht Hr Hrec. rewrite (alter_as_insert _ _ _ _ Ht).
  pose proof (task_in_fresh ths i thread Ht) as Hfresh.
  eapply records_ext.
  - apply (records_invoke h _ _ (i, length thread) th Hrec). intros [d Hd].
    change (task_in ths (i, length thread) = Some d) in Hd. congruence.
  - intros u. split.
    + intros [->|[d Hd]]; eexists; apply (task_in_push ths i thread c); eauto.
    + intros [d [[-> _]|Hd]%(task_in_push ths i thread c _ _ Ht)]; [by left|right; by exists d].
  - intros u v. split.
    + intros (d & Hd & ? & ?). exists d. split_and!; [|done..]. apply (task_in_push ths i thread c); [done|by right].
    + intros (d & [[_ ->]|Hd]%(task_in_push ths i thread c _ _ Ht) & ? & ?); [congruence|by exists d].
Qed.

Lemma responses_app h1 h2 : responses (h1 ++ h2) = responses h1 + responses h2.
Proof. induction h1 as [|e h1 IH]; simpl; [done|]. rewrite IH. lia. Qed.

Lemma astep_recorded i C C1 : astep cfg i C C1 → recorded C → recorded C1.
Proof.
  intros [thread n c c' o' Ht Hn Hc Hr _ Hp|thread b c w c' o' Ht _ _ _ _ Hb Hp] [Hrec Hres]; split; simpl.
  - apply (records_run _ _ c); [apply task_in_Some; eauto|done|done].
  - rewrite !responses_app, Hres. destruct (IsReturned c'); simpl; lia.
  - assert (IsReturned c = false) as Hr by (by apply plain_step_same in Hp as [_ ?]).
    rewrite cons_middle, app_assoc. apply (records_run _ _ c); [|done|by apply records_add].
    apply task_in_Some. exists (thread ++ [c]). by rewrite list_lookup_alter_eq, Ht, lookup_app_r, Nat.sub_diag by lia.
  - rewrite !responses_app, Hres. destruct (IsReturned c'); simpl; lia.
Qed.

Lemma finishes_recorded C D : finishes cfg C D → recorded C → recorded D.
Proof. induction 1 as [|i C C1 D _ Hs _ IH]; [done|]. intros HR. by eapply IH, astep_recorded. Qed.

Lemma finishes_finished C D : finishes cfg C D → c_finished D = max_tasks cfg.
Proof. by induction 1. Qed.

Section checker.
Context {SpecState : Type} (spec : gmap string (Method (State:=SpecState) (Args:=tuple))).
Context (first_state : SpecState) `{HCC : !CheckerCorrect spec first_state}.

Definition linear (D : aconf) : Prop := linearizable spec (view (c_threads D)) (c_seq D) first_state.

(** The verdict of the checker on a recorded execution of covered tasks. *)
Lemma verdict_linear D :
  recorded D → covered spec (as_base (c_threads D)) →
  (accepted D ↔ linear D) ∧ (rejected D ↔ ¬ linear D) ∧ ∃ ok, mc_Check (view (c_threads D)) (c_seq D) = Ok ok.
Proof.
  intros [Hrec _] Hcov.
  assert (checkable spec (view (c_threads D)) (c_seq D)) as Hck.
  { rewrite view_as_base. by eapply (records_checkable spec _ _ _ _ Hcov Hrec). }
  unfold accepted, rejected, linear. destruct (check_decides spec first_state _ _ Hck) as (ok & E & Hiff). rewrite E.
  destruct ok; split_and!; try by eexists.
  - split; [intros _; by apply Hiff|done].
  - split; [done|]. intros H. destruct H. by apply Hiff.
  - split; [done|]. intros H%Hiff. done.
  - split; [|done]. intros _ H%Hiff. done.
Qed.

(** C21: On a target that can be replayed ([replay_safe]: its object is like new
    after [Reset], its methods and generators use no tokens, the generators do
    not touch the object, the verifier refuses nothing) and whose executions the
    specification covers, with [max_tasks] not 0, a [TLAScheduler::Run] that returns has decided
    linearizability for the executions in the order of [executions], for
    [max_rounds] of them at most: a history it returns is that of the first of
    these executions that is not linearizable, well formed and with [max_tasks]
    responses; when it returns nothing all of them are linearizable, and they
    are all the executions within the limits unless it stopped at
    [max_rounds]. *)
Theorem Run_linearizable (Hsafe : replay_safe cfg) cancel inner fuel threads_count r s' :
  Run cfg cancel inner fuel (init threads_count) = Ok (r, s') → max_tasks cfg ≠ 0 →
  (∀ D, finishes cfg (conf_init threads_count) D → covered spec (as_base (c_threads D))) →
  let ds := executions cfg fuel (conf_init threads_count) in
  match r with
  | Some h => h.1 = [] ∧ ∃ ds1 D ds2, ds = ds1 ++ D :: ds2 ∧ Forall linear ds1 ∧ ¬ linear D ∧
      h.2 = c_seq D ∧ well_formed h.2 ∧ responses h.2 = max_tasks cfg ∧
      (max_rounds cfg = 0 ∨ length ds1 < max_rounds cfg)
  | None => Forall linear (within_rounds cfg ds) ∧ finished_rounds s' = length (within_rounds cfg ds) ∧
      (finished_rounds s' = max_rounds cfg ∨ ∀ D, finishes cfg (conf_init threads_count) D → linear D)
  end.
Proof.
  intros H Hmax Hcov ds. destruct (Run_verdict cfg Hsafe _ _ _ _ _ _ H Hmax) as (b & Hv & Hall). fold ds in Hv, Hall.
  assert (∀ D, D ∈ ds → recorded D ∧ covered spec (as_base (c_threads D)) ∧ c_finished D = max_tasks cfg) as Hds.
  { intros D HD%executions_finishes; [|done]. split_and!; [|by apply Hcov|by eapply finishes_finished].
    eapply finishes_recorded; [exact HD|apply recorded_init]. }
  assert (∀ l, (∀ D, D ∈ l → D ∈ ds) → Forall accepted l → Forall linear l) as Hacc.
  { intros l Hl Ha. apply Forall_forall. intros D HD. destruct (Hds D (Hl D HD)) as (? & ? & _).
    apply (verdict_linear D); [done..|]. by eapply Forall_forall in Ha. }
  destruct r as [h|].
  - assert (verdict cfg ds (false, Some h) 0 (finished_rounds s')) as (Hh & ds1 & D & ds2 & E & Ha & Hrej & Hseq & Hc)
      by (by destruct b).
    split; [done|]. exists ds1, D, ds2. assert (D ∈ ds) as HD by (rewrite E; set_solver).
    destruct (Hds D HD) as (Hrd & Hcv & Hfin). destruct (Hrd) as [Hrec Hres]. rewrite Hseq. split_and!; [done| | |done|by destruct Hrec|congruence|].
    + apply Hacc; [|done]. intros D' HD'. rewrite E. set_solver.
    + by apply (verdict_linear D).
    + unfold crosses in Hc. simpl in Hc. lia.
  - destruct (verdict_first _ _ _ _ Hv) as (_ & H2 & _). destruct (H2 eq_refl) as [Ha Hn]. split_and!; [|done|].
    + apply Hacc; [|done]. intros D. unfold within_rounds. destruct (_ =? _); [done|].
      intros HD. rewrite <-(take_drop (max_rounds cfg) ds). apply elem_of_app. by left.
    + destruct (Hall eq_refl) as [?|[E Hiff]]; [by left|right]. intros D HD.
      rewrite E in Ha. apply (proj1 (Forall_forall _ _) (Hacc ds (λ _ H, H) Ha)). by apply Hiff.
Qed.
End checker.
End linear.
