(* ===== verification/Checkers.v ===== *)
(** * Checkers: the two implementations of ModelChecker (lincheck.h,
      lincheck_recursive.h)

    The scheduler is parametric in its checker; here the recursive one, which
    [ltest::Run] uses, is shown to be what the scheduler needs, and the
    iterative one to give the same answers. *)

From stdpp Require Import base gmap strings option list.
From S2P Require Import Prelude ValueWrapper History Linearizability LincheckRecursive Lincheck.
From S2P Require Import Coro Strategy PrettyPrint Scheduler.

Section checkers.
Context {SpecState : Type} (spec : gmap string (Method (State:=SpecState) (Args:=tuple))).
Context (first_state : SpecState).

(** [LinearizabilityCheckerRecursive] as the [ModelChecker] of a scheduler. *)
Definition recursive_checker : ModelChecker := λ tasks h, Check_recursive spec tasks first_state h.

#[export] Instance recursive_checker_correct : CheckerCorrect (HMC:=recursive_checker) spec first_state.
Proof. exact (λ tasks h, Check_recursive_decides spec tasks first_state h). Qed.

(** C16: the recursive and the iterative checker are equivalent: on every
    checkable history there is an amount of fuel from which on the iterative
    search with its stack and its cache returns exactly what the recursive
    search returns. *)
Theorem checkers_agree (hash : SpecState → Z) (equal : SpecState → SpecState → bool)
    (vector_hash : list bool → Z) (task_at : TaskRef → option (TaskInfo tuple)) h :
  spec_equal_bisim spec equal → checkable spec task_at h →
  ∃ n, ∀ fuel, n ≤ fuel →
    Check spec task_at first_state hash equal vector_hash fuel h = Check_recursive spec task_at first_state h.
Proof.
  intros Hb Hck.
  destruct (Check_decides spec task_at first_state hash equal vector_hash h Hb Hck) as (b & n & Hn & Hiff).
  destruct (Check_recursive_decides spec task_at first_state h Hck) as (b' & -> & Hiff').
  exists n. intros fuel Hf. rewrite (Hn fuel Hf). f_equal.
  destruct b, b'; try done; naive_solver.
Qed.
End checkers.

(** ** Rounds that are reported

    A round that was run, of tasks the specification covers, is reported by
    [RunRound] when it can be printed and the checker rejects it, and then it is
    not linearizable. *)

Section reported.
Context `{HT : Target} `{HC : !Code} `{HV : StrategyVerifier} {SpecState : Type}.
Context (spec : gmap string (Method (State:=SpecState) (Args:=tuple))) (first_state : SpecState).

(** The method of the task is known, runs on its arguments, and its answers can
    be compared with the task's. *)
Definition covered_task (c : CoroBase) : Prop :=
  ∃ m : Method (State:=SpecState) (Args:=tuple), spec !! name c = Some m ∧
    (∀ s, ∃ res, m s (args c) = Ok res) ∧
    (IsReturned c = true → ∀ s res s', m s (args c) = Ok (res, s') → comparable res (ret c)).

Lemma covered_forallb (ok : CoroBase → bool) (b : BaseStrategy) :
  (∀ c, ok c = true → covered_task c) → forallb (forallb ok) (threads b) = true → covered spec b.
Proof.
  intros Hok H [th i] c (thread & Ht & Hi)%slot_Some. apply Hok. rewrite forallb_forall in H.
  apply list_elem_of_lookup_2, list_elem_of_In in Ht, Hi. apply H in Ht. rewrite forallb_forall in Ht. by apply Ht.
Qed.

(** A task that has returned an [int], if it has returned. *)
Definition answers_int (c : CoroBase) : bool :=
  negb (IsReturned c) || match value (ret c) with Some (any_int _) => true | _ => false end.

Lemma covered_int m c :
  spec !! name c = Some m → (∀ s, ∃ (z : Z) s', m s (args c) = Ok (ValueWrapper_of z, s')) → answers_int c = true →
  covered_task c.
Proof.
  intros Hm Hint Hret. exists m. split_and!; [done|intros s; destruct (Hint s) as (z & s' & ->); by eexists|].
  intros Hr s res s' Hres. destruct (Hint s) as (z & s1 & E). rewrite E in Hres. injection Hres as <- <-.
  unfold answers_int in Hret. rewrite Hr in Hret. simpl in Hret. unfold comparable. rewrite vw_eq_default_cases.
  destruct (value (ret c)) as [[]|]; try done. by eexists.
Qed.

Lemma covered_void m c :
  spec !! name c = Some m → (∀ s, ∃ s', m s (args c) = Ok (void_v, s')) → covered_task c.
Proof.
  intros Hm Hv. exists m. split_and!; [done|intros s; destruct (Hv s) as (s' & ->); by eexists|].
  intros _ s res s' Hres. destruct (Hv s) as (s1 & E). rewrite E in Hres. injection Hres as <- <-. apply comparable_void.
Qed.

Context `{HS : !Strategy} `{HL : !StrategyLaws}.

(** What a round of a covered target hands to the checker can be checked. *)
Lemma round_checkable inner fuel n s h s' :
  run_loop inner fuel n ([], []) s = Ok (h, s') → empty_round (base s) → covered spec (base s') →
  checkable spec (task_at (base s')) h.2.
Proof.
  intros Hrun He Hcov. destruct (run_loop_Ok _ _ _ _ _ _ _ Hrun) as [[_ Hrec] _]; [by apply generating_empty|].
  by eapply (records_checkable spec _ _ _ _ Hcov Hrec).
Qed.

Lemma round_reported `{HMC : ModelChecker} {HPP : PrettyPrinter} `{HCC : !CheckerCorrect spec first_state} inner fuel n s h s' :
  run_loop inner fuel n ([], []) s = Ok (h, s') → empty_round (base s) → covered spec (base s') → print_log h.2 s' = Ok (tt, s') →
  mc_Check (task_at (base s')) h.2 = Ok false →
  RunRound inner fuel n s = Ok (Some h, s') ∧ ¬ linearizable spec (task_at (base s')) h.2 first_state.
Proof.
  intros Hrun He Hcov Hp Hno. split.
  - unfold RunRound. st_step Hrun. st_step Hp. unfold check_histories. rewrite st_get_bind. by st_lift_step Hno.
  - destruct (check_decides spec first_state _ _ (round_checkable _ _ _ _ _ _ Hrun He Hcov)) as (ok & Hok & Hiff).
    rewrite Hno in Hok. injection Hok as <-. by intros H%Hiff.
Qed.
End reported.
