(* ===== verification/Replay.v ===== *)
(** * Replay: what [ReplayRound] does with an ordering (scheduler.h:406-463)

    The minimizers rely on [ReplayRound]: they replay the interleaving of a
    failing round, without some of its tasks.  Two facts about it:
    the branch that terminates a task is never taken, and replaying the whole
    interleaving of a generated round rebuilds exactly its two histories. *)

From stdpp Require Import base gmap strings option list.
From S2P Require Import Prelude ValueWrapper History Linearizability Coro Strategy PickStrategy Scheduler.

Section replay.
Context `{HT : Target} `{HC : !Code} `{HV : StrategyVerifier} `{HS : !Strategy}.
Context `{HMC : ModelChecker}.

(** [RoundMinimizor::GetTasksOrdering] (minimization.cpp:5-17). *)
Fixpoint GetTasksOrdering (b : BaseStrategy) (full_history : FullHistory) (exclude_task_ids : gset Z)
  : outcome (list Z) :=
  match full_history with
  | [] => Ok []
  | r :: full_history =>
      c ← or_fail (Undefined "dangling Task&") (slot b r);
      ordering ← GetTasksOrdering b full_history exclude_task_ids;
      Ok (if bool_decide (GetId c ∈ exclude_task_ids) then ordering else GetId c :: ordering)
  end.

(** ** Counting the resumes *)

Fixpoint occurrences (id : Z) (l : list Z) : nat :=
  match l with [] => 0 | x :: l => (if decide (x = id) then 1 else 0) + occurrences id l end.

Lemma count_resumes_acc l (m : gmap Z Z) id :
  default 0%Z (foldl (λ (m : gmap Z Z) id, <[id := (default 0 (m !! id) + 1)%Z]> m) m l !! id) =
  (default 0 (m !! id) + Z.of_nat (occurrences id l))%Z.
Proof.
  revert m. induction l as [|x l IH]; intros m; cbn [foldl]; [simpl; lia|].
  rewrite IH. cbn [occurrences]. destruct (decide (x = id)) as [->|Hne].
  - rewrite lookup_insert_eq. simpl. lia.
  - rewrite lookup_insert_ne by done. simpl. lia.
Qed.

(** [resumes_count] counts at least the visits that are left. *)
Definition enough (resumes_count : gmap Z Z) (tasks_ordering : list Z) : Prop :=
  ∀ id, (Z.of_nat (occurrences id tasks_ordering) ≤ default 0 (resumes_count !! id))%Z.

Lemma enough_count l : enough (count_resumes l) l.
Proof. intros id. unfold count_resumes. rewrite count_resumes_acc, lookup_empty. simpl. lia. Qed.

Lemma enough_pos rc id l : enough rc (id :: l) → (default 0 (rc !! id) =? 0)%Z = false.
Proof.
  intros H. specialize (H id). cbn [occurrences] in H. rewrite decide_True in H by done.
  apply Z.eqb_neq. lia.
Qed.

Lemma enough_skip rc id l : enough rc (id :: l) → enough rc l.
Proof. intros H x. specialize (H x). cbn [occurrences] in H. lia. Qed.

Lemma enough_visit rc id l :
  enough rc (id :: l) → enough (<[id := (default 0 (rc !! id) - 1)%Z]> rc) l.
Proof.
  intros H x. specialize (H x). cbn [occurrences] in H. destruct (decide (id = x)) as [->|Hne].
  - rewrite lookup_insert_eq. simpl. lia.
  - rewrite lookup_insert_ne by done. lia.
Qed.

Lemma replay_resume_enough inner r id rc l s :
  enough rc (id :: l) →
  replay_resume inner r id rc s =
    (_ ← on_base (task_Resume r); mret (<[id := (default 0 (rc !! id) - 1)%Z]> rc)) s.
Proof. intros H. unfold replay_resume. by rewrite (enough_pos _ _ _ H). Qed.

Lemma replay_loop_terminate inner1 inner2 l started rc h s :
  enough rc l → replay_loop inner1 l started rc h s = replay_loop inner2 l started rc h s.
Proof.
  revert started rc h s. induction l as [|id l IH]; intros started rc h s He; cbn [replay_loop]; [done|].
  cbv zeta. rewrite !st_get_bind. destruct (GetTask (base s) id) as [[r th]|]; [|done].
  unfold mbind, stM_bind. destruct (on_base (task_IsReturned r) s) as [[already s1]|]; [|done].
  destruct already; [apply IH; by eapply enough_skip|].
  rewrite !(replay_resume_enough _ r id rc l s1 He). unfold mbind, stM_bind.
  destruct (on_base (task_Resume r) s1) as [[u s2]|]; [|done]. unfold mret, stM_ret.
  destruct (on_base (task_IsReturned r) s2) as [[ret s3]|]; [|done].
  pose proof (enough_visit _ _ _ He). destruct ret; [|by apply IH].
  destruct (on_base (task_GetRetVal r) s3) as [[v s4]|]; [|done]. by apply IH.
Qed.

(** [ReplayRound] never completes a task with [Terminate]: the number of
    resumes that [Terminate] may use makes no difference, even if it is none,
    because the count of a task is positive whenever the task is visited. *)
Theorem replay_never_terminates inner1 inner2 tasks_ordering h s :
  replay_loop inner1 tasks_ordering ∅ (count_resumes tasks_ordering) h s =
  replay_loop inner2 tasks_ordering ∅ (count_resumes tasks_ordering) h s.
Proof. apply replay_loop_terminate, enough_count. Qed.

(** ** Replaying the whole interleaving *)

(** Two tasks at the same point of the same call. *)
Record csim (c c' : CoroBase) : Prop := {
  cs_id : GetId c' = GetId c;
  cs_task : name c' = name c ∧ args c' = args c;
  cs_returned : IsReturned c' = IsReturned c;
  cs_ret : ret c' = ret c;
  cs_ctx : ctx c' = ctx c;
}.

Definition wsim (w w' : World) : Prop := state w' = state w ∧ tokens w' = tokens w.

Lemma Resume_sim c c' w w' c1 w1 :
  csim c c' → wsim w w' → Resume c w = Ok (c1, w1) →
  ∃ c1' w1', Resume c' w' = Ok (c1', w1') ∧ csim c1 c1' ∧ wsim w1 w1'.
Proof.
  intros [Hid [Hn Ha] Hr Hret Hctx] [Hst Htok] H. unfold Resume in *. rewrite Hr, Hctx, Hst, Htok.
  apply bind_Ok in H as (u & -> & H). cbn [mbind outcome_bind].
  apply bind_Ok in H as (f & -> & H). cbn [mbind outcome_bind].
  apply bind_Ok in H as (sl & -> & H). cbn [mbind outcome_bind].
  destruct sl as [f' o ts b st|v o ts]; simplify_eq; do 2 eexists; (split; [done|]); split; try done.
  - by destruct b as [[? ?]|]; split.
Qed.

(** What a task is, apart from how far it has got. *)
Definition same_call (c c' : CoroBase) : Prop :=
  GetId c' = GetId c ∧ name c' = name c ∧ args c' = args c.

Lemma same_task_call c c' : same_task c c' → same_call c c'.
Proof. intros (? & ? & ? & _). done. Qed.

(** The generators of the round touch neither the object nor the tokens. *)
Definition pure_generators (b : BaseStrategy) : Prop :=
  ∀ bd, bd ∈ constructors b → ∀ th w a w', tb_gen bd th w = Ok (a, w') → wsim w w'.

Lemma Build_pure bd th i w c w' :
  (∀ w a w', tb_gen bd th w = Ok (a, w') → wsim w w') →
  Build bd th i w = Ok (c, w') → fresh_coro c ∧ wsim w w'.
Proof.
  intros Hp H. unfold Build in H. apply bind_Ok in H as ([a w1] & Hg%Hp & H).
  destruct (generated_token w1); simplify_eq; (split; [done|exact Hg]).
Qed.

(** Every task of [b] is still there in [b1]. *)
Definition grows (b b1 : BaseStrategy) : Prop :=
  ∀ r c, slot b r = Some c → ∃ c1, slot b1 r = Some c1 ∧ same_call c c1.

Lemma same_call_trans c1 c2 c3 : same_call c1 c2 → same_call c2 c3 → same_call c1 c3.
Proof. intros (? & ? & ?) (? & ? & ?). split_and!; congruence. Qed.

#[local] Instance grows_preorder : PreOrder grows.
Proof.
  split; [by intros b r c Hc; exists c|]. intros b1 b2 b3 H1 H2 r c (c1 & Hc1 & ?)%H1.
  destruct (H2 r c1 Hc1) as (c2 & Hc2 & ?). exists c2. split; [done|by eapply same_call_trans].
Qed.

Lemma evolves_grows b b1 : evolves b b1 → grows b b1.
Proof.
  intros Hev r c Hc. destruct (evolves_slot _ _ _ _ Hev Hc) as (c1 & Hc1 & Hs & _).
  exists c1. split; [done|by apply same_task_call].
Qed.

Lemma next_ok_grows b t b1 :
  next_ok b t b1 → grows b b1 ∧ (∀ bd, bd ∈ constructors b1 ↔ bd ∈ constructors b).
Proof.
  destruct 1 as [n c thread Hlk|s1 bd c thread Hlk _ _ Hth _ _ _ Hths _ _ _ Hcs].
  - split; [by apply evolves_grows, looked_evolves|]. intros bd. by rewrite (lk_constructors _ _ Hlk).
  - split; [|done]. etransitivity; [by apply evolves_grows, looked_evolves|]. intros r x Hx.
    exists x. split; [|done]. rewrite (slot_push_ne _ _ _ _ _ Hth Hths); [done|]. intros ->.
    by rewrite (slot_push_fresh _ _ _ Hth) in Hx.
Qed.

(** ** Task ids *)

(** Ids count the tasks of the round, from 0. *)
Record id_inv (b : BaseStrategy) : Prop := {
  ids_next : new_task_id b = Z.of_nat (GetTotalTasksCount b);
  ids_range : ∀ r c, slot b r = Some c → (0 ≤ GetId c < new_task_id b)%Z;
  ids_unique : ∀ r r' c c', slot b r = Some c → slot b r' = Some c' → GetId c = GetId c' → r = r';
}.

Lemma evolves_total b b1 : evolves b b1 → GetTotalTasksCount b1 = GetTotalTasksCount b.
Proof. intros Hev. unfold GetTotalTasksCount. f_equal. by apply evolves_lengths. Qed.

Lemma evolves_ids b b1 : evolves b b1 → id_inv b → id_inv b1.
Proof.
  intros Hev [Hn Hr Hu]. split.
  - by rewrite (ev_new_task_id _ _ Hev), (evolves_total _ _ Hev).
  - intros r c1 Hc1. destruct (evolves_slot_inv _ _ _ _ Hev Hc1) as (c & Hc & (Hi & _) & _).
    rewrite (ev_new_task_id _ _ Hev). unfold GetId in *. rewrite Hi. by eapply Hr.
  - intros r r' c c' Hc Hc' E. destruct (evolves_slot_inv _ _ _ _ Hev Hc) as (x & Hx & (Hi & _) & _).
    destruct (evolves_slot_inv _ _ _ _ Hev Hc') as (x' & Hx' & (Hi' & _) & _).
    eapply Hu; [done..|]. unfold GetId in *. congruence.
Qed.

Lemma next_ok_total b t b1 :
  next_ok b t b1 → GetTotalTasksCount b1 = GetTotalTasksCount b + (if is_new t then 1 else 0).
Proof.
  destruct 1 as [n c thread Hlk ->|s1 bd c thread Hlk -> _ Hth _ _ _ Hths].
  - rewrite (evolves_total _ _ (looked_evolves _ _ Hlk)). lia.
  - rewrite <-(evolves_total _ _ (looked_evolves _ _ Hlk)). unfold GetTotalTasksCount. rewrite Hths.
    pose proof (sum_list_fmap_insert length (threads s1) _ _ (thread ++ [c]) Hth) as Hsum.
    rewrite length_app in Hsum. simpl in Hsum. lia.
Qed.

Lemma next_ok_ids b t b1 :
  next_ok b t b1 → id_inv b → (Z.of_nat (GetTotalTasksCount b1) < 2 ^ 31)%Z → id_inv b1.
Proof.
  intros Hnext HI Hlt. pose proof (next_ok_total _ _ _ Hnext) as Htot.
  destruct Hnext as [n c thread Hlk|s1 bd c thread Hlk Hnew _ Hth _ _ Hb Hths Hid _ _ _];
    [by eapply evolves_ids; [apply looked_evolves|]|].
  apply (evolves_ids _ _ (looked_evolves _ _ Hlk)) in HI as [Hn Hr Hu].
  apply Build_Ok in Hb as (_ & Hic & _). rewrite Hnew in Htot.
  rewrite <-(lk_new_task_id _ _ Hlk) in Hid, Hic. rewrite <-(evolves_total _ _ (looked_evolves _ _ Hlk)) in Htot.
  rewrite wrap32_id in Hid by (unfold in_int32; lia).
  assert (∀ r x, slot b1 r = Some x → (r = (thread_id t, length thread) ∧ x = c) ∨ slot s1 r = Some x) as Hslot.
  { intros r x Hx. destruct (decide (r = (thread_id t, length thread))) as [->|Hne].
    - rewrite (slot_push_eq _ _ _ _ _ Hth Hths) in Hx. left. split; congruence.
    - right. by rewrite <-(slot_push_ne _ _ _ _ _ Hth Hths). }
  split.
  - lia.
  - intros r x [[-> ->]|Hx]%Hslot; [lia|]. specialize (Hr r x Hx). lia.
  - intros r r' x x' [[-> ->]|Hx]%Hslot [[-> ->]|Hx']%Hslot E; [done| | |by eapply Hu].
    + specialize (Hr _ _ Hx'). lia.
    + specialize (Hr _ _ Hx). lia.
Qed.

Section faithful.
Context `{HL : !StrategyLaws}.
(** The round at the end of the generation; its ids are distinct. *)
Context (bf : BaseStrategy).
Context (Hids : ∀ r r' c c', slot bf r = Some c → slot bf r' = Some c' → GetId c = GetId c' → r = r').

(** The round [b] is a part of the final one. *)
Definition part_of (b : BaseStrategy) : Prop := grows b bf.

(** The round [b] being generated and the round [b'] being replayed: the
    tasks created so far are at the same point, the others are about to
    start. *)
Record sim (b b' : BaseStrategy) : Prop := {
  sim_created : ∀ r c, slot b r = Some c → ∃ c', slot b' r = Some c' ∧ csim c c';
  sim_later : ∀ r cf, slot bf r = Some cf → slot b r = None →
    ∃ c', slot b' r = Some c' ∧ fresh_coro c' ∧ same_call cf c';
  sim_final : ∀ r c', slot b' r = Some c' → ∃ cf, slot bf r = Some cf ∧ GetId cf = GetId c';
  sim_world : wsim (world b) (world b');
}.

Definition started_ok (b : BaseStrategy) (started : gset Z) : Prop :=
  ∀ id, id ∈ started ↔ ∃ r c, slot b r = Some c ∧ GetId c = id.

Lemma sim_looked b b1 b' : looked b b1 → sim b b' → sim b1 b'.
Proof.
  intros Hlk [Hcr Hla Hfi Hw]. split; [| |done|].
  - intros r c1 Hc1. destruct (looked_slot _ _ _ _ Hlk Hc1) as (c & Hc & E).
    destruct (Hcr r c Hc) as (c' & Hc' & Hsim). exists c'. split; [done|].
    destruct Hsim as [? [? ?] ? ? ?]. rewrite E. by split.
  - intros r cf Hcf Hnone. apply Hla; [done|]. destruct (slot b r) as [c|] eqn:Hc; [|done].
    destruct (evolves_slot _ _ _ _ (looked_evolves _ _ Hlk) Hc) as (c1 & Hc1 & _). congruence.
  - by rewrite (lk_world _ _ Hlk).
Qed.

Lemma GetTask_final b b' r c' :
  sim b b' → slot b' r = Some c' → GetTask b' (GetId c') = Some (r, r.1).
Proof.
  intros Hsim Hc'. pose proof (GetTask_Ok b' (GetId c')) as H.
  destruct (GetTask b' (GetId c')) as [[r2 th]|]; [|by destruct (H r c' Hc')].
  destruct H as (c2 & Hc2 & Hid & <-).
  destruct (sim_final _ _ Hsim _ _ Hc') as (cf & Hcf & E).
  destruct (sim_final _ _ Hsim _ _ Hc2) as (cf2 & Hcf2 & E2).
  assert (r2 = r) as ->; [|done]. eapply Hids; [done|done|congruence].
Qed.

(** The strategy handing out a task leaves the rounds in step, and the task
    is new for the replay when it is new for the generation. *)
Lemma sim_next b t bn b' started c :
  next_ok b t bn → pure_generators b → sim b b' → started_ok b started → part_of bn →
  slot bn (task t) = Some c →
  sim bn b' ∧ is_new t = negb (bool_decide (GetId c ∈ started)) ∧
  started_ok bn ({[GetId c]} ∪ started).
Proof.
  intros Hnext Hpure Hsim Hst Hpart Hc.
  destruct Hnext as [n c0 thread Hlk Hnew _ _ _ _ _ _ _
                    |s1 bd c0 thread Hlk Hnew Ht Hth _ Hin Hb Hths _ _ _ _].
  - split; [by eapply sim_looked|].
    destruct (looked_slot _ _ _ _ Hlk Hc) as (c1 & Hc1 & E).
    assert (GetId c = GetId c1) as Hid by (by rewrite E).
    assert (GetId c ∈ started) as Hin by (apply Hst; eauto).
    split; [by rewrite Hnew, bool_decide_true|].
    intros id. assert ({[GetId c]} ∪ started = started) as -> by set_solver.
    rewrite (Hst id). split; intros (r & x & Hx & <-).
    + destruct (evolves_slot _ _ _ _ (looked_evolves _ _ Hlk) Hx) as (x' & Hx' & (Hi & _) & _).
      exists r, x'. split; [done|]. exact Hi.
    + destruct (looked_slot _ _ _ _ Hlk Hx) as (x' & Hx' & Ex). exists r, x'. split; [done|]. by rewrite Ex.
  - pose proof (slot_push_eq _ _ _ _ _ Hth Hths) as Heq. rewrite <-Ht in Heq.
    pose proof (λ r, slot_push_ne _ _ _ _ _ Hth Hths r) as Hne. rewrite <-Ht in Hne.
    pose proof (slot_push_fresh _ _ _ Hth) as Hnone1. rewrite <-Ht in Hnone1.
    assert (c0 = c) as -> by congruence.
    destruct (Build_pure _ _ _ _ _ _ (λ w a w', Hpure bd Hin _ w a w') Hb) as [Hfresh Hw].
    pose proof (sim_looked _ _ _ Hlk Hsim) as Hsim1.
    destruct (Hpart _ _ Hc) as (cf & Hcf & Hcall).
    split; [|split].
    + destruct Hsim1 as [Hcr Hla Hfi Hws]. split; [| |done|].
      * intros r x Hx. destruct (decide (r = task t)) as [->|Hr]; [|apply Hcr; by rewrite <-Hne].
        assert (x = c) as -> by congruence.
        destruct (Hla _ _ Hcf Hnone1) as (c' & Hc' & Hf' & Hcall'). exists c'. split; [done|].
        destruct Hcall as (? & ? & ?), Hcall' as (? & ? & ?), Hfresh as (? & ? & Hx1), Hf' as (? & ? & Hx2).
        split; [congruence|split; congruence|congruence..].
      * intros r x Hx Hnone. destruct (decide (r = task t)) as [->|Hr]; [congruence|].
        apply Hla; [done|]. by rewrite <-Hne.
      * destruct Hw as [E1 E2], Hws as [E3 E4]. split; congruence.
    + rewrite Hnew, bool_decide_false; [done|]. intros (r & x & Hx & Hid)%Hst.
      destruct (evolves_slot _ _ _ _ (looked_evolves _ _ Hlk) Hx) as (x' & Hx' & (Hi & _) & _).
      assert (r ≠ task t) as Hr by congruence. rewrite <-Hne in Hx' by done.
      destruct (Hpart _ _ Hx') as (xf & Hxf & (Hid' & _)). destruct Hr.
      eapply Hids; [done|exact Hcf|]. destruct Hcall as (Hid'' & _). unfold GetId in *. congruence.
    + intros id. rewrite elem_of_union, elem_of_singleton, (Hst id). split.
      * intros [->|(r & x & Hx & <-)]; [by exists (task t), c|].
        destruct (evolves_slot _ _ _ _ (looked_evolves _ _ Hlk) Hx) as (x' & Hx' & (Hi & _) & _).
        exists r, x'. split; [|exact Hi]. rewrite Hne; [done|congruence].
      * intros (r & x & Hx & <-). destruct (decide (r = task t)) as [->|Hr]; [left; congruence|right].
        rewrite Hne in Hx by done. destruct (looked_slot _ _ _ _ Hlk Hx) as (x' & Hx' & Ex).
        exists r, x'. split; [done|]. by rewrite Ex.
Qed.

Lemma sim_resume bn b' r c c1 w1 c' :
  sim bn b' → slot bn r = Some c → Resume c (world bn) = Ok (c1, w1) → slot b' r = Some c' → csim c c' →
  ∃ c1' w1', Resume c' (world b') = Ok (c1', w1') ∧ csim c1 c1' ∧
    sim (with_world w1 (set_slot r c1 bn)) (with_world w1' (set_slot r c1' b')).
Proof.
  intros [Hcr Hla Hfi Hw] Hc HR Hc' Hcs. destruct (Resume_sim _ _ _ _ _ _ Hcs Hw HR) as (c1' & w1' & HR' & Hcs1 & Hw1).
  exists c1', w1'. split_and!; [done|done|].
  pose proof (Resume_Ok _ _ _ _ HR') as [_ (Hid' & _)].
  assert (∀ b x w u, slot (with_world w (set_slot r x b)) u = slot (set_slot r x b) u) as Eq by done.
  split; [| | |done].
  - intros u x Hx. rewrite Eq in Hx |- *. destruct (decide (r = u)) as [<-|Hne].
    + rewrite (slot_set_slot _ _ _ _ Hc) in Hx. injection Hx as <-. exists c1'.
      split; [by eapply slot_set_slot|done].
    + rewrite slot_set_slot_ne in Hx |- * by done. by apply Hcr.
  - intros u x Hx Hnone. rewrite Eq in Hnone |- *. destruct (decide (r = u)) as [<-|Hne].
    + by rewrite (slot_set_slot _ _ _ _ Hc) in Hnone.
    + rewrite slot_set_slot_ne in Hnone |- * by done. by apply Hla.
  - intros u x Hx. rewrite Eq in Hx. destruct (decide (r = u)) as [<-|Hne].
    + rewrite (slot_set_slot _ _ _ _ Hc') in Hx. injection Hx as <-.
      destruct (Hfi _ _ Hc') as (cf & Hcf & E). exists cf. split; [done|]. unfold GetId in *. congruence.
    + rewrite slot_set_slot_ne in Hx by done. by apply Hfi.
Qed.

(** The tasks that were there before a resume are those that are there after. *)
Lemma part_of_before_resume b r c c1 v w :
  slot b r = Some c → same_task c c1 →
  part_of (with_checker v (with_world w (set_slot r c1 b))) → part_of b.
Proof.
  intros Hc Hsame Hpart u x Hx.
  assert (∃ y, slot (set_slot r c1 b) u = Some y ∧ same_call x y) as (y & Hy & Hxy).
  { destruct (decide (r = u)) as [<-|Hne].
    - rewrite (slot_set_slot _ _ _ _ Hc). assert (x = c) as -> by congruence.
      exists c1. split; [done|]. by apply same_task_call.
    - rewrite slot_set_slot_ne by done. by exists x. }
  destruct (Hpart u y Hy) as (cf & Hcf & Hcall). exists cf. split; [done|].
  destruct Hxy as (? & ? & ?), Hcall as (? & ? & ?). split_and!; congruence.
Qed.

(** Resuming a task starts no other one. *)
Lemma started_resume b r c c1 v w started :
  slot b r = Some c → same_task c c1 → started_ok b started →
  started_ok (with_checker v (with_world w (set_slot r c1 b))) started.
Proof.
  intros Hc (Hid & _) Hst id. rewrite (Hst id).
  change (slot (with_checker v (with_world w (set_slot r c1 b)))) with (slot (set_slot r c1 b)).
  split; intros (u & x & Hx & <-); (destruct (decide (r = u)) as [<-|Hne];
    [|exists u, x; by rewrite slot_set_slot_ne in * ]).
  - exists r, c1. rewrite (slot_set_slot _ _ _ _ Hc). split; [done|].
    assert (x = c) as -> by congruence. exact Hid.
  - exists r, c. split; [done|]. rewrite (slot_set_slot _ _ _ _ Hc) in Hx. injection Hx as <-. by symmetry.
Qed.

(** A simulation does not look at the checker's state. *)
Lemma sim_checker v b b' : sim b b' → sim (with_checker v b) b'.
Proof. by intros []; split. Qed.

(** One iteration of the generation, and the iteration of the replay that
    visits the same task. *)
Lemma replay_step inner1 inner2 h s fin h1 s1 s' started :
  run_step inner1 h s = Ok ((fin, h1), s1) → pure_generators (base s) → part_of (base s1) →
  sim (base s) (base s') → started_ok (base s) started →
  ∃ r c, h1.1 = h.1 ++ [r] ∧ slot bf r = Some c ∧
    ∀ l rc, enough rc (GetId c :: l) → ∃ rc' s1', enough rc' l ∧
      replay_loop inner2 (GetId c :: l) started rc h s' =
        replay_loop inner2 l ({[GetId c]} ∪ started) rc' h1 s1' ∧
      sim (base s1) (base s1') ∧ started_ok (base s1) ({[GetId c]} ∪ started).
Proof.
  intros Hstep Hpure Hpart Hsim Hst. destruct (run_step_inv _ _ _ _ _ _ Hstep)
    as (t & bn & c & c1 & b & v & Hnext & Hres & Es1 & _ & -> & ->).
  pose proof Hres as (Hc & Hr & Hsame & w & HR & ->).
  rewrite Es1 in Hpart |- *. assert (part_of bn) as Hpartn by (by eapply part_of_before_resume).
  destruct (sim_next _ _ _ _ _ _ Hnext Hpure Hsim Hst Hpartn Hc) as (Hsimn & Hnew & Hstn).
  destruct (sim_created _ _ Hsimn _ _ Hc) as (c' & Hc' & Hcs).
  destruct (Hpartn _ _ Hc) as (cf & Hcf & (Hidf & _)).
  exists (task t), cf. split_and!; [done|done|]. rewrite Hidf. intros l rc Hen.
  destruct (sim_resume _ _ _ _ _ _ _ Hsimn Hc HR Hc' Hcs) as (c1' & w1' & HR' & Hcs1 & Hsim1).
  assert (GetId c' = GetId c) as Eid by apply Hcs.
  pose proof (GetTask_final _ _ _ _ Hsimn Hc') as HG. rewrite Eid in HG.
  set (b1' := with_world w1' (set_slot (task t) c1' (base s'))) in *.
  exists (<[GetId c := (default 0 (rc !! GetId c) - 1)%Z]> rc).
  cbn [replay_loop]. cbv zeta. rewrite st_get_bind, HG, <-Hnew.
  assert (on_base (task_IsReturned (task t)) s' = Ok (false, set_base (base s') s')) as E1.
  { apply on_base_Ok. exists (base s'). split; [|done]. apply task_IsReturned_Ok. exists c'.
    split_and!; [done| |done]. rewrite (cs_returned _ _ Hcs). done. }
  st_step E1. rewrite (st_bind_eq _ _ (set_base (base s') s')
    (<[GetId c := (default 0 (rc !! GetId c) - 1)%Z]> rc) (set_base b1' (set_base (base s') s'))).
  2:{ rewrite (replay_resume_enough _ _ _ _ _ _ Hen).
      rewrite (st_bind_eq _ _ _ tt (set_base b1' (set_base (base s') s'))); [done|].
      apply on_base_Ok. exists b1'. split; [|done]. rewrite base_set_base. apply task_Resume_Ok. eauto 10. }
  set (s2 := set_base b1' (set_base (base s') s')).
  assert (slot b1' (task t) = Some c1') as Hc1' by exact (slot_set_slot _ _ c1' _ Hc').
  assert (on_base (task_IsReturned (task t)) s2 = Ok (IsReturned c1, set_base b1' s2)) as E2.
  { apply on_base_Ok. exists b1'. unfold s2. rewrite base_set_base. split; [|done].
    apply task_IsReturned_Ok. exists c1'. split_and!; [done| |done]. by rewrite (cs_returned _ _ Hcs1). }
  st_step E2.
  assert (thread_id t = (task t).1) as Eth.
  { destruct (next_ok_slot _ _ _ Hnext) as (? & ? & ? & _ & _ & -> & _). done. }
  match type of Hsim1 with sim ?b _ => assert (∀ x, sim (with_checker v b) (base (set_base b1' x)) ∧
    started_ok (with_checker v b) ({[GetId c]} ∪ started)) as Hdone end.
  { intros x. rewrite base_set_base. split; [by apply sim_checker|by eapply started_resume]. }
  destruct (IsReturned c1) eqn:Hret.
  - assert (on_base (task_GetRetVal (task t)) (set_base b1' s2) = Ok (ret c1, set_base b1' (set_base b1' s2))) as E3.
    { apply on_base_Ok. exists b1'. rewrite base_set_base. split; [|done].
      apply task_GetRetVal_Ok. exists c1'. split_and!; [done| | |done].
      - by rewrite (cs_returned _ _ Hcs1).
      - by rewrite (cs_ret _ _ Hcs1). }
    st_step E3. exists (set_base b1' (set_base b1' s2)). split_and!; [by apply enough_visit| |by apply Hdone..].
    rewrite <-Eth. by destruct t.
  - exists (set_base b1' s2). split_and!; [by apply enough_visit| |by apply Hdone..].
    rewrite <-Eth. by destruct t.
Qed.

Lemma run_loop_ids inner1 fuel n h s h1 s1 :
  run_loop inner1 fuel n h s = Ok (h1, s1) →
  GetTotalTasksCount (base s) ≤ GetTotalTasksCount (base s1) ∧
  (id_inv (base s) → (Z.of_nat (GetTotalTasksCount (base s1)) < 2 ^ 31)%Z → id_inv (base s1)).
Proof.
  revert n h s. induction fuel as [|fuel IH]; intros [|n] h s H; cbn [run_loop] in H; try done;
    try (inv_st H; split; [lia|done]).
  apply st_bind_Ok in H as ([fin h2] & s2 & Hstep & H). apply IH in H as [Hle Hnext_ids].
  destruct (run_step_inv _ _ _ _ _ _ Hstep)
    as (t & bn & c & c1 & b & v & Hnext & (Hc & _ & _ & w & HR & ->) & E2 & _ & _).
  pose proof (evolves_resume _ _ _ _ _ Hc HR) as Hev.
  pose proof (next_ok_total _ _ _ Hnext) as Htot.
  assert (GetTotalTasksCount (base s2) = GetTotalTasksCount bn) as E.
  { rewrite E2. exact (evolves_total _ _ Hev). }
  split; [destruct (is_new t); lia|]. intros HI Hlt. apply Hnext_ids; [|done].
  assert (id_inv (with_world w (set_slot (task t) c1 bn))) as [? ? ?].
  { apply (evolves_ids _ _ Hev). eapply next_ok_ids; [done..|]. lia. }
  rewrite E2. by split.
Qed.

(** The loop of the generation, and the replay of what it appended to the
    full history. *)
Lemma run_step_grows inner1 h s fin h1 s1 :
  run_step inner1 h s = Ok ((fin, h1), s1) →
  grows (base s) (base s1) ∧ ∀ bd, bd ∈ constructors (base s1) ↔ bd ∈ constructors (base s).
Proof.
  intros Hstep. destruct (run_step_inv _ _ _ _ _ _ Hstep)
    as (t & bn & c & c1 & b & v & Hnext & (Hc & _ & Hsame & w & HR & ->) & -> & _ & _).
  apply next_ok_grows in Hnext as [Hg Hcs]. split; [|exact Hcs].
  etransitivity; [exact Hg|].
  pose proof (evolves_resume _ _ _ _ _ Hc HR) as Hev.
  exact (evolves_grows _ _ Hev).
Qed.

Lemma run_loop_grows inner1 fuel n h s h1 s1 :
  run_loop inner1 fuel n h s = Ok (h1, s1) → grows (base s) (base s1).
Proof.
  revert n h s. induction fuel as [|fuel IH]; intros [|n] h s H; cbn [run_loop] in H; try done;
    try by inv_st H.
  apply st_bind_Ok in H as ([fin h2] & s2 & [Hg _]%run_step_grows & H).
  etransitivity; [exact Hg|by eapply IH].
Qed.

(** The loop of the generation, and the replay of what it appended to the
    full history. *)
Lemma replay_run inner1 inner2 fuel n h s h1 s1 s' started :
  run_loop inner1 fuel n h s = Ok (h1, s1) → part_of (base s1) → pure_generators (base s) →
  sim (base s) (base s') → started_ok (base s) started →
  ∃ suffix ids, h1.1 = h.1 ++ suffix ∧ GetTasksOrdering bf suffix ∅ = Ok ids ∧
    ∀ rc, enough rc ids → ∃ s1', replay_loop inner2 ids started rc h s' = Ok (h1, s1').
Proof.
  revert n h s s' started. induction fuel as [|fuel IH]; intros n h s s' started H Hpart Hpure Hsim Hst.
  { destruct n; cbn [run_loop] in H; [|done]. inv_st H.
    exists [], []. rewrite app_nil_r. split_and!; [done..|]. intros rc _. by exists s'. }
  destruct n as [|n]; cbn [run_loop] in H.
  { inv_st H. exists [], []. rewrite app_nil_r. split_and!; [done..|]. intros rc _. by exists s'. }
  apply st_bind_Ok in H as ([fin h2] & s2 & Hstep & H).
  destruct (run_step_grows _ _ _ _ _ _ Hstep) as [_ Hcs].
  pose proof (run_loop_grows inner1 fuel _ _ _ _ _ H) as Hg2.
  assert (part_of (base s2)) as Hpart2 by (unfold part_of; by transitivity (base s1)).
  assert (pure_generators (base s2)) as Hpure2 by (intros bd Hbd; apply Hpure, Hcs, Hbd).
  destruct (replay_step inner1 inner2 h s fin h2 s2 s' started Hstep Hpure Hpart2 Hsim Hst)
    as (r & c & Eh & Hc & Hreplay).
  (* The rest of the replay starts from a state that depends on the counts. *)
  assert (∃ rc l, enough rc (GetId c :: l)) as (rc0 & l0 & Hen0) by (exists (count_resumes [GetId c]), []; apply enough_count).
  destruct (Hreplay l0 rc0 Hen0) as (rc1 & s1' & _ & _ & Hsim1 & Hst1).
  destruct (IH _ h2 s2 s1' _ H Hpart Hpure2 Hsim1 Hst1) as (suffix & ids & Eh1 & Hord & _).
  exists (r :: suffix), (GetId c :: ids). split_and!.
  - rewrite Eh1, Eh, <-app_assoc. done.
  - cbn [GetTasksOrdering]. rewrite Hc. cbn [or_fail mbind outcome_bind]. rewrite Hord. done.
  - intros rc Hen. destruct (Hreplay ids rc Hen) as (rc2 & s2' & Hen2 & -> & Hsim2 & Hst2).
    destruct (IH _ h2 s2 s2' _ H Hpart Hpure2 Hsim2 Hst2) as (suffix2 & ids2 & Eh2 & Hord2 & Hrun).
    rewrite Eh2 in Eh1. apply app_inv_head in Eh1 as ->. rewrite Hord in Hord2. injection Hord2 as <-.
    by apply Hrun.
Qed.
End faithful.

(** C20: Replaying a generated round is faithful: when the round is reset and its
    whole interleaving is replayed, the replay rebuilds exactly the full
    history and the sequential history of the generation, events and results
    alike.  It needs what the runtime needs: generators that do not act on the
    object or the tokens, an object that [Reset] brings back to its initial
    state, and tokens that are as they were; the round starts empty, no task is
    removed, and ids do not overflow.  The replay resumes a task as often as its
    id occurs and never calls [Terminate] on it: what the comment at
    scheduler.h:441 says of the last occurrence does not happen. *)
Theorem replay_faithful `{HL : !StrategyLaws} inner1 inner2 fuel n s full seq s1 u s2 :
  run_loop inner1 fuel n ([], []) s = Ok ((full, seq), s1) →
  empty_round (base s) → new_task_id (base s) = 0%Z → pure_generators (base s) →
  state (world (base s)) = target_init → (∀ o, target_Reset o = target_init) →
  (Z.of_nat (GetTotalTasksCount (base s1)) < 2 ^ 31)%Z → removed_tasks (base s1) = ∅ →
  ResetCurrentRound inner2 s1 = Ok (u, s2) → tokens (world (base s2)) = tokens (world (base s)) →
  ∃ ids s3, GetTasksOrdering (base s1) full ∅ = Ok ids ∧
    replay_loop inner2 ids ∅ (count_resumes ids) ([], []) s2 = Ok ((full, seq), s3).
Proof.
  intros Hrun Hempty Hnew Hpure Hinit Hreset Hlt Hrm Hres Htok.
  apply ResetCurrentRound_contract, base_ResetCurrentRound_Ok in Hres
    as (_ & Hrm2 & Hfresh & Hslots & Hsame & (w & Hw)).
  assert (id_inv (base s)) as HI0.
  { split; [|intros r c Hc; by rewrite Hempty in Hc|intros r r' c c' Hc; by rewrite Hempty in Hc]. rewrite Hnew. unfold GetTotalTasksCount.
    assert (∀ th thread, threads (base s) !! th = Some thread → thread = []) as Hnil.
    { intros th [|c thread] Ht; [done|]. specialize (Hempty (th, 0)).
      unfold slot in Hempty. simpl in Hempty. by rewrite Ht in Hempty. }
    revert Hnil. generalize (threads (base s)). intros l Hnil. induction l as [|t l IH]; [done|].
    rewrite (Hnil 0 t eq_refl). apply IH. intros th. apply (Hnil (S th)). }
  destruct (run_loop_ids _ _ _ _ _ _ _ Hrun) as [_ HI1]. specialize (HI1 HI0 Hlt).
  assert (∀ r c2, slot (base s2) r = Some c2 → ∃ c, slot (base s1) r = Some c ∧ same_task c c2 ∧ fresh_coro c2) as Hback.
  { intros r c2 Hc2. destruct (proj1 (Hslots r)) as [c Hc]; [by eexists|]. exists c.
    split_and!; [done|by eapply Hsame|]. eapply Hfresh; [done|]. unfold IsTaskRemoved.
    rewrite Hrm2, Hrm. apply bool_decide_false. set_solver. }
  destruct (replay_run (base s1) (ids_unique _ HI1) inner1 inner2 fuel n ([], []) s (full, seq) s1 s2 ∅)
    as (suffix & ids & E & Hord & Hreplay); [done|by unfold part_of|done| | |].
  - split.
    + intros r c Hc. by rewrite Hempty in Hc.
    + intros r cf Hcf _. destruct (proj2 (Hslots r)) as [c2 Hc2]; [by eexists|].
      destruct (Hback r c2 Hc2) as (c & Hc & Hst & Hf). exists c2. split_and!; [done..|].
      apply same_task_call. by assert (cf = c) as -> by congruence.
    + intros r c2 Hc2. destruct (Hback r c2 Hc2) as (c & Hc & (Hi & _) & _). exists c. split; [done|]. by symmetry.
    + split; [by rewrite Hw, Hreset, Hinit|done].
  - intros id. split; [set_solver|]. intros (r & c & Hc & _). by rewrite Hempty in Hc.
  - simpl in E. subst suffix. destruct (Hreplay (count_resumes ids) (enough_count ids)) as [s3 H3]. eauto.
Qed.
End replay.
