(* ===== verification/Minimization.v ===== *)
(** * Minimization: greedy removal of tasks (minimization.h, minimization.cpp)

    A minimizer gets a history the checker rejected and tries to remove tasks
    from it, one by one and then in pairs, keeping a removal whenever
    [OnTasksRemoved] finds a rejected history without the tasks.
    [SameInterleavingMinimizor] replays the rest of the interleaving;
    [StrategyExplorationMinimizor] explores other interleavings. *)

From stdpp Require Import base gmap strings option list.
From S2P Require Import Prelude ValueWrapper History Linearizability Coro Strategy PickStrategy Scheduler Replay.

Section minimization.
Context `{HT : Target} `{HC : !Code} `{HV : StrategyVerifier} `{HS : !Strategy}.
Context `{HMC : ModelChecker}.
(** Fuel for the loops that run code under test. *)
Context (inner fuel : nat).

Local Abbreviation M := (stM St).

(** [GreedyRoundMinimizor::OnTasksRemoved], the ids being a set. *)
Definition OnTasksRemovedF : Type := BothHistories → gset Z → M Result.

(** [task.get()->GetId()] through a reference of the history. *)
Definition read_id (r : TaskRef) : M Z :=
  s ← st_get;
  c ← st_lift (or_fail (Undefined "dangling Task&") (slot (base s) r));
  mret (GetId c).

Definition set_removed (task_id : Z) (is_removed : bool) : M unit :=
  on_base (st_modify (SetTaskRemoved task_id is_removed)).

(** The tasks of the invocations (minimization.cpp:23-29). *)
Definition invoked_tasks (h : SeqHistory) : list TaskRef :=
  omap (λ e, match e with EInvoke inv => Some (inv_task inv) | EResponse _ => None end) h.

(** The first loop (minimization.cpp:33-45). *)
Fixpoint remove_single (OnTasksRemoved : OnTasksRemovedF) (tasks : list TaskRef) (h : BothHistories)
  : M BothHistories :=
  match tasks with
  | [] => mret h
  | task :: tasks =>
      task_id ← read_id task;
      s ← st_get;
      if IsTaskRemoved (base s) task_id then remove_single OnTasksRemoved tasks h
      else
        new_histories ← OnTasksRemoved h {[task_id]};
        match new_histories with
        | None => remove_single OnTasksRemoved tasks h
        | Some h' => _ ← set_removed task_id true; remove_single OnTasksRemoved tasks h'
        end
  end.

(** The inner loop of the second one, over the [j]s (minimization.cpp:53-76). *)
Fixpoint remove_with (OnTasksRemoved : OnTasksRemovedF) (task_i_id : Z) (tasks : list TaskRef)
    (h : BothHistories) : M BothHistories :=
  match tasks with
  | [] => mret h
  | task_j :: tasks =>
      task_j_id ← read_id task_j;
      s ← st_get;
      if IsTaskRemoved (base s) task_j_id then remove_with OnTasksRemoved task_i_id tasks h
      else
        new_histories ← OnTasksRemoved h {[task_i_id; task_j_id]};
        match new_histories with
        | None => remove_with OnTasksRemoved task_i_id tasks h
        | Some h' =>
            _ ← st_assert "new_histories.value().second.size() % 2 == 0"
                  (length h'.2 `mod` 2 =? 0);
            _ ← set_removed task_i_id true;
            _ ← set_removed task_j_id true;
            mret h'
        end
  end.

Fixpoint remove_pairs (OnTasksRemoved : OnTasksRemovedF) (tasks : list TaskRef) (h : BothHistories)
  : M BothHistories :=
  match tasks with
  | [] => mret h
  | task_i :: tasks =>
      task_i_id ← read_id task_i;
      s ← st_get;
      if IsTaskRemoved (base s) task_i_id then remove_pairs OnTasksRemoved tasks h
      else
        h ← remove_with OnTasksRemoved task_i_id tasks h;
        remove_pairs OnTasksRemoved tasks h
  end.

(** [GreedyRoundMinimizor::Minimize] (minimization.cpp:20-84). *)
Definition Greedy_Minimize (OnTasksRemoved : OnTasksRemovedF) (nonlinear_history : BothHistories)
  : M BothHistories :=
  let tasks := invoked_tasks nonlinear_history.2 in
  h ← remove_single OnTasksRemoved tasks nonlinear_history;
  h ← remove_pairs OnTasksRemoved tasks h;
  s ← st_get;
  ordering ← st_lift (GetTasksOrdering (base s) h.1 ∅);
  _ ← ReplayRound inner ordering;
  mret h.

(** [SameInterleavingMinimizor::OnTasksRemoved] (minimization.cpp:87-94). *)
Definition SameInterleaving_OnTasksRemoved : OnTasksRemovedF := λ h task_ids,
  s ← st_get;
  new_ordering ← st_lift (GetTasksOrdering (base s) h.1 task_ids);
  ReplayRound inner new_ordering.

(** [mark_tasks_as_removed] (minimization.cpp:104-108). *)
Fixpoint mark_tasks_as_removed (task_ids : list Z) (is_removed : bool) : M unit :=
  match task_ids with
  | [] => mret tt
  | id :: task_ids => _ ← set_removed id is_removed; mark_tasks_as_removed task_ids is_removed
  end.

(** [StrategyExplorationMinimizor::OnTasksRemoved] (minimization.cpp:100-117). *)
Definition StrategyExploration_OnTasksRemoved (runs : nat) : OnTasksRemovedF := λ h task_ids,
  _ ← mark_tasks_as_removed (elements task_ids) true;
  new_histories ← ExploreRound inner fuel runs;
  _ ← (match new_histories with
       | None => mark_tasks_as_removed (elements task_ids) false
       | Some _ => mret tt
       end);
  mret new_histories.

(** The interface [RoundMinimizor]: [Minimize], which modifies its argument;
    the scheduler is the state.  The greedy minimizers share [Minimize] and
    differ in [OnTasksRemoved]. *)
Definition RoundMinimizor : Type := BothHistories → M BothHistories.

Definition GreedyRoundMinimizor (OnTasksRemoved : OnTasksRemovedF) : RoundMinimizor :=
  Greedy_Minimize OnTasksRemoved.
Definition SameInterleavingMinimizor : RoundMinimizor :=
  GreedyRoundMinimizor SameInterleaving_OnTasksRemoved.
Definition StrategyExplorationMinimizor (runs : nat) : RoundMinimizor :=
  GreedyRoundMinimizor (StrategyExploration_OnTasksRemoved runs).

(** [SchedulerWithReplay::Minimize] (scheduler.h:469-472). *)
Definition Minimize (nonlinear_history : BothHistories) (minimizor : RoundMinimizor) : M BothHistories :=
  minimizor nonlinear_history.

(** ** The result is a rejected history *)

(** The checker answered [false] for the history. *)
Definition rejected (h : BothHistories) : Prop :=
  ∃ s : St, mc_Check (task_at (base s)) h.2 = Ok false.

Definition sound_removal (OnTasksRemoved : OnTasksRemovedF) : Prop :=
  ∀ h ids s h' s', OnTasksRemoved h ids s = Ok (Some h', s') → rejected h'.

Lemma check_histories_rejected h s h' s' :
  check_histories h s = Ok (Some h', s') → h' = h ∧ s' = s ∧ rejected h'.
Proof.
  unfold check_histories. rewrite st_get_bind. intros H.
  apply st_bind_Ok in H as (ok & s1 & [Hok ->]%st_lift_Ok & H).
  destruct ok; [done|]. injection H as <- <-. split_and!; [done..|by exists s].
Qed.

Lemma ReplayRound_rejected l s h' s' : ReplayRound inner l s = Ok (Some h', s') → rejected h'.
Proof.
  unfold ReplayRound. intros H. apply st_bind_Ok in H as (u & s1 & _ & H).
  apply st_bind_Ok in H as (h & s2 & _ & H). by apply check_histories_rejected in H as (_ & _ & ?).
Qed.

Lemma ExploreRound_rejected runs s h' s' : ExploreRound inner fuel runs s = Ok (Some h', s') → rejected h'.
Proof.
  revert s. induction runs as [|runs IH]; intros s H; cbn [ExploreRound] in H; [done|].
  apply st_bind_Ok in H as (r & s1 & H1 & H). destruct r as [h|]; [|by eapply IH].
  injection H as -> ->. unfold explore_once in H1. apply st_bind_Ok in H1 as (u & s2 & _ & H1).
  rewrite st_get_bind in H1. apply st_bind_Ok in H1 as (h & s3 & _ & H1).
  by apply check_histories_rejected in H1 as (_ & _ & ?).
Qed.

Lemma SameInterleaving_sound : sound_removal SameInterleaving_OnTasksRemoved.
Proof.
  intros h ids s h' s' H. unfold SameInterleaving_OnTasksRemoved in H. rewrite st_get_bind in H.
  apply st_bind_Ok in H as (l & s1 & _ & H). by eapply ReplayRound_rejected.
Qed.

Lemma StrategyExploration_sound runs : sound_removal (StrategyExploration_OnTasksRemoved runs).
Proof.
  intros h ids s h' s' H. unfold StrategyExploration_OnTasksRemoved in H.
  apply st_bind_Ok in H as (u & s1 & _ & H). apply st_bind_Ok in H as (r & s2 & H2 & H).
  apply st_bind_Ok in H as (u1 & s3 & _ & H). injection H as -> _. by eapply ExploreRound_rejected.
Qed.

Section greedy.
Context (OnTasksRemoved : OnTasksRemovedF).

(** Every step of the greedy minimizer keeps [P], when accepting a removal
    establishes it again. *)
Section keeps.
Context (P : BothHistories → St → Prop).
Context (Hsingle : ∀ h id s r s', P h s → IsTaskRemoved (base s) id = false →
  OnTasksRemoved h {[id]} s = Ok (r, s') →
  match r with None => P h s' | Some h' => P h' (set_base (SetTaskRemoved id true (base s')) s') end).
Context (Hpair : ∀ h i j s r s', P h s → IsTaskRemoved (base s) j = false →
  OnTasksRemoved h {[i; j]} s = Ok (r, s') →
  match r with
  | None => P h s'
  | Some h' =>
      let s2 := set_base (SetTaskRemoved i true (base s')) s' in
      P h' (set_base (SetTaskRemoved j true (base s2)) s2)
  end).

Lemma read_id_Ok r s id s' :
  read_id r s = Ok (id, s') → s' = s ∧ ∃ c, slot (base s) r = Some c ∧ id = GetId c.
Proof.
  unfold read_id. rewrite st_get_bind. intros H.
  apply st_bind_Ok in H as (c & s1 & [Hc%or_fail_Ok ->]%st_lift_Ok & H). inv_st H. eauto.
Qed.

Lemma set_removed_Ok id b s u s' :
  set_removed id b s = Ok (u, s') → s' = set_base (SetTaskRemoved id b (base s)) s.
Proof. unfold set_removed, on_base. simpl. congruence. Qed.

Lemma remove_single_keeps tasks h s h' s' :
  remove_single OnTasksRemoved tasks h s = Ok (h', s') → P h s → P h' s'.
Proof.
  revert h s. induction tasks as [|t tasks IH]; intros h s H HP; cbn [remove_single] in H; [by inv_st H|].
  apply st_bind_Ok in H as (id & s1 & [-> _]%read_id_Ok & H). rewrite st_get_bind in H.
  destruct (IsTaskRemoved (base s) id) eqn:Hrm; [by eapply IH|].
  apply st_bind_Ok in H as (r & s2 & H2 & H). pose proof (Hsingle _ _ _ _ _ HP Hrm H2) as HP2.
  destruct r as [h2|]; [|by eapply IH].
  apply st_bind_Ok in H as (u & s3 & ->%set_removed_Ok & H). by eapply IH.
Qed.

Lemma remove_with_keeps i tasks h s h' s' :
  remove_with OnTasksRemoved i tasks h s = Ok (h', s') → P h s → P h' s'.
Proof.
  revert h s. induction tasks as [|t tasks IH]; intros h s H HP; cbn [remove_with] in H; [by inv_st H|].
  apply st_bind_Ok in H as (id & s1 & [-> _]%read_id_Ok & H). rewrite st_get_bind in H.
  destruct (IsTaskRemoved (base s) id) eqn:Hrm; [by eapply IH|].
  apply st_bind_Ok in H as (r & s2 & H2 & H). pose proof (Hpair _ _ _ _ _ _ HP Hrm H2) as HP2.
  destruct r as [h2|]; [|by eapply IH].
  apply st_bind_Ok in H as (u & s3 & [_ ->]%st_assert_Ok & H).
  apply st_bind_Ok in H as (u1 & s4 & ->%set_removed_Ok & H).
  apply st_bind_Ok in H as (u2 & s5 & ->%set_removed_Ok & H). by inv_st H.
Qed.

Lemma remove_pairs_keeps tasks h s h' s' :
  remove_pairs OnTasksRemoved tasks h s = Ok (h', s') → P h s → P h' s'.
Proof.
  revert h s. induction tasks as [|t tasks IH]; intros h s H HP; cbn [remove_pairs] in H; [by inv_st H|].
  apply st_bind_Ok in H as (id & s1 & [-> _]%read_id_Ok & H). rewrite st_get_bind in H.
  destruct (IsTaskRemoved (base s) id) eqn:Hrm; [by eapply IH|].
  apply st_bind_Ok in H as (h2 & s2 & H2%remove_with_keeps & H); [|done]. by eapply IH.
Qed.

(** What holds when the last replay starts. *)
Lemma Greedy_Minimize_keeps h s h' s' :
  Greedy_Minimize OnTasksRemoved h s = Ok (h', s') → P h s →
  ∃ s1 l r, P h' s1 ∧ GetTasksOrdering (base s1) h'.1 ∅ = Ok l ∧ ReplayRound inner l s1 = Ok (r, s').
Proof.
  unfold Greedy_Minimize. cbv zeta. intros H HP.
  apply st_bind_Ok in H as (h1 & s1 & H1%remove_single_keeps & H); [|done].
  apply st_bind_Ok in H as (h2 & s2 & H2%remove_pairs_keeps & H); [|done].
  rewrite st_get_bind in H. apply st_bind_Ok in H as (l & s3 & [Hl ->]%st_lift_Ok & H).
  apply st_bind_Ok in H as (r & s4 & H4 & H). inv_st H. eauto 10.
Qed.
End keeps.

Lemma Greedy_Minimize_rejects h s h' s' :
  sound_removal OnTasksRemoved → Greedy_Minimize OnTasksRemoved h s = Ok (h', s') →
  rejected h → rejected h'.
Proof.
  intros Hs H Hr. destruct (Greedy_Minimize_keeps (λ h _, rejected h)) with (h := h) (s := s) (h' := h') (s' := s')
    as (_ & _ & _ & HP & _); try done.
  - intros h1 id s1 r s2 HP _ H1. destruct r as [h2|]; [|done]. by eapply Hs.
  - intros h1 i j s1 r s2 HP _ H1. destruct r as [h2|]; [|done]. by eapply Hs.
Qed.
End greedy.

(** What every minimizer promises to the scheduler: from a history that the
    checker rejected it makes one that the checker rejected. *)
Class SoundMinimizor (minimizor : RoundMinimizor) : Prop :=
  Minimize_rejected h s h' s' : Minimize h minimizor s = Ok (h', s') → rejected h → rejected h'.

#[global] Instance SameInterleavingMinimizor_sound : SoundMinimizor SameInterleavingMinimizor.
Proof. intros h s h' s'. apply Greedy_Minimize_rejects, SameInterleaving_sound. Qed.

#[global] Instance StrategyExplorationMinimizor_sound runs : SoundMinimizor (StrategyExplorationMinimizor runs).
Proof. intros h s h' s'. apply Greedy_Minimize_rejects, StrategyExploration_sound. Qed.

(** One minimizer after the other. *)
Lemma then_sound m1 m2 : SoundMinimizor m1 → SoundMinimizor m2 → SoundMinimizor (λ h, h1 ← Minimize h m1; m2 h1).
Proof.
  intros H1 H2 h s h' s' H Hr. apply st_bind_Ok in H as (h1 & s1 & Hm1 & Hm2).
  eapply H2; [exact Hm2|]. eapply H1; [exact Hm1|exact Hr].
Qed.

(** ** What is removed *)

Definition id_at (b : BaseStrategy) (r : TaskRef) : option Z := GetId <$> slot b r.

(** The same tasks in the same slots, and the same ones removed. *)
Definition same_round (b b' : BaseStrategy) : Prop :=
  (∀ r, id_at b' r = id_at b r) ∧ removed_tasks b' = removed_tasks b.

#[local] Instance same_round_preorder : PreOrder same_round.
Proof.
  split; [done|]. intros b1 b2 b3 [H1 E1] [H2 E2]. split; [|congruence]. intros r. by rewrite H2, H1.
Qed.

Lemma evolves_same_round b b' : evolves b b' → same_round b b'.
Proof.
  intros Hev. split; [|by apply ev_removed]. intros r. unfold id_at.
  destruct (slot b r) as [c|] eqn:Hc.
  - destruct (evolves_slot _ _ _ _ Hev Hc) as (c' & -> & (Hid & _) & _). simpl. f_equal. exact Hid.
  - destruct (slot b' r) as [c'|] eqn:Hc'; [|done].
    destruct (evolves_slot_inv _ _ _ _ Hev Hc') as (c & Hc2 & _). congruence.
Qed.

Lemma reset_same_round n b u b' : base_ResetCurrentRound n b = Ok (u, b') → same_round b b'.
Proof.
  intros (_ & Hrm & _ & Hslots & Hsame & _)%base_ResetCurrentRound_Ok. split; [|done].
  intros r. unfold id_at. destruct (slot b r) as [c|] eqn:Hc.
  - destruct (proj2 (Hslots r)) as [c' Hc']; [by eexists|]. rewrite Hc'. simpl. f_equal.
    destruct (Hsame r c c' Hc Hc') as (Hid & _). exact Hid.
  - destruct (slot b' r) as [c'|] eqn:Hc'; [|done].
    destruct (proj1 (Hslots r)) as [c Hc2]; [by eexists|]. congruence.
Qed.

(** The ids of the entries of a full history. *)
Definition has_ids (b : BaseStrategy) (full : FullHistory) (ids : list Z) : Prop :=
  Forall2 (λ r id, id_at b r = Some id) full ids.

Lemma has_ids_same b b' full ids : same_round b b' → has_ids b full ids → has_ids b' full ids.
Proof. intros [H _] Hf. eapply Forall2_impl; [exact Hf|]. intros r id. simpl. by rewrite H. Qed.

Lemma has_ids_fun b full ids ids' : has_ids b full ids → has_ids b full ids' → ids = ids'.
Proof.
  intros H. revert ids'. induction H as [|r id full ids Hr _ IH]; intros ids' H'; inversion H'; subst; [done|].
  f_equal; [congruence|by apply IH].
Qed.

(** The entries that are left when the tasks of [X] are taken out. *)
Definition without (X : gset Z) (ids : list Z) : list Z := filter (λ id, id ∉ X) ids.

Lemma without_empty ids : without ∅ ids = ids.
Proof. unfold without. induction ids as [|x ids IH]; [done|]. rewrite filter_cons, decide_True by set_solver. by f_equal. Qed.

Lemma without_union X Y ids : without X (without Y ids) = without (X ∪ Y) ids.
Proof.
  unfold without. rewrite list_filter_filter. apply list_filter_iff. set_solver.
Qed.

Lemma GetTasksOrdering_Ok b full X l :
  GetTasksOrdering b full X = Ok l → ∃ ids, has_ids b full ids ∧ l = without X ids.
Proof.
  revert l. induction full as [|r full IH]; intros l H; cbn [GetTasksOrdering] in H.
  { injection H as <-. exists []. split; [constructor|done]. }
  apply bind_Ok in H as (c & Hc%or_fail_Ok & H). apply bind_Ok in H as (rest & Hrest & H).
  apply IH in Hrest as (ids & Hids & ->). exists (GetId c :: ids). split.
  - constructor; [|done]. unfold id_at. by rewrite Hc.
  - injection H as <-. unfold without. rewrite filter_cons.
    destruct (bool_decide_reflect (GetId c ∈ X)).
    + by rewrite decide_False by auto.
    + by rewrite decide_True.
Qed.

Lemma on_base_get `{HL : !StrategyLaws} {A} (m : stM BaseStrategy A) (s : St) a s' :
  on_base m s = Ok (a, s') → m (base s) = Ok (a, base s').
Proof. intros (b & Hm & ->)%on_base_Ok. by rewrite base_set_base. Qed.

Section laws.
Context `{HL : !StrategyLaws}.

Lemma replay_loop_ids l started rc h s h1 s1 :
  enough rc l → replay_loop inner l started rc h s = Ok (h1, s1) →
  same_round (base s) (base s1) ∧ ∃ rs, h1.1 = h.1 ++ rs ∧ has_ids (base s) rs l.
Proof.
  revert started rc h s. induction l as [|id l IH]; intros started rc h s Hen H; cbn [replay_loop] in H.
  { inv_st H. split; [reflexivity|]. exists []. rewrite app_nil_r. split; [done|constructor]. }
  cbv zeta in H. rewrite st_get_bind in H.
  pose proof (GetTask_Ok (base s) id) as HG. destruct (GetTask (base s) id) as [[r th]|]; [|done].
  destruct HG as (c & Hc & Hid & _).
  assert (id_at (base s) r = Some id) as Hr by (unfold id_at; rewrite Hc; simpl; congruence).
  apply st_bind_Ok in H as (already & s2 & H2%on_base_get & H).
  apply task_IsReturned_Ok in H2 as (_ & _ & _ & E2).
  assert (∀ rc' h' s3, same_round (base s) (base s3) → enough rc' l → h'.1 = h.1 ++ [r] →
    replay_loop inner l ({[id]} ∪ started) rc' h' s3 = Ok (h1, s1) →
    same_round (base s) (base s1) ∧ ∃ rs, h1.1 = h.1 ++ rs ∧ has_ids (base s) rs (id :: l)) as Hrec.
  { intros rc' h' s3 Hs3 Hen' Eh H3. apply IH in H3 as (Hs & rs & E & Hrs); [|done].
    split; [by etransitivity|]. exists (r :: rs).
    split; [rewrite E; etransitivity; [exact (f_equal (λ x, x ++ rs) Eh)|by rewrite <-app_assoc]|].
    constructor; [done|]. eapply Forall2_impl; [exact Hrs|]. intros r' id'. simpl. by rewrite (proj1 Hs3). }
  destruct already.
  { eapply Hrec; [|by eapply enough_skip| |exact H]; [by rewrite E2|done]. }
  apply st_bind_Ok in H as (rc' & s3 & H3 & H). rewrite (replay_resume_enough _ _ _ _ _ _ Hen) in H3.
  apply st_bind_Ok in H3 as (u & s4 & H4%on_base_get%task_Resume_evolves & H3). inv_st H3.
  rewrite E2 in H4. apply evolves_same_round in H4.
  apply st_bind_Ok in H as (returned & s5 & H5%on_base_get & H).
  apply task_IsReturned_Ok in H5 as (_ & _ & _ & E5). destruct returned.
  - apply st_bind_Ok in H as (v & s6 & H6%on_base_get & H).
    apply task_GetRetVal_Ok in H6 as (_ & _ & _ & _ & E6).
    eapply Hrec; [|by eapply enough_visit| |exact H]; [by rewrite E6, E5|done].
  - eapply Hrec; [|by eapply enough_visit| |exact H]; [by rewrite E5|done].
Qed.

Lemma ReplayRound_ids l s r s' :
  ReplayRound inner l s = Ok (r, s') →
  same_round (base s) (base s') ∧ ∀ h, r = Some h → has_ids (base s') h.1 l.
Proof.
  unfold ReplayRound. intros H.
  apply st_bind_Ok in H as (u & s1 & H1%ResetCurrentRound_contract%reset_same_round & H).
  apply st_bind_Ok in H as (h1 & s2 & H2 & H).
  apply replay_loop_ids in H2 as (Hs & rs & E & Hrs); [|apply enough_count]. simpl in E.
  unfold check_histories in H. rewrite st_get_bind in H.
  apply st_bind_Ok in H as (ok & s3 & [_ ->]%st_lift_Ok & H). inv_st H.
  split; [by etransitivity|]. intros h Hh. destruct ok; [done|]. injection Hh as <-.
  by eapply has_ids_same.
Qed.

Lemma SameInterleaving_Ok h ids task_ids s r s' :
  has_ids (base s) h.1 ids →
  SameInterleaving_OnTasksRemoved h task_ids s = Ok (r, s') →
  same_round (base s) (base s') ∧
  ∀ h', r = Some h' → has_ids (base s') h'.1 (without task_ids ids).
Proof.
  intros Hids H. unfold SameInterleaving_OnTasksRemoved in H. rewrite st_get_bind in H.
  apply st_bind_Ok in H as (l & s1 & [Hl ->]%st_lift_Ok & H).
  apply GetTasksOrdering_Ok in Hl as (ids' & Hids' & ->).
  rewrite (has_ids_fun _ _ _ _ Hids' Hids) in H.
  apply ReplayRound_ids in H. exact H.
Qed.

(** Removing tasks with the same interleaving deletes exactly their
    entries: the full history it returns visits the tasks that the old one
    visits, in the same order, without the removed ones. *)
Theorem SameInterleaving_filters h ids task_ids s h' s' :
  has_ids (base s) h.1 ids →
  SameInterleaving_OnTasksRemoved h task_ids s = Ok (Some h', s') →
  has_ids (base s') h'.1 (without task_ids ids).
Proof. intros Hids H. destruct (SameInterleaving_Ok _ _ _ _ _ _ Hids H) as [_ H']. by apply H'. Qed.

Lemma same_round_set_removed id b (s : St) r :
  id_at (base (set_base (SetTaskRemoved id b (base s)) s)) r = id_at (base s) r.
Proof. by rewrite base_set_base. Qed.

(** C26: The greedy minimizer with the same interleaving deletes tasks and
    nothing else: the full history it ends with is the original one without
    the entries of the tasks that are marked as removed in the end. *)
Theorem Minimize_same_interleaving h ids s h' s' :
  has_ids (base s) h.1 ids → without (removed_tasks (base s)) ids = ids →
  Greedy_Minimize SameInterleaving_OnTasksRemoved h s = Ok (h', s') →
  has_ids (base s') h'.1 (without (removed_tasks (base s')) ids) ∧
  removed_tasks (base s) ⊆ removed_tasks (base s') ∧ (∀ r, id_at (base s') r = id_at (base s) r).
Proof.
  intros Hids Hnone H.
  destruct (Greedy_Minimize_keeps SameInterleaving_OnTasksRemoved
    (λ h1 s1, has_ids (base s1) h1.1 (without (removed_tasks (base s1)) ids) ∧
      removed_tasks (base s) ⊆ removed_tasks (base s1) ∧ ∀ r, id_at (base s1) r = id_at (base s) r))
    with (h := h) (s := s) (h' := h') (s' := s') as (s1 & l & r & (Hh & Hrm & Hid) & Hl & HR); try done.
  - intros h1 id s1 r s2 (Hh & Hrm & Hid) _ H1.
    destruct (SameInterleaving_Ok _ _ _ _ _ _ Hh H1) as [Hs Hr].
    destruct r as [h2|].
    + rewrite base_set_base. simpl. rewrite (proj2 Hs). specialize (Hr h2 eq_refl).
      rewrite without_union in Hr. split_and!; [exact Hr|set_solver|].
      intros r. change (id_at (base s2) r = id_at (base s) r). by rewrite (proj1 Hs), Hid.
    + rewrite (proj2 Hs). split_and!; [by eapply has_ids_same|done|]. intros r. by rewrite (proj1 Hs), Hid.
  - intros h1 i j s1 r s2 (Hh & Hrm & Hid) _ H1.
    destruct (SameInterleaving_Ok _ _ _ _ _ _ Hh H1) as [Hs Hr].
    destruct r as [h2|].
    + cbv zeta. rewrite !base_set_base. simpl. rewrite (proj2 Hs). specialize (Hr h2 eq_refl).
      rewrite without_union in Hr.
      assert ({[j]} ∪ ({[i]} ∪ removed_tasks (base s1)) = {[i; j]} ∪ removed_tasks (base s1)) as -> by set_solver.
      split_and!; [exact Hr|set_solver|].
      intros r. change (id_at (base s2) r = id_at (base s) r). by rewrite (proj1 Hs), Hid.
    + rewrite (proj2 Hs). split_and!; [by eapply has_ids_same|done|]. intros r. by rewrite (proj1 Hs), Hid.
  - rewrite Hnone. by split_and!.
  - apply ReplayRound_ids in HR as [Hs _]. rewrite (proj2 Hs).
    split_and!; [by eapply has_ids_same|done|]. intros u. by rewrite (proj1 Hs), Hid.
Qed.

(** ** Exploring with tasks marked *)

Lemma mark_tasks_Ok ids b s u s' :
  mark_tasks_as_removed ids b s = Ok (u, s') →
  (∀ r, id_at (base s') r = id_at (base s) r) ∧
  removed_tasks (base s') =
    if b then list_to_set ids ∪ removed_tasks (base s) else removed_tasks (base s) ∖ list_to_set ids.
Proof.
  revert s. induction ids as [|id ids IH]; intros s H; cbn [mark_tasks_as_removed] in H.
  { inv_st H. split; [done|]. destruct b; set_solver. }
  apply st_bind_Ok in H as (u1 & s1 & ->%set_removed_Ok & H). apply IH in H as [Hid Hrm].
  rewrite base_set_base in Hid, Hrm. split; [exact Hid|]. rewrite Hrm. destruct b; simpl; set_solver.
Qed.

Lemma explore_loop_same n m h s h' s' :
  explore_loop n m h s = Ok (h', s') → same_round (base s) (base s').
Proof.
  revert m h s. induction n as [|n IH]; intros [|m] h s H; cbn [explore_loop] in H; try done; try by inv_st H.
  apply st_bind_Ok in H as ([fin h1] & s1 & H1 & H). apply IH in H. etransitivity; [|exact H].
  unfold explore_step in H1.
  apply st_bind_Ok in H1 as (t & s2 & [_ _ _ _ E]%NextSchedule_contract & H1).
  apply st_bind_Ok in H1 as (u & s3 & H3%on_base_get%task_Resume_evolves%evolves_same_round & H1).
  apply st_bind_Ok in H1 as (ret & s4 & H4%on_base_get & H1).
  apply task_IsReturned_Ok in H4 as (_ & _ & _ & E4).
  rewrite E in H3. destruct ret.
  - apply st_bind_Ok in H1 as (v & s5 & H5%on_base_get & H1).
    apply task_GetRetVal_Ok in H5 as (_ & _ & _ & _ & E5). inv_st H1. rewrite E5, E4. exact H3.
  - inv_st H1. rewrite E4. exact H3.
Qed.

Lemma ExploreRound_same runs s r s' :
  ExploreRound inner fuel runs s = Ok (r, s') → same_round (base s) (base s').
Proof.
  revert s. induction runs as [|runs IH]; intros s H; cbn [ExploreRound] in H; [by inv_st H|].
  apply st_bind_Ok in H as (r1 & s1 & H1 & H).
  assert (same_round (base s) (base s1)) as Hs1.
  { unfold explore_once in H1.
    apply st_bind_Ok in H1 as (u & s2 & H2%ResetCurrentRound_contract%reset_same_round & H1).
    rewrite st_get_bind in H1. apply st_bind_Ok in H1 as (h & s3 & H3%explore_loop_same & H1).
    unfold check_histories in H1. rewrite st_get_bind in H1.
    apply st_bind_Ok in H1 as (ok & s4 & [_ ->]%st_lift_Ok & H1). inv_st H1. by etransitivity. }
  destruct r1 as [h|]; [by inv_st H|]. etransitivity; [exact Hs1|by apply IH].
Qed.

(** The exploring minimizer leaves the tasks marked as removed exactly when
    it returns a history: after a failed attempt the marks are as before. *)
Theorem StrategyExploration_marks runs h task_ids s r s' :
  task_ids ## removed_tasks (base s) →
  StrategyExploration_OnTasksRemoved runs h task_ids s = Ok (r, s') →
  (∀ u, id_at (base s') u = id_at (base s) u) ∧
  removed_tasks (base s') =
    match r with
    | Some _ => task_ids ∪ removed_tasks (base s)
    | None => removed_tasks (base s)
    end.
Proof.
  intros Hdisj H. unfold StrategyExploration_OnTasksRemoved in H.
  apply st_bind_Ok in H as (u & s1 & [Hid1 Hrm1]%mark_tasks_Ok & H).
  apply st_bind_Ok in H as (r1 & s2 & [Hid2 Hrm2]%ExploreRound_same & H).
  apply st_bind_Ok in H as (u2 & s3 & H3 & H). injection H as -> ->.
  rewrite list_to_set_elements_L in Hrm1. destruct r as [h'|].
  - inv_st H3. split; [intros x; by rewrite Hid2, Hid1|]. by rewrite Hrm2, Hrm1.
  - apply mark_tasks_Ok in H3 as [Hid3 Hrm3]. rewrite list_to_set_elements_L in Hrm3.
    split; [intros x; by rewrite Hid3, Hid2, Hid1|]. rewrite Hrm3, Hrm2, Hrm1. set_solver.
Qed.
End laws.
End minimization.
