(* ===== verification/Smart.v ===== *)
(** * Smart: minimizing with a genetic algorithm (minimization_smart.h, minimization_smart.cpp)

    [SmartMinimizor] keeps a population of [Solution]s: rounds with some tasks
    removed, and a rejected history of each.  It crosses and mutates the best
    two, explores what comes out, and keeps what it finds.

    The fitness is computed in floating point as in the code: [double]s and
    [float]s are the binary formats of [SpecFloat].  The order in which the
    unordered containers are iterated is unspecified, so such a container is a
    list in its iteration order, and where a new element lands is the parameter
    [arrange]. *)

From stdpp Require Import base gmap strings option list.
From Stdlib Require Import ZArith SpecFloat.
From S2P Require Import Prelude ValueWrapper History Linearizability Coro Strategy PickStrategy Scheduler Replay Minimization.

(** ** Floating point *)

Definition double_of_int (z : Z) : spec_float := binary_normalize 53 1024 z 0 false.

(** Conversions between the formats, rounding to nearest. *)
Definition convert (prec emax : Z) (f : spec_float) : spec_float :=
  match f with
  | S754_finite s m e => binary_normalize prec emax (if s then Z.neg m else Z.pos m) e s
  | _ => f
  end.
Definition to_float : spec_float → spec_float := convert 24 128.
Definition to_double : spec_float → spec_float := convert 53 1024.

Definition dadd : spec_float → spec_float → spec_float := SFadd 53 1024.
Definition dsub : spec_float → spec_float → spec_float := SFsub 53 1024.
Definition ddiv : spec_float → spec_float → spec_float := SFdiv 53 1024.
Definition fmul : spec_float → spec_float → spec_float := SFmul 24 128.

(** [eps = 0.0001] as a [float], [0.95] as a [double], [p = 0.5]. *)
Definition eps : spec_float := to_float (ddiv (double_of_int 1) (double_of_int 10000)).
Definition mutation_probability : spec_float := ddiv (double_of_int 95) (double_of_int 100).
Definition p : spec_float := ddiv (double_of_int 1) (double_of_int 2).

(** [x >= 0.0 && x <= 1.0] for a [float]. *)
Definition in_unit (x : spec_float) : bool :=
  SFleb (double_of_int 0) (to_double x) && SFleb (to_double x) (double_of_int 1).

Definition tasks_fitness (valid_tasks total_tasks : Z) : spec_float :=
  to_float (dsub (double_of_int 1) (ddiv (double_of_int valid_tasks) (double_of_int total_tasks))).
Definition threads_fitness (threads total_threads : Z) : spec_float :=
  to_float (dsub (dadd (to_double eps) (double_of_int 1))
                 (ddiv (double_of_int threads) (double_of_int total_threads))).

(** [std::uniform_real_distribution<double> dist{0.0, 1.0}]. *)
Class RealRng `{Rng} := dist : rng → spec_float * rng.

(** Where an unordered container puts a new element. *)
Class Unordered := { arrange : ∀ {A : Type}, list A → A → list A }.
Class UnorderedLaws `{Unordered} : Prop := { arrange_perm {A} (l : list A) x : arrange l x ≡ₚ x :: l }.

(** [std::unordered_map<int, std::unordered_set<int>>]: ids per thread. *)
Definition TaskMap : Type := list (Z * list Z).

Section taskmap.
Context `{HU : Unordered}.

(** [at], [contains], [size], and [m[key] = v] for a new [key]. *)
Fixpoint map_at (key : Z) (m : TaskMap) : option (list Z) :=
  match m with
  | [] => None
  | (k, v) :: m => if (k =? key)%Z then Some v else map_at key m
  end.
Definition map_contains (key : Z) (m : TaskMap) : bool := match map_at key m with Some _ => true | None => false end.
Definition set_contains (x : Z) (s : list Z) : bool := existsb (Z.eqb x) s.
Definition map_assign (key : Z) (v : list Z) (m : TaskMap) : TaskMap :=
  if map_contains key m then (λ e, if (e.1 =? key)%Z then (key, v) else e) <$> m else arrange m (key, v).

(** [s.insert(x)] and [m[key].insert(x)]. *)
Definition set_insert (x : Z) (s : list Z) : list Z := if set_contains x s then s else arrange s x.
Definition map_insert (key x : Z) (m : TaskMap) : TaskMap :=
  map_assign key (set_insert x (default [] (map_at key m))) m.
End taskmap.

(** [SmartMinimizor::Solution]. *)
Record Solution := mk_Solution {
  tasks : TaskMap;
  nonlinear_histories : BothHistories;
  fitness : spec_float;
  valid_tasks : Z;
}.

Definition GetFitness (s : Solution) : spec_float := fitness s.
Definition GetValidTasks (s : Solution) : Z := valid_tasks s.

(** [std::multiset<Solution, SolutionSorter>]: the biggest fitness first, equal
    ones in the order of insertion. *)
Definition SolutionSorter (a b : Solution) : bool := SFltb (GetFitness b) (GetFitness a).

Fixpoint population_insert (x : Solution) (pop : list Solution) : list Solution :=
  match pop with
  | [] => [x]
  | y :: pop' => if SolutionSorter x y then x :: pop else y :: population_insert x pop'
  end.

(** The constructor parameters. *)
Record SmartParams := mk_SmartParams {
  exploration_runs : nat;
  minimization_runs : nat;
  max_offsprings_per_generation : nat;
  offsprings_generation_attemps : nat;
}.
Definition max_population_size : nat := 2.
(** [SmartMinimizor(exploration_runs, minimization_runs, pretty_printer)], with the
    defaults of the other parameters. *)
Definition default_params (exploration_runs minimization_runs : nat) : SmartParams :=
  mk_SmartParams exploration_runs minimization_runs 5 10.
Definition initial_mutations_count : Z := 10.

(** The mutable members. *)
Record SmartState `{Rng} := mk_Smart {
  mutations_count : Z;
  total_tasks : Z;
  population : list Solution;
  smart_rng : rng;
}.
Arguments SmartState : clear implicits.
Arguments SmartState {_}.
Arguments mk_Smart {_} _ _ _ _.

Section smart.
Context `{HT : Target} `{HC : !Code} `{HV : StrategyVerifier} `{HS : !Strategy}.
Context `{HMC : ModelChecker} `{HR : Rng} `{HRR : !RealRng} `{HU : Unordered}.
(** Fuel for the loops that run code under test. *)
Context (inner fuel : nat) (params : SmartParams).

Local Abbreviation M := (stM (SmartState * St)).

Definition on_sched {A} (m : stM St A) : M A :=
  λ '(x, s), '(a, s) ← m s; Ok (a, (x, s)).
Definition on_smart {A} (m : stM SmartState A) : M A :=
  λ '(x, s), '(a, x) ← m x; Ok (a, (x, s)).

Definition with_mutations (n : Z) (x : SmartState) : SmartState :=
  mk_Smart n (total_tasks x) (population x) (smart_rng x).
Definition with_total (n : Z) (x : SmartState) : SmartState :=
  mk_Smart (mutations_count x) n (population x) (smart_rng x).
Definition with_population (l : list Solution) (x : SmartState) : SmartState :=
  mk_Smart (mutations_count x) (total_tasks x) l (smart_rng x).
Definition with_smart_rng (g : rng) (x : SmartState) : SmartState :=
  mk_Smart (mutations_count x) (total_tasks x) (population x) g.

(** A draw from the generator. *)
Definition draw {A} (d : rng → A * rng) : stM SmartState A :=
  x ← st_get; let '(a, g) := d (smart_rng x) in _ ← st_put (with_smart_rng g x); mret a.

(** ** [Solution::Solution] (minimization_smart.cpp:197-235) *)

(** The valid tasks of a thread, and of all of them. *)
Fixpoint collect_thread (b : BaseStrategy) (i : Z) (thread : list CoroBase) (acc : TaskMap * Z) : TaskMap * Z :=
  match thread with
  | [] => acc
  | c :: thread =>
      collect_thread b i thread
        (if IsTaskRemoved b (GetId c) then acc else (map_insert i (GetId c) acc.1, (acc.2 + 1)%Z))
  end.

Fixpoint collect_valid (b : BaseStrategy) (i : Z) (ths : list (list CoroBase)) (acc : TaskMap * Z) : TaskMap * Z :=
  match ths with
  | [] => acc
  | thread :: ths => collect_valid b (i + 1) ths (collect_thread b i thread acc)
  end.

Definition make_solution (b : BaseStrategy) (histories : BothHistories) (total : Z) : outcome Solution :=
  let total_threads := Z.of_nat (GetThreadsCount b) in
  let '(ts, valid) := collect_valid b 0 (threads b) ([], 0%Z) in
  let tf := tasks_fitness valid total in
  let hf := threads_fitness (Z.of_nat (length ts)) total_threads in
  _ ← assert "tasks_fitness >= 0.0 && tasks_fitness <= 1.0" (in_unit tf);
  _ ← assert "threads_fitness >= 0.0 && threads_fitness <= 1.0" (in_unit hf);
  Ok (mk_Solution ts histories (fmul tf hf) valid).

(** ** Mutation and crossing (minimization_smart.cpp:69-90, 165-194) *)

(** [container.erase(std::next(begin, index))]. *)
Definition erase_at {A} (index : nat) (l : list A) : list A := take index l ++ drop (S index) l.

Definition DropRandomTask (threads : TaskMap) : stM SmartState TaskMap :=
  match threads with
  | [] => mret threads
  | _ :: _ =>
      thread_index ← draw (uniform_int 0 (Z.of_nat (length threads) - 1));
      '(key, ids) ← st_lift (or_fail (OutOfRange "std::next") (threads !! Z.to_nat thread_index));
      match ids with
      | [] => mret threads
      | _ :: _ =>
          if (length ids =? 1) && (length threads =? 2) then mret threads
          else
            task_index ← draw (uniform_int 0 (Z.of_nat (length ids) - 1));
            mret (<[Z.to_nat thread_index := (key, erase_at (Z.to_nat task_index) ids)]> threads)
      end
  end.

Fixpoint cross (p2 : TaskMap) (p1 : TaskMap) (new_threads : TaskMap) : stM SmartState TaskMap :=
  match p1 with
  | [] => mret new_threads
  | (thread_id, task_ids) :: p1 =>
      task_ids ←
        (match map_at thread_id p2 with
         | Some other =>
             d ← draw dist;
             mret (if SFleb p d then other else task_ids)
         | None => mret task_ids
         end);
      cross p2 p1 (map_assign thread_id task_ids new_threads)
  end.

Definition CrossProduct (p1 p2 : Solution) : stM SmartState TaskMap :=
  let '(p1, p2) := if length (tasks p2) <=? length (tasks p1) then (p2, p1) else (p1, p2) in
  cross (tasks p2) (tasks p1) [].

(** ** [RemoveInvalidTasks] (minimization_smart.cpp:145-163) *)

Definition valid_in (valid_threads : TaskMap) (thread_id task_id : Z) : bool :=
  match map_at thread_id valid_threads with
  | Some ids => set_contains task_id ids
  | None => false
  end.

Fixpoint remove_in_thread (valid_threads : TaskMap) (thread_id : Z) (thread : list CoroBase) : stM BaseStrategy unit :=
  match thread with
  | [] => mret tt
  | c :: thread =>
      _ ← st_modify (SetTaskRemoved (GetId c) (negb (valid_in valid_threads thread_id (GetId c))));
      remove_in_thread valid_threads thread_id thread
  end.

Fixpoint remove_in_threads (valid_threads : TaskMap) (thread_id : Z) (ths : list (list CoroBase)) : stM BaseStrategy unit :=
  match ths with
  | [] => mret tt
  | thread :: ths =>
      _ ← remove_in_thread valid_threads thread_id thread;
      remove_in_threads valid_threads (thread_id + 1) ths
  end.

Definition RemoveInvalidTasks (valid_threads : TaskMap) : stM BaseStrategy unit :=
  b ← st_get; remove_in_threads valid_threads 0 (threads b).

(** ** [GenerateOffsprings] (minimization_smart.cpp:92-143) *)

(** The mutations of one attempt, [m] of them left. *)
Fixpoint mutate (m : nat) (new_threads : TaskMap) : stM SmartState TaskMap :=
  match m with
  | 0 => mret new_threads
  | S m =>
      x ← st_get;
      apply ← (if (1 <? mutations_count x)%Z then mret true
               else d ← draw dist; mret (SFltb d mutation_probability));
      new_threads ← (if (apply : bool) then DropRandomTask new_threads else mret new_threads);
      mutate m new_threads
  end.

(** The attempts at one offspring. *)
Fixpoint attempt (left_attempts : nat) (p1 p2 : Solution) : M (option Solution) :=
  match left_attempts with
  | 0 => mret None
  | S left_attempts =>
      new_threads ← on_smart (CrossProduct p1 p2);
      x ← on_smart st_get;
      new_threads ← on_smart (mutate (Z.to_nat (mutations_count x)) new_threads);
      _ ← on_sched (on_base (RemoveInvalidTasks new_threads));
      histories ← on_sched (ExploreRound inner fuel (exploration_runs params));
      match histories with
      | Some h =>
          b ← on_sched (st_gets base);
          x ← on_smart st_get;
          offspring ← st_lift (make_solution b h (total_tasks x));
          mret (Some offspring)
      | None => attempt left_attempts p1 p2
      end
  end.

Fixpoint offsprings_loop (n : nat) (p1 p2 : Solution) (offsprings : list Solution) : M (list Solution) :=
  match n with
  | 0 => mret offsprings
  | S n =>
      o ← attempt (offsprings_generation_attemps params) p1 p2;
      offsprings_loop n p1 p2 (match o with Some s => offsprings ++ [s] | None => offsprings end)
  end.

Definition GenerateOffsprings (p1 p2 : Solution) : M (list Solution) :=
  _ ← st_assert "offsprings_generation_attemps > 0" (0 <? offsprings_generation_attemps params);
  offsprings ← offsprings_loop (max_offsprings_per_generation params) p1 p2 [];
  x ← on_smart st_get;
  _ ← (if (length offsprings * 2 <? max_offsprings_per_generation params) && (1 <? mutations_count x)%Z
       then on_smart (st_put (with_mutations (mutations_count x - 1) x))
       else mret tt);
  mret offsprings.

(** ** [Minimize] (minimization_smart.cpp:21-67) *)

(** One run: parents, offsprings, and the best of all. *)
Definition minimization_run : M unit :=
  x ← on_smart st_get;
  match population x with
  | [] => st_fail (Undefined "*population.begin()")
  | p1 :: rest =>
      let p2 := match rest with [] => p1 | p2 :: _ => p2 end in
      offsprings ← GenerateOffsprings p1 p2;
      x ← on_smart st_get;
      on_smart (st_put (with_population
        (take max_population_size (foldl (λ pop s, population_insert s pop) (population x) offsprings)) x))
  end.

Fixpoint run_minimization (r : nat) : M unit :=
  match r with
  | 0 => mret tt
  | S r => _ ← minimization_run; run_minimization r
  end.

Definition Smart_Minimize (h : BothHistories) : M BothHistories :=
  b ← on_sched (st_gets base);
  let total := Z.of_nat (GetTotalTasksCount b) in
  s ← st_lift (make_solution b h total);
  _ ← on_smart (st_modify (λ x, with_population [s] (with_total total x)));
  _ ← run_minimization (minimization_runs params);
  x ← on_smart st_get;
  best_solution ← st_lift (or_fail (AssertFailed "!population.empty()") (head (population x)));
  _ ← on_sched (on_base (RemoveInvalidTasks (tasks best_solution)));
  b ← on_sched (st_gets base);
  ordering ← st_lift (GetTasksOrdering b (nonlinear_histories best_solution).1 ∅);
  replayed_result ← on_sched (ReplayRound inner ordering);
  st_lift (or_fail (AssertFailed "replayed_result.has_value()") replayed_result).
End smart.
