(* ===== verification/SmartCorrect.v ===== *)
(** * SmartCorrect: what the genetic minimizer guarantees

    Whatever the random draws and the iteration orders are, the history
    [SmartMinimizor] ends with is rejected, no task comes back that was removed
    before, and the best solution only ever improves. *)

From stdpp Require Import base gmap strings option list.
From Stdlib Require Import ZArith SpecFloat.
From S2P Require Import Prelude ValueWrapper History Linearizability Coro Strategy PickStrategy Scheduler Replay.
From S2P Require Import Minimization Smart.

(** ** The assertions on the fitness *)

Definition all_pairs (n : nat) (P : Z → Z → bool) : bool :=
  forallb (λ t, forallb (λ v, P (Z.of_nat v) (Z.of_nat t)) (seq 0 (S t))) (seq 1 n).

Lemma all_pairs_true n P v t :
  all_pairs n P = true → 0 < t ≤ n → v ≤ t → P (Z.of_nat v) (Z.of_nat t) = true.
Proof.
  unfold all_pairs. rewrite forallb_forall. intros H Ht Hv.
  specialize (H t ltac:(apply in_seq; lia)). rewrite forallb_forall in H. apply H, in_seq. lia.
Qed.

Lemma tasks_fitness_checked : all_pairs 100 (λ v t, in_unit (tasks_fitness v t)) = true.
Proof. vm_compute. reflexivity. Qed.
Lemma threads_fitness_checked :
  all_pairs 100 (λ n m, eqb (in_unit (threads_fitness n m)) (negb (n =? 0)%Z)) = true.
Proof. vm_compute. reflexivity. Qed.

(** C40: In rounds of up to a hundred tasks and a hundred threads, rounding never
    breaks the first assertion of [Solution]'s constructor, and breaks the
    second one exactly when no thread has a task left (the fitness of no
    threads is [1.0001]). *)
Theorem Solution_assertions valid total threads total_threads :
  0 < total ≤ 100 → valid ≤ total → 0 < total_threads ≤ 100 → threads ≤ total_threads →
  in_unit (tasks_fitness (Z.of_nat valid) (Z.of_nat total)) = true ∧
  (in_unit (threads_fitness (Z.of_nat threads) (Z.of_nat total_threads)) = true ↔ threads ≠ 0).
Proof.
  intros Ht Hv Hm Hn. split.
  - exact (all_pairs_true _ _ _ _ tasks_fitness_checked Ht Hv).
  - pose proof (all_pairs_true _ _ _ _ threads_fitness_checked Hm Hn) as H. apply eqb_prop in H. rewrite H.
    rewrite negb_true_iff, Z.eqb_neq. lia.
Qed.

(** ** Containers *)

Section containers.
Context `{HU : Unordered} `{HUL : !UnorderedLaws}.

(** Every id of the map satisfies [V], a predicate on threads and ids. *)
Definition within (V : Z → Z → Prop) (m : TaskMap) : Prop :=
  ∀ k ids, (k, ids) ∈ m → ∀ id, id ∈ ids → V k id.

Lemma map_at_In k m ids : map_at k m = Some ids → (k, ids) ∈ m.
Proof.
  induction m as [|[k' v] m IH]; simpl; [done|]. destruct (Z.eqb_spec k' k) as [->|]; [intros [= ->]; left|].
  intros H. right. by apply IH.
Qed.

Lemma set_contains_In x s : set_contains x s = true ↔ x ∈ s.
Proof.
  unfold set_contains. rewrite existsb_exists. setoid_rewrite Z.eqb_eq. setoid_rewrite <-list_elem_of_In.
  split; [by intros (y & ? & ->)|eauto].
Qed.

Lemma valid_in_within V m k id : within V m → valid_in m k id = true → V k id.
Proof.
  unfold valid_in. intros HV H. destruct (map_at k m) as [ids|] eqn:E; [|done].
  apply set_contains_In in H. by eapply HV; [apply map_at_In|].
Qed.

Lemma within_assign V k ids m :
  within V m → (∀ id, id ∈ ids → V k id) → within V (map_assign k ids m).
Proof.
  intros Hm Hids k' ids' H id Hid. unfold map_assign in H. destruct (map_contains k m).
  - apply list_elem_of_fmap in H as ([k0 v0] & E & H). simpl in E. destruct (Z.eqb_spec k0 k) as [->|].
    + injection E as -> ->. by apply Hids.
    + injection E as -> ->. by eapply Hm.
  - rewrite arrange_perm in H. apply elem_of_cons in H as [[= -> ->]|H]; [by apply Hids|by eapply Hm].
Qed.

Lemma set_insert_In x y s : y ∈ set_insert x s ↔ y = x ∨ y ∈ s.
Proof.
  unfold set_insert. destruct (set_contains x s) eqn:E.
  - apply set_contains_In in E. split; [by right|]. by intros [->|?].
  - rewrite arrange_perm. apply elem_of_cons.
Qed.

Lemma within_insert V k x m : within V m → V k x → within V (map_insert k x m).
Proof.
  intros Hm Hx. apply within_assign; [done|]. intros id [->|Hid]%set_insert_In; [done|].
  destruct (map_at k m) as [ids|] eqn:E; simpl in Hid; [|by apply not_elem_of_nil in Hid].
  by eapply Hm; [apply map_at_In|].
Qed.

Lemma erase_at_In {A} n (l : list A) x : x ∈ erase_at n l → x ∈ l.
Proof.
  unfold erase_at. intros [H|H]%elem_of_app.
  - rewrite <-(take_drop n l). apply elem_of_app. by left.
  - rewrite <-(take_drop (S n) l). apply elem_of_app. by right.
Qed.
End containers.

(** ** The population *)

(** The fitness of [b] is bigger than that of [a], as doubles compare. *)
Definition fitter (a b : Solution) : Prop := SFltb (fitness a) (fitness b) = true.
Definition improves (a b : Solution) : Prop := b = a ∨ fitter a b.

Lemma SFltb_trans a b c : SFltb a b = true → SFltb b c = true → SFltb a c = true.
Proof.
  destruct a as [|[]| |[] ma ea], b as [|[]| |[] mb eb], c as [|[]| |[] mc ec]; unfold SFltb; simpl; try done.
  all: destruct (Z.compare_spec ea eb), (Z.compare_spec eb ec), (Z.compare_spec ea ec); subst; try done; try lia.
  all: change (Pos.compare_cont Eq) with Pos.compare;
    destruct (Pos.compare_spec ma mb), (Pos.compare_spec mb mc), (Pos.compare_spec ma mc); simpl; subst; try done; lia.
Qed.

#[global] Instance fitter_trans : Transitive fitter.
Proof. intros a b c. apply SFltb_trans. Qed.

#[global] Instance improves_preorder : PreOrder improves.
Proof.
  split; [by left|]. intros a b c [->|Hab] [->|Hbc]; unfold improves; auto. right. by transitivity b.
Qed.

(** Nothing in the population has a bigger fitness than [b]. *)
Definition fittest (b : Solution) (pop : list Solution) : Prop := Forall (λ y, ¬ fitter b y) pop.

Lemma fittest_fitter a b pop : fitter a b → fittest a pop → fittest b pop.
Proof. intros Hab Ha. eapply Forall_impl; [exact Ha|]. intros y Hy Hby. apply Hy. by transitivity b. Qed.

Lemma fitter_irrefl a : ¬ fitter a a.
Proof.
  unfold fitter, SFltb. destruct (fitness a) as [|[]| |[] m e]; simpl; try done;
    rewrite Z.compare_refl; change (Pos.compare_cont Eq) with Pos.compare; by rewrite Pos.compare_refl.
Qed.

Lemma fitter_asym a b : fitter a b → ¬ fitter b a.
Proof. intros Hab Hba. apply (fitter_irrefl a). by transitivity b. Qed.

Lemma population_insert_In x y pop : y ∈ population_insert x pop ↔ y = x ∨ y ∈ pop.
Proof.
  induction pop as [|z pop IH]; simpl; [set_solver|]. destruct (SolutionSorter x z); [set_solver|].
  rewrite !elem_of_cons, IH. tauto.
Qed.

Lemma population_insert_head x a pop : fittest a pop →
  ∃ b pop', population_insert x (a :: pop) = b :: pop' ∧ improves a b ∧ fittest b pop'.
Proof.
  intros Ha. simpl. destruct (SolutionSorter x a) eqn:E.
  - exists x, (a :: pop). split_and!; [done|by right|]. constructor; [by apply fitter_asym|by eapply fittest_fitter].
  - exists a, (population_insert x pop). split_and!; [done|by left|]. apply Forall_forall.
    intros y [->|Hy]%population_insert_In; [|by eapply Forall_forall in Ha].
    unfold fitter. change (SolutionSorter x a ≠ true). by rewrite E.
Qed.

(** Inserting offsprings: the best is as before, or a fitter one. *)
Lemma population_grow offsprings a pop : fittest a pop →
  ∃ b pop', foldl (λ pop s, population_insert s pop) (a :: pop) offsprings = b :: pop' ∧
    improves a b ∧ fittest b pop' ∧ ∀ y, y ∈ b :: pop' → y ∈ a :: pop ∨ y ∈ offsprings.
Proof.
  revert a pop. induction offsprings as [|x offsprings IH]; intros a pop Ha.
  - exists a, pop. split_and!; [done|by left|done|by left].
  - cbn [foldl]. destruct (population_insert_head x a pop Ha) as (b & pop' & E & Hab & Hb).
    rewrite E. destruct (IH b pop' Hb) as (c & pop2 & E2 & Hbc & Hc & Hin). exists c, pop2.
    split_and!; [done|by transitivity b|done|].
    intros y Hy. destruct (Hin y Hy) as [H|H]; [|right; by right]. rewrite <-E in H.
      apply population_insert_In in H as [->|H]; [right; by left|by left].
Qed.

Section correct.
Context `{HT : Target} `{HC : !Code} `{HV : StrategyVerifier} `{HS : !Strategy} `{HL : !StrategyLaws}.
Context `{HMC : ModelChecker} `{HR : Rng} `{HRR : !RealRng} `{HU : Unordered} `{HUL : !UnorderedLaws}.
Context (inner fuel : nat) (params : SmartParams).

Lemma on_sched_Ok {A} (m : stM St A) x s a x' s' :
  on_sched m (x, s) = Ok (a, (x', s')) → m s = Ok (a, s') ∧ x' = x.
Proof. unfold on_sched. intros H. apply bind_Ok in H as ([b t] & Hm & H). by injection H as <- <- <-. Qed.

Lemma on_smart_Ok {A} (m : stM SmartState A) x s a x' s' :
  on_smart m (x, s) = Ok (a, (x', s')) → m x = Ok (a, x') ∧ s' = s.
Proof. unfold on_smart. intros H. apply bind_Ok in H as ([b t] & Hm & H). by injection H as <- <- <-. Qed.

Lemma on_smart_get x s a x' s' : on_smart st_get (x, s) = Ok (a, (x', s')) → a = x ∧ x' = x ∧ s' = s.
Proof. intros [H ->]%on_smart_Ok. by inv_st H. Qed.

Lemma on_sched_base x s b x' s' :
  on_sched (st_gets base) (x, s) = Ok (b, (x', s')) → b = base s ∧ x' = x ∧ s' = s.
Proof. intros [H ->]%on_sched_Ok. by inv_st H. Qed.

Lemma draw_Ok {A} (d : rng → A * rng) x a x' : draw d x = Ok (a, x') → population x' = population x ∧
  mutations_count x' = mutations_count x ∧ total_tasks x' = total_tasks x.
Proof.
  unfold draw. rewrite st_get_bind. destruct (d (smart_rng x)) as [b g]. intros H. by inv_st H.
Qed.

(** What leaves the population and the counters alone. *)
Definition same_members (x x' : SmartState) : Prop :=
  population x' = population x ∧ mutations_count x' = mutations_count x ∧ total_tasks x' = total_tasks x.

Lemma same_members_refl x : same_members x x.
Proof. done. Qed.
Lemma same_members_trans x1 x2 x3 : same_members x1 x2 → same_members x2 x3 → same_members x1 x3.
Proof. unfold same_members. intros (? & ? & ?) (? & ? & ?). split_and!; congruence. Qed.

Section tasks.
Context (V : Z → Z → Prop).

Lemma DropRandomTask_within m x m' x' :
  DropRandomTask m x = Ok (m', x') → within V m → within V m' ∧ same_members x x'.
Proof.
  unfold DropRandomTask. destruct m as [|e m1] eqn:Em; [intros H; inv_st H; by split|]. rewrite <-Em. clear Em e m1.
  intros H Hm.
  apply st_bind_Ok in H as (i & x1 & H1%draw_Ok & H).
  apply st_bind_Ok in H as ([k ids] & x2 & [Hat%or_fail_Ok ->]%st_lift_Ok & H).
  destruct ids as [|a ids1] eqn:Eids; [by inv_st H|]. rewrite <-Eids in *. clear Eids a ids1.
  destruct ((length ids =? 1) && (length m =? 2)); [by inv_st H|].
  apply st_bind_Ok in H as (j & x2 & H2%draw_Ok & H). injection H as <- <-.
  split; [|by eapply same_members_trans]. intros k' ids' Hin id Hid.
  unfold TaskMap in *. apply list_elem_of_lookup in Hin as [n Hn].
  destruct (decide (n = Z.to_nat i)) as [->|Hne].
  - rewrite list_lookup_insert_eq in Hn by (by eapply lookup_lt_Some). simplify_eq.
    apply erase_at_In in Hid. eapply Hm; [by eapply list_elem_of_lookup_2|done].
  - rewrite list_lookup_insert_ne in Hn by done. eapply Hm; [by eapply list_elem_of_lookup_2|done].
Qed.

Lemma cross_within p2 p1 acc x m x' :
  cross p2 p1 acc x = Ok (m, x') → within V p2 → within V p1 → within V acc →
  within V m ∧ same_members x x'.
Proof.
  revert acc x. induction p1 as [|[k ids] p1 IH]; intros acc x H H2 H1 Hacc; cbn [cross] in H; [by inv_st H|].
  apply st_bind_Ok in H as (v & x1 & Hv & H).
  assert ((∀ id, id ∈ v → V k id) ∧ same_members x x1) as [Hvin Hx1].
  { destruct (map_at k p2) as [other|] eqn:E.
    - apply st_bind_Ok in Hv as (d & x2 & Hd%draw_Ok & Hv). injection Hv as <- <-. split; [|done].
      intros id Hid. destruct (SFleb _ _); [eapply H2; [by apply map_at_In|done]|eapply H1; [by left|done]].
    - injection Hv as <- <-. split; [|done]. intros id Hid. eapply H1; [by left|done]. }
  apply IH in H as [Hm Hx]; [by split; [|eapply same_members_trans]|done| |by apply within_assign].
  intros k' ids' Hin. apply H1. by right.
Qed.

Lemma CrossProduct_within p1 p2 x m x' :
  CrossProduct p1 p2 x = Ok (m, x') → within V (tasks p1) → within V (tasks p2) →
  within V m ∧ same_members x x'.
Proof.
  unfold CrossProduct. intros H H1 H2.
  assert (within V []) as Hnil by (intros ? ? ?%not_elem_of_nil; done).
  destruct (length (tasks p2) <=? length (tasks p1)); by eapply cross_within.
Qed.

Lemma mutate_within n m x m' x' :
  mutate n m x = Ok (m', x') → within V m → within V m' ∧ same_members x x'.
Proof.
  revert m x. induction n as [|n IH]; intros m x H Hm; cbn [mutate] in H; [by inv_st H|].
  rewrite st_get_bind in H. apply st_bind_Ok in H as (b & x1 & Hb & H).
  assert (same_members x x1) as Hx1.
  { destruct (1 <? mutations_count x)%Z; [by inv_st Hb|].
    apply st_bind_Ok in Hb as (d & x2 & Hd%draw_Ok & Hb). by inv_st Hb. }
  apply st_bind_Ok in H as (m1 & x2 & Hm1 & H).
  assert (within V m1 ∧ same_members x1 x2) as [Hw Hx2].
  { destruct b; [by eapply DropRandomTask_within|by inv_st Hm1]. }
  apply IH in H as [Hm' Hx]; [|done]. split; [done|].
  eapply same_members_trans; [exact Hx1|]. by eapply same_members_trans.
Qed.
End tasks.

(** ** The tasks that are left *)

Definition unique_ids (b : BaseStrategy) : Prop :=
  ∀ r r' i, id_at b r = Some i → id_at b r' = Some i → r = r'.

Lemma id_at_lookup b th i id :
  id_at b (th, i) = Some id ↔ ∃ thread c, threads b !! th = Some thread ∧ thread !! i = Some c ∧ GetId c = id.
Proof.
  unfold id_at. rewrite fmap_Some. setoid_rewrite slot_Some. naive_solver.
Qed.

(** Marking the tasks of the threads from [k] on. *)
Lemma remove_in_thread_Ok m k thread b u b' :
  remove_in_thread m k thread b = Ok (u, b') →
  ∃ rm, b' = with_removed rm b ∧
    (∀ id, (∀ c, c ∈ thread → GetId c ≠ id) → id ∈ rm ↔ id ∈ removed_tasks b) ∧
    (∀ c, c ∈ thread → GetId c ∈ rm ↔ valid_in m k (GetId c) = false).
Proof.
  revert b. induction thread as [|c thread IH]; intros b H; cbn [remove_in_thread] in H.
  { inv_st H. exists (removed_tasks b'). split_and!; [by destruct b'|done|by intros ? ?%not_elem_of_nil]. }
  rewrite st_modify_bind in H. destruct (IH _ H) as (rm & -> & Hother & Hin). exists rm.
  assert (GetId c ∈ removed_tasks (SetTaskRemoved (GetId c) (negb (valid_in m k (GetId c))) b) ↔
    valid_in m k (GetId c) = false) as Hc.
  { unfold SetTaskRemoved. simpl. destruct (valid_in m k (GetId c)); simpl; set_solver. }
  split_and!; [done| |].
  - intros id Hid. rewrite Hother by (intros d Hd; apply Hid; by right). unfold SetTaskRemoved. simpl.
    assert (GetId c ≠ id) by (apply Hid; by left). destruct (negb _); set_solver.
  - intros d [->|Hd]%elem_of_cons; [|by apply Hin].
    destruct (decide (GetId c ∈ GetId <$> thread)) as [(d & -> & Hd)%list_elem_of_fmap|Hno]; [by apply Hin|].
    rewrite Hother; [exact Hc|]. intros d Hd E. apply Hno, list_elem_of_fmap. eauto.
Qed.

(** The ids of the threads are apart. *)
Definition apart (ths : list (list CoroBase)) : Prop :=
  ∀ i j t t' c c', ths !! i = Some t → ths !! j = Some t' → c ∈ t → c' ∈ t' → GetId c = GetId c' → i = j.

Lemma remove_in_threads_Ok m k ths b u b' :
  remove_in_threads m k ths b = Ok (u, b') → apart ths →
  ∃ rm, b' = with_removed rm b ∧
    (∀ id, (∀ t c, t ∈ ths → c ∈ t → GetId c ≠ id) → id ∈ rm ↔ id ∈ removed_tasks b) ∧
    (∀ i t c, ths !! i = Some t → c ∈ t → GetId c ∈ rm ↔ valid_in m (k + Z.of_nat i) (GetId c) = false).
Proof.
  revert k b. induction ths as [|thread ths IH]; intros k b H Hap; cbn [remove_in_threads] in H.
  { inv_st H. exists (removed_tasks b'). split_and!; [by destruct b'|done|by intros ? ? ? ?]. }
  apply st_bind_Ok in H as (u1 & b1 & (rm1 & -> & Ho1 & Hi1)%remove_in_thread_Ok & H).
  apply IH in H as (rm & -> & Ho & Hi); [|intros i j t t' c c' Ht Ht' Hc Hc' E;
    specialize (Hap (S i) (S j) t t' c c' Ht Ht' Hc Hc' E); lia].
  exists rm. split_and!; [done| |].
  - intros id Hid. rewrite Ho by (intros t c Ht; apply Hid; by right). simpl. apply Ho1.
    intros c Hc. eapply Hid; [by left|done].
  - intros [|i] t c Ht Hc; simpl in Ht.
    + injection Ht as ->. rewrite Ho, Z.add_0_r; [by apply Hi1|]. intros t' c' Ht' Hc' E.
      apply list_elem_of_lookup in Ht' as [j Hj]. by specialize (Hap (S j) 0 t' t c' c Hj eq_refl Hc' Hc E).
    + rewrite (Hi i t c Ht Hc). replace (k + 1 + Z.of_nat i)%Z with (k + Z.of_nat (S i))%Z by lia. done.
Qed.

Lemma unique_apart b : unique_ids b → apart (threads b).
Proof.
  intros Hu i j t t' c c' Ht Ht' [n Hn]%list_elem_of_lookup [n' Hn']%list_elem_of_lookup E.
  assert ((i, n) = (j, n')) as [= -> _]; [|done]. apply (Hu _ _ (GetId c)); apply id_at_lookup; eauto.
Qed.

(** [RemoveInvalidTasks] leaves exactly the tasks of the map. *)
Lemma RemoveInvalidTasks_Ok m b u b' :
  RemoveInvalidTasks m b = Ok (u, b') → unique_ids b →
  (∀ r, id_at b' r = id_at b r) ∧
  ∀ th i id, id_at b (th, i) = Some id → id ∈ removed_tasks b' ↔ valid_in m (Z.of_nat th) id = false.
Proof.
  unfold RemoveInvalidTasks. rewrite st_get_bind. intros H Hu.
  apply remove_in_threads_Ok in H as (rm & -> & _ & Hi); [|by apply unique_apart].
  split; [done|]. intros th i id (thread & c & Ht & Hc & <-)%id_at_lookup. simpl.
  rewrite (Hi th thread c Ht) by (by eapply list_elem_of_lookup_2). by rewrite Z.add_0_l.
Qed.

(** The solution of a round has the tasks that are not removed. *)
Definition left_in (b : BaseStrategy) (k id : Z) : Prop :=
  ∃ th i, k = Z.of_nat th ∧ id_at b (th, i) = Some id ∧ id ∉ removed_tasks b.

Lemma collect_thread_within V b k thread acc :
  within V acc.1 → (∀ c, c ∈ thread → GetId c ∉ removed_tasks b → V k (GetId c)) →
  within V (collect_thread b k thread acc).1.
Proof.
  revert acc. induction thread as [|c thread IH]; intros acc Hacc Hth; cbn [collect_thread]; [done|].
  apply IH; [|intros d Hd; apply Hth; by right]. unfold IsTaskRemoved.
  destruct (bool_decide_reflect (GetId c ∈ removed_tasks b)); [done|]. simpl.
  apply within_insert; [done|]. apply Hth; [by left|done].
Qed.

Lemma collect_valid_within V b k ths acc :
  within V acc.1 →
  (∀ i t c, ths !! i = Some t → c ∈ t → GetId c ∉ removed_tasks b → V (k + Z.of_nat i)%Z (GetId c)) →
  within V (collect_valid b k ths acc).1.
Proof.
  revert k acc. induction ths as [|thread ths IH]; intros k acc Hacc Hths; cbn [collect_valid]; [done|].
  apply IH.
  - apply collect_thread_within; [done|]. intros c Hc Hr. specialize (Hths 0 thread c eq_refl Hc Hr).
    by rewrite Z.add_0_r in Hths.
  - intros i t c Ht Hc Hr. specialize (Hths (S i) t c Ht Hc Hr).
    by replace (k + 1 + Z.of_nat i)%Z with (k + Z.of_nat (S i))%Z by lia.
Qed.

Lemma make_solution_Ok b h total sol :
  make_solution b h total = Ok sol → nonlinear_histories sol = h ∧ within (left_in b) (tasks sol).
Proof.
  unfold make_solution. destruct (collect_valid b 0 (threads b) ([], 0%Z)) as [ts valid] eqn:E. intros H.
  apply bind_Ok in H as (? & _ & H). apply bind_Ok in H as (? & _ & H). injection H as <-. simpl.
  split; [done|]. pose proof (collect_valid_within (left_in b) b 0 (threads b) ([], 0%Z)) as Hw. rewrite E in Hw.
  apply Hw; [by intros ? ? ?%not_elem_of_nil|]. intros i t c Ht [n Hn]%list_elem_of_lookup Hr.
  exists i, n. rewrite Z.add_0_l. split_and!; [done| |done]. apply id_at_lookup. eauto.
Qed.

Lemma on_base_RemoveInvalidTasks m (s : St) u s' :
  on_base (RemoveInvalidTasks m) s = Ok (u, s') → unique_ids (base s) →
  (∀ r, id_at (base s') r = id_at (base s) r) ∧
  ∀ th i id, id_at (base s) (th, i) = Some id → id ∈ removed_tasks (base s') ↔ valid_in m (Z.of_nat th) id = false.
Proof. intros (b & H & ->)%on_base_Ok Hu. rewrite base_set_base. by eapply RemoveInvalidTasks_Ok. Qed.

(** ** Generations *)

Section generations.
(** The round the minimizer starts with. *)
Context (b0 : BaseStrategy) (Hunique : unique_ids b0).

Definition same_ids (s : St) : Prop := ∀ r, id_at (base s) r = id_at b0 r.
Definition subround (sol : Solution) : Prop := within (left_in b0) (tasks sol).

Lemma same_ids_unique s : same_ids s → unique_ids (base s).
Proof. intros H r r' i. rewrite !H. apply Hunique. Qed.

(** Exploring the tasks of a sub-round gives a sub-round. *)
Lemma explored_subround m s u s1 h total sol s2 :
  same_ids s → within (left_in b0) m → on_base (RemoveInvalidTasks m) s = Ok (u, s1) →
  same_round (base s1) (base s2) → make_solution (base s2) h total = Ok sol → subround sol.
Proof.
  intros Hs Hm [Hid Hrm]%on_base_RemoveInvalidTasks [Hid2 Hrm2] [_ Hsol]%make_solution_Ok;
    [|by apply same_ids_unique].
  intros k ids Hin id Hi. destruct (Hsol k ids Hin id Hi) as (th & i & -> & Hat & Hnr).
  rewrite Hrm2 in Hnr. rewrite Hid2, Hid in Hat.
  apply (valid_in_within (left_in b0) m); [done|]. apply not_false_iff_true. intros Hv. by apply Hnr, (Hrm th i id Hat).
Qed.

Lemma attempt_Ok n p1 p2 x s o x' s' :
  attempt inner fuel params n p1 p2 (x, s) = Ok (o, (x', s')) → same_ids s → subround p1 → subround p2 →
  same_ids s' ∧ same_members x x' ∧ ∀ sol, o = Some sol → subround sol.
Proof.
  revert x s. induction n as [|n IH]; intros x s H Hs H1 H2; cbn [attempt] in H; [by inv_st H|].
  apply st_bind_Ok in H as (m & [x1 s1] & [Hm ->]%on_smart_Ok & H).
  apply (CrossProduct_within (left_in b0)) in Hm as [Hm Hx1]; [|done..].
  apply st_bind_Ok in H as (y & [x2 s2] & (-> & -> & ->)%on_smart_get & H).
  apply st_bind_Ok in H as (m2 & [x2 s2] & [Hm2 ->]%on_smart_Ok & H).
  apply (mutate_within (left_in b0)) in Hm2 as [Hm2 Hx2]; [|done].
  pose proof (same_members_trans _ _ _ Hx1 Hx2) as Hx.
  apply st_bind_Ok in H as (u & [x3 s3] & [H3 ->]%on_sched_Ok & H).
  pose proof (on_base_RemoveInvalidTasks _ _ _ _ H3 (same_ids_unique _ Hs)) as [Hid3 _].
  apply st_bind_Ok in H as (r & [x4 s4] & [H4 ->]%on_sched_Ok & H). apply (ExploreRound_same inner fuel) in H4.
  assert (same_ids s4) as Hs4 by (intros r'; by rewrite (proj1 H4), Hid3, Hs).
  destruct r as [h|].
  - apply st_bind_Ok in H as (b & [x5 s5] & (-> & -> & ->)%on_sched_base & H).
    apply st_bind_Ok in H as (y & [x6 s6] & (-> & -> & ->)%on_smart_get & H).
    apply st_bind_Ok in H as (sol & [x7 s7] & [Hsol [= -> ->]]%st_lift_Ok & H). injection H as <- <- <-.
    split_and!; [done..|]. intros sol' [= <-].
    by apply (explored_subround m2 s u s3 h (total_tasks x2) sol s4).
  - destruct (IH _ _ H Hs4 H1 H2) as (? & ? & ?). split_and!; [done| |done]. by eapply same_members_trans.
Qed.

Lemma offsprings_loop_Ok n p1 p2 acc x s l x' s' :
  offsprings_loop inner fuel params n p1 p2 acc (x, s) = Ok (l, (x', s')) →
  same_ids s → subround p1 → subround p2 → Forall subround acc →
  same_ids s' ∧ same_members x x' ∧ Forall subround l.
Proof.
  revert acc x s. induction n as [|n IH]; intros acc x s H Hs H1 H2 Hacc; cbn [offsprings_loop] in H; [by inv_st H|].
  apply st_bind_Ok in H as (o & [x1 s1] & Ho & H).
  apply attempt_Ok in Ho as (Hs1 & Hx1 & Hsol); [|done..].
  apply IH in H as (? & ? & ?); [|done..|].
  - split_and!; [done| |done]. by eapply same_members_trans.
  - destruct o as [sol|]; [|done]. apply Forall_app. split; [done|]. constructor; [by apply Hsol|constructor].
Qed.

Lemma GenerateOffsprings_Ok p1 p2 x s l x' s' :
  GenerateOffsprings inner fuel params p1 p2 (x, s) = Ok (l, (x', s')) →
  same_ids s → subround p1 → subround p2 →
  same_ids s' ∧ population x' = population x ∧ total_tasks x' = total_tasks x ∧ Forall subround l.
Proof.
  unfold GenerateOffsprings. intros H Hs H1 H2.
  apply st_bind_Ok in H as (u & [x1 s1] & [_ [= -> ->]]%st_assert_Ok & H).
  apply st_bind_Ok in H as (l1 & [x2 s2] & Hl & H).
  apply offsprings_loop_Ok in Hl as (Hs2 & (Hp & _ & Ht) & Hl); [|done..|constructor].
  apply st_bind_Ok in H as (y & [x3 s3] & (-> & -> & ->)%on_smart_get & H).
  apply st_bind_Ok in H as (u1 & [x4 s4] & H4 & H). injection H as <- <- <-.
  destruct ((length l1 * 2 <? _) && _).
  - apply on_smart_Ok in H4 as [H4 ->]. inv_st H4. simpl. by split_and!.
  - injection H4 as _ <- <-. by split_and!.
Qed.

(** The state between the runs: sub-rounds only, one or two of them, and the
    best is [a] or fitter. *)
Record generation (a : Solution) (x : SmartState) (s : St) : Prop := {
  gen_ids : same_ids s;
  gen_subrounds : Forall subround (population x);
  gen_best : ∃ b pop, population x = b :: pop ∧ improves a b ∧ fittest b pop;
  gen_size : length (population x) ≤ max_population_size;
}.

Lemma minimization_run_Ok a x s u x' s' :
  minimization_run inner fuel params (x, s) = Ok (u, (x', s')) → generation a x s → generation a x' s'.
Proof.
  unfold minimization_run. intros H [Hs Hsub (b & pop & Hpop & Hbest & Hfit) Hsize].
  apply st_bind_Ok in H as (y & [x1 s1] & (-> & -> & ->)%on_smart_get & H).
  rewrite Hpop in H, Hsub. apply Forall_cons in Hsub as [Hb Hsub].
  apply st_bind_Ok in H as (l & [x2 s2] & Hl & H).
  apply GenerateOffsprings_Ok in Hl as (Hs2 & Hp2 & Ht2 & Hl); [|done|done|].
  2:{ destruct pop as [|p2 pop]; [done|]. by apply Forall_cons in Hsub as [? _]. }
  apply st_bind_Ok in H as (y & [x3 s3] & (-> & -> & ->)%on_smart_get & H).
  apply on_smart_Ok in H as [H ->]. inv_st H. rewrite Hp2, Hpop.
  destruct (population_grow l b pop Hfit) as (c & pop' & E & Hc & Hfit' & Hin). rewrite E.
  assert (Forall subround (c :: pop')) as Hall.
  { apply Forall_forall. intros z Hz. destruct (Hin z Hz) as [[->|Hz']%elem_of_cons|Hz'].
    - done.
    - by eapply Forall_forall in Hsub.
    - by eapply Forall_forall in Hl. }
  split; cbn [population with_population].
  - done.
  - by apply Forall_take.
  - exists c, (take 1 pop'). split_and!; [done|by transitivity b|by apply Forall_take].
  - rewrite length_take. unfold max_population_size. lia.
Qed.

Lemma run_minimization_Ok r a x s u x' s' :
  run_minimization inner fuel params r (x, s) = Ok (u, (x', s')) → generation a x s → generation a x' s'.
Proof.
  revert x s. induction r as [|r IH]; intros x s H Hg; cbn [run_minimization] in H; [by inv_st H|].
  apply st_bind_Ok in H as (u1 & [x1 s1] & H1 & H). eapply IH; [exact H|]. by eapply minimization_run_Ok.
Qed.
End generations.

(** The history was rejected in this very state. *)
Definition rejected_in (s : St) (h : BothHistories) : Prop := mc_Check (task_at (base s)) h.2 = Ok false.

Lemma ReplayRound_rejected_in l s h s' : ReplayRound inner l s = Ok (Some h, s') → rejected_in s' h.
Proof.
  unfold ReplayRound. intros H. apply st_bind_Ok in H as (u & s1 & _ & H).
  apply st_bind_Ok in H as (h1 & s2 & _ & H). unfold check_histories in H. rewrite st_get_bind in H.
  apply st_bind_Ok in H as (ok & s3 & [Hok ->]%st_lift_Ok & H). destruct ok; [done|]. by injection H as -> ->.
Qed.

(** [Minimize], taken apart: the population at the end. *)
Lemma Smart_Minimize_inv h x s h' x' s' :
  Smart_Minimize inner fuel params h (x, s) = Ok (h', (x', s')) → unique_ids (base s) →
  ∃ first best, make_solution (base s) h (Z.of_nat (GetTotalTasksCount (base s))) = Ok first ∧
    subround (base s) best ∧
    rejected_in s' h' ∧ (∀ r, id_at (base s') r = id_at (base s) r) ∧
    (∀ th i id, id_at (base s) (th, i) = Some id →
       id ∈ removed_tasks (base s') ↔ valid_in (tasks best) (Z.of_nat th) id = false).
Proof.
  intros H Hu. unfold Smart_Minimize in H.
  apply st_bind_Ok in H as (b & [x1 s1] & (-> & -> & ->)%on_sched_base & H).
  apply st_bind_Ok in H as (first & [x1 s1] & [Hfirst [= -> ->]]%st_lift_Ok & H).
  apply st_bind_Ok in H as (u & [x1 s1] & [H1 ->]%on_smart_Ok & H). inv_st H1.
  apply st_bind_Ok in H as (u1 & [x2 s2] & H2 & H).
  apply (run_minimization_Ok (base s) Hu _ first) in H2 as [Hs2 Hsub (best & pop & Hpop & _) _].
  2:{ split; simpl; [done| |exists first, []; split_and!; [done|by left|constructor]|unfold max_population_size; lia].
      constructor; [|constructor]. by apply make_solution_Ok in Hfirst as [_ ?]. }
  apply st_bind_Ok in H as (y & [x3 s3] & (-> & -> & ->)%on_smart_get & H). rewrite Hpop in H, Hsub.
  apply st_bind_Ok in H as (best' & [x3 s3] & [[= <-] [= -> ->]]%st_lift_Ok & H).
  apply st_bind_Ok in H as (u2 & [x4 s4] & [H4 ->]%on_sched_Ok & H).
  pose proof (on_base_RemoveInvalidTasks _ _ _ _ H4 (same_ids_unique _ Hu _ Hs2)) as [Hid4 Hrm4].
  apply st_bind_Ok in H as (b & [x5 s5] & (-> & -> & ->)%on_sched_base & H).
  apply st_bind_Ok in H as (l & [x5 s5] & [_ [= -> ->]]%st_lift_Ok & H).
  apply st_bind_Ok in H as (r & [x6 s6] & [H6 ->]%on_sched_Ok & H).
  apply st_lift_Ok in H as [Hr%or_fail_Ok [= -> ->]]. subst r.
  pose proof (ReplayRound_ids _ _ _ _ _ H6) as [[Hid6 Hrm6] _]. apply ReplayRound_rejected_in in H6.
  apply Forall_cons in Hsub as [Hsub _]. exists first, best. split_and!; try done.
  - intros r. by rewrite Hid6, Hid4, Hs2.
  - intros th i id Hat. rewrite Hrm6. apply (Hrm4 th i id). by rewrite Hs2.
Qed.

(** C27: Whatever the random numbers are, the history [SmartMinimizor::Minimize]
    ends with is rejected by the checker in the state it leaves the round in;
    the round still has the same tasks, and a task that was removed before is
    not brought back. *)
Theorem Smart_Minimize_spec h x s h' x' s' :
  Smart_Minimize inner fuel params h (x, s) = Ok (h', (x', s')) → unique_ids (base s) →
  rejected_in s' h' ∧ (∀ r, id_at (base s') r = id_at (base s) r) ∧
  ∀ r id, id_at (base s) r = Some id → id ∈ removed_tasks (base s) → id ∈ removed_tasks (base s').
Proof.
  intros H Hu. destruct (Smart_Minimize_inv _ _ _ _ _ _ H Hu) as (first & best & _ & Hsub & Hrej & Hid & Hrm).
  split_and!; [done..|]. intros [th i] id Hat Hremoved. apply (Hrm th i id Hat). apply not_true_iff_false.
  intros Hv. apply (valid_in_within _ _ _ _ Hsub) in Hv as (_ & _ & _ & _ & Hnr). done.
Qed.

(** C28: The runs of the genetic algorithm keep a population of one or two
    sub-rounds of the round they started with (so the assertion that it is not
    empty holds); the first of them is the initial solution or has a strictly
    bigger fitness than it, and none of the others has a bigger fitness. *)
Theorem run_minimization_improves r first x s u x' s' :
  run_minimization inner fuel params r (x, s) = Ok (u, (x', s')) → unique_ids (base s) →
  population x = [first] → subround (base s) first →
  ∃ best rest, population x' = best :: rest ∧ length (best :: rest) ≤ max_population_size ∧
    (best = first ∨ SFltb (fitness first) (fitness best) = true) ∧
    Forall (λ y, SFltb (fitness best) (fitness y) = false) rest ∧
    Forall (subround (base s)) (best :: rest).
Proof.
  intros H Hu Hx Hf. apply (run_minimization_Ok (base s) Hu r first) in H as [_ Hsub (b & pop & Hpop & Hbest & Hfit) Hsize].
  - exists b, pop. rewrite Hpop in Hsub, Hsize. split_and!; [done..| |done].
    eapply Forall_impl; [exact Hfit|]. intros y. apply not_true_is_false.
  - rewrite <-(app_nil_r (population x)) in Hx. split; [done| | |]; rewrite app_nil_r in Hx; rewrite Hx.
    + by constructor; [|constructor].
    + exists first, []. split_and!; [done|by left|constructor].
    + unfold max_population_size. simpl. lia.
Qed.
End correct.
