(* ===== verification/SchedulerRun.v ===== *)
(** * SchedulerRun: StrategyScheduler::Run (scheduler.h:264-327, 469-483)

    The loop over the rounds: each round is run and checked; the first rejected
    history stops the loop and is minimized when that was asked for. *)

From stdpp Require Import base gmap strings option list.
From S2P Require Import Prelude ValueWrapper History Linearizability Coro Strategy PickStrategy PrettyPrint Scheduler.
From S2P Require Import Minimization Smart SmartCorrect.

(** The constructor arguments of [StrategyScheduler]. *)
Record SchedulerParams := mk_SchedulerParams {
  max_tasks : nat;
  max_rounds : nat;
  should_minimize_history : bool;
  sched_exploration_runs : nat;
  sched_minimization_runs : nat;
}.

Section run.
Context `{HT : Target} `{HC : !Code} `{HV : StrategyVerifier} `{HS : !Strategy}.
Context `{HMC : ModelChecker} {HPP : PrettyPrinter} `{HR : Rng} `{HRR : !RealRng} `{HU : Unordered}.
(** Fuel for the loops of a round; the seed [std::random_device] gives. *)
Context (inner fuel : nat) (params : SchedulerParams) (seed : rng).

Local Abbreviation M := (stM St).

(** A fresh [SmartMinimizor]. *)
Definition SmartMinimizor : RoundMinimizor := λ h s,
  '(h, (_, s)) ← Smart_Minimize inner fuel
     (default_params (sched_exploration_runs params) (sched_minimization_runs params)) h
     (mk_Smart initial_mutations_count 0 [] seed, s);
  Ok (h, s).

(** The three minimizers in turn, each behind a table of what it is given
    (scheduler.h:297-317). *)
Definition printed_first (m : RoundMinimizor) : RoundMinimizor := λ h, _ ← print_log h.2; Minimize h m.

Definition minimize_all (h : BothHistories) : M BothHistories :=
  h ← printed_first (SameInterleavingMinimizor inner) h;
  h ← printed_first (StrategyExplorationMinimizor inner fuel (sched_exploration_runs params)) h;
  printed_first SmartMinimizor h.

Fixpoint Run_rounds (rounds : nat) : M Result :=
  match rounds with
  | 0 => mret None
  | S rounds =>
      histories ← RunRound inner fuel (max_tasks params);
      match histories with
      | Some h =>
          if should_minimize_history params then h ← minimize_all h; mret (Some h) else mret (Some h)
      | None => _ ← StartNextRound inner; Run_rounds rounds
      end
  end.

Definition StrategyScheduler_Run : M Result := Run_rounds (max_rounds params).

(** ** What is reported is rejected *)

Lemma Smart_Minimize_rejected h x s h' x' s' sp :
  Smart_Minimize inner fuel sp h (x, s) = Ok (h', (x', s')) → rejected_in s' h'.
Proof.
  unfold Smart_Minimize. intros H.
  apply st_bind_Ok in H as (b & [x1 s1] & _ & H). apply st_bind_Ok in H as (f & [x2 s2] & _ & H).
  apply st_bind_Ok in H as (u & [x3 s3] & _ & H). apply st_bind_Ok in H as (u1 & [x4 s4] & _ & H).
  apply st_bind_Ok in H as (y & [x5 s5] & _ & H). apply st_bind_Ok in H as (best & [x6 s6] & _ & H).
  apply st_bind_Ok in H as (u2 & [x7 s7] & _ & H). apply st_bind_Ok in H as (b2 & [x8 s8] & _ & H).
  apply st_bind_Ok in H as (l & [x9 s9] & _ & H). apply st_bind_Ok in H as (r & [x10 s10] & [H6 ->]%on_sched_Ok & H).
  apply st_lift_Ok in H as [Hr%or_fail_Ok [= -> ->]]. subst r. by eapply ReplayRound_rejected_in.
Qed.

Lemma RunRound_rejected n s h s' : RunRound inner fuel n s = Ok (Some h, s') → rejected_in s' h.
Proof.
  intros (h1 & _ & _ & H)%RunRound_parts. unfold check_histories in H. rewrite st_get_bind in H.
  apply st_bind_Ok in H as (ok & s2 & [Hok ->]%st_lift_Ok & H). destruct ok; [done|]. by injection H as ->.
Qed.

Lemma rejected_in_rejected s h : rejected_in s h → rejected h.
Proof. intros H. by exists s. Qed.

#[global] Instance SmartMinimizor_sound : SoundMinimizor SmartMinimizor.
Proof.
  intros h s h' s' H _. apply bind_Ok in H as ([h3 [x3 s3]] & H & E). injection E as -> ->.
  by eapply rejected_in_rejected, Smart_Minimize_rejected.
Qed.

#[global] Instance printed_first_sound m : SoundMinimizor m → SoundMinimizor (printed_first m).
Proof.
  intros Hm h s h' s' H. unfold printed_first in H.
  apply st_bind_Ok in H as ([] & s1 & ->%print_log_inv & H). exact (Hm h s h' s' H).
Qed.

(** Whatever the minimizers do, the history stays rejected: each keeps its
    promise. *)
Lemma minimize_all_sound : SoundMinimizor minimize_all.
Proof.
  unfold minimize_all. do 2 (apply (then_sound (printed_first _)); [exact _|]). apply printed_first_sound, SmartMinimizor_sound.
Qed.

(** And it is rejected on the tasks as the last minimizer leaves them. *)
Lemma minimize_all_rejected h s h' s' : minimize_all h s = Ok (h', s') → rejected_in s' h'.
Proof.
  unfold minimize_all. intros H. apply st_bind_Ok in H as (h1 & s1 & _ & H).
  apply st_bind_Ok in H as (h2 & s2 & _ & H). unfold printed_first in H.
  apply st_bind_Ok in H as (u & s0 & _ & H). unfold Minimize, SmartMinimizor in H.
  apply bind_Ok in H as ([h3 [x3 s3]] & H & E). injection E as -> ->. by eapply Smart_Minimize_rejected.
Qed.

(** With or without minimization, a history [Run] returns is one that the
    checker rejects on the tasks as [Run] leaves them. *)
Lemma Run_rejected s h s' : StrategyScheduler_Run s = Ok (Some h, s') → rejected_in s' h.
Proof.
  unfold StrategyScheduler_Run. generalize (max_rounds params) as rounds. intros rounds. revert s.
  induction rounds as [|rounds IH]; intros s H; cbn [Run_rounds] in H; [done|].
  apply st_bind_Ok in H as (r & s1 & H1 & H). destruct r as [h1|].
  - destruct (should_minimize_history params).
    + apply st_bind_Ok in H as (h2 & s2 & H2 & H). injection H as -> ->. by eapply minimize_all_rejected.
    + injection H as -> ->. by eapply RunRound_rejected.
  - apply st_bind_Ok in H as (u & s2 & _ & H). by eapply IH.
Qed.

(** ** All the rounds *)

Section rounds.
Context `{HL : !StrategyLaws} {SpecState : Type}.
Context (spec : gmap string (Method (State:=SpecState) (Args:=tuple))) (first_state : SpecState).
Context `{HCC : !CheckerCorrect spec first_state}.

(** The specification covers the next rounds that are played. *)
Fixpoint rounds_covered (rounds : nat) (s : St) : Prop :=
  match rounds with
  | 0 => True
  | S rounds =>
      ∀ h s1, run_loop inner fuel (max_tasks params) ([], []) s = Ok (h, s1) →
        covered spec (base s1) ∧ ∀ u s2, StartNextRound inner s1 = Ok (u, s2) → rounds_covered rounds s2
  end.

(** Running a round from [s] builds the history [h] and ends in [s']. *)
Record round_from (s : St) (h : BothHistories) (s' : St) : Prop := {
  rf_run : run_loop inner fuel (max_tasks params) ([], []) s = Ok (h, s');
  rf_well_formed : well_formed h.2;
  rf_responses : responses h.2 = max_tasks params;
}.

(** A round that was accepted, and the start of the next one. *)
Definition accepted_round (s s2 : St) : Prop :=
  ∃ h s1 u, round_from s h s1 ∧ linearizable spec (task_at (base s1)) h.2 first_state ∧
    StartNextRound inner s1 = Ok (u, s2).

Lemma StartNextRound_empty s u s' : StartNextRound inner s = Ok (u, s') → empty_round (base s').
Proof.
  intros (b & _ & ->)%StartNextRound_contract. apply clear_threads_empty.
Qed.

Lemma RunRound_cases rounds s r s' :
  RunRound inner fuel (max_tasks params) s = Ok (r, s') → empty_round (base s) → rounds_covered (S rounds) s →
  (∀ u s2, StartNextRound inner s' = Ok (u, s2) → rounds_covered rounds s2) ∧
  ∃ h, round_from s h s' ∧
    ((r = None ∧ linearizable spec (task_at (base s')) h.2 first_state) ∨
     (r = Some h ∧ ¬ linearizable spec (task_at (base s')) h.2 first_state)).
Proof.
  intros (h & Hrun & _ & H)%RunRound_parts He Hcov.
  destruct (run_loop_Ok _ _ _ _ _ _ _ Hrun) as [[_ Hrec] Hcount]; [by apply generating_empty|].
  destruct (Hcov _ _ Hrun) as [Hc Hnext].
  pose proof (records_checkable spec _ _ _ _ Hc Hrec (λ _ H, H) (λ _ _ H, H)) as Hck.
  apply (check_histories_Ok spec first_state) in H as [_ Hr]; [|done].
  split; [done|]. exists h. split; [|done]. split; [done|by destruct Hrec|]. simpl in Hcount. lia.
Qed.

(** C4: Without minimization, [Run] plays rounds until one is rejected: when
    it returns nothing, [max_rounds] rounds in a row were accepted, each with a
    linearizable history; when it returns a history, that is the history of the
    first round that is not linearizable. *)
Theorem Run_spec s r s' :
  StrategyScheduler_Run s = Ok (r, s') → should_minimize_history params = false →
  empty_round (base s) → rounds_covered (max_rounds params) s →
  match r with
  | None => nsteps accepted_round (max_rounds params) s s'
  | Some h => ∃ k s1, k < max_rounds params ∧ nsteps accepted_round k s s1 ∧ round_from s1 h s' ∧
      ¬ linearizable spec (task_at (base s')) h.2 first_state
  end.
Proof.
  unfold StrategyScheduler_Run. generalize (max_rounds params) as rounds. intros rounds H Hmin He Hcov.
  revert s H He Hcov. induction rounds as [|rounds IH]; intros s H He Hcov; cbn [Run_rounds] in H.
  { inv_st H. constructor. }
  apply st_bind_Ok in H as (r1 & s1 & H1 & H).
  destruct (RunRound_cases _ _ _ _ H1 He Hcov) as (Hnext & h & Hround & [[-> Hlin]|[-> Hlin]]).
  - apply st_bind_Ok in H as (u & s2 & H2 & H). pose proof (StartNextRound_empty _ _ _ H2) as He2.
    assert (accepted_round s s2) as Hacc by (exists h, s1, u; done).
    specialize (IH s2 H He2 (Hnext _ _ H2)). destruct r as [h'|].
    + destruct IH as (k & s3 & Hk & Hn & Hr). exists (S k), s3. split_and!; [lia|by econstructor|by destruct Hr..].
    + by econstructor.
  - rewrite Hmin in H. inv_st H. exists 0, s. split_and!; [lia|constructor|done|done].
Qed.
End rounds.
End run.
