(* ===== verification/Directed.v ===== *)
(** * Directed: a strategy that follows a script (pick_strategy.h, random_strategy.h)

    [Directed] is the strategy of a tester who decides everything by hand: a
    script names the thread of each step and, for a new task, the order in which
    the verifier is asked about the methods.  A step is refused only when the
    thread waits or has nothing to run.  It specifies what the strategies that
    pick a thread may do; RandomComplete.v shows that the random one can do all
    of it.  The first part is about asking the threads in turn, as
    [RandomStrategy] does. *)

From stdpp Require Import base gmap strings option list.
From S2P Require Import Prelude ValueWrapper History Coro Strategy PickStrategy.

(** ** Asking the threads in turn *)

Section asking.
Context `{HT : Target} `{HC : !Code} `{HV : StrategyVerifier}.
Context (skip : nat → stM BaseStrategy bool).

(** The threads of [ths] that are not to be skipped. *)
Fixpoint ask (ths : list nat) : stM BaseStrategy (list nat) :=
  match ths with
  | [] => mret []
  | i :: ths =>
      continue ← skip i;
      candidates ← ask ths;
      mret (if (continue : bool) then candidates else i :: candidates)
  end.

(** Asking the thread again gives the same answer and changes nothing. *)
Definition settled (b : BaseStrategy) (th : nat) : Prop := ∃ w, skip th b = Ok (w, b).

(** What the two tests of the strategies have in common. *)
Class Settles : Prop := {
  skip_settles th b w b' : skip th b = Ok (w, b') → skip th b' = Ok (w, b');
  skip_keeps_settled th b w b' th' w' :
    skip th b = Ok (w, b') → skip th' b = Ok (w', b) → skip th' b' = Ok (w', b');
  skip_keeps_length th b w b' : skip th b = Ok (w, b') → length (threads b') = length (threads b);
}.
Context `{HSk : !Settles}.

Lemma ask_length ths b c b' : ask ths b = Ok (c, b') → length (threads b') = length (threads b).
Proof.
  revert b c b'. induction ths as [|i ths IH]; intros b c b' H; cbn [ask] in H; [by inv_st H|].
  apply st_bind_Ok in H as (w & b1 & H1%skip_keeps_length & H).
  apply st_bind_Ok in H as (c1 & b2 & H2%IH & H). injection H as _ <-. congruence.
Qed.

Lemma ask_keeps ths b c b' th w : ask ths b = Ok (c, b') → skip th b = Ok (w, b) → skip th b' = Ok (w, b').
Proof.
  revert b c b'. induction ths as [|i ths IH]; intros b c b' H Hs; cbn [ask] in H; [by inv_st H|].
  apply st_bind_Ok in H as (w1 & b1 & H1 & H).
  apply st_bind_Ok in H as (c1 & b2 & H2 & H). injection H as _ <-.
  eapply IH; [exact H2|]. by eapply skip_keeps_settled.
Qed.

(** The candidates are those the test lets pass, and stay so. *)
Lemma ask_settles ths b c b' :
  ask ths b = Ok (c, b') → Forall (settled b') ths ∧ ask ths b' = Ok (c, b').
Proof.
  revert b c b'. induction ths as [|i ths IH]; intros b c b' H; cbn [ask] in H; [by inv_st H|].
  apply st_bind_Ok in H as (w & b1 & H1 & H).
  apply st_bind_Ok in H as (c1 & b2 & H2 & H). injection H as <- <-.
  pose proof (ask_keeps _ _ _ _ _ _ H2 (skip_settles _ _ _ _ H1)) as Hi.
  destruct (IH _ _ _ H2) as [Hall Hask]. split; [constructor; [by exists w|done]|].
  cbn [ask]. st_step Hi. by st_step Hask.
Qed.

Lemma ask_sub ths b c b' th : ask ths b = Ok (c, b') → th ∈ c → th ∈ ths.
Proof.
  revert b c b'. induction ths as [|i ths IH]; intros b c b' H Hth; cbn [ask] in H; [by inv_st H|].
  apply st_bind_Ok in H as (w & b1 & H1 & H).
  apply st_bind_Ok in H as (c1 & b2 & H2 & H). injection H as <- <-.
  destruct w; [right; by eapply IH|]. apply elem_of_cons in Hth as [->|Hth]; [by left|right; by eapply IH].
Qed.

Lemma ask_settled ths b : Forall (settled b) ths → ∃ c, ask ths b = Ok (c, b).
Proof.
  induction 1 as [|i ths [w Hw] _ [c IH]]; [by exists []|]. exists (if w then c else i :: c).
  cbn [ask]. st_step Hw. by st_step IH.
Qed.
End asking.

Section tests.
Context `{HT : Target} `{HC : !Code} `{HV : StrategyVerifier}.

(** What [waiting] leaves: the futex of the thread's last task is forgotten
    when its word has changed. *)
Definition rest (th : nat) (s : BaseStrategy) : BaseStrategy :=
  with_threads (alter (λ thread : list CoroBase,
    match last thread with
    | Some c => if IsParked c (world s) then thread else <[pred (length thread) := (IsBlocked c (world s)).2]> thread
    | None => thread
    end) th (threads s)) s.

Lemma rest_ext th s (f : list CoroBase → list CoroBase) thread :
  threads s !! th = Some thread →
  f thread = match last thread with
    | Some c => if IsParked c (world s) then thread else <[pred (length thread) := (IsBlocked c (world s)).2]> thread
    | None => thread
    end →
  rest th s = with_threads (alter f th (threads s)) s.
Proof.
  intros Ht Hf. unfold rest. f_equal. apply list_alter_ext; [|done]. intros x Hx.
  assert (x = thread) as -> by congruence. done.
Qed.

Lemma rest_id th s thread :
  threads s !! th = Some thread →
  (∀ c, last thread = Some c → IsParked c (world s) = false → (IsBlocked c (world s)).2 = c) →
  rest th s = s.
Proof.
  intros Ht Hc. rewrite (rest_ext th s (λ t, t) thread Ht).
  - rewrite (list_alter_id _ _ _ (λ t, eq_refl)). by destruct s.
  - destruct (last thread) as [c|] eqn:Hl; [|done]. destruct (IsParked c (world s)) eqn:Hp; [done|].
    rewrite (Hc c eq_refl Hp), list_insert_id; [done|]. by rewrite <-last_lookup.
Qed.

Lemma waiting_rest s th : th < length (threads s) → waiting th s = Ok (waits s th, rest th s).
Proof.
  intros [thread Ht]%lookup_lt_is_Some_2. unfold waiting, waits.
  st_step (thread_empty_eq s th thread Ht). rewrite Ht. cbn [mbind option_bind].
  destruct (length thread) as [|n] eqn:Hn.
  { apply nil_length_inv in Hn as ->. by rewrite (rest_id th s [] Ht). }
  destruct (last_is_Some_length thread n Hn) as [c Hc]. rewrite Hc.
  pose proof (λ f, rest_ext th s f thread Ht) as Hrest. rewrite Hc, Hn in Hrest. cbn [pred] in Hrest.
  destruct thread as [|c0 thread0] eqn:Hthread; [done|]. rewrite <-Hthread in *.
  st_step (back_ref_eq s th thread n Ht Hn).
  assert (slot s (th, n) = Some c) as Hslot by (by eapply back_slot).
  assert (task_IsParked (th, n) s = Ok (IsParked c (world s), s)) as Hp.
  { unfold task_IsParked. rewrite (st_bind_eq _ _ s c s) by (by apply get_task_Ok). done. }
  st_step Hp. destruct (IsParked c (world s)) eqn:Hpark.
  { rewrite (rest_id th s thread Ht); [done|]. intros c' Hc'. congruence. }
  assert (task_IsBlocked (th, n) s = Ok (blocked_on (fstate c) (world s),
    set_slot (th, n) (IsBlocked c (world s)).2 s)) as -> by (apply task_IsBlocked_Ok; eauto).
  by rewrite (Hrest _ eq_refl).
Qed.

Lemma rest_none th s : threads s !! th = None → rest th s = s.
Proof.
  intros Ht. unfold rest. rewrite (list_alter_ext _ (λ t, t) _ (threads s)); [|congruence|done].
  rewrite (list_alter_id _ _ _ (λ t, eq_refl)). by destruct s.
Qed.

Lemma rest_rest th s : rest th (rest th s) = rest th s.
Proof.
  destruct (threads s !! th) as [thread|] eqn:Ht; [|by rewrite !(rest_none th s Ht)].
  destruct (last thread) as [c|] eqn:Hc.
  2:{ rewrite (rest_id th s thread Ht) by congruence. by apply (rest_id th s thread Ht); congruence. }
  destruct (IsParked c (world s)) eqn:Hp.
  { rewrite (rest_id th s thread Ht) by congruence. by apply (rest_id th s thread Ht); congruence. }
  destruct (length thread) as [|n] eqn:Hn; [by destruct thread|].
  eapply rest_id; [unfold rest; simpl; rewrite list_lookup_alter_eq, Ht; simpl; by rewrite Hc, Hp, Hn|].
  rewrite last_lookup, length_insert, Hn. simpl. rewrite list_lookup_insert_eq by lia.
  intros c' [= <-] _. unfold IsBlocked. destruct (blocked_on (fstate c) (world s)) eqn:Hb; cbn [snd].
  - by rewrite Hb.
  - done.
Qed.

Lemma rest_keeps th th' s : rest th' s = s → rest th' (rest th s) = rest th s.
Proof.
  intros H. destruct (decide (th = th')) as [->|Hne]; [apply rest_rest|].
  apply (f_equal threads) in H. unfold rest in H |- *. simpl in H |- *. unfold with_threads at 1 2. simpl.
  rewrite list_alter_alter_ne by done. by rewrite H.
Qed.

Lemma rest_waits th s th' : th < length (threads s) → waits (rest th s) th' = waits s th'.
Proof.
  intros Hth. pose proof (waiting_rest s th Hth) as H.
  apply waiting_Ok in H as (_ & _ & _ & H). apply H.
Qed.

Lemma rest_length th s : length (threads (rest th s)) = length (threads s).
Proof. unfold rest. simpl. apply length_alter. Qed.

Lemma waiting_inv th b w b' :
  waiting th b = Ok (w, b') → th < length (threads b) ∧ w = waits b th ∧ b' = rest th b.
Proof.
  intros H. pose proof H as (Hth & _)%waiting_Ok. rewrite (waiting_rest b th Hth) in H. by simplify_eq.
Qed.

#[global] Instance waiting_settles : Settles waiting.
Proof.
  split.
  - intros th b w b' (Hth & -> & ->)%waiting_inv.
    rewrite waiting_rest by (by rewrite rest_length). by rewrite rest_rest, rest_waits.
  - intros th b w b' th' w' (Hth & -> & ->)%waiting_inv (Hth' & -> & Hb)%waiting_inv.
    rewrite waiting_rest by (by rewrite rest_length). by rewrite rest_keeps, rest_waits by done.
  - intros th b w b' (Hth & -> & ->)%waiting_inv. apply rest_length.
Qed.

#[global] Instance nothing_to_run_settles : Settles nothing_to_run.
Proof.
  split.
  - intros th b w b' H. by pose proof H as [_ ->]%nothing_to_run_Ok.
  - by intros th b w b' th' w' [_ ->]%nothing_to_run_Ok.
  - by intros th b w b' [_ ->]%nothing_to_run_Ok.
Qed.
End tests.

(** ** The strategy *)

(** The elements of [l] in the order of the indexes in [p]. *)
Definition permute {A} (p : list nat) (l : list A) : option (list A) :=
  if bool_decide (NoDup p ∧ length p = length l ∧ Forall (λ i, i < length l) p)
  then Some (omap (λ i, l !! i) p) else None.

Lemma omap_fmap_ext {A} (f g : nat → option A) (h : nat → nat) (p : list nat) :
  (∀ i, f (h i) = g i) → omap f (h <$> p) = omap g p.
Proof. intros H. apply list_omap_ext, Forall2_fmap_l, Forall_Forall2_diag, Forall_true, H. Qed.

Lemma omap_lookup_seq {A} (l : list A) : omap (λ i, l !! i) (seq 0 (length l)) = l.
Proof.
  induction l as [|x l IH]; [done|].
  cbn [length]. change (seq 0 (S (length l))) with (0 :: seq 1 (length l)). rewrite <-fmap_S_seq.
  transitivity (x :: omap (λ i, l !! i) (seq 0 (length l))); [|by rewrite IH].
  change (x :: omap (λ i, (x :: l) !! i) (S <$> seq 0 (length l)) = x :: omap (λ i, l !! i) (seq 0 (length l))).
  f_equal. by apply omap_fmap_ext.
Qed.

Lemma permute_Permutation {A} p (l l' : list A) : permute p l = Some l' → Permutation l' l.
Proof.
  unfold permute. case_bool_decide as H; [|done]. destruct H as (Hnd & Hlen & Hall). intros [= <-].
  assert (p ≡ₚ seq 0 (length l)) as Hp.
  { apply submseteq_length_Permutation; [|by rewrite length_seq, Hlen]. apply NoDup_submseteq; [done|].
    intros i Hi. apply elem_of_seq. eapply Forall_forall in Hall; [|exact Hi]. simpl in Hall. lia. }
  rewrite Hp at 1. by rewrite omap_lookup_seq.
Qed.

Lemma Permutation_permute {A} (l l' : list A) : Permutation l' l → ∃ p, permute p l = Some l'.
Proof.
  intros (Hlen & f & Hinj & Hf)%Permutation_inj. exists (f <$> seq 0 (length l')).
  unfold permute. rewrite bool_decide_true.
  - f_equal. rewrite <-(omap_lookup_seq l') at 2. by apply omap_fmap_ext.
  - split_and!; [by apply NoDup_fmap_2, NoDup_seq|by rewrite length_fmap, length_seq|].
    apply Forall_fmap, Forall_forall. intros i Hi%elem_of_seq. simpl.
    destruct (lookup_lt_is_Some_2 l' i) as [x Hx]; [lia|]. rewrite Hf in Hx. by apply lookup_lt_Some in Hx.
Qed.

(** A line of the script: the thread, and the order in which the verifier is
    asked when the thread needs a new task. *)
Record choice := mk_choice { ch_thread : nat; ch_order : list nat }.

Section directed.
Context `{HT : Target} `{HC : !Code} `{HV : StrategyVerifier}.

Abbreviation DirectedSt := (BaseStrategy * list choice)%type.

Definition next_line {A} (m : choice → stM BaseStrategy A) : stM DirectedSt A := λ '(b, script),
  match script with
  | [] => Fail (RuntimeError "the script has ended")
  | ch :: script => '(a, b) ← m ch b; Ok (a, (b, script))
  end.

Definition in_directed {A} (m : stM BaseStrategy A) : stM DirectedSt A :=
  λ s, '(a, b) ← m s.1; Ok (a, (b, s.2)).

(** The thread of the line, one of those that [skip] lets pass. *)
Definition directed_thread (skip : nat → stM BaseStrategy bool) (ch : choice) : stM BaseStrategy nat :=
  s ← st_get;
  candidates ← ask skip (seq 0 (length (threads s)));
  _ ← st_assert "the thread can run" (bool_decide (ch_thread ch ∈ candidates));
  mret (ch_thread ch).

Definition directed_Next (ch : choice) : stM BaseStrategy TaskWithMetaData :=
  th ← directed_thread waiting ch;
  fresh ← needs_new_task th;
  if (fresh : bool) then
    s ← st_get;
    cs ← st_lift (or_fail (RuntimeError "not an order of the methods") (permute (ch_order ch) (constructors s)));
    _ ← st_put (with_constructors cs s);
    new_task th
  else
    r ← back_ref th;
    mret (mk_TaskWithMetaData r false th).

Definition directed_NextSchedule (ch : choice) : stM BaseStrategy TaskWithMetaData :=
  th ← directed_thread nothing_to_run ch;
  schedule_thread th.

#[global] Instance Directed : Strategy := {|
  St := DirectedSt;
  base := fst;
  set_base b s := (b, s.2);
  Next _ := next_line directed_Next;
  NextSchedule := next_line directed_NextSchedule;
  StartNextRound fuel :=
    _ ← in_directed (st_modify (with_new_task_id 0));
    _ ← in_directed (TerminateTasks fuel);
    in_directed (st_modify clear_threads);
  ResetCurrentRound fuel := in_directed (base_ResetCurrentRound fuel);
|}.

(** Any thread that can run may be chosen: one whose last task, if it has one,
    is neither parked nor blocked. *)
Lemma ask_waiting ths b :
  Forall (λ i, i < length (threads b)) ths →
  ∃ b', ask waiting ths b = Ok (ready b ths, b') ∧ looked b b' ∧ ∀ i, waits b' i = waits b i.
Proof.
  intros Hths. revert b Hths. induction ths as [|i ths IH]; intros b Hths; [by exists b|].
  apply Forall_cons in Hths as [Hi Hths]. destruct (waiting_eq b i Hi) as (b1 & H1 & Hl1 & _ & Hs1).
  destruct (IH b1) as (b2 & H2 & Hl2 & Hs2).
  { by rewrite (looked_threads_length _ _ Hl1). }
  assert (ready b1 ths = ready b ths) as Er.
  { apply ready_same. split; [by apply looked_threads_length|done]. }
  exists b2. cbn [ask]. st_step H1. st_step H2. split_and!; [|by etransitivity|intros j; by rewrite Hs2].
  rewrite Er. unfold ready. rewrite filter_cons. by destruct (waits b i).
Qed.

Lemma directed_thread_waiting ch b :
  (ch_thread ch < length (threads b) → waits b (ch_thread ch) = false →
    ∃ b', directed_thread waiting ch b = Ok (ch_thread ch, b')) ∧
  ∀ t b', directed_thread waiting ch b = Ok (t, b') →
    t = ch_thread ch ∧ t < length (threads b) ∧ waits b' t = false ∧ looked b b'.
Proof.
  destruct (ask_waiting (seq 0 (length (threads b))) b) as (b1 & Hask & Hl & Hs).
  { apply Forall_forall. intros i Hi%elem_of_seq. lia. }
  unfold directed_thread. rewrite st_get_bind. split.
  - intros Hlt Hw. exists b1. st_step Hask. rewrite (st_bind_eq _ _ b1 tt b1); [done|].
    apply st_assert_Ok. rewrite bool_decide_true; [done|]. apply list_elem_of_filter.
    split; [done|]. apply elem_of_seq. lia.
  - intros t b' H. st_step_in H Hask.
    apply st_bind_Ok in H as (u & b2 & [Ht ->]%st_assert_Ok & H). injection H as <- <-.
    apply bool_decide_eq_true, list_elem_of_filter in Ht as [Hw Ht%elem_of_seq].
    split_and!; [done|lia|by rewrite Hs|done].
Qed.

(** It is a strategy like the others. *)
Lemma directed_Next_ok ch b t b' :
  directed_Next ch b = Ok (t, b') →
  next_ok b t b' ∧
  (is_new t = true → ∀ c, slot b' (task t) = Some c →
     asked (sched_checker b) (thread_id t) (name c) (sched_checker b')).
Proof.
  unfold directed_Next. intros H.
  apply st_bind_Ok in H as (th & b1 & (_ & _ & Hw & Hl)%(proj2 (directed_thread_waiting ch b)) & H).
  apply st_bind_Ok in H as (f & b2 & Hf & H). pose proof Hf as [-> _]%needs_new_task_Ok. destruct f.
  - rewrite st_get_bind in H. apply st_bind_Ok in H as (cs & b3 & [Hp%or_fail_Ok ->]%st_lift_Ok & H).
    rewrite st_put_bind in H.
    destruct (new_task_ok _ _ cs th t b' Hl Hf (permute_Permutation _ _ _ Hp) H) as (Hok & _ & Hth & Ha).
    split; [exact Hok|]. intros _ c Hc. rewrite Hth. by apply Ha.
  - apply st_bind_Ok in H as (r & b3 & Hr & H). injection H as <- <-. split; [by eapply continue_ok|done].
Qed.

Lemma directed_thread_schedule ch b t b' : directed_thread nothing_to_run ch b = Ok (t, b') → b' = b.
Proof.
  unfold directed_thread. rewrite st_get_bind. intros H.
  apply st_bind_Ok in H as (c & b1 & Hask & H).
  apply st_bind_Ok in H as (u & b2 & [_ ->]%st_assert_Ok & H). injection H as _ <-.
  revert c Hask. generalize (seq 0 (length (threads b))) as ths.
  intros ths. induction ths as [|i ths IH]; intros c H; cbn [ask] in H; [by inv_st H|].
  apply st_bind_Ok in H as (w & b1' & [_ ->]%nothing_to_run_Ok & H).
  apply st_bind_Ok in H as (c1 & b3 & H3 & H). injection H as _ <-. by eapply IH.
Qed.

#[global] Instance Directed_laws : StrategyLaws (HS:=Directed).
Proof.
  split; simpl.
  - done.
  - intros _ [b [|ch script]] t s' H; [done|]. apply bind_Ok in H as ([t1 b1] & H & [= <- <-]).
    by apply directed_Next_ok in H as [? _].
  - intros [b [|ch script]] t s' H; [done|]. apply bind_Ok in H as ([t1 b1] & H & [= <- <-]).
    unfold directed_NextSchedule in H.
    apply st_bind_Ok in H as (th & b2 & ->%directed_thread_schedule & H). by apply schedule_thread_Ok in H.
  - intros fuel [b script] u s' H.
    apply st_bind_Ok in H as (u1 & s1 & [= <- <-] & H).
    apply st_bind_Ok in H as (u2 & s2 & H2 & H). injection H as _ <-.
    apply bind_Ok in H2 as ([[] b1] & Hb & [= <- <-]). by exists b1.
  - intros fuel [b script] u s' H. apply bind_Ok in H as ([[] b1] & Hb & [= <- <-]). done.
Qed.

#[global] Instance Directed_asks : StrategyAsks (HS:=Directed) asked.
Proof.
  intros fuel [b [|ch script]] t s' H; [done|]. apply bind_Ok in H as ([t1 b1] & H & [= <- <-]).
  by apply directed_Next_ok in H as [_ ?].
Qed.
End directed.
