(* ===== verification/RandomComplete.v ===== *)
(** * RandomComplete: the random strategy follows a script of draws
      (random_strategy.h, pick_strategy.h)

    The random strategy is [Directed] (Directed.v) with its script drawn at
    random ([chosen]): what it does with a random engine depends on the sequence
    of the draws only, and every script is the work of some sequence of draws
    ([oracle]).  Which sequences [std::mt19937] gives is no part of this: it has
    finitely many states, and the program seeds it with 32 bits.  The relation
    holds for the operations of the strategies and goes through the scheduler,
    which only sees the interface. *)

From stdpp Require Import base gmap strings option list.
From S2P Require Import Prelude ValueWrapper Text History Linearizability Coro Strategy PickStrategy PrettyPrint Scheduler.
From S2P Require Import Minimization Smart SmartCorrect SchedulerRun Directed.

(** ** A sequence of draws

    Drawing an order and drawing an index from a list written down beforehand;
    where the list says nothing, the draws change nothing and give 0. *)

Inductive drawn := Order (p : list nat) | Index (n : nat).

Definition oracle : Rng := {|
  rng := list drawn;
  shuffle A l g := match g with Order p :: g => (default l (permute p l), g) | _ => (l, g) end;
  uniform_int a b g := (a, g);
  discrete ws g :=
    match g with Index n :: g => (if decide (n < length ws) then Z.of_nat n else 0%Z, g) | _ => (0%Z, g) end;
|}.

(** The lists do what the distributions promise. *)
Lemma oracle_laws : RngLaws (H:=oracle).
Proof.
  split.
  - intros A l [|[p|n] g]; simpl; [done| |done]. destruct (permute p l) as [l'|] eqn:E; [|done].
    by eapply permute_Permutation.
  - intros a b g. simpl. lia.
  - intros ws g _ Hs. assert (0 < length ws) by (destruct ws; simpl in *; lia).
    destruct g as [|[p|n] g]; simpl; [lia..|]. case_decide; lia.
Qed.

(** A source each of whose draws can be written down, whatever is drawn
    afterwards. *)
Record written_down `{Rng} : Prop := {
  shuffle_any {A} (l l' : list A) g : Permutation l' l → ∃ g0, shuffle l g0 = (l', g);
  discrete_any ws n g : Forall (λ w, 0 < w)%Z ws → n < length ws → ∃ g0, discrete ws g0 = (Z.of_nat n, g);
}.

Lemma oracle_written_down : written_down (H:=oracle).
Proof.
  split.
  - intros A l l' g [p Hp]%Permutation_permute. exists (Order p :: g). simpl. by rewrite Hp.
  - intros ws n g _ Hn. exists (Index n :: g). simpl. by rewrite decide_True.
Qed.

(** ** The random choice of a thread *)

Section picking.
Context `{HT : Target} `{HC : !Code} `{HV : StrategyVerifier} `{HR : Rng} `{HRL : !RngLaws}.
Context (skip : nat → stM BaseStrategy bool) `{HSk : !Settles skip}.
Context (ws : list Z) (Hpos : Forall (λ w, 0 < w)%Z ws).

Abbreviation mk_state b g pw := (mk_Pick b g (Random.mk_Random ws pw)).

Definition weights_of (c : list nat) : list Z := omap (λ i, ws !! i) c.

Lemma collect_ask ths b g pw :
  Forall (λ i, i < length ws) ths →
  Random.collect skip ths (mk_state b g pw) =
    ('(c, b') ← ask skip ths b; Ok (tt, mk_state b' g (pw ++ weights_of c))).
Proof.
  intros Hths. revert b pw. induction Hths as [|i ths Hi _ IH]; intros b pw; cbn [Random.collect ask].
  { simpl. by rewrite app_nil_r. }
  destruct (skip i b) as [[w b1]|f] eqn:Hs.
  2:{ unfold mbind, stM_bind, in_base. simpl. by rewrite Hs. }
  assert (in_base (skip i) (mk_state b g pw) = Ok (w, mk_state b1 g pw)) as E by (unfold in_base; simpl; by rewrite Hs).
  st_step E. rewrite (st_bind_eq _ _ _ _ _ Hs). destruct w.
  - assert (∀ u : unit, (mret u : stM (PickState Random.RandomStrategy) unit) (mk_state b1 g pw) = Ok (u, mk_state b1 g pw)) as Er by done.
    st_step (Er tt). rewrite IH. destruct (ask skip ths b1) as [[c b2]|] eqn:Ha; [by st_step Ha|].
    by rewrite (st_bind_fail _ _ _ _ Ha).
  - destruct (lookup_lt_is_Some_2 ws i Hi) as [x Hx].
    rewrite (st_bind_eq _ _ _ tt (mk_state b1 g (pw ++ [x]))).
    2:{ rewrite st_get_bind. by st_lift_step (vec_get_Some _ _ _ Hx). }
    rewrite IH. destruct (ask skip ths b1) as [[c b2]|] eqn:Ha.
    2:{ by rewrite (st_bind_fail _ _ _ _ Ha). }
    st_step Ha. unfold weights_of. simpl. by rewrite Hx, <-app_assoc.
Qed.

Lemma select_ask ths num c s :
  Forall (settled skip (pick_base s)) ths → ask skip ths (pick_base s) = Ok (c, pick_base s) → (0 ≤ num)%Z →
  Random.select skip ths num s =
    match c !! Z.to_nat num with
    | Some t => Ok (t, s)
    | None => Fail (AssertFailed "Cannot pick thread to continue round")
    end.
Proof.
  intros Hths. revert num c. induction Hths as [|i ths [w Hw] Hths IH]; intros num c Hc Hnum;
    cbn [Random.select ask] in *; [by inv_st Hc|].
  st_step_in Hc Hw. destruct (ask_settled skip _ _ Hths) as [c1 Hc1]. st_step_in Hc Hc1. injection Hc as <-.
  assert (in_base (skip i) s = Ok (w, s)) as E by (unfold in_base; rewrite Hw; by destruct s).
  st_step E. destruct w; [by apply IH|].
  destruct (Z.eqb_spec num 0) as [->|Hne]; [done|]. rewrite (IH _ c1) by (done || lia).
  by replace (Z.to_nat num) with (S (Z.to_nat (num - 1))) by lia.
Qed.

Lemma weights_of_length c : Forall (λ i, i < length ws) c → length (weights_of c) = length c.
Proof.
  induction 1 as [|i c Hi _ IH]; [done|]. unfold weights_of in *. simpl.
  destruct (lookup_lt_is_Some_2 ws i Hi) as [x ->]. simpl. by f_equal.
Qed.

Lemma weights_of_pos c : Forall (λ w, 0 < w)%Z (weights_of c).
Proof.
  apply Forall_forall. intros w (i & _ & Hi)%list_elem_of_omap.
  eapply (Forall_lookup_1 _ _ _ _ Hpos Hi).
Qed.

(** [Pick] and [PickSchedule] of the random strategy, taken apart: all the
    threads are asked, and the draw picks one of those that are left. *)
Lemma pick_with_ask b g pw t s' :
  length (threads b) ≤ length ws →
  Random.pick_with skip (mk_state b g pw) = Ok (t, s') ↔
  ∃ c b' n g', ask skip (seq 0 (length (threads b))) b = Ok (c, b') ∧
    discrete (weights_of c) g = (Z.of_nat n, g') ∧ c !! n = Some t ∧ s' = mk_state b' g' (weights_of c).
Proof.
  intros Hlen. set (ths := seq 0 (length (threads b))).
  assert (Forall (λ i, i < length ws) ths) as Hths by (apply Forall_forall; intros i Hi%elem_of_seq; lia).
  unfold Random.pick_with. rewrite st_modify_bind, st_get_bind. cbv zeta. simpl. fold ths.
  pose proof (collect_ask ths b g [] Hths) as Hcol. unfold with_sub. simpl in Hcol |- *.
  destruct (ask skip ths b) as [[c b']|] eqn:Hask.
  2:{ unfold mbind at 1, stM_bind. rewrite Hcol. simpl. split; [done|]. naive_solver. }
  cbn [mbind outcome_bind] in Hcol. st_step Hcol. rewrite st_get_bind. simpl.
  destruct (ask_settles skip _ _ _ _ Hask) as [Hset Hask'].
  assert (Forall (λ i, i < length ws) c) as Hc.
  { apply Forall_forall. intros i Hi. apply (ask_sub skip _ _ _ _ _ Hask) in Hi. by eapply Forall_forall in Hths. }
  pose proof (weights_of_length c Hc) as Hwl.
  destruct (decide (c = [])) as [->|Hne].
  { simpl. split; [done|]. by intros (? & ? & ? & ? & [= <- <-] & _ & ? & _). }
  destruct (discrete (weights_of c) g) as [num g'] eqn:Hd.
  assert (0 ≤ num < Z.of_nat (length c))%Z as Hnum.
  { pose proof (weights_of_pos c) as Hp. rewrite <-Hwl.
    pose proof (discrete_range (weights_of c) g) as H. rewrite Hd in H. apply H.
    - eapply Forall_impl; [exact Hp|]. simpl. lia.
    - assert (weights_of c ≠ []) as Hn by (intros E; by destruct c; rewrite E in Hwl).
      destruct Hp as [|w l Hw Hl]; [done|]. simpl. assert (0 ≤ foldr Z.add 0 l)%Z; [|lia].
      clear -Hl. induction Hl; simpl in *; lia. }
  rewrite (st_bind_eq _ _ _ tt (mk_state b' g (weights_of c))).
  2:{ apply st_assert_Ok. split; [|done]. rewrite bool_decide_false; [done|]. intros E. by destruct c; rewrite E in Hwl. }
  rewrite st_put_bind. rewrite (select_ask ths num c) by (done || lia).
  destruct (lookup_lt_is_Some_2 c (Z.to_nat num)) as [t' Ht']; [lia|]. rewrite Ht'. split.
  - intros [= <- <-]. exists c, b', (Z.to_nat num), g'. rewrite Z2Nat.id by lia. done.
  - intros (c1 & b1 & n & g1 & [= <- <-] & E & Hn & ->). rewrite Hd in E. injection E as -> ->.
    rewrite Nat2Z.id in Ht'. by simplify_eq.
Qed.
End picking.

(** ** The same runs *)

Create HintDb chosen.

Section chosen.
Context `{HT : Target} `{HC : !Code} `{HV : StrategyVerifier} `{HR : Rng} `{HRL : !RngLaws}.
Context (ws : list Z) (Hpos : Forall (λ w, 0 < w)%Z ws).

Abbreviation RandomSt := (PickState Random.RandomStrategy).
Abbreviation DirectedSt := (BaseStrategy * list choice)%type.

(** There is a weight for each thread. *)
Definition weighted (b : BaseStrategy) : Prop := length (threads b) ≤ length ws.
Definition keeps_threads {A} (m : stM BaseStrategy A) : Prop :=
  ∀ b a b', m b = Ok (a, b') → length (threads b') = length (threads b).

(** Whatever [m] does, [d] does for some script; and whatever [d] does, [m]
    does for some draws, when they can be written down, and any afterwards. *)
Record chosen {A} (m : stM RandomSt A) (d : stM DirectedSt A) : Prop := {
  chosen_script b g pw a s' :
    weighted b → m (mk_Pick b g (Random.mk_Random ws pw)) = Ok (a, s') →
    weighted (pick_base s') ∧ Random.weights (pick_sub s') = ws ∧
    ∃ script, ∀ rest, d (b, script ++ rest) = Ok (a, (pick_base s', rest));
  chosen_source b script a b' rest :
    written_down → weighted b → d (b, script) = Ok (a, (b', rest)) →
    weighted b' ∧ ∀ g', ∃ g, ∀ pw, ∃ pw',
      m (mk_Pick b g (Random.mk_Random ws pw)) = Ok (a, mk_Pick b' g' (Random.mk_Random ws pw'));
}.

Lemma pick_eta (s : RandomSt) :
  Random.weights (pick_sub s) = ws → s = mk_Pick (pick_base s) (pick_rng s) (Random.mk_Random ws (Random.pick_weights (pick_sub s))).
Proof. by destruct s as [b g [w pw]]; simpl; intros ->. Qed.

Lemma chosen_ret {A} (a : A) : chosen (mret a) (mret a).
Proof.
  split.
  - intros b g pw a' s' Hw [= <- <-]. split_and!; [done..|]. by exists [].
  - intros b script a' b' rest _ Hw [= <- <- <-]. split; [done|]. intros g'. exists g'. eauto.
Qed.

Lemma chosen_bind {A B} (m : stM RandomSt A) d (k : A → stM RandomSt B) k' :
  chosen m d → (∀ a, chosen (k a) (k' a)) → chosen (m ≫= k) (d ≫= k').
Proof.
  intros [Hm1 Hm2] Hk. split.
  - intros b g pw a s' Hw H. apply st_bind_Ok in H as (a1 & s1 & H1 & H).
    destruct (Hm1 _ _ _ _ _ Hw H1) as (Hw1 & Hws1 & sc1 & Hd1). rewrite (pick_eta s1 Hws1) in H.
    destruct (chosen_script _ _ (Hk a1) _ _ _ _ _ Hw1 H) as (Hw2 & Hws2 & sc2 & Hd2).
    split_and!; [done..|]. exists (sc1 ++ sc2). intros rest. rewrite <-app_assoc. by st_step (Hd1 (sc2 ++ rest)).
  - intros b script a b' rest HF Hw H. apply st_bind_Ok in H as (a1 & [b1 script1] & H1 & H).
    destruct (Hm2 _ _ _ _ _ HF Hw H1) as [Hw1 Hs1].
    destruct (chosen_source _ _ (Hk a1) _ _ _ _ _ HF Hw1 H) as [Hw2 Hs2]. split; [done|].
    intros g'. destruct (Hs2 g') as [g1 Hg1], (Hs1 g1) as [g Hg]. exists g. intros pw.
    destruct (Hg pw) as [pw1 E1], (Hg1 pw1) as [pw2 E2]. exists pw2. by st_step E1.
Qed.

Lemma chosen_fail {A} f : chosen (A := A) (st_fail f) (st_fail f).
Proof. by split. Qed.

Lemma chosen_lift {A} (m : outcome A) : chosen (st_lift m) (st_lift m).
Proof. destruct m as [a|f]; [apply (chosen_ret a)|apply (chosen_fail f)]. Qed.

(** The scheduler reads the common part of the state only. *)
Lemma chosen_get {A} (k : BaseStrategy → stM RandomSt A) k' :
  (∀ b, chosen (k b) (k' b)) → chosen (s ← st_get; k (pick_base s)) (s ← st_get; k' s.1).
Proof.
  intros Hk. split.
  - intros b g pw a s' Hw H. exact (chosen_script _ _ (Hk b) _ _ _ _ _ Hw H).
  - intros b script a b' rest HF Hw H. exact (chosen_source _ _ (Hk b) _ _ _ _ _ HF Hw H).
Qed.

Lemma chosen_on_base {A} (m : stM BaseStrategy A) :
  keeps_threads m → chosen (on_base (H1:=PickStrategy) m) (on_base (H1:=Directed) m).
Proof.
  intros Hm. unfold weighted in *. split.
  - intros b g pw a s' Hw H. apply bind_Ok in H as ([a1 b1] & H1 & [= <- <-]). simpl in H1.
    unfold weighted. simpl. rewrite (Hm _ _ _ H1). split_and!; [done..|].
    exists []. intros rest. unfold on_base. simpl. by rewrite H1.
  - intros b script a b' rest _ Hw H. apply bind_Ok in H as ([a1 b1] & H1 & E). simpl in H1, E. injection E as <- <- <-.
    unfold weighted. rewrite (Hm _ _ _ H1). split; [done|]. intros g'. exists g'. intros pw. exists pw.
    unfold on_base. simpl. by rewrite H1.
Qed.

(** ** Each step *)

Lemma directed_thread_Ok skip ch b t b' :
  directed_thread skip ch b = Ok (t, b') ↔
  t = ch_thread ch ∧ ∃ c, ask skip (seq 0 (length (threads b))) b = Ok (c, b') ∧ t ∈ c.
Proof.
  unfold directed_thread. rewrite st_get_bind. split.
  - intros H. apply st_bind_Ok in H as (c & b1 & Hc & H).
    apply st_bind_Ok in H as (u & b2 & [Ht ->]%st_assert_Ok & H). injection H as <- <-.
    apply bool_decide_eq_true in Ht. eauto.
  - intros (-> & c & Hc & Ht). st_step Hc.
    rewrite (st_bind_eq _ _ _ tt b'); [done|]. apply st_assert_Ok. by rewrite bool_decide_true.
Qed.

(** Drawing a thread. *)
Lemma pick_with_chosen skip `{HSk : !Settles skip} b g pw t s' :
  weighted b → Random.pick_with skip (mk_Pick b g (Random.mk_Random ws pw)) = Ok (t, s') →
  weighted (pick_base s') ∧ Random.weights (pick_sub s') = ws ∧
  ∀ order, directed_thread skip (mk_choice t order) b = Ok (t, pick_base s').
Proof.
  intros Hw (c & b' & n & g' & Hask & _ & Hn & ->)%pick_with_ask; [|done..].
  unfold weighted in *. simpl. rewrite (ask_length skip _ _ _ _ Hask). split_and!; [done..|].
  intros order. apply directed_thread_Ok. split; [done|]. exists c. split; [done|by eapply list_elem_of_lookup_2].
Qed.

Lemma directed_thread_source skip `{HSk : !Settles skip} ch b t b' :
  written_down → weighted b → directed_thread skip ch b = Ok (t, b') →
  weighted b' ∧ ∀ g', ∃ g, ∀ pw, ∃ pw',
    Random.pick_with skip (mk_Pick b g (Random.mk_Random ws pw)) = Ok (t, mk_Pick b' g' (Random.mk_Random ws pw')).
Proof.
  intros HF Hw (-> & c & Hask & [n Hn]%list_elem_of_lookup)%directed_thread_Ok.
  unfold weighted in *. rewrite (ask_length skip _ _ _ _ Hask). split; [done|]. intros g'.
  assert (Forall (λ i, i < length ws) c) as Hc.
  { apply Forall_forall. intros i Hi. apply (ask_sub skip _ _ _ _ _ Hask), elem_of_seq in Hi. lia. }
  destruct (discrete_any HF (weights_of ws c) n g') as [g Hg].
  { by apply weights_of_pos. }
  { rewrite weights_of_length by done. by eapply lookup_lt_Some. }
  exists g. intros pw. exists (weights_of ws c). apply pick_with_ask; [done..|]. by exists c, b', n, g'.
Qed.

Lemma in_base_random {A} (m : stM BaseStrategy A) b g (x : Random.RandomStrategy) a b' :
  m b = Ok (a, b') → in_base m (mk_Pick b g x) = Ok (a, mk_Pick b' g x).
Proof. apply (in_base_eq m (mk_Pick b g x)). Qed.

Lemma back_ref_state th b r b' : back_ref th b = Ok (r, b') → b' = b.
Proof.
  unfold back_ref. rewrite st_get_bind. intros H.
  apply st_bind_Ok in H as (l & b1 & [_ ->]%st_lift_Ok & H). destruct (length l); [done|]. by injection H.
Qed.

Lemma needs_new_task_id th : keeps_threads (needs_new_task th).
Proof. by intros b f b' [-> _]%needs_new_task_Ok. Qed.

Lemma new_task_keeps th : keeps_threads (new_task th).
Proof.
  intros b t b' H. unfold new_task in H. rewrite st_get_bind in H.
  apply st_bind_Ok in H as (o & b1 & [[v ->] _]%find_verified_Ok & H). destruct o as [bd|]; [|done].
  apply st_bind_Ok in H as (u & b2 & (c & thread & _ & _ & E & _)%emplace_task_Ok & H).
  apply st_bind_Ok in H as (r & b3 & H3 & H). injection H as <- <-.
  apply back_ref_state in H3 as ->. by rewrite E, length_insert.
Qed.

Lemma back_ref_id th : keeps_threads (back_ref th).
Proof. by intros b t b' ->%back_ref_state. Qed.

Lemma chosen_Next fuel : chosen (Next (Strategy:=PickStrategy) fuel) (Next (Strategy:=Directed) fuel).
Proof.
  split.
  - intros b g pw t s' Hw H. cbn [Next PickStrategy] in H. unfold pick_Next in H.
    apply st_bind_Ok in H as (th & [b1 g1 [w1 pw1]] & H1 & H).
    destruct (pick_with_chosen waiting _ _ _ _ _ Hw H1) as (Hw1 & Hws & Hd). simpl in Hw1, Hws, Hd. subst w1.
    apply st_bind_Ok in H as (f & s2 & (b2 & H2 & ->)%Random.in_base_Ok & H). simpl in H2.
    pose proof H2 as [-> _]%needs_new_task_Ok. unfold with_pick_base in H. simpl in H. destruct f.
    + rewrite st_get_bind in H. simpl in H.
      pose proof (shuffle_perm (constructors b1) g1) as Hperm.
      destruct (shuffle (constructors b1) g1) as [cs g2]. simpl in Hperm.
      rewrite st_put_bind in H. unfold with_rng, with_pick_base in H. simpl in H.
      set (s3 := mk_Pick (with_constructors cs b1) g2 (Random.mk_Random ws pw1)) in H.
      rewrite (new_task_eq cs s3 th eq_refl) in H.
      apply Random.in_base_Ok in H as (b3 & H3 & ->).
      change (pick_base s3) with (with_constructors cs b1) in H3. split_and!; [|done|].
      * unfold weighted in *. simpl. by rewrite (new_task_keeps _ _ _ _ H3).
      * destruct (Permutation_permute _ _ Hperm) as [p Hp]. exists [mk_choice th p]. intros rest.
        cbn [Next Directed next_line app]. unfold directed_Next. st_step (Hd p). st_step H2.
        rewrite st_get_bind. st_lift_step (f_equal (or_fail (RuntimeError "not an order of the methods")) Hp).
        rewrite st_put_bind. by rewrite H3.
    + apply st_bind_Ok in H as (r & s3 & (b3 & H3 & ->)%Random.in_base_Ok & H). injection H as <- <-. simpl in *.
      split_and!; [|done|].
      * unfold weighted in *. by rewrite (back_ref_id _ _ _ _ H3).
      * exists [mk_choice th []]. intros rest. cbn [Next Directed next_line app]. unfold directed_Next.
        st_step (Hd []). st_step H2. by st_step H3.
  - intros b [|ch script] t b' rest HF Hw H; cbn [Next Directed next_line] in H; [done|].
    apply bind_Ok in H as ([t1 b1] & H & [= <- <- <-]). unfold directed_Next in H.
    apply st_bind_Ok in H as (th & b2 & H2 & H).
    destruct (directed_thread_source waiting _ _ _ _ HF Hw H2) as [Hw2 Hs].
    apply st_bind_Ok in H as (f & b3 & H3 & H). pose proof H3 as [-> _]%needs_new_task_Ok. destruct f.
    + rewrite st_get_bind in H. apply st_bind_Ok in H as (cs & b4 & [Hp%or_fail_Ok ->]%st_lift_Ok & H).
      rewrite st_put_bind in H. split.
      { unfold weighted in *. by rewrite (new_task_keeps _ _ _ _ H). }
      intros g'. destruct (shuffle_any HF (constructors b2) cs g') as [g1 Hg1]; [by eapply permute_Permutation|].
      destruct (Hs g1) as [g Hg]. exists g. intros pw. destruct (Hg pw) as [pw' E]. exists pw'.
      cbn [Next PickStrategy]. unfold pick_Next. st_step E.
      st_step (in_base_random _ _ g1 (Random.mk_Random ws pw') _ _ H3). rewrite st_get_bind. simpl. rewrite Hg1, st_put_bind.
      etransitivity; [by apply (new_task_eq cs)|]. by apply in_base_random.
    + apply st_bind_Ok in H as (r & b4 & H4 & H). injection H as <- <-. split.
      { unfold weighted in *. by rewrite (back_ref_id _ _ _ _ H4). }
      intros g'. destruct (Hs g') as [g Hg]. exists g. intros pw. destruct (Hg pw) as [pw' E]. exists pw'.
      cbn [Next PickStrategy]. unfold pick_Next. st_step E. st_step (in_base_random _ _ g' (Random.mk_Random ws pw') _ _ H3).
      by st_step (in_base_random _ _ g' (Random.mk_Random ws pw') _ _ H4).
Qed.

Lemma schedule_thread_keeps th : keeps_threads (schedule_thread th).
Proof. intros b t b' [_ _ _ _ ->]%schedule_thread_Ok. done. Qed.

Lemma chosen_NextSchedule : chosen (NextSchedule (Strategy:=PickStrategy)) (NextSchedule (Strategy:=Directed)).
Proof.
  split.
  - intros b g pw t s' Hw H. cbn [NextSchedule PickStrategy] in H. unfold pick_NextSchedule in H.
    apply st_bind_Ok in H as (th & [b1 g1 [w1 pw1]] & H1 & H).
    destruct (pick_with_chosen nothing_to_run _ _ _ _ _ Hw H1) as (Hw1 & Hws & Hd). simpl in Hw1, Hws, Hd. subst w1.
    apply Random.in_base_Ok in H as (b2 & H2 & ->). simpl in *. split_and!; [|done|].
    + unfold weighted in *. by rewrite (schedule_thread_keeps _ _ _ _ H2).
    + exists [mk_choice th []]. intros rest. cbn [NextSchedule Directed next_line app]. unfold directed_NextSchedule.
      rewrite (st_bind_eq _ _ _ _ _ (Hd [])). by rewrite H2.
  - intros b [|ch script] t b' rest HF Hw H; cbn [NextSchedule Directed next_line] in H; [done|].
    apply bind_Ok in H as ([t1 b1] & H & [= <- <- <-]). unfold directed_NextSchedule in H.
    apply st_bind_Ok in H as (th & b2 & H2 & H).
    destruct (directed_thread_source nothing_to_run _ _ _ _ HF Hw H2) as [Hw2 Hs]. split.
    + unfold weighted in *. by rewrite (schedule_thread_keeps _ _ _ _ H).
    + intros g'. destruct (Hs g') as [g Hg]. exists g. intros pw. destruct (Hg pw) as [pw' E]. exists pw'.
      cbn [NextSchedule PickStrategy]. unfold pick_NextSchedule. st_step E. by apply in_base_random.
Qed.

(** ** The scheduler *)

Lemma keeps_evolves {A} (m : stM BaseStrategy A) :
  (∀ b a b', m b = Ok (a, b') → evolves b b') → keeps_threads m.
Proof. intros Hm b a b' H%Hm. by apply evolves_threads_length. Qed.

Lemma keeps_same {A} (m : stM BaseStrategy A) : (∀ b a b', m b = Ok (a, b') → b' = b) → keeps_threads m.
Proof. by intros Hm b a b' ->%Hm. Qed.

Lemma IsReturned_keeps r : keeps_threads (task_IsReturned r).
Proof. apply keeps_same. by intros b a b' (_ & _ & _ & ->)%task_IsReturned_Ok. Qed.

Lemma GetRetVal_keeps r : keeps_threads (task_GetRetVal r).
Proof. apply keeps_same. by intros b a b' (_ & _ & _ & _ & ->)%task_GetRetVal_Ok. Qed.

Lemma Resume_keeps r : keeps_threads (task_Resume r).
Proof. apply keeps_evolves. intros b u b'. apply task_Resume_evolves. Qed.

Lemma OnVerifierTaskFinish_keeps t : keeps_threads (OnVerifierTaskFinish t).
Proof.
  intros b u b' H. unfold OnVerifierTaskFinish in H.
  apply st_bind_Ok in H as (c & b1 & [_ ->]%get_task_Ok & H). rewrite st_get_bind in H.
  apply st_bind_Ok in H as (v & b2 & [_ ->]%st_lift_Ok & H). by inv_st H.
Qed.

Lemma TerminateTasks_keeps fuel : keeps_threads (TerminateTasks fuel).
Proof.
  intros b u b' (b1 & Hev & ->)%TerminateTasks_evolves. simpl. by rewrite (evolves_threads_length _ _ Hev).
Qed.

Lemma Reset_keeps fuel : keeps_threads (base_ResetCurrentRound fuel).
Proof.
  intros b u b' H. unfold base_ResetCurrentRound in H.
  apply st_bind_Ok in H as (u1 & b1 & H1%TerminateTasks_keeps & H). rewrite st_get_bind in H.
  apply st_bind_Ok in H as (l & b2 & [Hl%restart_threads_length ->]%st_lift_Ok & H). inv_st H. simpl. congruence.
Qed.

#[local] Hint Resolve chosen_ret chosen_fail chosen_lift chosen_Next chosen_NextSchedule chosen_on_base
  IsReturned_keeps GetRetVal_keeps Resume_keeps OnVerifierTaskFinish_keeps Reset_keeps TerminateTasks_keeps : chosen.

(** Steps through a computation both sides of which have the same shape. *)
Ltac chosen_step :=
  match goal with
  | |- chosen (_ ≫= _) (_ ≫= _) => apply chosen_bind; [by auto with chosen|intros]
  | |- chosen (if ?b then _ else _) _ => destruct b
  | _ => by auto with chosen
  end.
Ltac chosen_auto := repeat chosen_step.

Lemma chosen_run_step inner h : chosen (run_step (HS:=PickStrategy) inner h) (run_step (HS:=Directed) inner h).
Proof. unfold run_step. chosen_auto. Qed.

Lemma chosen_run_loop inner fuel n h :
  chosen (run_loop (HS:=PickStrategy) inner fuel n h) (run_loop (HS:=Directed) inner fuel n h).
Proof.
  revert n h. induction fuel as [|fuel IH]; intros [|n] h; cbn [run_loop]; auto with chosen.
  apply chosen_bind; [apply chosen_run_step|]. intros [fin h']. apply IH.
Qed.

Context `{HMC : ModelChecker} {HPP : PrettyPrinter}.

Lemma chosen_print h : chosen (print_log (HS:=PickStrategy) h) (print_log (HS:=Directed) h).
Proof.
  apply (chosen_get (λ b, _ ← st_lift (PrettyPrint printer_threads (slot b) h (mk_Streams "" "")); mret tt)
    (λ b, _ ← st_lift (PrettyPrint printer_threads (slot b) h (mk_Streams "" "")); mret tt)).
  intros b. chosen_auto.
Qed.

Lemma chosen_check h : chosen (check_histories (HS:=PickStrategy) h) (check_histories (HS:=Directed) h).
Proof.
  apply (chosen_get (λ b, ok ← st_lift (mc_Check (task_at b) h.2); mret (if (ok : bool) then None else Some h))
    (λ b, ok ← st_lift (mc_Check (task_at b) h.2); mret (if (ok : bool) then None else Some h))).
  intros b. chosen_auto.
Qed.

Lemma chosen_RunRound inner fuel n :
  chosen (RunRound (HS:=PickStrategy) inner fuel n) (RunRound (HS:=Directed) inner fuel n).
Proof.
  apply chosen_bind; [apply chosen_run_loop|intros h]. apply chosen_bind; [apply chosen_print|intros _; apply chosen_check].
Qed.

Lemma chosen_explore_step h : chosen (explore_step (HS:=PickStrategy) h) (explore_step (HS:=Directed) h).
Proof. unfold explore_step. chosen_auto. Qed.

Lemma chosen_explore_loop fuel n h :
  chosen (explore_loop (HS:=PickStrategy) fuel n h) (explore_loop (HS:=Directed) fuel n h).
Proof.
  revert n h. induction fuel as [|fuel IH]; intros [|n] h; cbn [explore_loop]; auto with chosen.
  apply chosen_bind; [apply chosen_explore_step|]. intros [fin h']. apply IH.
Qed.

Lemma chosen_explore_once inner fuel :
  chosen (explore_once (HS:=PickStrategy) inner fuel) (explore_once (HS:=Directed) inner fuel).
Proof.
  apply chosen_bind; [exact (chosen_on_base _ (Reset_keeps inner))|]. intros _.
  apply (chosen_get
    (λ b, h ← explore_loop (HS:=PickStrategy) fuel (GetValidTasksCount b) ([], []); check_histories (HS:=PickStrategy) h)
    (λ b, h ← explore_loop (HS:=Directed) fuel (GetValidTasksCount b) ([], []); check_histories (HS:=Directed) h)).
  intros b. apply chosen_bind; [apply chosen_explore_loop|intros h; apply chosen_check].
Qed.

Lemma chosen_ExploreRound inner fuel runs :
  chosen (ExploreRound (HS:=PickStrategy) inner fuel runs) (ExploreRound (HS:=Directed) inner fuel runs).
Proof.
  induction runs as [|runs IH]; cbn [ExploreRound]; [auto with chosen|].
  apply chosen_bind; [apply chosen_explore_once|]. intros [h|]; auto with chosen.
Qed.

Lemma chosen_StartNextRound inner :
  chosen (StartNextRound (Strategy:=PickStrategy) inner) (StartNextRound (Strategy:=Directed) inner).
Proof.
  apply chosen_bind; [by apply (chosen_on_base (st_modify (with_new_task_id 0))); intros b u b' [= <- <-]|]. intros _.
  apply chosen_bind; [exact (chosen_on_base _ (TerminateTasks_keeps inner))|]. intros _.
  apply (chosen_on_base (st_modify clear_threads)). intros b u b' [= <- <-]. simpl. by rewrite length_fmap.
Qed.

Context `{HRR : !RealRng} `{HU : Unordered}.

Lemma chosen_Run inner fuel params seed :
  should_minimize_history params = false →
  chosen (StrategyScheduler_Run (HS:=PickStrategy) inner fuel params seed)
    (StrategyScheduler_Run (HS:=Directed) inner fuel params seed).
Proof.
  intros Hmin. unfold StrategyScheduler_Run. induction (max_rounds params) as [|rounds IH];
    cbn [Run_rounds]; [auto with chosen|].
  apply chosen_bind; [apply chosen_RunRound|]. intros [h|]; [rewrite Hmin; auto with chosen|].
  apply chosen_bind; [apply chosen_StartNextRound|intros _; apply IH].
Qed.

End chosen.

(** ** Every engine, and every script *)

Section complete.
Context `{HT : Target} `{HC : !Code} `{HV : StrategyVerifier} `{HMC : ModelChecker} {HPP : PrettyPrinter}.
Context `{HU : Unordered} {Hreal : RealRng (H:=oracle)} (seed : @rng oracle).
Context (inner fuel : nat) (params : SchedulerParams) (Hmin : should_minimize_history params = false).

(** [Run] of a strategy, without minimization: the draws of the minimizor are
    not used. *)
Abbreviation Run_of HS := (StrategyScheduler_Run (HS:=HS) (HR:=oracle) inner fuel params seed).

Lemma Run_no_engine `{HR : Rng} `{HRR : !RealRng} `{HS : !Strategy} g s :
  StrategyScheduler_Run (HR:=HR) inner fuel params g s = Run_of HS s.
Proof.
  unfold StrategyScheduler_Run. rename s into s0. generalize s0 as s. clear s0.
  induction (max_rounds params) as [|rounds IH]; intros s; cbn [Run_rounds]; [done|].
  unfold mbind, stM_bind, mbind, outcome_bind. destruct (RunRound _ _ _ _) as [[[h|] s1]|]; [by rewrite Hmin| |done].
  destruct (StartNextRound _ _) as [[u s2]|]; [apply IH|done].
Qed.

(** C5: The random strategy can be steered anywhere, and goes nowhere else,
    in a run without minimization and with positive weights for all the
    threads.  Whatever engine it draws from, if its distributions keep to their
    ranges, its [Run] is one that a tester can steer by hand, choosing any thread
    that neither waits nor is parked and any order in which the verifier is asked
    about the methods; and for every run so steered there is a sequence of draws
    with which the random strategy ends with the same result and the same round. *)
Theorem Run_random_complete ws b r b' :
  Forall (λ w, 0 < w)%Z ws → length (threads b) ≤ length ws →
  (∀ (engine : Rng) (laws : RngLaws (H:=engine)) (real : RealRng (H:=engine)) seed' g s',
    StrategyScheduler_Run (HS:=PickStrategy (HR:=engine) (Sub:=Random.RandomStrategy)) inner fuel params seed'
      (mk_Pick b g (Random.mk_Random ws [])) = Ok (r, s') → pick_base s' = b' →
    ∃ script, Run_of Directed (b, script) = Ok (r, (b', []))) ∧
  (∀ script, Run_of Directed (b, script) = Ok (r, (b', [])) →
    ∃ (draws : @rng oracle) s',
      Run_of (PickStrategy (HR:=oracle) (Sub:=Random.RandomStrategy)) (mk_Pick b draws (Random.mk_Random ws [])) = Ok (r, s') ∧ pick_base s' = b').
Proof.
  intros Hpos Hw. split.
  - intros engine laws real seed' g s' HRun <-.
    destruct (chosen_script _ _ _ (chosen_Run ws Hpos inner fuel params seed' Hmin) _ _ _ _ _ Hw HRun) as (_ & _ & script & Hd).
    exists script. specialize (Hd []). rewrite app_nil_r in Hd. by rewrite (Run_no_engine seed') in Hd.
  - intros script HRun. pose proof oracle_laws as laws.
    destruct (chosen_source _ _ _ (chosen_Run ws Hpos inner fuel params seed Hmin) _ _ _ _ _ oracle_written_down Hw HRun) as [_ Hs].
    destruct (Hs []) as [g Hg]. destruct (Hg []) as [pw' E]. eauto.
Qed.
End complete.
