(* ===== verification/Main.v ===== *)
(** * Main: from the options to the exit code (verifying.h:76-206, syscall_trap.cpp)

    [ltest::Run], the body of every [main]: it reads the options, makes the
    strategy and the scheduler they ask for, runs it with the system call trap
    on, prints what it found and returns the exit code.  The checker is always
    the recursive one.  The text a scheduler logs while it runs is a parameter:
    no state depends on it.  What it prints past the log is not. *)

From Stdlib Require Import ZArith Lia Ascii.
From stdpp Require Import base gmap strings pretty option list.
From S2P Require Import Prelude ValueWrapper Text Logger Options History Linearizability LincheckRecursive.
From S2P Require Import Coro Strategy PickStrategy Pct Scheduler TLA PrettyPrint Checkers Minimization Smart.
From S2P Require Import SmartCorrect SchedulerRun.

(** The strategies and schedulers [MakeStrategy] and [MakeScheduler] choose from. *)
Inductive AnyStrategy `{Target} `{StrategyVerifier} `{Rng} :=
| ARoundRobin (s : PickState RoundRobin.RoundRobinStrategy)
| ARandom (s : PickState Random.RandomStrategy)
| APct (s : PctState).
Arguments AnyStrategy : clear implicits.
Arguments AnyStrategy {_ _ _}.

Inductive AnyScheduler `{Target} `{StrategyVerifier} `{Rng} :=
| StrategySchedulerWrapper (params : SchedulerParams) (strategy : AnyStrategy)
| TLAScheduler (cfg : TLA.Config) (s : TLA.TLAState).
Arguments AnyScheduler : clear implicits.
Arguments AnyScheduler {_ _ _}.

(** ** What [TLAScheduler] reports *)

Section reports.
Context `{HT : Target} `{HC : !Code} `{HV : StrategyVerifier} `{HMC : ModelChecker} {HPP : PrettyPrinter}.
Context (cfg : TLA.Config) (cancel : TargetObj → TargetObj) (inner : nat).
Import TLA.

(** A history that is returned was rejected on the tasks as they are. *)
Definition reports (r : bool * Result) (s : TLAState) : Prop :=
  ∀ h, r.2 = Some h → mc_Check (view (threads s)) h.2 = Ok false.

Definition reporting (rec : nat → nat → stM TLAState (bool * Result)) : Prop :=
  ∀ step switches s r s', rec step switches s = Ok (r, s') → reports r s'.

Lemma reports_none b s : reports (b, None) s.
Proof. by intros h [=]. Qed.

Lemma finish_round_reports s r s' : finish_round cfg s = Ok (r, s') → reports r s'.
Proof.
  intros H. do 2 (apply st_bind_Ok in H as (? & ? & _ & H)). rewrite st_get_bind in H.
  apply st_bind_Ok in H as (ok & s2 & [Hok ->]%st_lift_Ok & H). destruct ok; simpl in H.
  - destruct (_ =? _); inv_st H; apply reports_none.
  - inv_st H. by intros h [= <-].
Qed.

Section reporting.
Context (rec : nat → nat → stM TLAState (bool * Result)) (Hrec : reporting rec).

(** Passing a result on, or going on without one. *)
Lemma stops_reports (m : stM TLAState (bool * Result)) (k : bool * Result → stM TLAState (bool * Result)) s r s' :
  (r ← m; if stops r then mret r else k r) s = Ok (r, s') →
  (∀ r s', m s = Ok (r, s') → reports r s') → (∀ r1 s1, k r1 s1 = Ok (r, s') → reports r s') → reports r s'.
Proof.
  intros H Hm Hk. apply st_bind_Ok in H as (r1 & s1 & H1 & H). destruct (stops r1); [|by eapply Hk].
  inv_st H. by apply Hm in H1.
Qed.

(** The end of a computation that reports nothing. *)
Lemma then_none_reports {A} (m : stM TLAState A) s r s' :
  (_ ← m; mret (false, None)) s = Ok (r, s') → reports r s'.
Proof. intros H. apply st_bind_Ok in H as (a & s1 & _ & H). inv_st H. apply reports_none. Qed.

Lemma ResumeTask_reports frame step switches i is_new s r s' :
  ResumeTask cfg rec frame step switches i is_new s = Ok (r, s') → reports r s'.
Proof.
  unfold ResumeTask. rewrite st_get_bind. cbv zeta. destruct (_ && _); [intros H; inv_st H; apply reports_none|].
  intros H. apply st_bind_Ok in H as (fin & s1 & _ & H). rewrite st_get_bind in H.
  eapply stops_reports; [exact H| |].
  - intros r1 s2. destruct (_ =? _); [apply finish_round_reports|apply Hrec].
  - intros r1 s2. apply then_none_reports.
Qed.

Lemma try_constructor_reports frame step switches i b s r s' :
  try_constructor cfg cancel inner rec frame step switches i b s = Ok (r, s') → reports r s'.
Proof.
  unfold try_constructor. intros H. apply st_bind_Ok in H as (ok & s1 & _ & H).
  destruct ok; simpl in H; [|inv_st H; apply reports_none].
  do 3 (apply st_bind_Ok in H as (? & ? & _ & H)). eapply stops_reports; [exact H|apply ResumeTask_reports|].
  intros r1 s2 H2. do 3 (apply st_bind_Ok in H2 as (? & ? & _ & H2)). by eapply then_none_reports.
Qed.

Lemma try_constructors_reports frame step switches i cs s r s' :
  try_constructors cfg cancel inner rec frame step switches i cs s = Ok (r, s') → reports r s'.
Proof.
  revert s. induction cs as [|b cs IH]; intros s H; cbn [try_constructors] in H; [inv_st H; apply reports_none|].
  eapply stops_reports; [exact H|apply try_constructor_reports|intros r1 s1; apply IH].
Qed.

Lemma try_threads_reports frame step switches ids all_parked s r p s' :
  try_threads cfg cancel inner rec frame step switches ids all_parked s = Ok ((r, p), s') → reports r s'.
Proof.
  revert all_parked s. induction ids as [|i ids IH]; intros all_parked s H; cbn [try_threads] in H;
    [inv_st H; apply reports_none|].
  apply st_bind_Ok in H as ([r1 p1] & s1 & H1 & H). destruct (stops r1); [|by eapply IH]. inv_st H.
  unfold try_thread in H1. rewrite st_get_bind in H1. apply st_bind_Ok in H1 as (ts & s2 & _ & H1).
  destruct (unfinished ts) as [c|].
  - destruct (IsParked _ _); [inv_st H1; apply reports_none|]. apply st_bind_Ok in H1 as (r2 & s3 & H2 & H1). inv_st H1.
    unfold continue_task in H2. apply st_bind_Ok in H2 as (ok & s4 & _ & H2).
    destruct ok; simpl in H2; [|inv_st H2; apply reports_none]. apply st_bind_Ok in H2 as (? & ? & _ & H2).
    eapply stops_reports; [exact H2|apply ResumeTask_reports|intros r3 s5; apply then_none_reports].
  - destruct (_ && _); [|inv_st H1; apply reports_none]. apply st_bind_Ok in H1 as (r2 & s3 & H2 & H1). inv_st H1.
    by eapply try_constructors_reports.
Qed.
End reporting.

Lemma RunStep_reports fuel : reporting (RunStep cfg cancel inner fuel).
Proof.
  induction fuel as [|fuel IH]; intros step switches s r s' H; cbn [RunStep] in H; [done|].
  rewrite st_get_bind, st_put_bind in H. apply st_bind_Ok in H as ([r1 p] & s1 & H1 & H).
  destruct (stops r1); [inv_st H; by eapply try_threads_reports|].
  apply st_bind_Ok in H as (? & ? & _ & H). rewrite st_get_bind in H. apply st_bind_Ok in H as (? & ? & _ & H).
  by eapply then_none_reports.
Qed.

Lemma TLA_Run_reports fuel s h s' :
  Run cfg cancel inner fuel s = Ok (Some h, s') → mc_Check (view (threads s')) h.2 = Ok false.
Proof.
  intros H. apply st_bind_Ok in H as (r & s1 & H & E). inv_st E. by apply (RunStep_reports _ _ _ _ _ _ H).
Qed.
End reports.

Section main.
Context `{HT : Target} `{HC : !Code} `{HV : StrategyVerifier}.
Context `{HR : Rng} `{HRR : !RealRng} `{HU : Unordered}.
(** [Spec]: the methods and the first state of the specification, the canceler. *)
Context {SpecState : Type} (spec : gmap string (Method (State:=SpecState) (Args:=tuple))) (first_state : SpecState).
Context (cancel : TargetObj → TargetObj).
(** Fuel, and the seed of the random sources. *)
Context (inner fuel : nat) (seed : rng).
(** What the run of the scheduler writes when the log is on: its rounds, their
    histories and the progress of the minimizers. *)
Context (logged : AnyScheduler → string).

#[local] Instance main_checker : ModelChecker := recursive_checker spec first_state.

Local Abbreviation M := (stM Process).

Definition line_end : string := newline.

(** ** [MakeStrategy] and [MakeScheduler] (verifying.h:78-153) *)

Definition MakeStrategy (opts : Opts) (l : list TaskBuilder) : M AnyStrategy :=
  match typ opts with
  | RR =>
      _ ← say ("round-robin" +:+ line_end);
      mret (ARoundRobin (RoundRobin.init (Z.to_nat (Options.threads opts)) l seed))
  | RND =>
      _ ← say ("random" +:+ line_end);
      let weights :=
        match thread_weights opts with
        | [] => replicate (Z.to_nat (Options.threads opts)) 1%Z
        | ws => ws
        end in
      if negb (Z.of_nat (length weights) =? Options.threads opts)%Z
      then st_fail (InvalidArgument "number of threads not equal to number of weights")
      else mret (ARandom (Random.init (Z.to_nat (Options.threads opts)) l weights seed))
  | PCT =>
      _ ← say ("pct" +:+ line_end);
      s ← st_lift (pct_init (Z.to_nat (Options.threads opts)) l (Options.forbid_all_same opts) seed);
      mret (APct s)
  | Options.TLA => st_fail (AssertFailed "unexpected type")
  end.

Definition scheduler_params (opts : Opts) : SchedulerParams :=
  mk_SchedulerParams (Z.to_nat (Options.tasks opts)) (Z.to_nat (rounds opts)) (minimize opts)
    (Z.to_nat (wrap32 (Options.exploration_runs opts))) (Z.to_nat (wrap32 (Options.minimization_runs opts))).

Definition tla_config (opts : Opts) (l : list TaskBuilder) : TLA.Config :=
  TLA.mk_Config (Z.to_nat (Options.tasks opts)) (Z.to_nat (rounds opts)) (Z.to_nat (switches opts))
    (Z.to_nat (depth opts)) l.

Definition MakeScheduler (opts : Opts) (l : list TaskBuilder) : M AnyScheduler :=
  _ ← say "strategy = ";
  match typ opts with
  | RR | PCT | RND =>
      strategy ← MakeStrategy opts l;
      mret (StrategySchedulerWrapper (scheduler_params opts) strategy)
  | Options.TLA =>
      _ ← say ("tla" +:+ line_end);
      mret (TLAScheduler (tla_config opts l) (TLA.init (Z.to_nat (Options.threads opts))))
  end.

(** [scheduler->Run()], with the printer the scheduler was made with. *)
Definition scheduler_Run (threads_num : Z) (sch : AnyScheduler) : outcome (Result * AnyScheduler) :=
  match sch with
  | StrategySchedulerWrapper params (ARoundRobin s) =>
      '(r, s) ← StrategyScheduler_Run (HS:=PickStrategy (Sub:=RoundRobin.RoundRobinStrategy)) (HPP:=threads_num) inner fuel params seed s;
      Ok (r, StrategySchedulerWrapper params (ARoundRobin s))
  | StrategySchedulerWrapper params (ARandom s) =>
      '(r, s) ← StrategyScheduler_Run (HS:=PickStrategy (Sub:=Random.RandomStrategy)) (HPP:=threads_num) inner fuel params seed s;
      Ok (r, StrategySchedulerWrapper params (ARandom s))
  | StrategySchedulerWrapper params (APct s) =>
      '(r, s) ← StrategyScheduler_Run (HS:=PctStrategy) (HPP:=threads_num) inner fuel params seed s;
      Ok (r, StrategySchedulerWrapper params (APct s))
  | TLAScheduler cfg s =>
      '(r, s) ← TLA.Run (HPP:=threads_num) cfg cancel inner fuel s; Ok (r, TLAScheduler cfg s)
  end.

(** What the run has written when the log is off: the numbers of the tasks,
    which the printer sends to [std::cout] directly (pretty_print.h:181). *)
Definition silent_text (sch : AnyScheduler) : string :=
  match sch with
  | StrategySchedulerWrapper _ _ => ""
  | TLAScheduler _ s => TLA.printed s
  end.
Definition unlogged (sch : AnyScheduler) : M unit :=
  p ← st_get; if log_verbose (logger p) then mret tt else say (silent_text sch).
Definition run_text (verbose : bool) (sch sch' : AnyScheduler) : string :=
  if verbose then logged sch else silent_text sch'.

(** The destructors: [~PickStrategy], [~PctStrategy] and [~TLAScheduler]
    terminate the tasks. *)
Definition destroy_scheduler (sch : AnyScheduler) : outcome unit :=
  match sch with
  | StrategySchedulerWrapper _ (ARoundRobin s) => _ ← TerminateTasks inner (pick_base s); Ok tt
  | StrategySchedulerWrapper _ (ARandom s) => _ ← TerminateTasks inner (pick_base s); Ok tt
  | StrategySchedulerWrapper _ (APct s) => _ ← TerminateTasks inner (pct_base s); Ok tt
  | TLAScheduler _ s => _ ← TLA.TerminateTasks cancel inner s; Ok tt
  end.

(** The tasks as they are after the run, for the printer and for the checker. *)
Definition final_threads (sch : AnyScheduler) : list (list CoroBase) :=
  match sch with
  | StrategySchedulerWrapper _ (ARoundRobin s) => Strategy.threads (pick_base s)
  | StrategySchedulerWrapper _ (ARandom s) => Strategy.threads (pick_base s)
  | StrategySchedulerWrapper _ (APct s) => Strategy.threads (pct_base s)
  | TLAScheduler _ s => TLA.threads s
  end.

(** ** [TrapRun] and [Run] (verifying.h:155-206) *)

(** [pretty_printer.PrettyPrint(history, std::cout)]. *)
Definition print_history (threads_num : Z) (sch : AnyScheduler) (h : SeqHistory) : M unit := λ p,
  '(_, s) ← PrettyPrint threads_num (TLA.task_in (final_threads sch)) h (mk_Streams "" "");
  Ok (tt, add_text (out_text s) p).

Definition TrapRun (threads_num : Z) (sch : AnyScheduler) : M (Z * AnyScheduler) :=
  _ ← SyscallTrapGuard true;
  '(result, sch') ← st_lift (scheduler_Run threads_num sch);
  _ ← log (logged sch);
  _ ← unlogged sch';
  code ←
    (match result with
     | Some h =>
         _ ← say ("non linearized:" +:+ line_end);
         _ ← print_history threads_num sch' h.2;
         mret 1%Z
     | None => _ ← say ("success!" +:+ line_end); mret 0%Z
     end);
  _ ← SyscallTrapGuard false;
  mret (code, sch').

Definition bool_text (b : bool) : string := if b then "true" else "false".

Definition print_opts (opts : Opts) (l : list TaskBuilder) : M unit :=
  _ ← say ("verbose: " +:+ bool_text (verbose opts) +:+ line_end);
  _ ← say ("threads  = " +:+ pretty (Options.threads opts) +:+ line_end);
  _ ← say ("tasks    = " +:+ pretty (Options.tasks opts) +:+ line_end);
  _ ← say ("switches = " +:+ pretty (switches opts) +:+ line_end);
  _ ← say ("rounds   = " +:+ pretty (rounds opts) +:+ line_end);
  _ ← say ("minimize = " +:+ bool_text (minimize opts) +:+ line_end);
  _ ← (if minimize opts then
         _ ← say ("exploration runs = " +:+ pretty (Options.exploration_runs opts) +:+ line_end);
         say ("minimization runs = " +:+ pretty (Options.minimization_runs opts) +:+ line_end)
       else mret tt);
  say ("targets  = " +:+ pretty (Z.of_nat (length l)) +:+ line_end).

(** [GetOptions()] of the target, when it overrides the defaults; what gflags
    makes of the command line; the registered tasks. *)
Definition Run (override : option DefaultOptions) (ParseCommandLineFlags : Flags → Flags)
    (task_builders : list TaskBuilder) : M Z :=
  let flags := match override with Some def => SetOpts def default_flags | None => default_flags end in
  opts ← st_lift (ParseOpts (ParseCommandLineFlags flags));
  _ ← logger_init (verbose opts);
  _ ← print_opts opts task_builders;
  scheduler ← MakeScheduler opts task_builders;
  _ ← say (line_end +:+ line_end);
  '(code, scheduler) ← TrapRun (Options.threads opts) scheduler;
  _ ← st_lift (destroy_scheduler scheduler);
  mret code.

(** ** The exit code *)

Lemma scheduler_Run_reports threads_num sch h sch' :
  scheduler_Run threads_num sch = Ok (Some h, sch') →
  Check_recursive spec (TLA.view (final_threads sch')) first_state h.2 = Ok false.
Proof.
  destruct sch as [params [s|s|s]|cfg s]; simpl; intros ([r s'] & H & [= -> <-])%bind_Ok.
  - exact (Run_rejected (HS:=PickStrategy (Sub:=RoundRobin.RoundRobinStrategy)) _ _ _ _ _ _ _ H).
  - exact (Run_rejected (HS:=PickStrategy (Sub:=Random.RandomStrategy)) _ _ _ _ _ _ _ H).
  - exact (Run_rejected (HS:=PctStrategy) _ _ _ _ _ _ _ H).
  - exact (TLA_Run_reports _ _ _ _ _ _ _ H).
Qed.

Definition run_flags (override : option DefaultOptions) : Flags :=
  match override with Some def => SetOpts def default_flags | None => default_flags end.

Lemma unlogged_Ok sch sch' p :
  unlogged sch' (add_text (if log_verbose (logger p) then logged sch else "") p) =
  Ok (tt, add_text (run_text (log_verbose (logger p)) sch sch') p).
Proof.
  unfold unlogged, run_text. rewrite st_get_bind. cbn [logger add_text].
  destruct (log_verbose (logger p)); [done|]. unfold say, st_modify, add_text. simpl. by rewrite string_app_nil_r.
Qed.

(** What [TrapRun] does with the result of the scheduler. *)
Lemma TrapRun_Ok threads_num sch p code sch' p' :
  TrapRun threads_num sch p = Ok ((code, sch'), p') →
  trap_syscall p' = false ∧ ∃ result before, scheduler_Run threads_num sch = Ok (result, sch') ∧
  before = cout p +:+ run_text (log_verbose (logger p)) sch sch' ∧
  match result with
  | None => code = 0%Z ∧ cout p' = before +:+ "success!" +:+ newline
  | Some h => code = 1%Z ∧ ∃ u s,
      PrettyPrint threads_num (TLA.task_in (final_threads sch')) h.2 (mk_Streams "" "") = Ok (u, s) ∧
      cout p' = before +:+ "non linearized:" +:+ newline +:+ out_text s
  end.
Proof.
  unfold TrapRun. intros H. apply st_bind_Ok in H as (u1 & p1 & H1 & H). injection H1 as _ <-.
  apply st_bind_Ok in H as ([result sch1] & p2 & [Hrun ->]%st_lift_Ok & H).
  st_step_in H (log_Ok (logged sch) (mk_Process (cout p) true (logger p))).
  st_step_in H (unlogged_Ok sch sch1 (mk_Process (cout p) true (logger p))).
  apply st_bind_Ok in H as (code1 & p3 & H3 & H). apply st_bind_Ok in H as (u2 & p4 & H4 & H).
  injection H4 as _ <-. injection H as <- <- <-. split; [done|]. eexists result, _. split; [done|]. split; [reflexivity|].
  destruct result as [h|]; apply st_bind_Ok in H3 as (u3 & p5 & H5 & H3); injection H5 as _ <-.
  - apply st_bind_Ok in H3 as (u4 & p6 & H6 & H3). injection H3 as <- <-. split; [done|].
    unfold print_history in H6. apply bind_Ok in H6 as ([u5 s] & H6 & E). injection E as _ <-. simpl.
    exists u5, s. split; [done|]. unfold line_end. strings.
  - by injection H3 as <- <-.
Qed.

Lemma print_opts_says opts l : only_says (print_opts opts l).
Proof. unfold print_opts. destruct (minimize opts); auto 20 with says. Qed.

Lemma MakeScheduler_says opts l : only_says (MakeScheduler opts l).
Proof.
  unfold MakeScheduler, MakeStrategy. destruct (typ opts); auto 10 with says; cbv zeta.
  destruct (negb _); auto 10 with says.
Qed.

Lemma Run_exit override ParseCommandLineFlags l p code p' :
  Run override ParseCommandLineFlags l p = Ok (code, p') →
  trap_syscall p' = false ∧
  ∃ opts sch result sch' header, ParseOpts (ParseCommandLineFlags (run_flags override)) = Ok opts ∧
    (∃ p1 p2, MakeScheduler opts l p1 = Ok (sch, p2)) ∧ scheduler_Run (Options.threads opts) sch = Ok (result, sch') ∧
    let before := header +:+ run_text (verbose opts) sch sch' in
    match result with
    | None => code = 0%Z ∧ cout p' = before +:+ "success!" +:+ newline
    | Some h => code = 1%Z ∧
        let tasks := TLA.view (final_threads sch') in
        Check_recursive spec tasks first_state h.2 = Ok false ∧
        (checkable spec tasks h.2 → ¬ linearizable spec tasks h.2 first_state) ∧
        ∃ u s, PrettyPrint (Options.threads opts) (TLA.task_in (final_threads sch')) h.2 (mk_Streams "" "") = Ok (u, s) ∧
          cout p' = before +:+ "non linearized:" +:+ newline +:+ out_text s
    end.
Proof.
  unfold Run. intros H. apply st_bind_Ok in H as (opts & p1 & [Hopts ->]%st_lift_Ok & H).
  apply st_bind_Ok in H as (u0 & p1' & Hinit & H). injection Hinit as _ <-.
  apply st_bind_Ok in H as (u & p2 & Hprint & H). apply st_bind_Ok in H as (sch & p3 & Hmake & H).
  apply st_bind_Ok in H as (u1 & p4 & Hsay & H). apply st_bind_Ok in H as ([code1 sch1] & p5 & Htrap & H).
  apply st_bind_Ok in H as (u2 & p6 & [_ ->]%st_lift_Ok & H). injection H as <- <-.
  assert (log_verbose (logger p4) = verbose opts) as Hv.
  { pose proof Hmake as [m3 ->]%MakeScheduler_says. apply print_opts_says in Hprint as [m2 ->]. by injection Hsay as _ <-. }
  apply TrapRun_Ok in Htrap as (Htrap & result & before & Hrun & -> & Hresult). split; [done|]. rewrite Hv in Hresult.
  exists opts, sch, result, sch1, (cout p4). split_and!; [done|by eauto|done|]. cbv zeta.
  destruct result as [h|]; [|done]. destruct Hresult as [-> Hhist]. split; [done|].
  pose proof (scheduler_Run_reports _ _ _ _ Hrun) as Hrej. split_and!; [done| |done].
  intros Hck Hlin. destruct (Check_recursive_decides spec _ first_state _ Hck) as (b & Hb & Hiff).
  rewrite Hrej in Hb. injection Hb as <-. by apply Hiff in Hlin.
Qed.

(** C6: [ltest::Run] exits with 0 exactly when the scheduler found nothing and
    with 1 when it returned a history; that history is the one printed as a
    table, the checker rejects it on the tasks as they are printed, so that it
    is not linearizable when the specification covers it; what the scheduler
    logs is printed in between exactly when [--verbose] was given, what it prints
    past the log also without, and the system call trap is off again. *)
Theorem Run_exit_code override ParseCommandLineFlags l p code p' :
  Run override ParseCommandLineFlags l p = Ok (code, p') →
  trap_syscall p' = false ∧
  ∃ opts sch result sch' header, ParseOpts (ParseCommandLineFlags (run_flags override)) = Ok opts ∧
    (∃ p1 p2, MakeScheduler opts l p1 = Ok (sch, p2)) ∧ scheduler_Run (Options.threads opts) sch = Ok (result, sch') ∧
    let before := header +:+ run_text (verbose opts) sch sch' in
    match result with
    | None => code = 0%Z ∧ cout p' = before +:+ "success!" +:+ newline
    | Some h => code = 1%Z ∧
        let tasks := TLA.view (final_threads sch') in
        Check_recursive spec tasks first_state h.2 = Ok false ∧
        (checkable spec tasks h.2 → ¬ linearizable spec tasks h.2 first_state) ∧
        ∃ u s, PrettyPrint (Options.threads opts) (TLA.task_in (final_threads sch')) h.2 (mk_Streams "" "") = Ok (u, s) ∧
          cout p' = before +:+ "non linearized:" +:+ newline +:+ out_text s
    end.
Proof. apply Run_exit. Qed.

(** A scheduler is made for every choice of options, but for two: weights
    of the random strategy that are not as many as the threads are refused with
    an exception, and PCT without tasks divides by zero. *)
Theorem MakeScheduler_fails opts l p :
  (0 ≤ Options.threads opts)%Z →
  match MakeScheduler opts l p with
  | Ok _ => (typ opts = RND → thread_weights opts = [] ∨ Z.of_nat (length (thread_weights opts)) = Options.threads opts) ∧
            (typ opts = PCT → l ≠ [])
  | Fail (InvalidArgument _) => typ opts = RND ∧ thread_weights opts ≠ [] ∧
            Z.of_nat (length (thread_weights opts)) ≠ Options.threads opts
  | Fail (Undefined _) => typ opts = PCT ∧ l = []
  | Fail _ => False
  end.
Proof.
  intros Hn. unfold MakeScheduler, MakeStrategy. unfold say. rewrite st_modify_bind.
  destruct (typ opts) eqn:Ht.
  - done.
  - unfold mbind, stM_bind, st_modify. cbv beta iota.
    destruct (thread_weights opts) as [|w ws]; cbv zeta.
    + rewrite length_replicate, Z2Nat.id, Z.eqb_refl by done. simpl. auto.
    + destruct (Z.eqb_spec (Z.of_nat (length (w :: ws))) (Options.threads opts)) as [E|E]; simpl; [auto|done].
  - done.
  - destruct l; simpl; [done|].
    unfold pct_init, PrepareForDepth. by destruct (@shuffle _ Z _ _).
Qed.

(** ** The default depth *)

Lemma try_threads_depth_0 {HPP : PrettyPrinter} cfg rec frame step switches ids all_parked s :
  TLA.max_depth cfg = 0 → (∀ i, i ∈ ids → TLA.threads s !! i = Some []) →
  TLA.try_threads cfg cancel inner rec frame step switches ids all_parked s =
    Ok ((false, None, match ids with [] => all_parked | _ => false end), s).
Proof.
  intros Hd. revert all_parked. induction ids as [|i ids IH]; intros all_parked Hs; cbn [TLA.try_threads]; [done|].
  assert (TLA.try_thread cfg cancel inner rec frame step switches i all_parked s = Ok ((false, None, false), s)) as E.
  { unfold TLA.try_thread. rewrite st_get_bind.
    st_lift_step (vec_get_Some _ _ _ (Hs i ltac:(by left))). cbn [TLA.unfinished last length].
    rewrite Hd. change (0 <? 0) with false. by rewrite andb_false_r. }
  st_step E. simpl. rewrite IH by (intros; apply Hs; by right). by destruct ids.
Qed.

Lemma TLA_Run_depth_0 {HPP : PrettyPrinter} cfg n fuel' : TLA.max_depth cfg = 0 → n ≠ 0 → 0 < fuel' →
  TLA.Run cfg cancel inner fuel' (TLA.init n) = Ok (None, TLA.init n).
Proof.
  intros Hd Hn Hf. destruct fuel' as [|fuel']; [lia|].
  assert (TLA.RunStep cfg cancel inner (S fuel') 0 0 (TLA.init n) = Ok ((false, None), TLA.init n)) as E.
  { cbn [TLA.RunStep]. rewrite st_get_bind, st_put_bind. st_step (try_threads_depth_0 cfg (TLA.RunStep cfg cancel inner fuel')
      0 0 0 (seq 0 (length (replicate n ([] : list CoroBase)))) true
      (TLA.with_frames ([] ++ [TLA.mk_TFrame None false]) (TLA.init n)) Hd ltac:(intros i Hi%elem_of_seq;
        simpl; apply lookup_replicate_2; rewrite length_replicate in Hi; lia)).
    by destruct n. }
  unfold TLA.Run. by st_step E.
Qed.

Lemma all_refs_empty n : TLA.all_refs (replicate n ([] : list CoroBase)) = [].
Proof.
  assert (∀ f : nat → list CoroBase → list TaskRef, (∀ i, f i [] = []) → concat (imap f (replicate n [])) = []) as H.
  { induction n as [|n IH]; intros f Hf; simpl; [done|]. rewrite Hf. apply (IH (f ∘ S)). intros i. apply Hf. }
  by apply H.
Qed.

Lemma destroy_TLA_init cfg n : destroy_scheduler (TLAScheduler cfg (TLA.init n)) = Ok tt.
Proof.
  simpl. unfold TLA.TerminateTasks. rewrite st_modify_bind, st_get_bind.
  change (TLA.threads (TLA.set_obj _ (TLA.init n))) with (replicate n ([] : list CoroBase)). by rewrite all_refs_empty.
Qed.

Lemma TrapRun_None threads_num sch sch' p : scheduler_Run threads_num sch = Ok (None, sch') →
  ∃ p' before, TrapRun threads_num sch p = Ok ((0%Z, sch'), p') ∧ cout p' = before +:+ "success!" +:+ newline.
Proof.
  intros H. unfold TrapRun, SyscallTrapGuard. rewrite st_modify_bind. st_lift_step H.
  st_step (log_Ok (logged sch) (mk_Process (cout p) true (logger p))).
  st_step (unlogged_Ok sch sch' (mk_Process (cout p) true (logger p))). do 2 eexists. split; reflexivity.
Qed.

Lemma print_opts_Ok opts l p : ∃ p', print_opts opts l p = Ok (tt, p').
Proof. unfold print_opts, say. destruct (minimize opts); by eexists. Qed.

(** A scheduler that finds nothing makes the program succeed. *)
Lemma Run_succeeded override ParseCommandLineFlags l opts p sch sch' :
  ParseOpts (ParseCommandLineFlags (run_flags override)) = Ok opts →
  (∀ p1, ∃ p2, MakeScheduler opts l p1 = Ok (sch, p2)) → scheduler_Run (Options.threads opts) sch = Ok (None, sch') →
  destroy_scheduler sch' = Ok tt →
  ∃ p' before, Run override ParseCommandLineFlags l p = Ok (0%Z, p') ∧ cout p' = before +:+ "success!" +:+ newline.
Proof.
  intros Hopts Hmake Hrun Hdestroy. unfold Run. fold (run_flags override). st_lift_step Hopts.
  unfold logger_init. rewrite st_modify_bind.
  destruct (print_opts_Ok opts l (mk_Process (cout p) (trap_syscall p) (mk_Logger (verbose opts)))) as [p1 Hp1].
  st_step Hp1. destruct (Hmake p1) as [p2 Hp2]. st_step Hp2. st_step (say_Ok (line_end +:+ line_end) p2).
  destruct (TrapRun_None (Options.threads opts) _ _ (add_text (line_end +:+ line_end) p2) Hrun) as (p' & before & H & Hc).
  st_step H. st_lift_step Hdestroy. by exists p', before.
Qed.

(** With a depth of 0, which is the default, [--strategy tla] checks
    nothing: whatever the target and its specification are, no task is created
    and the program reports success. *)
Theorem Run_depth_0 override ParseCommandLineFlags l opts p :
  ParseOpts (ParseCommandLineFlags (run_flags override)) = Ok opts → typ opts = Options.TLA →
  depth opts = 0%Z → (0 < Options.threads opts)%Z → 0 < fuel →
  ∃ p' before, Run override ParseCommandLineFlags l p = Ok (0%Z, p') ∧ cout p' = before +:+ "success!" +:+ newline.
Proof.
  intros Hopts Ht Hd Hn Hf.
  set (n := Z.to_nat (Options.threads opts)). set (sch := TLAScheduler (tla_config opts l) (TLA.init n)).
  assert (scheduler_Run (Options.threads opts) sch = Ok (None, sch)) as Hrun.
  { simpl. rewrite TLA_Run_depth_0; [done|simpl; by rewrite Hd|unfold n; lia|done]. }
  eapply Run_succeeded; [exact Hopts| |exact Hrun|apply destroy_TLA_init].
  intros p1. unfold MakeScheduler. rewrite Ht. by eexists.
Qed.
End main.
