(* ===== verification/Verifiers.v ===== *)
(** * Verifiers: which tasks a strategy may start (strategy_verifier.h,
    verifying/blocking/verifiers/)

    A verifier remembers, thread by thread, what the finished calls did and
    tells whether another call may start.  The theorems are about the traces of
    a strategy that asks before it starts a task and reports every task that
    finishes, the calls of a thread coming one after the other. *)

From stdpp Require Import base gmap strings option list.
From S2P Require Import Prelude ValueWrapper History Coro Strategy.

(** What a strategy tells its verifier. *)
Inductive verifier_event :=
| Started (thread_id : nat) (name : string)
| Finished (thread_id : nat) (name : string).

(** The last call of a thread that has finished. *)
Fixpoint last_finished (trace : list verifier_event) (th : nat) : option string :=
  match trace with
  | [] => None
  | Started _ _ :: trace => last_finished trace th
  | Finished th' name :: trace => if decide (th' = th) then Some name else last_finished trace th
  end.

Section traces.
Context (HV : StrategyVerifier).

(** The traces (latest event first) a strategy can produce with a verifier,
    the state of the verifier and the call every thread is in. *)
Inductive verified : list verifier_event → Verifier → gmap nat string → Prop :=
| verified_nil : verified [] Verifier_init ∅
| verified_start trace v pending th name v' :
    verified trace v pending → pending !! th = None →
    Verify (mk_Created name true th) v = Ok (true, v') →
    verified (Started th name :: trace) v' (<[th := name]> pending)
| verified_refused trace v pending th name v' :
    verified trace v pending → Verify (mk_Created name true th) v = Ok (false, v') →
    verified trace v' pending
| verified_finish trace v pending th name new v' :
    verified trace v pending → pending !! th = Some name →
    OnFinished name new th v = Ok v' →
    verified (Finished th name :: trace) v' (delete th pending).

(** In every trace, a call starts only in a thread whose last finished call
    [allowed] lets it follow. *)
Definition starts_after (allowed : option string → string → Prop) (trace : list verifier_event) : Prop :=
  ∀ later th name earlier, trace = later ++ Started th name :: earlier →
    allowed (last_finished earlier th) name.

(** It is enough that the verifier keeps the last finished call of every
    thread, up to an abstraction [abs]. *)
Lemma verified_starts_after (abs : Verifier → nat → option string → Prop) allowed :
  (∀ th, abs Verifier_init th None) →
  (∀ v th th' name ok v' o, Verify (mk_Created name true th) v = Ok (ok, v') → abs v th' o → abs v' th' o) →
  (∀ v th name v' o, Verify (mk_Created name true th) v = Ok (true, v') → abs v th o → allowed o name) →
  (∀ v th th' name new v' o o', allowed o' name → OnFinished name new th v = Ok v' → abs v th' o →
    abs v' th' (if decide (th = th') then Some name else o)) →
  ∀ trace v pending, verified trace v pending → starts_after allowed trace.
Proof.
  intros Hinit Hverify Hallow Hfinish trace v pending H.
  assert (starts_after allowed trace ∧ (∀ th, abs v th (last_finished trace th)) ∧
          map_Forall (λ _ name, ∃ o, allowed o name) pending) as [? _]; [|done].
  induction H as [|trace v pending th name v' _ (IH & Habs & Hp) _ Hv|trace v pending th name v' _ (IH & Habs & Hp) Hv
                  |trace v pending th name new v' _ (IH & Habs & Hp) Hth Hf].
  - split_and!; [|done|apply map_Forall_empty]. intros [|? ?] ? ? ? [=].
  - split_and!; [|intros th'; simpl; by eapply Hverify|apply map_Forall_insert_2; eauto].
    intros [|e l] th1 n1 earlier [= <- Heq]; [|by eapply IH]. subst. by eapply Hallow.
  - split_and!; [done| |done]. intros th'. by eapply Hverify.
  - destruct (Hp _ _ Hth) as [o Ho]. split_and!; [|intros th'; simpl; by eapply Hfinish|by apply map_Forall_delete].
    intros [|e l] th1 n1 earlier [=]; subst. by eapply IH.
Qed.
End traces.

(** ** DefaultStrategyVerifier (strategy_verifier.h) *)

Definition DefaultStrategyVerifier : StrategyVerifier := {|
  Verifier := unit;
  Verifier_init := tt;
  Verify _ v := Ok (true, v);
  OnFinished _ _ _ v := Ok v;
  Verifier_Reset v := v;
  UpdateState _ _ _ v := Ok v;
|}.

(** [status[thread_id]], after it was set to [initial] when it was absent. *)
Definition status_of (initial : Z) (status : gmap nat Z) (th : nat) : Z := default initial (status !! th).

Definition with_status (initial : Z) (status : gmap nat Z) (th : nat) : gmap nat Z :=
  match status !! th with Some _ => status | None => <[th := initial]> status end.

Lemma with_status_of initial status th th' :
  status_of initial (with_status initial status th) th' = status_of initial status th'.
Proof.
  unfold with_status, status_of. destruct (status !! th) eqn:E; [done|].
  destruct (decide (th = th')) as [<-|]; [by rewrite lookup_insert_eq, E|by rewrite lookup_insert_ne].
Qed.

Lemma status_of_insert initial status th th' x :
  status_of initial (<[th := x]> status) th' = if decide (th = th') then x else status_of initial status th'.
Proof.
  unfold status_of. destruct (decide (th = th')) as [<-|]; [by rewrite lookup_insert_eq|by rewrite lookup_insert_ne].
Qed.

(** ** MutexVerifier (mutex_verifier.h) *)

Module MutexVerifier.
Definition Verify (ctask : CreatedTaskMetaData) (status : gmap nat Z) : outcome (bool * gmap nat Z) :=
  if negb (ct_is_new ctask) then Ok (true, status)
  else
    let th := ct_thread_id ctask in
    let status := with_status 0 status th in
    if String.eqb (ct_name ctask) "Lock" then Ok ((status_of 0 status th =? 0)%Z, status)
    else if String.eqb (ct_name ctask) "Unlock" then Ok ((status_of 0 status th =? 1)%Z, status)
    else Fail (AssertFailed "false").

Definition OnFinished (name : string) (is_new : bool) (thread_id : nat) (status : gmap nat Z)
  : outcome (gmap nat Z) :=
  if String.eqb name "Lock" then Ok (<[thread_id := 1%Z]> status)
  else if String.eqb name "Unlock" then Ok (<[thread_id := 0%Z]> status)
  else Ok status.

Definition Reset (status : gmap nat Z) : gmap nat Z := ∅.

Definition UpdateState (_ : string) (_ : nat) (_ : bool) (status : gmap nat Z) : outcome (gmap nat Z) :=
  Ok status.

Definition verifier : StrategyVerifier := {|
  Strategy.Verifier := gmap nat Z;
  Strategy.Verifier_init := ∅;
  Strategy.Verify := Verify;
  Strategy.OnFinished := OnFinished;
  Strategy.Verifier_Reset := Reset;
  Strategy.UpdateState := UpdateState;
|}.

(** Lock and Unlock alternate, Lock first. *)
Definition allowed (last : option string) (name : string) : Prop :=
  (name = "Lock" ∧ last ≠ Some "Lock") ∨ (name = "Unlock" ∧ last = Some "Lock").

Definition abs (status : gmap nat Z) (th : nat) (last : option string) : Prop :=
  (last = Some "Lock" ∧ status_of 0 status th = 1%Z) ∨ (last ≠ Some "Lock" ∧ status_of 0 status th = 0%Z).

Lemma Verify_Ok ctask status ok status' :
  Verify ctask status = Ok (ok, status') →
  (∀ th, status_of 0 status' th = status_of 0 status th) ∧
  (ct_is_new ctask = true → ok = true →
    (ct_name ctask = "Lock" ∧ status_of 0 status (ct_thread_id ctask) = 0%Z) ∨
    (ct_name ctask = "Unlock" ∧ status_of 0 status (ct_thread_id ctask) = 1%Z)).
Proof.
  unfold Verify. destruct (ct_is_new ctask); [|intros [= <- <-]; split; congruence]. cbn [negb].
  destruct (String.eqb_spec (ct_name ctask) "Lock") as [?|];
    [|destruct (String.eqb_spec (ct_name ctask) "Unlock") as [?|]; [|done]];
    intros [= <- <-]; split; intros; rewrite ?with_status_of in *; try done;
    match goal with H : (_ =? _)%Z = true |- _ => apply Z.eqb_eq in H; rewrite H in * end; auto.
Qed.

(** with the MutexVerifier, every strategy that asks before it starts a
    task makes the calls of each thread alternate, Lock first: a Lock starts
    only in a thread whose last finished call is no Lock, an Unlock only in
    one whose last finished call is a Lock (so no thread locks the mutex
    twice and none unlocks a mutex it has not locked), whatever the
    interleaving of the threads and however often a start was refused. *)
Theorem Verify_alternates trace v pending :
  verified verifier trace v pending → starts_after allowed trace.
Proof.
  apply (verified_starts_after verifier abs); simpl.
  - intros th. right. by split.
  - intros v1 th th' name ok v' o [Hs _]%Verify_Ok. unfold abs. by rewrite Hs.
  - intros v1 th name v' o [_ Hok]%Verify_Ok. unfold abs, allowed. simpl in Hok.
    destruct (Hok eq_refl eq_refl) as [[-> ?]|[-> ?]]; intros [[-> ?]|[? ?]]; try lia; naive_solver.
  - intros v1 th th' name new v' o o' Ha Hf. unfold abs, OnFinished in *.
    destruct Ha as [[-> _]|[-> _]]; injection Hf as <-; rewrite status_of_insert;
      case_decide; auto; right; split; congruence.
Qed.
End MutexVerifier.

(** ** SharedMutexVerifier (shared_mutex_verifier.h) *)

Module SharedMutexVerifier.
Definition READER : Z := 4.
Definition WRITER : Z := 1.
Definition FREE : Z := 0.

Definition Verify (ctask : CreatedTaskMetaData) (status : gmap nat Z) : outcome (bool * gmap nat Z) :=
  let th := ct_thread_id ctask in
  let status := with_status FREE status th in
  if String.eqb (ct_name ctask) "lock" then Ok ((status_of FREE status th =? FREE)%Z, status)
  else if String.eqb (ct_name ctask) "unlock" then Ok ((status_of FREE status th =? WRITER)%Z, status)
  else if String.eqb (ct_name ctask) "lock_shared" then Ok ((status_of FREE status th =? FREE)%Z, status)
  else if String.eqb (ct_name ctask) "unlock_shared" then Ok ((status_of FREE status th =? READER)%Z, status)
  else Fail (AssertFailed "false").

Definition OnFinished (name : string) (is_new : bool) (thread_id : nat) (status : gmap nat Z)
  : outcome (gmap nat Z) :=
  if String.eqb name "lock" then Ok (<[thread_id := WRITER]> status)
  else if String.eqb name "unlock" then Ok (<[thread_id := FREE]> status)
  else if String.eqb name "lock_shared" then Ok (<[thread_id := READER]> status)
  else if String.eqb name "unlock_shared" then Ok (<[thread_id := FREE]> status)
  else Fail (AssertFailed "false").

Definition Reset (status : gmap nat Z) : gmap nat Z := ∅.

Definition UpdateState (_ : string) (_ : nat) (_ : bool) (status : gmap nat Z) : outcome (gmap nat Z) :=
  Ok status.

Definition verifier : StrategyVerifier := {|
  Strategy.Verifier := gmap nat Z;
  Strategy.Verifier_init := ∅;
  Strategy.Verify := Verify;
  Strategy.OnFinished := OnFinished;
  Strategy.Verifier_Reset := Reset;
  Strategy.UpdateState := UpdateState;
|}.

(** What a thread holds after its last finished call. *)
Definition holds (last : option string) : Z :=
  match last with
  | Some name => if String.eqb name "lock" then WRITER
                 else if String.eqb name "lock_shared" then READER else FREE
  | None => FREE
  end.

(** A thread locks (either way) only when it holds nothing, and releases only
    what it holds. *)
Definition allowed (last : option string) (name : string) : Prop :=
  (name = "lock" ∧ holds last = FREE) ∨ (name = "lock_shared" ∧ holds last = FREE) ∨
  (name = "unlock" ∧ holds last = WRITER) ∨ (name = "unlock_shared" ∧ holds last = READER).

Lemma Verify_shared_Ok ctask status ok status' :
  Verify ctask status = Ok (ok, status') →
  (∀ th, status_of FREE status' th = status_of FREE status th) ∧
  (ok = true → ∀ last, holds last = status_of FREE status (ct_thread_id ctask) → allowed last (ct_name ctask)).
Proof.
  unfold Verify, allowed. intros H.
  destruct (String.eqb_spec (ct_name ctask) "lock") as [?|];
    [|destruct (String.eqb_spec (ct_name ctask) "unlock") as [?|];
      [|destruct (String.eqb_spec (ct_name ctask) "lock_shared") as [?|];
        [|destruct (String.eqb_spec (ct_name ctask) "unlock_shared") as [?|]; [|done]]]];
    injection H as <- <-; split; intros; rewrite ?with_status_of in *; try done;
    match goal with H : (_ =? _)%Z = true |- _ => apply Z.eqb_eq in H; rewrite H in * end; auto.
Qed.

(** with the SharedMutexVerifier, every strategy that asks before it
    starts a task lets a thread start [lock] or [lock_shared] only when its
    last finished call left it without the mutex, [unlock] only when that
    call is [lock], and [unlock_shared] only when it is [lock_shared]. *)
Theorem Verify_releases_held trace v pending :
  verified verifier trace v pending → starts_after allowed trace.
Proof.
  apply (verified_starts_after verifier (λ status th last, holds last = status_of FREE status th)); simpl.
  - done.
  - intros v1 th th' name ok v' o [Hs _]%Verify_shared_Ok. by rewrite Hs.
  - intros v1 th name v' o [_ Hok]%Verify_shared_Ok. by apply Hok.
  - intros v1 th th' name new v' o o' Ha Hf Ho. unfold OnFinished in *.
    destruct Ha as [[-> _]|[[-> _]|[[-> _]|[-> _]]]]; injection Hf as <-; rewrite status_of_insert;
      case_decide; auto.
Qed.
End SharedMutexVerifier.
