(* ===== verification/Blocking.v ===== *)
(** * Blocking: parking on tokens and waiting on futexes
      (verifying/lib/mutex.h, syscall_intercept/hook.cpp)

    [Mutex] is the queue lock the blocking targets use: a task that does not
    get the lock parks on its token, and [Unlock] unparks the next waiter.
    [hook] turns the system calls of the code under test into yields. *)

From stdpp Require Import base gmap strings option list.
From S2P Require Import Prelude ValueWrapper Coro.

Module TokenMutex.
(** [Mutex::waiters]: the first holds the lock, the others want it. *)
Abbreviation Waiters := (list nat).

(** Whether the caller yields on its token ([Park]). *)
Definition Lock (token : nat) (waiters : Waiters) (ts : Tokens) : Waiters * Tokens * bool :=
  let waiters := waiters ++ [token] in
  if bool_decide (length waiters = 1) then (waiters, ts, false)
  else (waiters, Park token ts, true).

Definition Unlock (waiters : Waiters) (ts : Tokens) : outcome (Waiters * Tokens) :=
  _ ← assert "!waiters.empty()" (negb (bool_decide (waiters = [])));
  let waiters := tail waiters in
  match waiters with
  | [] => Ok (waiters, ts)
  | front :: _ => Ok (waiters, Unpark front ts)
  end.

Definition parked (ts : Tokens) (t : nat) : bool := default false (ts !! t).

Inductive event := Locking (t : nat) | Unlocking.

(** The runs of a mutex (events in order).  The caller of [Lock] is running,
    so its token is not parked, and it does not hold or wait for the lock
    already. *)
Inductive runs : list event → Waiters → Tokens → Prop :=
| runs_init ts : runs [] [] ts
| runs_lock tr waiters ts t waiters' ts' y :
    runs tr waiters ts → parked ts t = false → t ∉ waiters →
    Lock t waiters ts = (waiters', ts', y) → runs (tr ++ [Locking t]) waiters' ts'
| runs_unlock tr waiters ts waiters' ts' :
    runs tr waiters ts → Unlock waiters ts = Ok (waiters', ts') → runs (tr ++ [Unlocking]) waiters' ts'.

Definition requests (tr : list event) : list nat :=
  omap (λ e, match e with Locking t => Some t | Unlocking => None end) tr.
Definition releases (tr : list event) : nat :=
  length (omap (λ e, match e with Locking _ => None | Unlocking => Some tt end) tr).

Lemma parked_insert ts t t' b : parked (<[t := b]> ts) t' = if decide (t = t') then b else parked ts t'.
Proof.
  unfold parked. destruct (decide (t = t')) as [<-|]; [by rewrite lookup_insert_eq|by rewrite lookup_insert_ne].
Qed.

(** The waiters are distinct, and all of them but the first are parked. *)
Definition inv (waiters : Waiters) (ts : Tokens) : Prop :=
  NoDup waiters ∧ ∀ i t, waiters !! i = Some t → parked ts t = bool_decide (0 < i).

Lemma Lock_inv t waiters ts waiters' ts' y :
  parked ts t = false → t ∉ waiters → inv waiters ts → Lock t waiters ts = (waiters', ts', y) →
  waiters' = waiters ++ [t] ∧ inv waiters' ts'.
Proof.
  unfold Lock. intros Hp Ht [Hnd Hinv] H.
  assert (NoDup (waiters ++ [t])).
  { apply NoDup_app. split_and!; [done| |apply NoDup_singleton]. intros u Hu ->%list_elem_of_singleton. done. }
  case_bool_decide as Hlen; injection H as <- <- <-; (split; [done|]); (split; [done|]);
    rewrite length_app in Hlen; simpl in Hlen; intros i u Hi; apply lookup_snoc_Some in Hi as [[Hlt Hi]|[-> <-]].
  - lia.
  - rewrite Hp, bool_decide_false; [done|lia].
  - unfold Park. rewrite parked_insert. case_decide as Hu; [|by apply Hinv].
    subst. by apply list_elem_of_lookup_2 in Hi.
  - unfold Park. rewrite parked_insert, decide_True by done. rewrite bool_decide_true; [done|lia].
Qed.

Lemma Unlock_inv waiters ts waiters' ts' :
  inv waiters ts → Unlock waiters ts = Ok (waiters', ts') →
  (∃ t, waiters = t :: waiters') ∧ inv waiters' ts'.
Proof.
  unfold Unlock. intros [Hnd Hinv] H. inv_Ok H. destruct waiters as [|t waiters]; [done|].
  apply NoDup_cons_1_2 in Hnd as Hnd'. simpl in H. destruct waiters as [|front waiters].
  - injection H as <- <-. split; [by eexists|]. split; [done|]. intros i u Hi. by rewrite lookup_nil in Hi.
  - injection H as <- <-. split; [by eexists|]. split; [done|]. intros i u Hi.
    unfold Unpark. rewrite parked_insert. case_decide as Hu.
    + subst. assert (i = 0) as -> by (eapply NoDup_lookup; eauto). done.
    + rewrite (Hinv (S i) u Hi). destruct i; [simplify_eq/=|]. rewrite !bool_decide_true by lia. done.
Qed.

(** [Unlock] forgets no token and parks none. *)
Lemma Unlock_tokens waiters ts waiters' ts' u :
  Unlock waiters ts = Ok (waiters', ts') →
  (is_Some (ts !! u) → is_Some (ts' !! u)) ∧ (parked ts u = false → parked ts' u = false).
Proof.
  unfold Unlock. intros H. inv_Ok H. destruct (tail waiters) as [|front rest]; simplify_eq; [done|].
  unfold Unpark. rewrite parked_insert. split; [intros ?; apply lookup_insert_is_Some'; by right|]. by case_decide.
Qed.

Lemma runs_inv tr waiters ts :
  runs tr waiters ts →
  waiters = drop (releases tr) (requests tr) ∧ releases tr ≤ length (requests tr) ∧ inv waiters ts.
Proof.
  intros H.
  unfold requests, releases.
  induction H as [ts|tr waiters ts t waiters' ts' y _ (IHw & IHl & IH) Hp Ht H|tr waiters ts waiters' ts' _ (IHw & IHl & IH) H].
  - split_and!; [done|simpl; lia|]. split; [constructor|]. intros ? ? Hi. by rewrite lookup_nil in Hi.
  - apply Lock_inv in H as [-> H]; [|done..]. rewrite !omap_app. simpl. rewrite app_nil_r, drop_app_le by done.
    split_and!; [by rewrite IHw|rewrite length_app; lia|done].
  - apply Unlock_inv in H as [[t Ht] H]; [|done]. rewrite !omap_app. simpl.
    rewrite app_nil_r, length_app, <-drop_drop, <-IHw, Ht. simpl. split_and!; [by rewrite drop_0| |done].
    apply (f_equal length) in IHw. rewrite length_drop, Ht in IHw. simpl in IHw. lia.
Qed.

(** C35: the token mutex is first come, first served and excludes: after any
    run, the holder and the waiters are the calls of [Lock], in the order in
    which they were made, but for as many first ones as there were unlocks;
    the holder's token is not parked and every other waiter's is, so that of
    the tasks inside [Lock] or the critical section the runtime can resume
    the holder only; and a further [Unlock] fails its assertion exactly when
    every call of [Lock] so far was matched by one of [Unlock]. *)
Theorem Lock_fifo tr waiters ts :
  runs tr waiters ts →
  waiters = drop (releases tr) (requests tr) ∧
  (∀ i t, waiters !! i = Some t → parked ts t = bool_decide (0 < i)) ∧
  ((∃ f, Unlock waiters ts = Fail f) ↔ releases tr = length (requests tr)).
Proof.
  intros H. apply runs_inv in H as (-> & Hle & [_ Hinv]). split_and!; [done..|].
  unfold Unlock. split.
  - intros [f Hf]. apply Nat.le_antisymm; [done|]. apply Nat.le_ngt. intros Hlt.
    destruct (drop (releases tr) (requests tr)) as [|t l] eqn:E.
    + apply (f_equal length) in E. rewrite length_drop in E. simpl in E. lia.
    + simpl in Hf. by destruct l.
  - intros E. rewrite drop_ge by lia. by eexists.
Qed.
End TokenMutex.

(** ** The system call hook (hook.cpp)

    The numbers are those of Linux on x86-64 (asm/unistd_64.h, linux/futex.h). *)
Module Hook.
Definition SYS_sched_yield : Z := 24.
Definition SYS_futex : Z := 202.
Definition FUTEX_WAIT_PRIVATE : Z := 128.
Definition FUTEX_WAKE_PRIVATE : Z := 129.

(** [hook] lets the kernel execute the call, or yields, possibly after
    [SetBlocked]. *)
Inductive action :=
| Forwarded
| Yields (blocked : option (Z * Z)).

Definition hook (trap_syscall : bool) (syscall_number arg0 arg1 arg2 : Z) : outcome action :=
  if negb trap_syscall then Ok Forwarded
  else if (syscall_number =? SYS_sched_yield)%Z then Ok (Yields None)
  else if (syscall_number =? SYS_futex)%Z then
    if (arg1 =? FUTEX_WAIT_PRIVATE)%Z then Ok (Yields (Some (arg0, wrap32 arg2)))
    else if (arg1 =? FUTEX_WAKE_PRIVATE)%Z then Ok (Yields None)
    else Fail (AssertFailed "false && unsupported futex call")
  else Ok Forwarded.

(** What the futex call of a task does to the task. *)
Definition hooked `{Target} (blocked : option (Z * Z)) (c : CoroBase) : CoroBase :=
  match blocked with None => c | Some (a, v) => SetBlocked a v c end.

(** A trapped [futex(addr, FUTEX_WAIT_PRIVATE, v)] is a yield after which
    the runtime considers the task blocked for exactly as long as the word at
    [addr] still is [v] (a value that fits an [int]): looking at the task
    while the word is [v] changes nothing, and the first look at it when the
    word differs unblocks it for good, whatever the word becomes later. *)
Theorem hook_futex_wait `{Target} a v c w :
  in_int32 v →
  ∃ blocked, hook true SYS_futex a FUTEX_WAIT_PRIVATE v = Ok (Yields blocked) ∧
    (read_word (state w) a = v → IsBlocked (hooked blocked c) w = (true, hooked blocked c)) ∧
    (read_word (state w) a ≠ v → ∃ c', IsBlocked (hooked blocked c) w = (false, c') ∧
       ∀ w', IsBlocked c' w' = (false, c')).
Proof.
  intros Hv. exists (Some (a, v)). unfold hook. simpl. rewrite wrap32_id by done. split; [done|].
  unfold IsBlocked, blocked_on, SetBlocked. simpl. split; intros Hw.
  - by rewrite (proj2 (Z.eqb_eq _ _) Hw).
  - rewrite (proj2 (Z.eqb_neq _ _) Hw). eexists. split; [done|]. done.
Qed.

(** the hook yields on no other calls than the ones the runtime knows, and
    on none at all while the trap flag is off. *)
Theorem hook_forwards trap n a0 a1 a2 :
  hook trap n a0 a1 a2 = Ok Forwarded ↔ trap = false ∨ (n ≠ SYS_sched_yield ∧ n ≠ SYS_futex).
Proof.
  unfold hook. destruct trap; simpl; [|naive_solver].
  destruct (Z.eqb_spec n SYS_sched_yield); [naive_solver|].
  destruct (Z.eqb_spec n SYS_futex); [|naive_solver].
  destruct (a1 =? FUTEX_WAIT_PRIVATE)%Z, (a1 =? FUTEX_WAKE_PRIVATE)%Z; naive_solver.
Qed.
End Hook.
