(* ===== verification/Liveness.v ===== *)
(** * Liveness: rounds end (scheduler.h, pick_strategy.h)

    [RunRound] runs until enough tasks have returned, and nothing in it bounds
    the number of steps.  It ends when the code under test is wait-free
    ([Coro.wait_free]), the tasks have no tokens and the verifier refuses
    nothing: then every step of the loop either brings a task closer to its
    end or starts one, and only so many can be started.  [potential] counts the
    steps left.  The strategy enters through [StrategyLive]; [pick_live] proves
    it for the strategies that extend PickStrategy, given that they find a
    thread when all can run. *)

From stdpp Require Import base gmap strings option list.
From S2P Require Import Prelude ValueWrapper History Linearizability Coro Strategy PickStrategy PrettyPrint Scheduler.

Section live_rounds.
Context `{HT : Target} `{HC : !Code} `{HV : StrategyVerifier}.
(** Every method makes at most [bound] yields. *)
Context (budget : Frame → nat) (bound : nat).

Definition bounded_methods : Prop :=
  wait_free budget ∧ ∀ name args, budget (start name args) ≤ bound.

(** A verifier that refuses nothing. *)
Definition permissive : Prop :=
  (∀ ctask v, ∃ v', Verify ctask v = Ok (true, v')) ∧
  (∀ name new th v, ∃ v', OnFinished name new th v = Ok v').

(** A round in which nothing waits, and to which a task can be added. *)
Record quiet (b : BaseStrategy) : Prop := {
  q_live : all_live b;
  q_token : ∀ r c, slot b r = Some c → token c = None;
  q_generated : generated_token (world b) = None;
  q_generators : ∀ bd, bd ∈ constructors b → ∀ th w, generated_token w = None →
    ∃ a w', tb_gen bd th w = Ok (a, w') ∧ generated_token w' = None;
  q_constructors : constructors b ≠ [];
  q_threads : 0 < length (threads b);
  q_schedule : length (round_schedule b) = length (threads b);
}.

(** The steps a thread has left, counting those of its next task. *)
Definition thread_potential (thread : list CoroBase) : nat :=
  match last thread with
  | Some c => if IsReturned c then S bound else task_budget budget c
  | None => S bound
  end.

Definition potential (b : BaseStrategy) : nat := sum_list (thread_potential <$> threads b).

Lemma waiting_quiet b th :
  quiet b → th < length (threads b) → waiting th b = Ok (false, b).
Proof.
  intros Hq [thread Ht]%lookup_lt_is_Some_2. unfold waiting.
  st_step (thread_empty_eq b th thread Ht).
  destruct (length thread) as [|n] eqn:Hn; [by apply nil_length_inv in Hn as ->|].
  destruct (last_is_Some_length thread n Hn) as [c Hc].
  apply (back_slot b th thread n c Ht Hn) in Hc.
  destruct thread as [|c0 thread0] eqn:Hthread; [done|]. rewrite <-Hthread in *.
  st_step (back_ref_eq b th thread n Ht Hn).
  assert (task_IsParked (th, n) b = Ok (false, b)) as Hp.
  { unfold task_IsParked. rewrite (st_bind_eq _ _ b c b) by (by apply get_task_Ok).
    unfold IsParked. by rewrite (q_token _ Hq _ _ Hc). }
  st_step Hp. by apply (task_IsBlocked_live _ _ c (q_live _ Hq)).
Qed.

(** Replacing the last task of a thread. *)
Lemma potential_resume b t n thread c c' w :
  threads b !! t = Some thread → length thread = S n → last thread = Some c → IsReturned c = false →
  potential (with_world w (set_slot (t, n) c' b)) + task_budget budget c =
  potential b + (if IsReturned c' then S bound else task_budget budget c').
Proof.
  intros Ht Hn Hc Hr. unfold potential. change (threads (with_world w (set_slot (t, n) c' b)))
    with (alter (λ thread, <[n := c']> thread) t (threads b)).
  pose proof (sum_list_fmap_alter thread_potential (λ thread, <[n := c']> thread) _ _ _ Ht) as H.
  unfold thread_potential in H at 2 4. rewrite Hc, Hr in H.
  rewrite last_lookup, length_insert, Hn, list_lookup_insert_eq in H by (simpl; lia). lia.
Qed.

Lemma potential_push b t thread c :
  threads b !! t = Some thread → thread_done thread →
  sum_list (thread_potential <$> <[t := thread ++ [c]]> (threads b)) + S bound =
  potential b + (if IsReturned c then S bound else task_budget budget c).
Proof.
  intros Ht Hd. pose proof (sum_list_fmap_insert thread_potential _ _ _ (thread ++ [c]) Ht) as H.
  unfold thread_potential in H at 2 4. rewrite last_snoc in H. unfold potential.
  destruct (last thread) as [c0|] eqn:Hl; [rewrite (Hd _ Hl) in H|]; lia.
Qed.

Lemma looked_potential b b' : looked b b' → potential b' = potential b.
Proof.
  intros Hl. unfold potential. f_equal. apply list_eq. intros i. rewrite !list_lookup_fmap.
  pose proof (proj1 (Forall2_lookup _ _ _) (lk_threads _ _ Hl) i) as H.
  destruct H as [thread thread' H|]; [|done]. simpl. f_equal.
  unfold thread_potential. rewrite !last_lookup.
  assert (length thread' = length thread) as -> by (symmetry; by eapply Forall2_length).
  pose proof (proj1 (Forall2_lookup _ _ _) H (pred (length thread))) as Hl'.
  destruct Hl' as [c c' E|]; [|done]. by rewrite E.
Qed.

Lemma Build_start bd th i w :
  (∃ a w', tb_gen bd th w = Ok (a, w') ∧ generated_token w' = None) →
  ∃ a w', Build bd th i w = Ok (New (tb_name bd) a i, w') ∧ generated_token w' = None.
Proof.
  intros (a & w' & Hg & Hn). exists a, w'. unfold Build. rewrite Hg. cbn [mbind outcome_bind]. by rewrite Hn.
Qed.

(** A new task costs what its thread had in reserve. *)
Lemma next_ok_potential b t b' :
  bounded_methods → next_ok b t b' → potential b' ≤ potential b.
Proof.
  intros [_ HB] [n c thread Hlk _ _ _ _ _ _ _ _|s1 bd c thread Hlk _ _ Hth Hd _ Hb Hths _ _ _ _].
  - by rewrite (looked_potential _ _ Hlk).
  - rewrite <-(looked_potential _ _ Hlk). pose proof (potential_push s1 (thread_id t) thread c Hth Hd) as H.
    unfold potential at 1. rewrite Hths. unfold Build in Hb. apply bind_Ok in Hb as ([a w] & _ & Hb).
    assert (IsReturned c = false ∧ ctx c = Some (start (tb_name bd) a)) as [Hr Hc]
      by (destruct (generated_token w); by simplify_eq).
    rewrite Hr in H. unfold task_budget in H. rewrite Hr, Hc in H. specialize (HB (tb_name bd) a). lia.
Qed.

Lemma quiet_resume b r c c' w :
  quiet b → slot b r = Some c → same_task c c' → live c' → generated_token w = None →
  quiet (with_world w (set_slot r c' b)).
Proof.
  intros [Hl Ht Hg Hgen Hcs Hth Hs] Hc (_ & _ & _ & Htok) Hlive Hw. split; simpl; try done.
  - intros u x Hx. by eapply (set_slot_live b r c c').
  - intros u x Hx. change (slot (set_slot r c' b) u = Some x) in Hx.
    destruct (decide (r = u)) as [<-|Hne]; [|rewrite slot_set_slot_ne in Hx by done; by eapply Ht].
    rewrite (slot_set_slot _ _ _ _ Hc) in Hx. injection Hx as <-. rewrite Htok. by eapply Ht.
  - by rewrite length_alter.
  - by rewrite length_alter.
Qed.

End live_rounds.

(** What a strategy promises for liveness, on the fields of its own. *)
Class StrategyLive `{HT : Target} `{HC : !Code} `{HV : StrategyVerifier} `{HS : !Strategy}
    (own : nat → St → Prop) : Prop := {
  own_set_base n b s : own n s → own n (set_base b s);
  Next_live inner s : permissive → quiet (base s) → own (length (threads (base s))) s →
    ∃ t s', Next inner s = Ok (t, s') ∧ quiet (base s') ∧ own (length (threads (base s'))) s';
  StartNextRound_live inner s n b :
    TerminateTasks inner (with_new_task_id 0 (base s)) = Ok (tt, b) → own n s →
    ∃ s', StartNextRound inner s = Ok (tt, s') ∧ base s' = clear_threads b ∧ own n s';
}.

Section termination.
Context `{HT : Target} `{HC : !Code} `{HV : StrategyVerifier} `{HS : !Strategy}.
Context `{HL : !StrategyLaws} (own : nat → St → Prop) `{HSL : !StrategyLive own}.
Context (budget : Frame → nat) (bound : nat).
Context (Hbounded : bounded_methods budget bound) (Hperm : permissive).

Local Abbreviation potential := (potential budget bound).

Definition live_state (s : St) : Prop := quiet (base s) ∧ own (length (threads (base s))) s.

Lemma on_base_total {A} (m : stM BaseStrategy A) (s : St) a b :
  m (base s) = Ok (a, b) → own (length (threads b)) s →
  ∃ s', on_base m s = Ok (a, s') ∧ base s' = b ∧ own (length (threads b)) s'.
Proof.
  intros Hm Ho. exists (set_base b s). unfold on_base. rewrite Hm.
  split_and!; [done|apply base_set_base|by apply own_set_base].
Qed.

(** Resuming a task of a live round. *)
Lemma task_Resume_quiet b th thread n c :
  quiet b → threads b !! th = Some thread → length thread = S n →
  slot b (th, n) = Some c → IsReturned c = false →
  ∃ c' b', task_Resume (th, n) b = Ok (tt, b') ∧ quiet b' ∧ length (threads b') = length (threads b) ∧
    slot b' (th, n) = Some c' ∧
    potential b' < potential b + (if IsReturned c' then S bound else 0).
Proof.
  intros Hq Hth Hn Hc Hr.
  destruct (Resume_wait_free budget c (world b) (proj1 Hbounded) (q_live _ Hq _ _ Hc) Hr)
    as (c' & w' & HR & Hl & Hlt).
  pose proof (Resume_Ok _ _ _ _ HR) as [_ Hsame].
  exists c', (with_world w' (set_slot (th, n) c' b)). split_and!.
  - apply task_Resume_Ok. eauto 10.
  - eapply quiet_resume; [done..|]. rewrite (Resume_generated _ _ _ _ HR). by destruct Hq.
  - simpl. by rewrite length_alter.
  - exact (slot_set_slot b _ c' c Hc).
  - pose proof (potential_resume budget bound b th n thread c c' w' Hth Hn) as Hp.
    rewrite Hr in Hp. apply (back_slot b th thread n c Hth Hn) in Hc. specialize (Hp Hc eq_refl).
    destruct (IsReturned c'); lia.
Qed.

(** One iteration of [RunRound]'s loop succeeds, and leaves fewer to run. *)
Lemma run_step_total inner h s :
  live_state s →
  ∃ fin h' s', run_step inner h s = Ok ((fin, h'), s') ∧ live_state s' ∧
    length (threads (base s')) = length (threads (base s)) ∧
    potential (base s') < potential (base s) + (if fin then S bound else 0).
Proof.
  intros [Hq Hown]. destruct (Next_live inner s Hperm Hq Hown) as (t & s1 & Hnext & Hq1 & Hown1).
  pose proof (Next_contract _ _ _ _ Hnext) as Hok.
  pose proof (next_ok_potential budget bound _ _ _ Hbounded Hok) as Hpot.
  rewrite <-(next_ok_threads_length _ _ _ Hok).
  destruct (next_ok_slot _ _ _ Hok) as (thread & n & c & Hth & Hn & Ht & Hc & Hr). rewrite Ht in Hc.
  destruct (task_Resume_quiet _ _ _ _ _ Hq1 Hth Hn Hc Hr) as (c' & b2 & HTR & Hq2 & Hlen & Hc' & Hlt).
  rewrite <-Ht in *. rewrite <-Hlen in Hown1.
  destruct (on_base_total _ s1 _ _ HTR Hown1) as (s2 & E2 & <- & Hown2).
  unfold run_step. st_step Hnext. st_step E2.
  destruct (on_base_total (task_IsReturned (task t)) s2 (IsReturned c') (base s2)) as (s3 & E3 & Eb3 & Hown3);
    [apply task_IsReturned_Ok; by exists c'|done|]. st_step E3. rewrite <-Eb3 in *.
  destruct (IsReturned c') eqn:Hret.
  - destruct (proj2 Hperm (GetName c') (is_new t) (thread_id t) (sched_checker (base s3))) as [v Hv].
    destruct (on_base_total (OnVerifierTaskFinish t) s3 tt (with_checker v (base s3))) as (s4 & E4 & Eb4 & Hown4);
      [|done|].
    { unfold OnVerifierTaskFinish. rewrite (st_bind_eq _ _ _ c' (base s3)) by (by apply get_task_Ok).
      rewrite st_get_bind. by st_lift_step Hv. }
    st_step E4. rewrite <-Eb4 in Hown4.
    destruct (on_base_total (task_GetRetVal (task t)) s4 (ret c') (base s4)) as (s5 & E5 & Eb5 & Hown5);
      [|done|].
    { apply task_GetRetVal_Ok. exists c'. split_and!; [by rewrite Eb4|done..]. }
    st_step E5. eexists _, _, s5. split; [reflexivity|]. unfold live_state. rewrite Eb5 in *.
    rewrite Eb4 in *. split; [|split; [done|]; change (potential (with_checker v (base s3))) with (potential (base s3)); lia].
    split; [by destruct Hq2|done].
  - eexists _, _, s3. split; [reflexivity|]. split; [by split|]. split; [done|]. lia.
Qed.

Lemma run_loop_total inner fuel remaining h s :
  live_state s → potential (base s) + remaining * S bound ≤ fuel →
  ∃ h' s', run_loop inner fuel remaining h s = Ok (h', s') ∧ live_state s' ∧
    length (threads (base s')) = length (threads (base s)) ∧ potential (base s') ≤ potential (base s) + remaining * S bound.
Proof.
  revert remaining h s. induction fuel as [|fuel IH]; intros [|remaining] h s Hs Hf; cbn [run_loop];
    try (exists h, s; split_and!; [done..|lia]); [simpl in Hf; lia|].
  destruct (run_step_total inner h s Hs) as (fin & h1 & s1 & E & Hs1 & Hlen & Hlt). st_step E.
  destruct (IH (if fin then remaining else S remaining) h1 s1 Hs1) as (h' & s' & E' & Hs' & Hlen' & Hle);
    [destruct fin; simpl in *; lia|].
  exists h', s'. split_and!; [done|done|congruence|]. destruct fin; simpl in *; lia.
Qed.

(** What the tasks still have to run is within what the round is given. *)
Lemma budget_le_potential b : only_last_runs b → round_budget budget b ≤ potential b.
Proof.
  intros Hlast. unfold round_budget, Liveness.potential.
  assert (∀ th thread, threads b !! th = Some thread → thread_budget budget thread ≤ thread_potential budget bound thread) as H.
  { intros th thread Ht. unfold thread_potential. destruct thread as [|c thread _] using rev_ind; [apply Nat.le_0_l|].
    rewrite last_snoc. unfold thread_budget. rewrite sum_list_fmap_snoc.
    rewrite (sum_list_fmap_ext _ (λ _, 0) thread).
    2:{ intros k x Hx. unfold task_budget.
      rewrite (Hlast th (thread ++ [c]) k x Ht); [done|by apply lookup_app_l_Some|].
      apply lookup_lt_Some in Hx. rewrite length_app. simpl. lia. }
    assert (sum_list ((λ _, 0) <$> thread) = 0) as -> by (clear; induction thread; done).
    destruct (IsReturned c) eqn:Hr; [|lia]. unfold task_budget. rewrite Hr. lia. }
  revert H. induction (threads b) as [|thread l IH]; intros H; simpl; [lia|].
  pose proof (H 0 thread eq_refl). assert (∀ th t, l !! th = Some t → _) as Hl by (intros th; apply (H (S th))).
  specialize (IH Hl). unfold fmap in *. lia.
Qed.

(** The next round starts as empty as the first one was. *)
Lemma StartNextRound_total inner s :
  live_state s → only_last_runs (base s) → potential (base s) < inner →
  ∃ s', StartNextRound inner s = Ok (tt, s') ∧ live_state s' ∧ empty_round (base s') ∧
    length (threads (base s')) = length (threads (base s)).
Proof.
  intros [[Hl Ht Hg Hgen Hcs Hth Hsch] Hown] Hlast Hf.
  destruct (TerminateTasks_wait_free budget (proj1 Hbounded) inner (with_new_task_id 0 (base s)))
    as (b & HTT & _); [done|done|by eapply Nat.le_lt_trans, Hf; apply (budget_le_potential (base s))|].
  destruct (StartNextRound_live inner s _ b HTT Hown) as (s' & HSN & Eb & Hown').
  apply TerminateTasks_evolves in HTT as (s1 & Hev & ->).
  pose proof (evolves_threads_length _ _ Hev) as Hlen. destruct Hev as [_ _ _ Esch _ Ecs Egen]. simpl in *.
  exists s'. unfold live_state. rewrite Eb. simpl. rewrite length_fmap, Hlen.
  split_and!; [done| |done|apply clear_threads_empty|done].
  split; simpl; rewrite ?length_fmap; try congruence.
  - intros r c Hc. by rewrite clear_threads_empty in Hc.
  - intros r c Hc. by rewrite clear_threads_empty in Hc.
  - by rewrite Ecs.
  - by rewrite Esch, length_replicate, Hlen, Hsch.
Qed.

Lemma potential_empty b : empty_round b → potential b = length (threads b) * S bound.
Proof.
  intros He. unfold Liveness.potential.
  assert (∀ i thread, threads b !! i = Some thread → thread = []) as Hnil.
  { intros i [|c thread] Hi; [done|]. specialize (He (i, 0)).
    assert (slot b (i, 0) = Some c) by (apply slot_Some; eauto). congruence. }
  revert Hnil. induction (threads b) as [|thread l IH]; intros Hnil; [done|].
  simpl. unfold fmap in IH. rewrite IH by (intros i; apply (Hnil (S i))).
  by rewrite (Hnil 0 thread eq_refl).
Qed.

(** A round that was played and can be printed is checked. *)
Lemma check_returns `{HMC : ModelChecker} {HPP : PrettyPrinter} {SpecState}
    (spec : gmap string (Method (State:=SpecState) (Args:=tuple)))
    first_state `{HCC : !CheckerCorrect spec first_state} inner fuel n s h s' :
  run_loop inner fuel n ([], []) s = Ok (h, s') → empty_round (base s) → covered spec (base s') →
  print_log h.2 s' = Ok (tt, s') → ∃ r, RunRound inner fuel n s = Ok (r, s').
Proof.
  intros E He Hcov Hp. unfold RunRound. st_step E. st_step Hp.
  destruct (run_loop_Ok _ _ _ _ _ _ _ E) as [[_ Hrec] _]; [by apply generating_empty|].
  pose proof (records_checkable _ _ _ _ _ Hcov Hrec (λ _ H, H) (λ _ _ H, H)) as Hck.
  destruct (check_decides spec first_state _ _ Hck) as (ok & Hok & _).
  unfold check_histories. rewrite st_get_bind. st_lift_step Hok. by eexists.
Qed.

(** C19: A round ends, and [RunRound] returns exactly when its table can be
    printed.  From an empty round of wait-free methods whose frames make at most
    [bound] yields, without tokens, with generators that always give arguments,
    under a strategy that finds a thread and a verifier that refuses nothing, the
    loop finishes its [max_tasks] tasks within
    [(threads + max_tasks) * (bound + 1)] iterations, failing no assertion.  What
    follows the loop is the printer, made for the threads of the round, and the
    check: when the specification covers the round and no cell is of an absurd
    length, [RunRound] returns if and only if the text of every event is shorter
    than its cell of 19 characters, and otherwise it fails. *)
Theorem RunRound_returns `{HMC : ModelChecker} {HPP : PrettyPrinter} {SpecState}
    (spec : gmap string (Method (State:=SpecState) (Args:=tuple)))
    first_state `{HCC : !CheckerCorrect spec first_state} inner fuel max_tasks s :
  live_state s → empty_round (base s) →
  (length (threads (base s)) + max_tasks) * S bound ≤ fuel →
  printer_threads = Z.of_nat (length (threads (base s))) → (printer_threads < 2 ^ 31)%Z →
  ∃ h s', run_loop inner fuel max_tasks ([], []) s = Ok (h, s') ∧
    (covered spec (base s') → sensible (base s') h.2 →
     ((∃ r, RunRound inner fuel max_tasks s = Ok (r, s')) ↔ rows_fit (base s') h.2)).
Proof.
  intros Hs He Hf Hpp Hlt.
  destruct (run_loop_total inner fuel max_tasks ([], []) s Hs) as (h & s' & E & _ & Hlen & _);
    [rewrite potential_empty by done; lia|].
  exists h, s'. split; [done|]. intros Hcov Hsens.
  destruct (run_loop_columns _ _ _ _ _ _ _ E) as [_ Hcol]; [by constructor|].
  rewrite <-(print_log_Ok h.2 s' Hcol Hsens) by congruence. split.
  - intros (r & (h1 & E1 & Hp & _)%RunRound_parts). rewrite E in E1. by injection E1 as <-.
  - intros Hp. by apply (check_returns spec first_state inner fuel max_tasks s h s').
Qed.
End termination.

(** ** The strategies that extend PickStrategy *)

(** Finding a thread when none waits, on the fields of the subclass. *)
Class PickLive `{HT : Target} `{HV : StrategyVerifier} `{HR : Rng} {Sub} `{HP : !PickMethods Sub}
    (own_sub : nat → Sub → Prop) : Prop :=
  Pick_live (s : PickState Sub) :
    0 < length (threads (pick_base s)) → own_sub (length (threads (pick_base s))) (pick_sub s) →
    (∀ th, th < length (threads (pick_base s)) → waiting th (pick_base s) = Ok (false, pick_base s)) →
    ∃ t s', Pick s = Ok (t, s') ∧ t < length (threads (pick_base s)) ∧ pick_base s' = pick_base s ∧
      own_sub (length (threads (pick_base s))) (pick_sub s').

Section pick_live.
Context `{HT : Target} `{HC : !Code} `{HV : StrategyVerifier} `{HR : Rng} `{HRL : !RngLaws}.
Context {Sub} `{HP : !PickMethods Sub} (own_sub : nat → Sub → Prop) `{HPL : !PickLive own_sub}.

Definition pick_own (n : nat) (s : PickState Sub) : Prop := own_sub n (pick_sub s).

Lemma needs_new_task_total b th thread :
  threads b !! th = Some thread → ∃ f, needs_new_task th b = Ok (f, b).
Proof.
  intros Ht. unfold needs_new_task. st_step (thread_empty_eq b th thread Ht).
  destruct (length thread) as [|n] eqn:Hn; [apply nil_length_inv in Hn as ->; by eexists|].
  destruct thread as [|c0 thread0] eqn:Hthread; [done|]. rewrite <-Hthread in *.
  st_step (back_ref_eq b th thread n Ht Hn).
  destruct (last_is_Some_length thread n Hn) as [c Hc]. apply (back_slot b th thread n c Ht Hn) in Hc.
  exists (IsReturned c). apply task_IsReturned_Ok. by exists c.
Qed.

Lemma quiet_constructors b cs :
  quiet b → Permutation cs (constructors b) → quiet (with_constructors cs b).
Proof.
  intros [Hl Ht Hg Hgen Hcs Hth Hs] Hp. split; simpl; try done.
  - intros bd Hbd. apply Hgen. by rewrite <-Hp.
  - intros ->. by apply Permutation_nil in Hp.
Qed.

Lemma quiet_checker b v : quiet b → quiet (with_checker v b).
Proof. by destruct 1. Qed.

(** The first constructor is as good as any. *)
Lemma find_verified_permissive cs th b :
  permissive → cs ≠ [] →
  ∃ bd v, find_verified cs th b = Ok (Some bd, with_checker v b) ∧ bd ∈ cs.
Proof.
  intros [Hv _] Hne. destruct cs as [|bd cs]; [done|]. cbn [find_verified]. rewrite st_get_bind.
  destruct (Hv (mk_Created (tb_name bd) true th) (sched_checker b)) as [v E].
  exists bd, v. split; [|by left]. by st_lift_step E.
Qed.

Lemma emplace_task_quiet bd th thread b :
  quiet b → bd ∈ constructors b → threads b !! th = Some thread →
  ∃ b', emplace_task bd th b = Ok (tt, b') ∧ quiet b' ∧ length (threads b') = length (threads b) ∧
    ∃ n, back_ref th b' = Ok ((th, n), b').
Proof.
  intros Hq Hbd Ht. pose proof Hq as [Hl Htok Hg Hgen Hcs Hth Hsch].
  destruct (Build_start bd th (new_task_id b) (world b)) as (a & w & Hb & Hw); [by apply Hgen|].
  unfold emplace_task. rewrite st_get_bind. st_lift_step Hb. st_lift_step (vec_get_Some _ _ _ Ht).
  eexists. split; [reflexivity|]. set (c := New _ _ _).
  assert (∀ u x, slot (with_threads (<[th:=thread ++ [c]]> (threads b)) b) u = Some x →
    x = c ∨ slot b u = Some x) as Hslot.
  { intros u x Hx. destruct (decide (u = (th, length thread))) as [->|Hne].
    - left. rewrite (slot_push_eq b (with_threads (<[th:=thread ++ [c]]> (threads b)) b) th thread c Ht eq_refl) in Hx.
      congruence.
    - right. by rewrite (slot_push_ne b (with_threads (<[th:=thread ++ [c]]> (threads b)) b) th thread c Ht eq_refl) in Hx. }
  split; [|split; [simpl; by rewrite length_insert|]].
  - split; simpl; [| |done|exact Hgen|done|by rewrite length_insert|by rewrite length_insert].
    + intros u x [->|Hx]%Hslot; [|by eapply Hl]. split; [done|]. intros _. by eexists.
    + intros u x [->|Hx]%Hslot; [done|by eapply Htok].
  - exists (length thread). eapply back_ref_eq; [simpl; rewrite list_lookup_insert_eq; [reflexivity|by eapply lookup_lt_Some]|].
    rewrite length_app. simpl. lia.
Qed.

#[global] Instance PickStrategy_live : StrategyLive pick_own.
Proof.
  split; [done| |].
  2:{ intros inner s n b HTT Hown. exists (with_pick_base (clear_threads b) s).
      split_and!; [|done|done]. simpl. unfold pick_StartNextRound.
      assert (in_base (st_modify (with_new_task_id 0)) s = Ok (tt, with_pick_base (with_new_task_id 0 (pick_base s)) s)) as E1
        by done.
      st_step E1. by rewrite (st_bind_eq _ _ _ _ _ (in_base_eq (TerminateTasks inner)
        (with_pick_base (with_new_task_id 0 (pick_base s)) s) _ _ HTT)). }
  intros inner s Hperm Hq Hown. simpl in *.
  destruct (Pick_live s (q_threads _ Hq) Hown) as (th & s1 & HPick & Hth & Eb & Hown1).
  { intros th Hth. by apply waiting_quiet. }
  unfold pick_own in *. unfold pick_Next. st_step HPick.
  destruct (lookup_lt_is_Some_2 _ _ Hth) as [thread Ht]. rewrite <-Eb in *.
  destruct (needs_new_task_total _ _ _ Ht) as [f Hf]. st_step (in_base_eq _ s1 _ _ Hf).
  destruct f.
  - rewrite st_get_bind. pose proof (shuffle_perm (constructors (pick_base s1)) (pick_rng s1)) as Hperm'.
    cbn [pick_base with_pick_base].
    destruct (shuffle _ _) as [cs g]. simpl in Hperm'. rewrite st_put_bind.
    pose proof (quiet_constructors _ cs Hq Hperm') as Hqc.
    destruct (find_verified_permissive cs th (with_constructors cs (pick_base s1)) Hperm) as (bd & v & Ef & Hbd);
      [by destruct Hqc|].
    st_step (in_base_eq _ (with_rng g (with_pick_base (with_constructors cs (pick_base s1)) s1)) _ _ Ef).
    destruct (emplace_task_quiet bd th thread _ (quiet_checker _ v Hqc) Hbd Ht) as (b' & Ee & Hq' & Hlen & n & Eback).
    match goal with |- context [in_base (emplace_task _ _) ≫= _] =>
      rewrite (st_bind_eq _ _ _ _ _ (in_base_eq (emplace_task bd th)
        (with_pick_base (with_checker v (with_constructors cs (pick_base s1))) _) _ _ Ee)) end.
    match goal with |- context [in_base (back_ref _) ≫= _] =>
      rewrite (st_bind_eq _ _ _ _ _ (in_base_eq (back_ref th) (with_pick_base b' _) _ _ Eback)) end.
    eexists _, _. split; [reflexivity|]. cbn [pick_base with_pick_base pick_sub]. split; [done|]. by rewrite Hlen.
  - pose proof Hf as (_ & thread' & Ht' & n & c & Hn & _)%needs_new_task_Ok.
    assert (thread' = thread) as -> by congruence.
    cbn [pick_base with_pick_base].
    rewrite (st_bind_eq _ _ _ _ _ (in_base_eq (back_ref th) (with_pick_base (pick_base s1) s1) _ _ (back_ref_eq _ _ _ _ Ht Hn))).
    eexists _, _. split; [reflexivity|]. cbn [pick_base with_pick_base pick_sub]. by split.
Qed.
End pick_live.

Section subclasses_live.
Context `{HT : Target} `{HC : !Code} `{HV : StrategyVerifier} `{HR : Rng}.

(** Round robin finds the thread whose turn it is. *)
#[global] Instance RoundRobin_live :
  PickLive (Sub:=RoundRobin.RoundRobinStrategy) (λ _ _, True).
Proof.
  intros s Hn _ Hw. simpl. unfold RoundRobin.Pick. rewrite st_get_bind.
  destruct (length (threads (pick_base s))) as [|n] eqn:El; [lia|]. cbn [RoundRobin.pick_loop].
  set (t := Z.to_nat (RoundRobin.next_task (pick_sub s) `mod` Z.of_nat (length (threads (pick_base s))))).
  set (s1 := with_sub (RoundRobin.mk_RoundRobin (wrapu64 (RoundRobin.next_task (pick_sub s) + 1))) s).
  assert (t < S n) as Ht.
  { unfold t. rewrite El. pose proof (Z.mod_pos_bound (RoundRobin.next_task (pick_sub s)) (Z.of_nat (S n))). lia. }
  rewrite (st_bind_eq _ _ _ t s1) by done.
  assert (in_base (waiting t) s1 = Ok (false, s1)) as E by (unfold in_base; simpl; by rewrite Hw).
  st_step E. by exists t, s1.
Qed.

(** Random: every thread contributes its weight, and the random number is
    that of a thread. *)
Lemma collect_all ths (s : PickState Random.RandomStrategy) :
  (∀ th, th ∈ ths → waiting th (pick_base s) = Ok (false, pick_base s) ∧ th < length (Random.weights (pick_sub s))) →
  ∃ ws, length ws = length ths ∧ Forall (λ w, w ∈ Random.weights (pick_sub s)) ws ∧
    Random.collect waiting ths s =
      Ok (tt, with_sub (Random.mk_Random (Random.weights (pick_sub s)) (Random.pick_weights (pick_sub s) ++ ws)) s).
Proof.
  revert s. induction ths as [|th ths IH]; intros s Hths; cbn [Random.collect].
  { exists []. rewrite app_nil_r. split_and!; [done..|]. by destruct s as [? ? []]. }
  destruct (Hths th) as [Hw Hlt]; [by left|].
  assert (in_base (waiting th) s = Ok (false, s)) as E by (unfold in_base; rewrite Hw; by destruct s).
  st_step E. apply lookup_lt_is_Some_2 in Hlt as [w Hwt].
  rewrite (st_bind_eq _ _ _ tt (with_sub (Random.mk_Random (Random.weights (pick_sub s))
    (Random.pick_weights (pick_sub s) ++ [w])) s)).
  2:{ rewrite st_get_bind. by st_lift_step (vec_get_Some _ _ _ Hwt). }
  destruct (IH (with_sub (Random.mk_Random (Random.weights (pick_sub s))
    (Random.pick_weights (pick_sub s) ++ [w])) s)) as (ws & Hl & Hf & Ec); [intros t Ht; apply Hths; by right|].
  exists (w :: ws). simpl in *. rewrite Hl, Ec, <-app_assoc. split_and!; [done| |done].
  constructor; [|done]. apply list_elem_of_lookup. eauto.
Qed.

Lemma select_all ths (s : PickState Random.RandomStrategy) num t :
  (∀ th, th ∈ ths → waiting th (pick_base s) = Ok (false, pick_base s)) →
  (0 ≤ num)%Z → ths !! Z.to_nat num = Some t → Random.select waiting ths num s = Ok (t, s).
Proof.
  revert num. induction ths as [|th ths IH]; intros num Hths H0 Ht; cbn [Random.select]; [done|].
  assert (in_base (waiting th) s = Ok (false, s)) as E
    by (unfold in_base; rewrite Hths by (by left); by destruct s).
  st_step E. destruct (Z.eqb_spec num 0) as [->|Hne]; [by injection Ht as ->|].
  apply IH; [intros u Hu; apply Hths; by right|lia|].
  replace (Z.to_nat num) with (S (Z.to_nat (num - 1))) in Ht by lia. done.
Qed.

Lemma sum_positive ws : ws ≠ [] → Forall (λ w, 0 < w)%Z ws → (0 < foldr Z.add 0 ws)%Z.
Proof.
  intros Hne H. destruct H as [|w ws Hw Hws]; [done|]. simpl.
  assert (0 ≤ foldr Z.add 0 ws)%Z; [|lia]. clear -Hws. induction Hws; simpl in *; lia.
Qed.

#[global] Instance Random_live `{HRL : !RngLaws} :
  PickLive (Sub:=Random.RandomStrategy)
    (λ n x, n ≤ length (Random.weights x) ∧ Forall (λ w, 0 < w)%Z (Random.weights x)).
Proof.
  intros s Hn [Hlen Hpos] Hw. simpl. unfold Random.Pick, Random.pick_with.
  rewrite st_modify_bind, st_get_bind. cbv zeta.
  set (s0 := with_sub (Random.mk_Random (Random.weights (pick_sub s)) []) s).
  set (n := length (threads (pick_base s))) in *. change (pick_base s0) with (pick_base s). fold n.
  destruct (collect_all (seq 0 n) s0) as (ws & Hl & Hf & Ec).
  { intros th [_ Hth]%elem_of_seq. split; [by apply Hw|simpl; lia]. }
  st_step Ec. rewrite st_get_bind. cbn [pick_sub with_sub Random.pick_weights s0 app].
  rewrite length_seq in Hl. assert (ws ≠ []) as Hne by (intros ->; simpl in Hl; lia).
  rewrite (st_bind_eq _ _ _ tt _ (proj2 (st_assert_Ok _ _ _ _ _) (conj (f_equal negb (bool_decide_eq_false_2 _ Hne)) eq_refl))).
  assert (Forall (λ w, 0 < w)%Z ws) as Hp.
  { eapply Forall_impl; [exact Hf|]. intros x Hx. by eapply (Forall_forall _ _) in Hx. }
  pose proof (discrete_range ws (pick_rng s)) as Hr.
  cbn [pick_rng with_sub s0]. destruct (discrete ws (pick_rng s)) as [num g]. simpl in Hr.
  destruct Hr as [H0 Hlt]; [eapply Forall_impl; [exact Hp|simpl; lia]|by apply sum_positive|].
  rewrite st_put_bind. destruct (lookup_lt_is_Some_2 (seq 0 n) (Z.to_nat num)) as [t Ht]; [rewrite length_seq; lia|].
  match goal with |- context [Random.select _ _ _ ?s2] => exists t, s2 end.
  split; [apply select_all; [|done..]|]. { intros th [_ Hth]%elem_of_seq. by apply Hw. }
  apply lookup_seq in Ht as [-> ?]. simpl. by split_and!; [lia|..].
Qed.
End subclasses_live.
