(* ===== verification/Rows.v ===== *)
(** * Rows: rounds whose tables can be printed (scheduler.h:359, pretty_print.h)

    [RunRound] prints every history it generates, and the printer asserts that
    the text of an event is shorter than its cell.  Whether it is depends on the
    target: on the names of its methods, the arguments its generators give and
    the values its methods answer, and on how many tasks a round can have, for
    the ids are printed too.  [ShortTexts] collects these bounds; with them every
    round that is generated can be printed ([run_loop_rows_fit]). *)

From stdpp Require Import base gmap strings pretty option list.
From S2P Require Import Prelude ValueWrapper Text History Coro Strategy PrettyPrint Scheduler.

Section rows.
Context `{HT : Target} `{HC : !Code} `{HV : StrategyVerifier}.

(** The cell of an answer, and that of a call with an id below [ids]. *)
Definition short_answer (v : ValueWrapper) : Prop :=
  ∃ t, vw_to_string v = Ok t ∧ String.length ("<-- " +:+ t) < 19.
Definition short_call (ids : nat) (method : string) (a : tuple) : Prop :=
  ∃ strs, toStringList a = Ok strs ∧ ∀ i, (0 ≤ i < Z.of_nat ids)%Z →
    String.length (("[" +:+ pretty i +:+ "] ") +:+ method +:+ "(" +:+ commas true strs +:+ ")") < 19.

(** An [int] always fits in an answer, and [void] too. *)
Lemma short_int z : in_int32 z → short_answer (ValueWrapper_of z).
Proof.
  intros Hz. exists (pretty z). split; [done|]. rewrite string_length_app. change (String.length "<-- ") with 4.
  assert (String.length (pretty z) ≤ 11); [|lia]. apply (pretty_Z_length 9). unfold in_int32 in Hz.
  change (10 ^ Z.of_nat 10)%Z with 10000000000%Z. change (2 ^ 31)%Z with 2147483648%Z in *. lia.
Qed.

Lemma short_void : short_answer void_v.
Proof. exists "void". split; [done|]. simpl. lia. Qed.

(** A call whose name and arguments leave room for the digits of an id. *)
Lemma short_call_digits k ids method a strs :
  toStringList a = Ok strs → (Z.of_nat ids ≤ 10 ^ Z.of_nat (S k))%Z →
  5 + S k + String.length method + String.length (commas true strs) < 19 → short_call ids method a.
Proof.
  intros Hs Hids Hlen. exists strs. split; [done|]. intros i Hi. rewrite !string_length_app. simpl.
  assert (String.length (pretty i) ≤ S k); [|lia].
  rewrite <-(Z2Nat.id i) by lia. apply pretty_nat_length. rewrite Z2Nat.id; lia.
Qed.

(** The target has short texts: what it answers in frames and on objects that
    can come up, and what its generators ask for. *)
Record ShortTexts (frame_ok : Frame → Prop) (obj_ok : TargetObj → Prop) (ids : nat) (l : list TaskBuilder) : Prop := {
  st_init : obj_ok target_init;
  st_reset o : obj_ok (target_Reset o);
  st_slice f o ts sl : frame_ok f → obj_ok o → run_slice f o ts = Ok sl →
    obj_ok (slice_obj sl) ∧
    match sl with Yielded f' _ _ _ _ => frame_ok f' | Returned v _ _ => short_answer v end;
  st_call bd th w a w' : bd ∈ l → tb_gen bd th w = Ok (a, w') →
    short_call ids (tb_name bd) a ∧ frame_ok (start (tb_name bd) a) ∧ (obj_ok (state w) → obj_ok (state w'));
}.

Context (frame_ok : Frame → Prop) (obj_ok : TargetObj → Prop) (ids : nat) (l : list TaskBuilder).
Context (HST : ShortTexts frame_ok obj_ok ids l) (Hids : (Z.of_nat ids < 2 ^ 31)%Z).

(** ** The invariant of a round *)

Definition short_task (c : CoroBase) : Prop :=
  short_call ids (name c) (args c) ∧ (0 ≤ id c < Z.of_nat ids)%Z ∧
  if IsReturned c then short_answer (ret c) else ∀ f, ctx c = Some f → frame_ok f.

(** The threads that can be given a new task. *)
Definition idle_thread (thread : list CoroBase) : nat :=
  match last thread with Some c => if IsReturned c then 1 else 0 | None => 1 end.
Definition idle (b : BaseStrategy) : nat := sum_list (idle_thread <$> threads b).

(** A round with [remaining] tasks to finish: there are ids for the tasks that
    can still be created, one for each of these and for each idle thread. *)
Record short_round (b : BaseStrategy) (remaining : nat) : Prop := {
  sr_obj : obj_ok (state (world b));
  sr_builders : ∀ bd, bd ∈ constructors b → bd ∈ l;
  sr_tasks : ∀ r c, slot b r = Some c → short_task c;
  sr_pos : (0 ≤ new_task_id b)%Z;
  sr_ids : (new_task_id b + Z.of_nat (idle b) + Z.of_nat remaining ≤ Z.of_nat ids)%Z;
}.

Lemma looked_idle b b' : looked b b' → idle b' = idle b.
Proof.
  intros Hl. unfold idle. f_equal. apply list_eq. intros i. rewrite !list_lookup_fmap.
  pose proof (proj1 (Forall2_lookup _ _ _) (lk_threads _ _ Hl) i) as H.
  destruct H as [thread thread' H|]; [|done]. simpl. f_equal. unfold idle_thread. rewrite !last_lookup.
  rewrite (Forall2_length _ _ _ H).
  pose proof (proj1 (Forall2_lookup _ _ _) H (pred (length thread'))) as Hl'.
  destruct Hl' as [c c' E|]; [|done]. by rewrite E.
Qed.

Lemma looked_short b b' n : looked b b' → short_round b n → short_round b' n.
Proof.
  intros Hlk [Ho Hb Ht Hp Hi]. pose proof Hlk as [_ Ew Eid _ _ _ Ecs]. split.
  - by rewrite Ew.
  - by rewrite Ecs.
  - intros r c' Hc'. destruct (looked_slot _ _ _ _ Hlk Hc') as (c & Hc & ->). exact (Ht _ _ Hc).
  - by rewrite Eid.
  - by rewrite Eid, (looked_idle _ _ Hlk).
Qed.

(** A new task takes the id of a thread that was idle. *)
Lemma next_short b t b' n : next_ok b t b' → short_round b n → short_round b' n.
Proof.
  intros [m c thread Hlk _ _ _ _ _ _ _ _|s1 bd c thread Hlk _ _ Hth Hd Hbd HB Hths Eid _ _ Ecs] Hs;
    [by eapply looked_short|].
  pose proof (looked_short _ _ _ Hlk Hs) as [Ho Hb Ht Hp Hi].
  pose proof Hlk as [_ _ Eid1 _ _ _ Ecs1].
  unfold Build in HB. apply bind_Ok in HB as ([a w] & Hgen & HB).
  destruct (st_call _ _ _ _ HST bd (thread_id t) (world s1) a w) as (Hcall & Hf & Hobj); [by apply (sr_builders _ _ Hs)|done|].
  assert (idle b' + 1 = idle s1) as Hidle.
  { pose proof (sum_list_fmap_insert idle_thread _ _ _ (thread ++ [c]) Hth) as H. unfold idle. rewrite Hths.
    assert (idle_thread (thread ++ [c]) = 0) as E0.
    { unfold idle_thread. rewrite last_snoc. by destruct (generated_token w); simplify_eq. }
    assert (idle_thread thread = 1) as E1.
    { unfold idle_thread. destruct (last thread) as [c0|] eqn:El; [|done]. by rewrite (Hd _ El). }
    lia. }
  rewrite Eid1 in *. assert (wrap32 (new_task_id b + 1) = new_task_id b + 1)%Z as Ewrap.
  { apply wrap32_id. unfold in_int32. change (2 ^ 31)%Z with 2147483648%Z in *. lia. }
  rewrite Ewrap in Eid. split.
  - assert (state (world b') = state w) as -> by (destruct (generated_token w); by injection HB as _ <-). auto.
  - intros bd' Hbd'. apply (sr_builders _ _ Hs). by apply Ecs.
  - intros r x Hx. destruct (decide (r = (thread_id t, length thread))) as [->|Hne].
    + rewrite (slot_push_eq s1 b' _ _ c Hth Hths) in Hx. injection Hx as <-.
      destruct (generated_token w); simplify_eq; (split; [done|split; [simpl; lia|]]; simpl; intros f [= <-]; done).
    + rewrite (slot_push_ne s1 b' _ _ c Hth Hths) in Hx by done. by eapply Ht.
  - lia.
  - lia.
Qed.

(** A task that returns leaves its thread idle. *)
Lemma resumed_short b r c c' b' n :
  resumed b r c c' b' → short_round b (if IsReturned c' then S n else n) → short_round b' n.
Proof.
  destruct r as [th i]. intros (Hc & Hr & (Eid & En & Ea & _) & w & HR & ->) [Ho Hb Ht Hp Hi].
  pose proof (Ht _ _ Hc) as (Hcall & Hid & Hf). rewrite Hr in Hf.
  assert (obj_ok (state w) ∧ short_task c') as [How Hc'].
  { unfold short_task. rewrite En, Ea, Eid. unfold Resume in HR.
    apply bind_Ok in HR as (u & _ & HR). apply bind_Ok in HR as (f & Hctx%or_fail_Ok & HR).
    apply bind_Ok in HR as (sl & Hsl & HR). pose proof (st_slice _ _ _ _ HST _ _ _ _ (Hf f Hctx) Ho Hsl) as [Hobj Hres].
    destruct sl as [f' o ts [[a v]|] st|v o ts]; injection HR as <- <-; simpl in *; (split; [done|]; split; [done|]; split; [done|]);
      try exact Hres; intros f'' [= <-]; exact Hres. }
  assert (idle (with_world w (set_slot (th, i) c' b)) ≤ idle b + (if IsReturned c' then 1 else 0)) as Hidle.
  { apply slot_Some in Hc as (thread & Hth & Hi').
    pose proof (sum_list_fmap_alter idle_thread (λ thread, <[i := c']> thread) _ _ _ Hth) as H.
    change (idle (with_world w (set_slot (th, i) c' b))) with
      (sum_list (idle_thread <$> alter (λ thread, <[i := c']> thread) th (threads b))).
    assert (idle_thread (<[i := c']> thread) ≤ idle_thread thread + (if IsReturned c' then 1 else 0)) as Hle.
    { unfold idle_thread. rewrite !last_lookup, length_insert.
      destruct (decide (i = pred (length thread))) as [<-|Hne]; [|rewrite list_lookup_insert_ne by done; lia].
      rewrite list_lookup_insert_eq by (by eapply lookup_lt_Some). lia. }
    unfold idle. lia. }
  split; [done|done| |done|].
  - intros u x Hx. change (slot (set_slot (th, i) c' b) u = Some x) in Hx.
    destruct (decide ((th, i) = u)) as [<-|Hne]; [|rewrite slot_set_slot_ne in Hx by done; by eapply Ht].
    rewrite (slot_set_slot _ _ _ _ Hc) in Hx. by injection Hx as <-.
  - simpl. destruct (IsReturned c'); lia.
Qed.

Context `{HS : !Strategy} `{HL : !StrategyLaws}.

Lemma run_loop_short inner fuel remaining h s h' s' :
  run_loop inner fuel remaining h s = Ok (h', s') → short_round (base s) remaining → short_round (base s') 0.
Proof.
  revert remaining h s. induction fuel as [|fuel IH]; intros [|remaining] h s H Hs;
    cbn [run_loop] in H; try done; try (by inv_st H).
  apply st_bind_Ok in H as ([fin h1] & s1 & H1 & H). eapply IH; [exact H|].
  pose proof (run_step_inv _ _ _ _ _ _ H1) as (t & bn & c & c' & b & v & Hnext & Hres & Eb & _ & -> & _). rewrite Eb.
  assert (short_round b (if IsReturned c' then remaining else S remaining)) as [].
  { eapply resumed_short; [exact Hres|]. apply (next_short _ _ _ _ Hnext). by destruct (IsReturned c'). }
  by split.
Qed.

(** The tasks of a short round fit in the rows of its history. *)
Lemma short_rows_fit b h n : generating b h → short_round b n → rows_fit b h.
Proof.
  intros [_ Hrec] Hs. apply Forall_forall. intros e [i He]%list_elem_of_lookup. unfold row_fits, event_text.
  destruct e as [[r th]|[r v th]]; simpl.
  - destruct (proj1 (rec_invoked _ _ _ Hrec r)) as [c Hc]; [by exists i, (mk_Invoke r th)|].
    destruct (sr_tasks _ _ Hs _ _ Hc) as ((strs & Hstr & Hlen) & Hid & _).
    rewrite Hc. unfold call_text, GetStrArgs. cbn [or_fail mbind outcome_bind]. rewrite Hstr. cbn [mbind outcome_bind].
    eexists. split; [reflexivity|]. by apply Hlen.
  - destruct (proj1 (rec_result _ _ _ Hrec r v)) as (c & Hc & Hr & <-); [eauto|].
    destruct (sr_tasks _ _ Hs _ _ Hc) as (_ & _ & Hans). rewrite Hr in Hans. destruct Hans as (t & Ht & Hlen).
    rewrite Hc. cbn [or_fail mbind outcome_bind]. unfold coro_GetRetVal. rewrite Hr. cbn [mbind outcome_bind assert]. rewrite Ht. by eexists.
Qed.

(** A round that begins, of a target with short texts. *)
Record short_start (b : BaseStrategy) : Prop := {
  ss_obj : obj_ok (state (world b));
  ss_builders : ∀ bd, bd ∈ constructors b → bd ∈ l;
  ss_id : new_task_id b = 0%Z;
}.

Lemma short_start_round b n :
  short_start b → empty_round b → length (threads b) + n ≤ ids → short_round b n.
Proof.
  intros [Ho Hb Hid] He Hn. split; [done|done| |lia|].
  - intros r c Hc. by rewrite He in Hc.
  - assert (idle b ≤ length (threads b)); [|lia]. unfold idle. clear.
    induction (threads b) as [|thread ths IH]; simpl; [lia|]. unfold fmap in *.
    assert (idle_thread thread ≤ 1); [|lia]. unfold idle_thread. destruct (last thread) as [c|]; [destruct (IsReturned c)|]; lia.
Qed.

Lemma run_loop_rows_fit inner fuel n s h s' :
  run_loop inner fuel n ([], []) s = Ok (h, s') → empty_round (base s) → short_start (base s) →
  length (threads (base s)) + n ≤ ids → rows_fit (base s') h.2 ∧ ∀ bd, bd ∈ constructors (base s') → bd ∈ l.
Proof.
  intros H He Hs Hn. destruct (run_loop_Ok _ _ _ _ _ _ _ H) as [Hgen _]; [by apply generating_empty|].
  pose proof (run_loop_short _ _ _ _ _ _ _ H (short_start_round _ _ Hs He Hn)) as Hs'.
  split; [by eapply short_rows_fit|by destruct Hs'].
Qed.

(** The next round begins so, too. *)
Lemma StartNextRound_short inner s u s' :
  StartNextRound inner s = Ok (u, s') → (∀ bd, bd ∈ constructors (base s) → bd ∈ l) → short_start (base s').
Proof.
  intros (b & HTT & ->)%StartNextRound_contract Hb.
  apply TerminateTasks_evolves in HTT as (s1 & [_ Eid _ _ _ Ecs _] & ->). split; simpl in *.
  - apply (st_reset _ _ _ _ HST).
  - by rewrite Ecs.
  - done.
Qed.

(** And its table is printed. *)
Lemma print_log_fits {HPP : PrettyPrinter} inner fuel n s h s' :
  run_loop inner fuel n ([], []) s = Ok (h, s') → rows_fit (base s') h.2 →
  printer_threads = Z.of_nat (length (threads (base s))) → (printer_threads < 2 ^ 31)%Z →
  print_log h.2 s' = Ok (tt, s').
Proof.
  intros H Hfit Hpp Hlt. destruct (run_loop_columns _ _ _ _ _ _ _ H) as [Hlen Hcol]; [by constructor|].
  apply print_log_Ok; [done|by apply rows_fit_sensible|congruence|done|done].
Qed.
End rows.
