(* ===== verification/LinPoints.v ===== *)
(** * LinPoints: targets with linearization points

    A target is correct when each of its methods takes effect at one of its
    steps: there is a relation between its memory and a state of the sequential
    specification that every slice keeps, the specification stepping along
    exactly when a method takes effect ([LinPoints]).  For such a target every
    history a round generates is linearizable, so that no round is rejected,
    whatever the strategy does, and [StrategyScheduler::Run] finds nothing. *)

From stdpp Require Import base gmap strings option list.
From S2P Require Import Prelude ValueWrapper History Linearizability Coro Strategy PickStrategy PrettyPrint Scheduler.
From S2P Require Import Minimization Smart SmartCorrect SchedulerRun Liveness Rows.

Section contract.
Context `{HT : Target} `{HC : !Code} `{HV : StrategyVerifier} {SpecState : Type}.
Context (spec : gmap string (Method (State:=SpecState) (Args:=tuple))) (first_state : SpecState).

(** The specification takes the step [name(args)] and answers [v]. *)
Definition performs (name : string) (args : tuple) (s : SpecState) (v : ValueWrapper) (s' : SpecState) : Prop :=
  ∃ (m : Method (State:=SpecState) (Args:=tuple)) res,
    spec !! name = Some m ∧ m s args = Ok (res, s') ∧ vw_eq res v = Ok true.

(** A method of the specification that runs on the arguments. *)
Definition known (name : string) (args : tuple) : Prop :=
  ∃ m : Method (State:=SpecState) (Args:=tuple), spec !! name = Some m ∧ ∀ s, ∃ r, m s args = Ok r.

(** The tasks of a round, by their slots. *)
Definition Look : Type := TaskRef → option CoroBase.

Definition updated (look look' : Look) (r : TaskRef) (c : CoroBase) : Prop :=
  look' r = Some c ∧ ∀ u, u ≠ r → look' u = look u.

(** All the tasks of the thread have returned. *)
Definition thread_idle (look : Look) (th : nat) : Prop :=
  ∀ i c, look (th, i) = Some c → IsReturned c = true.

(** A task that may be resumed: the strategy has seen that it is neither
    parked nor blocked. *)
Definition runnable (c : CoroBase) (w : World) : Prop :=
  IsReturned c = false ∧ IsParked c w = false ∧ blocked_on (fstate c) w = false.

(** A method before its linearization point, and one that will answer [v]. *)
Definition phase : Type := option ValueWrapper.
Definition in_phase (task_in : Frame → string → tuple → phase → Prop) (c : CoroBase) (p : phase) : Prop :=
  if IsReturned c then p = Some (ret c)
  else ∃ f, ctx c = Some f ∧ task_in f (name c) (args c) p.

(** The contract: [lp_inv] relates the verifier, the memory and the tasks to the
    state of the specification, [lp_phase] says how far a suspended method has
    come. *)
Class LinPoints := {
  lp_inv : Verifier → World → Look → SpecState → Prop;
  lp_phase : Frame → string → tuple → phase → Prop;
  (** What a step may rely on; a strategy gives [runnable]. *)
  lp_runnable : CoroBase → World → Prop;
  lp_may_run c w : runnable c w → lp_runnable c w;
  (** And of what the verifier is told; a scheduler gives [told]. *)
  lp_told : CoroBase → nat → Verifier → Verifier → Prop;
  lp_may_tell c th v v' : told c th v v' → lp_told c th v v';
  (** How a task of the target may be made. *)
  lp_builder : TaskBuilder → Prop;
  (** The threads it can bear. *)
  lp_fits : nat → Prop;
  (** What a strategy must have asked the verifier when it starts a method. *)
  lp_asks : Verifier → nat → string → Verifier → Prop;
  lp_start : Look → Verifier → nat → string → Verifier → Prop;
  lp_may_start look v th n v' : thread_idle look th → lp_asks v th n v' → lp_start look v th n v';
  lp_new v v' bd id w c w' look look' r s :
    lp_builder bd → lp_fits r.1 → generated_token w = None → lp_inv v w look s → Build bd r.1 id w = Ok (c, w') →
    lp_start look v r.1 (name c) v' → look r = None → updated look look' r c →
    lp_inv v' w' look' s ∧ IsParked c w' = false ∧ known (name c) (args c) ∧
    in_phase lp_phase c None;
  lp_step v v' w look s r c c' w' look' p :
    lp_inv v w look s → look r = Some c → lp_runnable c w → in_phase lp_phase c p →
    Resume c w = Ok (c', w') → updated look look' r c' → lp_told c' r.1 v v' →
    (lp_inv v' w' look' s ∧ in_phase lp_phase c' p) ∨
    (p = None ∧ ∃ x s', performs (name c) (args c) s x s' ∧ lp_inv v' w' look' s' ∧ in_phase lp_phase c' (Some x));
  (** Asking whether a task is blocked may forget its futex. *)
  lp_look v w look look' s :
    lp_inv v w look s → (∀ u, option_Forall2 same_but_futex (look u) (look' u)) → lp_inv v w look' s;
  (** The results of a method can be compared with each other. *)
  lp_comparable name args s v s' (m : Method (State:=SpecState) (Args:=tuple)) s1 res s1' :
    performs name args s v s' → spec !! name = Some m → m s1 args = Ok (res, s1') → comparable res v;
  (** A round begins with a new object, or with one that was reset. *)
  lp_fresh v w look :
    v = Verifier_init ∨ (∃ v0, v = Verifier_Reset v0) →
    state w = target_init ∨ (∃ o, state w = target_Reset o) → (∀ r, look r = None) → lp_inv v w look first_state;
}.
End contract.
Arguments lp_inv {_ _ _ _ _ _ _} _ _ _ _.
Arguments lp_phase {_ _ _ _ _ _ _} _ _ _ _.
Arguments lp_builder {_ _ _ _ _ _ _} _.
Arguments lp_fits {_ _ _ _ _ _ _} _.
Arguments lp_runnable {_ _ _ _ _ _ _} _ _.
Arguments lp_asks {_ _ _ _ _ _ _} _ _ _ _.
Arguments lp_start {_ _ _ _ _ _ _} _ _ _ _ _.
Arguments lp_told {_ _ _ _ _ _ _} _ _ _ _.

(** A resume, by the slice it runs. *)
Lemma Resume_frame `{HT : Target} `{HC : !Code} c w c' w' :
  Resume c w = Ok (c', w') →
  ∃ f sl, ctx c = Some f ∧ run_slice f (state w) (tokens w) = Ok sl ∧ state w' = slice_obj sl ∧
    tokens w' = slice_tokens sl ∧ name c' = name c ∧ args c' = args c ∧ token c' = token c ∧
    match sl with
    | Yielded f' _ _ _ _ => IsReturned c' = false ∧ ctx c' = Some f'
    | Returned v _ _ => IsReturned c' = true ∧ ret c' = v
    end.
Proof.
  unfold Resume. intros H. apply bind_Ok in H as (u & _ & H).
  apply bind_Ok in H as (f & Hf%or_fail_Ok & H). apply bind_Ok in H as (sl & Hsl & H).
  exists f, sl. destruct sl as [f' o ts [[a v]|] st|v o ts]; simplify_eq/=; done.
Qed.

(** ** One task at a time

    A thread has one unfinished task at most; targets rely on it that are told
    apart by what a thread has done before. *)

Section one_running.
Context `{HT : Target} `{HC : !Code}.
Implicit Types (look : Look) (r : TaskRef) (c : CoroBase).

Definition one_running look : Prop :=
  ∀ th i j c d, look (th, i) = Some c → look (th, j) = Some d →
    IsReturned c = false → IsReturned d = false → i = j.

Lemma updated_other look look' r c th : updated look look' r c → th ≠ r.1 → ∀ i, look' (th, i) = look (th, i).
Proof. intros [_ Hold] Hn i. apply Hold. intros <-. by apply Hn. Qed.

Lemma one_running_updated look look' r c c' :
  one_running look → look r = Some c → IsReturned c = false → updated look look' r c' → one_running look'.
Proof.
  intros Hone Hc Hr [Hnew Hold] th i j x y Hx Hy Hrx Hry.
  assert (∀ k z, look' (th, k) = Some z → IsReturned z = false → ∃ z', look (th, k) = Some z' ∧ IsReturned z' = false) as Hz.
  { intros k z Hz Hrz. destruct (decide ((th, k) = r)) as [<-|Hn]; [by exists c|]. rewrite Hold in Hz by done. by exists z. }
  destruct (Hz _ _ Hx Hrx) as (x' & ? & ?), (Hz _ _ Hy Hry) as (y' & ? & ?). by eapply Hone.
Qed.

(** A thread starts a task when it has none that runs. *)
Lemma one_running_new look look' r c :
  one_running look → thread_idle look r.1 → updated look look' r c → one_running look'.
Proof.
  intros Hone Hidle [_ Hold].
  assert (∀ j x, look' (r.1, j) = Some x → IsReturned x = false → j = r.2) as Hj.
  { intros j x Hx Hrx. destruct (decide ((r.1, j) = r)) as [<-|Hne]; [done|]. rewrite Hold in Hx by done.
    by rewrite (Hidle _ _ Hx) in Hrx. }
  intros th i j x y Hx Hy Hrx Hry. destruct (decide (th = r.1)) as [->|Hne].
  - by rewrite (Hj _ _ Hx Hrx), (Hj _ _ Hy Hry).
  - rewrite Hold in Hx, Hy by (intros <-; by apply Hne). by eapply Hone.
Qed.

(** And is idle when the task has returned. *)
Lemma one_running_returned look look' r c c' :
  one_running look → look r = Some c → IsReturned c = false → updated look look' r c' → IsReturned c' = true →
  thread_idle look' r.1.
Proof.
  intros Hone Hc Hr [Hnew Hold] Hr' j x Hx. destruct r as [th i]. cbn [fst] in Hx.
  destruct (decide (j = i)) as [->|Hn]; [congruence|]. rewrite Hold in Hx by congruence.
  destruct (IsReturned x) eqn:E; [done|]. destruct Hn. exact (Hone th j i x c Hx Hc E Hr).
Qed.

(** Looks that differ in futexes show the same tasks. *)
Lemma look_back look look' u c' :
  (∀ u, option_Forall2 same_but_futex (look u) (look' u)) → look' u = Some c' →
  ∃ c, look u = Some c ∧ same_but_futex c c'.
Proof. intros Hl Hc'. specialize (Hl u). rewrite Hc' in Hl. inversion Hl as [c ? Hs E|]; subst. by exists c. Qed.

Lemma look_forth look look' u c :
  (∀ u, option_Forall2 same_but_futex (look u) (look' u)) → look u = Some c →
  ∃ c', look' u = Some c' ∧ same_but_futex c c'.
Proof. intros Hl Hc. specialize (Hl u). rewrite Hc in Hl. inversion Hl as [? c' Hs E E'|]; subst. by exists c'. Qed.

Lemma one_running_look look look' :
  (∀ u, option_Forall2 same_but_futex (look u) (look' u)) → one_running look → one_running look'.
Proof.
  intros Hl Hone th i j c d Hc Hd Hrc Hrd.
  destruct (look_back _ _ _ _ Hl Hc) as (c0 & Hc0 & E), (look_back _ _ _ _ Hl Hd) as (d0 & Hd0 & E').
  eapply Hone; [exact Hc0|exact Hd0|by rewrite E in Hrc|by rewrite E' in Hrd].
Qed.
End one_running.

(** ** The operations that have taken effect *)

Section lin_points.
Context `{HT : Target} `{HC : !Code} `{HV : StrategyVerifier} {SpecState : Type}.
Context (spec : gmap string (Method (State:=SpecState) (Args:=tuple))) (first_state : SpecState).
Context `{HLP : !LinPoints spec first_state}.

Record lin_op := mk_op { lo_task : TaskRef; lo_name : string; lo_args : tuple; lo_ret : ValueWrapper }.

Inductive runs_ops : SpecState → list lin_op → SpecState → Prop :=
| runs_nil s : runs_ops s [] s
| runs_cons s o s1 ops s' :
    performs spec (lo_name o) (lo_args o) s (lo_ret o) s1 → runs_ops s1 ops s' → runs_ops s (o :: ops) s'.

Lemma runs_ops_snoc s ops s1 o s' :
  runs_ops s ops s1 → performs spec (lo_name o) (lo_args o) s1 (lo_ret o) s' → runs_ops s (ops ++ [o]) s'.
Proof. induction 1 as [|s o1 s1 ops s2 H _ IH]; intros Ho; econstructor; eauto using runs_ops. Qed.

(** [a] answered before [b] was invoked. *)
Definition answered_before (h : SeqHistory) (a b : TaskRef) : Prop :=
  ∃ i j, response_at h i a ∧ invoke_at h j b ∧ i < j.

(** Each task that was created is before its linearization point or in the
    list, and the list respects the order of the history. *)
Record lin_inv (b : BaseStrategy) (h : SeqHistory) (ops : list lin_op) (s : SpecState) : Prop := {
  li_runs : runs_ops first_state ops s;
  li_inv : lp_inv (sched_checker b) (world b) (slot b) s;
  li_nodup : NoDup (lo_task <$> ops);
  li_known : ∀ r c, slot b r = Some c → known spec (name c) (args c);
  li_op : ∀ o, o ∈ ops → ∃ c, slot b (lo_task o) = Some c ∧ name c = lo_name o ∧ args c = lo_args o ∧
    in_phase lp_phase c (Some (lo_ret o));
  li_pending : ∀ r c, slot b r = Some c → r ∈ lo_task <$> ops ∨ in_phase lp_phase c None;
  li_order : ∀ p q o1 o2, ops !! p = Some o1 → ops !! q = Some o2 →
    answered_before h (lo_task o1) (lo_task o2) → p < q;
}.

Definition linearizing (b : BaseStrategy) (h : SeqHistory) : Prop := ∃ ops s, lin_inv b h ops s.

Lemma op_task (ops : list lin_op) o : o ∈ ops → lo_task o ∈ lo_task <$> ops.
Proof. intros H. apply list_elem_of_fmap. eauto. Qed.

Lemma answered_before_invoke h a b inv :
  answered_before (h ++ [EInvoke inv]) a b → b ≠ inv_task inv → answered_before h a b.
Proof.
  intros (i & j & [Hi|(_ & ? & ? & _)]%response_at_snoc & [Hj|(_ & ? & [= <-] & ?)]%invoke_at_snoc & Hlt) Hne;
    [|done..]. by exists i, j.
Qed.

Lemma answered_before_response h a b res :
  answered_before (h ++ [EResponse res]) a b → answered_before h a b.
Proof.
  intros (i & j & Hi & [Hj|(_ & ? & ? & _)]%invoke_at_snoc & Hlt); [|done].
  apply response_at_snoc in Hi as [Hi|[-> _]]; [by exists i, j|]. apply invoke_at_lt in Hj. lia.
Qed.

Lemma in_phase_look task_in c c' p :
  same_but_futex c c' → in_phase task_in c p → in_phase task_in c' p.
Proof. by intros ->. Qed.

Lemma looked_look b b' u : looked b b' → option_Forall2 same_but_futex (slot b u) (slot b' u).
Proof.
  intros Hl. destruct (slot b' u) as [c'|] eqn:E'.
  - destruct (looked_slot _ _ _ _ Hl E') as (c & -> & H). by constructor.
  - destruct (slot b u) as [c|] eqn:E; [|constructor].
    destruct (evolves_slot _ _ _ _ (looked_evolves _ _ Hl) E) as (c' & ? & _). congruence.
Qed.

(** Looking at the tasks changes nothing. *)
Lemma lin_looked b b' h ops s : looked b b' → lin_inv b h ops s → lin_inv b' h ops s.
Proof.
  intros Hl [Hr Hi Hn Hk Ho Hp Hord]. pose proof (looked_look b b') as Hlook.
  split; [done| |done| | | |done].
  - rewrite (lk_world _ _ Hl), (lk_checker _ _ Hl). eapply lp_look; [done|]. intros u. by apply Hlook.
  - intros r c' Hc'. destruct (looked_slot _ _ _ _ Hl Hc') as (c & Hc & ->). by apply (Hk r c).
  - intros o Hin. destruct (Ho o Hin) as (c & Hc & ? & ? & Hph).
    specialize (Hlook (lo_task o) Hl). rewrite Hc in Hlook. inversion Hlook as [? c' Hs E E'|]; subst.
    exists c'. split_and!; [done|by rewrite Hs|by rewrite Hs|]. by eapply in_phase_look.
  - intros r c' Hc'. destruct (looked_slot _ _ _ _ Hl Hc') as (c & Hc & Hs).
    destruct (Hp r c Hc); [by left|right]. by eapply in_phase_look.
Qed.

Lemma op_eq (ops : list lin_op) o o' : NoDup (lo_task <$> ops) → o ∈ ops → o' ∈ ops → lo_task o = lo_task o' → o = o'.
Proof.
  intros Hn [i Hi]%list_elem_of_lookup [j Hj]%list_elem_of_lookup He.
  assert (i = j) as <-; [|congruence].
  eapply (NoDup_lookup (lo_task <$> ops) i j (lo_task o)); [done|..]; rewrite list_lookup_fmap.
  - by rewrite Hi.
  - rewrite Hj. simpl. by rewrite He.
Qed.

(** A new task is before its linearization point. *)
Lemma lin_pushed b b' h ops s bd id c r ev :
  lin_inv b h ops s → lp_builder bd → lp_fits r.1 → generated_token (world b) = None → Build bd r.1 id (world b) = Ok (c, world b') →
  lp_start (slot b) (sched_checker b) r.1 (name c) (sched_checker b') → slot b r = None → slot b' r = Some c → (∀ u, u ≠ r → slot b' u = slot b u) →
  lin_inv b' (h ++ [EInvoke (mk_Invoke r ev)]) ops s ∧ runnable c (world b').
Proof.
  intros [Hr Hi Hn Hk Ho Hp Hord] Hbd Hfit Hgen Hb Hstart Hnone Hnew Hold.
  destruct (lp_new spec first_state (sched_checker b) (sched_checker b') bd id (world b) c (world b') (slot b) (slot b') r s)
    as (Hi' & Hpark & Hkn & Hph); [done..|].
  assert (∀ o, o ∈ ops → lo_task o ≠ r) as Hne by (intros o Hin <-; destruct (Ho o Hin) as (? & ? & _); congruence).
  assert (IsReturned c = false ∧ fstate c = no_futex) as [Hret Hfs].
  { unfold Build in Hb. apply bind_Ok in Hb as ([a w1] & _ & Hb). destruct (generated_token w1); by simplify_eq. }
  split; [|split_and!; [done..|by rewrite Hfs]]. split; [done..| | | |].
  - intros u x Hx. destruct (decide (u = r)) as [->|Hur]; [by assert (x = c) as -> by congruence|].
    rewrite Hold in Hx by done. by eapply Hk.
  - intros o Hin. rewrite Hold by auto. by apply Ho.
  - intros u x Hx. destruct (decide (u = r)) as [->|Hur]; [right; by assert (x = c) as -> by congruence|].
    rewrite Hold in Hx by done. by eapply Hp.
  - intros p q o1 o2 H1 H2 Hbef%answered_before_invoke; [by eapply Hord|].
    apply Hne. by eapply list_elem_of_lookup_2.
Qed.

Lemma done_idle b th thread :
  only_last_runs b → threads b !! th = Some thread → thread_done thread → thread_idle (slot b) th.
Proof.
  intros Hlast Hth Hdone i c (thread' & Ht & Hi)%slot_Some. assert (thread' = thread) as -> by congruence.
  destruct (decide (S i = length thread)) as [E|Hn]; [apply Hdone; by rewrite last_lookup, <-E|].
  apply (Hlast th thread i c Hth Hi). apply lookup_lt_Some in Hi. lia.
Qed.

Lemma lin_next b h t b' :
  next_ok b t b' → (∀ bd, bd ∈ constructors b → lp_builder bd) → (∀ th, th < length (threads b) → lp_fits th) →
  generated_token (world b) = None → only_last_runs b →
  (is_new t = true → ∀ c, slot b' (task t) = Some c →
     lp_asks (sched_checker b) (thread_id t) (name c) (sched_checker b')) →
  linearizing b h →
  linearizing b' (if is_new t then h ++ [invocation t] else h) ∧
  ∃ c, slot b' (task t) = Some c ∧ runnable c (world b').
Proof.
  intros Hnext Hbds Hfits Hgen Hlast Hasks (ops & s & HI).
  destruct Hnext as [n c thread Hlk -> Ht Hth Hn Hc Hr Hpark Hbl
    |s1 bd c thread Hlk Hn Ht Hth Hdone Hbd Hb Hths _ _ _ _].
  - split; [exists ops, s; by eapply lin_looked|]. exists c. split; [|done].
    rewrite Ht. apply slot_Some. exists thread. split; [done|]. by rewrite last_lookup, Hn in Hc.
  - pose proof (slot_push_eq _ _ _ _ _ Hth Hths) as Hnew. rewrite <-Ht in Hnew.
    pose proof (λ r, slot_push_ne _ _ _ _ _ Hth Hths r) as Hold. rewrite <-Ht in Hold.
    pose proof (slot_push_fresh _ _ _ Hth) as Hfresh. rewrite <-Ht in Hfresh.
    rewrite Hn. assert ((task t).1 = thread_id t) as E by (by rewrite Ht).
    assert (lp_fits (thread_id t)) as Hfit.
    { apply Hfits. rewrite <-(looked_threads_length _ _ Hlk). by eapply lookup_lt_Some. }
    destruct (lin_pushed s1 b' h ops s bd (new_task_id b) c (task t) (Z.of_nat (thread_id t))) as [HI' Hrun];
      rewrite ?E; [by eapply lin_looked|by apply Hbds|done|by rewrite (lk_world _ _ Hlk)|done| |done..|].
    + apply lp_may_start; [|rewrite (lk_checker _ _ Hlk); by apply Hasks].
      eapply done_idle; [|done|done]. eapply evolves_only_last; [by apply looked_evolves|done].
    + split; [by exists ops, s|by exists c].
Qed.

(** Resuming a task: it takes effect, or nothing happens to the specification. *)
Lemma lin_resumed b r c c' b' v h th :
  resumed b r c c' b' → lp_told c' r.1 (sched_checker b) v → lp_runnable c (world b) →
  (∀ i, ¬ response_at h i r) → linearizing b h →
  linearizing (with_checker v b') (if IsReturned c' then h ++ [EResponse (mk_Response r (ret c') th)] else h).
Proof.
  intros (Hc & _ & (_ & En & Ea & _) & w & HR & ->) Hfin Hrun Hno (ops & s & [Hr Hi Hn Hk Ho Hp Hord]).
  set (b' := with_checker v (with_world w (set_slot r c' b))).
  set (h' := if IsReturned c' then h ++ [EResponse (mk_Response r (ret c') th)] else h).
  assert (updated (slot b) (slot b') r c') as Hup.
  { split; [exact (slot_set_slot b r c' c Hc)|]. intros u Hu. exact (slot_set_slot_ne b r u c' (not_eq_sym Hu)). }
  pose proof Hup as [Hnew Hold].
  assert (∀ a a', answered_before h' a a' → answered_before h a a') as Hbef.
  { intros a a'. unfold h'. destruct (IsReturned c'); [apply answered_before_response|done]. }
  assert (∀ u x, slot b' u = Some x → known spec (name x) (args x)) as Hk'.
  { intros u x Hx. destruct (decide (u = r)) as [->|Hu]; [|rewrite Hold in Hx by done; by eapply Hk].
    assert (x = c') as -> by congruence. rewrite En, Ea. by eapply Hk. }
  destruct (decide (r ∈ lo_task <$> ops)) as [(o & -> & Hin)%list_elem_of_fmap|Hnin].
  - destruct (Ho o Hin) as (c0 & Hc0 & Hn0 & Ha0 & Hph). assert (c0 = c) as -> by congruence.
    destruct (lp_step spec first_state _ v (world b) (slot b) s (lo_task o) c c' w (slot b') _ Hi Hc Hrun Hph HR Hup Hfin)
      as [[Hi' Hph']|[? _]]; [|done].
    exists ops, s. split; [done..| | |].
    + intros o' Hin'. destruct (decide (lo_task o' = lo_task o)) as [E|Hne].
      * assert (o' = o) as -> by (by eapply op_eq). exists c'. split_and!; [done|congruence..|done].
      * rewrite Hold by done. by apply Ho.
    + intros u x Hx. destruct (decide (u = lo_task o)) as [->|Hu]; [left; by apply op_task|].
      rewrite Hold in Hx by done. by eapply Hp.
    + intros p q o1 o2 H1 H2 H. by eapply Hord; [..|apply Hbef].
  - destruct (Hp r c Hc) as [?|Hph]; [done|].
    assert (∀ o, o ∈ ops → lo_task o ≠ r) as Hne by (intros o Hin <-; by apply Hnin, op_task).
    destruct (lp_step spec first_state _ v (world b) (slot b) s r c c' w (slot b') None Hi Hc Hrun Hph HR Hup Hfin)
      as [[Hi' Hph']|(_ & x & s' & Hperf & Hi' & Hph')].
    + exists ops, s. split; [done..| | |].
      * intros o Hin. rewrite Hold by auto. by apply Ho.
      * intros u x Hx. destruct (decide (u = r)) as [->|Hu]; [right; by assert (x = c') as -> by congruence|].
        rewrite Hold in Hx by done. by eapply Hp.
      * intros p q o1 o2 H1 H2 H. by eapply Hord; [..|apply Hbef].
    + exists (ops ++ [mk_op r (name c) (args c) x]), s'.
      split; [by eapply runs_ops_snoc|done| |done| | |].
      * rewrite fmap_app. apply NoDup_app. split_and!; [done| |apply NoDup_singleton]. intros u Hu ->%list_elem_of_singleton. done.
      * intros o [Hin| ->%list_elem_of_singleton]%elem_of_app; [rewrite Hold by auto; by apply Ho|].
        exists c'. by split_and!.
      * intros u y Hx. rewrite fmap_app, elem_of_app. destruct (decide (u = r)) as [->|Hu]; [left; right; by left|].
        rewrite Hold in Hx by done. destruct (Hp u y Hx); [left; by left|by right].
      * intros p q o1 o2 H1 H2 H%Hbef. apply lookup_snoc_Some in H1 as [[_ H1]|[-> <-]].
        -- apply lookup_snoc_Some in H2 as [[_ H2]|[-> <-]]; [by eapply Hord|by eapply lookup_lt_Some].
        -- destruct H as (i & j & Hi1 & _). by apply Hno in Hi1.
Qed.

(** ** The end of a round *)

(** The results of the tasks can be compared with those of the specification. *)
Lemma lin_covered b h : linearizing b h → covered spec b.
Proof.
  intros (ops & s & [Hr _ _ Hk Ho Hp _]) r c Hc. destruct (Hk r c Hc) as (m & Hm & Htot).
  exists m. split_and!; [done|done|]. intros Hret s1 res s1' Hres.
  destruct (Hp r c Hc) as [(o & -> & Hin)%list_elem_of_fmap|Hph].
  2:{ unfold in_phase in Hph. by rewrite Hret in Hph. }
  destruct (Ho o Hin) as (c0 & Hc0 & Hn & Ha & Hph). assert (c0 = c) as -> by congruence.
  unfold in_phase in Hph. rewrite Hret in Hph. injection Hph as Hv. rewrite <-Hv.
  assert (∃ s2 s3, performs spec (lo_name o) (lo_args o) s2 (lo_ret o) s3) as (s2 & s3 & Hperf).
  { clear -Hr Hin. induction Hr as [|s o1 s1 ops s' Hperf _ IH]; [by apply elem_of_nil in Hin|].
    apply elem_of_cons in Hin as [->|Hin]; eauto. }
  eapply (lp_comparable spec first_state); [exact Hperf|by rewrite <-Hn|by rewrite <-Ha].
Qed.

(** The invocations of the operations of the list. *)
Lemma op_indices b h (ops : list lin_op) :
  records h (created b) (answered b) → (∀ o, o ∈ ops → ∃ c, slot b (lo_task o) = Some c) →
  ∃ idx, Forall2 (λ o i, invoke_at h i (lo_task o)) ops idx.
Proof.
  intros [_ HS _] Ho. induction ops as [|o ops IH]; [by exists []|].
  destruct IH as [idx His]; [intros o' Hin; apply Ho; by right|].
  destruct (proj2 (HS (lo_task o))) as [i Hi]; [destruct (Ho o) as [c Hc]; [by left|by exists c]|].
  exists (i :: idx). by constructor.
Qed.

Lemma ops_legal b h ops s s' idx :
  runs_ops s ops s' → Forall2 (λ o i, invoke_at h i (lo_task o)) ops idx →
  (∀ o, o ∈ ops → ∃ c, slot b (lo_task o) = Some c ∧ name c = lo_name o ∧ args c = lo_args o ∧
    ((∃ i, response_at h i (lo_task o)) → IsReturned c = true ∧ ret c = lo_ret o)) →
  legal spec (task_at b) h s idx.
Proof.
  intros Hr. revert idx. induction Hr as [s|s o s1 ops s' (m & res & Hm & Hres & Heq) _ IH]; intros idx Hf Ho;
    inversion Hf as [|? i ? idx' Hi Hf']; subst; econstructor; [|apply IH; [done|intros o' Hin; apply Ho; by right]].
  destruct (Ho o) as (c & Hc & Hn & Ha & Hret); [by left|]. destruct Hi as (inv & Hi & Et).
  assert (task_at b (inv_task inv) = Some (mk_TaskInfo (name c) (args c) (if IsReturned c then Some (ret c) else None)))
    as Htask by (unfold task_at; by rewrite Et, Hc).
  exists inv, res. unfold apply_method, result_matches, read_task, find_method. rewrite Htask.
  cbn [or_fail mbind outcome_bind task_name task_args]. rewrite Hn, Hm, Ha. split_and!; [done|done|].
  intros (r & t & Hi' & Hr'). assert (t = lo_task o) as ->.
  { eapply invoke_at_fun; [exact Hi'|]. by exists inv. }
  destruct Hret as [Hret Hv]; [by exists r|]. unfold GetRetVal. rewrite Hret. simpl. by rewrite Hv.
Qed.

(** The list is a linearization of the history. *)
Lemma lin_linearizable b h :
  records h (created b) (answered b) → linearizing b h → linearizable spec (task_at b) h first_state.
Proof.
  intros Hgen (ops & s & [Hr _ Hnd _ Ho Hp Hord]).
  assert (∀ t i, response_at h i t → ∃ c, slot b t = Some c ∧ IsReturned c = true) as Hans.
  { intros t i Hi. destruct Hgen as [_ _ HF].
    destruct (proj1 (response_at_result h t)) as (v & j & th & Hj); [by exists i|].
    destruct (proj1 (HF t v)) as (c & Hc & Hret & _); [eauto|]. eauto. }
  destruct (op_indices b h ops Hgen) as [idx Hf].
  { intros o Hin. destruct (Ho o Hin) as (c & Hc & _). eauto. }
  pose proof Hgen as [WF _ _].
  assert (∀ i, i ∈ idx → ∃ o, o ∈ ops ∧ invoke_at h i (lo_task o)) as His.
  { intros i [k Hk]%list_elem_of_lookup. destruct (Forall2_lookup_r _ _ _ _ _ Hf Hk) as (o & Hok & Hi).
    exists o. split; [by eapply list_elem_of_lookup_2|done]. }
  assert (∀ p i, idx !! p = Some i → ∃ o, ops !! p = Some o ∧ invoke_at h i (lo_task o)) as Hat
    by (intros p i Hi; exact (Forall2_lookup_r _ _ _ _ _ Hf Hi)).
  exists idx. split.
  - apply NoDup_alt. intros p q i Hpi Hqi. destruct (Hat p i Hpi) as (o1 & H1 & Hi1), (Hat q i Hqi) as (o2 & H2 & Hi2).
    eapply (NoDup_lookup (lo_task <$> ops) p q (lo_task o1)); [done|..]; rewrite list_lookup_fmap.
    + by rewrite H1.
    + rewrite H2. simpl. f_equal. by eapply invoke_at_fun.
  - intros i Hi. destruct (His i Hi) as (o & _ & Ho'). by exists (lo_task o).
  - intros i r (t & Hi & Hres). destruct (Hans t r Hres) as (c & Hc & Hret).
    destruct (Hp t c Hc) as [(o & -> & Hin)%list_elem_of_fmap|Hph].
    2:{ unfold in_phase in Hph. by rewrite Hret in Hph. }
    apply list_elem_of_lookup in Hin as [p Hpo]. destruct (Forall2_lookup_l _ _ _ _ _ Hf Hpo) as (i' & Hi' & Hinv).
    rewrite (wf_invoke_inj _ WF _ _ _ Hi Hinv). by eapply list_elem_of_lookup_2.
  - intros p q a c Ha Hc (r & (t & Hat' & Hr') & Hlt).
    destruct (Hat p a Ha) as (o1 & H1 & Hi1), (Hat q c Hc) as (o2 & H2 & Hi2).
    eapply Hord; [done..|]. exists r, c. split_and!; [|done|done].
    by rewrite (invoke_at_fun _ _ _ _ Hi1 Hat').
  - eapply ops_legal; [done|done|]. intros o Hin. destruct (Ho o Hin) as (c & Hc & Hn & Ha & Hph).
    exists c. split_and!; [done..|]. intros [i Hi]. destruct (Hans _ _ Hi) as (c' & Hc' & Hret).
    assert (c' = c) as -> by congruence. split; [done|]. unfold in_phase in Hph. rewrite Hret in Hph. by injection Hph.
Qed.
End lin_points.

(** ** Rounds are accepted *)

Section rounds.
Context `{HT : Target} `{HC : !Code} `{HV : StrategyVerifier} `{HS : !Strategy} `{HL : !StrategyLaws}.
Context `{HMC : ModelChecker} {HPP : PrettyPrinter} {SpecState : Type}.
Context (spec : gmap string (Method (State:=SpecState) (Args:=tuple))) (first_state : SpecState).
Context `{HCC : !CheckerCorrect spec first_state} `{HLP : !LinPoints spec first_state}.
Context `{HSA : !StrategyAsks lp_asks}.

(** Tasks can be built: the constructors are those of the target, it can bear
    the threads, and no generator has left a token behind. *)
Record builders_ok (b : BaseStrategy) : Prop := {
  bo_builder : ∀ bd, bd ∈ constructors b → lp_builder bd;
  bo_fits : ∀ th, th < length (threads b) → lp_fits th;
  bo_generated : generated_token (world b) = None;
}.

(** A round that begins, of a target in its first state. *)
Record fresh_round (b : BaseStrategy) : Prop := {
  fr_empty : empty_round b;
  fr_inv : lp_inv (sched_checker b) (world b) (slot b) first_state;
  fr_builders : builders_ok b;
}.

Lemma fresh_linearizing b : fresh_round b → linearizing spec first_state b [].
Proof.
  intros [He Hi _]. exists [], first_state. split; [constructor|done|constructor|..].
  - intros r c Hc. by rewrite He in Hc.
  - by intros o ?%elem_of_nil.
  - intros r c Hc. by rewrite He in Hc.
  - intros p q o1 o2 Hp. by rewrite lookup_nil in Hp.
Qed.

Lemma next_ok_constructors b t b' bd : next_ok b t b' → bd ∈ constructors b' ↔ bd ∈ constructors b.
Proof. destruct 1 as [n c thread Hlk|]; [by rewrite (lk_constructors _ _ Hlk)|done]. Qed.

Lemma next_ok_thread b t b' : next_ok b t b' → (task t).1 = thread_id t.
Proof. by destruct 1 as [n c thread _ _ -> _|s1 bd c thread _ _ -> _]. Qed.

Lemma next_ok_builders b t b' : next_ok b t b' → builders_ok b → builders_ok b'.
Proof.
  intros Hnext [Hbds Hfits Hgen].
  split; [intros bd; rewrite (next_ok_constructors _ _ _ _ Hnext); apply Hbds
    |intros th; rewrite (next_ok_threads_length _ _ _ Hnext); apply Hfits|].
  destruct Hnext as [n c thread Hlk|s1 bd c thread _ _ _ _ _ _ Hb]; [by rewrite (lk_world _ _ Hlk)|].
  by eapply Build_generated.
Qed.

Lemma lin_run_step inner h s fin h' s' :
  run_step inner h s = Ok ((fin, h'), s') → generating (base s) h.2 →
  builders_ok (base s) → linearizing spec first_state (base s) h.2 →
  builders_ok (base s') ∧ linearizing spec first_state (base s') h'.2.
Proof.
  intros H Hgen Hbds Hlin. destruct (run_step_parts _ _ _ _ _ _ H)
    as (t & sn & c & c' & b & v & HN & Hres & -> & Hfin & -> & ->). clear H. cbn [snd]. cbv zeta.
  pose proof (Next_contract _ _ _ _ HN) as Hnext. pose proof (Next_asks _ _ _ _ HN) as Hasks.
  set (bn := base sn) in *. pose proof (generating_next _ _ _ _ Hnext Hgen) as [_ Hrec].
  pose proof (next_ok_builders _ _ _ Hnext Hbds) as Hbds1. destruct Hbds as [Hbds Hfits Hgtok].
  destruct (lin_next spec first_state _ _ _ _ Hnext Hbds Hfits Hgtok (proj1 Hgen) Hasks Hlin) as (Hlin1 & c0 & Hc0 & Hrun).
  set (seq := if is_new t then h.2 ++ [invocation t] else h.2) in *.
  pose proof Hres as (Hc & Hr & _ & w & HR & Hb). assert (c0 = c) as -> by congruence.
  assert (∀ i, ¬ response_at seq i (task t)) as Hno.
  { intros i Hi. destruct (proj1 (response_at_result seq (task t))) as (u & j & th & Hj); [by exists i|].
    destruct (proj1 (rec_result _ _ _ Hrec (task t) u)) as (c2 & Hc2 & ? & _); [eauto|]. congruence. }
  assert (told c' (task t).1 (sched_checker bn) v) as Hfin'.
  { rewrite (next_ok_thread _ _ _ Hnext). by rewrite Hb in Hfin. }
  pose proof (lin_resumed spec first_state _ _ _ _ _ _ _ (Z.of_nat (thread_id t)) Hres (lp_may_tell _ _ _ _ _ _ Hfin') (lp_may_run _ _ _ _ Hrun) Hno Hlin1) as Hlin2.
  split.
  - destruct Hbds1 as [Hbds1 Hfits1 Hgtok1]. rewrite Hb. split; [done| |by rewrite <-Hgtok1; eapply Resume_generated].
    intros th. simpl. rewrite length_alter. apply Hfits1.
  - exact Hlin2.
Qed.

(** The states of a round: those that the iterations of [RunRound] lead to from
    a fresh one. *)
Inductive reached inner : BothHistories → St → Prop :=
| reached_start s : fresh_round (base s) → reached inner ([], []) s
| reached_step h s fin h' s' :
    reached inner h s → run_step inner h s = Ok ((fin, h'), s') → reached inner h' s'.

Lemma reached_linearizing inner h s :
  reached inner h s →
  generating (base s) h.2 ∧ builders_ok (base s) ∧ linearizing spec first_state (base s) h.2.
Proof.
  induction 1 as [s Hfr|h s fin h' s' _ (Hgen & Hbds & Hlin) Hstep].
  - pose proof (fresh_linearizing _ Hfr). destruct Hfr. auto using generating_empty.
  - split; [by eapply run_step_Ok|by eapply lin_run_step].
Qed.

Lemma run_loop_reached inner fuel remaining h s h' s' :
  reached inner h s → run_loop inner fuel remaining h s = Ok (h', s') → reached inner h' s'.
Proof.
  revert remaining h s. induction fuel as [|fuel IH]; intros [|remaining] h s Hre H;
    cbn [run_loop] in H; try done; try (by inv_st H).
  apply st_bind_Ok in H as ([fin h1] & s1 & H1 & H). eapply IH; [|exact H]. by econstructor.
Qed.

(** The round that was generated from a fresh one. *)
Lemma fresh_run inner fuel n s h s' :
  run_loop inner fuel n ([], []) s = Ok (h, s') → fresh_round (base s) →
  generating (base s') h.2 ∧ builders_ok (base s') ∧ covered spec (base s') ∧
  linearizable spec (task_at (base s')) h.2 first_state.
Proof.
  intros Hrun Hfr. destruct (reached_linearizing inner h s') as (Hgen & Hbds & Hlin).
  { eapply run_loop_reached; [by constructor|done]. }
  split_and!; [done|done|by eapply lin_covered|]. destruct Hgen. by eapply lin_linearizable.
Qed.

(** The checker accepts it. *)
Lemma RunRound_accepts inner fuel n s r s' :
  RunRound inner fuel n s = Ok (r, s') → fresh_round (base s) → r = None ∧ builders_ok (base s').
Proof.
  intros (h & Hrun & _ & H)%RunRound_parts Hfr.
  destruct (fresh_run _ _ _ _ _ _ Hrun Hfr) as ([_ Hrec] & Hbds & Hcov & Hlin).
  pose proof (records_checkable spec _ _ _ _ Hcov Hrec (λ _ H, H) (λ _ _ H, H)) as Hck.
  apply (check_histories_Ok spec first_state) in H as [_ [[-> _]|[_ Hn]]]; [done| |done]. by destruct Hn.
Qed.

Lemma StartNextRound_fresh inner s u s' :
  StartNextRound inner s = Ok (u, s') → builders_ok (base s) → fresh_round (base s').
Proof.
  intros (b & HTT & Eb)%StartNextRound_contract Hbds. rewrite Eb.
  pose proof (clear_threads_empty b) as He.
  apply TerminateTasks_evolves in HTT as (s1 & Hev & ->). split; [done| |].
  - apply lp_fresh; [right; by eexists|right; by eexists|done].
  - pose proof (evolves_threads_length _ _ Hev) as Elen.
    destruct Hev as [_ _ _ _ _ Ecs Egen], Hbds as [Hbds Hfits Hgen]. simpl in *.
    split; simpl; [by rewrite Ecs| |congruence]. intros th. rewrite length_fmap, Elen. apply Hfits.
Qed.

(** ** [StrategyScheduler::Run] *)

Context `{HR : Rng} `{HRR : !RealRng} `{HU : Unordered}.
Context (inner fuel : nat) (params : SchedulerParams) (seed : rng).

Lemma Run_finds_nothing s r s' :
  StrategyScheduler_Run inner fuel params seed s = Ok (r, s') → fresh_round (base s) → r = None.
Proof.
  unfold StrategyScheduler_Run. generalize (max_rounds params) as rounds. intros rounds. revert s.
  induction rounds as [|rounds IH]; intros s H Hfr; cbn [Run_rounds] in H; [by inv_st H|].
  apply st_bind_Ok in H as (r1 & s1 & H1 & H).
  destruct (RunRound_accepts _ _ _ _ _ _ H1 Hfr) as [-> Hbds].
  apply st_bind_Ok in H as (u & s2 & H2 & H). eapply IH; [exact H|by eapply StartNextRound_fresh].
Qed.

(** C7: The tool raises no false alarm.  When every method of the target takes
    effect at one of its steps, [Run] finds no history whatever the strategy
    does: every round it plays is linearizable, and nothing is minimized. *)
Theorem Run_no_false_alarm s r s' :
  StrategyScheduler_Run inner fuel params seed s = Ok (r, s') → fresh_round (base s) → r = None.
Proof. apply Run_finds_nothing. Qed.

Context (own : nat → St → Prop) `{HSL : !StrategyLive own} (budget : Frame → nat) (bound : nat).
Context (Hbounded : bounded_methods budget bound) (Hperm : permissive).
(** The texts of the target fit in the table, with ids below [ids]. *)
Context (frame_ok : Frame → Prop) (obj_ok : TargetObj → Prop) (ids : nat) (l : list TaskBuilder).
Context (HST : ShortTexts frame_ok obj_ok ids l) (Hids : (Z.of_nat ids < 2 ^ 31)%Z).

(** The fuel a round of [n] threads takes. *)
Definition round_fuel (n : nat) : nat := (n + max_tasks params) * S bound.

(** When the methods are wait-free too, all the rounds are played, printed and
    accepted. *)
Lemma Run_rounds_succeed rounds s :
  fresh_round (base s) → live_state own s → short_start obj_ok l (base s) →
  printer_threads = Z.of_nat (length (threads (base s))) → (printer_threads < 2 ^ 31)%Z →
  length (threads (base s)) + max_tasks params ≤ ids → round_fuel (length (threads (base s))) ≤ fuel →
  round_fuel (length (threads (base s))) < inner →
  ∃ s', Run_rounds inner fuel params seed rounds s = Ok (None, s') ∧ fresh_round (base s') ∧ live_state own s'.
Proof.
  revert s. induction rounds as [|rounds IH]; intros s Hfr Hlive Hshort Hpp Hlt Hn Hfuel Hinner; cbn [Run_rounds]; [by exists s|].
  pose proof (potential_empty budget bound _ (fr_empty _ Hfr)) as Hpot. unfold round_fuel in *.
  destruct (run_loop_total own budget bound Hbounded Hperm inner fuel (max_tasks params) ([], []) s Hlive)
    as (h & s1 & Hrun & Hlive1 & Hlen1 & Hpot1); [lia|].
  destruct (fresh_run _ _ _ _ _ _ Hrun Hfr) as ([Hlast Hrec] & Hbds & Hcov & Hlin).
  pose proof (records_checkable spec _ _ _ _ Hcov Hrec (λ _ H, H) (λ _ _ H, H)) as Hck.
  destruct (run_loop_rows_fit _ _ _ _ HST Hids _ _ _ _ _ _ Hrun (fr_empty _ Hfr) Hshort Hn) as [Hfits Hl1].
  assert (RunRound inner fuel (max_tasks params) s = Ok (None, s1)) as E.
  { unfold RunRound. st_step Hrun. st_step (print_log_fits _ _ _ _ _ _ Hrun Hfits Hpp Hlt).
    unfold check_histories. rewrite st_get_bind.
    destruct (check_decides spec first_state _ _ Hck) as (ok & Hok & Hiff). st_lift_step Hok. by rewrite (proj2 Hiff Hlin). }
  st_step E. destruct (StartNextRound_total own budget bound Hbounded inner s1 Hlive1 Hlast)
    as (s2 & HSN & Hlive2 & _ & Hlen2); [lia|].
  st_step HSN. apply IH; [by eapply StartNextRound_fresh|done|by eapply StartNextRound_short|..]; by rewrite ?Hlen2, ?Hlen1.
Qed.

End rounds.

(** ** Targets whose frames tell everything

    When the relation only looks at the object, and each slice can be judged by
    its frame alone, the contract comes down to one law about slices. *)

Section frames.
Context `{HT : Target} `{HC : !Code} `{HV : StrategyVerifier} {SpecState : Type}.
Context (spec : gmap string (Method (State:=SpecState) (Args:=tuple))) (first_state : SpecState).

Class FramePoints := {
  fp_abs : TargetObj → SpecState → Prop;
  fp_phase : Frame → string → tuple → phase → Prop;
  (** The calls the generators make. *)
  fp_call : string → tuple → Prop;
  fp_init : fp_abs target_init first_state;
  fp_reset o : fp_abs (target_Reset o) first_state;
  fp_start name args : fp_call name args → known spec name args ∧ fp_phase (start name args) name args None;
  fp_slice f name args p o s ts sl :
    fp_phase f name args p → fp_abs o s → run_slice f o ts = Ok sl →
    let in_slice p := match sl with Yielded f' _ _ _ _ => fp_phase f' name args p | Returned v _ _ => p = Some v end in
    (fp_abs (slice_obj sl) s ∧ in_slice p) ∨
    (p = None ∧ ∃ v s', performs spec name args s v s' ∧ fp_abs (slice_obj sl) s' ∧ in_slice (Some v));
  fp_comparable name args s v s' (m : Method (State:=SpecState) (Args:=tuple)) s1 res s1' :
    performs spec name args s v s' → spec !! name = Some m → m s1 args = Ok (res, s1') → comparable res v;
}.

(** A generator that makes such a call and does not act on the object; its
    token, if it makes one, is not parked. *)
Definition good_builder `{FramePoints} (bd : TaskBuilder) : Prop :=
  ∀ th w a w', tb_gen bd th w = Ok (a, w') → generated_token w = None →
    fp_call (tb_name bd) a ∧ state w' = state w ∧
    ∀ t, generated_token w' = Some t → tokens w' !! t = Some false.

Context `{HF : !FramePoints}.

Lemma Build_frame bd th id w c w' :
  good_builder bd → generated_token w = None → Build bd th id w = Ok (c, w') →
  fp_call (name c) (args c) ∧ state w' = state w ∧ IsParked c w' = false ∧
  IsReturned c = false ∧ ctx c = Some (start (name c) (args c)).
Proof.
  unfold Build. intros Hbd Hnone H. apply bind_Ok in H as ([a w1] & Hgen & H).
  destruct (Hbd _ _ _ _ Hgen Hnone) as (Hcall & Hst & Htok).
  destruct (generated_token w1) as [t|] eqn:E; simplify_eq/=; split_and!; try done.
  unfold IsParked. simpl. by rewrite Htok.
Qed.

#[global] Instance frame_points : LinPoints spec first_state.
Proof.
  refine {| lp_inv _ w _ s := fp_abs (state w) s; lp_asks _ _ _ _ := True; lp_start _ _ _ _ _ := True; lp_told _ _ _ _ := True; lp_phase := fp_phase; lp_builder := good_builder; lp_fits _ := True;
            lp_runnable c _ := IsReturned c = false |}.
  - by intros c w [? _].
  - done.
  - done.
  - intros v v' bd id w c w' look look' r s Hbd _ Hnone Hi Hb _ _ _.
    destruct (Build_frame _ _ _ _ _ _ Hbd Hnone Hb) as (Hcall & -> & Hpark & Hret & Hctx).
    destruct (fp_start _ _ Hcall) as [Hkn Hph]. split_and!; [done..|].
    unfold in_phase. rewrite Hret. eauto.
  - intros x x' w look s r c c' w' look' p Hi _ Hret Hph HR _ _.
    destruct (Resume_frame _ _ _ _ HR) as (f & sl & Hctx & Hsl & -> & _ & En & Ea & _ & Hc').
    unfold in_phase in Hph. rewrite Hret, Hctx in Hph. destruct Hph as (f0 & [= <-] & Hph).
    assert (∀ q, match sl with Yielded f' _ _ _ _ => fp_phase f' (name c) (args c) q | Returned v _ _ => q = Some v end →
      in_phase fp_phase c' q) as Hq.
    { intros q. unfold in_phase. rewrite En, Ea. destruct sl; destruct Hc' as [-> E]; rewrite E; eauto. }
    destruct (fp_slice _ _ _ _ _ _ _ _ Hph Hi Hsl) as [[? ?]|(-> & v & s' & ? & ? & ?)]; [left; auto|right].
    split; [done|]. eauto 10.
  - done.
  - apply fp_comparable.
  - intros v w look _ [->|[o ->]] _; [apply fp_init|apply fp_reset].
Defined.

(** Such a target does not rely on its verifier. *)
#[global] Instance frame_asks `{HS : !Strategy} : StrategyAsks (lp_asks (LinPoints:=frame_points)).
Proof. by intros fuel s t s'. Qed.
End frames.
Arguments fp_abs {_ _ _ _ _ _} _ _.
Arguments fp_phase {_ _ _ _ _ _} _ _ _ _.
Arguments fp_call {_ _ _ _ _ _} _ _.
