(* ===== verification/EndToEnd.v ===== *)
(** * EndToEnd: the tool on a correct target

    [ltest::Run], when it returns, exits with 0 on a target whose methods have
    linearization points ([FramePoints]), whichever scheduler and strategy its
    options ask for: the strategies by LinPoints.v, the exhaustive scheduler
    because each of the executions it enumerates carries its linearization along.
    With wait-free methods and short texts it does return. *)

From stdpp Require Import base gmap strings option list.
From S2P Require Import Prelude ValueWrapper Text Logger Options History Linearizability Coro Strategy PickStrategy Pct.
From S2P Require Import Scheduler TLA TLAExhaustive TLALinear Checkers Minimization Smart SmartCorrect SchedulerRun.
From S2P Require Import PrettyPrint Main Liveness Rows LinPoints.

(** ** The executions of the exhaustive scheduler *)

Section tla.
Context `{HT : Target} `{HC : !Code} `{HV : StrategyVerifier} `{HMC : ModelChecker} {HPP : PrettyPrinter} {SpecState : Type}.
Context (spec : gmap string (Method (State:=SpecState) (Args:=tuple))) (first_state : SpecState).
Context `{HCC : !CheckerCorrect spec first_state} `{HF : !FramePoints spec first_state}.
Context (cfg : TLA.Config) (Hbuilders : ∀ bd, bd ∈ TLA.constructors cfg → good_builder spec first_state bd).

(** An execution as a round that runs. *)
Definition conf_base (C : aconf) : BaseStrategy :=
  with_world (mk_World (c_obj C) ∅ None None) (as_base (c_threads C)).

Definition conf_linearizing (C : aconf) : Prop := linearizing spec first_state (conf_base C) (c_seq C).

(** Only the object and the tasks matter. *)
Lemma linearizing_ext b b' h :
  (∀ r, slot b' r = slot b r) → state (world b') = state (world b) →
  linearizing spec first_state b h → linearizing spec first_state b' h.
Proof.
  intros Hs Hw (ops & s & [Hr Hi Hn Hk Ho Hp Hord]). exists ops, s. split; [done| |done| | | |done].
  - simpl in *. by rewrite Hw.
  - intros r c. rewrite Hs. apply Hk.
  - intros o Hin. rewrite Hs. by apply Ho.
  - intros r c. rewrite Hs. apply Hp.
Qed.

Lemma recorded_unanswered C r c i :
  recorded C → TLA.task_in (c_threads C) r = Some c → IsReturned c = false → ¬ response_at (c_seq C) i r.
Proof.
  intros [Hrec _] Hc Hr Hi. destruct (proj1 (response_at_result (c_seq C) r)) as (v & j & th & Hj); [by exists i|].
  destruct (proj1 (rec_result _ _ _ Hrec r v)) as (c' & Hc' & Hr' & _); [eauto|].
  change (TLA.task_in (c_threads C) r = Some c') in Hc'. congruence.
Qed.

(** Running a task of an execution. *)
Lemma run_linearizing C i n c c' o' sw (is_new : bool) :
  (∀ j, ¬ response_at (c_seq C ++ (if is_new then [EInvoke (mk_Invoke (i, n) (Z.of_nat i))] else [])) j (i, n)) →
  linearizing spec first_state (conf_base C)
    (c_seq C ++ if is_new then [EInvoke (mk_Invoke (i, n) (Z.of_nat i))] else []) →
  TLA.task_in (c_threads C) (i, n) = Some c → IsReturned c = false → plain_step c (c_obj C) c' o' →
  conf_linearizing (run_conf is_new i n c' o' sw C).
Proof.
  intros Hno Hlin Hc Hr [st HR]. pose proof (Resume_Ok _ _ _ _ HR) as [_ Hsame].
  assert (resumed (conf_base C) (i, n) c c' (with_world (mk_World o' ∅ st None) (set_slot (i, n) c' (conf_base C)))) as Hres.
  { split_and!; [done|done|by apply Hsame..|]. by eexists. }
  pose proof (lin_resumed spec first_state (HLP:=frame_points spec first_state) _ _ _ _ _ (sched_checker (conf_base C)) _ (Z.of_nat i) Hres I Hr Hno Hlin) as Hlin'. clear Hlin; rename Hlin' into Hlin.
  eapply (linearizing_ext _ (conf_base (run_conf is_new i n c' o' sw C))) in Hlin; [|done|done].
  unfold conf_linearizing. simpl. rewrite app_assoc. destruct (IsReturned c'); by rewrite ?app_nil_r.
Qed.

Lemma astep_linearizing i C C1 : astep cfg i C C1 → recorded C → conf_linearizing C → conf_linearizing C1.
Proof.
  intros [thread n c c' o' Ht Hn Hc Hr _ Hp|thread b c w c' o' Ht _ _ _ Hb Hbuild Hp] Hrec Hlin.
  - assert (TLA.task_in (c_threads C) (i, n) = Some c) as Hin by (apply task_in_Some; eauto).
    apply (run_linearizing _ _ _ c); rewrite ?app_nil_r; [|done..].
    intros j. by eapply recorded_unanswered.
  - set (C' := add_task i c C) in *.
    assert (∀ r d, TLA.task_in (c_threads C') r = Some d ↔ (r = (i, length thread) ∧ d = c) ∨ TLA.task_in (c_threads C) r = Some d)
      as Hpush by (intros r d; unfold C'; simpl; rewrite (alter_as_insert _ _ _ _ Ht); by apply task_in_push).
    pose proof (task_in_fresh _ _ _ Ht) as Hfresh.
    assert (TLA.task_in (c_threads C') (i, length thread) = Some c) as Hin by (apply Hpush; by left).
    destruct Hlin as (ops & s & HI).
    destruct (Build_frame spec first_state b i (-1)%Z (mk_World (c_obj C) ∅ None None) c w (Hbuilders _ Hb) eq_refl Hbuild) as (_ & Hst & _).
    pose proof (lin_pushed spec first_state (HLP:=frame_points spec first_state) (conf_base C) (with_world w (conf_base C')) (c_seq C) ops s b (-1) c
      (i, length thread) (Z.of_nat i) HI (Hbuilders _ Hb) I eq_refl Hbuild I Hfresh Hin) as [HI' _].
    { intros u Hu. change (TLA.task_in (c_threads C') u = TLA.task_in (c_threads C) u).
      destruct (TLA.task_in (c_threads C) u) as [d|] eqn:E; [apply Hpush; by right|].
      destruct (TLA.task_in (c_threads C') u) as [d|] eqn:E'; [|done]. apply Hpush in E' as [[? _]|?]; congruence. }
    apply (run_linearizing C' _ _ c); [| |done| |done].
    + intros j [Hj|(_ & ? & ? & _)]%response_at_snoc; [|done].
      destruct Hrec as [Hrec _]. destruct (wf_response_after _ (rec_wf _ _ _ Hrec) _ _ Hj) as (k & _ & Hk).
      destruct (proj1 (rec_invoked _ _ _ Hrec (i, length thread))) as [d Hd]; [by exists k|].
      change (TLA.task_in (c_threads C) (i, length thread) = Some d) in Hd. congruence.
    + eapply linearizing_ext; [| |exists ops, s; exact HI']; [done|simpl; by rewrite Hst].
    + by apply plain_step_same in Hp as [_ ?].
Qed.

Lemma conf_init_linearizing n : conf_linearizing (conf_init n).
Proof.
  apply fresh_linearizing. split.
  - intros [th i]. unfold slot. simpl. destruct (replicate n [] !! th) eqn:E; [|done].
    by apply lookup_replicate in E as [-> _].
  - apply fp_init.
  - split; [intros bd Hbd; by apply elem_of_nil in Hbd|done..].
Qed.

Lemma finishes_linearizing C D : finishes cfg C D → recorded C → conf_linearizing C → conf_linearizing D.
Proof.
  induction 1 as [|i C C1 D _ Hs _ IH]; [done|]. intros HR HL.
  apply IH; [by eapply astep_recorded|by eapply astep_linearizing].
Qed.

Lemma TLA_no_false_alarm (Hsafe : replay_safe cfg) cancel inner fuel n r s' :
  TLA.Run cfg cancel inner fuel (TLA.init n) = Ok (r, s') → TLA.max_tasks cfg ≠ 0 → r = None.
Proof.
  intros H Hmax.
  assert (∀ D, finishes cfg (conf_init n) D → conf_linearizing D) as Hlin.
  { intros D HD. eapply finishes_linearizing; [exact HD|apply recorded_init|apply conf_init_linearizing]. }
  apply (Run_linearizable cfg spec first_state Hsafe) in H; [|done|].
  2:{ intros D HD. exact (lin_covered spec first_state (conf_base D) _ (Hlin D HD)). }
  destruct r as [h|]; [|done]. destruct H as (_ & ds1 & D & ds2 & E & _ & Hnot & _). destruct Hnot.
  assert (finishes cfg (conf_init n) D) as HD by (eapply (executions_finishes cfg Hsafe fuel); rewrite E; set_solver).
  destruct (finishes_recorded _ _ _ HD (recorded_init n)) as [Hrec _].
  exact (lin_linearizable spec first_state (conf_base D) _ Hrec (Hlin D HD)).
Qed.
End tla.

(** ** The program *)

Section main.
Context `{HT : Target} `{HC : !Code} `{HV : StrategyVerifier}.
Context `{HR : Rng} `{HRR : !RealRng} `{HRL : !RngLaws} `{HU : Unordered} {SpecState : Type}.
Context (spec : gmap string (Method (State:=SpecState) (Args:=tuple))) (first_state : SpecState).
Context `{HF : !FramePoints spec first_state}.
Context (cancel : TargetObj → TargetObj) (inner fuel : nat) (seed : rng) (logged : AnyScheduler → string).
Context (l : list TaskBuilder) (Hbuilders : ∀ bd, bd ∈ l → good_builder spec first_state bd).

#[local] Instance the_checker : ModelChecker := main_checker spec first_state.
#[local] Instance the_checker_correct : CheckerCorrect spec first_state := recursive_checker_correct spec first_state.

Local Abbreviation scheduler_Run := (Main.scheduler_Run spec first_state cancel inner fuel seed).
Local Abbreviation Run := (Main.Run spec first_state cancel inner fuel seed logged).

Lemma init_empty n : empty_round (base_init n l).
Proof.
  intros [th i]. unfold slot. simpl. destruct (replicate n [] !! th) eqn:E; [|done]. by apply lookup_replicate in E as [-> _].
Qed.

Lemma init_fresh n : fresh_round spec first_state (base_init n l).
Proof. split; [apply init_empty|apply fp_init|by split]. Qed.

Lemma pct_init_base n forbid g s : pct_init n l forbid g = Ok s → pct_base s = base_init n l.
Proof. unfold pct_init. destruct l; [done|]. by intros ->%PrepareForDepth_base. Qed.

(** A strategy of the target with its fields as the constructor leaves them. *)
Definition strategy_base (a : AnyStrategy) : BaseStrategy :=
  match a with ARoundRobin s => pick_base s | ARandom s => pick_base s | APct s => pct_base s end.

Lemma MakeStrategy_base opts p a p1 :
  MakeStrategy seed opts l p = Ok (a, p1) → ∃ n, strategy_base a = base_init n l.
Proof.
  unfold MakeStrategy. intros H. destruct (typ opts); [| |done|]; apply st_bind_Ok in H as (u1 & p3 & _ & H).
  - inv_st H. by eexists.
  - cbv zeta in H. destruct (negb _); inv_st H. by eexists.
  - apply st_bind_Ok in H as (s & p4 & [Hs ->]%st_lift_Ok & H). inv_st H. apply pct_init_base in Hs. by eexists.
Qed.

Lemma strategy_no_false_alarm threads_num params a r sch' n :
  scheduler_Run threads_num (StrategySchedulerWrapper params a) = Ok (r, sch') → strategy_base a = base_init n l → r = None.
Proof.
  intros H Hb. pose proof (init_fresh n) as Hfr. rewrite <-Hb in Hfr.
  destruct a as [s|s|s]; apply bind_Ok in H as ([r1 s'] & H & [= -> _]).
  - exact (Run_finds_nothing (HS:=PickStrategy (Sub:=RoundRobin.RoundRobinStrategy)) spec first_state _ _ _ _ _ _ _ H Hfr).
  - exact (Run_finds_nothing (HS:=PickStrategy (Sub:=Random.RandomStrategy)) spec first_state _ _ _ _ _ _ _ H Hfr).
  - exact (Run_finds_nothing (HS:=PctStrategy) spec first_state _ _ _ _ _ _ _ H Hfr).
Qed.

(** What the exhaustive scheduler needs. *)
Definition exhaustible (opts : Opts) : Prop := replay_safe (tla_config opts l) ∧ (0 < Options.tasks opts)%Z.

Lemma scheduler_no_false_alarm threads_num opts p sch p1 r sch' :
  MakeScheduler seed opts l p = Ok (sch, p1) → scheduler_Run threads_num sch = Ok (r, sch') →
  (typ opts = Options.TLA → exhaustible opts) → r = None.
Proof.
  intros Hmake Hrun Htla. unfold MakeScheduler in Hmake.
  apply st_bind_Ok in Hmake as (u & p2 & _ & Hmake).
  destruct (typ opts) eqn:Ht; apply st_bind_Ok in Hmake as (a & p3 & H & Hmake); inv_st Hmake.
  3:{ destruct (Htla eq_refl) as [Hsafe Htasks]. apply bind_Ok in Hrun as ([r1 s'] & Hrun & [= -> _]).
      eapply (TLA_no_false_alarm spec first_state (tla_config opts l)); [done|done|exact Hrun|simpl; lia]. }
  all: destruct (MakeStrategy_base _ _ _ _ H) as [n Hn]; by eapply strategy_no_false_alarm.
Qed.

(** C8: No false alarm, end to end.  On a target whose methods have
    linearization points and with generators that only make such calls, if
    [ltest::Run] returns, then it exits with 0 and no history is reported,
    whichever strategy the command line asks for; with [--strategy tla] under the
    further conditions that [tasks] is positive and the target can be replayed
    ([replay_safe]: [Reset] restores the initial object, there are no tokens,
    generators leave the object alone, the verifier refuses nothing).  A run that
    does not return is none of its business: one that is refused (weights that do
    not match the threads), that fails (PCT without tasks, texts too long for the
    table of a round) or that goes on. *)
Theorem Run_linearizable_target override ParseCommandLineFlags p code p' :
  Run override ParseCommandLineFlags l p = Ok (code, p') →
  (∀ opts, ParseOpts (ParseCommandLineFlags (run_flags override)) = Ok opts → typ opts = Options.TLA → exhaustible opts) →
  code = 0%Z ∧ ∃ before, cout p' = before +:+ "success!" +:+ newline.
Proof.
  intros H Htla. destruct (Run_exit spec first_state cancel inner fuel seed logged _ _ _ _ _ _ H)
    as (_ & opts & sch & result & sch' & header & Hopts & (p1 & p2 & Hmake) & Hrun & Hres).
  assert (result = None) as -> by (eapply scheduler_no_false_alarm; [exact Hmake|exact Hrun|by apply Htla]).
  destruct Hres as [-> Hp]. eauto.
Qed.

(** ** Wait-free targets *)

Section wait_free.
Context (budget : Frame → nat) (bound : nat) (Hbounded : bounded_methods budget bound) (Hperm : permissive).
Context (Hgenerators : ∀ bd, bd ∈ l → ∀ th w, generated_token w = None →
  ∃ a w', tb_gen bd th w = Ok (a, w') ∧ generated_token w' = None).
Context (Hl : l ≠ []).
(** The texts of the target fit in the table, with ids below [ids]. *)
Context (frame_ok : Frame → Prop) (obj_ok : TargetObj → Prop) (ids : nat).
Context (HST : ShortTexts frame_ok obj_ok ids l) (Hids : (Z.of_nat ids < 2 ^ 31)%Z).

Lemma init_quiet n : 0 < n → quiet (base_init n l).
Proof.
  intros Hn. split; simpl; try done; try by rewrite ?length_replicate.
  - intros r c Hc. by rewrite init_empty in Hc.
  - intros r c Hc. by rewrite init_empty in Hc.
Qed.

(** A round of the target that has begun can be terminated. *)
Lemma fresh_terminates b :
  fresh_round spec first_state b → quiet b → 0 < inner → ∃ b', TerminateTasks inner b = Ok (tt, b').
Proof.
  intros [He _ _] Hq Hi. destruct (TerminateTasks_wait_free budget (proj1 Hbounded) inner b) as (b' & H & _);
    [by destruct Hq|by destruct Hq| |by exists b'].
  eapply Nat.le_lt_trans; [|exact Hi]. apply Nat.le_0_r. unfold round_budget.
  assert (∀ th thread, threads b !! th = Some thread → thread_budget budget thread = 0) as H0.
  { intros th [|c thread] Ht; [done|]. exfalso.
    assert (slot b (th, 0) = Some c) as Hc by (apply slot_Some; eauto). by rewrite He in Hc. }
  rewrite (sum_list_fmap_ext _ (λ _, 0) _ H0). generalize (threads b) as ths. clear. by induction ths.
Qed.

(** The strategies that extend PickStrategy. *)
Lemma pick_returns {Sub} `{HP : !PickMethods Sub} `{HPL : !PickLaws Sub} own_sub `{HPV : !PickLive (Sub:=Sub) own_sub}
    params (s : PickState Sub) n :
  pick_base s = base_init n l → own_sub n (pick_sub s) →
  0 < n → n + max_tasks params ≤ ids → (Z.of_nat n < 2 ^ 31)%Z → round_fuel params bound n ≤ fuel → round_fuel params bound n < inner →
  ∃ s', StrategyScheduler_Run (HS:=PickStrategy (Sub:=Sub)) (HPP:=Z.of_nat n) inner fuel params seed s = Ok (None, s') ∧
    ∃ b, TerminateTasks inner (pick_base s') = Ok (tt, b).
Proof.
  intros Hb Hown Hn Hids' Hlt Hfuel Hinner.
  assert (length (threads (pick_base s)) = n) as Hlen by (by rewrite Hb; simpl; rewrite length_replicate).
  destruct (Run_rounds_succeed (HS:=PickStrategy (Sub:=Sub)) (HPP:=Z.of_nat n) spec first_state inner fuel params seed (pick_own own_sub)
    budget bound Hbounded Hperm _ _ _ _ HST Hids (max_rounds params) s) as (s' & H & Hfr & [Hq _]).
  - simpl. rewrite Hb. apply init_fresh.
  - split; simpl; [rewrite Hb; by apply init_quiet|by rewrite Hlen].
  - simpl. rewrite Hb. split; [by apply (st_init _ _ _ _ HST)|done|done].
  - simpl. by rewrite Hlen.
  - done.
  - simpl. by rewrite Hlen.
  - simpl. by rewrite Hlen.
  - simpl. by rewrite Hlen.
  - exists s'. split; [exact H|]. eapply fresh_terminates; [exact Hfr|exact Hq|lia].
Qed.

(** The weights of the random strategy that leave no thread out. *)
Definition fair_weights (opts : Opts) : Prop :=
  thread_weights opts = [] ∨
  (Z.of_nat (length (thread_weights opts)) = Options.threads opts ∧ Forall (λ w, 0 < w)%Z (thread_weights opts)).

Lemma pick_scheduler_returns opts :
  typ opts = RR ∨ (typ opts = RND ∧ fair_weights opts) → (0 < Options.threads opts)%Z →
  Z.to_nat (Options.threads opts) + Z.to_nat (Options.tasks opts) ≤ ids →
  round_fuel (scheduler_params opts) bound (Z.to_nat (Options.threads opts)) ≤ fuel →
  round_fuel (scheduler_params opts) bound (Z.to_nat (Options.threads opts)) < inner →
  ∃ sch sch', (∀ p, ∃ p1, MakeScheduler seed opts l p = Ok (sch, p1)) ∧ scheduler_Run (Options.threads opts) sch = Ok (None, sch') ∧
    destroy_scheduler cancel inner sch' = Ok tt.
Proof.
  intros Ht Hn Hids' Hfuel Hinner. unfold MakeScheduler, MakeStrategy.
  assert (Options.threads opts = Z.of_nat (Z.to_nat (Options.threads opts))) as En by lia.
  set (n := Z.to_nat (Options.threads opts)) in *.
  assert (Z.of_nat n < 2 ^ 31)%Z as Hlt by (change (2 ^ 31)%Z with 2147483648%Z in *; lia).
  destruct Ht as [->|[-> Hw]].
  - destruct (pick_returns (λ _ _, True) (scheduler_params opts) (RoundRobin.init n l seed) n)
      as (s' & H & b & Hb); [done|done|lia|done|done|done|done|]. rewrite <-En in H.
    eexists. eexists (StrategySchedulerWrapper (scheduler_params opts) (ARoundRobin s')).
    split; [by eexists|]. split; [apply bind_Ok; eexists; split; [exact H|done]|]. simpl. by rewrite Hb.
  - set (ws := match thread_weights opts with [] => replicate n 1%Z | ws => ws end).
    assert (length ws = n ∧ Forall (λ w, 0 < w)%Z ws) as [Hlen Hpos].
    { unfold ws. destruct Hw as [->|[Hlen Hpos]].
      - split; [apply length_replicate|]. apply Forall_forall. intros w Hw. apply elem_of_replicate in Hw. lia.
      - destruct (thread_weights opts); [simpl in Hlen; lia|]. split; [lia|done]. }
    destruct (pick_returns (λ n x, n ≤ length (Random.weights x) ∧ Forall (λ w, 0 < w)%Z (Random.weights x))
      (scheduler_params opts) (Random.init n l ws seed) n) as (s' & H & b & Hb); [done|simpl; split; [lia|done]|lia|done|done|done|done|].
    rewrite <-En in H.
    eexists. eexists (StrategySchedulerWrapper (scheduler_params opts) (ARandom s')).
    fold n. fold ws. rewrite Hlen. unfold n at 1. rewrite Z2Nat.id, Z.eqb_refl by lia.
    split; [by eexists|]. split; [apply bind_Ok; eexists; split; [exact H|done]|]. simpl. by rewrite Hb.
Qed.

(** C9: And the program returns 0, under round robin and the random strategy
    with positive weights.  What this takes: methods that have linearization
    points, are wait-free and make at most [bound] yields; generators that always
    give arguments and leave no token; a verifier that refuses nothing; and texts
    that fit in the table which is printed after each round ([ShortTexts]: each
    call with an id below [threads + tasks], and each answer).  Then every round
    ends within [(threads + tasks) * (bound + 1)] steps, is printed and accepted,
    no assertion fails, and the program reports success. *)
Theorem Run_returns_0 override ParseCommandLineFlags opts p :
  ParseOpts (ParseCommandLineFlags (run_flags override)) = Ok opts →
  typ opts = RR ∨ (typ opts = RND ∧ fair_weights opts) → (0 < Options.threads opts)%Z →
  Z.to_nat (Options.threads opts) + Z.to_nat (Options.tasks opts) ≤ ids →
  round_fuel (scheduler_params opts) bound (Z.to_nat (Options.threads opts)) ≤ fuel →
  round_fuel (scheduler_params opts) bound (Z.to_nat (Options.threads opts)) < inner →
  ∃ p' before, Run override ParseCommandLineFlags l p = Ok (0%Z, p') ∧ cout p' = before +:+ "success!" +:+ newline.
Proof.
  intros Hopts Ht Hn Hids' Hfuel Hinner.
  destruct (pick_scheduler_returns opts Ht Hn Hids' Hfuel Hinner) as (sch & sch' & Hmake & Hrun & Hdestroy).
  by eapply Run_succeeded.
Qed.
End wait_free.
End main.
