(* ===== verification/AtomicRegister.v ===== *)
(** * AtomicRegister: a target that is correct (verifying/targets/atomic_register.cpp)

    The register over [std::atomic<int>]: [add] is one [fetch_add] and [get] one
    [load].  A task may be switched away from after each of them (the
    yields at accesses to locals are invisible to other tasks), so that a method
    takes effect in its first slice and answers in its second one.  Every
    operation is its own linearization point: no scheduler finds anything
    ([frame_points] of LinPoints.v). *)

From stdpp Require Import base gmap strings option list.
From S2P Require Import Prelude ValueWrapper History Linearizability Specs Coro Strategy PrettyPrint Scheduler Liveness Rows LinPoints.

Module AtomicRegister.

(** The program points of the two methods. *)
Inductive frame :=
| FetchAdd               (* before [x.fetch_add(1)] *)
| AddReturn
| Load                   (* before [x.load()] *)
| GetReturn (x : Z).

(** [struct Register], the atomic [x]. *)
#[export] Instance target : Target := {|
  TargetObj := Z;
  Frame := frame;
  target_init := 0%Z;
  target_Reset _ := 0%Z;
  read_word _ _ := 0%Z;
  start name _ := if String.eqb name "add" then FetchAdd else Load;
|}.

#[export] Instance code : Code := λ f x ts,
  match f with
  | FetchAdd => Ok (Yielded AddReturn (wrap32 (x + 1)) ts None None)
  | AddReturn => Ok (Returned void_v x ts)
  | Load => Ok (Yielded (GetReturn x) x ts None None)
  | GetReturn v => Ok (Returned (ValueWrapper_of v) x ts)
  end.

(** [target_method(genEmpty, ...)], twice. *)
Definition task_builders : list TaskBuilder := [mk_TaskBuilder "add" genEmpty; mk_TaskBuilder "get" genEmpty].

(** [ltest::Spec]. *)
Definition spec : gmap string (SpecMethod Register.LinearRegister) := Register.GetMethods.

(** ** Linearization points *)

Definition phase_of (f : frame) (name : string) (args : tuple) (p : phase) : Prop :=
  match f with
  | FetchAdd => name = "add" ∧ p = None
  | AddReturn => p = Some void_v
  | Load => name = "get" ∧ p = None
  | GetReturn v => p = Some (ValueWrapper_of v)
  end.

Lemma performs_cases name args s v s' :
  performs spec name args s v s' →
  (name = "add" ∧ vw_eq void_v v = Ok true) ∨
  (name = "get" ∧ ∃ x : Z, vw_eq (ValueWrapper_of x) v = Ok true).
Proof.
  intros (m & res & Hm & Hres & Hv). unfold spec, Register.GetMethods in Hm.
  apply lookup_insert_Some in Hm as [[<- <-]|[_ Hm]]; [left; by injection Hres as <- _|].
  apply lookup_insert_Some in Hm as [[<- <-]|[_ Hm]]; [right; injection Hres as <- _; eauto|].
  by rewrite lookup_empty in Hm.
Qed.

(** The results of the register can be compared. *)
Lemma register_comparable name args s v s' (m : SpecMethod Register.LinearRegister) s1 res s1' :
  performs spec name args s v s' → spec !! name = Some m → m s1 args = Ok (res, s1') → comparable res v.
Proof.
  intros Hperf%performs_cases Hm Hres. destruct Hperf as [[-> Hv]|[-> (x & Hv)]].
  - injection Hm as <-. injection Hres as <- <-. apply comparable_void.
  - injection Hm as <-. injection Hres as <- <-. eapply comparable_default. by eexists.
Qed.

#[export] Instance points : FramePoints spec Register.init.
Proof.
  refine {|
    fp_abs := λ x s, x = Register.x s : Prop;
    fp_phase := phase_of;
    fp_call := λ name _, name = "add" ∨ name = "get";
  |}.
  - done.
  - done.
  - intros name args [-> | ->]; (split; [|done]).
    + exists Register.add_func. split; [done|]. by eexists.
    + exists Register.get_func. split; [done|]. by eexists.
  - intros f name args p o s ts sl Hph Habs Hsl. destruct f; injection Hsl as <-; simpl in *.
    + destruct Hph as [-> ->]. right. split; [done|]. exists void_v, (Register.add s). split_and!; [|by rewrite Habs|done].
      by exists Register.add_func, void_v.
    + left. by subst p.
    + destruct Hph as [-> ->]. right. split; [done|]. exists (ValueWrapper_of o), s. split_and!; [|done|done].
      exists Register.get_func, (ValueWrapper_of (Register.x s)). split_and!; [done|done|].
      rewrite Habs. apply vw_eq_of_refl.
    + left. by subst p.
  - apply register_comparable.
Defined.

(** Every method makes one yield. *)
Definition budget (f : frame) : nat := match f with FetchAdd | Load => 1 | _ => 0 end.

Lemma bounded : bounded_methods budget 1.
Proof.
  split; [intros [] o ts; simpl; auto|]. intros name args. simpl. destruct (String.eqb name "add"); simpl; lia.
Qed.

Lemma builders_good bd : bd ∈ task_builders → good_builder spec Register.init bd.
Proof.
  intros Hbd th w a w' Hgen Hnone. apply elem_of_cons in Hbd as [->|Hbd%list_elem_of_singleton]; [|subst bd];
    injection Hgen as <- <-; (split_and!; [simpl; auto|done|intros t; by rewrite Hnone]).
Qed.

(** The texts of the register are short: the counter is an [int], and there
    can be ten billion ids. *)
Definition frame_ok (f : frame) : Prop := match f with GetReturn v => in_int32 v | _ => True end.

Lemma short_texts ids : (Z.of_nat ids ≤ 10 ^ 10)%Z → ShortTexts frame_ok in_int32 ids task_builders.
Proof.
  intros Hids. split.
  - done.
  - done.
  - intros [] o ts sl Hf Ho H; injection H as <-; simpl in *;
      auto using short_void, short_int, wrap32_range.
  - intros bd th w a w' Hbd Hgen. apply elem_of_cons in Hbd as [->|Hbd%list_elem_of_singleton]; [|subst bd];
      injection Hgen as <- <-; (split_and!; [|done|done]); eapply (short_call_digits 9); try done; simpl; lia.
Qed.
End AtomicRegister.
