(* ===== verification/MutexQueue.v ===== *)
(** * MutexQueue: a queue behind a blocking lock (verifying/targets/mutex_queue.cpp)

    [Push] and [Pop] work on an array inside of a critical section of the token
    mutex (verifying/lib/mutex.h).  The yield pass puts a [CoroYield] after every
    access to a field, so that a critical section is many slices, in the middle
    of which the fields are inconsistent; [Lock] parks the task when it has to
    wait.  The queue is linearizable because the lock excludes: the frame of the
    one task inside tells how far the fields have got ([data_ok]). *)

From Stdlib Require Import ZArith Lia.
From stdpp Require Import base gmap strings option list.
From S2P Require Import Prelude ValueWrapper History Linearizability Specs Coro Strategy Scheduler Blocking LinPoints.

Module MutexQueue.

Definition N : nat := 100.

(** [struct Queue]. *)
Record Queue := mk_Queue {
  cnt : Z;
  mutex : TokenMutex.Waiters;
  tail : Z;
  head : Z;
  a : list Z;
}.

Definition init : Queue := mk_Queue 0 [] 0 0 (replicate N 0%Z).
Definition Reset (q : Queue) : Queue := mk_Queue 0 [] 0 0 (replicate N 0%Z).

Definition with_cnt (c : Z) (q : Queue) : Queue := mk_Queue c (mutex q) (tail q) (head q) (a q).
Definition with_mutex (m : TokenMutex.Waiters) (q : Queue) : Queue := mk_Queue (cnt q) m (tail q) (head q) (a q).
Definition with_tail (t : Z) (q : Queue) : Queue := mk_Queue (cnt q) (mutex q) t (head q) (a q).
Definition with_head (h : Z) (q : Queue) : Queue := mk_Queue (cnt q) (mutex q) (tail q) h (a q).
Definition with_a (l : list Z) (q : Queue) : Queue := mk_Queue (cnt q) (mutex q) (tail q) (head q) l.

(** [a[i]], undefined outside of the array. *)
Definition index (i : Z) : outcome nat :=
  if (0 <=? i)%Z && (i <? Z.of_nat N)%Z then Ok (Z.to_nat i) else Fail (Undefined "a[i]").

(** The program points, before the access they name.  What [Push] returns is
    [None], what [Pop] returns the element. *)
Inductive frame :=
| BadArgs
| PushLock (token : nat) (v : Z)
| PushLoadHead (v : Z)
| PushStoreHead (v h : Z)
| PushStoreA (v h : Z)
| PopLock (token : nat)
| PopLoadHead
| PopLoadTail (h : Z)
| PopCompare (h t : Z)
| PopStoreTail (t : Z)
| PopLoadA (t : Z)
| IncLoad (e : option Z)              (* ++cnt *)
| IncStore (e : option Z) (c : Z)
| AssertLoad (e : option Z)           (* assert(cnt == 1) *)
| AssertTest (e : option Z) (c : Z)   (* and the load of --cnt *)
| DecStore (e : option Z) (c : Z)
| UnlockReturn (e : option Z).

#[export] Instance target : Target := {|
  TargetObj := Queue;
  Frame := frame;
  target_init := init;
  target_Reset := Reset;
  read_word _ _ := 0%Z;
  start name args :=
    match args with
    | [any_token t; any_int v] => if String.eqb name "Push" then PushLock t v else BadArgs
    | [any_token t] => if String.eqb name "Pop" then PopLock t else BadArgs
    | _ => BadArgs
    end;
|}.

Definition answer (e : option Z) : ValueWrapper :=
  match e with None => void_v | Some e => ValueWrapper_of e end.

(** The access to a field, and the yield behind it. *)
Definition access (f : frame) (q : Queue) (ts : Tokens) : outcome slice := Ok (Yielded f q ts None None).

(** [mutex.Lock(token)] followed by the code up to the next yield: a task that
    has to wait yields inside of [Park]. *)
Definition lock (t : nat) (next : frame) (enter : Queue → Tokens → outcome slice) (q : Queue) (ts : Tokens)
  : outcome slice :=
  let '(m, ts, parks) := TokenMutex.Lock t (mutex q) ts in
  if (parks : bool) then access next (with_mutex m q) ts else enter (with_mutex m q) ts.

#[export] Instance code : Code := λ f q ts,
  match f with
  | BadArgs => Fail (Undefined "std::get")
  | PushLock t v => lock t (PushLoadHead v) (λ q ts, access (PushStoreHead v (head q)) q ts) q ts
  | PushLoadHead v => access (PushStoreHead v (head q)) q ts
  | PushStoreHead v h => access (PushStoreA v h) (with_head (wrap32 (h + 1)) q) ts
  | PushStoreA v h => i ← index h; access (IncLoad None) (with_a (<[i := v]> (a q)) q) ts
  | PopLock t => lock t PopLoadHead (λ q ts, access (PopLoadTail (head q)) q ts) q ts
  | PopLoadHead => access (PopLoadTail (head q)) q ts
  | PopLoadTail h => access (PopCompare h (tail q)) q ts
  | PopCompare h t =>
      if (0 <? wrap32 (h - t))%Z then access (PopStoreTail (tail q)) q ts else access (IncStore (Some 0%Z) (cnt q)) q ts
  | PopStoreTail t => access (PopLoadA t) (with_tail (wrap32 (t + 1)) q) ts
  | PopLoadA t =>
      i ← index t; e ← or_fail (Undefined "a[i]") (a q !! i);
      access (IncLoad (Some e)) q ts
  | IncLoad e => access (IncStore e (cnt q)) q ts
  | IncStore e c => access (AssertLoad e) (with_cnt (wrap32 (c + 1)) q) ts
  | AssertLoad e => access (AssertTest e (cnt q)) q ts
  | AssertTest e c => _ ← assert "cnt == 1" (c =? 1)%Z; access (DecStore e (cnt q)) q ts
  | DecStore e c => access (UnlockReturn e) (with_cnt (wrap32 (c - 1)) q) ts
  | UnlockReturn e =>
      '(m, ts) ← TokenMutex.Unlock (mutex q) ts;
      Ok (Returned (answer e) (with_mutex m q) ts)
  end.

(** [generateArgs]: a token, and [rand() % 10 + 1]. *)
Definition generateArgs (rand : nat → World → Z) (thread_num : nat) (w : World) : outcome (tuple * World) :=
  '(token, w) ← genToken thread_num w;
  Ok (token ++ makeSingleArg (any_int (Z.rem (rand thread_num w) 10 + 1)), w).

Definition task_builders (rand : nat → World → Z) : list TaskBuilder :=
  [mk_TaskBuilder "Push" (generateArgs rand); mk_TaskBuilder "Pop" genToken].

(** [ltest::Spec]: the argument of [Push] is the second component. *)
Definition spec : gmap string (SpecMethod Specs.Queue.Queue) := Specs.Queue.GetMethods 1.

(** ** The invariant *)

(** Where a task stands with the lock. *)
Inductive place := Outside (token : nat) | Waiting | Inside.
Definition place_of (f : frame) : place :=
  match f with
  | PushLock t _ | PopLock t => Outside t
  | PushLoadHead _ | PopLoadHead => Waiting
  | _ => Inside
  end.

(** The elements of the array from [t] up to [h]. *)
Record holds (arr : list Z) (t h : Z) (l : list Z) : Prop := {
  h_range : (0 ≤ t ≤ h)%Z ∧ (h ≤ Z.of_nat N)%Z;
  h_length : length arr = N;
  h_slice : l = take (Z.to_nat (h - t)) (drop (Z.to_nat t) arr);
}.

(** What a program point inside of the critical section knows. *)
Definition data_ok (f : frame) (q : Queue) (s : Specs.Queue.Queue) : Prop :=
  let stable := holds (a q) (tail q) (head q) (Specs.Queue.deq s) in
  match f with
  | PushStoreHead _ h => h = head q ∧ stable ∧ cnt q = 0%Z
  | PushStoreA _ h => head q = (h + 1)%Z ∧ holds (a q) (tail q) h (Specs.Queue.deq s) ∧ cnt q = 0%Z
  | PopLoadTail h => h = head q ∧ stable ∧ cnt q = 0%Z
  | PopCompare h t => h = head q ∧ t = tail q ∧ stable ∧ cnt q = 0%Z
  | PopStoreTail t => t = tail q ∧ (tail q < head q)%Z ∧ stable ∧ cnt q = 0%Z
  | PopLoadA t => tail q = (t + 1)%Z ∧ (t < head q)%Z ∧ holds (a q) t (head q) (Specs.Queue.deq s) ∧ cnt q = 0%Z
  | IncLoad _ | UnlockReturn _ => stable ∧ cnt q = 0%Z
  | IncStore _ c => c = 0%Z ∧ stable ∧ cnt q = 0%Z
  | AssertLoad _ => stable ∧ cnt q = 1%Z
  | AssertTest _ c | DecStore _ c => c = 1%Z ∧ stable ∧ cnt q = 1%Z
  | _ => False
  end.

Definition free_ok (q : Queue) (s : Specs.Queue.Queue) : Prop :=
  holds (a q) (tail q) (head q) (Specs.Queue.deq s) ∧ cnt q = 0%Z.

(** A task stands where the lock says. *)
Definition stands (c : CoroBase) (q : Queue) (ts : Tokens) : Prop :=
  ∃ t, token c = Some t ∧ is_Some (ts !! t) ∧
    if IsReturned c then t ∉ mutex q
    else ∃ f, ctx c = Some f ∧
      match place_of f with
      | Outside t' => t' = t ∧ (t ∉ mutex q) ∧ TokenMutex.parked ts t = false
      | Waiting => t ∈ mutex q
      | Inside => mutex q !! 0 = Some t
      end.

Definition inside (look : Look) (r : TaskRef) (f : frame) : Prop :=
  ∃ c, look r = Some c ∧ IsReturned c = false ∧ ctx c = Some f ∧ place_of f = Inside.

(** A token in the queue of the lock is that of a task. *)
Definition waits (look : Look) (t : nat) : Prop := ∃ r c, look r = Some c ∧ token c = Some t.

Record mq_inv (w : World) (look : Look) (s : Specs.Queue.Queue) : Prop := {
  mi_mutex : TokenMutex.inv (mutex (state w)) (tokens w);
  mi_waiters t : t ∈ mutex (state w) → waits look t;
  mi_stands r c : look r = Some c → stands c (state w) (tokens w);
  mi_distinct r1 r2 c1 c2 t :
    look r1 = Some c1 → look r2 = Some c2 → token c1 = Some t → token c2 = Some t → r1 = r2;
  mi_inside r f : inside look r f → data_ok f (state w) s;
  mi_free : (∀ r f, ¬ inside look r f) → free_ok (state w) s;
}.

Lemma waiter_token w look s t : mq_inv w look s → t ∈ mutex (state w) → is_Some (tokens w !! t).
Proof.
  intros HI (r & c & Hc & Ht)%(mi_waiters _ _ _ HI). destruct (mi_stands _ _ _ HI _ _ Hc) as (t' & Ht' & Hs & _).
  by assert (t' = t) as -> by congruence.
Qed.

Lemma waits_updated look look' r c c' t :
  look r = Some c → token c' = token c → updated look look' r c' → waits look t → waits look' t.
Proof.
  intros Hc Ht [Hnew Hold] (r2 & c2 & Hc2 & Ht2). destruct (decide (r2 = r)) as [->|Hn].
  - exists r, c'. split; [done|]. congruence.
  - exists r2, c2. by rewrite Hold.
Qed.

(** The task inside holds the lock, so there is one only. *)
Lemma inside_holder w look s r f :
  mq_inv w look s → inside look r f → ∃ c t, look r = Some c ∧ token c = Some t ∧ mutex (state w) !! 0 = Some t.
Proof.
  intros HI (c & Hc & Hr & Hf & Hp). destruct (mi_stands _ _ _ HI _ _ Hc) as (t & Ht & _ & Hs).
  rewrite Hr, Hf in Hs. destruct Hs as (f' & [= <-] & Hs). rewrite Hp in Hs. eauto.
Qed.

Lemma inside_unique w look s r1 r2 f1 f2 :
  mq_inv w look s → inside look r1 f1 → inside look r2 f2 → r1 = r2.
Proof.
  intros HI H1 H2. destruct (inside_holder _ _ _ _ _ HI H1) as (c1 & t1 & Hc1 & Ht1 & Hm1).
  destruct (inside_holder _ _ _ _ _ HI H2) as (c2 & t2 & Hc2 & Ht2 & Hm2).
  eapply mi_distinct; [done|exact Hc1|exact Hc2|exact Ht1|congruence].
Qed.

(** A task that holds the lock and is not inside leaves it free. *)
Lemma holder_free w look s r c t :
  mq_inv w look s → look r = Some c → token c = Some t →
  (mutex (state w) !! 0 = Some t ∨ mutex (state w) = []) → (∀ f, ¬ inside look r f) → free_ok (state w) s.
Proof.
  intros HI Hc Ht Hm Hno. apply (mi_free _ _ _ HI). intros r2 f2 H2.
  destruct (inside_holder _ _ _ _ _ HI H2) as (c2 & t2 & Hc2 & Ht2 & Hm2).
  destruct Hm as [Hm|Hm]; [|by rewrite Hm in Hm2].
  assert (r2 = r) as -> by (eapply mi_distinct; [done|exact Hc2|exact Hc|exact Ht2|congruence]). by eapply Hno.
Qed.

(** A resumed task keeps its token, so that the tasks stay apart. *)
Lemma distinct_updated (look look' : Look) r (c c' : CoroBase) :
  (∀ r1 r2 c1 c2 t, look r1 = Some c1 → look r2 = Some c2 → token c1 = Some t → token c2 = Some t → r1 = r2) →
  look r = Some c → token c' = token c → updated look look' r c' →
  ∀ r1 r2 c1 c2 t, look' r1 = Some c1 → look' r2 = Some c2 → token c1 = Some t → token c2 = Some t → r1 = r2.
Proof.
  intros Hd Hc Ht [Hnew Hold] r1 r2 c1 c2 t H1 H2 Ht1 Ht2.
  destruct (decide (r1 = r)) as [->|Hn1], (decide (r2 = r)) as [->|Hn2]; [done| | |].
  - rewrite Hold in H2 by done. assert (c1 = c') as -> by congruence. eapply Hd; [exact Hc|exact H2|by rewrite <-Ht|exact Ht2].
  - rewrite Hold in H1 by done. assert (c2 = c') as -> by congruence. eapply Hd; [exact H1|exact Hc|exact Ht1|by rewrite <-Ht].
  - rewrite Hold in H1, H2 by done. by eapply Hd.
Qed.

(** The state after the task [r], with its token [t], ran to [c'], which is
    inside; the lock is held by [t]. *)
Lemma step_inside w w' look look' s s' r c c' f' t :
  mq_inv w look s → look r = Some c → token c = Some t → token c' = Some t → updated look look' r c' →
  IsReturned c' = false → ctx c' = Some f' → place_of f' = Inside → data_ok f' (state w') s' →
  tokens w' = tokens w → mutex (state w') !! 0 = Some t → TokenMutex.inv (mutex (state w')) (tokens w) →
  (∀ u, u ≠ t → (u ∈ mutex (state w') ↔ u ∈ mutex (state w))) →
  (∀ r2 f2, inside look r2 f2 → r2 = r) →
  mq_inv w' look' s'.
Proof.
  intros HI Hc Ht Ht' Hup Hr' Hf' Hp' Hd Htok Hm Hmi Hw Honly. pose proof Hup as [Hnew Hold].
  assert (∀ r2 c2 t2, r2 ≠ r → look r2 = Some c2 → token c2 = Some t2 → t2 ≠ t) as Hne.
  { intros r2 c2 t2 Hr2 Hc2 Ht2 ->. apply Hr2. eapply mi_distinct; [exact HI|exact Hc2|exact Hc|done|done]. }
  destruct (mi_stands _ _ _ HI _ _ Hc) as (t0 & Ht0 & Hdom & _). assert (t0 = t) as -> by congruence.
  split; rewrite ?Htok; [done| | |eapply (distinct_updated look look' r c c'); [apply (mi_distinct _ _ _ HI)|exact Hc|congruence|done]| |].
  - intros u Hu. eapply (waits_updated look look' r c c'); [exact Hc|by rewrite Ht, Ht'|done|].
    destruct (decide (u = t)) as [->|Hut]; [by exists r, c|]. by apply (mi_waiters _ _ _ HI), Hw.
  - intros r2 c2 Hc2. destruct (decide (r2 = r)) as [->|Hr2].
    + assert (c2 = c') as -> by congruence. exists t. split_and!; [done|done|]. rewrite Hr'. exists f'. by rewrite Hp'.
    + rewrite Hold in Hc2 by done. destruct (mi_stands _ _ _ HI _ _ Hc2) as (t2 & Ht2 & Hd2 & Hs2).
      pose proof (Hne _ _ _ Hr2 Hc2 Ht2) as Hn2. exists t2. split_and!; [done|done|].
      destruct (IsReturned c2) eqn:Hret2; [by rewrite Hw|]. destruct Hs2 as (f2 & Hf2 & Hs2). exists f2. split; [done|].
      destruct (place_of f2) eqn:Hp2; rewrite ?Hw by done; [done|done|].
      exfalso. apply Hr2, (Honly r2 f2). by exists c2.
  - intros r2 f2 (c2 & Hc2 & Hr2 & Hf2 & Hp2). destruct (decide (r2 = r)) as [->|Hn]; [congruence|].
    rewrite Hold in Hc2 by done. destruct Hn. apply (Honly r2 f2). by exists c2.
  - intros Hno. destruct (Hno r f'). by exists c'.
Qed.

(** An access of the task inside. *)
Lemma step_access w w' look look' s s' r c c' f f' :
  mq_inv w look s → look r = Some c → IsReturned c = false → ctx c = Some f → place_of f = Inside →
  token c' = token c → updated look look' r c' → IsReturned c' = false → ctx c' = Some f' → place_of f' = Inside →
  mutex (state w') = mutex (state w) → tokens w' = tokens w → data_ok f' (state w') s' → mq_inv w' look' s'.
Proof.
  intros HI Hc Hr Hf Hp Htok Hup Hr' Hf' Hp' Hm Hts Hd.
  assert (inside look r f) as Hin by (by exists c).
  destruct (inside_holder _ _ _ _ _ HI Hin) as (c0 & t & Hc0 & Ht & Hhead). assert (c0 = c) as -> by congruence.
  eapply (step_inside w w' look look' s s' r c c' f' t); rewrite ?Hm; try done; [congruence|apply HI|].
  intros r2 f2 H2. by eapply inside_unique.
Qed.

(** A task that was waiting and is not parked any more goes in. *)
Lemma step_enter w w' look look' s s' r c c' f f' :
  mq_inv w look s → look r = Some c → IsReturned c = false → ctx c = Some f → place_of f = Waiting →
  IsParked c w = false → token c' = token c → updated look look' r c' → IsReturned c' = false → ctx c' = Some f' →
  place_of f' = Inside → mutex (state w') = mutex (state w) → tokens w' = tokens w →
  (free_ok (state w) s → data_ok f' (state w') s') → mq_inv w' look' s'.
Proof.
  intros HI Hc Hr Hf Hp Hpark Htok Hup Hr' Hf' Hp' Hm Hts Hd.
  destruct (mi_stands _ _ _ HI _ _ Hc) as (t & Ht & _ & Hs). rewrite Hr, Hf in Hs.
  destruct Hs as (f0 & [= <-] & Hs). rewrite Hp in Hs.
  assert (mutex (state w) !! 0 = Some t) as Hhead.
  { apply list_elem_of_lookup in Hs as [i Hi]. pose proof (proj2 (mi_mutex _ _ _ HI) i t Hi) as Hi0.
    unfold IsParked in Hpark. rewrite Ht in Hpark. unfold TokenMutex.parked in Hi0. rewrite Hpark in Hi0.
    symmetry in Hi0. apply bool_decide_eq_false in Hi0. by assert (i = 0) as -> by lia. }
  assert (∀ r2 f2, inside look r2 f2 → r2 = r) as Honly.
  { intros r2 f2 H2. destruct (inside_holder _ _ _ _ _ HI H2) as (c2 & t2 & Hc2 & Ht2 & Hm2).
    eapply mi_distinct; [exact HI|exact Hc2|exact Hc|exact Ht2|congruence]. }
  eapply (step_inside w w' look look' s s' r c c' f' t); rewrite ?Hm; try done; [congruence| |apply HI].
  apply Hd. eapply holder_free; [done..|by left|]. intros f2 (c2 & Hc2 & _ & Hf2 & Hp2). congruence.
Qed.

(** [Lock] on a free mutex. *)
Lemma step_lock w w' look look' s s' r c c' f f' t :
  mq_inv w look s → look r = Some c → IsReturned c = false → ctx c = Some f → place_of f = Outside t →
  token c' = token c → updated look look' r c' → IsReturned c' = false → ctx c' = Some f' →
  place_of f' = Inside → mutex (state w) = [] → mutex (state w') = [t] → tokens w' = tokens w →
  (free_ok (state w) s → data_ok f' (state w') s') → mq_inv w' look' s'.
Proof.
  intros HI Hc Hr Hf Hp Htok Hup Hr' Hf' Hp' Hm Hm' Hts Hd.
  destruct (mi_stands _ _ _ HI _ _ Hc) as (t0 & Ht & _ & Hs). rewrite Hr, Hf in Hs.
  destruct Hs as (f0 & [= <-] & Hs). rewrite Hp in Hs. destruct Hs as (<- & _ & Hpark).
  assert (∀ r2 f2, ¬ inside look r2 f2) as Hno.
  { intros r2 f2 H2. destruct (inside_holder _ _ _ _ _ HI H2) as (c2 & t2 & _ & _ & Hm2). by rewrite Hm in Hm2. }
  eapply (step_inside w w' look look' s s' r c c' f' t); rewrite ?Hm'; try done; [congruence| | | |].
  - apply Hd. by apply (mi_free _ _ _ HI).
  - split; [apply NoDup_singleton|]. intros [|i] u Hu; [injection Hu as <-; by rewrite Hpark|done].
  - intros u Hu. rewrite Hm, list_elem_of_singleton, elem_of_nil. done.
  - intros r2 f2 H2. by destruct (Hno r2 f2).
Qed.

(** [Lock] on a mutex that is taken: the task parks. *)
Lemma step_wait w w' look look' s r c c' f f' t :
  mq_inv w look s → look r = Some c → IsReturned c = false → ctx c = Some f → place_of f = Outside t →
  token c' = token c → updated look look' r c' → IsReturned c' = false → ctx c' = Some f' →
  place_of f' = Waiting → mutex (state w) ≠ [] →
  state w' = with_mutex (mutex (state w) ++ [t]) (state w) → tokens w' = Park t (tokens w) → mq_inv w' look' s.
Proof.
  intros HI Hc Hr Hf Hp Htok Hup Hr' Hf' Hp' Hm Hst Hts. pose proof Hup as [Hnew Hold].
  destruct (mi_stands _ _ _ HI _ _ Hc) as (t0 & Ht & Hdom & Hs). rewrite Hr, Hf in Hs.
  destruct Hs as (f0 & [= <-] & Hs). rewrite Hp in Hs. destruct Hs as (<- & Hnin & Hpark).
  assert (∀ r2 c2 t2, r2 ≠ r → look r2 = Some c2 → token c2 = Some t2 → t2 ≠ t) as Hne.
  { intros r2 c2 t2 Hr2 Hc2 Ht2 ->. apply Hr2. eapply mi_distinct; [exact HI|exact Hc2|exact Hc|done|done]. }
  assert (∀ r2 f2, inside look' r2 f2 ↔ inside look r2 f2) as Hin.
  { intros r2 f2. unfold inside. destruct (decide (r2 = r)) as [->|Hn]; [|by rewrite Hold].
    rewrite Hnew, Hc. split; intros (c2 & [= <-] & _ & Hf2 & Hp2); congruence. }
  split; rewrite ?Hts, ?Hst; cbn [mutex with_mutex].
  - apply (TokenMutex.Lock_inv t (mutex (state w)) (tokens w) _ _ true); [done|done|apply HI|].
    unfold TokenMutex.Lock. rewrite bool_decide_false; [done|]. rewrite length_app. simpl.
    destruct (mutex (state w)); simpl; [done|lia].
  - intros u Hu. eapply (waits_updated look look' r c c'); [exact Hc|done|done|].
    apply elem_of_app in Hu as [Hu|Hu%list_elem_of_singleton]; [by apply (mi_waiters _ _ _ HI)|subst u; by exists r, c].
  - intros r2 c2 Hc2. destruct (decide (r2 = r)) as [->|Hr2].
    + assert (c2 = c') as -> by congruence. exists t. split_and!; [congruence|unfold Park; rewrite lookup_insert_eq; by eexists|].
      rewrite Hr'. exists f'. rewrite Hp'. split; [done|]. cbn [mutex with_mutex]. apply elem_of_app. right. by left.
    + rewrite Hold in Hc2 by done. destruct (mi_stands _ _ _ HI _ _ Hc2) as (t2 & Ht2 & Hd2 & Hs2).
      pose proof (Hne _ _ _ Hr2 Hc2 Ht2) as Hn2. exists t2. cbn [mutex with_mutex].
      split_and!; [done|unfold Park; by rewrite lookup_insert_ne|].
      destruct (IsReturned c2); [set_solver|]. destruct Hs2 as (f2 & Hf2 & Hs2). exists f2. split; [done|].
      destruct (place_of f2); [|set_solver|by apply lookup_app_l_Some].
      destruct Hs2 as (-> & Hn & Hp2). split_and!; [done|set_solver|].
      unfold Park. by rewrite TokenMutex.parked_insert, decide_False.
  - eapply (distinct_updated look look' r c c'); [apply (mi_distinct _ _ _ HI)|exact Hc|congruence|done].
  - intros r2 f2 H2%Hin. exact (mi_inside _ _ _ HI _ _ H2).
  - intros Hno. apply (mi_free _ _ _ HI). intros r2 f2 H2%Hin. by eapply Hno.
Qed.

(** The task inside unlocks the mutex and returns. *)
Lemma step_unlock w w' look look' s r c c' f m ts :
  mq_inv w look s → look r = Some c → IsReturned c = false → ctx c = Some f → place_of f = Inside →
  token c' = token c → updated look look' r c' → IsReturned c' = true →
  TokenMutex.Unlock (mutex (state w)) (tokens w) = Ok (m, ts) →
  state w' = with_mutex m (state w) → tokens w' = ts → free_ok (state w) s → mq_inv w' look' s.
Proof.
  intros HI Hc Hr Hf Hp Htok Hup Hr' HU Hst Hts Hfree. pose proof Hup as [Hnew Hold].
  assert (inside look r f) as Hin by (by exists c).
  destruct (inside_holder _ _ _ _ _ HI Hin) as (c0 & t & Hc0 & Ht & Hhead). assert (c0 = c) as -> by congruence.
  pose proof HU as HU'. apply TokenMutex.Unlock_inv in HU as [[t0 Hm] Hinv]; [|apply HI].
  rewrite Hm in Hhead. injection Hhead as ->.
  assert (∀ u, is_Some (tokens w !! u) → is_Some (ts !! u)) as Hdom.
  { intros u. by apply (TokenMutex.Unlock_tokens _ _ _ _ u HU'). }
  assert (NoDup (t :: m)) as Hnd by (rewrite <-Hm; apply HI).
  assert (∀ r2 c2 t2, r2 ≠ r → look r2 = Some c2 → token c2 = Some t2 → t2 ≠ t) as Hne.
  { intros r2 c2 t2 Hr2 Hc2 Ht2 ->. apply Hr2. eapply mi_distinct; [exact HI|exact Hc2|exact Hc|done|done]. }
  split; rewrite ?Hts, ?Hst; cbn [mutex with_mutex].
  - done.
  - intros u Hu. eapply (waits_updated look look' r c c'); [exact Hc|done|done|]. apply (mi_waiters _ _ _ HI). rewrite Hm. by right.
  - intros r2 c2 Hc2. destruct (decide (r2 = r)) as [->|Hr2].
    + assert (c2 = c') as -> by congruence. exists t. split_and!; [congruence|eapply Hdom, waiter_token; [done|rewrite Hm; by left]|].
      rewrite Hr'. cbn [mutex with_mutex]. by apply NoDup_cons in Hnd as [? _].
    + rewrite Hold in Hc2 by done. destruct (mi_stands _ _ _ HI _ _ Hc2) as (t2 & Ht2 & Hd2 & Hs2).
      pose proof (Hne _ _ _ Hr2 Hc2 Ht2) as Hn2. exists t2. cbn [mutex with_mutex]. rewrite Hm in Hs2.
      split_and!; [done|by apply Hdom|].
      destruct (IsReturned c2) eqn:Hret2; [set_solver|]. destruct Hs2 as (f2 & Hf2 & Hs2). exists f2. split; [done|].
      destruct (place_of f2) eqn:Hp2; [|set_solver|].
      * destruct Hs2 as (-> & Hn & Hpark2). split_and!; [done|set_solver|].
        by apply (TokenMutex.Unlock_tokens _ _ _ _ t2 HU').
      * exfalso. apply Hr2. eapply inside_unique; [exact HI| |exact Hin]. exists c2. split_and!; done.
  - eapply (distinct_updated look look' r c c'); [apply (mi_distinct _ _ _ HI)|exact Hc|congruence|done].
  - intros r2 f2 (c2 & Hc2 & Hr2 & Hf2 & Hp2). destruct (decide (r2 = r)) as [->|Hn]; [congruence|].
    rewrite Hold in Hc2 by done. destruct Hn. eapply inside_unique; [exact HI| |exact Hin]. by exists c2.
  - intros _. exact Hfree.
Qed.

(** ** The array *)

Lemma index_Ok i k : index i = Ok k → (0 ≤ i < Z.of_nat N)%Z ∧ k = Z.to_nat i.
Proof.
  unfold index. destruct (Z.leb_spec 0 i), (Z.ltb_spec i (Z.of_nat N)); simpl; try done. by intros [= <-].
Qed.

Lemma holds_push arr t h l v :
  holds arr t h l → (h < Z.of_nat N)%Z → holds (<[Z.to_nat h := v]> arr) t (h + 1) (l ++ [v]).
Proof.
  intros [Hr Hlen ->] Hh. split; [lia|by rewrite length_insert|].
  replace (Z.to_nat (h + 1 - t)) with (S (Z.to_nat (h - t))) by lia.
  rewrite (take_S_r _ _ v).
  - f_equal. rewrite drop_insert_ge by lia. rewrite take_insert_ge by lia. done.
  - rewrite lookup_drop. replace (Z.to_nat t + Z.to_nat (h - t)) with (Z.to_nat h) by lia.
    rewrite list_lookup_insert_eq; [done|lia].
Qed.

Lemma holds_pop arr t h l :
  holds arr t h l → (t < h)%Z →
  ∃ e rest, arr !! Z.to_nat t = Some e ∧ l = e :: rest ∧ holds arr (t + 1) h rest.
Proof.
  intros [Hr Hlen ->] Ht. destruct (lookup_lt_is_Some_2 arr (Z.to_nat t)) as [e He]; [lia|].
  exists e. eexists. split; [done|]. rewrite (drop_S _ e) by done.
  replace (Z.to_nat (h - t)) with (S (Z.to_nat (h - (t + 1)))) by lia. split; [reflexivity|].
  split; [lia|done|]. by replace (S (Z.to_nat t)) with (Z.to_nat (t + 1)) by lia.
Qed.

Lemma holds_empty arr t h l : holds arr t h l → (h - t ≤ 0)%Z → l = [].
Proof. intros [Hr _ ->] Ht. by replace (Z.to_nat (h - t)) with 0 by lia. Qed.

Lemma holds_wrap arr t h l : holds arr t h l → wrap32 (h + 1) = (h + 1)%Z ∧ wrap32 (t + 1) = (t + 1)%Z.
Proof. intros [Hr _ _]. unfold N in Hr. split; apply wrap32_id; unfold in_int32; lia. Qed.

Lemma holds_diff arr t h l : holds arr t h l → wrap32 (h - t) = (h - t)%Z.
Proof. intros [Hr _ _]. unfold N in Hr. apply wrap32_id. unfold in_int32. lia. Qed.

(** ** Linearization points *)

Definition phase_of (f : frame) (name : string) (args : tuple) (p : phase) : Prop :=
  match f with
  | BadArgs => False
  | PushLock t v => name = "Push" ∧ args = [any_token t; any_int v] ∧ p = None
  | PushLoadHead v | PushStoreHead v _ | PushStoreA v _ =>
      name = "Push" ∧ (∃ t, args = [any_token t; any_int v]) ∧ p = None
  | PopLock _ | PopLoadHead | PopLoadTail _ | PopCompare _ _ | PopStoreTail _ | PopLoadA _ => name = "Pop" ∧ p = None
  | IncLoad e | IncStore e _ | AssertLoad e | AssertTest e _ | DecStore e _ | UnlockReturn e => p = Some (answer e)
  end.

Lemma performs_push t v s :
  performs spec "Push" [any_token t; any_int v] s void_v (Specs.Queue.Push v s).
Proof. by exists (Specs.Queue.push_func 1), void_v. Qed.

Lemma performs_pop args s :
  performs spec "Pop" args s (ValueWrapper_of (Specs.Queue.Pop s).1) (Specs.Queue.Pop s).2.
Proof.
  exists Specs.Queue.pop_func, (ValueWrapper_of (Specs.Queue.Pop s).1). split_and!; [done| |apply vw_eq_of_refl].
  unfold Specs.Queue.pop_func. by destruct (Specs.Queue.Pop s).
Qed.

(** What a step of a runnable task does. *)
Definition step_ok (w w' : World) (look' : Look) (s : Specs.Queue.Queue) (c c' : CoroBase) (p : phase) : Prop :=
  (mq_inv w' look' s ∧ in_phase phase_of c' p) ∨
  (p = None ∧ ∃ v s', performs spec (name c) (args c) s v s' ∧ mq_inv w' look' s' ∧ in_phase phase_of c' (Some v)).

(** [Lock], whether it is free or not. *)
Lemma lock_step w w' look look' s r c c' f t next go sl :
  mq_inv w look s → look r = Some c → IsReturned c = false → ctx c = Some f → place_of f = Outside t →
  token c' = token c → updated look look' r c' →
  place_of next = Waiting → (∀ q, place_of (go q) = Inside) → (∀ q, free_ok q s → data_ok (go q) q s) →
  lock t next (λ q ts, access (go q) q ts) (state w) (tokens w) = Ok sl →
  state w' = slice_obj sl → tokens w' = slice_tokens sl →
  match sl with
  | Yielded f' _ _ _ _ => IsReturned c' = false ∧ ctx c' = Some f'
  | Returned v _ _ => IsReturned c' = true ∧ ret c' = v
  end →
  mq_inv w' look' s ∧ IsReturned c' = false ∧ (ctx c' = Some next ∨ ∃ q, ctx c' = Some (go q)).
Proof.
  intros HI Hc Hr Hf Hp Htok Hup Hnext Hgo Hdata Hsl Hst Hts Hc'.
  unfold lock, TokenMutex.Lock, access in Hsl. cbv zeta in Hsl.
  case_bool_decide as Hlen; injection Hsl as <-; destruct Hc' as [Hr' Hf']; simpl in Hst, Hts;
    (split; [|split; [done|eauto]]).
  - assert (mutex (state w) = []) as Hm.
    { rewrite length_app in Hlen. simpl in Hlen. destruct (mutex (state w)); [done|simpl in Hlen; lia]. }
    eapply (step_lock w w' look look' s s r c c' f (go _) t); try eassumption; [by rewrite Hgo|by rewrite Hst, Hm|].
    intros Hfree. rewrite Hst. by apply Hdata.
  - eapply (step_wait w w' look look' s r c c' f next t); try eassumption.
    intros Hm. rewrite Hm in Hlen. done.
Qed.

(** The end of the case of an access: the task is inside before and after. *)
Ltac access_case Hst Hts :=
  eapply step_access; [eassumption|eassumption|eassumption|eassumption|reflexivity|eassumption|eassumption|eassumption
    |eassumption|reflexivity|by rewrite Hst|by rewrite Hts|].

Ltac enter_case Hst Hts :=
  eapply step_enter; [eassumption|eassumption|eassumption|eassumption|reflexivity|eassumption|eassumption|eassumption
    |eassumption|eassumption|reflexivity|by rewrite Hst|by rewrite Hts|].

(** And that of the phase of a task that goes on. *)
Ltac phase_case :=
  match goal with
  | Hr : IsReturned ?c = false, Hf : ctx ?c = Some _, En : name ?c = _, Ea : args ?c = _ |- in_phase phase_of ?c _ =>
      unfold in_phase; rewrite Hr, En, Ea; eexists; split; [exact Hf|simpl; eauto]
  end.

Lemma mq_step w look s r c c' w' look' p :
  mq_inv w look s → look r = Some c → IsReturned c = false ∧ IsParked c w = false → in_phase phase_of c p →
  Resume c w = Ok (c', w') → updated look look' r c' → step_ok w w' look' s c c' p.
Proof.
  intros HI Hc [Hret Hpark] Hph HR Hup.
  destruct (Resume_frame _ _ _ _ HR) as (f & sl & Hctx & Hsl & Hst & Hts & En & Ea & Htok & Hc').
  unfold in_phase in Hph. rewrite Hret, Hctx in Hph. destruct Hph as (f0 & [= <-] & Hph).
  assert (place_of f = Inside → data_ok f (state w) s) as Hdata.
  { intros Hp. apply (mi_inside _ _ _ HI r). by exists c. }
  destruct f as [|t0 v|v|v h|v h|t0| |h|h t0|t0|t0|o|o n|o|o n|o n|o]; unfold run_slice, code in Hsl; simpl in Hph; try (specialize (Hdata eq_refl); simpl in Hdata).
  - done.
  - destruct (lock_step w w' look look' s r c c' _ t0 (PushLoadHead v) (λ q, PushStoreHead v (head q)) sl HI Hc Hret Hctx)
      as (HI' & Hr' & Hf'); try done.
    left. split; [done|]. destruct Hph as (? & ? & ?). destruct Hf' as [Hf'|[q Hf']]; phase_case.
  - injection Hsl as <-. destruct Hc' as [Hr' Hf']. left. split; [|phase_case].
    enter_case Hst Hts. intros [? ?]. simpl in Hst. rewrite Hst. by split_and!.
  - injection Hsl as <-. destruct Hc' as [Hr' Hf']. left. split; [|phase_case].
    access_case Hst Hts. simpl in Hst. rewrite Hst. destruct Hdata as (-> & Hh & ?).
    simpl. rewrite (proj1 (holds_wrap _ _ _ _ Hh)). by split_and!.
  - apply bind_Ok in Hsl as (i & [Hi ->]%index_Ok & Hsl). injection Hsl as <-. destruct Hc' as [Hr' Hf'].
    destruct Hph as (Hn & (t & Ha) & ->). destruct Hdata as (Hh & Hq & ?). right. split; [done|].
    exists void_v, (Specs.Queue.Push v s). rewrite Hn, Ha. split_and!; [apply performs_push| |].
    + access_case Hst Hts. simpl in Hst. rewrite Hst. simpl. rewrite Hh. split; [|done]. apply holds_push; [done|lia].
    + unfold in_phase. rewrite Hr'. by eexists.
  - destruct (lock_step w w' look look' s r c c' _ t0 PopLoadHead (λ q, PopLoadTail (head q)) sl HI Hc Hret Hctx)
      as (HI' & Hr' & Hf'); try done.
    left. split; [done|]. destruct Hf' as [Hf'|[q Hf']]; phase_case.
  - injection Hsl as <-. destruct Hc' as [Hr' Hf']. left. split; [|phase_case].
    enter_case Hst Hts. intros [? ?]. simpl in Hst. rewrite Hst. by split_and!.
  - injection Hsl as <-. destruct Hc' as [Hr' Hf']. left. split; [|phase_case].
    access_case Hst Hts. simpl in Hst. rewrite Hst. destruct Hdata as (? & ? & ?). by split_and!.
  - destruct Hdata as (-> & -> & Hq & Hcnt). rewrite (holds_diff _ _ _ _ Hq) in Hsl.
    destruct (Z.ltb_spec 0 (head (state w) - tail (state w))) as [Hlt|Hle];
      injection Hsl as <-; destruct Hc' as [Hr' Hf'].
    + left. split; [|phase_case]. access_case Hst Hts. simpl in Hst. rewrite Hst. split_and!; [done|lia|done|done].
    + destruct Hph as [Hn ->]. right. split; [done|].
      assert (Specs.Queue.Pop s = (0%Z, s)) as Hpop by (unfold Specs.Queue.Pop; by rewrite (holds_empty _ _ _ _ Hq Hle)).
      pose proof (performs_pop (args c) s) as Hperf. rewrite Hpop in Hperf.
      exists (ValueWrapper_of 0%Z), s. rewrite Hn. split_and!; [done| |].
      * access_case Hst Hts. simpl in Hst. rewrite Hst. by split_and!.
      * unfold in_phase. rewrite Hr'. by eexists.
  - injection Hsl as <-. destruct Hc' as [Hr' Hf']. left. split; [|phase_case].
    access_case Hst Hts. simpl in Hst. rewrite Hst. destruct Hdata as (-> & ? & Hh & ?). simpl.
    rewrite (proj2 (holds_wrap _ _ _ _ Hh)). by split_and!.
  - apply bind_Ok in Hsl as (i & [Hi ->]%index_Ok & Hsl). apply bind_Ok in Hsl as (e & He%or_fail_Ok & Hsl).
    injection Hsl as <-. destruct Hc' as [Hr' Hf']. destruct Hph as [Hn ->]. right. split; [done|].
    destruct Hdata as (Ht & Hlt & Hq & ?). destruct (holds_pop _ _ _ _ Hq Hlt) as (e' & rest & He' & Hs & Hq').
    assert (e' = e) as -> by congruence.
    assert (Specs.Queue.Pop s = (e, Specs.Queue.mk_Queue rest)) as Hpop by (unfold Specs.Queue.Pop; by rewrite Hs).
    pose proof (performs_pop (args c) s) as Hperf. rewrite Hpop in Hperf.
    exists (ValueWrapper_of e), (Specs.Queue.mk_Queue rest). rewrite Hn. split_and!; [done| |].
    + access_case Hst Hts. simpl in Hst. rewrite Hst. simpl. by rewrite Ht.
    + unfold in_phase. rewrite Hr'. by eexists.
  - injection Hsl as <-. destruct Hc' as [Hr' Hf']. left. split; [|phase_case].
    access_case Hst Hts. simpl in Hst. rewrite Hst. destruct Hdata. by split_and!.
  - injection Hsl as <-. destruct Hc' as [Hr' Hf']. left. split; [|phase_case].
    access_case Hst Hts. simpl in Hst. rewrite Hst. destruct Hdata as (-> & ? & ?). by split_and!.
  - injection Hsl as <-. destruct Hc' as [Hr' Hf']. left. split; [|phase_case].
    access_case Hst Hts. simpl in Hst. rewrite Hst. destruct Hdata. by split_and!.
  - apply bind_Ok in Hsl as (u & _ & Hsl). injection Hsl as <-. destruct Hc' as [Hr' Hf']. left. split; [|phase_case].
    access_case Hst Hts. simpl in Hst. rewrite Hst. destruct Hdata as (-> & ? & ?). by split_and!.
  - injection Hsl as <-. destruct Hc' as [Hr' Hf']. left. split; [|phase_case].
    access_case Hst Hts. simpl in Hst. rewrite Hst. destruct Hdata as (-> & ? & ?). by split_and!.
  - apply bind_Ok in Hsl as ([m ts] & HU & Hsl). injection Hsl as <-. destruct Hc' as [Hr' Hv]. left. split.
    + eapply step_unlock; try eassumption; done.
    + unfold in_phase. by rewrite Hr', Hv, Hph.
Qed.

(** A new task has a token of its own, and stands in front of the lock. *)
Lemma Build_queue rand bd th id w c w' :
  bd ∈ task_builders rand → generated_token w = None → Build bd th id w = Ok (c, w') →
  ∃ t, tokens w !! t = None ∧ state w' = state w ∧ tokens w' = <[t := false]> (tokens w) ∧ token c = Some t ∧
    IsReturned c = false ∧
    ((∃ v, name c = "Push" ∧ args c = [any_token t; any_int v] ∧ ctx c = Some (PushLock t v)) ∨
     (name c = "Pop" ∧ args c = [any_token t] ∧ ctx c = Some (PopLock t))).
Proof.
  intros Hbd Hgen Hb. unfold Build in Hb. exists (fresh (dom (tokens w))).
  split; [apply not_elem_of_dom, is_fresh|].
  apply elem_of_cons in Hbd as [->|Hbd%list_elem_of_singleton]; [|subst bd];
    cbn [tb_gen tb_name] in Hb; unfold generateArgs, genToken in Hb; rewrite Hgen in Hb;
    injection Hb as <- <-; split_and!; try done; [left|right]; eauto.
Qed.

Lemma mq_new w look s bd th id c w' look' r rand :
  mq_inv w look s → bd ∈ task_builders rand → generated_token w = None → Build bd th id w = Ok (c, w') →
  look r = None → updated look look' r c → mq_inv w' look' s ∧ IsParked c w' = false.
Proof.
  intros HI Hbd Hgen Hb Hr [Hnew Hold].
  destruct (Build_queue _ _ _ _ _ _ _ Hbd Hgen Hb) as (t & Ht & Hst & Hts & Htok & Hret & Hk).
  assert (t ∉ mutex (state w)) as Hout by (intros Hin; destruct (waiter_token _ _ _ _ HI Hin); congruence).
  assert (∃ f, ctx c = Some f ∧ place_of f = Outside t) as (f & Hctx & Hplace).
  { destruct Hk as [(v & _ & _ & ->)|(_ & _ & ->)]; eauto. }
  assert (∀ r2 f2, inside look' r2 f2 ↔ inside look r2 f2) as Hin.
  { intros r2 f2. unfold inside. destruct (decide (r2 = r)) as [->|Hn]; [|by rewrite Hold].
    rewrite Hnew, Hr. split; intros (c2 & E & _ & Hf2 & Hp2); [injection E as <-; congruence|done]. }
  assert (∀ r2 c2, look r2 = Some c2 → token c2 ≠ Some t) as Hfresh.
  { intros r2 c2 Hc2 E. destruct (mi_stands _ _ _ HI _ _ Hc2) as (t2 & Ht2 & [? ?] & _). congruence. }
  split; [split; rewrite ?Hts, ?Hst|].
  - destruct (mi_mutex _ _ _ HI) as [Hnd Hp]. split; [done|]. intros i u Hi. rewrite TokenMutex.parked_insert.
    case_decide; [subst u; by apply list_elem_of_lookup_2 in Hi|by apply Hp].
  - intros u (r2 & c2 & Hc2 & Hu)%(mi_waiters _ _ _ HI). exists r2, c2. split; [|done]. rewrite Hold; congruence.
  - intros r2 c2 Hc2. destruct (decide (r2 = r)) as [->|Hr2].
    + assert (c2 = c) as -> by congruence. exists t. split_and!; [done|rewrite lookup_insert_eq; by eexists|].
      rewrite Hret. exists f. rewrite Hplace. split_and!; [done..|].
      rewrite TokenMutex.parked_insert. by rewrite decide_True.
    + rewrite Hold in Hc2 by done. destruct (mi_stands _ _ _ HI _ _ Hc2) as (t2 & Ht2 & Hd2 & Hs2).
      exists t2. split_and!; [done|apply lookup_insert_is_Some'; by right|].
      destruct (IsReturned c2); [done|]. destruct Hs2 as (f2 & Hf2 & Hs2). exists f2. split; [done|].
      destruct (place_of f2); [|done..]. destruct Hs2 as (-> & Hn & Hp2). split_and!; [done..|].
      rewrite TokenMutex.parked_insert. by case_decide.
  - intros r1 r2 c1 c2 u H1 H2 Hu1 Hu2.
    destruct (decide (r1 = r)) as [->|Hn1], (decide (r2 = r)) as [->|Hn2]; [done| | |].
    + rewrite Hold in H2 by done. destruct (Hfresh _ _ H2). congruence.
    + rewrite Hold in H1 by done. destruct (Hfresh _ _ H1). congruence.
    + rewrite Hold in H1, H2 by done. by eapply (mi_distinct _ _ _ HI).
  - intros r2 f2 H2%Hin. exact (mi_inside _ _ _ HI _ _ H2).
  - intros Hno. apply (mi_free _ _ _ HI). intros r2 f2 H2%Hin. by eapply Hno.
  - unfold IsParked. rewrite Htok, Hts. by rewrite lookup_insert_eq.
Qed.

(** Looking at the tasks changes nothing the invariant speaks of. *)
Lemma mq_look w look look' s :
  mq_inv w look s → (∀ u, option_Forall2 same_but_futex (look u) (look' u)) → mq_inv w look' s.
Proof.
  intros HI Hl.
  assert (∀ u c', look' u = Some c' → ∃ c, look u = Some c ∧ c' = set_fstate c (fstate c')) as Hto.
  { intros u c' Hc'. specialize (Hl u). rewrite Hc' in Hl. inversion Hl as [c ? Hs E|]; subst. eauto. }
  assert (∀ u c, look u = Some c → ∃ c', look' u = Some c' ∧ c' = set_fstate c (fstate c')) as Hfrom.
  { intros u c Hc. specialize (Hl u). rewrite Hc in Hl. inversion Hl as [? c' Hs E E'|]; subst. eauto. }
  assert (∀ r f, inside look' r f ↔ inside look r f) as Hin.
  { intros r f. split; intros (c & Hc & ? & ? & ?).
    - destruct (Hto _ _ Hc) as (c0 & Hc0 & E). exists c0. rewrite E in *. by split_and!.
    - destruct (Hfrom _ _ Hc) as (c' & Hc' & E). exists c'. rewrite E. by rewrite E in Hc'. }
  destruct HI as [? Hw Hst Hd Hi Hf]. split; [done| | | | |].
  - intros t (r & c & Hc & Ht)%Hw. destruct (Hfrom _ _ Hc) as (c' & Hc' & E). exists r, c'. by rewrite E in Hc' |- *.
  - intros r c' Hc'. destruct (Hto _ _ Hc') as (c & Hc & E). rewrite E. exact (Hst _ _ Hc).
  - intros r1 r2 c1 c2 t H1 H2 Ht1 Ht2. destruct (Hto _ _ H1) as (d1 & Hd1 & E1), (Hto _ _ H2) as (d2 & Hd2 & E2).
    rewrite E1 in Ht1. rewrite E2 in Ht2. by eapply Hd.
  - intros r f H%Hin. by eapply Hi.
  - intros Hno. apply Hf. intros r f H%Hin. by eapply Hno.
Qed.

Lemma mq_fresh w look :
  state w = init ∨ (∃ q, state w = Reset q) → (∀ r, look r = None) → mq_inv w look Specs.Queue.init.
Proof.
  intros Hw Hlook. assert (state w = init) as E by (destruct Hw as [?|[q ?]]; done). clear Hw.
  split; rewrite ?E; simpl.
  - split; [constructor|]. intros i t Hi. by rewrite lookup_nil in Hi.
  - by intros t ?%elem_of_nil.
  - intros r c Hc. by rewrite Hlook in Hc.
  - intros r1 r2 c1 c2 t H1. by rewrite Hlook in H1.
  - intros r f (c & Hc & _). by rewrite Hlook in Hc.
  - intros _. split; [|done]. by split.
Qed.

Lemma performs_comparable name args s v s' m s1 res s1' :
  performs spec name args s v s' → spec !! name = Some m → m s1 args = Ok (res, s1') → comparable res v.
Proof.
  intros (m0 & res0 & Hm0 & Hres0 & Hv) Hm Hres. pose proof (eq_trans (eq_sym Hm0) Hm) as [= ->].
  unfold spec, Specs.Queue.GetMethods in Hm. apply lookup_insert_Some in Hm as [[<- <-]|[_ Hm]].
  - unfold Specs.Queue.push_func in Hres. apply bind_Ok in Hres as (x & _ & [= <- <-]). apply comparable_void.
  - apply lookup_insert_Some in Hm as [[<- <-]|[_ Hm]]; [|by rewrite lookup_empty in Hm].
    unfold Specs.Queue.pop_func in Hres, Hres0.
    destruct (Specs.Queue.Pop s), (Specs.Queue.Pop s1). injection Hres as <- _. injection Hres0 as <- _.
    eapply comparable_default. by eexists.
Qed.

#[export] Instance points `{HV : StrategyVerifier} : LinPoints spec Specs.Queue.init.
Proof.
  refine {| lp_inv _ := mq_inv; lp_phase := phase_of; lp_asks _ _ _ _ := True; lp_start _ _ _ _ _ := True; lp_told _ _ _ _ := True;
            lp_runnable c w := IsReturned c = false ∧ IsParked c w = false;
            lp_builder bd := ∃ rand, bd ∈ task_builders rand; lp_fits _ := True |}.
  - by intros c w (? & ? & _).
  - done.
  - done.
  - intros v v' bd id w c w' look look' r s [rand Hbd] _ Hgen HI Hb _ Hr Hup.
    destruct (mq_new _ _ _ _ _ _ _ _ _ _ _ HI Hbd Hgen Hb Hr Hup) as [HI' Hpark]. split; [done|]. split; [done|].
    destruct (Build_queue _ _ _ _ _ _ _ Hbd Hgen Hb) as (t & _ & _ & _ & _ & Hret & Hk).
    unfold in_phase. rewrite Hret. destruct Hk as [(x & -> & -> & ->)|(-> & -> & ->)].
    + split; [exists (Specs.Queue.push_func 1); split; [done|]; intros q; by eexists|]. by eexists.
    + split; [exists Specs.Queue.pop_func; split; [done|]; intros q; unfold Specs.Queue.pop_func;
        destruct (Specs.Queue.Pop q); by eexists|]. by eexists.
  - intros v v' w look s r c c' w' look' p HI Hc Hrun Hph HR Hup _. by eapply mq_step.
  - intros v. apply mq_look.
  - apply performs_comparable.
  - intros v w look _. apply mq_fresh.
Defined.

(** The queue does not rely on a verifier. *)
#[export] Instance queue_asks `{HV : StrategyVerifier} `{HS : !Strategy} : StrategyAsks (lp_asks (LinPoints:=points)).
Proof. by intros fuel s t s'. Qed.

(** ** The critical section *)

(** [cnt == 1] holds where it is asserted, the lock is held where it is
    unlocked, and the array is read where it was written: only a [Push] onto an
    array that has been filled goes wrong. *)
Lemma mq_progress w look s r c p :
  mq_inv w look s → look r = Some c → IsReturned c = false → in_phase phase_of c p →
  (∃ c' w', Resume c w = Ok (c', w')) ∨ ∃ v, ctx c = Some (PushStoreA v (Z.of_nat N)).
Proof.
  intros HI Hc Hret Hph. unfold in_phase in Hph. rewrite Hret in Hph. destruct Hph as (f & Hctx & Hph).
  assert (place_of f = Inside → data_ok f (state w) s) as Hdata.
  { intros Hp. apply (mi_inside _ _ _ HI r). by exists c. }
  assert ((∃ sl, run_slice f (state w) (tokens w) = Ok sl) ∨ ∃ v, f = PushStoreA v (Z.of_nat N)) as [[sl Hsl]|[v ->]].
  { destruct f; unfold run_slice, code; simpl in Hph; try (specialize (Hdata eq_refl); simpl in Hdata); try done;
      try (left; by eexists).
    - left. unfold lock. destruct (TokenMutex.Lock _ _ _) as [[m ts] []]; by eexists.
    - destruct Hdata as (_ & [Hr _ _] & _). destruct (decide (h = Z.of_nat N)) as [->|Hn]; [by right; eexists|left].
      unfold index. rewrite (proj2 (Z.leb_le _ _)), (proj2 (Z.ltb_lt _ _)) by lia. by eexists.
    - left. unfold lock. destruct (TokenMutex.Lock _ _ _) as [[m ts] []]; by eexists.
    - left. destruct (_ <? _)%Z; by eexists.
    - left. destruct Hdata as (_ & Hlt & Hq & _). destruct (holds_pop _ _ _ _ Hq Hlt) as (e & _ & He & _).
      destruct Hq as [Hr _ _]. unfold index. rewrite (proj2 (Z.leb_le _ _)), (proj2 (Z.ltb_lt _ _)) by lia.
      simpl. rewrite He. by eexists.
    - left. destruct Hdata as (-> & _). by eexists.
    - left. destruct (inside_holder w look s r (UnlockReturn e) HI) as (c2 & t & _ & _ & Hm); [by exists c|].
      unfold TokenMutex.Unlock. destruct (mutex (state w)) as [|t' [|t2 m]]; [done|by eexists..]. }
  - left. unfold Resume. rewrite Hret, Hctx. simpl. rewrite Hsl. simpl.
    destruct sl as [f' o ts [[a0 v]|] st|v o ts]; by eexists _, _.
  - right. by exists v.
Qed.

(** While a task has not returned, there is one that has not and is not parked:
    the first of the queue of the lock, or any when the queue is empty. *)
Lemma mq_unparked w look s r c :
  mq_inv w look s → look r = Some c → IsReturned c = false →
  ∃ r' c', look r' = Some c' ∧ IsReturned c' = false ∧ IsParked c' w = false.
Proof.
  intros HI Hc Hret. destruct (mutex (state w)) as [|t m] eqn:Hm.
  - exists r, c. split_and!; [done..|]. destruct (mi_stands _ _ _ HI _ _ Hc) as (t & Ht & [b Hb] & Hs).
    rewrite Hret in Hs. destruct Hs as (f & _ & Hs). rewrite Hm in Hs. unfold IsParked. rewrite Ht.
    destruct (place_of f); [|by apply elem_of_nil in Hs|done].
    destruct Hs as (_ & _ & Hp). unfold TokenMutex.parked in Hp. by rewrite Hp.
  - destruct (mi_waiters _ _ _ HI t) as (r' & c' & Hc' & Ht); [rewrite Hm; by left|]. exists r', c'.
    destruct (mi_stands _ _ _ HI _ _ Hc') as (t' & Ht' & _ & Hs). assert (t' = t) as -> by congruence.
    destruct (IsReturned c'); [rewrite Hm in Hs; by destruct Hs; left|]. split_and!; [done..|].
    unfold IsParked. rewrite Ht. pose proof (proj2 (mi_mutex _ _ _ HI) 0 t) as Hp. rewrite Hm in Hp.
    specialize (Hp eq_refl). unfold TokenMutex.parked in Hp. by rewrite Hp.
Qed.

Section rounds.
Context `{HV : StrategyVerifier} `{HS : !Strategy} `{HL : !StrategyLaws} `{HMC : ModelChecker}.
Context (inner : nat).

Abbreviation reached := (LinPoints.reached spec Specs.Queue.init inner).

(** C10: Mutual exclusion.  In every state of a round, whatever the strategy did,
    at most one task is inside of its critical section; and the task that the
    strategy picks makes its step: [assert(cnt == 1)] holds, the mutex is
    locked where it is unlocked and no index is out of bounds, except that of
    the [Push] that finds all of the 100 elements written. *)
Theorem critical_section h s :
  reached h s →
  (∀ r1 r2 f1 f2, inside (slot (base s)) r1 f1 → inside (slot (base s)) r2 f2 → r1 = r2) ∧
  (∀ r c, slot (base s) r = Some c → runnable c (world (base s)) →
     (∃ c' w', Resume c (world (base s)) = Ok (c', w')) ∨ ∃ v, ctx c = Some (PushStoreA v (Z.of_nat N))).
Proof.
  intros Hre. destruct (reached_linearizing _ _ _ _ _ Hre) as (_ & _ & ops & q & Hlin). pose proof (li_inv _ _ _ _ _ _ Hlin) as HI. split.
  - intros r1 r2 f1 f2. by eapply inside_unique.
  - intros r c Hc (Hret & _). destruct (li_pending _ _ _ _ _ _ Hlin r c Hc) as [(o & -> & Ho)%list_elem_of_fmap|Hph].
    + destruct (li_op _ _ _ _ _ _ Hlin o Ho) as (c' & Hc' & _ & _ & Hph). assert (c' = c) as -> by congruence.
      by eapply mq_progress.
    + by eapply mq_progress.
Qed.

(** C11: The lock does not deadlock: in every state of a round, while a task has
    not returned, some task that has not returned is not parked. *)
Theorem no_deadlock h s :
  reached h s → (∃ r c, slot (base s) r = Some c ∧ IsReturned c = false) →
  ∃ r c, slot (base s) r = Some c ∧ IsReturned c = false ∧ IsParked c (world (base s)) = false.
Proof.
  intros Hre (r & c & Hc & Hret). destruct (reached_linearizing _ _ _ _ _ Hre) as (_ & _ & ops & q & Hlin).
  eapply mq_unparked; [exact (li_inv _ _ _ _ _ _ Hlin)|exact Hc|exact Hret].
Qed.
End rounds.
End MutexQueue.
