(* ===== verification/FutexMutex.v ===== *)
(** * FutexMutex: mutexes on a futex (verifying/blocking/simple_mutex.cpp,
    verifying/blocking/nonlinear_mutex.cpp)

    The two mutexes differ in one comparison, which decides whether [Lock] tries
    again after a failed exchange.  Their calls of [futex] end in the hook of
    Blocking.v, and MutexVerifier (Verifiers.v) keeps a strategy from starting an
    [Unlock] in a thread that has not locked.  The simple mutex is linearizable
    and excludes under every strategy that asks its verifier; the other one lets
    two threads in, and the tool finds it out (ExamplesTargets.v). *)

From Stdlib Require Import ZArith Lia.
From stdpp Require Import base gmap strings option list.
From S2P Require Import Prelude ValueWrapper History Linearizability Specs Coro Strategy Scheduler Verifiers Blocking LinPoints.

Module FutexMutex.

(** The program points, before the access or the call they name. *)
Inductive frame :=
| LockTry             (* CompareExchange(0, 1) == 0 *)
| LockAcquire         (* CompareExchange(0, 2), the condition of the outer loop *)
| LockMark            (* CompareExchange(1, 2) > 0 *)
| LockLoad            (* locked_.load() == 2 *)
| LockWait            (* FutexWait(Addr(locked_), 2) *)
| LockReturn
| UnlockSub           (* locked_.fetch_sub(1) != 1 *)
| UnlockStore         (* locked_.store(0) *)
| UnlockWake          (* FutexWake(Addr(locked_), 1) *)
| UnlockReturn.

(** The mutex is its word [locked_], at the only address futexes are given. *)
Definition Addr : Z := 0.

#[export] Instance target : Target := {|
  TargetObj := Z;
  Frame := frame;
  target_init := 0%Z;
  target_Reset _ := 0%Z;
  read_word locked_ _ := locked_;
  start name _ := if String.eqb name "Lock" then LockTry else UnlockSub;
|}.

(** The value before the exchange, and the word behind it. *)
Definition CompareExchange (old ne locked_ : Z) : Z * Z :=
  (locked_, if (locked_ =? old)%Z then ne else locked_).

Definition goes (f : frame) (locked_ : Z) (ts : Tokens) : outcome slice := Ok (Yielded f locked_ ts None None).

(** [syscall(SYS_futex, Addr(locked_), op, val)], which the hook turns into a
    yield while the system calls of the target are trapped. *)
Definition futex (op val : Z) (f : frame) (locked_ : Z) (ts : Tokens) : outcome slice :=
  a ← Hook.hook true Hook.SYS_futex Addr op val;
  match a with
  | Hook.Forwarded => Fail (Undefined "futex")
  | Hook.Yields blocked => Ok (Yielded f locked_ ts blocked None)
  end.

Definition FutexWait (val : Z) := futex Hook.FUTEX_WAIT_PRIVATE val.
Definition FutexWake (count : Z) := futex Hook.FUTEX_WAKE_PRIVATE count.

(** [again] is the condition of the outer loop of [Lock]. *)
Definition mutex_code (again : Z → bool) : Code := λ f locked_ ts,
  match f with
  | LockTry =>
      let '(old, locked_) := CompareExchange 0 1 locked_ in
      if (old =? 0)%Z then goes LockReturn locked_ ts else goes LockAcquire locked_ ts
  | LockAcquire =>
      let '(old, locked_) := CompareExchange 0 2 locked_ in
      if again old then goes LockMark locked_ ts else goes LockReturn locked_ ts
  | LockMark =>
      let '(old, locked_) := CompareExchange 1 2 locked_ in
      if (0 <? old)%Z then goes LockLoad locked_ ts else goes LockAcquire locked_ ts
  | LockLoad => if (locked_ =? 2)%Z then goes LockWait locked_ ts else goes LockAcquire locked_ ts
  | LockWait => FutexWait 2 LockLoad locked_ ts
  | LockReturn => Ok (Returned (ValueWrapper_of 0%Z) locked_ ts)
  | UnlockSub =>
      if negb (locked_ =? 1)%Z then goes UnlockStore (wrap32 (locked_ - 1)) ts
      else goes UnlockReturn (wrap32 (locked_ - 1)) ts
  | UnlockStore => goes UnlockWake 0%Z ts
  | UnlockWake => FutexWake 1 UnlockReturn locked_ ts
  | UnlockReturn => Ok (Returned (ValueWrapper_of 0%Z) locked_ ts)
  end.

(** [target_method(genEmpty, ...)], twice. *)
Definition task_builders : list TaskBuilder := [mk_TaskBuilder "Lock" genEmpty; mk_TaskBuilder "Unlock" genEmpty].

(** [ltest::Spec], and the verifier of the entry point. *)
Definition spec : gmap string (SpecMethod Mutex.LinearMutex) := Mutex.GetMethods.
#[export] Instance verifier : StrategyVerifier := MutexVerifier.verifier.

(** ** Who holds the mutex *)

(** [Lock] behind its successful exchange, [Unlock] before it sets the word to
    0. *)
Definition in_section (f : frame) : bool :=
  match f with LockReturn | UnlockSub | UnlockStore => true | _ => false end.

(** A thread holds the mutex inside of such a task, or when its last finished
    call was a [Lock]. *)
Definition holds (v : Verifier) (look : Look) (th : nat) : Prop :=
  (∃ i c f, look (th, i) = Some c ∧ IsReturned c = false ∧ ctx c = Some f ∧ in_section f = true) ∨
  (thread_idle look th ∧ status_of 0 v th = 1%Z).

(** The word tells whether a thread holds the mutex; there is one at most. *)
Definition lock_ok (locked_ : Z) (s : Mutex.LinearMutex) (H : nat → Prop) : Prop :=
  (locked_ = 0%Z ∧ Mutex.isLocked s = 0%Z ∧ ∀ th, ¬ H th) ∨
  ((locked_ = 1%Z ∨ locked_ = 2%Z) ∧ Mutex.isLocked s = 1%Z ∧ ∃ th, ∀ th', H th' ↔ th' = th).

Record sm_inv (v : Verifier) (w : World) (look : Look) (s : Mutex.LinearMutex) : Prop := {
  si_one : one_running look;
  si_lock : lock_ok (state w) s (holds v look);
}.

Lemma lock_ok_ext locked_ s (H H' : nat → Prop) :
  (∀ th, H' th ↔ H th) → lock_ok locked_ s H → lock_ok locked_ s H'.
Proof.
  intros E [(? & ? & Hno)|(? & ? & th & Hth)]; [left|right]; split_and!; try done.
  - intros th. by rewrite E.
  - exists th. intros th'. by rewrite E.
Qed.

(** Taking and releasing it. *)
Lemma lock_ok_take locked_ s (H H' : nat → Prop) th locked_' :
  lock_ok locked_ s H → locked_ = 0%Z → locked_' = 1%Z ∨ locked_' = 2%Z →
  (∀ th', th' ≠ th → H' th' ↔ H th') → H' th → lock_ok locked_' (Mutex.mk_Mutex 1) H'.
Proof.
  intros [(_ & _ & Hno)|([->| ->] & _)] E Hl Ho Ht; [|done..]. right. split_and!; [done|done|].
  exists th. intros th'. destruct (decide (th' = th)) as [->|Hn]; [done|]. rewrite Ho by done.
  split; [|done]. intros ?. by destruct (Hno th').
Qed.

Lemma lock_ok_release locked_ s (H H' : nat → Prop) th :
  lock_ok locked_ s H → H th → (∀ th', th' ≠ th → H' th' ↔ H th') → ¬ H' th →
  lock_ok 0 (Mutex.mk_Mutex 0) H'.
Proof.
  intros [(_ & _ & Hno)|(_ & _ & t & Ht)] Hth Ho Hn; [by destruct (Hno th)|]. left. split_and!; [done..|].
  apply Ht in Hth as E. intros th'. destruct (decide (th' = th)) as [->|Hne]; [done|]. rewrite Ho, Ht by done. congruence.
Qed.

Lemma lock_ok_held locked_ s (H : nat → Prop) th :
  lock_ok locked_ s H → H th → locked_ = 1%Z ∨ locked_ = 2%Z.
Proof. intros [(_ & _ & Hno)|(? & _)] Hth; [by destruct (Hno th)|done]. Qed.

(** The word may change between 1 and 2. *)
Lemma lock_ok_word locked_ s (H : nat → Prop) locked_' :
  lock_ok locked_ s H → locked_ ≠ 0%Z → locked_' = 1%Z ∨ locked_' = 2%Z → lock_ok locked_' s H.
Proof. intros [(? & _)|(_ & ? & ?)] Hn Hl; [done|]. by right. Qed.

Lemma holds_running v look th i c f :
  one_running look → look (th, i) = Some c → IsReturned c = false → ctx c = Some f →
  holds v look th ↔ in_section f = true.
Proof.
  intros Hone Hc Hr Hf. split; [|intros; left; by exists i, c, f].
  intros [(j & d & g & Hd & Hrd & Hg & Hs)|[Hidle _]].
  - assert (j = i) as -> by (by eapply Hone). congruence.
  - by rewrite (Hidle i c Hc) in Hr.
Qed.

Lemma holds_idle v look th : thread_idle look th → holds v look th ↔ status_of 0 v th = 1%Z.
Proof.
  intros Hidle. split; [|intros; by right]. intros [(i & c & f & Hc & Hr & _)|[_ ?]]; [|done].
  by rewrite (Hidle i c Hc) in Hr.
Qed.

(** A thread holds the mutex as before when neither its tasks nor its status
    change. *)
Lemma holds_other v v' look look' th :
  (∀ i, look' (th, i) = look (th, i)) → status_of 0 v' th = status_of 0 v th → holds v' look' th ↔ holds v look th.
Proof.
  intros Hl Hs. unfold holds, thread_idle. setoid_rewrite Hl. by rewrite Hs.
Qed.

(** ** Steps *)

Definition phase_of (f : frame) (name : string) (args : tuple) (p : phase) : Prop :=
  match f with
  | LockTry | LockAcquire | LockMark | LockLoad | LockWait => name = "Lock" ∧ p = None
  | LockReturn => name = "Lock" ∧ p = Some (ValueWrapper_of 0%Z)
  | UnlockSub | UnlockStore => name = "Unlock" ∧ p = None
  | UnlockWake | UnlockReturn => name = "Unlock" ∧ p = Some (ValueWrapper_of 0%Z)
  end.

(** A task that has yielded: who holds the mutex. *)
Lemma holds_yielded v w look s look' r c c' f f' :
  sm_inv v w look s → look r = Some c → IsReturned c = false → ctx c = Some f →
  updated look look' r c' → IsReturned c' = false → ctx c' = Some f' →
  one_running look' ∧ (holds v look r.1 ↔ in_section f = true) ∧ (holds v look' r.1 ↔ in_section f' = true) ∧
  ∀ th, th ≠ r.1 → holds v look' th ↔ holds v look th.
Proof.
  intros HI Hc Hr Hf Hup Hr' Hf'. pose proof (one_running_updated _ _ _ _ _ (si_one _ _ _ _ HI) Hc Hr Hup) as Hone'.
  destruct r as [th i]. split_and!; [done| | |].
  - eapply holds_running; [apply HI|exact Hc|done|done].
  - eapply holds_running; [done|apply Hup|done|done].
  - intros th' Hne. apply holds_other; [|done]. intros j. by eapply updated_other.
Qed.

(** It neither takes nor releases the mutex. *)
Lemma step_keeps v w look s w' look' r c c' f f' :
  sm_inv v w look s → look r = Some c → IsReturned c = false → ctx c = Some f →
  updated look look' r c' → IsReturned c' = false → ctx c' = Some f' →
  in_section f' = in_section f → (state w' = state w ∨ (state w ≠ 0%Z ∧ (state w' = 1%Z ∨ state w' = 2%Z))) →
  sm_inv v w' look' s.
Proof.
  intros HI Hc Hr Hf Hup Hr' Hf' Hs Hw.
  destruct (holds_yielded _ _ _ _ _ _ _ _ _ _ HI Hc Hr Hf Hup Hr' Hf') as (Hone & H1 & H2 & Ho). split; [done|].
  assert (∀ th, holds v look' th ↔ holds v look th) as E.
  { intros th. destruct (decide (th = r.1)) as [->|Hn]; [by rewrite H1, H2, Hs|by apply Ho]. }
  apply (lock_ok_ext _ _ (holds v look)); [done|]. destruct Hw as [->|[Hn Hw]]; [apply HI|].
  eapply lock_ok_word; [apply HI|done|done].
Qed.

(** It takes the mutex. *)
Lemma step_takes v w look s w' look' r c c' f f' :
  sm_inv v w look s → look r = Some c → IsReturned c = false → ctx c = Some f →
  updated look look' r c' → IsReturned c' = false → ctx c' = Some f' →
  in_section f' = true → state w = 0%Z → state w' = 1%Z ∨ state w' = 2%Z →
  performs spec "Lock" (args c) s (ValueWrapper_of 0%Z) (Mutex.mk_Mutex 1) ∧ sm_inv v w' look' (Mutex.mk_Mutex 1).
Proof.
  intros HI Hc Hr Hf Hup Hr' Hf' Hs Hw Hw'.
  destruct (holds_yielded _ _ _ _ _ _ _ _ _ _ HI Hc Hr Hf Hup Hr' Hf') as (Hone & H1 & H2 & Ho). split.
  - exists Mutex.lock_func, (ValueWrapper_of 0%Z). split_and!; [done| |apply vw_eq_of_refl].
    destruct (si_lock _ _ _ _ HI) as [(_ & Hl & _)|([E|E] & _)]; [|congruence..].
    unfold Mutex.lock_func, Mutex.Lock. by rewrite Hl.
  - split; [done|]. eapply lock_ok_take; [apply HI|done|done|exact Ho|by apply H2].
Qed.

(** It releases the mutex. *)
Lemma step_releases v w look s w' look' r c c' f f' :
  sm_inv v w look s → look r = Some c → IsReturned c = false → ctx c = Some f →
  updated look look' r c' → IsReturned c' = false → ctx c' = Some f' →
  in_section f = true → in_section f' = false → state w' = 0%Z →
  performs spec "Unlock" (args c) s (ValueWrapper_of 0%Z) (Mutex.mk_Mutex 0) ∧ sm_inv v w' look' (Mutex.mk_Mutex 0).
Proof.
  intros HI Hc Hr Hf Hup Hr' Hf' Hs Hs' Hw.
  destruct (holds_yielded _ _ _ _ _ _ _ _ _ _ HI Hc Hr Hf Hup Hr' Hf') as (Hone & H1 & H2 & Ho). split.
  - exists Mutex.unlock_func, (ValueWrapper_of 0%Z). split_and!; [done|done|apply vw_eq_of_refl].
  - split; [done|]. rewrite Hw. eapply lock_ok_release; [apply HI|by apply H1|exact Ho|]. by rewrite H2, Hs'.
Qed.

(** A task that has returned, and the verifier that was told. *)
Lemma step_returns v v' w look s w' look' r c c' f :
  sm_inv v w look s → look r = Some c → IsReturned c = false → ctx c = Some f →
  updated look look' r c' → IsReturned c' = true → state w' = state w →
  (∀ th, th ≠ r.1 → status_of 0 v' th = status_of 0 v th) → (status_of 0 v' r.1 = 1%Z ↔ in_section f = true) →
  sm_inv v' w' look' s.
Proof.
  intros HI Hc Hr Hf Hup Hr' Hw Hv Hs.
  pose proof (one_running_updated _ _ _ _ _ (si_one _ _ _ _ HI) Hc Hr Hup) as Hone'. split; [done|]. rewrite Hw.
  pose proof (one_running_returned _ _ _ _ _ (si_one _ _ _ _ HI) Hc Hr Hup Hr') as Hidle.
  apply (lock_ok_ext _ _ (holds v look)); [|apply HI]. intros th. destruct (decide (th = r.1)) as [->|Hn].
  - rewrite (holds_idle _ _ _ Hidle), Hs. destruct r as [th i]. symmetry.
    eapply holds_running; [apply HI|exact Hc|done|done].
  - apply holds_other; [|by apply Hv]. intros j. by eapply updated_other.
Qed.

Definition is_lock (name : string) : bool := String.eqb name "Lock".

(** MutexVerifier remembers the calls that have finished. *)
Lemma told_status c' th (v v' : Verifier) :
  told c' th v v' → IsReturned c' = true → name c' = "Lock" ∨ name c' = "Unlock" →
  (∀ th', th' ≠ th → status_of 0 v' th' = status_of 0 v th') ∧
  (status_of 0 v' th = 1%Z ↔ is_lock (name c') = true).
Proof.
  unfold told. intros H Hr Hn. rewrite Hr in H. destruct H as [new H]. simpl in H. unfold MutexVerifier.OnFinished in H.
  destruct Hn as [E|E]; rewrite E in H |- *; injection H as <-;
    (split; [intros th' Hne|]; rewrite status_of_insert; [by rewrite decide_False|by rewrite decide_True]).
Qed.

(** What asking the verifier says about the thread. *)
Lemma asked_status (v : Verifier) th n (v' : Verifier) :
  asked v th n v' →
  (∀ th', status_of 0 v' th' = status_of 0 v th') ∧
  ((n = "Lock" ∧ status_of 0 v th = 0%Z) ∨ (n = "Unlock" ∧ status_of 0 v th = 1%Z)).
Proof.
  induction 1 as [v th n v' H|v th m n v1 v' H _ (IH & IHn)];
    destruct (MutexVerifier.Verify_Ok _ _ _ _ H) as [Hs Hok].
  - split; [done|]. by apply Hok.
  - split; [intros th'; by rewrite IH|]. by rewrite Hs in IHn.
Qed.

(** A new task stands at the first access of its method. *)
Lemma Build_mutex bd th id w c w' :
  bd ∈ task_builders → generated_token w = None → Build bd th id w = Ok (c, w') →
  IsReturned c = false ∧ ctx c = Some (start (name c) (args c)) ∧ IsParked c w' = false ∧ state w' = state w ∧
  (name c = "Lock" ∨ name c = "Unlock").
Proof.
  unfold Build. intros Hbd Hgen H.
  apply elem_of_cons in Hbd as [->|Hbd%list_elem_of_singleton]; [|subst bd];
    simpl in H; rewrite Hgen in H; injection H as <- <-; split_and!; try done; [by left|by right].
Qed.

Lemma sm_new v v' w look s bd id c w' look' r :
  sm_inv v w look s → bd ∈ task_builders → generated_token w = None → Build bd r.1 id w = Ok (c, w') →
  thread_idle look r.1 → asked v r.1 (name c) v' → look r = None → updated look look' r c →
  sm_inv v' w' look' s ∧ IsParked c w' = false ∧ in_phase phase_of c None ∧ (name c = "Lock" ∨ name c = "Unlock").
Proof.
  intros HI Hbd Hgen Hb Hidle [Hv Hn]%asked_status Hnone Hup.
  destruct (Build_mutex _ _ _ _ _ _ Hbd Hgen Hb) as (Hr & Hctx & Hpark & Hst & Hname). pose proof Hup as [Hnew Hold].
  pose proof (one_running_new _ _ _ _ (si_one _ _ _ _ HI) Hidle Hup) as Hone.
  split; [split; [done|]|split_and!; [done| |done]].
  - rewrite Hst. apply (lock_ok_ext _ _ (holds v look)); [|apply HI]. intros th. destruct (decide (th = r.1)) as [->|Hne].
    + rewrite (holds_idle _ _ _ Hidle). destruct r as [th i].
      rewrite (holds_running _ _ _ _ _ _ Hone Hnew Hr Hctx). simpl in *.
      destruct Hn as [[-> ->]|[-> ->]]; done.
    + apply holds_other; [|by apply Hv]. intros j. by eapply updated_other.
  - unfold in_phase. rewrite Hr, Hctx. eexists. split; [done|]. destruct Hname as [-> | ->]; done.
Qed.

Lemma sm_look v w look look' s :
  sm_inv v w look s → (∀ u, option_Forall2 same_but_futex (look u) (look' u)) → sm_inv v w look' s.
Proof.
  intros HI Hl.
  assert (∀ th, thread_idle look' th ↔ thread_idle look th) as Hidle.
  { intros th. split; intros H i c Hc.
    - destruct (look_forth _ _ _ _ Hl Hc) as (c' & Hc' & E). apply H in Hc'. by rewrite E in Hc'.
    - destruct (look_back _ _ _ _ Hl Hc) as (c' & Hc' & ->). exact (H _ _ Hc'). }
  destruct HI as [Hone Hlock]. split; [by eapply one_running_look|].
  apply (lock_ok_ext _ _ (holds v look)); [|done]. intros th. unfold holds. rewrite Hidle.
  split; (intros [(i & c & f & Hc & Hr & Hf & Hs)|?]; [left|by right]).
  - destruct (look_back _ _ _ _ Hl Hc) as (c' & Hc' & E). exists i, c', f. rewrite E in Hr, Hf. by split_and!.
  - destruct (look_forth _ _ _ _ Hl Hc) as (c' & Hc' & E). exists i, c', f. split_and!; [done|by rewrite E..|done].
Qed.

Lemma sm_fresh v w look :
  v = Verifier_init ∨ (∃ v0, v = Verifier_Reset v0) → state w = target_init ∨ (∃ o, state w = target_Reset o) →
  (∀ r, look r = None) → sm_inv v w look Mutex.init.
Proof.
  intros Hv Hw Hlook. assert (v = ∅) as -> by (destruct Hv as [?|[v0 ?]]; done).
  assert (state w = 0%Z) as E by (destruct Hw as [?|[o ?]]; done).
  split; [intros th i j c d Hc; by rewrite Hlook in Hc|]. left. split_and!; [done..|].
  intros th [(i & c & f & Hc & _)|[_ H]]; [by rewrite Hlook in Hc|done].
Qed.

(** The methods answer an [int]. *)
Lemma mutex_result n (m : SpecMethod Mutex.LinearMutex) s args res s' :
  spec !! n = Some m → m s args = Ok (res, s') → ∃ z : Z, res = ValueWrapper_of z.
Proof.
  intros Hm Hres. unfold spec, Mutex.GetMethods in Hm. apply lookup_insert_Some in Hm as [[<- <-]|[_ Hm]].
  - unfold Mutex.lock_func in Hres. destruct (Mutex.Lock s). injection Hres as <- _. by eexists.
  - apply lookup_insert_Some in Hm as [[<- <-]|[_ Hm]]; [|by rewrite lookup_empty in Hm].
    injection Hres as <- _. by eexists.
Qed.

Lemma mutex_comparable name args s v s' m s1 res s1' :
  performs spec name args s v s' → spec !! name = Some m → m s1 args = Ok (res, s1') → comparable res v.
Proof.
  intros (m0 & res0 & Hm0 & Hres0 & Hv) Hm Hres.
  destruct (mutex_result _ _ _ _ _ _ Hm0 Hres0) as [z ->], (mutex_result _ _ _ _ _ _ Hm Hres) as [z' ->].
  eapply comparable_default. by eexists.
Qed.

Lemma mutex_known n (args : tuple) : n = "Lock" ∨ n = "Unlock" → known spec n args.
Proof.
  intros [-> | ->].
  - exists Mutex.lock_func. split; [done|]. intros s. unfold Mutex.lock_func. destruct (Mutex.Lock s). by eexists.
  - exists Mutex.unlock_func. split; [done|]. intros s. by eexists.
Qed.
End FutexMutex.

(** ** The simple mutex (simple_mutex.cpp) *)

Module SimpleMutex.
Import FutexMutex.

(** [while (CompareExchange(0, 2) != 0)]. *)
#[export] Instance code : Code := mutex_code (λ old, negb (old =? 0)%Z).

Ltac yield_case Hst Hc' :=
  match type of Hc' with _ ∧ _ => destruct Hc' as [Hr' Hf'] end; simpl in Hst.

Ltac phase_case :=
  match goal with
  | Hr : IsReturned ?c = false, Hf : ctx ?c = Some _, En : name ?c = _ |- in_phase phase_of ?c _ =>
      unfold in_phase; rewrite Hr, En; eexists; split; [exact Hf|simpl; by auto]
  end.

(** The task goes on without taking or releasing the mutex. *)
Ltac keeps_case :=
  left; split; [eapply step_keeps; [eassumption|eassumption|eassumption|eassumption|eassumption|eassumption|eassumption
    |reflexivity|]|phase_case].

Lemma sm_step v v' w look s r c c' w' look' p :
  sm_inv v w look s → look r = Some c → IsReturned c = false → in_phase phase_of c p →
  Resume c w = Ok (c', w') → updated look look' r c' → told c' r.1 v v' →
  (sm_inv v' w' look' s ∧ in_phase phase_of c' p) ∨
  (p = None ∧ ∃ x s', performs spec (name c) (args c) s x s' ∧ sm_inv v' w' look' s' ∧ in_phase phase_of c' (Some x)).
Proof.
  intros HI Hc Hret Hph HR Hup Htold.
  destruct (Resume_frame _ _ _ _ HR) as (f & sl & Hctx & Hsl & Hst & _ & En & Ea & _ & Hc').
  unfold in_phase in Hph. rewrite Hret, Hctx in Hph. destruct Hph as (f0 & [= <-] & Hph).
  assert (IsReturned c' = false → v' = v) as Hv by (unfold told in Htold; intros E; by rewrite E in Htold).
  assert (in_section f = true → state w = 1%Z ∨ state w = 2%Z) as Hheld.
  { intros Hs. destruct r as [th i]. apply (lock_ok_held _ s (holds v look) th); [apply HI|]. left. by exists i, c, f. }
  assert (state w = 0%Z ∨ state w = 1%Z ∨ state w = 2%Z) as Hword.
  { destruct (si_lock _ _ _ _ HI) as [(? & _)|(? & _)]; tauto. }
  destruct f; unfold run_slice, code, mutex_code, CompareExchange in Hsl; destruct Hph as [Hn ->].
  - destruct (Z.eqb_spec (state w) 0) as [Hw|Hw]; injection Hsl as <-; yield_case Hst Hc'; rewrite (Hv Hr') in *.
    + right. split; [done|]. exists (ValueWrapper_of 0%Z), (Mutex.mk_Mutex 1). rewrite Hn.
      destruct (step_takes v w look s w' look' r c c' LockTry LockReturn HI Hc Hret Hctx Hup Hr' Hf') as [? ?]; [done|done|by left|].
      split_and!; [done|done|phase_case].
    + keeps_case. by left.
  - destruct (Z.eqb_spec (state w) 0) as [Hw|Hw]; injection Hsl as <-; yield_case Hst Hc'; rewrite (Hv Hr') in *.
    + right. split; [done|]. exists (ValueWrapper_of 0%Z), (Mutex.mk_Mutex 1). rewrite Hn.
      destruct (step_takes v w look s w' look' r c c' LockAcquire LockReturn HI Hc Hret Hctx Hup Hr' Hf') as [? ?]; [done|done|by right|].
      split_and!; [done|done|phase_case].
    + keeps_case. by left.
  - destruct (Z.ltb_spec 0 (state w)) as [Hw|Hw]; injection Hsl as <-; yield_case Hst Hc'; rewrite (Hv Hr') in *; keeps_case.
    + right. split; [lia|]. rewrite Hst. case_match; [by right|lia].
    + left. rewrite Hst. case_match; lia.
  - destruct (Z.eqb_spec (state w) 2) as [Hw|Hw]; injection Hsl as <-; yield_case Hst Hc'; rewrite (Hv Hr') in *;
      keeps_case; by left.
  - injection Hsl as <-. yield_case Hst Hc'. rewrite (Hv Hr') in *. keeps_case. by left.
  - injection Hsl as <-. destruct Hc' as [Hr' Hx]. left.
    destruct (told_status _ _ _ _ Htold Hr') as [Hs1 Hs2]; [left; congruence|]. split.
    + eapply (step_returns v v' w look s w' look' r c c' LockReturn); try done. rewrite Hs2, En, Hn. done.
    + unfold in_phase. by rewrite Hr', Hx.
  - destruct (Z.eqb_spec (state w) 1) as [Hw|Hw]; injection Hsl as <-; yield_case Hst Hc'; rewrite (Hv Hr') in *.
    + right. split; [done|]. exists (ValueWrapper_of 0%Z), (Mutex.mk_Mutex 0). rewrite Hn.
      destruct (step_releases v w look s w' look' r c c' UnlockSub UnlockReturn HI Hc Hret Hctx Hup Hr' Hf') as [? ?];
        [done|done|by rewrite Hst, Hw|].
      split_and!; [done|done|phase_case].
    + keeps_case. right. destruct (Hheld eq_refl) as [E|E]; [done|]. split; [by rewrite E|]. left. by rewrite Hst, E.
  - injection Hsl as <-. yield_case Hst Hc'. rewrite (Hv Hr') in *.
    right. split; [done|]. exists (ValueWrapper_of 0%Z), (Mutex.mk_Mutex 0). rewrite Hn.
    destruct (step_releases v w look s w' look' r c c' UnlockStore UnlockWake HI Hc Hret Hctx Hup Hr' Hf') as [? ?]; [done..|].
    split_and!; [done|done|phase_case].
  - injection Hsl as <-. yield_case Hst Hc'. rewrite (Hv Hr') in *. keeps_case. by left.
  - injection Hsl as <-. destruct Hc' as [Hr' Hx]. left.
    destruct (told_status _ _ _ _ Htold Hr') as [Hs1 Hs2]; [right; congruence|]. split.
    + eapply (step_returns v v' w look s w' look' r c c' UnlockReturn); try done. rewrite Hs2, En, Hn. done.
    + unfold in_phase. by rewrite Hr', Hx.
Qed.

#[export] Instance points : LinPoints spec Mutex.init.
Proof.
  refine {| lp_inv := sm_inv; lp_phase := phase_of; lp_runnable c _ := IsReturned c = false; lp_told := told;
            lp_builder bd := bd ∈ task_builders; lp_fits _ := True; lp_asks := asked;
            lp_start look v th n v' := thread_idle look th ∧ asked v th n v' |}.
  - by intros c w (? & _).
  - done.
  - done.
  - intros v v' bd id w c w' look look' r s Hbd _ Hgen HI Hb [Hidle Hasked] Hr Hup.
    destruct (sm_new _ _ _ _ _ _ _ _ _ _ _ HI Hbd Hgen Hb Hidle Hasked Hr Hup) as (? & ? & ? & ?).
    split_and!; [done|done|by apply mutex_known|done].
  - apply sm_step.
  - apply sm_look.
  - apply mutex_comparable.
  - apply sm_fresh.
Defined.

Section rounds.
Context `{HS : !Strategy} `{HL : !StrategyLaws} `{HSA : !StrategyAsks asked} `{HMC : ModelChecker}.
Context (inner : nat).

(** C12: The simple mutex excludes.  In every state of a round, under any
    strategy that asks MutexVerifier before it starts a call, at most one thread
    holds the mutex, be it in a task or between its [Lock] and its [Unlock];
    [locked_] is 0 when none does and 1 or 2 otherwise. *)
Theorem simple_mutex_excludes h s :
  LinPoints.reached spec Mutex.init inner h s →
  let H := holds (sched_checker (base s)) (slot (base s)) in
  (∀ th th', H th → H th' → th = th') ∧
  (state (world (base s)) = 0%Z ∧ (∀ th, ¬ H th) ∨
   (state (world (base s)) = 1%Z ∨ state (world (base s)) = 2%Z) ∧ ∃ th, H th).
Proof.
  intros Hre H. destruct (reached_linearizing _ _ _ _ _ Hre) as (_ & _ & ops & q & Hlin).
  destruct (si_lock _ _ _ _ (li_inv _ _ _ _ _ _ Hlin)) as [(E & _ & Hno)|(E & _ & t & Ht)].
  - split; [|by left]. intros th th' Hth. by destruct (Hno th).
  - split; [|right; split; [done|]; exists t; by apply Ht]. intros th th' Hth%Ht Hth'%Ht. congruence.
Qed.
End rounds.
End SimpleMutex.

(** ** The mutex that is not one (nonlinear_mutex.cpp) *)

Module NonlinearMutex.
Import FutexMutex.

(** [while (CompareExchange(0, 2) == 1)]. *)
#[export] Instance code : Code := mutex_code (λ old, (old =? 1)%Z).
End NonlinearMutex.
