(* ===== verification/RWSpinLock.v ===== *)
(** * RWSpinLock: folly's readers-writer lock (verifying/blocking/folly_rwspinlock.cpp)

    The lock is one word: bit 0 is the writer, bit 1 an upgrader, and the rest
    counts the readers.  Only [lock], [unlock], [lock_shared] and
    [unlock_shared] are annotated, and their accesses to the word are calls of
    other functions; so the members run in one piece, and a task is switched
    away from between the attempts of a spinning loop.  The members are proved
    to act on the three fields ([members_refine]); the four methods linearize to
    the shared mutex of verifying/specs/mutex.h under every strategy that asks
    SharedMutexVerifier ([points]), and exclude ([rwspinlock_excludes]). *)

From Stdlib Require Import ZArith Lia.
From stdpp Require Import base gmap strings option list fin_sets.
From S2P Require Import Prelude ValueWrapper History Linearizability Specs Coro Strategy Scheduler Verifiers Blocking LinPoints.

Module RWSpinLock.
#[local] Open Scope Z_scope.

(** [enum : int32_t]. *)
Definition READER : Z := 4.
Definition UPGRADED : Z := 2.
Definition WRITER : Z := 1.

(** ** The members, on [bits_] *)

(** [std::atomic<int32_t>]: the value that was there, and the one that is. *)
Definition fetch_add (d bits : Z) : Z * Z := (bits, wrap32 (bits + d)).
Definition fetch_or (m bits : Z) : Z * Z := (bits, Z.lor bits m).
Definition fetch_and (m bits : Z) : Z * Z := (bits, Z.land bits m).
Definition compare_exchange_strong (expect desired bits : Z) : bool * Z :=
  if bits =? expect then (true, desired) else (false, bits).

Definition try_lock (bits : Z) : bool * Z := compare_exchange_strong 0 WRITER bits.

Definition try_lock_shared (bits : Z) : bool * Z :=
  let '(value, bits) := fetch_add READER bits in
  if negb (Z.land value (Z.lor WRITER UPGRADED) =? 0) then (false, (fetch_add (- READER) bits).2)
  else (true, bits).

Definition unlock (bits : Z) : Z * Z := (0, (fetch_and (Z.lnot (Z.lor WRITER UPGRADED)) bits).2).
Definition unlock_shared (bits : Z) : Z * Z := (0, (fetch_add (- READER) bits).2).
Definition unlock_and_lock_shared (bits : Z) : Z := (unlock (fetch_add READER bits).2).2.

Definition try_lock_upgrade (bits : Z) : bool * Z :=
  let '(value, bits) := fetch_or UPGRADED bits in
  (Z.land value (Z.lor UPGRADED WRITER) =? 0, bits).
Definition try_unlock_upgrade_and_lock (bits : Z) : bool * Z := compare_exchange_strong UPGRADED WRITER bits.

Definition unlock_upgrade (bits : Z) : Z := (fetch_add (- UPGRADED) bits).2.
Definition unlock_upgrade_and_lock_shared (bits : Z) : Z := (fetch_add (READER - UPGRADED) bits).2.
Definition unlock_and_lock_upgrade (bits : Z) : Z :=
  (fetch_add (- WRITER) (fetch_or UPGRADED bits).2).2.

(** [lock_upgrade] and [unlock_upgrade_and_lock], which no method under test
    calls: attempts until one succeeds, [fuel] at most.  Failed ones are counted
    by [next], which has no value when counting overflows; past 1000 of them the
    loop calls [std::this_thread::yield], and [yielded] says how often it did. *)
Fixpoint attempts (next : Z → option Z) (try : Z → bool * Z) (fuel : nat) (count : Z) (yielded : nat) (bits : Z)
  : option (Z * nat) :=
  match fuel with
  | 0%nat => None
  | S fuel =>
      let '(ok, bits) := try bits in
      if ok then Some (bits, yielded)
      else
        count ← next count;
        attempts next try fuel count (if 1000 <? count then S yielded else yielded) bits
  end.

(** [++count] of a [uint_fast32_t], which has 64 bits, and of an [int64_t]. *)
Definition next_fast (count : Z) : option Z := Some (wrapu64 (count + 1)).
Definition next_int64 (count : Z) : option Z := if count =? 2 ^ 63 - 1 then None else Some (count + 1).

Definition lock_upgrade (fuel : nat) (bits : Z) : option (Z * nat) :=
  attempts next_fast try_lock_upgrade fuel 0 0 bits.
Definition unlock_upgrade_and_lock (fuel : nat) (bits : Z) : option (Z * nat) :=
  attempts next_int64 try_unlock_upgrade_and_lock fuel 0 0 bits.

(** [bits()], and [Reset] with the initial value. *)
Definition load_bits (bits : Z) : Z := bits.
Definition Reset : Z := 0.

(** ** What the word stands for *)

Record Fields := mk_Fields { readers : Z; upgraded : bool; writer : bool }.

Definition encode (a : Fields) : Z := 2 * (2 * readers a + Z.b2z (upgraded a)) + Z.b2z (writer a).

(** One more reader still fits the [int32_t]. *)
Definition fits (a : Fields) : Prop := 0 <= readers a < 2 ^ 29 - 1.

Lemma double_bits (op : Z → Z → Z) (bop : bool → bool → bool) :
  (∀ a b i, Z.testbit (op a b) i = bop (Z.testbit a i) (Z.testbit b i)) →
  ∀ a b x y, op (2 * a + Z.b2z x) (2 * b + Z.b2z y) = 2 * op a b + Z.b2z (bop x y).
Proof.
  intros Hop a b x y. apply Z.bits_inj'. intros i Hi. rewrite Hop.
  destruct (Z.eq_dec i 0) as [->|Hn]; [by rewrite !Z.testbit_0_r|].
  replace i with (Z.succ (i - 1)) by lia. by rewrite !Z.testbit_succ_r, Hop by lia.
Qed.

(** The masks of the code are words of the same shape. *)
Lemma lor_encode a u w :
  Z.lor (encode a) (encode (mk_Fields 0 u w)) = encode (mk_Fields (readers a) (upgraded a || u) (writer a || w)).
Proof.
  unfold encode. cbn [readers upgraded writer]. rewrite !(double_bits Z.lor orb Z.lor_spec). by rewrite Z.lor_0_r.
Qed.

Lemma land_encode a b :
  Z.land (encode a) (encode b) =
  encode (mk_Fields (Z.land (readers a) (readers b)) (upgraded a && upgraded b) (writer a && writer b)).
Proof. unfold encode. cbn [readers upgraded writer]. by rewrite !(double_bits Z.land andb Z.land_spec). Qed.

Lemma test_encode a : (Z.land (encode a) (Z.lor WRITER UPGRADED) =? 0) = negb (upgraded a || writer a).
Proof.
  change (Z.lor WRITER UPGRADED) with (encode (mk_Fields 0 true true)). rewrite land_encode. cbn [readers upgraded writer].
  rewrite Z.land_0_r, !andb_true_r. by destruct (upgraded a), (writer a).
Qed.

Lemma encode_inj a b : encode a = encode b → a = b.
Proof. destruct a as [n [] []], b as [m [] []]; unfold encode; cbn; intros H; f_equal; lia. Qed.

#[export] Instance fields_eq_dec : EqDecision Fields.
Proof. solve_decision. Defined.

Lemma encode_eqb a b : (encode a =? encode b) = bool_decide (a = b).
Proof.
  case_bool_decide as H; [rewrite H; apply Z.eqb_refl|]. apply Z.eqb_neq. intros E. by apply H, encode_inj.
Qed.

Definition free : Fields := mk_Fields 0 false false.
Definition with_readers (n : Z) (a : Fields) : Fields := mk_Fields n (upgraded a) (writer a).

(** Additions that stay in range. *)
Lemma fetch_add_encode a b d : 0 <= readers b < 2 ^ 29 → encode b = encode a + d → (fetch_add d (encode a)).2 = encode b.
Proof.
  intros H E. cbn [fetch_add snd]. rewrite <-E. apply wrap32_id. unfold in_int32, encode.
  destruct (upgraded b), (writer b); cbn; lia.
Qed.

Ltac encode_arith := unfold fits, encode, READER, UPGRADED, WRITER in *; cbn [readers upgraded writer with_readers Z.b2z] in *; lia.

Lemma unlock_encode a : unlock (encode a) = (0, encode (mk_Fields (readers a) false false)).
Proof.
  unfold unlock, fetch_and. change (Z.lnot (Z.lor WRITER UPGRADED)) with (encode (mk_Fields (-1) false false)).
  rewrite land_encode. cbn [readers upgraded writer snd]. by rewrite Z.land_m1_r, !andb_false_r.
Qed.

Lemma unlock_shared_encode a :
  fits a → 0 < readers a → unlock_shared (encode a) = (0, encode (with_readers (readers a - 1) a)).
Proof. intros Hf Hn. unfold unlock_shared. f_equal. apply fetch_add_encode; encode_arith. Qed.

Lemma try_lock_encode a :
  try_lock (encode a) = if bool_decide (a = free) then (true, encode (mk_Fields 0 false true)) else (false, encode a).
Proof. unfold try_lock, compare_exchange_strong. change 0 with (encode free). by rewrite encode_eqb. Qed.

Lemma try_lock_shared_encode a :
  fits a →
  try_lock_shared (encode a) =
    if upgraded a || writer a then (false, encode a) else (true, encode (with_readers (readers a + 1) a)).
Proof.
  intros Hf. unfold try_lock_shared. destruct (fetch_add READER (encode a)) as [value bits] eqn:E.
  assert (value = encode a) as -> by (by injection E).
  assert (bits = encode (with_readers (readers a + 1) a)) as ->.
  { rewrite <-(fetch_add_encode a _ READER); [by rewrite E|encode_arith..]. }
  rewrite test_encode, negb_involutive. case_match; [|done]. f_equal. apply fetch_add_encode; encode_arith.
Qed.

Lemma try_lock_upgrade_encode a :
  try_lock_upgrade (encode a) =
    (negb (upgraded a || writer a), encode (mk_Fields (readers a) true (writer a))).
Proof.
  unfold try_lock_upgrade, fetch_or. rewrite Z.lor_comm, test_encode. f_equal.
  change UPGRADED with (encode (mk_Fields 0 true false)). by rewrite lor_encode, orb_true_r, orb_false_r.
Qed.

Lemma try_unlock_upgrade_and_lock_encode a :
  try_unlock_upgrade_and_lock (encode a) =
    if bool_decide (a = mk_Fields 0 true false) then (true, encode (mk_Fields 0 false true)) else (false, encode a).
Proof.
  unfold try_unlock_upgrade_and_lock, compare_exchange_strong.
  change UPGRADED with (encode (mk_Fields 0 true false)). by rewrite encode_eqb.
Qed.

(** A failed attempt is repeated in vain while nobody else acts. *)
Lemma attempts_stuck next try fuel count yielded bits :
  try bits = (false, bits) → attempts next try fuel count yielded bits = None.
Proof.
  intros E. revert count yielded. induction fuel as [|fuel IH]; intros count yielded; [done|]. cbn [attempts].
  rewrite E. destruct (next count); [apply IH|done].
Qed.

(** C14: The members of RWSpinLock act on the readers, the upgrader and the
    writer that the word stands for.  With fewer than [2 ^ 29 - 1] readers none
    of them overflows: [try_lock] succeeds on the free lock only,
    [try_lock_shared] when there is neither an upgrader nor a writer (and leaves
    no trace otherwise), [try_lock_upgrade] likewise, but it leaves its bit;
    the others change the fields their names say; and the loops that nobody
    interrupts succeed at once, without yielding the thread, or spin forever. *)
Theorem members_refine a (Hfits : fits a) :
  let '(mk_Fields n u w) := a in
  try_lock (encode a) = (if bool_decide (a = free) then (true, encode (mk_Fields 0 false true)) else (false, encode a)) ∧
  try_lock_shared (encode a) = (if u || w then (false, encode a) else (true, encode (mk_Fields (n + 1) u w))) ∧
  try_lock_upgrade (encode a) = (negb (u || w), encode (mk_Fields n true w)) ∧
  try_unlock_upgrade_and_lock (encode a) =
    (if bool_decide (a = mk_Fields 0 true false) then (true, encode (mk_Fields 0 false true)) else (false, encode a)) ∧
  unlock (encode a) = (0, encode (mk_Fields n false false)) ∧
  unlock_and_lock_shared (encode a) = encode (mk_Fields (n + 1) false false) ∧
  (0 < n → unlock_shared (encode a) = (0, encode (mk_Fields (n - 1) u w))) ∧
  (u = true → unlock_upgrade (encode a) = encode (mk_Fields n false w) ∧
              unlock_upgrade_and_lock_shared (encode a) = encode (mk_Fields (n + 1) false w)) ∧
  (w = true → unlock_and_lock_upgrade (encode a) = encode (mk_Fields n true false)) ∧
  ∀ fuel,
    lock_upgrade (S fuel) (encode a) = (if u || w then None else Some (encode (mk_Fields n true w), 0%nat)) ∧
    unlock_upgrade_and_lock (S fuel) (encode a) =
      (if bool_decide (a = mk_Fields 0 true false) then Some (encode (mk_Fields 0 false true), 0%nat) else None).
Proof.
  destruct a as [n u w]. set (a := mk_Fields n u w) in *. split_and!.
  - apply try_lock_encode.
  - by apply try_lock_shared_encode.
  - apply try_lock_upgrade_encode.
  - apply try_unlock_upgrade_and_lock_encode.
  - apply unlock_encode.
  - unfold unlock_and_lock_shared.
    rewrite (fetch_add_encode a (mk_Fields (n + 1) u w)), unlock_encode by (subst a; encode_arith). done.
  - intros Hn. by apply unlock_shared_encode.
  - intros ->. split; apply fetch_add_encode; subst a; encode_arith.
  - intros ->. unfold unlock_and_lock_upgrade, fetch_or. cbn [snd].
    change UPGRADED with (encode (mk_Fields 0 true false)).
    rewrite lor_encode, orb_true_r, orb_false_r. apply fetch_add_encode; subst a; encode_arith.
  - intros fuel. unfold lock_upgrade, unlock_upgrade_and_lock. cbn [attempts].
    rewrite try_lock_upgrade_encode, try_unlock_upgrade_and_lock_encode. cbn [upgraded writer readers a]. split.
    + destruct (u || w); [|done]. cbn [next_fast negb mbind option_bind]. apply attempts_stuck. rewrite try_lock_upgrade_encode. by destruct w.
    + case_bool_decide as E; [done|]. cbn [mbind option_bind]. apply attempts_stuck.
      by rewrite try_unlock_upgrade_and_lock_encode, bool_decide_false.
Qed.

Lemma members_refine_witness :
  fits (mk_Fields 2 true false) ∧ try_lock_shared (encode (mk_Fields 2 true false)) = (false, 10).
Proof.
  split; [by split|]. destruct (members_refine (mk_Fields 2 true false)) as (_ & H & _); [by split|exact H].
Defined.

(** ** The methods under test *)

(** [lock] and [lock_shared] before an attempt or the call of
    [std::this_thread::yield], with [count] (a [uint_fast32_t], 64 bits wide with
    glibc on x86-64); [unlock] and [unlock_shared] before their access. *)
Inductive frame :=
| LockTry (count : Z)
| LockYield (count : Z)
| UnlockAnd
| SharedTry (count : Z)
| SharedYield (count : Z)
| SharedSub.

#[export] Instance target : Target := {|
  TargetObj := Z;
  Frame := frame;
  target_init := 0;
  target_Reset _ := Reset;
  read_word bits _ := bits;
  start name _ :=
    if String.eqb name "lock" then LockTry 0
    else if String.eqb name "unlock" then UnlockAnd
    else if String.eqb name "lock_shared" then SharedTry 0
    else SharedSub;
|}.

(** An iteration of [while (!try()) if (++count > 1000) yield();]. *)
Definition spin (try : Z → bool * Z) (again wait : Z → frame) (count bits : Z) (ts : Tokens) : outcome slice :=
  let '(ok, bits) := try bits in
  if ok then Ok (Returned (ValueWrapper_of 0) bits ts)
  else
    let count := wrapu64 (count + 1) in
    Ok (Yielded (if 1000 <? count then wait count else again count) bits ts None None).

(** [std::this_thread::yield()] is the system call [sched_yield], which the hook
    turns into a yield of the task. *)
Definition this_thread_yield (f : frame) (bits : Z) (ts : Tokens) : outcome slice :=
  a ← Hook.hook true Hook.SYS_sched_yield 0 0 0;
  match a with
  | Hook.Forwarded => Fail (Undefined "sched_yield")
  | Hook.Yields blocked => Ok (Yielded f bits ts blocked None)
  end.

#[export] Instance code : Code := λ f bits ts,
  match f with
  | LockTry count => spin try_lock LockTry LockYield count bits ts
  | LockYield count => this_thread_yield (LockTry count) bits ts
  | UnlockAnd => let '(ret, bits) := unlock bits in Ok (Returned (ValueWrapper_of ret) bits ts)
  | SharedTry count => spin try_lock_shared SharedTry SharedYield count bits ts
  | SharedYield count => this_thread_yield (SharedTry count) bits ts
  | SharedSub => let '(ret, bits) := unlock_shared bits in Ok (Returned (ValueWrapper_of ret) bits ts)
  end.

(** [target_method(genEmpty, ...)], four times. *)
Definition task_builders : list TaskBuilder :=
  [mk_TaskBuilder "lock" genEmpty; mk_TaskBuilder "lock_shared" genEmpty;
   mk_TaskBuilder "unlock" genEmpty; mk_TaskBuilder "unlock_shared" genEmpty].

(** [ltest::Spec], and the verifier of the entry point. *)
Definition spec : gmap string (SpecMethod SharedMutex.SharedLinearMutex) := SharedMutex.GetMethods.
#[export] Instance verifier : StrategyVerifier := SharedMutexVerifier.verifier.

(** ** Who holds the lock *)

(** What a thread holds: a call returns in the slice of its last access, so
    that the verifier knows. *)
Definition status (v : Verifier) (th : nat) : Z := status_of SharedMutexVerifier.FREE v th.
Definition holds (v : Verifier) (th : nat) : Prop := status v th = SharedMutexVerifier.WRITER.
Definition shares (v : Verifier) (th : nat) : Prop := status v th = SharedMutexVerifier.READER.

(** The word and the specification count the same readers, or have a writer. *)
Definition lock_ok (bits : Z) (s : SharedMutex.SharedLinearMutex) (v : Verifier) (R : gset nat) : Prop :=
  (∀ th, th ∈ R ↔ shares v th) ∧
  ((bits = encode (mk_Fields (Z.of_nat (size R)) false false) ∧ SharedMutex.locked_state s = Z.of_nat (size R) ∧ ∀ th, ¬ holds v th) ∨
   (bits = encode (mk_Fields 0 false true) ∧ SharedMutex.locked_state s = SharedMutex.WRITER ∧ R = ∅ ∧
    ∃ th, ∀ th', holds v th' ↔ th' = th)).

(** The methods a thread may run while it holds what the verifier says, and
    their frames. *)
Definition may_run (name : string) (st : Z) : Prop :=
  (name = "lock" ∧ st = SharedMutexVerifier.FREE) ∨ (name = "lock_shared" ∧ st = SharedMutexVerifier.FREE) ∨
  (name = "unlock" ∧ st = SharedMutexVerifier.WRITER) ∨ (name = "unlock_shared" ∧ st = SharedMutexVerifier.READER).

(** No method takes effect before its last slice. *)
Definition phase_of (f : frame) (name : string) (args : tuple) (p : phase) : Prop :=
  p = None ∧ match f with
  | LockTry _ | LockYield _ => name = "lock"
  | UnlockAnd => name = "unlock"
  | SharedTry _ | SharedYield _ => name = "lock_shared"
  | SharedSub => name = "unlock_shared"
  end.

Section points.
(** The word has room for [N] readers. *)
Context (N : nat) (HN : Z.of_nat N < 2 ^ 29 - 1).

Record rw_inv (v : Verifier) (w : World) (look : Look) (s : SharedMutex.SharedLinearMutex) : Prop := {
  ri_one : one_running look;
  ri_threads : ∀ th i c, look (th, i) = Some c → (th < N)%nat;
  ri_running : ∀ th i c, look (th, i) = Some c → IsReturned c = false → may_run (name c) (status v th);
  ri_lock : ∃ R : gset nat, R ⊆ set_seq 0 N ∧ lock_ok (state w) s v R;
}.

(** There is room for one more reader. *)
Lemma readers_fit (R : gset nat) : R ⊆ set_seq 0 N → 0 <= Z.of_nat (size R) < 2 ^ 29 - 1.
Proof using HN. intros H%subseteq_size. rewrite size_set_seq in H. lia. Qed.

Lemma status_insert (v : Verifier) th x th' :
  status (<[th := x]> v) th' = if decide (th = th') then x else status v th'.
Proof. apply status_of_insert. Qed.

(** [try_lock] that succeeds. *)
Lemma lock_takes bits s v R th bits' :
  lock_ok bits s v R → try_lock bits = (true, bits') → status v th = SharedMutexVerifier.FREE →
  SharedMutex.lock s = (0, SharedMutex.mk_SharedMutex SharedMutex.WRITER) ∧
  lock_ok bits' (SharedMutex.mk_SharedMutex SharedMutex.WRITER) (<[th := SharedMutexVerifier.WRITER]> v) R.
Proof.
  intros [HR [(-> & Hs & Hno)|(-> & _)]] H Hst; rewrite try_lock_encode in H; case_bool_decide as E; try done.
  injection H as <-. injection E as E. assert (R = ∅) as -> by (apply leibniz_equiv, size_empty_iff; lia). split.
  - unfold SharedMutex.lock. by rewrite Hs, E.
  - split; [|right; split_and!; [done..|]].
    + intros th'. rewrite HR. unfold shares. rewrite status_insert. case_decide as Hth; [|done].
      rewrite <-Hth, Hst. done.
    + exists th. intros th'. unfold holds. rewrite status_insert. case_decide as Hth; [done|].
      split; [|by intros <-]. intros Hw. by destruct (Hno th').
Qed.

Lemma lock_fails bits bits' : try_lock bits = (false, bits') → bits' = bits.
Proof. unfold try_lock, compare_exchange_strong. case_match; congruence. Qed.

(** [try_lock_shared]. *)
Lemma shared_takes bits s v R th bits' :
  lock_ok bits s v R → R ⊆ set_seq 0 N → (th < N)%nat → try_lock_shared bits = (true, bits') →
  status v th = SharedMutexVerifier.FREE →
  ∃ s' (R' : gset nat), SharedMutex.lock_shared s = (0, s') ∧ R' ⊆ set_seq 0 N ∧
    lock_ok bits' s' (<[th := SharedMutexVerifier.READER]> v) R'.
Proof using HN.
  intros [HR [(-> & Hs & Hno)|(-> & _)]] Hsub Hth H Hst; pose proof (readers_fit R Hsub) as Hfit;
    rewrite try_lock_shared_encode in H by (unfold fits; cbn [readers]; lia); cbn in H; [|done]. injection H as <-.
  assert (th ∉ R) as Hnin by (rewrite HR; unfold shares; by rewrite Hst).
  assert (Z.of_nat (size ({[th]} ∪ R)) = Z.of_nat (size R) + 1) as Esz.
  { rewrite size_union, size_singleton by set_solver. lia. }
  eexists _, ({[th]} ∪ R). split_and!.
  - unfold SharedMutex.lock_shared. rewrite Hs.
    destruct (Z.eqb_spec (Z.of_nat (size R)) SharedMutex.WRITER) as [E|_]; [unfold SharedMutex.WRITER in E; lia|done].
  - intros x [->%elem_of_singleton|Hx]%elem_of_union; [apply elem_of_set_seq; lia|by apply Hsub].
  - split; [|left; split_and!].
    + intros th'. rewrite elem_of_union, elem_of_singleton, HR. unfold shares. rewrite status_insert.
      case_decide as E; [naive_solver|]. naive_solver.
    + by rewrite Esz.
    + cbn [SharedMutex.locked_state]. rewrite ?Hs, Esz. apply wrap32_id. unfold in_int32, SharedMutex.READER. lia.
    + intros th'. unfold holds. rewrite status_insert. case_decide; [done|apply Hno].
Qed.

Lemma shared_fails bits s v R bits' :
  lock_ok bits s v R → R ⊆ set_seq 0 N → try_lock_shared bits = (false, bits') → bits' = bits.
Proof using HN.
  intros [_ [(-> & _)|(-> & _)]] Hsub H; pose proof (readers_fit R Hsub) as Hfit;
    rewrite try_lock_shared_encode in H by (unfold fits; cbn [readers]; lia); cbn in H; congruence.
Qed.

(** [unlock] and [unlock_shared]. *)
Lemma lock_releases bits s v R th :
  lock_ok bits s v R → holds v th →
  unlock bits = (0, encode free) ∧
  lock_ok (encode free) (SharedMutex.mk_SharedMutex SharedMutex.FREE) (<[th := SharedMutexVerifier.FREE]> v) R.
Proof.
  intros [HR [(_ & _ & Hno)|(-> & _ & -> & t & Ht)]] Hth; [by destruct (Hno th)|].
  rewrite unlock_encode. split; [done|]. split; [|left; split_and!; [done..|]].
  - intros th'. rewrite HR. unfold shares. rewrite status_insert. case_decide as E; [|done].
    rewrite <-E. unfold holds in Hth. by rewrite Hth.
  - intros th'. unfold holds. rewrite status_insert. case_decide as E; [done|].
    intros ->%Ht. apply Ht in Hth. congruence.
Qed.

Lemma shared_releases bits s v R th :
  lock_ok bits s v R → R ⊆ set_seq 0 N → shares v th →
  ∃ bits' s' (R' : gset nat), unlock_shared bits = (0, bits') ∧ SharedMutex.unlock_shared s = (0, s') ∧
    R' ⊆ set_seq 0 N ∧ lock_ok bits' s' (<[th := SharedMutexVerifier.FREE]> v) R'.
Proof using HN.
  intros [HR [(-> & Hs & Hno)|(_ & _ & -> & _)]] Hsub Hth; [|by apply HR, elem_of_empty in Hth].
  pose proof (readers_fit R Hsub) as Hfit. apply HR in Hth as Hin.
  assert (Z.of_nat (size (R ∖ {[th]})) = Z.of_nat (size R) - 1) as Esz.
  { assert ({[th]} ⊆ R) as Hsing by set_solver. pose proof (subseteq_size _ _ Hsing).
    rewrite size_difference, size_singleton in * by done. lia. }
  eexists _, _, (R ∖ {[th]}). split_and!; [|done|set_solver|].
  - apply unlock_shared_encode; unfold fits; cbn [readers]; lia.
  - split; [|left; split_and!].
    + intros th'. rewrite elem_of_difference, elem_of_singleton, HR. unfold shares. rewrite status_insert.
      case_decide as E; naive_solver.
    + by rewrite Esz.
    + cbn [SharedMutex.locked_state]. rewrite ?Hs, Esz. apply wrap32_id. unfold in_int32, SharedMutex.READER. lia.
    + intros th'. unfold holds. rewrite status_insert. case_decide; [done|apply Hno].
Qed.

(** ** Steps *)

(** A task that has yielded, and one that has returned. *)
Lemma rw_stays v w look s w' look' r c c' :
  rw_inv v w look s → look r = Some c → IsReturned c = false → updated look look' r c' →
  name c' = name c → state w' = state w → rw_inv v w' look' s.
Proof.
  intros [Hone Hth Hrun Hl] Hc Hr Hup En Hw. pose proof Hup as [Hnew Hold]. split.
  - by eapply one_running_updated.
  - intros th i x Hx. destruct (decide ((th, i) = r)) as [<-|Hn]; [by eapply Hth|]. rewrite Hold in Hx by done. by eapply Hth.
  - intros th i x Hx Hrx. destruct (decide ((th, i) = r)) as [<-|Hn].
    + assert (x = c') as -> by congruence. rewrite En. by eapply Hrun.
    + rewrite Hold in Hx by done. by eapply Hrun.
  - by rewrite Hw.
Qed.

Lemma rw_returns v w look s x s' w' look' r c c' (R : gset nat) :
  rw_inv v w look s → look r = Some c → IsReturned c = false → updated look look' r c' → IsReturned c' = true →
  R ⊆ set_seq 0 N → lock_ok (state w') s' (<[r.1 := x]> v) R → rw_inv (<[r.1 := x]> v) w' look' s'.
Proof.
  intros [Hone Hth Hrun _] Hc Hr Hup Hr' HR Hl. pose proof Hup as [Hnew Hold].
  pose proof (one_running_returned _ _ _ _ _ Hone Hc Hr Hup Hr') as Hidle. split; [by eapply one_running_updated| | |by exists R].
  - intros th i y Hy. destruct (decide ((th, i) = r)) as [<-|Hn]; [by eapply Hth|]. rewrite Hold in Hy by done. by eapply Hth.
  - intros th i y Hy Hry. destruct (decide (th = r.1)) as [->|Hn]; [by rewrite (Hidle _ _ Hy) in Hry|].
    rewrite status_insert, decide_False by done. rewrite Hold in Hy by (intros <-; by apply Hn). by eapply Hrun.
Qed.

(** What the verifier is told. *)
Lemma told_returned c' th (v v' : Verifier) :
  told c' th v v' → IsReturned c' = true →
  (name c' = "lock" → v' = <[th := SharedMutexVerifier.WRITER]> v) ∧
  (name c' = "unlock" → v' = <[th := SharedMutexVerifier.FREE]> v) ∧
  (name c' = "lock_shared" → v' = <[th := SharedMutexVerifier.READER]> v) ∧
  (name c' = "unlock_shared" → v' = <[th := SharedMutexVerifier.FREE]> v).
Proof.
  unfold told. intros H Hr. rewrite Hr in H. destruct H as [new H]. simpl in H. unfold SharedMutexVerifier.OnFinished in H.
  split_and!; intros E; rewrite E in H; by injection H.
Qed.

Lemma performs_int n args s f s' :
  spec !! n = Some (SharedMutex.int_method f) → f s = (0, s') → performs spec n args s (ValueWrapper_of 0) s'.
Proof.
  intros Hn Hf. exists (SharedMutex.int_method f), (ValueWrapper_of 0). split_and!; [done| |apply vw_eq_of_refl].
  unfold SharedMutex.int_method. by rewrite Hf.
Qed.

(** The slice of a task either spins, or takes effect and returns. *)
Definition slice_ok (n : string) (args : tuple) (th : nat) (v : Verifier) (s : SharedMutex.SharedLinearMutex) (bits : Z) (sl : slice) : Prop :=
  match sl with
  | Yielded f' bits' _ _ _ => bits' = bits ∧ phase_of f' n args None
  | Returned x bits' _ =>
      ∃ s' (R : gset nat) st, performs spec n args s x s' ∧ R ⊆ set_seq 0 N ∧ lock_ok bits' s' (<[th := st]> v) R ∧
        ∀ c' v', told c' th v v' → IsReturned c' = true → name c' = n → v' = <[th := st]> v
  end.

Lemma slice_correct f n args th v s bits ts sl (R : gset nat) :
  phase_of f n args None → may_run n (status v th) → (th < N)%nat →
  R ⊆ set_seq 0 N → lock_ok bits s v R → run_slice f bits ts = Ok sl → slice_ok n args th v s bits sl.
Proof using HN.
  intros [_ Hn] Hmay Hth Hsub Hl H.
  assert (∀ c' v', told c' th v v' → IsReturned c' = true → name c' = n → _) as Htold
    by (intros c' v' Ht Hr <-; exact (told_returned _ _ _ _ Ht Hr)).
  destruct f; cbn in Hn; subst n; unfold run_slice, code, spin in H.
  - destruct (try_lock bits) as [[] bits'] eqn:E; injection H as <-.
    + assert (status v th = SharedMutexVerifier.FREE) as Hst by (destruct Hmay as [[_ ?]|[[? _]|[[? _]|[? _]]]]; done).
      destruct (lock_takes _ _ _ _ _ _ Hl E Hst) as [Hp Hl']. eexists _, R, _.
      split_and!; [by eapply performs_int|done|exact Hl'|]. intros c' v' Ht Hr Hc'. destruct (Htold _ _ Ht Hr Hc') as (? & ? & ? & ?). auto.
    + split; [by eapply lock_fails|]. by case_match.
  - injection H as <-. done.
  - assert (holds v th) as Hst by (destruct Hmay as [[? _]|[[? _]|[[_ ?]|[? _]]]]; done).
    destruct (lock_releases _ _ _ _ _ Hl Hst) as [E Hl']. rewrite E in H. injection H as <-. eexists _, R, _.
    split_and!; [by eapply performs_int|done|exact Hl'|]. intros c' v' Ht Hr Hc'. destruct (Htold _ _ Ht Hr Hc') as (? & ? & ? & ?). auto.
  - destruct (try_lock_shared bits) as [[] bits'] eqn:E; injection H as <-.
    + assert (status v th = SharedMutexVerifier.FREE) as Hst by (destruct Hmay as [[? _]|[[_ ?]|[[? _]|[? _]]]]; done).
      destruct (shared_takes _ _ _ _ _ _ Hl Hsub Hth E Hst) as (s' & R' & Hp & Hsub' & Hl'). eexists _, R', _.
      split_and!; [by eapply performs_int|done|exact Hl'|]. intros c' v' Ht Hr Hc'. destruct (Htold _ _ Ht Hr Hc') as (? & ? & ? & ?). auto.
    + split; [by eapply shared_fails|]. by case_match.
  - injection H as <-. done.
  - assert (shares v th) as Hst by (destruct Hmay as [[? _]|[[? _]|[[? _]|[_ ?]]]]; done).
    destruct (shared_releases _ _ _ _ _ Hl Hsub Hst) as (bits' & s' & R' & E & Hp & Hsub' & Hl').
    rewrite E in H. injection H as <-. eexists _, R', _.
    split_and!; [by eapply performs_int|done|exact Hl'|]. intros c' v' Ht Hr Hc'. destruct (Htold _ _ Ht Hr Hc') as (? & ? & ? & ?). auto.
Qed.

Lemma rw_step v v' w look s r c c' w' look' p :
  rw_inv v w look s → look r = Some c → IsReturned c = false → in_phase phase_of c p →
  Resume c w = Ok (c', w') → updated look look' r c' → told c' r.1 v v' →
  (rw_inv v' w' look' s ∧ in_phase phase_of c' p) ∨
  (p = None ∧ ∃ x s', performs spec (name c) (args c) s x s' ∧ rw_inv v' w' look' s' ∧ in_phase phase_of c' (Some x)).
Proof using HN.
  intros HI Hc Hret Hph HR Hup Htold.
  destruct (Resume_frame _ _ _ _ HR) as (f & sl & Hctx & Hsl & Hst & _ & En & Ea & _ & Hc').
  unfold in_phase in Hph. rewrite Hret, Hctx in Hph. destruct Hph as (f0 & [= <-] & Hph).
  pose proof (proj1 Hph) as ->. destruct r as [th i]. destruct (ri_lock _ _ _ _ HI) as (R & Hsub & Hl).
  pose proof (slice_correct _ _ _ th _ _ _ _ _ R Hph (ri_running _ _ _ _ HI _ _ _ Hc Hret) (ri_threads _ _ _ _ HI _ _ _ Hc)
    Hsub Hl Hsl) as Hok.
  destruct sl as [f' bits' ts' b st|x bits' ts']; cbn [slice_ok slice_obj] in *.
  - left. destruct Hok as [-> Hph']. destruct Hc' as [Hr' Hf'].
    assert (v' = v) as -> by (unfold told in Htold; by rewrite Hr' in Htold). split; [by eapply rw_stays|].
    unfold in_phase. rewrite Hr', En, Ea. by exists f'.
  - right. split; [done|]. destruct Hok as (s' & R' & x' & Hp & Hsub' & Hl' & Hv). destruct Hc' as [Hr' Hx].
    exists x, s'. split; [done|]. rewrite (Hv c' v' Htold Hr' En). split.
    + eapply (rw_returns v w look s x' s' w' look' (th, i) c c' R'); try done. by rewrite Hst.
    + unfold in_phase. by rewrite Hr', Hx.
Qed.

(** What asking the verifier says about the thread. *)
Lemma asked_may_run (v : Verifier) th n (v' : Verifier) :
  asked v th n v' → (∀ th', status v' th' = status v th') ∧ may_run n (status v th).
Proof.
  assert (∀ v m n ok (v' : Verifier), Verify (mk_Created m n th) v = Ok (ok, v') →
    (∀ th', status v' th' = status v th') ∧ (ok = true → may_run m (status v th))) as Hverify.
  { clear. intros v m n ok v' H. unfold status, may_run. simpl in H. unfold SharedMutexVerifier.Verify in H. cbn [ct_name ct_thread_id] in H.
    destruct (String.eqb_spec m "lock") as [?|];
      [|destruct (String.eqb_spec m "unlock") as [?|];
        [|destruct (String.eqb_spec m "lock_shared") as [?|];
          [|destruct (String.eqb_spec m "unlock_shared") as [?|]; [|done]]]];
      injection H as <- <-; (split; [intros th'; apply with_status_of|]);
      rewrite with_status_of; intros E%Z.eqb_eq; auto. }
  induction 1 as [v th n v' H|v th m n v1 v' H _ IH]; destruct (Hverify _ _ _ _ _ H) as [Hs Hok].
  - split; [done|]. by apply Hok.
  - destruct (IH Hverify) as [Hs' Hn]. split; [intros th'; by rewrite Hs'|]. by rewrite Hs in Hn.
Qed.

(** A new task stands at the first access of its method. *)
Lemma Build_rw bd th id w c w' :
  bd ∈ task_builders → generated_token w = None → Build bd th id w = Ok (c, w') →
  IsReturned c = false ∧ IsParked c w' = false ∧ state w' = state w ∧ known spec (name c) (args c) ∧
  in_phase phase_of c None.
Proof.
  assert (∀ n f args, spec !! n = Some (SharedMutex.int_method f) → known spec n args) as Hk.
  { intros n f a E. eexists. split; [exact E|]. intros s. unfold SharedMutex.int_method. destruct (f s). by eexists. }
  unfold Build. intros Hbd Hgen H.
  repeat (apply elem_of_cons in Hbd as [->|Hbd]; [simpl in H; rewrite Hgen in H; injection H as <- <-;
    (split_and!; [done..|by eapply Hk|by eexists])|]).
  by apply elem_of_nil in Hbd.
Qed.

Lemma rw_new v v' w look s bd id c w' look' r :
  rw_inv v w look s → bd ∈ task_builders → (r.1 < N)%nat → generated_token w = None → Build bd r.1 id w = Ok (c, w') →
  thread_idle look r.1 → asked v r.1 (name c) v' → updated look look' r c → rw_inv v' w' look' s.
Proof.
  intros [Hone Hth Hrun (R & Hsub & HR & Hl)] Hbd Hr Hgen Hb Hidle [Hv Hn]%asked_may_run Hup.
  destruct (Build_rw _ _ _ _ _ _ Hbd Hgen Hb) as (_ & _ & Hst & _). pose proof Hup as [Hnew Hold]. split.
  - by eapply one_running_new.
  - intros th i x Hx. destruct (decide ((th, i) = r)) as [<-|Hne]; [done|]. rewrite Hold in Hx by done. by eapply Hth.
  - intros th i x Hx Hrx. rewrite Hv. destruct (decide ((th, i) = r)) as [<-|Hne].
    + by assert (x = c) as -> by congruence.
    + rewrite Hold in Hx by done. by eapply Hrun.
  - exists R. split; [done|]. rewrite Hst. unfold lock_ok, shares, holds. setoid_rewrite Hv. by split.
Qed.

Lemma rw_look v w look look' s :
  rw_inv v w look s → (∀ u, option_Forall2 same_but_futex (look u) (look' u)) → rw_inv v w look' s.
Proof.
  intros [Hone Hth Hrun HR] Hl. split; [by eapply one_running_look| | |done].
  - intros th i x Hx. destruct (look_back _ _ _ _ Hl Hx) as (y & Hy & _). by eapply Hth.
  - intros th i x Hx Hr. destruct (look_back _ _ _ _ Hl Hx) as (y & Hy & E). rewrite E in Hr |- *. by eapply (Hrun th i y).
Qed.

Lemma rw_fresh v w look :
  v = Verifier_init ∨ (∃ v0, v = Verifier_Reset v0) → state w = target_init ∨ (∃ o, state w = target_Reset o) →
  (∀ r, look r = None) → rw_inv v w look SharedMutex.init.
Proof using Type.
  clear HN. intros Hv Hw Hlook. assert (v = ∅) as -> by (destruct Hv as [?|[v0 ?]]; done).
  assert (state w = 0) as E by (destruct Hw as [?|[o ?]]; done).
  split; [intros th i j c d Hc|intros th i c Hc|intros th i c Hc|]; [by rewrite Hlook in Hc..|].
  exists ∅. split; [set_solver|]. rewrite E. split; [|by left]. intros th. split; [set_solver|done].
Qed.

Lemma rw_comparable name args s v s' m s1 res s1' :
  performs spec name args s v s' → spec !! name = Some m → m s1 args = Ok (res, s1') → comparable res v.
Proof.
  assert (∀ n m s args res s', spec !! n = Some m → m s args = Ok (res, s') → ∃ z : Z, res = ValueWrapper_of z) as Hint.
  { clear. intros n m s args res s' Hm Hres. unfold spec, SharedMutex.GetMethods in Hm.
    repeat (apply lookup_insert_Some in Hm as [[_ <-]|[_ Hm]];
      [unfold SharedMutex.int_method in Hres; case_match; injection Hres as <- _; by eexists|]).
    by rewrite lookup_empty in Hm. }
  intros (m0 & res0 & Hm0 & Hres0 & Hv) Hm Hres.
  destruct (Hint _ _ _ _ _ _ Hm0 Hres0) as [z ->], (Hint _ _ _ _ _ _ Hm Hres) as [z' ->].
  eapply comparable_default. by eexists.
Qed.

#[export] Instance points : LinPoints spec SharedMutex.init.
Proof using HN.
  refine {| lp_inv := rw_inv; lp_phase := phase_of; lp_runnable c _ := IsReturned c = false; lp_told := told;
            lp_builder bd := bd ∈ task_builders; lp_fits th := (th < N)%nat; lp_asks := asked;
            lp_start look v th n v' := thread_idle look th ∧ asked v th n v' |}.
  - by intros c w (? & _).
  - done.
  - done.
  - intros v v' bd id w c w' look look' r s Hbd Hfit Hgen HI Hb [Hidle Hasked] Hr Hup.
    destruct (Build_rw _ _ _ _ _ _ Hbd Hgen Hb) as (_ & ? & _ & ? & ?). split_and!; [by eapply rw_new|done..].
  - apply rw_step.
  - apply rw_look.
  - apply rw_comparable.
  - apply rw_fresh.
Defined.

Section rounds.
Context `{HS : !Strategy} `{HL : !StrategyLaws} `{HSA : !StrategyAsks asked} `{HMC : ModelChecker}.
Context (inner : nat).

(** C13: RWSpinLock excludes.  In every state of a round of [N] threads, under
    any strategy that asks SharedMutexVerifier before it starts a call, one
    thread at most holds the lock for writing, none shares it then, and the word
    is [WRITER] if one holds it and [READER] times the number of threads that
    share it otherwise. *)
Theorem rwspinlock_excludes h s :
  LinPoints.reached spec SharedMutex.init inner h s →
  let v := sched_checker (base s) in
  (∀ th th', holds v th → holds v th' → th = th') ∧
  (∀ th th', holds v th → ¬ shares v th') ∧
  ∃ R : gset nat, (∀ th, th ∈ R ↔ shares v th) ∧
    (state (world (base s)) = READER * Z.of_nat (size R) ∧ (∀ th, ¬ holds v th) ∨
     state (world (base s)) = WRITER ∧ ∃ th, holds v th).
Proof using All.
  intros Hre v. destruct (reached_linearizing _ _ _ _ _ Hre) as (_ & _ & ops & q & Hlin).
  destruct (ri_lock _ _ _ _ (li_inv _ _ _ _ _ _ Hlin)) as (R & _ & HR & [(E & _ & Hno)|(E & _ & -> & t & Ht)]).
  - split; [intros th th' Hth; by destruct (Hno th)|]. split; [intros th th' Hth; by destruct (Hno th)|].
    exists R. split; [done|]. left. split; [|done]. rewrite E. unfold encode, READER. cbn. lia.
  - split; [intros th th' Hth%Ht Hth'%Ht; congruence|]. split; [intros th th' _ H%HR; set_solver|].
    exists ∅. split; [done|]. right. split; [done|]. exists t. by apply Ht.
Qed.
End rounds.
End points.
End RWSpinLock.
