(* ===== verification/MutexedRegister.v ===== *)
(** * MutexedRegister: a register behind std::mutex
      (verifying/blocking/mutexed_register.cpp)

    [add] and [get] run under a [lock_guard].  The code of [std::mutex] is the C
    library's: it is a parameter ([StdMutex]) with the contract of the C++
    standard ([StdMutexLaws]), except that its system calls end in the hook of
    Blocking.v, so that a contended [lock] is a task that waits on a futex.  The
    accesses to [x_] are followed by yields, although a task may be
    switched away from while it holds the mutex.  [add] takes effect at its
    store and [get] at its load. *)

From Stdlib Require Import ZArith Lia.
From stdpp Require Import base gmap strings option list.
From S2P Require Import Prelude ValueWrapper History Linearizability Specs Coro Strategy Scheduler Blocking LinPoints AtomicRegister.

(** How far [lock] comes until it owns the mutex or makes its next system call,
    [futex(addr, FUTEX_WAIT_PRIVATE, val)]. *)
Inductive lock_end {mtx lock_frame : Type} :=
| Acquired (m : mtx)
| Contended (lf : lock_frame) (m : mtx) (addr val : Z).
Arguments lock_end : clear implicits.

(** [std::mutex]. *)
Class StdMutex := {
  mtx : Type;
  mtx_init : mtx;
  (** A suspended [lock], and its entry. *)
  lock_frame : Type;
  lock_entry : lock_frame;
  lock : lock_frame → mtx → lock_end mtx lock_frame;
  (** [unlock], and the address at which it wakes a waiter by a system call. *)
  unlock : mtx → mtx * option Z;
  (** The words of the mutex that futex calls are given. *)
  mtx_word : mtx → Z → Z;
}.

(** A mutex that nobody has locked is not owned; [lock] returns as its only
    owner; the owner's [unlock] releases it. *)
Class StdMutexLaws `{StdMutex} := {
  owned : mtx → bool;
  init_owned : owned mtx_init = false;
  lock_acquires lf m m' : lock lf m = Acquired m' → owned m = false ∧ owned m' = true;
  lock_waits lf m lf' m' a v : lock lf m = Contended lf' m' a v → owned m' = owned m;
  unlock_releases m : owned m = true → owned (unlock m).1 = false;
}.

Module MutexedRegister.

(** The program points of the two methods. *)
Inductive frame `{StdMutex} :=
| AddLock (lf : lock_frame)      (* inside [lock_guard lock{m_}] *)
| AddStore (x : Z)               (* before the store of [++x_], with the value loaded *)
| AddUnlock                      (* before the destructor of the guard *)
| AddReturn                      (* behind the system call of [unlock] *)
| GetLock (lf : lock_frame)
| GetUnlock (x : Z)
| GetReturn (x : Z).

(** [struct Register]. *)
Record Register `{StdMutex} := mk_Register { x_ : Z; m_ : mtx }.

Arguments frame : clear implicits.
Arguments frame {_}.
Arguments AddLock {_} _.
Arguments AddStore {_} _.
Arguments AddUnlock {_}.
Arguments AddReturn {_}.
Arguments GetLock {_} _.
Arguments GetUnlock {_} _.
Arguments GetReturn {_} _.
Arguments Register : clear implicits.
Arguments Register {_}.
Arguments mk_Register {_} _ _.
Arguments x_ {_} _.
Arguments m_ {_} _.

Section target.
Context `{HM : StdMutex}.

(** [Reset] locks and unlocks too; nobody holds the mutex between rounds, all the
    methods having returned. *)
Definition Reset (o : Register) : Register :=
  match lock lock_entry (m_ o) with
  | Acquired m => mk_Register 0 (unlock m).1
  | Contended _ m _ _ => mk_Register 0 m
  end.

#[export] Instance target : Target := {|
  TargetObj := Register;
  Frame := frame;
  target_init := mk_Register 0 mtx_init;
  target_Reset := Reset;
  read_word o a := mtx_word (m_ o) a;
  start name _ := if String.eqb name "add" then AddLock lock_entry else GetLock lock_entry;
|}.

(** A futex call, which the hook turns into a yield. *)
Definition futex (addr op val : Z) (f : frame) (o : Register) (ts : Tokens) : outcome slice :=
  a ← Hook.hook true Hook.SYS_futex addr op val;
  match a with
  | Hook.Forwarded => Fail (Undefined "futex")
  | Hook.Yields blocked => Ok (Yielded f o ts blocked None)
  end.

(** The guard's constructor, and what is done once it owns the mutex. *)
Definition lock_guard (lf : lock_frame) (waiting : lock_frame → frame) (o : Register) (ts : Tokens)
    (body : Register → outcome slice) : outcome slice :=
  match lock lf (m_ o) with
  | Acquired m => body (mk_Register (x_ o) m)
  | Contended lf m addr val => futex addr Hook.FUTEX_WAIT_PRIVATE val (waiting lf) (mk_Register (x_ o) m) ts
  end.

(** Its destructor, and the return of [v]. *)
Definition unlock_guard (v : ValueWrapper) (behind : frame) (o : Register) (ts : Tokens) : outcome slice :=
  match unlock (m_ o) with
  | (m, None) => Ok (Returned v (mk_Register (x_ o) m) ts)
  | (m, Some addr) => futex addr Hook.FUTEX_WAKE_PRIVATE 1 behind (mk_Register (x_ o) m) ts
  end.

#[export] Instance code : Code := λ f o ts,
  match f with
  | AddLock lf => lock_guard lf AddLock o ts (λ o, yields (AddStore (x_ o)) o ts)
  | AddStore v => yields AddUnlock (mk_Register (wrap32 (v + 1)) (m_ o)) ts
  | AddUnlock => unlock_guard void_v AddReturn o ts
  | AddReturn => Ok (Returned void_v o ts)
  | GetLock lf => lock_guard lf GetLock o ts (λ o, yields (GetUnlock (x_ o)) o ts)
  | GetUnlock v => unlock_guard (ValueWrapper_of v) (GetReturn v) o ts
  | GetReturn v => Ok (Returned (ValueWrapper_of v) o ts)
  end.
End target.

(** [target_method(genEmpty, ...)], twice. *)
Definition task_builders `{StdMutex} : list TaskBuilder := TargetMethod "get" genEmpty (TargetMethod "add" genEmpty []).

(** [ltest::Spec]. *)
Definition spec : gmap string (SpecMethod Register.LinearRegister) := Register.GetMethods.

(** ** Mutual exclusion *)

Section correct.
Context `{HM : StdMutex} `{HML : !StdMutexLaws} `{HV : StrategyVerifier}.

(** The owner's part of the methods. *)
Definition in_section (f : frame) : bool :=
  match f with AddStore _ | AddUnlock | GetUnlock _ => true | _ => false end.

Definition at_frame (look : Look) (r : TaskRef) (f : frame) : Prop :=
  ∃ c, look r = Some c ∧ IsReturned c = false ∧ ctx c = Some f.

(** At most one task is in the section, the mutex is owned then, and the value
    it has loaded is still the value of [x_]. *)
Record mr_inv (w : World) (look : Look) (s : Register.LinearRegister) : Prop := {
  mr_x : x_ (state w) = Register.x s;
  mr_owned r f : at_frame look r f → in_section f = true → owned (m_ (state w)) = true;
  mr_one r r' f f' : at_frame look r f → at_frame look r' f' → in_section f = true → in_section f' = true → r = r';
  mr_value r v : at_frame look r (AddStore v) → v = x_ (state w);
}.

Lemma at_frame_fun look r f f' : at_frame look r f → at_frame look r f' → f = f'.
Proof. intros (c & Hc & _ & Hf) (c' & Hc' & _ & Hf'). congruence. Qed.

Lemma at_frame_other look look' r c u f : updated look look' r c → u ≠ r → at_frame look' u f → at_frame look u f.
Proof. intros [_ Hold] Hu (d & Hd & ?). exists d. by rewrite Hold in Hd. Qed.

(** A step of the task in slot [r] from [f]. *)
Lemma mr_update w w' look look' r c' f s s' :
  mr_inv w look s → at_frame look r f → updated look look' r c' →
  (∀ f', at_frame look' r f' → in_section f' = true →
     (in_section f = true ∨ owned (m_ (state w)) = false) ∧ owned (m_ (state w')) = true) →
  in_section f = true ∨ x_ (state w') = x_ (state w) ∧
    (owned (m_ (state w)) = true → owned (m_ (state w')) = true) →
  (∀ v, at_frame look' r (AddStore v) → v = x_ (state w')) → x_ (state w') = Register.x s' →
  mr_inv w' look' s'.
Proof.
  intros [Hx Ho H1 Hv] Hf Hup Hin Hout Hval Hx'.
  (* no other task is in the section when this one was or now is *)
  assert (∀ u g, u ≠ r → at_frame look u g → in_section g = true →
    in_section f = false ∧ ∀ f', at_frame look' r f' → in_section f' = false) as Hothers.
  { intros u g Hu Hg Hs. destruct (in_section f) eqn:E; [by destruct Hu; eapply H1|]. split; [done|].
    intros f' Hf'. destruct (in_section f') eqn:E'; [|done].
    destruct (Hin f' Hf' E') as [[?|Hno] _]; [done|]. rewrite (Ho u g) in Hno; done. }
  split; [done| | |].
  - intros u g Hg Hs. destruct (decide (u = r)) as [->|Hu]; [by apply (Hin g)|].
    apply (at_frame_other _ _ _ _ _ _ Hup Hu) in Hg. destruct (Hothers u g Hu Hg Hs) as [E _].
    destruct Hout as [?|[_ Hm]]; [congruence|]. by apply Hm, (Ho u g).
  - intros u u' g g' Hg Hg' Hs Hs'. destruct (decide (u = r)) as [->|Hu], (decide (u' = r)) as [->|Hu']; [done|..].
    + apply (at_frame_other _ _ _ _ _ _ Hup Hu') in Hg'. destruct (Hothers u' g' Hu' Hg' Hs') as [_ E].
      rewrite (E g Hg) in Hs. done.
    + apply (at_frame_other _ _ _ _ _ _ Hup Hu) in Hg. destruct (Hothers u g Hu Hg Hs) as [_ E].
      rewrite (E g' Hg') in Hs'. done.
    + apply (H1 u u' g g'); [by eapply at_frame_other..|done|done].
  - intros u v Hg. destruct (decide (u = r)) as [->|Hu]; [by apply Hval|].
    apply (at_frame_other _ _ _ _ _ _ Hup Hu) in Hg. destruct (Hothers u _ Hu Hg eq_refl) as [E _].
    destruct Hout as [?|[-> _]]; [congruence|]. by apply (Hv u).
Qed.

Definition phase_of (f : frame) (name : string) (args : tuple) (p : phase) : Prop :=
  match f with
  | AddLock _ | AddStore _ => name = "add" ∧ p = None
  | AddUnlock | AddReturn => p = Some void_v
  | GetLock _ => name = "get" ∧ p = None
  | GetUnlock v | GetReturn v => p = Some (ValueWrapper_of v)
  end.

Lemma futex_Ok addr op val f o ts sl :
  futex addr op val f o ts = Ok sl → ∃ blocked, sl = Yielded f o ts blocked None.
Proof.
  unfold futex. intros H. apply bind_Ok in H as ([|blocked] & _ & H); [done|]. injection H as <-. by eexists.
Qed.

(** Where the task is before its slice and behind it. *)
Lemma running_at look look' r c c' f sl :
  look r = Some c → IsReturned c = false → ctx c = Some f → updated look look' r c' →
  match sl with
  | Yielded f' _ _ _ _ => IsReturned c' = false ∧ ctx c' = Some f'
  | Returned v _ _ => IsReturned c' = true ∧ ret c' = v
  end →
  at_frame look r f ∧ ∀ g, at_frame look' r g → match sl with Yielded f' _ _ _ _ => g = f' | Returned _ _ _ => False end.
Proof.
  intros Hc Hr Hf [Hnew _] Hc'. split; [by exists c|]. intros g (d & Hd & Hrd & Hg).
  assert (d = c') as -> by congruence. destruct sl; destruct Hc'; congruence.
Qed.

(** [add] and [get] in the specification. *)
Lemma performs_add args s : performs spec "add" args s void_v (Register.add s).
Proof. by exists Register.add_func, void_v. Qed.

Lemma performs_get args s : performs spec "get" args s (ValueWrapper_of (Register.x s)) s.
Proof.
  exists Register.get_func, (ValueWrapper_of (Register.x s)). split_and!; [done|done|apply vw_eq_of_refl].
Qed.

(** The law of a slice, for the object before and after it: what [mr_update]
    needs, and where the method takes effect. *)
Definition slice_ok (f : frame) (o : Register) (sl : slice) : Prop :=
  let o' := slice_obj sl in
  match sl with
  | Yielded f' _ _ _ _ =>
      (in_section f' = true → (in_section f = true ∨ owned (m_ o) = false) ∧ owned (m_ o') = true) ∧
      (in_section f = true ∨ x_ o' = x_ o ∧ (owned (m_ o) = true → owned (m_ o') = true)) ∧
      (∀ v, f' = AddStore v → v = x_ o')
  | Returned _ _ _ => in_section f = true ∨ x_ o' = x_ o ∧ m_ o' = m_ o
  end.

Lemma slice_ok_code f o ts sl :
  code f o ts = Ok sl → (in_section f = true → owned (m_ o) = true) → slice_ok f o sl.
Proof.
  intros Hsl Hown. unfold code in Hsl. unfold slice_ok.
  destruct f as [lf|v| | |lf|v|v]; unfold lock_guard, unlock_guard in Hsl.
  - destruct (lock lf (m_ o)) as [m|lf' m a x] eqn:Hl.
    + injection Hsl as <-. simpl. apply lock_acquires in Hl as [Hno Hyes].
      split_and!; [auto|right; split; [done|congruence]|congruence].
    + apply futex_Ok in Hsl as [b ->]. simpl. apply lock_waits in Hl.
      split_and!; [done|right; split; [done|congruence]|done].
  - injection Hsl as <-. simpl. split_and!; [intros _; split; [by left|by apply Hown]|by left|done].
  - destruct (unlock (m_ o)) as [m [a|]]; [apply futex_Ok in Hsl as [b ->]|injection Hsl as <-]; simpl; naive_solver.
  - injection Hsl as <-. simpl. naive_solver.
  - destruct (lock lf (m_ o)) as [m|lf' m a x] eqn:Hl.
    + injection Hsl as <-. simpl. apply lock_acquires in Hl as [Hno Hyes].
      split_and!; [auto|right; split; [done|congruence]|done].
    + apply futex_Ok in Hsl as [b ->]. simpl. apply lock_waits in Hl.
      split_and!; [done|right; split; [done|congruence]|done].
  - destruct (unlock (m_ o)) as [m [a|]]; [apply futex_Ok in Hsl as [b ->]|injection Hsl as <-]; simpl; naive_solver.
  - injection Hsl as <-. simpl. naive_solver.
Qed.

(** A method takes effect at its store, or at its load. *)
Lemma slice_point f o ts sl name args p s :
  code f o ts = Ok sl → phase_of f name args p → x_ o = Register.x s → (∀ v, f = AddStore v → v = x_ o) →
  let in_slice p := match sl with Yielded f' _ _ _ _ => phase_of f' name args p | Returned v _ _ => p = Some v end in
  (x_ (slice_obj sl) = Register.x s ∧ in_slice p) ∨
  (p = None ∧ ∃ v s', performs spec name args s v s' ∧ x_ (slice_obj sl) = Register.x s' ∧ in_slice (Some v)).
Proof.
  intros Hsl Hph Hx Hv. unfold code in Hsl.
  destruct f as [lf|v| | |lf|v|v]; unfold lock_guard, unlock_guard in Hsl; simpl in Hph.
  - destruct (lock lf (m_ o)); [injection Hsl as <-|apply futex_Ok in Hsl as [b ->]]; by left.
  - injection Hsl as <-. destruct Hph as [-> ->]. right. split; [done|]. exists void_v, (Register.add s).
    split_and!; [apply performs_add| |done]. simpl. by rewrite (Hv v eq_refl), Hx.
  - destruct (unlock (m_ o)) as [m [a|]]; [apply futex_Ok in Hsl as [b ->]|injection Hsl as <-]; by left.
  - injection Hsl as <-. by left.
  - destruct Hph as [-> ->]. destruct (lock lf (m_ o)); [injection Hsl as <-|apply futex_Ok in Hsl as [b ->]; by left].
    right. split; [done|]. exists (ValueWrapper_of (x_ o)), s. rewrite Hx. split_and!; [apply performs_get|done..].
  - destruct (unlock (m_ o)) as [m [a|]]; [apply futex_Ok in Hsl as [b ->]|injection Hsl as <-]; by left.
  - injection Hsl as <-. by left.
Qed.

Lemma mr_step w look s r c c' w' look' p :
  mr_inv w look s → look r = Some c → IsReturned c = false → in_phase phase_of c p →
  Resume c w = Ok (c', w') → updated look look' r c' →
  (mr_inv w' look' s ∧ in_phase phase_of c' p) ∨
  (p = None ∧ ∃ x s', performs spec (name c) (args c) s x s' ∧ mr_inv w' look' s' ∧ in_phase phase_of c' (Some x)).
Proof.
  intros HI Hc Hret Hph HR Hup.
  destruct (Resume_frame _ _ _ _ HR) as (f & sl & Hctx & Hsl & Hst & _ & En & Ea & _ & Hc').
  unfold in_phase in Hph. rewrite Hret, Hctx in Hph. destruct Hph as (f0 & [= <-] & Hph).
  destruct (running_at _ _ _ _ _ _ _ Hc Hret Hctx Hup Hc') as [Hat Hat'].
  pose proof (slice_ok_code _ _ _ _ Hsl (mr_owned _ _ _ HI r f Hat)) as Hok.
  assert (∀ s', x_ (state w') = Register.x s' → mr_inv w' look' s') as Hinv.
  { intros s' Hs'. apply (mr_update w w' look look' r c' f s s' HI Hat Hup); [..|done];
      rewrite Hst in *; unfold slice_ok in Hok.
    - intros g Hg. specialize (Hat' g Hg). destruct sl; [|done]. subst g. apply Hok.
    - destruct sl; [apply Hok|]. destruct Hok as [?|[-> ->]]; [by left|by right].
    - intros v Hg. specialize (Hat' _ Hg). destruct sl; [|done]. by apply Hok. }
  assert (∀ q, match sl with Yielded f' _ _ _ _ => phase_of f' (name c) (args c) q | Returned v _ _ => q = Some v end →
    in_phase phase_of c' q) as Hq.
  { intros q. unfold in_phase. rewrite En, Ea. destruct sl; destruct Hc' as [-> E]; rewrite E; eauto. }
  destruct (slice_point _ _ _ _ _ _ _ s Hsl Hph (mr_x _ _ _ HI)) as [[Hx Hin]|(-> & v & s' & Hp & Hx & Hin)].
  - intros v ->. by apply (mr_value _ _ _ HI r).
  - left. rewrite <-Hst in Hx. auto.
  - right. rewrite <-Hst in Hx. split; [done|]. exists v, s'. auto.
Qed.

(** A new task stands before the mutex. *)
Lemma Build_register bd th id w c w' :
  bd ∈ task_builders → generated_token w = None → Build bd th id w = Ok (c, w') →
  IsReturned c = false ∧ IsParked c w' = false ∧ state w' = state w ∧ known spec (name c) (args c) ∧
  ∃ f, ctx c = Some f ∧ in_section f = false ∧ phase_of f (name c) (args c) None.
Proof.
  unfold Build. intros Hbd Hgen H.
  apply elem_of_cons in Hbd as [->|Hbd%list_elem_of_singleton]; [|subst bd];
    simpl in H; rewrite Hgen in H; injection H as <- <-; split_and!; try done.
  - exists Register.add_func. split; [done|]. by eexists.
  - by exists (AddLock lock_entry).
  - exists Register.get_func. split; [done|]. by eexists.
  - by exists (GetLock lock_entry).
Qed.

Lemma mr_new w look s bd th id c w' look' r :
  mr_inv w look s → bd ∈ task_builders → generated_token w = None → Build bd th id w = Ok (c, w') →
  look r = None → updated look look' r c →
  mr_inv w' look' s ∧ IsParked c w' = false ∧ known spec (name c) (args c) ∧ in_phase phase_of c None.
Proof.
  intros [Hx Ho H1 Hv] Hbd Hgen Hb Hnone Hup.
  destruct (Build_register _ _ _ _ _ _ Hbd Hgen Hb) as (Hr & Hpark & Hst & Hkn & f & Hf & Hs & Hph).
  assert (∀ u g, at_frame look' u g → in_section g = true → at_frame look u g) as Hold.
  { intros u g Hg Hsg. destruct (decide (u = r)) as [->|Hu]; [|by eapply at_frame_other].
    assert (g = f) as ->; [|congruence]. eapply at_frame_fun; [exact Hg|]. exists c. split_and!; [apply Hup|done..]. }
  split_and!; [|done..|].
  - split; rewrite ?Hst; [done| | |]; intros.
    + eapply Ho; [by apply Hold|done].
    + eapply H1; [by apply Hold|by apply Hold|done..].
    + eapply Hv. by apply Hold.
  - unfold in_phase. rewrite Hr. eauto.
Qed.

Lemma mr_look w look look' s :
  mr_inv w look s → (∀ u, option_Forall2 same_but_futex (look u) (look' u)) → mr_inv w look' s.
Proof.
  intros [Hx Ho H1 Hv] Hl.
  assert (∀ r f, at_frame look' r f → at_frame look r f) as Hat.
  { intros r f (c' & Hc' & Hr & Hf). destruct (look_back _ _ _ _ Hl Hc') as (c & Hc & E).
    exists c. rewrite E in Hr, Hf. done. }
  split; [done|..]; intros; eauto.
Qed.

Lemma mr_fresh w look :
  state w = target_init ∨ (∃ o, state w = target_Reset o) → (∀ r, look r = None) → mr_inv w look Register.init.
Proof.
  intros Hw Hno. assert (∀ r f, ¬ at_frame look r f) as Hat by (intros r f (c & Hc & _); by rewrite Hno in Hc).
  split; [|naive_solver..].
  destruct Hw as [->|[o ->]]; [done|]. simpl. unfold Reset. by destruct (lock lock_entry (m_ o)).
Qed.

#[export] Instance points : LinPoints spec Register.init.
Proof.
  refine {| lp_inv _ w look s := mr_inv w look s; lp_phase := phase_of; lp_runnable c _ := IsReturned c = false;
            lp_told _ _ _ _ := True; lp_builder bd := bd ∈ task_builders; lp_fits _ := True;
            lp_asks _ _ _ _ := True; lp_start _ _ _ _ _ := True |}.
  - by intros c w (? & _).
  - done.
  - done.
  - intros v v' bd id w c w' look look' r s Hbd _ Hgen HI Hb _ Hnone Hup. by eapply mr_new.
  - intros v v' w look s r c c' w' look' p HI Hc Hr Hph HR Hup _. by eapply mr_step.
  - intros v w look look' s. apply mr_look.
  - exact AtomicRegister.register_comparable.
  - intros v w look _ Hw Hno. by apply mr_fresh.
Defined.

Section rounds.
Context `{HS : !Strategy} `{HL : !StrategyLaws} `{HMC : ModelChecker} (inner : nat).

#[export] Instance register_asks : StrategyAsks (lp_asks (LinPoints:=points)).
Proof. by intros fuel s t s'. Qed.

(** C17: with any mutex that keeps its contract, at most one task is between its
    [lock] and its [unlock], whatever the strategy does; the mutex is owned
    then, and the value an [add] has loaded is still that of [x_] when it
    stores. *)
Theorem mutexed_register_excludes h s :
  LinPoints.reached spec Register.init inner h s →
  let look := slot (base s) in let o := state (world (base s)) in
  (∀ r r' f f', at_frame look r f → at_frame look r' f' → in_section f = true → in_section f' = true →
     r = r' ∧ owned (m_ o) = true) ∧
  (∀ r v, at_frame look r (AddStore v) → v = x_ o).
Proof.
  intros Hre look o. destruct (reached_linearizing _ _ _ _ _ Hre) as (_ & _ & ops & q & Hlin).
  destruct (li_inv _ _ _ _ _ _ Hlin) as [_ Ho H1 Hv]. split; [|exact Hv].
  intros r r' f f' Hf Hf' Hs Hs'. split; [by eapply H1|by eapply Ho].
Qed.
End rounds.
End correct.
End MutexedRegister.
