(* ===== verification/Deadlock.v ===== *)
(** * Deadlock: two locks in two orders (verifying/targets/deadlock.cpp)

    [Lock] takes two token mutexes, in an order that depends on the parity of its
    argument, the number of the thread.  The strategies notice when every thread
    is parked; the specification, which answers an [int] where the method is
    [void], makes the checker throw for a round that does end. *)

From Stdlib Require Import ZArith Lia.
From stdpp Require Import base gmap strings option list.
From S2P Require Import Prelude ValueWrapper History Linearizability Specs Coro Strategy Scheduler Blocking.

Module Deadlock.

(** [struct Test]. *)
Record Test := mk_Test { mu1 : TokenMutex.Waiters; mu2 : TokenMutex.Waiters }.

Definition init : Test := mk_Test [] [].
Definition Reset (t : Test) : Test := mk_Test [] [].

(** Which mutex [Lock] takes first, and which one second. *)
Inductive which := Mu1 | Mu2.
Definition first_of (v : Z) : which := if (Z.rem v 2 =? 0)%Z then Mu1 else Mu2.
Definition second_of (v : Z) : which := if (Z.rem v 2 =? 0)%Z then Mu2 else Mu1.

Definition get (m : which) (o : Test) : TokenMutex.Waiters := match m with Mu1 => mu1 o | Mu2 => mu2 o end.
Definition put (m : which) (l : TokenMutex.Waiters) (o : Test) : Test :=
  match m with Mu1 => mk_Test l (mu2 o) | Mu2 => mk_Test (mu1 o) l end.

(** The program points: [Taken] is the [CoroYield] behind a [Lock] that had to
    wait. *)
Inductive frame :=
| BadArgs
| LockFirst (token : nat) (v : Z)
| TakenFirst (token : nat) (v : Z)
| LockSecond (token : nat) (v : Z)
| TakenSecond
| Unlocks.

#[export] Instance target : Target := {|
  TargetObj := Test;
  Frame := frame;
  target_init := init;
  target_Reset := Reset;
  read_word _ _ := 0%Z;
  start name args := match args with [any_token t; any_int v] => LockFirst t v | _ => BadArgs end;
|}.

(** [mu.Lock(token); CoroYield();]. *)
Definition lock (m : which) (t : nat) (waiting taken : frame) (o : Test) (ts : Tokens) : outcome slice :=
  let '(l, ts, parks) := TokenMutex.Lock t (get m o) ts in
  Ok (Yielded (if (parks : bool) then waiting else taken) (put m l o) ts None None).

#[export] Instance code : Code := λ f o ts,
  match f with
  | BadArgs => Fail (Undefined "std::get")
  | LockFirst t v => lock (first_of v) t (TakenFirst t v) (LockSecond t v) o ts
  | TakenFirst t v => Ok (Yielded (LockSecond t v) o ts None None)
  | LockSecond t v => lock (second_of v) t TakenSecond Unlocks o ts
  | TakenSecond => Ok (Yielded Unlocks o ts None None)
  | Unlocks =>
      '(l1, ts) ← TokenMutex.Unlock (mu1 o) ts;
      '(l2, ts) ← TokenMutex.Unlock (mu2 o) ts;
      Ok (Returned void_v (mk_Test l1 l2) ts)
  end.

(** [generateArgs]: a token and the number of the thread. *)
Definition generateInt (thread_num : nat) : tuple := makeSingleArg (any_int (wrap32 (Z.of_nat thread_num))).
Definition generateArgs (thread_num : nat) (w : World) : outcome (tuple * World) :=
  '(token, w) ← genToken thread_num w;
  Ok (token ++ generateInt thread_num, w).

Definition task_builders : list TaskBuilder := [mk_TaskBuilder "Lock" generateArgs].

(** The specification is the target's type, of which it uses nothing. *)
Definition lock_func : SpecMethod Test := λ l _, Ok (ValueWrapper_of 0%Z, l).
Definition GetMethods : gmap string (SpecMethod Test) := <["Lock" := lock_func]> ∅.

(** ** The deadlock *)

(** Two tasks of which each holds the mutex the other one waits for: both are
    parked. *)
Record deadlocked (o : Test) (ts : Tokens) (t0 t1 : nat) : Prop := {
  dl_mu1 : take 2 (mu1 o) = [t0; t1];
  dl_mu2 : take 2 (mu2 o) = [t1; t0];
  dl_t0 : TokenMutex.parked ts t0 = true;
  dl_t1 : TokenMutex.parked ts t1 = true;
}.

(** An even and an odd [Lock] that have both taken their first mutex. *)
Lemma cross_deadlocks t0 t1 v0 v1 ts sl0 sl1 :
  Z.rem v0 2 = 0%Z → Z.rem v1 2 ≠ 0%Z → t0 ≠ t1 →
  run_slice (LockSecond t0 v0) (mk_Test [t0] [t1]) ts = Ok sl0 →
  run_slice (LockSecond t1 v1) (slice_obj sl0) (slice_tokens sl0) = Ok sl1 →
  deadlocked (slice_obj sl1) (slice_tokens sl1) t0 t1.
Proof.
  intros H0 H1 Hne E0 E1. unfold run_slice, code, lock, second_of in E0, E1.
  rewrite (proj2 (Z.eqb_eq _ _) H0) in E0. rewrite (proj2 (Z.eqb_neq _ _) H1) in E1.
  injection E0 as <-. injection E1 as <-.
  split; simpl; try done; unfold Park; rewrite ?TokenMutex.parked_insert; repeat case_decide; done.
Qed.
End Deadlock.
