(* ===== verification/NonlinearQueue.v ===== *)
(** * NonlinearQueue (verifying/targets/nonlinear_queue.cpp)

    A queue whose [Push] reserves a cell of an array before it writes to it, and
    whose [Pop] takes the first cell that has been written: elements may leave it
    in another order than first-in first-out. *)

From Stdlib Require Import ZArith.
From stdpp Require Import base gmap strings option list.
From S2P Require Import Prelude ValueWrapper History Linearizability Specs Coro.

Module NonlinearQueue.

Definition N : nat := 100.

(** [struct Queue]. *)
Record Queue := mk_Queue { a : list Z; head : Z }.

Definition init : Queue := mk_Queue (replicate N 0%Z) 0.
Definition Reset (q : Queue) : Queue := mk_Queue (replicate N 0%Z) 0.
Definition with_a (l : list Z) (q : Queue) : Queue := mk_Queue l (head q).

(** The program points, before the access they name. *)
Inductive frame :=
| BadArgs
| PushAdd (v : Z)                  (* head.fetch_add(1) *)
| PushStore (v pos : Z)            (* a[pos] = v *)
| PushReturn
| PopHead                          (* head.load() *)
| PopLoad (i last : Z)             (* a[i].load() *)
| PopExchange (i last e : Z)       (* a[i].compare_exchange_strong(e, 0) *)
| PopReturn (e : Z).

#[export] Instance target : Target := {|
  TargetObj := Queue;
  Frame := frame;
  target_init := init;
  target_Reset := Reset;
  read_word _ _ := 0%Z;
  start name args :=
    if String.eqb name "Push" then match args with [any_int v] => PushAdd v | _ => BadArgs end else PopHead;
|}.

(** [a[i]], undefined outside of the array. *)
Definition index (i : Z) : outcome nat :=
  if (0 <=? i)%Z && (i <? Z.of_nat N)%Z then Ok (Z.to_nat i) else Fail (Undefined "a[i]").

(** The condition of the loop of [Pop]. *)
Definition pop_loop (i last : Z) : frame := if (i <? last)%Z then PopLoad i last else PopReturn 0.

#[export] Instance code : Code := λ f q ts,
  match f with
  | BadArgs => Fail (Undefined "std::get")
  | PushAdd v => yields (PushStore v (head q)) (mk_Queue (a q) (wrap32 (head q + 1))) ts
  | PushStore v pos => i ← index pos; yields PushReturn (with_a (<[i := v]> (a q)) q) ts
  | PushReturn => Ok (Returned void_v q ts)
  | PopHead => yields (pop_loop 0 (head q)) q ts
  | PopLoad i last =>
      k ← index i;
      e ← vec_get (a q) k;
      yields (if negb (e =? 0)%Z then PopExchange i last e else pop_loop (i + 1) last) q ts
  | PopExchange i last e =>
      k ← index i;
      x ← vec_get (a q) k;
      if (x =? e)%Z then yields (PopReturn e) (with_a (<[k := 0%Z]> (a q)) q) ts
      else yields (pop_loop (i + 1) last) q ts
  | PopReturn e => Ok (Returned (ValueWrapper_of e) q ts)
  end.

(** [rand() % 10 + 1]. *)
Definition generateInt (rand : nat → World → Z) (thread_num : nat) (w : World) : outcome (tuple * World) :=
  Ok (makeSingleArg (any_int (Z.rem (rand thread_num w) 10 + 1)), w).

Definition task_builders (rand : nat → World → Z) : list TaskBuilder :=
  [mk_TaskBuilder "Push" (generateInt rand); mk_TaskBuilder "Pop" genEmpty].

(** [ltest::Spec]. *)
Definition spec : gmap string (SpecMethod Specs.Queue.Queue) := Specs.Queue.GetMethods 0.

End NonlinearQueue.
