(* ===== verification/NonlinearSet.v ===== *)
(** * NonlinearSet (verifying/targets/nonlinear_set.cpp)

    A set of non-zero integers in an array of slots, found by probing from the
    remainder of the element on.  [Insert] stops at the first free slot, although
    the element may be in a later one. *)

From Stdlib Require Import ZArith.
From stdpp Require Import base gmap strings option list.
From S2P Require Import Prelude ValueWrapper History Linearizability Specs Coro.

Module NonlinearSet.

Definition N : nat := 100.

(** [struct SlotsSet], its slots. *)
Definition SlotsSet : Type := list Z.
Definition Reset (slots : SlotsSet) : SlotsSet := replicate N 0%Z.
Definition init : SlotsSet := Reset [].

(** The program points, before the access they name. *)
Inductive frame :=
| BadArgs
| Insert (value : Z)                       (* the entry, up to the first load *)
| InsertLoad (value : Z) (i : nat)         (* slots[idx].load() *)
| InsertExchange (value : Z) (i : nat)     (* slots[idx].compare_exchange_strong(current, value) *)
| InsertAgain (value : Z) (i : nat)        (* slots[idx].load() == value *)
| Erase (value : Z)
| EraseLoad (value : Z) (i : nat)
| EraseExchange (value : Z) (i : nat)      (* slots[idx].compare_exchange_strong(current, 0) *)
| Return (found : bool).

#[export] Instance target : Target := {|
  TargetObj := SlotsSet;
  Frame := frame;
  target_init := init;
  target_Reset := Reset;
  read_word _ _ := 0%Z;
  start name args :=
    match args with
    | [any_int v] => if String.eqb name "Insert" then Insert v else Erase v
    | _ => BadArgs
    end;
|}.

(** [size_t hash = value % N;] and [(hash + i) % N]. *)
Definition idx (value : Z) (i : nat) : nat :=
  let hash := wrapu64 (Z.rem value (Z.of_nat N)) in
  Z.to_nat (wrapu64 (hash + Z.of_nat i) mod Z.of_nat N).

(** The conditions of the loops. *)
Definition insert_loop (value : Z) (i : nat) : frame := if i <? N then InsertLoad value i else Return false.
Definition erase_loop (value : Z) (i : nat) : frame := if i <? N then EraseLoad value i else Return false.

(** The loads of the first iterations. *)
Definition insert_load (value : Z) (i : nat) (slots : SlotsSet) (ts : Tokens) : outcome slice :=
  current ← vec_get slots (idx value i);
  yields (if (current =? value)%Z then Return false
          else if (current =? 0)%Z then InsertExchange value i else insert_loop value (S i)) slots ts.

Definition erase_load (value : Z) (i : nat) (slots : SlotsSet) (ts : Tokens) : outcome slice :=
  current ← vec_get slots (idx value i);
  yields (if (current =? value)%Z then EraseExchange value i
          else if (current =? 0)%Z then Return false else erase_loop value (S i)) slots ts.

#[export] Instance code : Code := λ f slots ts,
  match f with
  | BadArgs => Fail (Undefined "std::get")
  | Insert value => _ ← assert "value != 0" (negb (value =? 0)%Z); insert_load value 0 slots ts
  | InsertLoad value i => insert_load value i slots ts
  | InsertExchange value i =>
      current ← vec_get slots (idx value i);
      if (current =? 0)%Z then yields (Return true) (<[idx value i := value]> slots) ts
      else yields (InsertAgain value i) slots ts
  | InsertAgain value i =>
      current ← vec_get slots (idx value i);
      yields (if (current =? value)%Z then Return false else insert_loop value (S i)) slots ts
  | Erase value => _ ← assert "value != 0" (negb (value =? 0)%Z); erase_load value 0 slots ts
  | EraseLoad value i => erase_load value i slots ts
  | EraseExchange value i =>
      (* a failed exchange leaves the value of the slot in [current] *)
      current ← vec_get slots (idx value i);
      if (current =? value)%Z then yields (Return true) (<[idx value i := 0%Z]> slots) ts
      else yields (if (current =? 0)%Z then Return false else erase_loop value (S i)) slots ts
  | Return found => Ok (Returned (ValueWrapper_of (if found then 1%Z else 0%Z)) slots ts)
  end.

(** [generateInt]: a single value. *)
Definition generateInt (unused_param : nat) (w : World) : outcome (tuple * World) := Ok (makeSingleArg (any_int 1), w).

Definition task_builders : list TaskBuilder := [mk_TaskBuilder "Insert" generateInt; mk_TaskBuilder "Erase" generateInt].

(** [ltest::Spec]. *)
Definition spec : gmap string (SpecMethod Specs.SetSpec.Set_) := Specs.SetSpec.GetMethods 0.

End NonlinearSet.
