(* ===== verification/TreiberStack.v ===== *)
(** * TreiberStack (verifying/targets/nonlinear_treiber_stack.cpp)

    Treiber's stack on a fixed pool of nodes, which are linked by their indexes
    into the stack and into a list of free nodes; [Push] gives up after four
    attempts, and its element is lost. *)

From Stdlib Require Import ZArith.
From stdpp Require Import base gmap strings option list.
From S2P Require Import Prelude ValueWrapper History Linearizability Specs Coro.

Module TreiberStack.

Definition N : nat := 100.

Record Node := mk_Node { nvalue : Z; next : Z }.

(** [struct TreiberStack]. *)
Record Stack := mk_Stack { nodes : list Node; head : Z; free_list : Z }.

(** The loop of [Reset] over the free list. *)
Definition reset_nodes (l : list Node) : list Node :=
  imap (λ i n, mk_Node (nvalue n) (if S i =? length l then (-1)%Z else Z.of_nat (S i))) l.

Definition Reset (s : Stack) : Stack := mk_Stack (reset_nodes (nodes s)) (-1) 0.
Definition init : Stack := Reset (mk_Stack (replicate N (mk_Node 0 0)) (-1) 0).

Definition with_head (h : Z) (s : Stack) : Stack := mk_Stack (nodes s) h (free_list s).
Definition with_free (f : Z) (s : Stack) : Stack := mk_Stack (nodes s) (head s) f.

(** [nodes[i]], undefined outside of the vector. *)
Definition node_at (i : Z) (s : Stack) : outcome Node :=
  if (0 <=? i)%Z then vec_get (nodes s) (Z.to_nat i) else Fail (Undefined "nodes[i]").
Definition set_node (i : Z) (n : Node) (s : Stack) : Stack :=
  mk_Stack (<[Z.to_nat i := n]> (nodes s)) (head s) (free_list s).

(** The program points, before the access they name. *)
Inductive frame :=
| BadArgs
| PushFree (v : Z)                        (* free_list.load() *)
| PushNext (v n : Z)                      (* nodes[node_index].next.load() *)
| PushTake (v n nx : Z)                   (* free_list.compare_exchange_strong *)
| PushValue (v n : Z)                     (* nodes[node_index].value = value *)
| PushHead (n : Z) (time : nat)           (* head.load() *)
| PushLink (n oh : Z) (time : nat)        (* nodes[node_index].next.store(old_head) *)
| PushExchange (n oh : Z) (time : nat)    (* head.compare_exchange_strong *)
| PushReturn
| PopHead
| PopNext (n : Z)
| PopExchange (n nx : Z)
| PopValue (n : Z)
| PopFree (n v : Z)
| PopLink (n v old : Z)
| PopGive (n v old : Z)
| PopReturn (v : Z).

#[export] Instance target : Target := {|
  TargetObj := Stack;
  Frame := frame;
  target_init := init;
  target_Reset := Reset;
  read_word _ _ := 0%Z;
  start name args :=
    if String.eqb name "Push" then match args with [any_int v] => PushFree v | _ => BadArgs end else PopHead;
|}.

#[export] Instance code : Code := λ f s ts,
  match f with
  | BadArgs => Fail (Undefined "std::get")
  | PushFree v => yields (if (free_list s =? -1)%Z then PushReturn else PushNext v (free_list s)) s ts
  | PushNext v n => x ← node_at n s; yields (PushTake v n (next x)) s ts
  | PushTake v n nx =>
      if (free_list s =? n)%Z then yields (PushValue v n) (with_free nx s) ts else yields (PushFree v) s ts
  | PushValue v n => x ← node_at n s; yields (PushHead n 0) (set_node n (mk_Node v (next x)) s) ts
  | PushHead n time => yields (PushLink n (head s) time) s ts
  | PushLink n oh time =>
      x ← node_at n s;
      let time := S time in
      yields (if time <? 4 then PushExchange n oh time else PushReturn) (set_node n (mk_Node (nvalue x) oh) s) ts
  | PushExchange n oh time =>
      if (head s =? oh)%Z then yields PushReturn (with_head n s) ts else yields (PushHead n time) s ts
  | PushReturn => Ok (Returned void_v s ts)
  | PopHead => yields (if (head s =? -1)%Z then PopReturn 0 else PopNext (head s)) s ts
  | PopNext n => x ← node_at n s; yields (PopExchange n (next x)) s ts
  | PopExchange n nx =>
      if (head s =? n)%Z then yields (PopValue n) (with_head nx s) ts else yields PopHead s ts
  | PopValue n => x ← node_at n s; yields (PopFree n (nvalue x)) s ts
  | PopFree n v => yields (PopLink n v (free_list s)) s ts
  | PopLink n v old => x ← node_at n s; yields (PopGive n v old) (set_node n (mk_Node (nvalue x) old) s) ts
  | PopGive n v old =>
      if (free_list s =? old)%Z then yields (PopReturn v) (with_free n s) ts else yields (PopFree n v) s ts
  | PopReturn v => Ok (Returned (ValueWrapper_of v) s ts)
  end.

(** [rand() % 10 + 1]. *)
Definition generateInt (rand : nat → World → Z) (thread_num : nat) (w : World) : outcome (tuple * World) :=
  Ok (makeSingleArg (any_int (Z.rem (rand thread_num w) 10 + 1)), w).

Definition task_builders (rand : nat → World → Z) : list TaskBuilder :=
  [mk_TaskBuilder "Push" (generateInt rand); mk_TaskBuilder "Pop" genEmpty].

(** [ltest::Spec]. *)
Definition spec : gmap string (SpecMethod Specs.Stack.Stack) := Specs.Stack.GetMethods 0.

End TreiberStack.
