(* ===== verification/MSQueue.v ===== *)
(** * MSQueue (verifying/targets/nonlinear_ms_queue.cpp)

    The queue of Michael and Scott on a fixed pool of nodes.  [Pop] gives up after
    three attempts, and then returns the last value it read. *)

From Stdlib Require Import ZArith.
From stdpp Require Import base gmap strings option list.
From S2P Require Import Prelude ValueWrapper History Linearizability Specs Coro.

Module MSQueue.

Definition N : nat := 100.

(** The nodes a pointer can point to: [dummyNode], and those of the pool; a
    null pointer is [None]. *)
Inductive address := Dummy | Pool (i : nat).
#[export] Instance address_eq_dec : EqDecision address.
Proof. solve_decision. Defined.
Definition pointer : Type := option address.

Record Node := mk_Node { nvalue : Z; next : pointer }.

(** [struct MSQueue]. *)
Record Queue := mk_Queue { nodes : list Node; dummyNode : Node; head : pointer; tail : pointer; index : Z }.

Definition init : Queue := mk_Queue (replicate N (mk_Node 0 None)) (mk_Node 0 None) (Some Dummy) (Some Dummy) 0.
Definition Reset (q : Queue) : Queue :=
  mk_Queue (nodes q) (mk_Node (nvalue (dummyNode q)) None) (Some Dummy) (Some Dummy) 0.

Definition with_head (p : pointer) (q : Queue) : Queue := mk_Queue (nodes q) (dummyNode q) p (tail q) (index q).
Definition with_tail (p : pointer) (q : Queue) : Queue := mk_Queue (nodes q) (dummyNode q) (head q) p (index q).

(** [*p], undefined for a null pointer. *)
Definition deref (p : pointer) (q : Queue) : outcome Node :=
  match p with
  | None => Fail (Undefined "null pointer")
  | Some Dummy => Ok (dummyNode q)
  | Some (Pool i) => vec_get (nodes q) i
  end.
Definition set_node (p : pointer) (n : Node) (q : Queue) : Queue :=
  match p with
  | None => q
  | Some Dummy => mk_Queue (nodes q) n (head q) (tail q) (index q)
  | Some (Pool i) => mk_Queue (<[i := n]> (nodes q)) (dummyNode q) (head q) (tail q) (index q)
  end.

(** The program points, before the access they name; [n] is [newNode], [ct],
    [cn] and [ch] are [currentTail], [currentNext] and [currentHead]. *)
Inductive frame :=
| BadArgs
| Allocate (v : Z)                            (* index.fetch_add(1) *)
| AllocateValue (v : Z) (n : pointer)         (* node->value = value *)
| AllocateNext (n : pointer)                  (* node->next.store(nullptr) *)
| PushTail (n : pointer)                      (* tail.load() *)
| PushNext (n ct : pointer)                   (* currentTail->next.load() *)
| PushCheck (n ct cn : pointer)               (* currentTail == tail.load() *)
| PushLink (n ct : pointer)                   (* currentTail->next.compare_exchange_strong *)
| PushAdvance (n ct cn : pointer)             (* tail.compare_exchange_strong(currentTail, currentNext) *)
| PushSwing (n ct : pointer)                  (* tail.compare_exchange_strong(currentTail, newNode) *)
| PushReturn
| PopHead (time : nat) (v : Z)
| PopTail (time : nat) (v : Z) (ch : pointer)
| PopNext (time : nat) (v : Z) (ch ct : pointer)
| PopCheck (time : nat) (v : Z) (ch ct cn : pointer)
| PopAdvance (time : nat) (v : Z) (ct cn : pointer)
| PopValue (time : nat) (ch cn : pointer)     (* currentNext->value *)
| PopExchange (time : nat) (v : Z) (ch cn : pointer)
| PopReturn (v : Z).

(** [while (time++ < 3)]. *)
Definition pop_loop (time : nat) (v : Z) : frame := if time <? 3 then PopHead (S time) v else PopReturn v.

#[export] Instance target : Target := {|
  TargetObj := Queue;
  Frame := frame;
  target_init := init;
  target_Reset := Reset;
  read_word _ _ := 0%Z;
  start name args :=
    if String.eqb name "Push" then match args with [any_int v] => Allocate v | _ => BadArgs end else pop_loop 0 0;
|}.

Definition same (p p' : pointer) : bool := bool_decide (p = p').

(** [allocateNode] (which is [non_atomic] too). *)
Definition allocate (v : Z) (q : Queue) (ts : Tokens) : outcome slice :=
  let currentIndex := index q in
  _ ← assert "Node pool exhausted" (wrapu64 currentIndex <? Z.of_nat (length (nodes q)))%Z;
  yields (AllocateValue v (Some (Pool (Z.to_nat currentIndex))))
    (mk_Queue (nodes q) (dummyNode q) (head q) (tail q) (wrap32 (index q + 1))) ts.

#[export] Instance code : Code := λ f q ts,
  match f with
  | BadArgs => Fail (Undefined "std::get")
  | Allocate v => allocate v q ts
  | AllocateValue v n => x ← deref n q; yields (AllocateNext n) (set_node n (mk_Node v (next x)) q) ts
  | AllocateNext n => x ← deref n q; yields (PushTail n) (set_node n (mk_Node (nvalue x) None) q) ts
  | PushTail n => yields (PushNext n (tail q)) q ts
  | PushNext n ct => x ← deref ct q; yields (PushCheck n ct (next x)) q ts
  | PushCheck n ct cn =>
      yields (if same ct (tail q) then
                match cn with None => PushLink n ct | Some _ => PushAdvance n ct cn end
              else PushTail n) q ts
  | PushLink n ct =>
      x ← deref ct q;
      if same (next x) None then yields (PushSwing n ct) (set_node ct (mk_Node (nvalue x) n) q) ts
      else yields (PushTail n) q ts
  | PushAdvance n ct cn => yields (PushTail n) (if same (tail q) ct then with_tail cn q else q) ts
  | PushSwing n ct => yields PushReturn (if same (tail q) ct then with_tail n q else q) ts
  | PushReturn => Ok (Returned void_v q ts)
  | PopHead time v => yields (PopTail time v (head q)) q ts
  | PopTail time v ch => yields (PopNext time v ch (tail q)) q ts
  | PopNext time v ch ct => x ← deref ch q; yields (PopCheck time v ch ct (next x)) q ts
  | PopCheck time v ch ct cn =>
      yields (if same ch (head q) then
                if same ch ct then
                  match cn with None => PopReturn 0 | Some _ => PopAdvance time v ct cn end
                else PopValue time ch cn
              else pop_loop time v) q ts
  | PopAdvance time v ct cn => yields (pop_loop time v) (if same (tail q) ct then with_tail cn q else q) ts
  | PopValue time ch cn => x ← deref cn q; yields (PopExchange time (nvalue x) ch cn) q ts
  | PopExchange time v ch cn =>
      if same (head q) ch then yields (PopReturn v) (with_head cn q) ts else yields (pop_loop time v) q ts
  | PopReturn v => Ok (Returned (ValueWrapper_of v) q ts)
  end.

(** [rand() % 10 + 1]. *)
Definition generateInt (rand : nat → World → Z) (thread_num : nat) (w : World) : outcome (tuple * World) :=
  Ok (makeSingleArg (any_int (Z.rem (rand thread_num w) 10 + 1)), w).

Definition task_builders (rand : nat → World → Z) : list TaskBuilder :=
  [mk_TaskBuilder "Push" (generateInt rand); mk_TaskBuilder "Pop" genEmpty].

(** [ltest::Spec]. *)
Definition spec : gmap string (SpecMethod Specs.Queue.Queue) := Specs.Queue.GetMethods 0.

End MSQueue.
