(* ===== verification/FastQueue.v ===== *)
(** * FastQueue (verifying/targets/fast_queue.cpp)

    A bounded queue for many producers and consumers, after Vyukov: the
    generation of a cell tells whose turn it is.  The exchanges are weak; they
    are modelled without spurious failures. *)

From Stdlib Require Import ZArith.
From stdpp Require Import base gmap strings option list.
From S2P Require Import Prelude ValueWrapper History Linearizability Specs Coro.

Module FastQueue.

Definition size : nat := 2.
Definition max_size_ : Z := Z.of_nat size - 1.

Record Node := mk_Node { generation : Z; val : Z }.

(** [class MPMCBoundedQueue]. *)
Record Queue := mk_Queue { vec_ : list Node; head_ : Z; tail_ : Z }.

Definition init : Queue := mk_Queue (imap (λ i _, mk_Node (Z.of_nat i) 0) (replicate size ())) 0 0.
Definition Reset (q : Queue) : Queue :=
  mk_Queue (imap (λ i n, mk_Node (Z.of_nat i) (val n)) (vec_ q)) 0 0.

Definition with_head (h : Z) (q : Queue) : Queue := mk_Queue (vec_ q) h (tail_ q).
Definition with_tail (t : Z) (q : Queue) : Queue := mk_Queue (vec_ q) (head_ q) t.

(** [h & max_size_]. *)
Definition cell (h : Z) : nat := Z.to_nat (Z.land h max_size_).
Definition set_cell (i : nat) (n : Node) (q : Queue) : Queue := mk_Queue (<[i := n]> (vec_ q)) (head_ q) (tail_ q).

(** The program points, before the access they name. *)
Inductive frame :=
| BadArgs
| PushHead (v : Z)              (* head_.load() *)
| PushGen (v h : Z)             (* vec_[hid].generation.load() *)
| PushExchange (v h : Z)        (* head_.compare_exchange_weak(h, h + 1) *)
| PushVal (v h : Z)             (* vec_[hid].val = value *)
| PushAdd (h : Z)               (* vec_[hid].generation.fetch_add(1) *)
| PopTail
| PopGen (t : Z)
| PopExchange (t : Z)
| PopVal (t : Z)
| PopAdd (t v : Z)
| Return (v : Z).

#[export] Instance target : Target := {|
  TargetObj := Queue;
  Frame := frame;
  target_init := init;
  target_Reset := Reset;
  read_word _ _ := 0%Z;
  start name args :=
    if String.eqb name "Push" then match args with [any_int v] => PushHead v | _ => BadArgs end else PopTail;
|}.

#[export] Instance code : Code := λ f q ts,
  match f with
  | BadArgs => Fail (Undefined "std::get")
  | PushHead v => yields (PushGen v (head_ q)) q ts
  | PushGen v h =>
      x ← vec_get (vec_ q) (cell h);
      yields (if (generation x =? h)%Z then PushExchange v h
              else if (generation x <? h)%Z then Return 0 else PushHead v) q ts
  | PushExchange v h =>
      if (head_ q =? h)%Z then yields (PushVal v h) (with_head (wrapu64 (h + 1)) q) ts else yields (PushHead v) q ts
  | PushVal v h =>
      x ← vec_get (vec_ q) (cell h);
      yields (PushAdd h) (set_cell (cell h) (mk_Node (generation x) v) q) ts
  | PushAdd h =>
      x ← vec_get (vec_ q) (cell h);
      yields (Return 1) (set_cell (cell h) (mk_Node (wrapu64 (generation x + 1)) (val x)) q) ts
  | PopTail => yields (PopGen (tail_ q)) q ts
  | PopGen t =>
      x ← vec_get (vec_ q) (cell t);
      yields (if (generation x =? wrapu64 (t + 1))%Z then PopExchange t
              else if (generation x <? wrapu64 (t + 1))%Z then Return 0 else PopTail) q ts
  | PopExchange t =>
      if (tail_ q =? t)%Z then yields (PopVal t) (with_tail (wrapu64 (t + 1)) q) ts else yields PopTail q ts
  | PopVal t => x ← vec_get (vec_ q) (cell t); yields (PopAdd t (val x)) q ts
  | PopAdd t v =>
      x ← vec_get (vec_ q) (cell t);
      yields (Return v) (set_cell (cell t) (mk_Node (wrapu64 (generation x + max_size_)) (val x)) q) ts
  | Return v => Ok (Returned (ValueWrapper_of v) q ts)
  end.

(** [rand() % 10 + 1]. *)
Definition generateInt (rand : nat → World → Z) (thread_num : nat) (w : World) : outcome (tuple * World) :=
  Ok (makeSingleArg (any_int (Z.rem (rand thread_num w) 10 + 1)), w).

Definition task_builders (rand : nat → World → Z) : list TaskBuilder :=
  [mk_TaskBuilder "Push" (generateInt rand); mk_TaskBuilder "Pop" genEmpty].

(** [ltest::Spec]. *)
Definition spec : gmap string (SpecMethod BoundedQueue.Queue) := BoundedQueue.GetMethods.

End FastQueue.
