(* ===== verification/UniqueArgsTest.v ===== *)
(** * UniqueArgsTest: arguments that are handed out once
      (verifying/targets/unique_args.cpp, verifying/targets/counique_args.cpp)

    [Get] is called with every index below [limit] once before an index is used
    again; an assertion checks that generators and restarts keep to it.  In the
    second target a C++20 coroutine does the work, and the status pass announces
    it to the runtime (counique_args.yml: a yield before and behind its call).
    Neither target is non-atomic: its yields are the ones that are written
    here. *)

From Stdlib Require Import ZArith.
From stdpp Require Import base gmap strings option list.
From S2P Require Import Prelude ValueWrapper History Linearizability Specs Coro Options.

(** ** What both targets share *)

Module UniqueArgsShared.

Definition limit : nat := Z.to_nat UniqueArgs.limit.

(** The static vectors [used] and [done], of elements that are 0 or 1. *)
Record Flags := mk_Flags { used : list bool; done : list bool }.

Definition init : Flags := mk_Flags (replicate limit false) (replicate limit false).
Definition Reset (o : Flags) : Flags :=
  mk_Flags (replicate (length (used o)) false) (replicate (length (done o)) false).

(** The first index that is not in use. *)
Fixpoint unused (i : nat) (l : list bool) : outcome nat :=
  match l with
  | [] => Fail (AssertFailed "false && extra call")
  | b :: l => if b then unused (S i) l else Ok i
  end.

(** [assert(!used[i]); used[i] = true;]. *)
Definition take (i : nat) (o : Flags) : outcome Flags :=
  b ← vec_get (used o) i;
  _ ← assert "!used[i]" (negb b);
  l ← vec_set (used o) i true;
  Ok (mk_Flags l (done o)).

(** [done[i] = true]. *)
Definition finish (i : nat) (o : Flags) : outcome Flags :=
  l ← vec_set (done o) i true; Ok (mk_Flags (used o) l).

(** The [return] of [Get]: the last one resets the flags. *)
Definition answer (o : Flags) : ValueWrapper * Flags :=
  let '(r, o) := if count_false (done o) =? 0 then (Some UniqueArgs.limit, Reset o) else (None, o) in
  (ValueWrapper_with (any_of (r : option Z)) (GetDefaultCompator (option Z)) UniqueArgs.Print, o).

(** [ltest::Spec], and [UniqueArgsOptionsOverride::GetOptions] (the members it
    does not name are 0). *)
Definition spec : gmap string (SpecMethod UniqueArgs.UniqueArgsRef) := UniqueArgs.GetMethods.
Definition GetOptions : DefaultOptions :=
  mk_DefaultOptions (Z.of_nat limit) (Z.of_nat limit) 100000000 10000 1 false false "tla" "" 0 0.
End UniqueArgsShared.

(** ** unique_args.cpp *)

Module UniqueArgsTest.
Import UniqueArgsShared.

(** [Get] at its beginning, and behind its [CoroYield]. *)
Inductive frame :=
| BadArgs
| GetEnter (i : nat)
| GetDone (i : nat).

#[export] Instance target : Target := {|
  TargetObj := Flags;
  Frame := frame;
  target_init := init;
  target_Reset := Reset;
  read_word _ _ := 0%Z;
  start _ args := match args with [any_size i] => GetEnter (Z.to_nat i) | _ => BadArgs end;
|}.

#[export] Instance code : Code := λ f o ts,
  match f with
  | BadArgs => Fail (Undefined "std::get")
  | GetEnter i => o ← take i o; yields (GetDone i) o ts
  | GetDone i => o ← finish i o; let '(v, o) := answer o in Ok (Returned v o ts)
  end.

Definition GenerateArgs (thread_num : nat) (w : World) : outcome (tuple * World) :=
  i ← unused 0 (used (state w)); Ok (makeSingleArg (any_size (Z.of_nat i)), w).

Definition task_builders : list TaskBuilder := [mk_TaskBuilder "Get" GenerateArgs].
End UniqueArgsTest.

(** ** counique_args.cpp *)

Module CoUniqueArgsTest.
Import UniqueArgsShared.

(** [Get] at its beginning, before [CoFun] and behind it. *)
Inductive frame :=
| BadArgs
| GetEnter (i : nat)
| GetCoFun (i : nat)
| GetCount.

#[export] Instance target : Target := {|
  TargetObj := Flags;
  Frame := frame;
  target_init := init;
  target_Reset := Reset;
  read_word _ _ := 0%Z;
  start _ args := match args with [any_size i] => GetEnter (Z.to_nat i) | _ => BadArgs end;
|}.

(** [CoFun] does not suspend before its end: it runs in one piece. *)
Definition CoFun (i : nat) (o : Flags) : outcome Flags := finish i o.

(** [CoroutineStatusChange("cofun", start)], which the pass has inserted. *)
Definition status_change (started : bool) (f : frame) (o : Flags) (ts : Tokens) : outcome slice :=
  CoroutineStatusChange "cofun" started f o ts.

#[export] Instance code : Code := λ f o ts,
  match f with
  | BadArgs => Fail (Undefined "std::get")
  | GetEnter i => o ← take i o; status_change true (GetCoFun i) o ts
  | GetCoFun i => o ← CoFun i o; status_change false GetCount o ts
  | GetCount => let '(v, o) := answer o in Ok (Returned v o ts)
  end.

Definition GenerateArgs (thread_num : nat) (w : World) : outcome (tuple * World) :=
  i ← unused 0 (used (state w)); Ok (makeSingleArg (any_size (Z.of_nat i)), w).

Definition task_builders : list TaskBuilder := [mk_TaskBuilder "Get" GenerateArgs].
End CoUniqueArgsTest.

(** ** Every index is handed out once *)

Section handed_out.
Import UniqueArgsShared UniqueArgsTest.

(** The states that calls of [Get] lead to in any interleaving, with the indices
    of the calls that are running.  A call is generated and runs to its
    [CoroYield] in one go, as the schedulers do with a new task. *)
Inductive calls : list nat → Flags → Prop :=
| calls_init : calls [] init
| calls_start running o thread_num w args w' i o' ts ts' :
    calls running o → state w = o → GenerateArgs thread_num w = Ok (args, w') →
    run_slice (start "Get" args) o ts = Ok (Yielded (GetDone i) o' ts' None None) →
    calls (i :: running) o'
| calls_end running running' i o v o' ts ts' :
    calls running o → running ≡ₚ (i :: running') → run_slice (GetDone i) o ts = Ok (Returned v o' ts') →
    calls running' o'.

(** An index is in use when its call is running or done. *)
Record batch (running : list nat) (o : Flags) : Prop := {
  b_used_length : length (used o) = limit;
  b_done_length : length (done o) = limit;
  b_nodup : NoDup running;
  b_running i : i ∈ running → done o !! i = Some false;
  b_used i : used o !! i = Some true ↔ i ∈ running ∨ done o !! i = Some true;
}.

Lemma unused_Ok i l j : unused i l = Ok j → ∃ k, j = i + k ∧ l !! k = Some false.
Proof.
  revert i. induction l as [|[] l IH]; intros i H; cbn [unused] in H; [by inversion H| |].
  - destruct (IH _ H) as (k & -> & Hk). exists (S k). split; [lia|done].
  - injection H as <-. exists 0. split; [lia|reflexivity].
Qed.

Lemma unused_cases i l : (∃ k, unused i l = Ok (i + k) ∧ l !! k = Some false) ∨
  (unused i l = Fail (AssertFailed "false && extra call") ∧ ∀ k b, l !! k = Some b → b = true).
Proof.
  revert i. induction l as [|[] l IH]; intros i; cbn [unused].
  - right. split; [reflexivity|]. intros k b Hk. by rewrite lookup_nil in Hk.
  - destruct (IH (S i)) as [(k & E & Hk)|[E Hall]].
    + left. exists (S k). split; [|exact Hk]. rewrite E. f_equal. lia.
    + right. split; [exact E|]. intros [|k] b Hk; [by injection Hk as <-|by eapply Hall].
  - left. exists 0. split; [f_equal; lia|reflexivity].
Qed.

Lemma batch_init : batch [] init.
Proof.
  split; [reflexivity|reflexivity|constructor| |].
  - intros i Hi. by apply elem_of_nil in Hi.
  - intros i. change (replicate limit false !! i = Some true ↔ i ∈ [] ∨ replicate limit false !! i = Some true). split.
    + intros H. by apply lookup_replicate in H as [? _].
    + intros [Hi|H]; [by apply elem_of_nil in Hi|]. by apply lookup_replicate in H as [? _].
Qed.

(** Taking an index that is not in use. *)
Lemma take_unused running o i :
  batch running o → used o !! i = Some false →
  ∃ o', take i o = Ok o' ∧ batch (i :: running) o' ∧ (i ∉ running) ∧ done o !! i = Some false.
Proof.
  intros [Hul Hdl Hnd Hr Hu] Hi. assert (i < limit) as Hlt by (rewrite <-Hul; by eapply lookup_lt_Some).
  assert ((i ∉ running) ∧ done o !! i ≠ Some true) as [Hni Hdi].
  { split; intros H; [assert (used o !! i = Some true) by (apply Hu; by left)|
      assert (used o !! i = Some true) by (apply Hu; by right)]; congruence. }
  assert (done o !! i = Some false) as Hdf.
  { destruct (lookup_lt_is_Some_2 (done o) i) as [[] E]; [lia|done|done]. }
  exists (mk_Flags (<[i := true]> (used o)) (done o)). split_and!; [| |done|done].
  - unfold take. rewrite (vec_get_Some _ _ _ Hi). cbn [mbind outcome_bind negb assert].
    by rewrite vec_set_lt by lia.
  - split; simpl; [by rewrite length_insert|done|by constructor| |].
    + intros j [->|Hj]%elem_of_cons; [done|by apply Hr].
    + intros j. rewrite elem_of_cons. destruct (decide (i = j)) as [<-|Hne].
      * rewrite list_lookup_insert_eq by lia. naive_solver.
      * rewrite list_lookup_insert_ne, Hu by done. naive_solver.
Qed.

(** The call of an index is the last of its batch when all the others are
    done. *)
Definition last_call (i : nat) (o : Flags) : Prop := ∀ j, j < limit → j ≠ i → done o !! j = Some true.

Lemma done_last running o i :
  batch running o → i ∈ running → count_false (<[i := true]> (done o)) = 0 ↔ last_call i o.
Proof.
  intros Hb Hi. assert (i < length (done o)) as Hlt by (eapply lookup_lt_Some, b_running; [exact Hb|exact Hi]).
  rewrite count_false_0, Forall_lookup. split.
  - intros H j Hj Hne. destruct (lookup_lt_is_Some_2 (done o) j) as [b E]; [by rewrite (b_done_length _ _ Hb)|].
    rewrite E. f_equal. apply (H j). by rewrite list_lookup_insert_ne.
  - intros H j b. destruct (decide (i = j)) as [<-|Hne]; [rewrite list_lookup_insert_eq by done; congruence|].
    rewrite list_lookup_insert_ne by done. intros E.
    assert (j < limit) as Hj by (rewrite <-(b_done_length _ _ Hb); by eapply lookup_lt_Some).
    specialize (H j Hj (not_eq_sym Hne)). congruence.
Qed.

(** Finishing a call; the last one resets the flags. *)
Lemma finish_running running running' o i :
  batch running o → running ≡ₚ (i :: running') →
  ∃ o1 (last : bool), finish i o = Ok o1 ∧ (last = true ↔ last_call i o) ∧
    value (answer o1).1 = Some (any_of (if last then Some UniqueArgs.limit else None)) ∧
    (answer o1).2 = (if last then init else o1) ∧ batch running' (answer o1).2.
Proof.
  intros Hb Hp. pose proof Hb as [Hul Hdl Hnd Hr Hu].
  assert (i ∈ running) as Hi by (rewrite Hp; by left).
  assert (i < length (done o)) as Hlt by (by eapply lookup_lt_Some, Hr).
  assert ((i ∉ running') ∧ NoDup running') as [Hni Hnd'] by (by apply NoDup_cons; rewrite <-Hp).
  set (d := <[i := true]> (done o)). exists (mk_Flags (used o) d), (count_false d =? 0).
  pose proof (done_last _ _ _ Hb Hi) as Hlast. fold d in Hlast. split_and!.
  - unfold finish. by rewrite vec_set_lt.
  - by rewrite Nat.eqb_eq.
  - unfold answer. simpl. by destruct (_ =? _).
  - unfold answer. simpl. destruct (_ =? _); [|done]. unfold Reset, init, d. simpl. by rewrite length_insert, Hul, Hdl.
  - unfold answer. simpl. destruct (Nat.eqb_spec (count_false d) 0) as [E|E]; simpl.
    + assert (running' = []) as ->.
      { destruct running' as [|j running']; [done|]. exfalso.
        assert (j ≠ i) as Hne by (intros ->; apply Hni; by left).
        assert (done o !! j = Some false) as Hj by (apply Hr; rewrite Hp; right; by left).
        assert (j < limit) as Hjl by (rewrite <-Hdl; by eapply lookup_lt_Some).
        rewrite (proj1 Hlast E j Hjl Hne) in Hj. congruence. }
      unfold Reset, d. simpl. rewrite length_insert, Hul, Hdl. apply batch_init.
    + split; simpl; [done|by unfold d; rewrite length_insert|done| |].
      * intros j Hj. unfold d. rewrite list_lookup_insert_ne by (by intros ->). apply Hr. rewrite Hp. by right.
      * intros j. rewrite Hu, Hp, elem_of_cons. unfold d. destruct (decide (i = j)) as [<-|Hne].
        { rewrite list_lookup_insert_eq by done. naive_solver. }
        rewrite list_lookup_insert_ne by done. naive_solver.
Qed.

Lemma calls_batch running o : calls running o → batch running o.
Proof.
  induction 1 as [|running o th w args w' i o' ts ts' _ IH Hw Hgen Hrun|running running' i o v o' ts ts' _ IH Hp Hrun];
    [apply batch_init|..].
  - unfold GenerateArgs in Hgen. apply bind_Ok in Hgen as (k & Hk & Hgen). injection Hgen as <- _. rewrite Hw in Hk.
    apply unused_Ok in Hk as (k' & -> & Hk). rewrite Nat.add_0_l in Hrun.
    change (run_slice _ _ _) with (o1 ← take (Z.to_nat (Z.of_nat k')) o; yields (GetDone (Z.to_nat (Z.of_nat k'))) o1 ts) in Hrun.
    rewrite Nat2Z.id in Hrun. destruct (take_unused _ _ _ IH Hk) as (o1 & E & Hb & _). rewrite E in Hrun. by injection Hrun as <- <- _.
  - destruct (finish_running _ _ _ _ IH Hp) as (o1 & last & E & _ & _ & _ & Hb). unfold run_slice, code in Hrun. rewrite E in Hrun.
    simpl in Hrun. destruct (answer o1) as [v1 o2]. by injection Hrun as _ <- _.
Qed.

(** C15: unique_args hands every index out once.  In whatever order calls of
    [Get] start and end, from the initial flags: no two running calls have the
    same index; a new call gets an index that is neither running nor done in this
    batch and its assertion [!used[i]] holds, unless all the indices are used,
    when the generator asserts "extra call"; and a running call returns, the last
    one of a batch (all the other indices are done) with [limit] and fresh flags,
    any other one with nothing. *)
Theorem unique_args_handed_out running o :
  calls running o →
  NoDup running ∧
  (∀ thread_num w, state w = o →
    (∃ i, i < limit ∧ (i ∉ running) ∧ done o !! i = Some false ∧
      GenerateArgs thread_num w = Ok ([any_size (Z.of_nat i)], w) ∧
      ∀ ts, ∃ o', run_slice (start "Get" [any_size (Z.of_nat i)]) o ts = Ok (Yielded (GetDone i) o' ts None None)) ∨
    (GenerateArgs thread_num w = Fail (AssertFailed "false && extra call") ∧
      ∀ i, i < limit → i ∈ running ∨ done o !! i = Some true)) ∧
  (∀ i ts, i ∈ running →
    ∃ v o' (last : bool), run_slice (GetDone i) o ts = Ok (Returned v o' ts) ∧ (last = true ↔ last_call i o) ∧
      value v = Some (any_of (if last then Some UniqueArgs.limit else None)) ∧ (last = true → o' = init)).
Proof.
  intros Hb%calls_batch. split; [by destruct Hb|]. split.
  - intros th w Hw. unfold GenerateArgs. rewrite Hw. destruct (unused_cases 0 (used o)) as [(k & -> & Hk)|[-> Hall]].
    + left. exists k. destruct (take_unused _ _ _ Hb Hk) as (o1 & E & _ & Hni & Hd).
      split_and!; [rewrite <-(b_used_length _ _ Hb); by eapply lookup_lt_Some|done|done|done|].
      intros ts. exists o1.
      change (run_slice _ _ _) with (o1 ← take (Z.to_nat (Z.of_nat k)) o; yields (GetDone (Z.to_nat (Z.of_nat k))) o1 ts).
      by rewrite Nat2Z.id, E.
    + right. split; [done|]. intros i Hi. apply (b_used _ _ Hb).
      destruct (lookup_lt_is_Some_2 (used o) i) as [b E]; [by rewrite (b_used_length _ _ Hb)|]. by rewrite E, (Hall _ _ E).
  - intros i ts [running' Hp]%elem_of_Permutation.
    destruct (finish_running _ _ _ _ Hb Hp) as (o1 & last & E & Hl & Hv & Ho & _).
    exists (answer o1).1, (answer o1).2, last. split_and!; [|done|done|].
    + unfold run_slice, code. rewrite E. simpl. by destruct (answer o1).
    + intros ->. exact Ho.
Qed.
End handed_out.
