(* ===== verification/TLATermination.v ===== *)
(** * TLATermination: the exhaustive scheduler returns

    When the methods finish in a bounded number of their own steps, the depth of
    the search is bounded, every replay succeeds, and so does the printing of
    each full history; [TLAScheduler::Run] returns. *)

From stdpp Require Import base gmap strings option list.
From S2P Require Import Prelude ValueWrapper Text History Linearizability Coro Strategy PrettyPrint Scheduler.
From S2P Require Import TLA TLAExhaustive Liveness.

Import TLA.

Lemma st_bind_total {S A B} (m : stM S A) (k : A → stM S B) s a s1 (P : B → S → Prop) :
  m s = Ok (a, s1) → (∃ b s', k a s1 = Ok (b, s') ∧ P b s') → ∃ b s', (m ≫= k) s = Ok (b, s') ∧ P b s'.
Proof. intros H (b & s' & Hk & HP). exists b, s'. by rewrite (st_bind_eq _ _ _ _ _ H). Qed.

Section termination.
Context `{HT : Target} `{HC : !Code} `{HV : StrategyVerifier} `{HMC : ModelChecker} {HPP : PrettyPrinter}.
Context (cfg : Config) (Hsafe : replay_safe cfg) (cancel : TargetObj → TargetObj) (inner : nat).
Context (budget : Frame → nat) (bound : nat).

(** What termination needs beyond [replay_safe]: bounded methods that announce
    no status change, a verifier that does not fail, and generators that give
    arguments which can be printed. *)
Record total_target : Prop := {
  tt_bounded : bounded_methods budget bound;
  tt_permissive : permissive;
  tt_update n th new v : ∃ v', UpdateState n th new v = Ok v';
  tt_status f o ts f' o' ts' bl st : run_slice f o ts = Ok (Yielded f' o' ts' bl st) → st = None;
  tt_gen b th w : b ∈ constructors cfg → ∃ a strs, tb_gen b th w = Ok (a, w) ∧ toStringList a = Ok strs;
}.

Context (Htot : total_target).
Context (Hinner : bound + 2 ≤ inner) (Htries : (Z.of_nat bound + 2 < max_tries)%Z).

(** A task that can be run to its end. *)
Definition good (c : CoroBase) : Prop := live c ∧ task_budget budget c ≤ S bound.
Definition good_tasks (ths : list (list CoroBase)) : Prop := ∀ r c, task_in ths r = Some c → good c.

Lemma good_New method args id : good (New method args id).
Proof.
  split; [split; [done|by eexists]|]. unfold task_budget. simpl.
  pose proof (proj2 (tt_bounded Htot) method args). lia.
Qed.

Lemma Resume_good c w :
  good c → IsReturned c = false →
  ∃ c' w', Resume c w = Ok (c', w') ∧ good c' ∧ task_budget budget c' < task_budget budget c ∧
    coroutine_status w' = coroutine_status w.
Proof.
  intros [Hl Hb] Hr. destruct (Resume_wait_free budget c w (proj1 (tt_bounded Htot)) Hl Hr)
    as (c' & w' & H & Hl' & Hlt). exists c', w'. split_and!; [done|split; [done|lia]|done|].
  unfold Resume in H. destruct (assert _ _); [|done]; simpl in H. destruct (or_fail _ _) as [f|]; [|done]; simpl in H.
  destruct (run_slice f (state w) (tokens w)) as [[f' o ts b st|v o ts]|] eqn:E; simplify_eq/=; [|done].
  by rewrite (tt_status Htot _ _ _ _ _ _ _ _ E).
Qed.

Lemma plain_step_good c o c' o' :
  plain_step c o c' o' → good c → good c' ∧ task_budget budget c' < task_budget budget c.
Proof.
  intros [st H] Hg. destruct (Resume_good c (mk_World o ∅ None None) Hg) as (c1 & w1 & H1 & ? & ? & _).
  { by apply Resume_Ok in H as [? _]. }
  rewrite H1 in H. injection H as -> _. done.
Qed.

Lemma good_put r c c0 ths : good_tasks ths → task_in ths r = Some c0 → good c → good_tasks (put_task r c ths).
Proof.
  intros Hg H0 Hc u d. destruct (decide (r = u)) as [<-|Hne].
  - rewrite (task_in_put_eq _ _ _ _ H0). by intros [= <-].
  - rewrite task_in_put_ne by done. apply Hg.
Qed.

Lemma replayable_good fs ths o : replayable fs ths o → good_tasks ths.
Proof.
  induction 1 as [n|fs ths o r c c' o' _ IH Hc Hp|fs ths o i thread method args c' o' _ IH Ht Hp].
  - intros [th i] c (thread & Ht & Hi)%task_in_Some. by apply lookup_replicate in Ht as [-> _].
  - eapply good_put; [done|done|]. eapply plain_step_good; [done|]. by eapply IH.
  - intros r c [[_ ->]|?]%(task_in_push _ _ _ _ _ _ Ht); [|by eapply IH].
    eapply plain_step_good; [exact Hp|apply good_New].
Qed.

(** ** Backtracking succeeds *)

Lemma Terminate_loop_total fuel tries c w :
  good c → task_budget budget c < fuel → (tries + Z.of_nat (task_budget budget c) < max_tries)%Z →
  ∃ c' w', Terminate_loop fuel tries c w = Ok (c', w') ∧ good c' ∧ IsReturned c' = true.
Proof.
  revert tries c w. induction fuel as [|fuel IH]; intros tries c w Hg Hf Ht; [lia|]. cbn [Terminate_loop].
  destruct (IsReturned c) eqn:Hr; [by exists c, w|].
  destruct (Resume_good c w Hg Hr) as (c1 & w1 & E & Hg1 & Hlt & _). cbv zeta. rewrite E. cbn [mbind outcome_bind].
  rewrite (proj2 (Z.ltb_lt _ _)) by lia. cbn [assert mbind outcome_bind]. apply IH; [done|lia|lia].
Qed.

Lemma terminate_refs_total refs s :
  good_tasks (threads s) → (∀ r, r ∈ refs → is_Some (task_in (threads s) r)) →
  ∃ u s', terminate_refs inner refs s = Ok (u, s') ∧ True.
Proof.
  revert s. induction refs as [|r refs IH]; intros s Hg Hin; cbn [terminate_refs]; [by do 2 eexists|].
  destruct (Hin r) as [c Hc]; [by left|].
  eapply st_bind_total; [apply tla_get_task_Ok; by split|]. destruct (IsReturned c) eqn:Hr.
  { apply IH; [done|]. intros u Hu. apply Hin. by right. }
  rewrite st_get_bind. assert (good c) as Hgc by by eapply Hg.
  destruct (Terminate_loop_total inner 0 c (world s) Hgc) as (c' & w' & E & Hg' & _); [destruct Hgc; lia..|].
  eapply st_bind_total; [by apply st_lift_Ok; split; [exact E|]|]. unfold set_task. rewrite st_modify_bind.
  apply IH; [by eapply good_put|]. intros u Hu. simpl. eapply task_in_shape; [symmetry; apply shape_put|].
  apply Hin. by right.
Qed.

Lemma In_all_refs ths r : r ∈ all_refs ths → is_Some (task_in ths r).
Proof.
  unfold all_refs. intros (l & Hl & Hr)%list_elem_of_In%in_concat.
  apply list_elem_of_In, list_elem_of_lookup in Hl as [i Hi]. rewrite list_lookup_imap in Hi.
  destruct (ths !! i) as [thread|] eqn:Ht; [|done]. injection Hi as <-.
  apply list_elem_of_In, list_elem_of_fmap in Hr as (j & -> & Hj%elem_of_seq).
  destruct (lookup_lt_is_Some_2 thread j) as [c Hc]; [lia|]. exists c. apply task_in_Some. eauto.
Qed.

Lemma replay_frames_compose l x s s1 s' u :
  replay_frames l s = Ok (tt, s1) → replay_frame x s1 = Ok (u, s') → replay_frames (l ++ [x]) s = Ok (tt, s').
Proof.
  revert s. induction l as [|y l IH]; intros s H1 H2; cbn [app replay_frames] in *.
  - inv_st H1. st_step H2. done.
  - apply st_bind_Ok in H1 as (u1 & s2 & H & H1). st_step H. by apply IH.
Qed.

Lemma resume_task_total r s c c' o o' :
  task_in (threads s) r = Some c → plain_step c o c' o' → state (world s) = o → quiet_world (world s) →
  ∃ s', resume_task r s = Ok (tt, s').
Proof.
  intros Hc Hp Ho Hq. destruct (plain_step_Resume c o c' o' (world s) Hp Ho Hq) as (w' & HR & _).
  eexists. apply resume_task_Ok. eauto 10.
Qed.

Lemma replay_frame_go_eq step r s :
  frames s !! step = Some (mk_TFrame (Some r) false) → replay_frame step s = resume_task r s.
Proof. intros Hf. unfold replay_frame. rewrite st_get_bind, Hf. reflexivity. Qed.

Lemma replay_frame_start_eq step r s c c' :
  frames s !! step = Some (mk_TFrame (Some r) true) → task_in (threads s) r = Some c → Restart c = Ok c' →
  replay_frame step s = resume_task r (with_threads (put_task r c' (threads s)) s).
Proof.
  intros Hf Hc Hr. unfold replay_frame. rewrite st_get_bind, Hf.
  transitivity ((_ ← (c ← get_task r; c' ← st_lift (Restart c); set_task r c' (world s)); resume_task r) s); [done|].
  rewrite (st_bind_eq _ _ s tt (with_threads (put_task r c' (threads s)) s)); [done|].
  st_step (proj2 (tla_get_task_Ok _ _ _ _) (conj Hc eq_refl)).
  rewrite (st_bind_eq _ _ _ _ _ (st_lift_eq _ s _ Hr)). by destruct s.
Qed.

Lemma frame_at fs (f : TFrame) (l : list TFrame) : (fs ++ [f]) `prefix_of` l → l !! (0 + length fs) = Some f.
Proof. intros [k ->]. rewrite <-app_assoc. by rewrite lookup_app_r, Nat.sub_diag by lia. Qed.

Lemma replay_frames_total fs ths o s :
  replayable fs ths o → fs `prefix_of` frames s → rewound ths s →
  ∃ s', replay_frames (seq 0 (length fs)) s = Ok (tt, s').
Proof.
  intros H. revert s.
  induction H as [n|fs ths o r c c' o' Hfs IH Hc Hp|fs ths o i thread method args c' o' Hfs IH Ht Hp];
    intros s Hpre Hrw; [by eexists|..]; rewrite length_app, seq_app.
  - assert (rewound ths s) as Hrw1 by by eapply rewound_go.
    destruct (IH s) as [s1 H1]; [by eapply prefix_app_l|done|].
    pose proof (replay_frames_restores cfg Hsafe _ _ _ _ _ _ Hfs (prefix_app_l _ _ _ Hpre) Hrw1 H1) as Hrp.
    destruct (resume_task_total r s1 c c' o o') as [s' Hs']; [by eapply rp_tasks|done|by destruct Hrp..|].
    exists s'. eapply replay_frames_compose; [exact H1|]. rewrite <-Hs'.
    apply replay_frame_go_eq. rewrite (rp_rest _ _ _ _ Hrp). by apply frame_at.
  - assert (rewound ths s) as Hrw1 by by eapply rewound_push.
    destruct (IH s) as [s1 H1]; [by eapply prefix_app_l|done|].
    pose proof (replay_frames_restores cfg Hsafe _ _ _ _ _ _ Hfs (prefix_app_l _ _ _ Hpre) Hrw1 H1) as Hrp.
    destruct Hrw as [Hpres Hret Hobj Hq].
    destruct (Hpres (i, length thread) c') as (c0 & Hc0 & Hs); [apply task_in_push; [done|by left]|].
    pose proof Hc0 as Hc1. rewrite <-(rp_others _ _ _ _ Hrp) in Hc1 by (by apply task_in_fresh).
    apply plain_step_same in Hp as Hs'. destruct Hs' as [(E1 & E2 & E3 & E4) _], Hs as (F1 & F2 & F3 & F4).
    simpl in *. assert (Restart c0 = Ok (New method args (-1))) as Hrs.
    { apply Restart_Ok. split; [by eapply Hret|]. by rewrite <-F1, <-F2, <-F3, <-F4, E1, E2, E3, E4. }
    destruct (resume_task_total (i, length thread)
      (with_threads (put_task (i, length thread) (New method args (-1)) (threads s1)) s1) (New method args (-1)) c' o o')
      as [s' Hs']; [by eapply task_in_put_eq|done|by destruct Hrp..|].
    exists s'. eapply replay_frames_compose; [exact H1|]. rewrite <-Hs'.
    apply (replay_frame_start_eq _ (i, length thread) s1 c0); [|done|done].
    rewrite (rp_rest _ _ _ _ Hrp). by apply frame_at.
Qed.

Lemma Replay_total fs ths o s :
  replayable fs ths o → fs `prefix_of` frames s → same_tasks ths (threads s) → good_tasks (threads s) →
  quiet_world (world s) →
  ∃ s', Replay cancel inner (length fs) s = Ok (tt, s') ∧ full_history s' = full_history s.
Proof.
  intros Hfs Hpre Hsame Hg Hq.
  set (s0 := set_obj (cancel (state (world s))) s).
  destruct (terminate_refs_total (all_refs (threads s)) s0) as (u & s1 & H1 & _); [done|apply In_all_refs|].
  pose proof H1 as H1'. apply (terminate_refs_Ok cfg Hsafe) in H1' as (Hst & Hq1 & Hrest1 & Hall); [|done].
  pose proof (same_tasks_trans _ _ _ Hsame Hst) as Hst'.
  set (s2 := set_obj (target_Reset (state (world s1))) s1).
  assert (rewound ths s2) as Hrw.
  { split; simpl; [|intros r c Hc|by apply rs_reset with (1:=Hsafe)|by destruct Hq1].
    - intros r c Hc. destruct Hst' as [_ Hst']. destruct (Hst' r c Hc) as (c' & Hc' & Hs). exists c'.
      split; [done|]. unfold same_task in *. naive_solver.
    - destruct (Hall r c Hc) as [?|[Hni _]]; [done|]. destruct Hni. apply all_refs_In.
      eapply task_in_shape; [symmetry; by destruct Hst|by eexists]. }
  assert (fs `prefix_of` frames s2) as Hpre2 by (simpl; by rewrite Hrest1).
  destruct (replay_frames_total fs ths o s2 Hfs Hpre2 Hrw) as [s3 H3].
  exists (clear_status s3). split.
  - unfold Replay, TerminateTasks. rewrite (st_bind_eq _ _ s u s1) by exact H1.
    rewrite st_modify_bind. by rewrite (st_bind_eq _ _ s2 tt s3) by exact H3.
  - pose proof (replay_frames_restores cfg Hsafe _ _ _ _ _ _ Hfs Hpre2 Hrw H3) as Hrp.
    simpl. rewrite (rp_rest _ _ _ _ Hrp). simpl. by rewrite Hrest1.
Qed.

(** ** Running a task succeeds *)

Lemma UpdateFullHistory_total th r is_new s c :
  coroutine_status (world s) = None → task_in (threads s) r = Some c →
  ∃ v, UpdateFullHistory th r is_new s =
    Ok (tt, with_full (full_history s ++ [(th, inl r)]) (with_verifier v s)).
Proof.
  intros Hst Hc. destruct (tt_update Htot (GetName c) th is_new (verifier s)) as [v Hv]. exists v.
  unfold UpdateFullHistory. rewrite st_get_bind, Hst.
  st_step (proj2 (tla_get_task_Ok _ _ _ _) (conj Hc eq_refl)). st_lift_step Hv. done.
Qed.

Lemma back_ref_total i s thread n :
  threads s !! i = Some thread → length thread = S n → back_ref i s = Ok ((i, n), s).
Proof.
  intros Ht Hn. unfold back_ref. rewrite st_get_bind. st_lift_step (vec_get_Some _ _ _ Ht). by rewrite Hn.
Qed.

Lemma run_task_total frame i is_new s thread n c :
  threads s !! i = Some thread → length thread = S n → thread !! n = Some c →
  IsReturned c = false → token c = None → good c → coroutine_status (world s) = None →
  ∃ fin s', run_task frame i is_new s = Ok (fin, s') ∧
    full_history s' = full_history s ++ [(i, inl (i, n))].
Proof.
  intros Ht Hn Hc Hr Htok Hg Hst.
  assert (task_in (threads s) (i, n) = Some c) as Hin by (apply task_in_Some; eauto).
  unfold run_task. eapply st_bind_total; [by eapply back_ref_total|].
  unfold set_frame. rewrite !st_modify_bind.
  match goal with |- ∃ b s', (_ ≫= _) ?st = _ ∧ _ => set (s0 := st) end.
  assert (∃ seq, (if is_new then st_modify (λ s, with_seq (sequential_history s ++
      [invocation (mk_TaskWithMetaData (i, n) true i)]) s) else mret tt) s0 = Ok (tt, with_seq seq s0)) as [h Hh].
  { destruct is_new; [by eexists|]. exists (sequential_history s0). by destruct s. }
  eapply st_bind_total; [exact Hh|].
  eapply st_bind_total; [apply tla_get_task_Ok; split; [exact Hin|done]|]. rewrite st_get_bind.
  eapply st_bind_total; [apply (st_assert_Ok _ _ _ tt); split; [|done]|]; [unfold IsParked; by rewrite Htok|].
  destruct (Resume_good c (world s) Hg Hr) as (c' & w' & HR & _ & _ & Hst').
  eapply st_bind_total; [apply (resume_task_Ok _ _ tt); by exists c, c', w'|].
  assert (task_in (put_task (i, n) c' (threads s)) (i, n) = Some c') as Hin' by (by eapply task_in_put_eq).
  edestruct (UpdateFullHistory_total i (i, n) is_new
    (with_world w' (with_threads (put_task (i, n) c' (threads s)) (with_seq h s0)))) as [v Hv];
    [simpl; congruence|exact Hin'|].
  eapply st_bind_total; [exact Hv|].
  eapply st_bind_total; [apply tla_get_task_Ok; split; [exact Hin'|done]|].
  destruct (IsReturned c') eqn:Hr'; [|by do 2 eexists]. rewrite st_get_bind.
  destruct (proj2 (tt_permissive Htot) (GetName c') false i v) as [v' Hv'].
  eapply st_bind_total; [apply st_lift_Ok; split; [exact Hv'|done]|].
  eapply st_bind_total; [apply st_lift_Ok; split; [unfold coro_GetRetVal; rewrite Hr'; done|done]|].
  rewrite st_modify_bind. by do 2 eexists.
Qed.

Lemma undo_row_total (fin is_new : bool) s (h : SeqHistory) (e1 e2 : HistoryEvent) l i full x :
  sequential_history s = h ++ (if is_new then [e1] else []) ++ (if fin then [e2] else []) →
  thread_id_history s = l ++ [i] → full_history s = full ++ [(i, inl x)] →
  ∃ s', undo_row fin is_new s = Ok (tt, s') ∧ full_history s' = full ∧ threads s' = threads s.
Proof.
  intros Hseq Hids Hfull. unfold undo_row. rewrite st_get_bind, Hids, vec_pop_back_snoc.
  st_lift_step (eq_refl (Ok l)).
  assert (pop_full_history (full_history s) = Ok full) as E.
  { unfold pop_full_history. by rewrite Hfull, last_snoc, vec_pop_back_snoc. }
  st_lift_step E. rewrite st_put_bind.
  destruct fin; [|destruct is_new; [|by eexists]].
  - match goal with |- context [(_ ≫= _) ?st] => set (s0 := st) end.
    assert (vec_pop_back "sequential_history.pop_back()" (sequential_history s0) =
      Ok (h ++ if is_new then [e1] else [])) as E1 by (simpl; by rewrite Hseq, app_assoc, vec_pop_back_snoc).
    rewrite (st_bind_eq _ _ s0 tt (with_counts (started_tasks s0) (finished_tasks s0 - 1) (finished_rounds s0)
      (with_seq (h ++ if is_new then [e1] else []) s0))); [|by rewrite st_get_bind; st_lift_step E1].
    destruct is_new; [|by eexists]. rewrite st_get_bind. cbn [sequential_history with_counts with_seq].
    rewrite vec_pop_back_snoc. st_lift_step (eq_refl (Ok h)). by eexists.
  - rewrite app_nil_r in Hseq. match goal with |- context [(_ ≫= _) ?st] => set (s0 := st) end.
    rewrite (st_bind_eq _ _ s0 tt s0 eq_refl), st_get_bind. simpl. rewrite Hseq, vec_pop_back_snoc.
    st_lift_step (eq_refl (Ok h)). by eexists.
Qed.

(** ** The measure

    What the tasks that are there, and those that may still be started, can run
    bounds the depth of the recursion. *)

Definition total_budget (ths : list (list CoroBase)) : nat :=
  sum_list ((λ thread : list CoroBase, sum_list (task_budget budget <$> thread)) <$> ths).

Definition room (C : aconf) : nat :=
  (max_tasks cfg - c_started C) * (bound + 2) + total_budget (c_threads C).

Lemma total_budget_put ths r c c' :
  task_in ths r = Some c →
  total_budget (put_task r c' ths) + task_budget budget c = total_budget ths + task_budget budget c'.
Proof.
  destruct r as [th i]. intros (thread & Ht & Hi)%task_in_Some. unfold total_budget, put_task. simpl.
  pose proof (sum_list_fmap_alter (λ thread : list CoroBase, sum_list (task_budget budget <$> thread))
    (λ thread, <[i:=c']> thread) ths th thread Ht) as H. cbv beta in H.
  pose proof (sum_list_fmap_insert (task_budget budget) thread i c c' Hi) as H'. lia.
Qed.

Lemma total_budget_push ths i thread c :
  ths !! i = Some thread →
  total_budget (alter (λ t, t ++ [c]) i ths) = total_budget ths + task_budget budget c.
Proof.
  intros Ht. unfold total_budget.
  pose proof (sum_list_fmap_alter (λ thread : list CoroBase, sum_list (task_budget budget <$> thread))
    (λ thread, thread ++ [c]) ths i thread Ht) as H. cbv beta in H.
  rewrite sum_list_fmap_snoc in H. lia.
Qed.

(** Going on with a task uses its budget; starting one uses a start. *)
Lemma room_go i n C c c' o' sw :
  task_in (c_threads C) (i, n) = Some c → plain_step c (c_obj C) c' o' → good c →
  room (run_conf false i n c' o' sw C) < room C.
Proof.
  intros Hc Hp Hg. destruct (plain_step_good _ _ _ _ Hp Hg) as [_ Hlt]. unfold room. simpl.
  pose proof (total_budget_put _ _ _ c' Hc). lia.
Qed.

Lemma room_start i thread C c c' o' sw :
  c_threads C !! i = Some thread → plain_step c (c_obj C) c' o' → good c → c_started C < max_tasks cfg →
  room (run_conf true i (length thread) c' o' sw (add_task i c C)) < room C.
Proof.
  intros Ht Hp Hg Hlt. destruct (plain_step_good _ _ _ _ Hp Hg) as [_ Hb]. destruct Hg as [_ Hc].
  unfold room. simpl.
  assert (task_in (alter (λ t, t ++ [c]) i (c_threads C)) (i, length thread) = Some c) as Hin.
  { apply task_in_Some. exists (thread ++ [c]). by rewrite list_lookup_alter_eq, Ht, lookup_app_r, Nat.sub_diag by lia. }
  pose proof (total_budget_put _ _ _ c' Hin). pose proof (total_budget_push _ _ _ c Ht). nia.
Qed.

(** ** The search returns *)

(** The checker answers on every complete execution from [C]. *)
Definition decided (C : aconf) : Prop :=
  ∀ D, finishes cfg C D → ∃ ok, mc_Check (view (c_threads D)) (c_seq D) = Ok ok.

Lemma decided_step i C C1 : decided C → c_finished C ≠ max_tasks cfg → astep cfg i C C1 → decided C1.
Proof. intros H Hne Hs D HD. apply H. by eapply finishes_step. Qed.

(** What the recursion is entered with. *)
Record ready (C : aconf) (fs : list TFrame) : Prop := {
  rd_replayable : replayable fs (c_threads C) (c_obj C);
  rd_started : c_started C ≤ max_tasks cfg;
  rd_threads : c_threads C ≠ [];
  rd_decided : decided C;
  rd_width : Z.of_nat (length (c_threads C)) = printer_threads;
  rd_texts r c : task_in (c_threads C) r = Some c → ∃ strs, GetStrArgs c = Ok strs;
  rd_depth : length fs + room C ≤ max_tasks cfg * (bound + 2);
}.

(** The full history of the rows that are on the stack. *)
Definition full_of (fs : list TFrame) : FullHistoryWithThreads :=
  omap (λ f, (λ r : TaskRef, (r.1, inl r)) <$> frame_task f) fs.

Lemma full_of_snoc fs r b : full_of (fs ++ [mk_TFrame (Some r) b]) = full_of fs ++ [(r.1, inl r)].
Proof. unfold full_of. by rewrite omap_app. Qed.

Lemma full_of_length fs : length (full_of fs) ≤ length fs.
Proof.
  induction fs as [|[[r|] b] fs IH]; [done| |].
  - change (S (length (full_of fs)) ≤ S (length fs)). lia.
  - change (length (full_of fs) ≤ S (length fs)). lia.
Qed.

(** Its tasks are there. *)
Lemma replayable_rows fs ths o :
  replayable fs ths o → Forall (λ e, ∃ r, e = (r.1, inl r) ∧ is_Some (task_in ths r)) (full_of fs).
Proof.
  assert (∀ ths ths' l, (∀ r, is_Some (task_in ths r) → is_Some (task_in ths' r)) →
    Forall (λ e : nat * (TaskRef + CoroutineStatus), ∃ r, e = (r.1, inl r) ∧ is_Some (task_in ths r)) l →
    Forall (λ e, ∃ r, e = (r.1, inl r) ∧ is_Some (task_in ths' r)) l) as Hmono.
  { intros ths1 ths2 l Hin H. eapply Forall_impl; [exact H|]. naive_solver. }
  induction 1 as [n|fs ths o r c c' o' _ IH Hc Hp|fs ths o i thread method args c' o' _ IH Ht Hp]; [constructor|..];
    rewrite full_of_snoc; apply Forall_app; split.
  - eapply Hmono; [|exact IH]. intros u. apply task_in_shape. symmetry. apply shape_put.
  - constructor; [|done]. exists r. split; [done|]. eapply task_in_shape; [symmetry; apply shape_put|by eexists].
  - eapply Hmono; [|exact IH]. intros u [d Hd]. exists d. apply (task_in_push _ _ _ _ _ _ Ht). by right.
  - constructor; [|done]. exists (i, length thread). split; [done|]. exists c'. apply (task_in_push _ _ _ _ _ _ Ht). by left.
Qed.

Context (Hprinter : (printer_threads < 2 ^ 31)%Z) (Hrows : (Z.of_nat (max_tasks cfg * (bound + 2)) ≤ 10 ^ 7)%Z).

(** So it can be printed. *)
Lemma ready_prints C fs out :
  ready C fs → ∃ u out', FullPrettyPrint printer_threads (task_in (c_threads C)) (full_of fs) out = Ok (u, out').
Proof.
  intros Hready. apply FullPrettyPrint_returns.
  - pose proof (rd_width _ _ Hready). lia.
  - eapply Forall_impl; [by eapply replayable_rows, rd_replayable|]. intros e (r & -> & c & Hc). split.
    + destruct r as [i n]. apply task_in_Some in Hc as (thread & Ht & _). apply lookup_lt_Some in Ht.
      rewrite <-(rd_width _ _ Hready). simpl. lia.
    + exists r. split; [done|]. destruct (rd_texts _ _ Hready _ _ Hc) as [strs Hs]. by exists c, strs.
  - pose proof (full_of_length fs). pose proof (rd_depth _ _ Hready). lia.
Qed.

(** The full history is what it was when a call returns without stopping. *)
Definition returns {A} (stop : A → bool) (m : stM TLAState A) (s : TLAState) : Prop :=
  ∃ r s', m s = Ok (r, s') ∧ (stop r = false → full_history s' = full_history s).

Definition rec_total (rec : nat → nat → stM TLAState (bool * Result)) (m : nat) : Prop :=
  ∀ C s, represents C s → ready C (frames s) → c_finished C ≠ max_tasks cfg → room C < m →
    full_history s = full_of (frames s) → returns stops (rec (length (frames s)) (c_switches C)) s.

Lemma finish_round_total C s :
  represents C s → ready C (frames s) → full_history s = full_of (frames s) → c_finished C = max_tasks cfg →
  returns stops (finish_round cfg) s.
Proof.
  intros [Hths _ _ _ Hseq _ _ _] Hready Hfull Hfin. destruct (rd_decided _ _ Hready C) as [ok Hok]; [by constructor|].
  destruct (ready_prints C (frames s) (mk_Streams "" (printed s)) Hready) as (u & out & Hout).
  assert (print_full_log s = Ok (tt, with_printed (cout_text out) s)) as Hprint.
  { unfold print_full_log. rewrite st_get_bind, Hths, Hfull. by st_lift_step Hout. }
  unfold returns, finish_round. eapply st_bind_total; [exact Hprint|].
  rewrite st_modify_bind, st_get_bind. simpl. rewrite Hths, Hseq.
  eapply st_bind_total; [apply st_lift_Ok; split; [exact Hok|done]|].
  destruct ok; simpl; [destruct (_ =? _)|]; by do 2 eexists.
Qed.

Lemma ResumeTask_total rec m fs tk i is_new s C thread n c :
  rec_ok cfg rec m → rec_total rec m → represents C s → frames s = fs ++ [mk_TFrame tk is_new] →
  c_threads C !! i = Some thread → length thread = S n → thread !! n = Some c →
  IsReturned c = false → token c = None → good c → good_tasks (c_threads C) → full_history s = full_of fs →
  (∀ c' o', plain_step c (c_obj C) c' o' →
     let C1 := run_conf is_new i n c' o' (if is_new then c_switches C else switches_to i C) C in
     ready C1 (fs ++ [mk_TFrame (Some (i, n)) is_new]) ∧ room C1 < m) →
  ∃ r s', ResumeTask cfg rec (length fs) (length fs) (c_switches C) i is_new s = Ok (r, s') ∧
    (stops r = false → full_history s' = full_history s ∧ good_tasks (threads s')).
Proof.
  intros Hrec Htotal HRep Hfr Ht Hn Hc Hr Htok Hg Hgood Hfull0 Hnext. unfold ResumeTask. rewrite st_get_bind. cbv zeta.
  assert (next_switches s (c_switches C) i is_new = if is_new then c_switches C else switches_to i C) as ->.
  { unfold next_switches, switches_to. by rewrite (re_ids _ _ HRep). }
  set (sw := if is_new then c_switches C else switches_to i C) in *.
  destruct (negb is_new && (max_switches cfg <? sw)).
  { do 2 eexists. split; [done|]. intros _. by rewrite (re_threads _ _ HRep). }
  rewrite <-(re_threads _ _ HRep) in Ht.
  destruct (run_task_total (length fs) i is_new s thread n c Ht Hn Hc Hr Htok Hg (re_status _ _ HRep))
    as (fin & s1 & Hrun & Hfull).
  eapply st_bind_total; [exact Hrun|].
  destruct (run_task_Ok _ Hsafe _ _ _ _ _ _ _ _ sw Hrun HRep Hfr)
    as (thread' & n' & c1 & c' & o' & Ht' & Hn' & Hc' & Hp & -> & HRep1 & Hfr1).
  rewrite (re_threads _ _ HRep) in Ht. assert (thread' = thread) as -> by congruence.
  assert (n' = n) as -> by congruence. assert (c1 = c) as -> by congruence.
  destruct (Hnext c' o' Hp) as [Hready Hroom]. rewrite <-Hfr1 in Hready.
  set (C1 := run_conf is_new i n c' o' sw C) in *. rewrite st_get_bind.
  assert (full_history s1 = full_of (frames s1)) as Hfull1 by (by rewrite Hfull, Hfull0, Hfr1, full_of_snoc).
  assert (∃ r s2, (if finished_tasks s1 =? max_tasks cfg then finish_round cfg else rec (length fs + 1) sw) s1 =
      Ok (r, s2) ∧ (stops r = false → full_history s2 = full_history s1 ∧ represents C1 s2))
    as (r & s2 & H2 & Hgo).
  { rewrite (re_finished _ _ HRep1). destruct (Nat.eqb_spec (c_finished C1) (max_tasks cfg)) as [Hmax|Hmax].
    - destruct (finish_round_total C1 s1 HRep1 Hready Hfull1 Hmax) as (r & s2 & E & Hf).
      exists r, s2. split; [done|]. intros Hs. split; [by apply Hf|].
      by apply (finish_round_Ok cfg m C1 s1 r s2 E HRep1 Hmax).
    - destruct (Htotal C1 s1 HRep1 Hready Hmax Hroom Hfull1) as (r & s2 & E & Hf). simpl in E.
      rewrite Hfr1, length_app in E. exists r, s2. split; [done|]. intros Hs. split; [by apply Hf|].
      apply (Hrec C1 s1 r s2); [by rewrite Hfr1, length_app|done|by destruct Hready|done|done]. }
  eapply st_bind_total; [exact H2|]. destruct (stops r) eqn:Hs.
  { do 2 eexists. split; [done|]. congruence. }
  destruct (Hgo eq_refl) as [Hfull2 HRep2]. rewrite Hfull in Hfull2.
  destruct (undo_row_total (IsReturned c') is_new s2 _ _ _ _ _ _ _ (re_seq _ _ HRep2) (re_ids _ _ HRep2) Hfull2)
    as (s3 & H3 & Hfull3 & Hths3).
  eapply st_bind_total; [exact H3|]. do 2 eexists. split; [done|]. intros _. split; [done|].
  rewrite Hths3, (re_threads _ _ HRep2). eapply replayable_good. by destruct Hready.
Qed.

Lemma Build_total b i w :
  b ∈ constructors cfg → generated_token w = None →
  ∃ args strs, Build b i (-1) w = Ok (New (tb_name b) args (-1), w) ∧ toStringList args = Ok strs.
Proof.
  intros Hb Hg. destruct (tt_gen Htot b i w Hb) as (a & strs & Ha & Hs). exists a, strs. split; [|done]. unfold Build. rewrite Ha.
  cbn [mbind outcome_bind]. by rewrite Hg.
Qed.

Lemma st_verify_total n is_new i s :
  ∃ v, st_verify n is_new i s = Ok (true, with_verifier v s).
Proof.
  destruct (proj1 (tt_permissive Htot) (mk_Created n is_new i) (verifier s)) as [v Hv]. exists v.
  unfold st_verify. rewrite st_get_bind. by st_lift_step Hv.
Qed.

Section rows_total.
Context (rec : nat → nat → stM TLAState (bool * Result)) (m : nat).
Context (Hrec : rec_ok cfg rec m) (Htotal : rec_total rec m).
Context (C : aconf) (fs : list TFrame).
Context (Hready : ready C fs) (Hopen : c_finished C ≠ max_tasks cfg) (Hroom : room C ≤ m).

Local Abbreviation at_row := (at_row C fs).

(** The tasks keep arguments that can be printed. *)
Lemma astep_texts i C1 :
  astep cfg i C C1 → (∀ r c, task_in (c_threads C) r = Some c → ∃ strs, GetStrArgs c = Ok strs) →
  ∀ r c, task_in (c_threads C1) r = Some c → ∃ strs, GetStrArgs c = Ok strs.
Proof.
  assert (∀ c o c' o', plain_step c o c' o' → GetStrArgs c' = GetStrArgs c) as Hargs.
  { intros c o c' o' [(_ & _ & E & _) _]%plain_step_same. unfold GetStrArgs. by rewrite E. }
  intros [thread n c c' o' Ht Hn Hc Hr _ Hp|thread b c w c' o' Ht _ _ _ Hb Hbuild Hp] Htx u d; simpl.
  - assert (task_in (c_threads C) (i, n) = Some c) as Hin by (apply task_in_Some; eauto).
    destruct (decide ((i, n) = u)) as [<-|Hne]; [|rewrite task_in_put_ne by done; apply Htx].
    rewrite (task_in_put_eq _ _ _ _ Hin). intros [= <-]. rewrite (Hargs _ _ _ _ Hp). by eapply Htx.
  - rewrite (put_new i thread) by done. intros [[_ ->]|Hd]%(task_in_push _ _ _ _ _ _ Ht); [|by eapply Htx].
    destruct (Build_total b i (mk_World (c_obj C) ∅ None None) Hb eq_refl) as (args & strs & Hbuild' & Hs).
    assert (c = New (tb_name b) args (-1)) as -> by congruence. rewrite (Hargs _ _ _ _ Hp). by exists strs.
Qed.

(** A configuration that the thread [i] steps to. *)
Lemma ready_step i C1 fs1 :
  astep cfg i C C1 → replayable fs1 (c_threads C1) (c_obj C1) → c_started C1 ≤ max_tasks cfg →
  length fs1 + room C1 ≤ length fs + room C → ready C1 fs1.
Proof.
  intros Hstep Hfs1 Hst Hroom1. destruct Hready as [_ _ Hne Hd Hw Htx Hdp].
  assert (length (c_threads C1) = length (c_threads C)) as Hlen
    by (destruct Hstep; simpl; unfold put_task; by rewrite ?length_alter).
  split; [done|done| |by eapply decided_step|congruence| |lia].
  - intros E. apply Hne. apply nil_length_inv. by rewrite <-Hlen, E.
  - by eapply astep_texts.
Qed.

Lemma Replay_row_total s :
  has_frames fs s → undone C s → good_tasks (threads s) →
  ∃ s', Replay cancel inner (length fs) s = Ok (tt, s') ∧ full_history s' = full_history s.
Proof.
  intros [f Hf] [Hst Hq _ _ _ _] Hg. eapply Replay_total; [by destruct Hready| |done|done|done].
  rewrite Hf. by eexists.
Qed.

Lemma set_frame_total s b :
  at_row s → ∃ s' tk, set_frame (length fs) (λ f, mk_TFrame (frame_task f) b) s = Ok (tt, s') ∧
    represents C s' ∧ frames s' = fs ++ [mk_TFrame tk b] ∧ full_history s' = full_history s.
Proof.
  intros Hrow. eexists. edestruct at_row_set_frame as [HRep [tk Hf]]; [exact Hrow|reflexivity|].
  exists tk. split_and!; [reflexivity|done|done|done].
Qed.

Lemma continue_task_total i thread n c s :
  at_row s → full_history s = full_of fs → c_threads C !! i = Some thread → length thread = S n → thread !! n = Some c →
  IsReturned c = false →
  returns stops (continue_task cfg cancel inner rec (length fs) (length fs) (c_switches C) i (GetName c)) s.
Proof.
  intros [HRep Hhf] Hf0 Ht Hn Hc Hr. unfold returns, continue_task.
  destruct (st_verify_total (GetName c) false i s) as [v Hv]. eapply st_bind_total; [exact Hv|]. cbn [negb].
  destruct (set_frame_total (with_verifier v s) false) as (s2 & tk & Hsf & HRep2 & Hfr2 & Hfull2);
    [split; [by apply represents_verifier|exact Hhf]|].
  eapply st_bind_total; [exact Hsf|].
  assert (task_in (c_threads C) (i, n) = Some c) as Hin by (apply task_in_Some; eauto).
  pose proof (rd_replayable _ _ Hready) as Hfs. pose proof (replayable_good _ _ _ Hfs) as Hgood.
  destruct (decide (switches_to i C ≤ max_switches cfg)) as [Hsw|Hsw].
  - destruct (ResumeTask_total rec m fs tk i false s2 C thread n c Hrec Htotal HRep2 Hfr2 Ht Hn Hc Hr)
      as (r & s3 & H3 & Hgo); [by eapply replayable_token|by eapply Hgood|done|by rewrite Hfull2| |].
    { intros c' o' Hp. pose proof (room_go i n C c c' o' (switches_to i C) Hin Hp (Hgood _ _ Hin)) as Hlt. simpl. split; [|lia].
      eapply ready_step; [by eapply astep_go|by eapply replayable_go|by destruct Hready|].
      rewrite length_app. simpl. lia. }
    eapply st_bind_total; [exact H3|]. destruct (stops r) eqn:Hs.
    { do 2 eexists. split; [done|]. congruence. }
    destruct (Hgo eq_refl) as [Hfull3 Hg3].
    eapply ResumeTask_run in H3 as (thread' & n' & c0 & c' & o' & Ht' & Hn' & Hc0 & Hp & _ & Hun);
      [|exact Hsafe|done|done|done|done|intros; eapply replayable_go; [exact Hfs|apply task_in_Some; eauto|done]].
    destruct (Hun Hs) as (Hhf3 & Hu & _).
    destruct (Replay_row_total s3 Hhf3) as (s4 & H4 & Hfull4); [by destruct Hu|done|].
    eapply st_bind_total; [exact H4|]. do 2 eexists. split; [done|]. intros _.
    by rewrite Hfull4, Hfull3, Hfull2.
  - assert (ResumeTask cfg rec (length fs) (length fs) (c_switches C) i false s2 = Ok ((false, None), s2)) as H3.
    { unfold ResumeTask. rewrite st_get_bind. cbv zeta. unfold next_switches. rewrite (re_ids _ _ HRep2).
      fold (switches_to i C). by rewrite (proj2 (Nat.ltb_lt _ _)) by lia. }
    eapply st_bind_total; [exact H3|]. simpl.
    destruct (Replay_row_total s2) as (s4 & H4 & Hfull4);
      [by eexists|by apply represents_undone|by rewrite (re_threads _ _ HRep2)|].
    eapply st_bind_total; [exact H4|]. do 2 eexists. split; [done|]. intros _. by rewrite Hfull4, Hfull2.
Qed.

Lemma thread_size_total i s thread : threads s !! i = Some thread → thread_size i s = Ok (length thread, s).
Proof. intros Ht. unfold thread_size. rewrite st_get_bind. by st_lift_step (vec_get_Some _ _ _ Ht). Qed.

Lemma drop_task_total i s thread c thread' :
  same_tasks (alter (λ t, t ++ [c]) i (c_threads C)) (threads s) → c_threads C !! i = Some thread →
  threads s !! i = Some thread' → 
  drop_task i s = Ok (tt, with_threads (<[i := removelast thread']> (threads s)) s) ∧
  length (removelast thread') = length thread.
Proof.
  intros [Hs _] Ht Ht'.
  pose proof (shape_added _ _ _ _ _ _ Ht Hs Ht') as Hlen.
  destruct thread' as [|x thread' _] using rev_ind; [done|]. rewrite removelast_last.
  rewrite length_app in Hlen. simpl in Hlen. split; [|lia].
  unfold drop_task. rewrite st_get_bind. st_lift_step (vec_get_Some _ _ _ Ht').
  by st_lift_step (vec_pop_back_snoc "tasks.pop_back()" thread' x).
Qed.

Lemma create_task_total i thread b s :
  represents C s → c_threads C !! i = Some thread → b ∈ constructors cfg →
  ∃ args s', let c := New (tb_name b) args (-1) in
    Build b i (-1) (mk_World (c_obj C) ∅ None None) = Ok (c, mk_World (c_obj C) ∅ None None) ∧
    create_task b i s = Ok (tt, s') ∧ represents (add_task i c C) s' ∧
    frames s' = frames s ∧ full_history s' = full_history s.
Proof.
  intros HRep Ht Hb. destruct (Build_total b i (world s) Hb) as (args & strs & Hbuild & _); [by destruct (re_quiet _ _ HRep)|].
  exists args. cbv zeta. eassert (create_task b i s = Ok (tt, _)) as Hcreate.
  { unfold create_task. rewrite st_get_bind. st_lift_step Hbuild. reflexivity. }
  eexists. rewrite (represents_world _ _ HRep) in Hbuild. split_and!; [done|exact Hcreate|..]; [|done..].
  eapply (create_task_Ok cfg Hsafe) in Hcreate as (c1 & args1 & Hbuild1 & Hc1 & HRep' & Hfr); [|done..].
  assert (c1 = New (tb_name b) args (-1)) as -> by congruence. done.
Qed.

(** The task just added to a thread is resumed, and what is below it tried. *)
Lemma resume_created_total i thread b args tk s (c := New (tb_name b) args (-1)) :
  represents (add_task i c C) s → frames s = fs ++ [mk_TFrame tk true] → full_history s = full_of fs →
  c_threads C !! i = Some thread → unfinished thread = None → c_started C < max_tasks cfg →
  length thread < max_depth cfg → b ∈ constructors cfg →
  Build b i (-1) (mk_World (c_obj C) ∅ None None) = Ok (c, mk_World (c_obj C) ∅ None None) →
  ∃ r s', ResumeTask cfg rec (length fs) (length fs) (c_switches C) i true s = Ok (r, s') ∧
    (stops r = false → has_frames fs s' ∧ full_history s' = full_history s ∧ good_tasks (threads s') ∧
      undone (mk_conf (c_threads (add_task i c C)) (c_obj C) (c_seq C) (c_ids C) (c_started C) (c_finished C)
        (c_switches C)) s').
Proof.
  intros HRep Hfr Hf0 Ht Hidle Hlt Hdepth Hb Hbuild. pose proof (rd_replayable _ _ Hready) as Hfs.
  assert (c_started C ≠ max_tasks cfg) as Hst by lia.
  assert (c_threads (add_task i c C) !! i = Some (thread ++ [c])) as Htc
    by (simpl; by rewrite list_lookup_alter_eq, Ht).
  assert (good_tasks (c_threads (add_task i c C))) as Hgood.
  { intros r d. simpl. rewrite (alter_as_insert _ _ _ thread) by done.
    intros [[_ ->]|?]%(task_in_push _ _ _ _ _ _ Ht); [apply good_New|by eapply replayable_good]. }
  destruct (ResumeTask_total rec m fs tk i true s (add_task i c C) (thread ++ [c]) (length thread) c
    Hrec Htotal HRep Hfr Htc) as (r & s' & H & Hgo); [| |done|done|apply good_New|exact Hgood|exact Hf0| |].
  { rewrite length_app. simpl. lia. }
  { by rewrite lookup_app_r, Nat.sub_diag by lia. }
  { intros c' o' Hp. pose proof (room_start i thread C c c' o' (c_switches C) Ht Hp (good_New _ _ _) Hlt) as Hroom1.
    simpl. split; [|lia].
    eapply ready_step; [by eapply (astep_start cfg i C thread b c)|by eapply replayable_added|simpl; lia|].
    rewrite length_app. simpl in *. lia. }
  exists r, s'. split; [exact H|]. intros Hs. destruct (Hgo Hs) as [Hfull Hg].
  eapply ResumeTask_run in H as (thread' & n' & c0 & c' & o' & Ht' & Hn' & Hc0 & Hp & _ & Hun);
    [|exact Hsafe|done|done|done|done|].
  2:{ intros thread' n' c0 c' o' Ht' Hn' Hc0 Hp.
      destruct (added_task C _ _ _ _ _ _ Ht Ht' Hn' Hc0) as [-> ->]. by eapply replayable_added. }
  destruct (Hun Hs) as (Hhf & Hu & _). simpl in Hu. rewrite Nat.add_sub in Hu. by split_and!.
Qed.

Lemma good_tasks_drop i thread ths :
  good_tasks ths → ths !! i = Some thread → good_tasks (<[i := removelast thread]> ths).
Proof.
  intros Hg Ht [th j] d (t & Hth & Hj)%task_in_Some. destruct (decide (i = th)) as [<-|Hne].
  - rewrite list_lookup_insert_eq in Hth by (by eapply lookup_lt_Some). injection Hth as <-.
    apply (Hg (i, j)), task_in_Some. exists thread. split; [done|].
    destruct thread as [|x thread _] using rev_ind; [done|]. rewrite removelast_last in Hj.
    by apply lookup_app_l_Some.
  - rewrite list_lookup_insert_ne in Hth by done. apply (Hg (th, j)), task_in_Some. eauto.
Qed.

(** The task is dropped again, and the row replayed. *)
Lemma drop_created_total i thread c s :
  has_frames fs s → good_tasks (threads s) → c_threads C !! i = Some thread →
  undone (mk_conf (c_threads (add_task i c C)) (c_obj C) (c_seq C) (c_ids C) (c_started C) (c_finished C)
    (c_switches C)) s →
  returns stops (
    _ ← drop_task i;
    size_after ← thread_size i;
    _ ← st_assert "size_before == size_after" (length thread =? size_after);
    _ ← Replay cancel inner (length fs);
    mret (false, None : Result)) s.
Proof.
  intros Hhf Hg Ht Hu. unfold returns.
  destruct (threads s !! i) as [thread'|] eqn:Ht'.
  2:{ destruct (un_tasks _ _ Hu) as [Hsh _]. simpl in Hsh. apply (f_equal (λ l, l !! i)) in Hsh.
      unfold shape in Hsh. rewrite !list_lookup_fmap, list_lookup_alter_eq, Ht, Ht' in Hsh. done. }
  destruct (drop_task_total i s thread c thread' (un_tasks _ _ Hu) Ht Ht') as [H1 Hlen].
  eapply st_bind_total; [exact H1|]. eapply drop_task_Ok in H1 as [Hu1 Hfr1]; [|exact Ht|exact Hu].
  eapply st_bind_total; [apply thread_size_total; simpl; apply list_lookup_insert_eq; by eapply lookup_lt_Some|].
  eapply st_bind_total; [apply (st_assert_Ok _ _ _ tt); split; [|done]; by rewrite Hlen, Nat.eqb_refl|].
  match goal with |- ∃ _ _, (_ ≫= _) ?st = _ ∧ _ => destruct (Replay_row_total st) as (s2 & H2 & Hfull) end.
  { destruct Hhf as [f Hf]. exists f. congruence. }
  { exact Hu1. }
  { by apply good_tasks_drop. }
  eapply st_bind_total; [exact H2|]. by do 2 eexists.
Qed.

Lemma try_constructor_total i thread b s :
  at_row s → full_history s = full_of fs → c_threads C !! i = Some thread → unfinished thread = None →
  c_started C ≠ max_tasks cfg → length thread < max_depth cfg → b ∈ constructors cfg →
  returns stops (try_constructor cfg cancel inner rec (length fs) (length fs) (c_switches C) i b) s.
Proof.
  intros [HRep Hhf] Hf0 Ht Hidle Hst Hdepth Hb. unfold returns, try_constructor.
  destruct (st_verify_total (tb_name b) true i s) as [v Hv]. eapply st_bind_total; [exact Hv|]. cbn [negb].
  destruct (set_frame_total (with_verifier v s) true) as (s2 & tk & Hsf & HRep2 & Hfr2 & Hfull2);
    [split; [by apply represents_verifier|exact Hhf]|].
  eapply st_bind_total; [exact Hsf|].
  assert (threads s2 !! i = Some thread) as Ht2 by (by rewrite (re_threads _ _ HRep2)).
  eapply st_bind_total; [by apply thread_size_total|].
  destruct (create_task_total i thread b s2 HRep2 Ht Hb) as (args & s3 & Hbuild & Hcreate & HRep3 & Hfr3 & Hfull3).
  eapply st_bind_total; [exact Hcreate|]. rewrite <-Hfr3 in Hfr2.
  destruct (resume_created_total i thread b args tk s3 HRep3 Hfr2 ltac:(by rewrite Hfull3, Hfull2) Ht Hidle) as (r & s4 & H4 & Hgo);
    [destruct Hready; lia|done..|].
  eapply st_bind_total; [exact H4|]. destruct (stops r) eqn:Hs; [do 2 eexists; split; [done|congruence]|].
  destruct (Hgo eq_refl) as (Hhf4 & Hfull4 & Hg4 & Hu4).
  destruct (drop_created_total i thread _ s4 Hhf4 Hg4 Ht Hu4) as (r5 & s5 & H5 & Hfull5).
  exists r5, s5. split; [exact H5|]. intros Hs5. by rewrite (Hfull5 Hs5), Hfull4, Hfull3, Hfull2.
Qed.

Lemma try_constructors_total i thread cs s :
  at_row s → full_history s = full_of fs → c_threads C !! i = Some thread → unfinished thread = None →
  c_started C ≠ max_tasks cfg → length thread < max_depth cfg → cs ⊆ constructors cfg →
  returns stops (try_constructors cfg cancel inner rec (length fs) (length fs) (c_switches C) i cs) s.
Proof.
  intros Hrow Hf0 Ht Hidle Hst Hdepth Hsub. revert s Hrow Hf0.
  induction cs as [|b cs IH]; intros s Hrow Hf0; unfold returns; cbn [try_constructors]; [by do 2 eexists|].
  destruct (try_constructor_total i thread b s) as (r & s1 & H1 & Hf1); [done..|set_solver|].
  eapply st_bind_total; [exact H1|]. destruct (stops r) eqn:Hs; [do 2 eexists; split; [done|congruence]|].
  eapply try_constructor_Ok in H1 as [_ Hgo];
    [|exact Hsafe|exact Hrec|by destruct Hready|done..|set_solver].
  destruct (Hgo Hs) as [Hrow1 _]. destruct (IH ltac:(set_solver) s1 Hrow1 ltac:(by rewrite Hf1)) as (r2 & s2 & H2 & Hf2).
  exists r2, s2. split; [done|]. intros Hs2. rewrite Hf2 by done. by apply Hf1.
Qed.

(** No thread is parked, so a row with a thread is not a deadlock. *)
Lemma try_thread_total i thread ap s :
  at_row s → full_history s = full_of fs → c_threads C !! i = Some thread →
  ∃ r s', try_thread cfg cancel inner rec (length fs) (length fs) (c_switches C) i ap s = Ok ((r, false), s') ∧
    (stops r = false → full_history s' = full_history s).
Proof.
  intros Hrow Hf0 Ht. unfold try_thread. rewrite st_get_bind. destruct Hrow as [HRep Hhf] eqn:E. clear E.
  assert (threads s !! i = Some thread) as Hts by (by rewrite (re_threads _ _ HRep)).
  rewrite (st_bind_eq _ _ _ _ _ (st_lift_eq _ _ _ (vec_get_Some _ _ _ Hts))).
  destruct (unfinished thread) as [c|] eqn:Hun.
  - destruct (unfinished_Some _ _ Hun) as (n & Hn & Hc & Hr).
    assert (IsParked c (world s) = false) as ->.
    { unfold IsParked. rewrite (replayable_token _ _ _ (i, n) c (rd_replayable _ _ Hready)); [done|].
      apply task_in_Some. eauto. }
    destruct (continue_task_total i thread n c s Hrow Hf0 Ht Hn Hc Hr) as (r & s1 & H1 & Hf1).
    st_step H1. by exists r, s1.
  - rewrite (re_started _ _ HRep).
    destruct (negb (c_started C =? max_tasks cfg) && (length thread <? max_depth cfg)) eqn:E; [|by do 2 eexists].
    apply andb_true_iff in E as [E1 E2]. apply negb_true_iff, Nat.eqb_neq in E1. apply Nat.ltb_lt in E2.
    destruct (try_constructors_total i thread (constructors cfg) s Hrow Hf0 Ht Hun E1 E2) as (r & s1 & H1 & Hf1); [done|].
    st_step H1. by exists r, s1.
Qed.

Lemma try_threads_total ids ap s :
  at_row s → full_history s = full_of fs → Forall (λ i, is_Some (c_threads C !! i)) ids →
  ∃ r ap' s', try_threads cfg cancel inner rec (length fs) (length fs) (c_switches C) ids ap s = Ok ((r, ap'), s') ∧
    (stops r = false → full_history s' = full_history s ∧ (ids ≠ [] → ap' = false) ∧ (ids = [] → ap' = ap)).
Proof.
  intros Hrow Hf0 Hids. revert ap s Hrow Hf0. induction Hids as [|i ids [thread Ht] _ IH]; intros ap s Hrow Hf0;
    cbn [try_threads]; [by exists (false, None), ap, s|].
  destruct (try_thread_total i thread ap s Hrow Hf0 Ht) as (r & s1 & H1 & Hf1). st_step H1. cbv beta iota.
  destruct (stops r) eqn:Hs; [exists r, false, s1; split; [done|congruence]|].
  eapply try_thread_Ok in H1 as [_ Hgo];
    [|exact Hsafe|exact Hrec|by destruct Hready|done..].
  destruct (Hgo Hs) as [Hrow1 _]. destruct (IH false s1 Hrow1 ltac:(by rewrite Hf1)) as (r2 & ap2 & s2 & H2 & Hf2).
  exists r2, ap2, s2. split; [done|]. intros Hs2. destruct (Hf2 Hs2) as (E & Hne & He).
  split_and!; [by rewrite E, Hf1| |done]. intros _. destruct ids; [by apply He|by apply Hne].
Qed.
End rows_total.

Lemma RunStep_total fuel : rec_total (RunStep cfg cancel inner fuel) fuel.
Proof.
  induction fuel as [|fuel IH]; intros C s HRep Hready Hopen Hroom Hf0; [lia|].
  unfold returns. cbn [RunStep]. rewrite st_get_bind. cbv zeta. rewrite st_put_bind.
  set (s0 := with_frames (frames s ++ [mk_TFrame None false]) s).
  assert (at_row C (frames s) s0) as Hrow by (split; [by apply represents_frames|by eexists]).
  pose proof (RunStep_ok cfg Hsafe cancel inner fuel) as Hrec.
  assert (Forall (λ i, is_Some (c_threads C !! i)) (seq 0 (length (threads s)))) as Hids.
  { rewrite (re_threads _ _ HRep). apply Forall_forall. intros i Hi%elem_of_seq. apply lookup_lt_is_Some. lia. }
  destruct (try_threads_total _ fuel Hrec IH C (frames s) Hready Hopen ltac:(lia) _ true s0 Hrow Hf0 Hids)
    as (r & ap & s1 & H1 & Hf1).
  eapply st_bind_total; [exact H1|]. cbv beta iota.
  destruct (stops r) eqn:Hs; [do 2 eexists; split; [done|congruence]|].
  destruct (Hf1 eq_refl) as (Hfull & Hap & _).
  assert (ap = false) as ->.
  { apply Hap. rewrite (re_threads _ _ HRep). pose proof (rd_threads _ _ Hready).
    by destruct (c_threads C). }
  eapply (try_threads_Ok cfg Hsafe) in H1 as [_ Hgo]; [|exact Hrec|by destruct Hready|exact Hopen|exact Hrow|exact Hids].
  destruct (Hgo Hs) as [[_ [f Hf]] _].
  eapply st_bind_total; [by apply (st_assert_Ok _ _ _ tt)|]. rewrite st_get_bind, Hf, vec_pop_back_snoc.
  eapply st_bind_total; [by apply st_lift_Ok|]. rewrite st_put_bind. do 2 eexists. by split.
Qed.

(** C22: [TLAScheduler::Run] returns on a well-behaved target: one that can be
    replayed ([replay_safe]: [Reset] restores the initial object, no tokens,
    generators that leave the object alone, a verifier that refuses nothing),
    whose methods make at most [bound] yields and announce no coroutines, whose
    generators always give arguments, of types that can be printed, and whose
    verifier never fails; with at least one thread and one task, a printer for as
    many threads, and a checker that answers on the complete executions.  Then a
    recursion depth of [max_tasks * (bound + 2)] is enough, no replay fails, no
    deadlock is reported, and every full history is printed, which asserts that
    the numbers of the tasks have at most seven digits (guaranteed by a depth of
    at most ten million). *)
Theorem Run_returns fuel threads_count :
  threads_count ≠ 0 → max_tasks cfg ≠ 0 → decided (conf_init threads_count) →
  max_tasks cfg * (bound + 2) < fuel → printer_threads = Z.of_nat threads_count →
  ∃ r s', Run cfg cancel inner fuel (init threads_count) = Ok (r, s').
Proof.
  intros Hn Hmax Hd Hfuel Hpp.
  assert (room (conf_init threads_count) = max_tasks cfg * (bound + 2)) as Hroom.
  { unfold room, total_budget. simpl. rewrite Nat.sub_0_r.
    assert (sum_list ((λ thread : list CoroBase, sum_list (task_budget budget <$> thread)) <$>
      replicate threads_count []) = 0) as -> by (clear; induction threads_count; simpl; done). lia. }
  destruct (RunStep_total fuel (conf_init threads_count) (init threads_count)) as (r & s' & H & _).
  - apply represents_init.
  - split; [constructor|simpl; lia|by destruct threads_count|done|simpl; by rewrite length_replicate| |by rewrite Hroom].
    intros [th i] c (thread & Ht & Hi)%task_in_Some. by apply lookup_replicate in Ht as [-> _].
  - done.
  - by rewrite Hroom.
  - done.
  - exists r.2, s'. unfold Run. by st_step H.
Qed.
End termination.
