(* ===== verification/YieldPass.v ===== *)
(** * YieldPass: the pass that puts the yields into the target (codegen/yieldpass.cpp)

    The compiler plugin inserts a call of [CoroYield] behind every load, store
    and read-modify-write of the functions annotated [ltest_nonatomic].  LLVM's
    instructions are a parameter: an interface with the queries that the pass
    makes, and what the pass relies on from a call it creates.  The pass is what
    makes a [Target]: a slice of a task runs from one of these yields to the
    next. *)

From stdpp Require Import base gmap strings option list.
From S2P Require Import Prelude.

(** [llvm::Instruction] and the queries on it. *)
Class LLVM := {
  Instruction : Type;
  isa_LoadInst : Instruction → bool;
  isa_StoreInst : Instruction → bool;
  isa_AtomicRMWInst : Instruction → bool;
  isa_CallInst : Instruction → bool;
  (** [getCalledFunction()->getName()] of a call. *)
  getCalledFunction : Instruction → option string;
  (** [CreateCall] of a function without arguments. *)
  CreateCall : string → Instruction;
}.

Class LLVMLaws `{LLVM} : Prop := {
  call_is_call f : isa_CallInst (CreateCall f) = true;
  call_callee f : getCalledFunction (CreateCall f) = Some f;
  call_no_load f : isa_LoadInst (CreateCall f) = false;
  call_no_store f : isa_StoreInst (CreateCall f) = false;
  call_no_rmw f : isa_AtomicRMWInst (CreateCall f) = false;
}.

(** A function with its basic blocks, and a module: its functions, and its
    globals with the annotated functions (function and annotation) they list. *)
Record Function `{LLVM} := mk_Function { F_name : string; blocks : list (list Instruction) }.
Arguments Function : clear implicits.
Arguments Function {_}.
Arguments mk_Function {_} _ _.

Record IRModule `{LLVM} := mk_Module { functions : list Function; globals : list (string * list (string * string)) }.
Arguments IRModule : clear implicits.
Arguments IRModule {_}.
Arguments mk_Module {_} _ _.

Definition nonatomic_attr : string := "ltest_nonatomic".
Definition CoroYieldF : string := "CoroYield".

Section pass.
Context `{HL : LLVM}.

(** ** The annotations (yieldpass.cpp:14-37) *)

Definition FunIndex : Type := gset (string * string).

Fixpoint index_entries (entries : list (string * string)) (index : FunIndex) : FunIndex :=
  match entries with
  | [] => index
  | (fn, annotation) :: entries => index_entries entries ({[(annotation, fn)]} ∪ index)
  end.

Fixpoint index_globals (gs : list (string * list (string * string))) (index : FunIndex) : FunIndex :=
  match gs with
  | [] => index
  | (name, entries) :: gs =>
      index_globals gs (if String.eqb name "llvm.global.annotations" then index_entries entries index else index)
  end.

Definition CreateFunIndex (M : IRModule) : FunIndex := index_globals (globals M) ∅.

Definition HasAttribute (index : FunIndex) (name attr : string) : bool := bool_decide ((attr, name) ∈ index).

(** ** [YieldInserter] (yieldpass.cpp:39-97) *)

Definition IsTarget (fun_name : string) (index : FunIndex) : bool := HasAttribute index fun_name nonatomic_attr.

Definition NeedInterrupt (insn : Instruction) : bool :=
  isa_LoadInst insn || isa_StoreInst insn || isa_AtomicRMWInst insn.

Definition ItsYieldInst (inst : Instruction) : bool :=
  isa_CallInst inst &&
  match getCalledFunction inst with
  | Some name => negb (String.eqb name "") && String.eqb name CoroYieldF
  | None => false
  end.

(** The loop over a block: [std::next] of the end of an empty block is undefined. *)
Fixpoint insert_block (b : list Instruction) : outcome (list Instruction) :=
  match b with
  | [] => Fail (Undefined "std::next(B.end())")
  | it :: rest =>
      match rest with
      | [] => Ok [it]
      | next :: _ =>
          rest' ← insert_block rest;
          Ok (if NeedInterrupt it && negb (ItsYieldInst next) then it :: CreateCall CoroYieldF :: rest' else it :: rest')
      end
  end.

Fixpoint insert_blocks (bs : list (list Instruction)) : outcome (list (list Instruction)) :=
  match bs with
  | [] => Ok []
  | b :: bs => b' ← insert_block b; bs' ← insert_blocks bs; Ok (b' :: bs')
  end.

Definition InsertYields (F : Function) : outcome Function :=
  bs ← insert_blocks (blocks F); Ok (mk_Function (F_name F) bs).

Fixpoint run_functions (index : FunIndex) (fs : list Function) : outcome (list Function) :=
  match fs with
  | [] => Ok []
  | F :: fs =>
      F' ← (if IsTarget (F_name F) index then InsertYields F else Ok F);
      fs' ← run_functions index fs;
      Ok (F' :: fs')
  end.

(** [YieldInsertPass::run]. *)
Definition YieldInsertPass (M : IRModule) : outcome IRModule :=
  fs ← run_functions (CreateFunIndex M) (functions M); Ok (mk_Module fs (globals M)).

(** ** Correctness *)

Context `{HLL : !LLVMLaws}.

(** Every access to memory that is not the end of its block yields. *)
Definition accesses (i : Instruction) : Prop :=
  isa_LoadInst i = true ∨ isa_StoreInst i = true ∨ isa_AtomicRMWInst i = true.
Definition yields (b : list Instruction) : Prop :=
  ∀ k i j, b !! k = Some i → b !! S k = Some j → accesses i → ItsYieldInst j = true.

Lemma NeedInterrupt_accesses i : NeedInterrupt i = true ↔ accesses i.
Proof. unfold NeedInterrupt, accesses. rewrite !orb_true_iff. tauto. Qed.

(** Where a yield is missing: behind an access that is followed by something
    else; and the block with exactly these yields added. *)
Definition lacks_yield (b : list Instruction) (k : nat) : bool :=
  match b !! k, b !! S k with
  | Some i, Some j => NeedInterrupt i && negb (ItsYieldInst j)
  | _, _ => false
  end.
Definition with_yields (b : list Instruction) : list Instruction :=
  concat (imap (λ k i, if lacks_yield b k then [i; CreateCall CoroYieldF] else [i]) b).

Lemma CreateCall_yield : ItsYieldInst (CreateCall CoroYieldF) = true.
Proof. unfold ItsYieldInst. by rewrite call_is_call, call_callee. Qed.

Lemma CreateCall_plain : NeedInterrupt (CreateCall CoroYieldF) = false.
Proof. unfold NeedInterrupt. by rewrite call_no_load, call_no_store, call_no_rmw. Qed.

(** One step of the loop, and the instruction the rest starts with. *)
Lemma insert_block_cons it next rest b' :
  insert_block (it :: next :: rest) = Ok b' →
  ∃ rest', insert_block (next :: rest) = Ok (next :: rest') ∧
    b' = (if NeedInterrupt it && negb (ItsYieldInst next) then it :: CreateCall CoroYieldF :: next :: rest'
          else it :: next :: rest').
Proof.
  intros H. change (insert_block (it :: next :: rest)) with (rest' ← insert_block (next :: rest);
    Ok (if NeedInterrupt it && negb (ItsYieldInst next) then it :: CreateCall CoroYieldF :: rest' else it :: rest')) in H.
  apply bind_Ok in H as (l & Hl & [= <-]).
  assert (∃ rest', l = next :: rest') as [rest' ->]; [|by exists rest'].
  destruct rest as [|x rest]; simpl in Hl; [injection Hl as <-; by eexists|].
  apply bind_Ok in Hl as (l' & _ & [= <-]). destruct (_ && _); by eexists.
Qed.

Lemma yields_cons i j b : (accesses i → ItsYieldInst j = true) → yields (j :: b) → yields (i :: j :: b).
Proof. intros Hij H [|k] x y Hx Hy Hn; simplify_eq/=; [auto|by eapply H]. Qed.

Lemma insert_block_yields b b' : insert_block b = Ok b' → yields b'.
Proof.
  revert b'. induction b as [|it [|next rest] IH]; intros b' H; [done| |].
  - injection H as <-. intros [|k] i j Hi Hj; simplify_eq/=.
  - apply insert_block_cons in H as (rest' & Hrest & ->). specialize (IH _ Hrest).
    destruct (NeedInterrupt it && negb (ItsYieldInst next)) eqn:E.
    + apply yields_cons; [intros _; apply CreateCall_yield|]. apply yields_cons; [|done].
      intros Hn%NeedInterrupt_accesses. by rewrite CreateCall_plain in Hn.
    + apply yields_cons; [|done]. intros Hn%NeedInterrupt_accesses. rewrite Hn in E. by destruct (ItsYieldInst next).
Qed.

(** The loop adds exactly the yields that are missing. *)
Lemma insert_block_with_yields b b' : insert_block b = Ok b' → b' = with_yields b.
Proof.
  revert b'. induction b as [|it [|next rest] IH]; intros b' H; [done|by injection H as <-|].
  apply insert_block_cons in H as (rest' & Hrest & ->). specialize (IH _ Hrest).
  change (with_yields (it :: next :: rest)) with
    ((if NeedInterrupt it && negb (ItsYieldInst next) then [it; CreateCall CoroYieldF] else [it])
     ++ with_yields (next :: rest)).
  rewrite <-IH. by destruct (_ && _).
Qed.

(** A block in which everything yields is left as it is. *)
Lemma insert_block_id b : b ≠ [] → yields b → insert_block b = Ok b.
Proof.
  induction b as [|it [|next rest] IH]; intros Hne Hy; [done..|].
  change (insert_block (it :: next :: rest)) with (rest' ← insert_block (next :: rest);
    Ok (if NeedInterrupt it && negb (ItsYieldInst next) then it :: CreateCall CoroYieldF :: rest' else it :: rest')).
  rewrite IH; [|done|intros k i j Hi Hj; by apply (Hy (S k))]. simpl.
  destruct (NeedInterrupt it) eqn:E; [|done]. apply NeedInterrupt_accesses in E.
  by rewrite (Hy 0 it next eq_refl eq_refl E).
Qed.

Lemma insert_block_total b : b ≠ [] → ∃ b', insert_block b = Ok b'.
Proof.
  induction b as [|it [|next rest] IH]; intros Hne; [done|by eexists|].
  destruct IH as [b' Hb']; [done|]. eexists.
  change (insert_block (it :: next :: rest)) with (rest' ← insert_block (next :: rest);
    Ok (if NeedInterrupt it && negb (ItsYieldInst next) then it :: CreateCall CoroYieldF :: rest' else it :: rest')).
  by rewrite Hb'.
Qed.

Lemma insert_blocks_Ok bs bs' : insert_blocks bs = Ok bs' ↔ Forall2 (λ b b', insert_block b = Ok b') bs bs'.
Proof.
  revert bs'. induction bs as [|b bs IH]; intros bs'; simpl.
  { split; [intros [= <-]; constructor|by intros ->%Forall2_nil_inv_l]. }
  split.
  - intros (l & Hl & (ls & Hls & [= <-])%bind_Ok)%bind_Ok. constructor; [done|by apply IH].
  - intros (l & ls & Hl & Hls & ->)%Forall2_cons_inv_l. rewrite Hl. simpl. apply IH in Hls. by rewrite Hls.
Qed.

(** [F'] is [F] with the missing yields, so that every access has its yield. *)
Definition interrupted (F F' : Function) : Prop :=
  F_name F' = F_name F ∧ blocks F' = with_yields <$> blocks F ∧ Forall yields (blocks F').

Lemma InsertYields_Ok F F' : InsertYields F = Ok F' → interrupted F F'.
Proof.
  intros (bs & Hbs & [= <-])%bind_Ok. split; [done|]. apply insert_blocks_Ok in Hbs. simpl.
  induction Hbs as [|b b' bs bs' Hb _ [IH1 IH2]]; [done|]. split.
  - simpl. rewrite IH1. f_equal. by apply insert_block_with_yields.
  - constructor; [by eapply insert_block_yields|done].
Qed.

Lemma run_functions_Ok index fs fs' :
  run_functions index fs = Ok fs' ↔
  Forall2 (λ F F', (if IsTarget (F_name F) index then InsertYields F else Ok F) = Ok F') fs fs'.
Proof.
  revert fs'. induction fs as [|F fs IH]; intros fs'; cbn [run_functions].
  { split; [intros [= <-]; constructor|by intros ->%Forall2_nil_inv_l]. }
  split.
  - intros (F' & HF & (fs1 & Hfs & [= <-])%bind_Ok)%bind_Ok. constructor; [done|by apply IH].
  - intros (F' & fs1 & HF & Hfs & ->)%Forall2_cons_inv_l. rewrite HF. simpl. apply IH in Hfs. by rewrite Hfs.
Qed.

(** The annotations of the module. *)
Definition annotated (M : IRModule) (fn annotation : string) : Prop :=
  ∃ entries, ("llvm.global.annotations", entries) ∈ globals M ∧ (fn, annotation) ∈ entries.

Lemma index_entries_elem entries index x :
  x ∈ index_entries entries index ↔ x ∈ index ∨ (x.2, x.1) ∈ entries.
Proof.
  revert index. induction entries as [|[fn a] entries IH]; intros index; simpl.
  { split; [by left|]. by intros [?|?%not_elem_of_nil]. }
  rewrite IH, elem_of_union, elem_of_singleton, elem_of_cons. destruct x as [a' fn']; simpl. naive_solver.
Qed.

Lemma index_globals_elem gs index x :
  x ∈ index_globals gs index ↔ x ∈ index ∨ ∃ entries, ("llvm.global.annotations", entries) ∈ gs ∧ (x.2, x.1) ∈ entries.
Proof.
  revert index. induction gs as [|[name entries] gs IH]; intros index; simpl.
  { split; [by left|]. by intros [?|(entries & ?%not_elem_of_nil & _)]. }
  rewrite IH. setoid_rewrite elem_of_cons. destruct (String.eqb_spec name "llvm.global.annotations") as [->|Hne].
  - rewrite index_entries_elem. naive_solver.
  - naive_solver.
Qed.

Lemma IsTarget_spec M fn : IsTarget fn (CreateFunIndex M) = true ↔ annotated M fn nonatomic_attr.
Proof.
  unfold IsTarget, HasAttribute, CreateFunIndex. rewrite bool_decide_eq_true, index_globals_elem. unfold annotated. simpl.
  split; [by intros [?%not_elem_of_empty|?]|by right].
Qed.

(** C33: In every function annotated [ltest_nonatomic] the pass inserts a call
    of [CoroYield] behind exactly those loads, stores and read-modify-writes
    that are followed by another instruction than such a call, and changes
    nothing else in it; then each access that does not end its block has a yield
    behind it.  The other functions and the globals stay as they are. *)
Theorem YieldInsertPass_spec M M' :
  YieldInsertPass M = Ok M' →
  globals M' = globals M ∧
  Forall2 (λ F F', (annotated M (F_name F) nonatomic_attr → interrupted F F') ∧
                   (¬ annotated M (F_name F) nonatomic_attr → F' = F)) (functions M) (functions M').
Proof.
  intros (fs & Hfs & [= <-])%bind_Ok. split; [done|]. simpl. apply run_functions_Ok in Hfs.
  eapply Forall2_impl; [exact Hfs|]. intros F F' H. simpl in H. rewrite <-IsTarget_spec.
  destruct (IsTarget _ _); split; [intros _; by apply InsertYields_Ok|done|done|intros _; by injection H as <-].
Qed.

Lemma insert_blocks_idempotent bs : Forall (λ b, b ≠ []) bs →
  ∃ bs', insert_blocks bs = Ok bs' ∧ insert_blocks bs' = Ok bs'.
Proof.
  induction 1 as [|b bs Hb _ (bs' & Hb1 & Hb2)]; [by exists []|].
  destruct (insert_block_total b Hb) as [b' Hb']. exists (b' :: bs'). simpl. rewrite Hb', Hb1. simpl.
  rewrite insert_block_id; [by rewrite Hb2| |by eapply insert_block_yields].
  intros ->. destruct b as [|i [|j b]]; [done..|]. apply insert_block_cons in Hb' as (? & _ & ?).
  by destruct (_ && _).
Qed.

Lemma run_functions_idempotent index fs : Forall (λ F, Forall (λ b, b ≠ []) (blocks F)) fs →
  ∃ fs', run_functions index fs = Ok fs' ∧ run_functions index fs' = Ok fs'.
Proof.
  induction 1 as [|[name bs] fs HF _ (fs' & IH1 & IH2)]; [by exists []|].
  destruct (insert_blocks_idempotent bs HF) as (bs' & Hb1 & Hb2).
  exists (mk_Function name (if IsTarget name index then bs' else bs) :: fs'). cbn [run_functions]. simpl.
  rewrite IH1, IH2. unfold InsertYields. simpl. destruct (IsTarget name index); [|done]. by rewrite Hb1, Hb2.
Qed.

(** On a module whose blocks are not empty the pass returns, and running it
    again changes nothing. *)
Theorem YieldInsertPass_idempotent M :
  Forall (λ F, Forall (λ b, b ≠ []) (blocks F)) (functions M) →
  ∃ M', YieldInsertPass M = Ok M' ∧ YieldInsertPass M' = Ok M'.
Proof.
  intros (fs & H1 & H2)%(run_functions_idempotent (CreateFunIndex M)).
  exists (mk_Module fs (globals M)). unfold YieldInsertPass. rewrite H1. split; [done|]. simpl.
  change (CreateFunIndex (mk_Module fs (globals M))) with (CreateFunIndex M). by rewrite H2.
Qed.
End pass.
