(* ===== verification/CoYieldPass.v ===== *)
(** * CoYieldPass: the pass that announces coroutines (codegen/coyieldpass.cpp)

    The plugin reads a list of filters and calls [CoroutineStatusChange] before
    and behind the calls they select, and around [co_await] expressions.  It
    inserts into the blocks while it iterates over them, so the model keeps a
    cursor into a function that insertions move.  With filters that name their
    coroutine the pass ends and only inserts; a filter without a name also
    selects the calls the pass has just inserted, and it never ends. *)

From stdpp Require Import base gmap strings option list_numbers list.
From S2P Require Import Prelude YieldPass.

(** What the pass asks of LLVM besides YieldPass.v: the destinations of an
    invoke, the first insertion point of a block, the call of
    [CoroutineStatusChange] with a name and a flag, and [demangle]. *)
Class CoLLVM `{LLVM} := {
  dyn_cast_InvokeInst : Instruction → option (nat * nat);
  getFirstInsertionPt : list Instruction → nat;
  CreateStatusCall : string → bool → Instruction;
  demangle : string → string;
}.

Definition costatus_change : string := "CoroutineStatusChange".
Definition co_expr_start : string := "::await_ready".
Definition co_expr_end : string := "::await_resume".
Definition co_initial_suspend : string := "::initial_suspend()".
Definition co_final_suspend : string := "::final_suspend()".

Class CoLLVMLaws `{CoLLVM} : Prop := {
  status_is_call n s : isa_CallInst (CreateStatusCall n s) = true;
  status_callee n s : getCalledFunction (CreateStatusCall n s) = Some costatus_change;
  status_no_invoke n s : dyn_cast_InvokeInst (CreateStatusCall n s) = None;
}.

Record CoroutineFilter := mk_Filter {
  parent_name : option string;
  co_name : option string;
  print_name : string;
}.

(** [std::string::find]. *)
Definition find (s sub : string) : option nat := String.index 0 sub s.

Section pass.
Context `{HL : LLVM} `{HCL : !CoLLVM}.

(** ** The cursor *)

Record Cursor := mk_Cursor { fn_blocks : list (list Instruction); cur_block : nat; cur_pos : nat }.

Definition insert_list (p : nat) (x : Instruction) (b : list Instruction) : list Instruction :=
  take p b ++ x :: drop p b.

(** Inserting at a position keeps the cursor on its instruction. *)
Definition insert_at (bl p : nat) (x : Instruction) (c : Cursor) : Cursor :=
  mk_Cursor (alter (insert_list p x) bl (fn_blocks c)) (cur_block c)
    (if (bl =? cur_block c) && (p <=? cur_pos c) then S (cur_pos c) else cur_pos c).

(** [builder.SetInsertPoint(call)], [call->getNextNode()] and
    [dest->getFirstInsertionPt()], with [InsertCall] (coyieldpass.cpp:209-221). *)
Definition insert_before (x : Instruction) (c : Cursor) : outcome Cursor :=
  Ok (insert_at (cur_block c) (cur_pos c) x c).
Definition insert_after (x : Instruction) (c : Cursor) : outcome Cursor :=
  b ← vec_get (fn_blocks c) (cur_block c);
  if S (cur_pos c) <? length b then Ok (insert_at (cur_block c) (S (cur_pos c)) x c)
  else Fail (Undefined "call->getNextNode()").
Definition insert_first (bl : nat) (x : Instruction) (c : Cursor) : outcome Cursor :=
  b ← vec_get (fn_blocks c) bl; Ok (insert_at bl (getFirstInsertionPt b) x c).

Definition InsertCall (f : CoroutineFilter) (start : bool) : Instruction := CreateStatusCall (print_name f) start.

(** [!a.co_name || a.co_name == name]. *)
Definition selects (name : string) (a : CoroutineFilter) : bool :=
  match co_name a with None => true | Some n => String.eqb n name end.

(** ** [InsertCallWithFilter] (coyieldpass.cpp:193-207) *)

Definition InsertCallWithFilter (filt : list CoroutineFilter) (name : string)
    (put : Instruction → Cursor → outcome Cursor) (start : bool) (end_pos : nat) (c : Cursor) : outcome Cursor :=
  match List.filter (selects (String.substring 0 end_pos name)) filt with
  | [] => Ok c
  | f :: _ => put (InsertCall f start) c
  end.

(** ** [InsertYields] (coyieldpass.cpp:101-191) *)

(** The calls that a filter selects (lines 132-148). *)
Definition insert_around (f : CoroutineFilter) (invoke : option (nat * nat)) (c : Cursor) : outcome Cursor :=
  c ← insert_before (InsertCall f true) c;
  match invoke with
  | Some (normal, unwind) =>
      c ← insert_first normal (InsertCall f false) c; insert_first unwind (InsertCall f false) c
  | None => insert_after (InsertCall f false) c
  end.

(** The parts of a [co_await] expression (lines 153-188). *)
Definition insert_await (filt : list CoroutineFilter) (name : string) (skip : nat) (c : Cursor)
    : outcome (Cursor * nat) :=
  match find name co_initial_suspend with
  | Some pos => c ← InsertCallWithFilter filt name insert_before true pos c; Ok (c, 2)
  | None =>
  match find name co_final_suspend with
  | Some pos => c ← InsertCallWithFilter filt name insert_after false pos c; Ok (c, 2)
  | None =>
  match find name co_expr_start with
  | Some pos =>
      if negb (skip =? 0) then _ ← assert "skip_insert_points == 2" (skip =? 2); Ok (c, skip - 1)
      else c ← InsertCallWithFilter filt name insert_before true pos c; Ok (c, skip)
  | None =>
  match find name co_expr_end with
  | Some pos =>
      if negb (skip =? 0) then _ ← assert "skip_insert_points == 1" (skip =? 1); Ok (c, skip - 1)
      else c ← InsertCallWithFilter filt name insert_after false pos c; Ok (c, skip)
  | None => Ok (c, skip)
  end end end end.

(** The body of the loops. *)
Definition visit (filt : list CoroutineFilter) (i : Instruction) (skip : nat) (c : Cursor) : outcome (Cursor * nat) :=
  let invoke := dyn_cast_InvokeInst i in
  if isa_CallInst i || bool_decide (is_Some invoke) then
    match getCalledFunction i with
    | None => Ok (c, skip)
    | Some raw_fn_name =>
        let name := demangle raw_fn_name in
        match List.filter (selects name) filt with
        | f :: _ => c ← insert_around f invoke c; Ok (c, skip)
        | [] => if isa_CallInst i then insert_await filt name skip c else Ok (c, skip)
        end
    end
  else Ok (c, skip).

(** The loops over the blocks and their instructions. *)
Fixpoint visit_all (fuel : nat) (filt : list CoroutineFilter) (skip : nat) (c : Cursor) : outcome (list (list Instruction)) :=
  match fuel with
  | 0 => Fail OutOfFuel
  | S fuel =>
      match fn_blocks c !! cur_block c with
      | None => Ok (fn_blocks c)
      | Some b =>
          match b !! cur_pos c with
          | None => visit_all fuel filt skip (mk_Cursor (fn_blocks c) (S (cur_block c)) 0)
          | Some i =>
              '(c, skip) ← visit filt i skip c;
              visit_all fuel filt skip (mk_Cursor (fn_blocks c) (cur_block c) (S (cur_pos c)))
          end
      end
  end.

Definition InsertYields (fuel : nat) (filt : list CoroutineFilter) (f : Function) : outcome Function :=
  bs ← visit_all fuel filt 0 (mk_Cursor (blocks f) 0 0); Ok (mk_Function (F_name f) bs).

(** ** [Run] (coyieldpass.cpp:86-98) *)

Definition applies (demangled : string) (a : CoroutineFilter) : bool :=
  match parent_name a with None => true | Some n => String.eqb n demangled end.

Fixpoint run_filters (fuel : nat) (co_filter : list CoroutineFilter) (fs : list Function) : outcome (list Function) :=
  match fs with
  | [] => Ok []
  | f :: fs =>
      f' ← (match List.filter (applies (demangle (F_name f))) co_filter with
            | [] => Ok f
            | filt => InsertYields fuel filt f
            end);
      fs' ← run_filters fuel co_filter fs;
      Ok (f' :: fs')
  end.

Definition CoYieldRun (fuel : nat) (co_filter : list CoroutineFilter) (m : IRModule) : outcome IRModule :=
  fs ← run_filters fuel co_filter (functions m); Ok (mk_Module fs (globals m)).

(** ** The plugin (coyieldpass.cpp:44-72, 230-252)

    Reading a file and LLVM's YAML parser, which yields the mappings of a
    sequence (of the three keys it is asked for, or an error), are parameters. *)

(** [MappingTraits<CoroutineFilter>::mapping]: a missing [Name] is an error. *)
Definition mapping (io : gmap string string) : option CoroutineFilter :=
  name ← io !! "Name"; Some (mk_Filter (io !! "Parent") (io !! "Coroutine") name).

(** [report_fatal_error]. *)
Definition report_fatal_error {A} (message : string) : outcome A := Fail (RuntimeError message).

Definition CoYieldInsertPass (getFile : string → option string) (yaml : string → option (list (gmap string string)))
    (fuel : nat) (input_list : string) (m : IRModule) : outcome IRModule :=
  if String.eqb input_list "" then report_fatal_error "No file  with coroutines list"
  else
    match getFile input_list with
    | None => report_fatal_error "Failed to load config file"
    | Some buffer =>
        match ios ← yaml buffer; mapM mapping ios with
        | None => report_fatal_error "Error parsing YAML"
        | Some filt => CoYieldRun fuel filt m
        end
    end.

(** The pass runs with the filters of the file, in the order of the file, or
    not at all. *)
Lemma CoYieldInsertPass_Ok getFile yaml fuel input_list m m' :
  CoYieldInsertPass getFile yaml fuel input_list m = Ok m' ↔
  input_list ≠ "" ∧ ∃ buffer ios filt, getFile input_list = Some buffer ∧ yaml buffer = Some ios ∧
    Forall2 (λ io f, mapping io = Some f) ios filt ∧ CoYieldRun fuel filt m = Ok m'.
Proof.
  unfold CoYieldInsertPass. destruct (String.eqb_spec input_list "") as [->|Hne]; [naive_solver|].
  destruct (getFile input_list) as [buffer|] eqn:Hb; [|naive_solver].
  destruct (yaml buffer) as [ios|] eqn:Hy; cbn [mbind option_bind]; [|split; naive_solver].
  destruct (mapM mapping ios) as [filt|] eqn:Hm.
  - apply mapM_Some in Hm. split; [intros H; split; [done|]; by exists buffer, ios, filt|].
    intros (_ & ? & ios' & filt' & [= <-] & Hy' & Hf & H). assert (ios' = ios) as -> by congruence.
    assert (filt' = filt) as -> by (apply mapM_Some in Hm, Hf; congruence). done.
  - split; [done|]. intros (_ & ? & ? & filt' & [= <-] & Hy' & Hf%mapM_Some & H). congruence.
Qed.

(** ** Only calls of [CoroutineStatusChange] are inserted *)

Context `{HLL : !CoLLVMLaws}.

(** A call the pass inserts, and code without them. *)
Definition status (i : Instruction) : bool :=
  isa_CallInst i && match getCalledFunction i with Some f => String.eqb f costatus_change | None => false end.
Definition no_invoke (i : Instruction) : bool :=
  match dyn_cast_InvokeInst i with Some _ => false | None => true end.
Definition erase (b : list Instruction) : list Instruction := List.filter (λ i, negb (status i)) b.

Lemma CreateStatusCall_status n s : status (CreateStatusCall n s) = true.
Proof. unfold status. by rewrite status_is_call, status_callee. Qed.

Lemma erase_insert p x b : status x = true → erase (insert_list p x b) = erase b.
Proof.
  intros Hx. unfold erase, insert_list. rewrite List.filter_app. simpl. rewrite Hx. simpl.
  by rewrite <-List.filter_app, take_drop.
Qed.

Lemma erase_insert_at bl p x c : status x = true → erase <$> fn_blocks (insert_at bl p x c) = erase <$> fn_blocks c.
Proof.
  intros Hx. simpl. generalize (fn_blocks c) as bs. clear c. intros bs. revert bl.
  induction bs as [|b bs IH]; intros [|bl]; [done..| |].
  - change (alter (insert_list p x) 0 (b :: bs)) with (insert_list p x b :: bs).
    by rewrite !fmap_cons, erase_insert by done.
  - change (alter (insert_list p x) (S bl) (b :: bs)) with (b :: alter (insert_list p x) bl bs).
    by rewrite !fmap_cons, IH.
Qed.

(** The measure of what the cursor has still to visit: an instruction of the
    function counts for itself and the calls that may be put behind it. *)
Definition weight (i : Instruction) : nat := if status i then 1 else 4.
Definition block_weight (b : list Instruction) : nat := sum_list (weight <$> b).
Fixpoint todo (bs : list (list Instruction)) (bl pos : nat) : nat :=
  match bs with
  | [] => 0
  | b :: bs =>
      match bl with
      | 0 => S (block_weight (drop pos b)) + sum_list ((λ b, S (block_weight b)) <$> bs)
      | S bl => todo bs bl pos
      end
  end.

Lemma block_weight_app b1 b2 : block_weight (b1 ++ b2) = block_weight b1 + block_weight b2.
Proof. unfold block_weight. by rewrite fmap_app, sum_list_with_app. Qed.

Lemma block_weight_insert p x b : status x = true → block_weight (insert_list p x b) = S (block_weight b).
Proof.
  intros Hx. unfold insert_list. rewrite block_weight_app. change (block_weight (x :: ?l)) with (weight x + block_weight l).
  rewrite <-(take_drop p b) at 3. rewrite block_weight_app. unfold weight at 1. rewrite Hx. lia.
Qed.

Lemma weights_insert p x bl bs : status x = true →
  sum_list ((λ b, S (block_weight b)) <$> alter (insert_list p x) bl bs) ≤
  S (sum_list ((λ b, S (block_weight b)) <$> bs)).
Proof.
  intros Hx. revert bl. induction bs as [|b bs IH]; intros [|bl]; [simpl; lia..| |].
  - change (alter (insert_list p x) 0 (b :: bs)) with (insert_list p x b :: bs).
    rewrite !fmap_cons. simpl. rewrite block_weight_insert by done. lia.
  - change (alter (insert_list p x) (S bl) (b :: bs)) with (b :: alter (insert_list p x) bl bs).
    rewrite !fmap_cons. specialize (IH bl). simpl. lia.
Qed.

(** An insertion leaves the cursor on its instruction, and one call more to
    visit at most. *)
Definition moved (bl p cb pos : nat) : nat := if (bl =? cb) && (p <=? pos) then S pos else pos.

Lemma lookup_insert_list p x b pos i :
  b !! pos = Some i → insert_list p x b !! (if p <=? pos then S pos else pos) = Some i.
Proof.
  intros Hi. pose proof (lookup_lt_Some _ _ _ Hi) as Hlt. unfold insert_list. destruct (Nat.leb_spec p pos).
  - rewrite lookup_app_r, length_take, Nat.min_l by (rewrite ?length_take; lia).
    replace (S pos - p) with (S (pos - p)) by lia. simpl. rewrite lookup_drop. rewrite <-Hi. f_equal. lia.
  - rewrite lookup_app_l by (rewrite length_take; lia). by rewrite lookup_take_lt by lia.
Qed.

Lemma block_weight_split pos b : block_weight b = block_weight (take pos b) + block_weight (drop pos b).
Proof. by rewrite <-block_weight_app, take_drop. Qed.

Lemma drop_insert p x b pos : status x = true → pos < length b →
  block_weight (drop (S (if p <=? pos then S pos else pos)) (insert_list p x b)) ≤ S (block_weight (drop (S pos) b)).
Proof.
  intros Hx Hl. pose proof (block_weight_insert p x b Hx) as Hw. destruct (Nat.leb_spec p pos).
  - assert (drop (S (S pos)) (insert_list p x b) = drop (S pos) b) as ->; [|lia].
    unfold insert_list. rewrite drop_app, length_take, Nat.min_l by lia.
    rewrite (drop_ge (take p b)) by (rewrite length_take; lia).
    replace (S (S pos) - p) with (S (S pos - p)) by lia. simpl. rewrite drop_drop. f_equal. lia.
  - rewrite (block_weight_split (S pos)), (block_weight_split (S pos) b) in Hw.
    assert (take (S pos) (insert_list p x b) = take (S pos) b) as E; [|rewrite E in Hw; lia].
    unfold insert_list. rewrite take_app_le by (rewrite length_take; lia). rewrite take_take. f_equal. lia.
Qed.

Lemma todo_insert bs cb pos bl p x b i :
  status x = true → bs !! cb = Some b → b !! pos = Some i →
  (∃ b', alter (insert_list p x) bl bs !! cb = Some b' ∧ b' !! moved bl p cb pos = Some i) ∧
  todo (alter (insert_list p x) bl bs) cb (S (moved bl p cb pos)) ≤ S (todo bs cb (S pos)).
Proof.
  intros Hx. revert cb bl. induction bs as [|b0 bs IH]; intros [|cb] [|bl] Hb Hi; [done..| | | |]; simpl in Hb.
  - injection Hb as ->. change (alter (insert_list p x) 0 (b :: bs)) with (insert_list p x b :: bs).
    unfold moved. simpl. split; [by eexists; split; [|apply lookup_insert_list]|].
    pose proof (drop_insert p x b pos Hx (lookup_lt_Some _ _ _ Hi)). simpl in *. lia.
  - injection Hb as ->. change (alter (insert_list p x) (S bl) (b :: bs)) with (b :: alter (insert_list p x) bl bs).
    unfold moved. simpl. split; [by eexists|]. pose proof (weights_insert p x bl bs Hx). lia.
  - change (alter (insert_list p x) 0 (b0 :: bs)) with (insert_list p x b0 :: bs). unfold moved. simpl.
    split; [by eexists|lia].
  - change (alter (insert_list p x) (S bl) (b0 :: bs)) with (b0 :: alter (insert_list p x) bl bs).
    change (moved (S bl) p (S cb) pos) with (moved bl p cb pos). simpl. by apply IH.
Qed.

(** The cursor is on an instruction; what is left to visit behind it. *)
Definition cursor_on (c : Cursor) (i : Instruction) : Prop :=
  ∃ b, fn_blocks c !! cur_block c = Some b ∧ b !! cur_pos c = Some i.
Definition ahead (c : Cursor) : nat := todo (fn_blocks c) (cur_block c) (S (cur_pos c)).

(** [c'] comes from [c] by inserting at most [n] calls. *)
Record inserts (n : nat) (i : Instruction) (c c' : Cursor) : Prop := {
  ins_on : cursor_on c' i;
  ins_ahead : ahead c' ≤ n + ahead c;
  ins_erase : erase <$> fn_blocks c' = erase <$> fn_blocks c;
}.

Lemma insert_at_inserts bl p x c i : status x = true → cursor_on c i → inserts 1 i c (insert_at bl p x c).
Proof.
  intros Hx (b & Hb & Hi). destruct (todo_insert _ _ _ bl p x _ _ Hx Hb Hi) as [Hon Hle].
  split; [exact Hon|exact Hle|by apply erase_insert_at].
Qed.

Lemma inserts_refl i c : cursor_on c i → inserts 0 i c c.
Proof. by split. Qed.
Lemma inserts_trans n m i c1 c2 c3 : inserts n i c1 c2 → inserts m i c2 c3 → inserts (n + m) i c1 c3.
Proof. intros [_ H1 E1] [H2 H3 E2]. split; [done|lia|by rewrite E2]. Qed.

(** ** One visit *)

Lemma InsertCall_status f start : status (InsertCall f start) = true.
Proof. apply CreateStatusCall_status. Qed.

Lemma insert_before_Ok x c c' i : status x = true → cursor_on c i → insert_before x c = Ok c' → inserts 1 i c c'.
Proof. intros Hx Hc [= <-]. by apply insert_at_inserts. Qed.
Lemma insert_after_Ok x c c' i : status x = true → cursor_on c i → insert_after x c = Ok c' → inserts 1 i c c'.
Proof.
  intros Hx Hc (b & _ & H)%bind_Ok. destruct (_ <? _); [|done]. injection H as <-. by apply insert_at_inserts.
Qed.
Lemma insert_first_Ok bl x c c' i : status x = true → cursor_on c i → insert_first bl x c = Ok c' → inserts 1 i c c'.
Proof. intros Hx Hc (b & _ & [= <-])%bind_Ok. by apply insert_at_inserts. Qed.

Lemma insert_around_Ok f invoke c c' i :
  cursor_on c i → insert_around f invoke c = Ok c' → ∃ n, n ≤ 3 ∧ inserts n i c c'.
Proof.
  intros Hc (c1 & H1 & H)%bind_Ok. apply (insert_before_Ok _ _ _ i) in H1; [|apply InsertCall_status|done].
  destruct invoke as [[normal unwind]|].
  - apply bind_Ok in H as (c2 & H2 & H3).
    apply (insert_first_Ok _ _ _ _ i) in H2; [|apply InsertCall_status|apply H1].
    apply (insert_first_Ok _ _ _ _ i) in H3; [|apply InsertCall_status|apply H2].
    exists (1 + 1 + 1). split; [lia|]. by repeat eapply inserts_trans.
  - apply (insert_after_Ok _ _ _ i) in H; [|apply InsertCall_status|apply H1].
    exists (1 + 1). split; [lia|]. by eapply inserts_trans.
Qed.

Lemma InsertCallWithFilter_Ok filt name put start end_pos c c' i :
  (∀ x c', status x = true → put x c = Ok c' → inserts 1 i c c') → cursor_on c i →
  InsertCallWithFilter filt name put start end_pos c = Ok c' → ∃ n, n ≤ 3 ∧ inserts n i c c'.
Proof.
  intros Hput Hc H. unfold InsertCallWithFilter in H. destruct (List.filter _ filt) as [|f fs].
  - injection H as <-. exists 0. split; [lia|]. by apply inserts_refl.
  - exists 1. split; [lia|]. by apply Hput in H; [|apply InsertCall_status].
Qed.

Lemma insert_await_Ok filt name skip c c' skip' i :
  cursor_on c i → insert_await filt name skip c = Ok (c', skip') → ∃ n, n ≤ 3 ∧ inserts n i c c'.
Proof.
  intros Hc H. unfold insert_await in H.
  assert (∀ start pos c', InsertCallWithFilter filt name insert_before start pos c = Ok c' → ∃ n, n ≤ 3 ∧ inserts n i c c')
    as Hb by (intros start pos c1; apply InsertCallWithFilter_Ok; [intros; by eapply insert_before_Ok|done]).
  assert (∀ start pos c', InsertCallWithFilter filt name insert_after start pos c = Ok c' → ∃ n, n ≤ 3 ∧ inserts n i c c')
    as Ha by (intros start pos c1; apply InsertCallWithFilter_Ok; [intros; by eapply insert_after_Ok|done]).
  assert (∃ n, n ≤ 3 ∧ inserts n i c c) as Hr by (exists 0; split; [lia|by apply inserts_refl]).
  repeat case_match; try (by injection H as <- _);
    apply bind_Ok in H as (c1 & Hput & E); injection E as <- _; eauto.
Qed.

Lemma visit_Ok filt i skip c c' skip' :
  cursor_on c i → visit filt i skip c = Ok (c', skip') → ∃ n, n ≤ 3 ∧ inserts n i c c'.
Proof.
  intros Hc H. assert (∃ n, n ≤ 3 ∧ inserts n i c c) as Hr by (exists 0; split; [lia|by apply inserts_refl]).
  unfold visit in H. cbv zeta in H. destruct (isa_CallInst i || _); [|by injection H as <- _].
  destruct (getCalledFunction i) as [raw|]; [|by injection H as <- _].
  destruct (List.filter _ filt) as [|f fs].
  - destruct (isa_CallInst i); [by eapply insert_await_Ok|by injection H as <- _].
  - apply bind_Ok in H as (c1 & H1 & E). injection E as <- _. by eapply insert_around_Ok.
Qed.

(** Filters that name their coroutine, and not the function the pass calls. *)
Record good_filters (filt : list CoroutineFilter) : Prop := {
  gf_named : Forall (λ a, selects (demangle costatus_change) a = false) filt;
  gf_plain : Forall (λ sub, find (demangle costatus_change) sub = None)
    [co_initial_suspend; co_final_suspend; co_expr_start; co_expr_end];
}.

Lemma visit_status filt i skip c : good_filters filt → status i = true → visit filt i skip c = Ok (c, skip).
Proof.
  intros [Hn Hp] Hs. unfold status in Hs. unfold visit. cbv zeta. destruct (isa_CallInst i); [|done]. simpl in *.
  destruct (getCalledFunction i) as [f|]; [|done]. apply String.eqb_eq in Hs as ->.
  assert (List.filter (selects (demangle costatus_change)) filt = []) as ->.
  { induction Hn as [|a filt Ha _ IH]; simpl; [done|]. by rewrite Ha. }
  unfold insert_await. repeat apply Forall_cons_1 in Hp as [-> Hp]. by repeat apply Forall_cons_1 in Hp as [-> Hp].
Qed.

(** Visiting never takes the model's fuel. *)
Definition no_fuel {A} (m : outcome A) : Prop := m ≠ Fail OutOfFuel.

Lemma no_fuel_bind {A B} (m : outcome A) (k : A → outcome B) : no_fuel m → (∀ a, no_fuel (k a)) → no_fuel (m ≫= k).
Proof. intros Hm Hk. destruct m as [a|f]; [apply Hk|]. intros [= ->]. by destruct Hm. Qed.

Create HintDb no_fuel.
Lemma no_fuel_Ok {A} (a : A) : no_fuel (Ok a).
Proof. done. Qed.
Lemma no_fuel_assert what b : no_fuel (assert what b).
Proof. by destruct b. Qed.
Lemma no_fuel_vec_get {A} (l : list A) i : no_fuel (vec_get l i).
Proof. unfold vec_get, or_fail. by destruct (l !! i). Qed.
#[local] Hint Resolve no_fuel_Ok no_fuel_assert no_fuel_vec_get : no_fuel.
#[local] Hint Unfold insert_before : no_fuel.

Ltac no_fuel_tac := repeat first [ progress auto with no_fuel | apply no_fuel_bind; [|intros ?] | case_match | done ].

Lemma insert_after_no_fuel x c : no_fuel (insert_after x c).
Proof. unfold insert_after. no_fuel_tac. Qed.
Lemma insert_first_no_fuel bl x c : no_fuel (insert_first bl x c).
Proof. unfold insert_first. no_fuel_tac. Qed.
Lemma insert_before_no_fuel x c : no_fuel (insert_before x c).
Proof. done. Qed.
#[local] Hint Resolve insert_after_no_fuel insert_first_no_fuel insert_before_no_fuel : no_fuel.

Lemma visit_no_fuel filt i skip c : no_fuel (visit filt i skip c).
Proof.
  assert (∀ name put start pos, (∀ x c, no_fuel (put x c)) → no_fuel (InsertCallWithFilter filt name put start pos c)) as H
    by (intros; unfold InsertCallWithFilter; no_fuel_tac).
  unfold visit, insert_around, insert_await. cbv zeta.
  repeat first [ progress auto with no_fuel | apply no_fuel_bind; [|intros ?] | apply H; intros ? ? | case_match | done ].
Qed.

(** ** The pass ends *)

Lemma todo_here bs cb pos b i : bs !! cb = Some b → b !! pos = Some i → todo bs cb pos = weight i + todo bs cb (S pos).
Proof.
  revert cb. induction bs as [|b0 bs IH]; intros [|cb] Hb Hi; simplify_eq/=; [|by apply IH].
  rewrite (drop_S _ _ _ Hi). change (block_weight (i :: ?l)) with (weight i + block_weight l). lia.
Qed.

Lemma todo_next bs cb pos b : bs !! cb = Some b → b !! pos = None → todo bs cb pos = S (todo bs (S cb) 0).
Proof.
  revert cb. induction bs as [|b0 bs IH]; intros [|cb] Hb Hi; simplify_eq/=; [|by apply IH].
  rewrite drop_ge by by apply lookup_ge_None. by destruct bs as [|b1 bs].
Qed.

Lemma visit_all_ends filt : good_filters filt → ∀ fuel skip c,
  todo (fn_blocks c) (cur_block c) (cur_pos c) < fuel →
  no_fuel (visit_all fuel filt skip c) ∧
  ∀ bs, visit_all fuel filt skip c = Ok bs → erase <$> bs = erase <$> fn_blocks c.
Proof.
  intros Hgood fuel. induction fuel as [|fuel IH]; intros skip c Hf; [lia|]. cbn [visit_all].
  destruct (fn_blocks c !! cur_block c) as [b|] eqn:Hb; [|split; [done|by intros bs [= <-]]].
  destruct (b !! cur_pos c) as [i|] eqn:Hi.
  2: { apply (IH skip (mk_Cursor (fn_blocks c) (S (cur_block c)) 0)). simpl. rewrite (todo_next _ _ _ _ Hb Hi) in Hf. lia. }
  rewrite (todo_here _ _ _ _ _ Hb Hi) in Hf.
  assert (∀ c' skip', visit filt i skip c = Ok (c', skip') →
    ahead c' < fuel ∧ erase <$> fn_blocks c' = erase <$> fn_blocks c) as Hvisit.
  { intros c' skip' Hv. destruct (status i) eqn:Hs.
    - rewrite visit_status in Hv by done. injection Hv as <- _. split; [|done]. unfold weight in Hf. rewrite Hs in Hf.
      unfold ahead. lia.
    - destruct (visit_Ok _ _ _ _ _ _ ltac:(by exists b) Hv) as (n & Hn & [_ Ha He]). split; [|done].
      unfold weight in Hf. rewrite Hs in Hf. unfold ahead at 2 in Ha. lia. }
  pose proof (visit_no_fuel filt i skip c) as Hno. destruct (visit filt i skip c) as [[c' skip']|f]; simpl.
  - destruct (Hvisit c' skip' eq_refl) as [Ha He].
    destruct (IH skip' (mk_Cursor (fn_blocks c') (cur_block c') (S (cur_pos c'))) Ha) as [H1 H2].
    split; [done|]. intros bs H%H2. simpl in H. by rewrite H.
  - split; [|done]. intros [= ->]. by destruct Hno.
Qed.

Definition enough_fuel (bs : list (list Instruction)) : nat := S (sum_list ((λ b, S (4 * length b)) <$> bs)).

Lemma todo_enough bs : todo bs 0 0 < enough_fuel bs.
Proof.
  assert (∀ b, block_weight b ≤ 4 * length b) as Hw.
  { induction b as [|i b IH]; [done|]. change (block_weight (i :: b)) with (weight i + block_weight b).
    assert (weight i ≤ 4) by (unfold weight; destruct (status i); lia). cbn [length]. lia. }
  assert (sum_list ((λ b, S (block_weight b)) <$> bs) ≤ sum_list ((λ b, S (4 * length b)) <$> bs)) as H.
  { induction bs as [|b bs IH]; [done|]. rewrite !fmap_cons. specialize (Hw b).
    change (sum_list (?x :: ?l)) with (x + sum_list l). lia. }
  unfold enough_fuel. destruct bs as [|b bs]; [simpl; lia|].
  change (todo (b :: bs) 0 0) with (sum_list ((λ b, S (block_weight b)) <$> b :: bs)). lia.
Qed.

(** C34: When every filter names its coroutine, and it is not the function the
    pass itself calls, the pass ends after visiting each instruction and the
    calls it put behind them, and it only inserts calls of
    [CoroutineStatusChange]: without them the function is as before. *)
Theorem CoInsertYields_ends filt f fuel :
  good_filters filt → enough_fuel (blocks f) ≤ fuel →
  InsertYields fuel filt f ≠ Fail OutOfFuel ∧
  ∀ f', InsertYields fuel filt f = Ok f' → F_name f' = F_name f ∧ erase <$> blocks f' = erase <$> blocks f.
Proof.
  intros Hgood Hfuel. pose proof (todo_enough (blocks f)).
  destruct (visit_all_ends filt Hgood fuel 0 (mk_Cursor (blocks f) 0 0)) as [H1 H2]; [simpl; lia|].
  unfold InsertYields. split; [by apply no_fuel_bind|]. intros f' (bs & Hbs & [= <-])%bind_Ok. by split; [|apply H2].
Qed.

(** ** A filter without a name *)

(** The instruction behind the cursor. *)
Definition cursor_next (c : Cursor) (i : Instruction) : Prop :=
  ∃ b, fn_blocks c !! cur_block c = Some b ∧ b !! S (cur_pos c) = Some i.

Lemma insert_after_next x c c' : insert_after x c = Ok c' → cursor_next c' x.
Proof.
  intros (b & Hb%vec_get_Ok & H)%bind_Ok. destruct (Nat.ltb_spec (S (cur_pos c)) (length b)); [|done].
  injection H as <-. unfold cursor_next, insert_at. cbn [fn_blocks cur_block cur_pos].
  rewrite list_lookup_alter_eq, Hb, (proj2 (Nat.leb_gt _ _)), andb_false_r by lia. eexists. split; [done|].
  unfold insert_list. rewrite lookup_app_r, length_take, Nat.min_l by (rewrite ?length_take; lia).
  by rewrite Nat.sub_diag.
Qed.

(** An ordinary call of a function, like the ones the pass inserts. *)
Record plain_call (i : Instruction) : Prop := {
  pc_call : isa_CallInst i = true;
  pc_invoke : dyn_cast_InvokeInst i = None;
  pc_callee : is_Some (getCalledFunction i);
}.

Lemma CreateStatusCall_call n s : plain_call (CreateStatusCall n s).
Proof. split; [apply status_is_call|apply status_no_invoke|rewrite status_callee; by eexists]. Qed.

Lemma selects_unnamed filt name : Exists (λ a, co_name a = None) filt →
  ∃ f fs, List.filter (selects name) filt = f :: fs.
Proof.
  induction 1 as [a filt Ha|a filt _ (f & fs & E)]; simpl.
  - unfold selects at 1. rewrite Ha. by eexists _, _.
  - destruct (selects name a); [by eexists _, _|]. rewrite E. by eexists _, _.
Qed.

Lemma visit_all_never filt fuel skip c i :
  Exists (λ a, co_name a = None) filt → cursor_on c i → plain_call i → ∀ bs, visit_all fuel filt skip c ≠ Ok bs.
Proof.
  intros Hany. revert skip c i. induction fuel as [|fuel IH]; intros skip c i (b & Hb & Hi) [Hc Hn [name Hname]] bs; [done|].
  cbn [visit_all]. rewrite Hb, Hi. unfold visit. rewrite Hc, Hname, Hn. simpl.
  destruct (selects_unnamed filt (demangle name) Hany) as (f & fs & ->).
  unfold insert_around. simpl. destruct (insert_after _ _) as [c'|] eqn:E; [|done]. simpl.
  apply insert_after_next in E as (b' & Hb' & Hi'). eapply IH; [|apply CreateStatusCall_call]. by exists b'.
Qed.

(** A filter without the name of a coroutine makes the pass run forever:
    from the first ordinary call of a function on, it selects every call it has
    inserted and inserts another one behind it. *)
Theorem CoInsertYields_diverges filt f before i after rest :
  Exists (λ a, co_name a = None) filt → blocks f = (before ++ i :: after) :: rest →
  Forall (λ j, isa_CallInst j = false ∧ dyn_cast_InvokeInst j = None) before → plain_call i →
  ∀ fuel f', InsertYields fuel filt f ≠ Ok f'.
Proof.
  intros Hany Hbs Hbefore Hi fuel f' (bs & H & _)%bind_Ok. rewrite Hbs in H.
  assert (∀ fuel skip done todo, before = done ++ todo →
    visit_all fuel filt skip (mk_Cursor ((before ++ i :: after) :: rest) 0 (length done)) ≠ Ok bs) as Hnever.
  { clear H. intros fuel' skip done todo. revert fuel' done. induction todo as [|j todo IH]; intros fuel' done ->.
    - apply visit_all_never with (i := i); [done| |done]. rewrite app_nil_r.
      exists (done ++ i :: after). split; [done|]. simpl. by rewrite lookup_app_r, Nat.sub_diag by lia.
    - destruct fuel' as [|fuel']; [done|]. cbn [visit_all fn_blocks cur_block cur_pos]. simpl.
      rewrite <-app_assoc, lookup_app_r, Nat.sub_diag by lia. simpl.
      apply Forall_app in Hbefore as [_ [[Hj1 Hj2] _]%Forall_cons_1]. unfold visit. rewrite Hj1, Hj2. simpl.
      specialize (IH fuel' (done ++ [j])). rewrite length_app, Nat.add_1_r, <-!app_assoc in IH. by apply IH. }
  by apply (Hnever fuel 0 [] before).
Qed.
End pass.
