(* ===== verification/RaceRegister.v ===== *)
(** * RaceRegister: a target as the runtime sees it (verifying/targets/race_register.cpp)

    The register whose [add] is [++x] on a plain [int], and [get].  The yield
    pass (codegen/yieldpass.cpp) puts a [CoroYield] after every load and every
    store of a non-atomic function; the model keeps those after the accesses to
    [x], the others being invisible to the other tasks.  The target is the
    running example of the development: it is wait-free, and a round of the
    scheduler finds its race. *)

From stdpp Require Import base gmap strings option list.
From S2P Require Import Prelude ValueWrapper History Linearizability Specs.
From S2P Require Import Coro Strategy PickStrategy Scheduler Checkers Verifiers.

(** The program points of the two methods. *)
Inductive reg_frame :=
| AddLoad                (* before the load of [++x] *)
| AddStore (x : Z)       (* before its store, with the value loaded *)
| AddReturn
| GetLoad
| GetReturn (x : Z).

(** [struct Register]. *)
#[export] Instance reg_target : Target := {|
  TargetObj := Z;
  Frame := reg_frame;
  target_init := 0%Z;
  target_Reset _ := 0%Z;
  read_word _ _ := 0%Z;
  start name _ := if String.eqb name "add" then AddLoad else GetLoad;
|}.

#[export] Instance reg_code : Code := λ f x ts,
  match f with
  | AddLoad => Ok (Yielded (AddStore x) x ts None None)
  | AddStore v => Ok (Yielded AddReturn (wrap32 (v + 1)) ts None None)
  | AddReturn => Ok (Returned void_v x ts)
  | GetLoad => Ok (Yielded (GetReturn x) x ts None None)
  | GetReturn v => Ok (Returned (ValueWrapper_of v) x ts)
  end.

(** [target_method(genEmpty, ...)]. *)
Definition reg_builder (method_name : string) : TaskBuilder := mk_TaskBuilder method_name genEmpty.

(** [ltest::Spec]: the specification the target is checked against. *)
Definition reg_spec : gmap string (SpecMethod Register.LinearRegister) := Register.GetMethods.

#[export] Instance reg_checker : ModelChecker := recursive_checker reg_spec Register.init.
#[export] Instance reg_checker_correct : CheckerCorrect reg_spec Register.init.
Proof. exact (recursive_checker_correct reg_spec Register.init). Qed.

(** The yields each frame still makes. *)
Definition reg_budget (f : reg_frame) : nat :=
  match f with AddLoad => 2 | AddStore _ => 1 | AddReturn => 0 | GetLoad => 1 | GetReturn _ => 0 end.

Lemma reg_wait_free : wait_free reg_budget.
Proof. intros [] o ts; simpl; auto. Qed.

Lemma reg_start_budget (method : string) (args : tuple) : reg_budget (start method args) ≤ 2.
Proof. simpl. destruct (String.eqb method "add"); simpl; lia. Qed.

(** The specification covers every task of the target. *)
Definition reg_task_ok (c : CoroBase) : bool :=
  String.eqb (name c) "add" ||
  (String.eqb (name c) "get" &&
   (negb (IsReturned c) || match value (ret c) with Some (any_int _) => true | _ => false end)).

Lemma reg_covered `{HV : StrategyVerifier} (b : BaseStrategy) :
  forallb (forallb reg_task_ok) (threads b) = true → covered reg_spec b.
Proof.
  intros H [th i] c (thread & Ht & Hi)%slot_Some. rewrite forallb_forall in H.
  assert (reg_task_ok c = true) as Hc.
  { apply list_elem_of_lookup_2, list_elem_of_In in Ht, Hi. apply H in Ht.
    rewrite forallb_forall in Ht. by apply Ht. }
  unfold reg_task_ok in Hc. apply orb_true_iff in Hc as [Hc|Hc].
  - apply String.eqb_eq in Hc as ->. exists Register.add_func. split_and!; [done|by eexists|].
    intros _ s res s' [= <- <-]. apply comparable_void.
  - apply andb_true_iff in Hc as [Hn%String.eqb_eq Hc]. rewrite Hn. exists Register.get_func.
    split_and!; [done|by eexists|]. intros Hr s res s' [= <- <-]. rewrite Hr in Hc. simpl in Hc.
    unfold comparable. rewrite vw_eq_default_cases. destruct (value (ret c)) as [[]|]; try done. by eexists.
Qed.

(** ** A round that finds the race *)

(** A random source for concrete runs: it rotates, and picks the first. *)
#[export] Instance reg_rng : Rng := {|
  rng := unit;
  shuffle _ l g := (match l with [] => [] | x :: l => l ++ [x] end, g);
  uniform_int a _ g := (a, g);
  discrete _ g := (0%Z, g);
|}.

#[export] Instance reg_rng_laws : RngLaws.
Proof.
  split.
  - intros A [|x l] g; simpl; [done|]. by rewrite Permutation_app_comm.
  - intros a b g. simpl. lia.
  - intros ws g _ Hs. destruct ws; simpl in *; lia.
Qed.

#[export] Existing Instance DefaultStrategyVerifier.

Definition reg_constructors : list TaskBuilder := [reg_builder "get"; reg_builder "add"; reg_builder "add"].

(** Two threads under round robin. *)
Definition reg_state : PickState RoundRobin.RoundRobinStrategy := RoundRobin.init 2 reg_constructors tt.

Abbreviation reg_strategy := (PickStrategy (Sub:=RoundRobin.RoundRobinStrategy)).
