(* ===== verification/LinCheckTest.v ===== *)
(** * LinCheckTest: the tests of the checkers (test/runtime/lin_check_test.cpp)

    Three histories of a counter with the verdicts the tests expect, and the
    property that is fuzzed: both checkers agree on every history that
    [create_history] makes.  It is proved for all of them.  A mock task answers
    [GetName], [GetArgs] and [GetRetVal] with fixed values; what [std::shuffle]
    does is a parameter, a permutation. *)

From Stdlib Require Import ZArith Lia.
From stdpp Require Import base gmap strings pretty option list.
From S2P Require Import Prelude ValueWrapper Text History Linearizability LincheckRecursive Lincheck Specs Coro PrettyPrint.

Module LinCheckTest.

(** ** The counter *)

Record Counter := mk_Counter { count : Z }.

(** [std::hash<Counter>] is [std::hash<int>], the identity; [std::equal_to]. *)
Definition hash (c : Counter) : Z := count c.
Definition equal_to (lhs rhs : Counter) : bool := (count lhs =? count rhs)%Z.

Definition fetch_and_add : SpecMethod Counter := λ c _,
  let c := mk_Counter (wrap32 (count c + 1)) in
  Ok (ValueWrapper_of (wrap32 (count c - 1)), c).
Definition get : SpecMethod Counter := λ c _, Ok (ValueWrapper_of (count c), c).

Definition methods : gmap string (SpecMethod Counter) := <["faa" := fetch_and_add]> (<["get" := get]> ∅).

(** [Counter c{}]. *)
Definition c : Counter := mk_Counter 0.

(** ** Mock tasks *)

Definition CreateMockTask (name : string) (ret_val : Z) : TaskInfo tuple :=
  mk_TaskInfo name [] (Some (ValueWrapper_of ret_val)).

(** Tasks are compared by their addresses: the position of a mock. *)
Definition task (i : nat) : TaskRef := (0, i).
Definition tasks (mocks : list (TaskInfo tuple)) (t : TaskRef) : option (TaskInfo tuple) :=
  if t.1 =? 0 then mocks !! t.2 else None.

Definition invoke (i : nat) (thread : Z) : HistoryEvent := EInvoke (mk_Invoke (task i) thread).
Definition respond (i : nat) (result : Z) (thread : Z) : HistoryEvent :=
  EResponse (mk_Response (task i) (ValueWrapper_of result) thread).

(** [checker.Check(history)] of the two checkers. *)
Definition fast (vector_hash : list bool → Z) (fuel : nat) (mocks : list (TaskInfo tuple)) (h : list HistoryEvent)
  : outcome bool := Check methods (tasks mocks) c hash equal_to vector_hash fuel h.
Definition slow (mocks : list (TaskInfo tuple)) (h : list HistoryEvent) : outcome bool :=
  Check_recursive methods (tasks mocks) c h.

(** ** The three histories *)

Definition linearizable_mocks : list (TaskInfo tuple) :=
  [CreateMockTask "faa" 3; CreateMockTask "get" 3; CreateMockTask "faa" 2; CreateMockTask "faa" 1; CreateMockTask "faa" 0].
Definition linearizable_history : list HistoryEvent :=
  [invoke 0 0; invoke 1 1; invoke 2 2; invoke 3 3; invoke 4 4;
   respond 4 0 4; respond 3 1 3; respond 2 2 2; respond 1 3 1; respond 0 3 0].

Definition unlinearizable_mocks : list (TaskInfo tuple) :=
  [CreateMockTask "faa" 2; CreateMockTask "get" 3; CreateMockTask "faa" 100; CreateMockTask "faa" 1; CreateMockTask "faa" 0].
Definition unlinearizable_history : list HistoryEvent :=
  [invoke 0 0; invoke 1 1; invoke 2 2; invoke 3 3; invoke 4 4;
   respond 4 0 4; respond 3 1 3; respond 2 100 2; respond 1 3 1; respond 0 3 0].

(** Of the same tasks, without the responses. *)
Definition pending_history : list HistoryEvent :=
  [invoke 0 0; invoke 1 1; invoke 2 2; invoke 3 3; invoke 4 4].

(** [EXPECT_EQ(checker.Check(history), expected)]: whether the test passes. *)
Definition expect (expected : bool) (verdict : outcome bool) : outcome bool :=
  ok ← verdict; Ok (Bool.eqb ok expected).

Definition SmallLinearizableHistory (vector_hash : list bool → Z) (fuel : nat) : outcome bool :=
  expect true (fast vector_hash fuel linearizable_mocks linearizable_history).
Definition SmallUnlinearizableHistory (vector_hash : list bool → Z) (fuel : nat) : outcome bool :=
  expect false (fast vector_hash fuel unlinearizable_mocks unlinearizable_history).
Definition ExtendedLinearizableHistory (vector_hash : list bool → Z) (fuel : nat) : outcome bool :=
  expect true (fast vector_hash fuel unlinearizable_mocks pending_history).

(** ** The fuzz test *)

Fixpoint mocks_from (adds : Z) (b_history : list bool) : list (TaskInfo tuple) :=
  match b_history with
  | [] => []
  | true :: b => CreateMockTask "faa" (wrap32 adds) :: mocks_from (wrapu64 (adds + 1)) b
  | false :: b => CreateMockTask "get" (wrap32 adds) :: mocks_from adds b
  end.
Definition create_mocks (b_history : list bool) : list (TaskInfo tuple) := mocks_from 0 b_history.

(** The history before it is shuffled: every task is answered at once. *)
Fixpoint sequential_from (i : nat) (mocks : list (TaskInfo tuple)) : outcome (list HistoryEvent) :=
  match mocks with
  | [] => Ok []
  | mock :: mocks =>
      v ← GetRetVal mock;
      h ← sequential_from (S i) mocks;
      Ok (EInvoke (mk_Invoke (task i) (wrap32 (Z.of_nat i))) ::
          EResponse (mk_Response (task i) v (wrap32 (Z.of_nat i))) :: h)
  end.

(** [std::swap(history[index], history[i])]. *)
Definition swap (h : list HistoryEvent) (index i : nat) : outcome (list HistoryEvent) :=
  a ← vec_get h index;
  b ← vec_get h i;
  h ← vec_set h index b;
  vec_set h i a.

(** "Fix the order between invokes and responses": [n] events are left, from
    [i] on. *)
Fixpoint fix_loop (n i : nat) (h : list HistoryEvent) (responses_indexes : gmap TaskRef nat)
  : outcome (list HistoryEvent) :=
  match n with
  | 0 => Ok h
  | S n =>
      event ← vec_get h i;
      match event with
      | EInvoke inv =>
          match responses_indexes !! inv_task inv with
          | Some index => h ← swap h index i; fix_loop n (S i) h responses_indexes
          | None => fix_loop n (S i) h responses_indexes
          end
      | EResponse res => fix_loop n (S i) h (<[res_task res := i]> responses_indexes)
      end
  end.

Definition create_history (shuffle : list HistoryEvent → list HistoryEvent) (mocks : list (TaskInfo tuple))
  : outcome (list HistoryEvent) :=
  h ← sequential_from 0 mocks;
  let h := shuffle h in
  fix_loop (length h) 0 h ∅.

(** What the test prints when it fails. *)
Fixpoint numerate (i : nat) (h : list HistoryEvent) (numeration : gmap TaskRef nat) : gmap TaskRef nat :=
  match h with
  | [] => numeration
  | EResponse _ :: h => numerate i h numeration
  | EInvoke inv :: h => numerate (S i) h (<[inv_task inv := i]> numeration)
  end.

Fixpoint draw_events (numeration : gmap TaskRef nat) (mocks : list (TaskInfo tuple)) (h : list HistoryEvent)
  : outcome string :=
  match h with
  | [] => Ok ""
  | event :: h =>
      info ← or_fail (Undefined "dangling Task&") (tasks mocks (event_task event));
      let number := pretty (default 0 (numeration !! event_task event)) in
      line ←
        match event with
        | EInvoke _ => Ok ("[" +:+ number +:+ " inv: " +:+ task_name info +:+ "]" +:+ newline)
        | EResponse _ =>
            v ← GetRetVal info;
            text ← vw_to_string v;
            Ok ("[" +:+ number +:+ " res: " +:+ task_name info +:+ " returned: " +:+ text +:+ "]" +:+ newline)
        end;
      rest ← draw_events numeration mocks h;
      Ok (line +:+ rest)
  end.
Definition draw_history (mocks : list (TaskInfo tuple)) (h : list HistoryEvent) : outcome string :=
  draw_events (numerate 0 h ∅) mocks h.

(** [EXPECT_EQ(fast.Check(history), slow.Check(history)) << draw_history(history)]:
    nothing, or the text of the failure. *)
Definition CheckersAreTheSame (vector_hash : list bool → Z) (fuel : nat)
    (shuffle : list HistoryEvent → list HistoryEvent) (b_history : list bool) : outcome (option string) :=
  let mocks := create_mocks b_history in
  history ← create_history shuffle mocks;
  a ← fast vector_hash fuel mocks history;
  b ← slow mocks history;
  if Bool.eqb a b then Ok None else text ← draw_history mocks history; Ok (Some text).

(** ** The history is well-formed

    Each task is invoked and answered once, whatever the order; behind the loop
    every invocation is before its response. *)

(** An event up to its data. *)
Definition key (e : HistoryEvent) : bool * TaskRef := (is_response e, event_task e).

Lemma key_invoke h i t : invoke_at h i t ↔ (key <$> h) !! i = Some (false, t).
Proof.
  rewrite list_lookup_fmap. split; [by intros (inv & -> & <-)|].
  unfold invoke_at, response_at. destruct (h !! i) as [[inv|res]|]; intros [=]; subst. by exists inv.
Qed.

Lemma key_response h i t : response_at h i t ↔ (key <$> h) !! i = Some (true, t).
Proof.
  rewrite list_lookup_fmap. split; [by intros (res & -> & <-)|].
  unfold invoke_at, response_at. destruct (h !! i) as [[inv|res]|]; intros [=]; subst. by exists res.
Qed.

Section fixing.
Context (h0 : list HistoryEvent) (Hnd : NoDup (key <$> h0)).
Context (Hpaired : ∀ t, (true, t) ∈ key <$> h0 → (false, t) ∈ key <$> h0).

Lemma keys_unique h i j k :
  h ≡ₚ h0 → (key <$> h) !! i = Some k → (key <$> h) !! j = Some k → i = j.
Proof using Hnd.
  intros Hp Hi Hj. eapply NoDup_lookup; [|done..]. by rewrite Hp.
Qed.

(** The state of the loop at [i]. *)
Record fix_inv (i : nat) (h : list HistoryEvent) (idx : gmap TaskRef nat) : Prop := {
  fi_perm : h ≡ₚ h0;
  fi_index : ∀ t p, idx !! t = Some p → p < i ∧ (response_at h p t ∨ ∃ q, q < i ∧ invoke_at h q t);
  fi_answered : ∀ t p, p < i → response_at h p t → idx !! t = Some p ∨ ∃ q, q < i ∧ invoke_at h q t;
  fi_invoked : ∀ t q p, q < i → invoke_at h q t → response_at h p t → q < p;
}.

Lemma fix_start h : h ≡ₚ h0 → fix_inv 0 h ∅.
Proof. split; [done|intros t p Hp; by rewrite lookup_empty in Hp|lia..]. Qed.

(** Behind the last event nothing is out of order. *)
Lemma fix_end h idx : fix_inv (length h) h idx → well_formed h ∧ h ≡ₚ h0.
Proof using Hnd Hpaired.
  intros [Hp _ _ Hinv]. split; [|done]. split.
  - intros i j t Hi%key_invoke Hj%key_invoke. by eapply keys_unique.
  - intros i j t Hi%key_response Hj%key_response. by eapply keys_unique.
  - intros j t Hj. assert ((false, t) ∈ key <$> h) as [i Hi]%list_elem_of_lookup.
    { rewrite Hp. apply Hpaired. rewrite <-Hp. apply key_response in Hj. by eapply list_elem_of_lookup_2. }
    apply key_invoke in Hi. exists i. split; [|done]. eapply Hinv; [by eapply invoke_at_lt|done..].
Qed.

(** A response is remembered. *)
Lemma fix_response i h idx res :
  fix_inv i h idx → h !! i = Some (EResponse res) → fix_inv (S i) h (<[res_task res := i]> idx).
Proof using Hnd.
  intros [Hp Hidx Hans Hinv] Hi. assert (response_at h i (res_task res)) as Hr by (by exists res). split; [done| | |].
  - intros t p. rewrite lookup_insert_Some. intros [[<- <-]|[_ H]]; [split; [lia|by left]|].
    destruct (Hidx _ _ H) as [Hlt [?|(q & ? & ?)]]; (split; [lia|]); [by left|right; exists q; split; [lia|done]].
  - intros t p Hlt Hpt. destruct (decide (p = i)) as [->|Hne].
    + left. rewrite (response_at_fun _ _ _ _ Hpt Hr). apply lookup_insert_eq.
    + destruct (Hans t p) as [H|(q & ? & ?)]; [lia|done| |right; exists q; split; [lia|done]].
      left. rewrite lookup_insert_ne; [done|]. intros <-.
      apply Hne. apply key_response in Hpt, Hr. by eapply keys_unique.
  - intros t q p Hq Hqt Hpt. destruct (decide (q = i)) as [->|]; [by destruct (invoke_response_excl _ _ _ _ Hqt Hr)|].
    eapply Hinv; [lia|done..].
Qed.

(** An invocation in front of its response stays where it is. *)
Lemma fix_invoke i h idx inv :
  fix_inv i h idx → h !! i = Some (EInvoke inv) → idx !! inv_task inv = None → fix_inv (S i) h idx.
Proof using Hnd.
  intros [Hp Hidx Hans Hinv] Hi Hnone. assert (invoke_at h i (inv_task inv)) as Ht by (by exists inv). split; [done| | |].
  - intros t p H. destruct (Hidx _ _ H) as [Hlt [?|(q & ? & ?)]]; (split; [lia|]); [by left|right; exists q; split; [lia|done]].
  - intros t p Hlt Hpt. destruct (decide (p = i)) as [->|]; [by destruct (invoke_response_excl _ _ _ _ Ht Hpt)|].
    destruct (Hans t p) as [H|(q & ? & ?)]; [lia|done|by left|right; exists q; split; [lia|done]].
  - intros t q p Hq Hqt Hpt. destruct (decide (q = i)) as [->|]; [|eapply Hinv; [lia|done..]].
    assert (t = inv_task inv) as -> by (by eapply invoke_at_fun).
    destruct (decide (p < i)) as [Hlt|Hge].
    + destruct (Hans _ _ Hlt Hpt) as [H|(q & Hq' & Hqt')]; [congruence|].
      apply key_invoke in Hqt, Hqt'. pose proof (keys_unique _ _ _ _ Hp Hqt Hqt'). lia.
    + assert (p ≠ i) by (intros ->; by eapply invoke_response_excl). lia.
Qed.

(** The events behind a swap. *)
Lemma swap_Ok h p i a b :
  h !! p = Some a → h !! i = Some b → p ≠ i →
  ∃ h', swap h p i = Ok h' ∧ h' ≡ₚ h ∧ h' !! p = Some b ∧ h' !! i = Some a ∧ (∀ j, j ≠ p → j ≠ i → h' !! j = h !! j).
Proof.
  intros Ha Hb Hne. pose proof (lookup_lt_Some _ _ _ Ha). pose proof (lookup_lt_Some _ _ _ Hb).
  exists (<[i := a]> (<[p := b]> h)). unfold swap. rewrite (vec_get_Some _ _ _ Ha), (vec_get_Some _ _ _ Hb). cbn [mbind outcome_bind].
  rewrite vec_set_lt by done. cbn [mbind outcome_bind]. rewrite vec_set_lt by (by rewrite length_insert). split_and!.
  - done.
  - by apply Permutation_insert_swap.
  - rewrite list_lookup_insert_ne by done. by apply list_lookup_insert_eq.
  - apply list_lookup_insert_eq. by rewrite length_insert.
  - intros j Hp Hi. by rewrite !list_lookup_insert_ne.
Qed.

(** An invocation behind its response changes places with it. *)
Lemma fix_swap i h idx inv p :
  fix_inv i h idx → h !! i = Some (EInvoke inv) → idx !! inv_task inv = Some p →
  ∃ h', swap h p i = Ok h' ∧ fix_inv (S i) h' idx.
Proof using Hnd.
  intros [Hp Hidx Hans Hinv] Hi Hsome. set (t0 := inv_task inv) in *.
  assert (invoke_at h i t0) as Hit by (by exists inv).
  destruct (Hidx _ _ Hsome) as [Hlt [(res & Hres & Er)|(q & Hq & Hqt)]].
  2:{ apply key_invoke in Hit, Hqt. pose proof (keys_unique _ _ _ _ Hp Hit Hqt). lia. }
  destruct (swap_Ok h p i _ _ Hres Hi) as (h' & Hsw & Hperm & Hp' & Hi' & Hold); [lia|].
  assert (invoke_at h' p t0) as Hpt' by (by exists inv). assert (response_at h' i t0) as Hit' by (by exists res).
  assert (h' ≡ₚ h0) as Hperm0 by (by rewrite Hperm).
  assert (∀ q b t, t ≠ t0 → (key <$> h') !! q = Some (b, t) ↔ (key <$> h) !! q = Some (b, t)) as Hkey.
  { intros q b t Ht. rewrite !list_lookup_fmap. destruct (decide (q = p)) as [->|Hqp].
    { rewrite Hp', Hres. cbn. split; intros [= <- E]; unfold t0 in *; congruence. }
    destruct (decide (q = i)) as [->|Hqi]; [|by rewrite Hold].
    rewrite Hi', Hi. cbn. split; intros [= <- E]; unfold t0 in *; congruence. }
  assert (∀ q t, t ≠ t0 → invoke_at h' q t ↔ invoke_at h q t) as Hinv' by (intros q t Ht; rewrite !key_invoke; by apply Hkey).
  assert (∀ q t, t ≠ t0 → response_at h' q t ↔ response_at h q t) as Hres' by (intros q t Ht; rewrite !key_response; by apply Hkey).
  exists h'. split; [done|]. split; [done| | |].
  - intros t q H. destruct (decide (t = t0)) as [->|Ht].
    + assert (q = p) as -> by congruence. split; [lia|]. right. exists p. split; [lia|done].
    + destruct (Hidx _ _ H) as [? [?|(r & ? & ?)]]; (split; [lia|]); [left; by apply Hres'|right; exists r; split; [lia|by apply Hinv']].
  - intros t q Hq Hqt. destruct (decide (t = t0)) as [->|Ht]; [right; exists p; split; [lia|done]|].
    apply Hres' in Hqt; [|done]. assert (q ≠ i) by (intros ->; exact (invoke_response_excl _ _ _ _ Hit Hqt)).
    destruct (Hans t q) as [?|(r & ? & ?)]; [lia|done|by left|right; exists r; split; [lia|by apply Hinv']].
  - intros t q r Hq Hqt Hrt. destruct (decide (t = t0)) as [->|Ht].
    + apply key_invoke in Hqt, Hpt'. apply key_response in Hrt, Hit'.
      pose proof (keys_unique _ _ _ _ Hperm0 Hqt Hpt'). pose proof (keys_unique _ _ _ _ Hperm0 Hrt Hit'). lia.
    + apply Hinv' in Hqt; [|done]. apply Hres' in Hrt; [|done].
      assert (q ≠ i) by (intros ->; exact (Ht (invoke_at_fun _ _ _ _ Hqt Hit))). eapply Hinv; [|done..]. lia.
Qed.

Lemma fix_loop_Ok n i h idx :
  fix_inv i h idx → n + i = length h → ∃ h', fix_loop n i h idx = Ok h' ∧ well_formed h' ∧ h' ≡ₚ h0.
Proof using Hnd Hpaired.
  revert i h idx. induction n as [|n IH]; intros i h idx HI Hlen.
  { simpl in Hlen. subst i. exists h. split; [done|]. by eapply fix_end. }
  assert (i < length h) as [e He]%lookup_lt_is_Some_2 by lia. cbn [fix_loop]. rewrite (vec_get_Some _ _ _ He).
  cbn [mbind outcome_bind]. destruct e as [inv|res].
  - destruct (idx !! inv_task inv) as [p|] eqn:E.
    + destruct (fix_swap _ _ _ _ _ HI He E) as (h1 & -> & HI1). cbn [mbind outcome_bind]. apply IH; [done|].
      rewrite (Permutation_length (fi_perm _ _ _ HI1)), <-(Permutation_length (fi_perm _ _ _ HI)). lia.
    + apply IH; [by eapply fix_invoke|lia].
  - apply IH; [by eapply fix_response|lia].
Qed.
End fixing.

(** ** What the mocks promise *)

(** A mock of one of the two methods, which answers an [int]. *)
Definition good_mock (mock : TaskInfo tuple) : Prop :=
  (task_name mock = "faa" ∨ task_name mock = "get") ∧ ∃ z : Z, task_ret mock = Some (ValueWrapper_of z).

Lemma mocks_good adds b : Forall good_mock (mocks_from adds b).
Proof.
  revert adds. induction b as [|[] b IH]; intros adds; cbn [mocks_from]; constructor; try apply IH.
  - split; [by left|by eexists].
  - split; [by right|by eexists].
Qed.

(** The events of the tasks from [i] on. *)
Definition keys_from (i n : nat) : list (bool * TaskRef) :=
  concat ((λ j, [(false, task j); (true, task j)]) <$> seq i n).

Lemma keys_from_elem i n b t : (b, t) ∈ keys_from i n ↔ ∃ j, t = task j ∧ i ≤ j < i + n.
Proof.
  unfold keys_from. rewrite list_elem_of_In, in_concat. split.
  - intros (l & Hl & Hin). apply list_elem_of_In, list_elem_of_fmap in Hl as (j & -> & Hj%elem_of_seq).
    exists j. split; [|done]. destruct Hin as [[= _ <-]|[[= _ <-]|[]]]; done.
  - intros (j & -> & Hj). exists [(false, task j); (true, task j)].
    split; [|destruct b; [right; by left|by left]]. apply list_elem_of_In, list_elem_of_fmap. exists j.
    split; [done|by apply elem_of_seq].
Qed.

Lemma keys_from_nodup i n : NoDup (keys_from i n).
Proof.
  revert i. induction n as [|n IH]; intros i; [constructor|].
  change (keys_from i (S n)) with ((false, task i) :: (true, task i) :: keys_from (S i) n).
  assert (∀ b, (b, task i) ∉ keys_from (S i) n) as Hnot.
  { intros b (j & [= Hj] & ?)%keys_from_elem. lia. }
  constructor; [|constructor; [apply Hnot|apply IH]].
  intros [H|H]%elem_of_cons; [done|by eapply Hnot].
Qed.

Lemma sequential_Ok i mocks :
  Forall good_mock mocks → ∃ h, sequential_from i mocks = Ok h ∧ key <$> h = keys_from i (length mocks).
Proof.
  intros H. revert i. induction H as [|mock mocks (_ & z & Hz) _ IH]; intros i; [by exists []|].
  destruct (IH (S i)) as (h & E & Hk). cbn [sequential_from]. unfold GetRetVal. rewrite Hz. cbn [or_fail mbind outcome_bind].
  rewrite E. cbn [mbind outcome_bind]. eexists. split; [done|].
  change (length (mock :: mocks)) with (S (length mocks)).
  change (keys_from i (S (length mocks))) with ((false, task i) :: (true, task i) :: keys_from (S i) (length mocks)).
  rewrite <-Hk. done.
Qed.

(** Whatever the shuffle does, the history can be checked. *)
Lemma create_history_Ok shuffle mocks :
  (∀ l, shuffle l ≡ₚ l) → Forall good_mock mocks →
  ∃ h, create_history shuffle mocks = Ok h ∧ checkable methods (tasks mocks) h.
Proof.
  intros Hsh Hg. destruct (sequential_Ok 0 mocks Hg) as (h0 & E & Hk). unfold create_history. rewrite E. cbn [mbind outcome_bind].
  destruct (fix_loop_Ok h0) with (n := length (shuffle h0)) (i := 0) (h := shuffle h0) (idx := (∅ : gmap TaskRef nat))
    as (h & Hfix & Hwf & Hperm); [rewrite Hk; apply keys_from_nodup| |by apply fix_start|lia|].
  { intros t. rewrite Hk, !keys_from_elem. done. }
  exists h. split; [done|].
  assert (∀ i t, invoke_at h i t → ∃ mock, tasks mocks t = Some mock ∧ good_mock mock) as Htask.
  { intros i t Hi%key_invoke%list_elem_of_lookup_2. rewrite Hperm, Hk in Hi.
    apply keys_from_elem in Hi as (j & -> & Hj).
    destruct (lookup_lt_is_Some_2 mocks j) as [mock Hmock]; [lia|]. exists mock. split; [done|]. by eapply Forall_lookup_1. }
  assert (∀ mock, good_mock mock → ∃ m : SpecMethod Counter, methods !! task_name mock = Some m ∧
    ∀ s args, ∃ (z : Z) s', m s args = Ok (ValueWrapper_of z, s')) as Hmeth.
  { intros mock [[-> | ->] _]; eexists; (split; [done|]); intros s args; eexists _, _; done. }
  split; [done| |].
  - intros i t Hi. destruct (Htask _ _ Hi) as (mock & Ht & Hgm). destruct (Hmeth _ Hgm) as (m & Hm & Hres).
    exists mock, m. split_and!; [done..|]. intros s. destruct (Hres s (task_args mock)) as (z & s' & Er). by eexists.
  - intros i r t info m _ Hi Ht Hm. destruct (Htask _ _ Hi) as (mock & Ht' & Hgm).
    assert (info = mock) as -> by congruence. destruct (Hmeth _ Hgm) as (m' & Hm' & Hres).
    assert (m = m') as -> by congruence. destruct Hgm as (_ & z & Hz). exists (ValueWrapper_of z). split; [done|].
    intros s res s' Er. destruct (Hres s (task_args mock)) as (z' & s1 & Er'). rewrite Er in Er'. injection Er' as -> _.
    apply comparable_of.
Qed.

Lemma counter_bisim : spec_equal_bisim methods equal_to.
Proof.
  apply leibniz_bisim.
  - intros [] []. unfold equal_to. rewrite Z.eqb_eq. simpl. congruence.
  - intros s t ->. apply Z.eqb_refl.
Qed.

(** C24: The fuzz test of the checkers passes on every input.  For every list of
    methods and whatever [std::shuffle] and the hash of bitmaps do, the test
    makes a well-formed history, and with enough fuel both checkers say whether
    it is linearizable, so that the test reports nothing. *)
Theorem CheckersAreTheSame_passes vector_hash shuffle b_history :
  (∀ l, shuffle l ≡ₚ l) →
  let mocks := create_mocks b_history in
  ∃ h ok n, create_history shuffle mocks = Ok h ∧ well_formed h ∧
    (ok = true ↔ linearizable methods (tasks mocks) h c) ∧
    ∀ fuel, n ≤ fuel → fast vector_hash fuel mocks h = Ok ok ∧ slow mocks h = Ok ok ∧
      CheckersAreTheSame vector_hash fuel shuffle b_history = Ok None.
Proof.
  intros Hsh. destruct (create_history_Ok shuffle (create_mocks b_history) Hsh (mocks_good 0 b_history)) as (h & Eh & Hck).
  destruct (Check_decides methods (tasks (create_mocks b_history)) c hash equal_to vector_hash h counter_bisim Hck)
    as (a & n & Hn & Ha).
  destruct (Check_recursive_decides methods (tasks (create_mocks b_history)) c h Hck) as (b & Eb & Hb).
  assert (a = b) as -> by (destruct a, b; try done; naive_solver).
  exists h, b, n. split_and!; [done|by destruct Hck|done|]. intros fuel Hf. unfold CheckersAreTheSame, fast, slow.
  rewrite Eh, (Hn fuel Hf). cbn [mbind outcome_bind]. rewrite (Hn fuel Hf), Eb. cbn [mbind outcome_bind]. by rewrite eqb_reflx.
Qed.

(** The history of two [faa] and a [get], shuffled by reversing it. *)
Lemma CheckersAreTheSame_passes_witness :
  (∀ l : list HistoryEvent, reverse l ≡ₚ l) ∧
  (∃ n, ∀ fuel, n ≤ fuel → CheckersAreTheSame (λ _, 0%Z) fuel reverse [true; false; true] = Ok None) ∧
  CheckersAreTheSame (λ _, 0%Z) 100 reverse [true; false; true] = Ok None.
Proof.
  assert (∀ l : list HistoryEvent, reverse l ≡ₚ l) as H by (intros l; apply reverse_Permutation).
  split; [exact H|]. split; [|vm_compute; reflexivity].
  destruct (CheckersAreTheSame_passes (λ _, 0%Z) reverse [true; false; true] H) as (h & ok & n & _ & _ & _ & Hn).
  exists n. intros fuel Hf. apply Hn, Hf.
Defined.

(** The three tests with given histories pass. *)
Theorem lin_check_tests_pass :
  SmallLinearizableHistory (λ _, 0%Z) 1000 = Ok true ∧
  SmallUnlinearizableHistory (λ _, 0%Z) 1000 = Ok true ∧
  ExtendedLinearizableHistory (λ _, 0%Z) 1000 = Ok true.
Proof. split_and!; vm_compute; reflexivity. Qed.
End LinCheckTest.
