(* ===== verification/Examples.v ===== *)
(** * Examples: the theorems at concrete inputs

    Each property that has hypotheses is applied here to a concrete program,
    state or history on which they hold.  Most of them use the round of
    RaceRegister.v: two threads under round robin run the racy register, and the
    round ends with a history that is not linearizable. *)

From stdpp Require Import base gmap strings option list.
From S2P Require Import Prelude ValueWrapper StableVector History Linearizability LincheckRecursive Lincheck Specs.
From S2P Require Import Coro Strategy PickStrategy Pct PrettyPrint Scheduler Checkers Replay Minimization Verifiers Blocking.
From S2P Require Import Liveness RaceRegister.

(** ** The round *)

Definition outcome_or {A} (d : A) (m : outcome A) : A := match m with Ok a => a | Fail _ => d end.
Definition is_ok {A} (m : outcome A) : bool := match m with Ok _ => true | Fail _ => false end.

Lemma is_ok_eq {A} (d : A) m : is_ok m = true → m = Ok (outcome_or d m).
Proof. by destruct m. Qed.

(** Two columns. *)
#[export] Instance reg_printer : PrettyPrinter := 2%Z.

Abbreviation reg_base := (base (Strategy:=reg_strategy)).

Abbreviation reg_loop := (run_loop (HS:=reg_strategy) 100 100 3 ([], []) reg_state).
Abbreviation reg_result := (outcome_or (([], []), reg_state) reg_loop).
Definition reg_histories : BothHistories := reg_result.1.
Definition reg_final : PickState RoundRobin.RoundRobinStrategy := reg_result.2.
Abbreviation reg_seq := (reg_histories.2).
Abbreviation reg_tasks := (task_at (reg_base reg_final)).

Lemma reg_loop_Ok : reg_loop = Ok (reg_histories, reg_final).
Proof. vm_compute. reflexivity. Qed.

Lemma reg_round_Ok : RunRound (HS:=reg_strategy) 100 100 3 reg_state = Ok (Some reg_histories, reg_final).
Proof. vm_compute. reflexivity. Qed.

Lemma reg_empty : empty_round (reg_base reg_state).
Proof. intros [[|[|th]] i]; reflexivity. Qed.

Lemma reg_final_covered : covered reg_spec (reg_base reg_final).
Proof. apply reg_covered. vm_compute. reflexivity. Qed.

(** From here on the results are not to be evaluated by unification. *)
#[local] Opaque reg_histories reg_final.

Lemma reg_checkable : checkable reg_spec reg_tasks reg_seq.
Proof.
  exact (round_checkable (HS:=reg_strategy) reg_spec 100 100 3 reg_state reg_histories reg_final
    reg_loop_Ok reg_empty reg_final_covered).
Qed.

Lemma reg_equal_bisim : spec_equal_bisim reg_spec Register.LinearRegisterEquals.
Proof. apply Register.LinearRegisterEquals_bisim. Qed.

(** ** The scheduler and the checkers *)


Lemma Check_recursive_correct_witness :
  ∃ b, Check_recursive reg_spec reg_tasks Register.init reg_seq = Ok b ∧
    (b = true ↔ linearizable reg_spec reg_tasks reg_seq Register.init).
Proof. exact (Check_recursive_correct reg_spec reg_tasks Register.init reg_seq reg_checkable). Defined.

Lemma Check_correct_witness :
  ∃ b n, (∀ fuel, n ≤ fuel →
      Check reg_spec reg_tasks Register.init Register.LinearRegisterHash Register.LinearRegisterEquals
        (λ _, 0%Z) fuel reg_seq = Ok b) ∧
    (b = true ↔ linearizable reg_spec reg_tasks reg_seq Register.init).
Proof. exact (Check_correct reg_spec reg_tasks Register.init Register.LinearRegisterHash
  Register.LinearRegisterEquals (λ _, 0%Z) reg_seq reg_equal_bisim reg_checkable). Defined.

Lemma checkers_agree_witness :
  ∃ n, ∀ fuel, n ≤ fuel →
    Check reg_spec reg_tasks Register.init Register.LinearRegisterHash Register.LinearRegisterEquals
      (λ _, 0%Z) fuel reg_seq = Check_recursive reg_spec reg_tasks Register.init reg_seq.
Proof. exact (checkers_agree reg_spec Register.init Register.LinearRegisterHash
  Register.LinearRegisterEquals (λ _, 0%Z) reg_tasks reg_seq reg_equal_bisim reg_checkable). Defined.

(** Exploring the round that was generated: other interleavings, same verdict. *)
Abbreviation reg_explored := (ExploreRound (HS:=reg_strategy) 100 100 2 reg_final).
Definition reg_explored_histories : BothHistories :=
  match (outcome_or (None, reg_final) reg_explored).1 with Some h => h | None => ([], []) end.
Definition reg_explored_state : PickState RoundRobin.RoundRobinStrategy :=
  (outcome_or (None, reg_final) reg_explored).2.

Lemma reg_explored_Ok :
  reg_explored = Ok (Some (reg_explored_histories.1, reg_explored_histories.2), reg_explored_state).
Proof. vm_compute. reflexivity. Qed.

Lemma ExploreRound_spec_witness :
  complete_history (reg_base reg_explored_state) reg_explored_histories.2 ∧
  ¬ linearizable reg_spec (task_at (reg_base reg_explored_state)) reg_explored_histories.2 Register.init.
Proof.
  apply (ExploreRound_spec (HS:=reg_strategy) 100 reg_spec Register.init 100 2 reg_final _ _ _ reg_explored_Ok).
  apply reg_covered. vm_compute. reflexivity.
Defined.

(** ** The end of rounds *)

Lemma default_permissive : permissive (HV:=DefaultStrategyVerifier).
Proof. split; [intros ctask v; by exists v|intros name new th v; by exists v]. Qed.

Lemma reg_quiet : quiet (reg_base reg_state).
Proof.
  split; [| |done| |done|simpl; lia|done].
  - intros r c Hc. by rewrite reg_empty in Hc.
  - intros r c Hc. by rewrite reg_empty in Hc.
  - intros bd Hbd th w Hw. exists [], w. split; [|done].
    repeat (apply elem_of_cons in Hbd as [->|Hbd]; [done|]). by apply elem_of_nil in Hbd.
Qed.

Abbreviation reg_own := (pick_own (Sub:=RoundRobin.RoundRobinStrategy) (λ _ _, True)).

Lemma RunRound_returns_witness :
  ∃ h s', run_loop (HS:=reg_strategy) 100 100 3 ([], []) reg_state = Ok (h, s') ∧
    (covered reg_spec (reg_base s') → sensible (reg_base s') h.2 →
     ((∃ r, RunRound (HS:=reg_strategy) 100 100 3 reg_state = Ok (r, s')) ↔ rows_fit (reg_base s') h.2)).
Proof.
  refine (RunRound_returns (HS:=reg_strategy) reg_own reg_budget 2 (conj reg_wait_free reg_start_budget)
    default_permissive reg_spec Register.init 100 100 3 reg_state (conj reg_quiet I) reg_empty _ eq_refl _).
  - simpl. lia.
  - done.
Defined.

(** ** Replays *)

Abbreviation reg_reset := (ResetCurrentRound (Strategy:=reg_strategy) 100 reg_final).
Definition reg_reset_state : PickState RoundRobin.RoundRobinStrategy := (outcome_or (tt, reg_final) reg_reset).2.

Lemma reg_reset_Ok : reg_reset = Ok (tt, reg_reset_state).
Proof. vm_compute. reflexivity. Qed.

Lemma reg_reset_tokens : tokens (world (reg_base reg_reset_state)) = tokens (world (reg_base reg_state)).
Proof. vm_compute. reflexivity. Qed.

Lemma reg_final_count : (Z.of_nat (GetTotalTasksCount (reg_base reg_final)) < 2 ^ 31)%Z.
Proof. vm_compute. reflexivity. Qed.

Lemma reg_final_removed : removed_tasks (reg_base reg_final) = ∅.
Proof. vm_compute. reflexivity. Qed.

Lemma reg_pure : pure_generators (reg_base reg_state).
Proof.
  intros bd Hbd th w a w'. assert (tb_gen bd = genEmpty) as ->; [|by intros [= <- <-]].
  repeat (apply elem_of_cons in Hbd as [->|Hbd]; [done|]). by apply elem_of_nil in Hbd.
Qed.

#[local] Opaque reg_reset_state.

Lemma reg_loop_pair : reg_loop = Ok ((reg_histories.1, reg_histories.2), reg_final).
Proof. rewrite <-surjective_pairing. exact reg_loop_Ok. Qed.

Lemma replay_faithful_witness :
  ∃ ids s3, GetTasksOrdering (reg_base reg_final) reg_histories.1 ∅ = Ok ids ∧
    replay_loop (HS:=reg_strategy) 100 ids ∅ (count_resumes ids) ([], []) reg_reset_state =
      Ok ((reg_histories.1, reg_histories.2), s3).
Proof.
  exact (replay_faithful (HS:=reg_strategy) 100 100 100 3 reg_state reg_histories.1 reg_histories.2 reg_final tt
    reg_reset_state reg_loop_pair reg_empty eq_refl reg_pure eq_refl (λ _, eq_refl) reg_final_count
    reg_final_removed reg_reset_Ok reg_reset_tokens).
Defined.

(** ** Minimization *)

Abbreviation same_minimizor := (SameInterleaving_OnTasksRemoved (HS:=reg_strategy) 100).
Abbreviation exploring_minimizor := (StrategyExploration_OnTasksRemoved (HS:=reg_strategy) 100 100 2).

Abbreviation reg_minimized := (Greedy_Minimize (HS:=reg_strategy) 100 same_minimizor reg_histories reg_final).
Definition reg_min_histories : BothHistories := (outcome_or (reg_histories, reg_final) reg_minimized).1.
Definition reg_min_state : PickState RoundRobin.RoundRobinStrategy :=
  (outcome_or (reg_histories, reg_final) reg_minimized).2.

Lemma reg_minimized_Ok : reg_minimized = Ok (reg_min_histories, reg_min_state).
Proof. vm_compute. reflexivity. Qed.

Lemma reg_rejected : rejected (HS:=reg_strategy) reg_histories.
Proof. exists reg_final. vm_compute. reflexivity. Qed.

(** The ids of the full history. *)
Definition reg_ids : list Z := [0; 1; 0; 1; 0; 1; 2; 3; 2]%Z.

Lemma has_ids_compute `{HT : Target} `{HV : StrategyVerifier} b full (ids : list Z) :
  id_at b <$> full = Some <$> ids → has_ids b full ids.
Proof.
  revert ids. induction full as [|r full IH]; intros [|i ids] H; simplify_eq/=; constructor; [done|by apply IH].
Qed.

Lemma reg_has_ids : has_ids (reg_base reg_final) reg_histories.1 reg_ids.
Proof. apply has_ids_compute. vm_compute. reflexivity. Qed.

Lemma reg_without : without (removed_tasks (reg_base reg_final)) reg_ids = reg_ids.
Proof. vm_compute. reflexivity. Qed.

#[local] Opaque reg_min_histories reg_min_state.

Lemma Minimize_rejected_witness : rejected (HS:=reg_strategy) reg_min_histories.
Proof.
  exact (Minimize_rejected (SoundMinimizor:=SameInterleavingMinimizor_sound (HS:=reg_strategy) 100)
    reg_histories reg_final reg_min_histories reg_min_state reg_minimized_Ok reg_rejected).
Defined.

Lemma Minimize_same_interleaving_witness :
  has_ids (reg_base reg_min_state) reg_min_histories.1 (without (removed_tasks (reg_base reg_min_state)) reg_ids) ∧
  removed_tasks (reg_base reg_final) ⊆ removed_tasks (reg_base reg_min_state) ∧
  ∀ r, id_at (reg_base reg_min_state) r = id_at (reg_base reg_final) r.
Proof.
  exact (Minimize_same_interleaving (HS:=reg_strategy) 100 reg_histories reg_ids reg_final reg_min_histories
    reg_min_state reg_has_ids reg_without reg_minimized_Ok).
Defined.

Abbreviation reg_removal := (same_minimizor reg_histories {[3%Z]} reg_final).
Definition reg_removal_result : Result * PickState RoundRobin.RoundRobinStrategy :=
  outcome_or (None, reg_final) reg_removal.
Definition reg_removal_histories : BothHistories := default ([], []) reg_removal_result.1.
Definition reg_removal_state : PickState RoundRobin.RoundRobinStrategy := reg_removal_result.2.

Lemma reg_removal_Ok : reg_removal = Ok (Some reg_removal_histories, reg_removal_state).
Proof. vm_compute. reflexivity. Qed.

#[local] Opaque reg_removal_histories reg_removal_state.

Lemma SameInterleaving_filters_witness :
  has_ids (reg_base reg_removal_state) reg_removal_histories.1 (without {[3%Z]} reg_ids).
Proof.
  exact (SameInterleaving_filters (HS:=reg_strategy) 100 reg_histories reg_ids {[3%Z]} reg_final
    reg_removal_histories reg_removal_state reg_has_ids reg_removal_Ok).
Defined.

Abbreviation reg_exploration := (exploring_minimizor reg_histories {[1%Z]} reg_final).
Definition reg_exploration_result : Result * PickState RoundRobin.RoundRobinStrategy :=
  outcome_or (None, reg_final) reg_exploration.
Definition reg_exploration_histories : BothHistories := default ([], []) reg_exploration_result.1.
Definition reg_exploration_state : PickState RoundRobin.RoundRobinStrategy := reg_exploration_result.2.

Lemma reg_exploration_Ok : reg_exploration = Ok (Some reg_exploration_histories, reg_exploration_state).
Proof. vm_compute. reflexivity. Qed.

Lemma reg_exploration_disjoint : ({[1%Z]} : gset Z) ## removed_tasks (reg_base reg_final).
Proof. rewrite reg_final_removed. set_solver. Qed.

#[local] Opaque reg_exploration_histories reg_exploration_state.

Lemma StrategyExploration_marks_witness :
  (∀ u, id_at (reg_base reg_exploration_state) u = id_at (reg_base reg_final) u) ∧
  removed_tasks (reg_base reg_exploration_state) = {[1%Z]} ∪ removed_tasks (reg_base reg_final).
Proof.
  exact (StrategyExploration_marks (HS:=reg_strategy) 100 100 2 reg_histories {[1%Z]} reg_final
    (Some reg_exploration_histories) reg_exploration_state reg_exploration_disjoint reg_exploration_Ok).
Defined.
