(* ===== verification/ExamplesParts.v ===== *)
(** * ExamplesParts: the theorems about single components at concrete inputs *)

From stdpp Require Import base gmap strings option list.
From S2P Require Import Prelude ValueWrapper StableVector History Specs.
From S2P Require Import Coro Strategy PickStrategy Pct Scheduler Verifiers Blocking.
From S2P Require Import RaceRegister.

(** ** Strategies *)

(** A round in which the first thread runs [add] and the second has nothing. *)
Definition one_task : CoroBase := New "add" [] 0.
Definition two_threads : BaseStrategy :=
  mk_Base 1 ∅ [(-1)%Z; (-1)%Z] tt world_init [[one_task]; []] reg_constructors.
Definition rr_state : PickState RoundRobin.RoundRobinStrategy :=
  mk_Pick two_threads tt (RoundRobin.mk_RoundRobin 0).
Definition random_state : PickState Random.RandomStrategy :=
  mk_Pick two_threads tt (Random.mk_Random [1%Z; 2%Z] []).

Lemma rr_in_range : RoundRobin.in_range rr_state.
Proof. split; simpl; lia. Qed.

Lemma two_threads_live : all_live two_threads.
Proof.
  intros [[|[|th]] [|i]] c Hc; try discriminate Hc. injection Hc as <-. split; [reflexivity|].
  intros _. by eexists.
Qed.

Lemma Pick_spec_witness :
  (∃ k s', k < 2 ∧ RoundRobin.Pick rr_state = Ok (RoundRobin.turn rr_state k, s') ∧
    (∀ j, j < k → waits two_threads (RoundRobin.turn rr_state j) = true) ∧
    waits two_threads (RoundRobin.turn rr_state k) = false ∧
    RoundRobin.next_task (pick_sub s') = (0 + Z.of_nat k + 1)%Z) ∨
  (RoundRobin.Pick rr_state = Fail (AssertFailed "deadlock") ∧
    ∀ th, th < 2 → waits two_threads th = true).
Proof. exact (RoundRobin.Pick_spec rr_state (Nat.lt_0_succ 1) rr_in_range). Defined.

Lemma Pick_fair_witness :
  ∃ s', RoundRobin.Pick rr_state = Ok (0, s') ∧
    (0 ≤ RoundRobin.distance s' 1 < RoundRobin.distance rr_state 1)%Z.
Proof.
  eexists. split; [vm_compute; reflexivity|].
  refine (proj1 (RoundRobin.Pick_fair rr_state 0 _ 1 rr_in_range (le_n 2) eq_refl eq_refl _)). discriminate.
Defined.

Lemma Pick_random_spec_witness :
  let candidates := ready two_threads (seq 0 2) in
  (candidates = [] ∧ Random.Pick random_state = Fail (AssertFailed "deadlock")) ∨
  ∃ ws t s', length ws = length candidates ∧ Random.Pick random_state = Ok (t, s') ∧
    (0 ≤ (discrete ws tt).1)%Z ∧ candidates !! Z.to_nat (discrete ws tt).1 = Some t.
Proof.
  refine (Random.Pick_random_spec random_state (le_n 2) _).
  repeat constructor; simpl; lia.
Defined.

(** PCT on the same two threads, of depth 2, about to lower a priority. *)
Definition pct_state : PctState := mk_Pct two_threads [] 2 2 0 [2%Z; 3%Z] [1%Z] false tt.

Lemma pct_state_inv : pct_inv pct_state.
Proof. split; simpl; try lia. repeat constructor; lia. Qed.

Lemma pct_pick_spec_witness :
  (pct_pick pct_state = Fail (AssertFailed "all threads are empty or parked") ∧
    ∀ th, th < 2 → waits two_threads th = true) ∨
  ∃ k s', pct_pick pct_state = Ok (k, s') ∧ k < 2 ∧ waits two_threads k = false ∧
    ∀ th, th < 2 → waits two_threads th = false → (priority pct_state th ≤ priority pct_state k)%Z.
Proof. exact (pct_pick_spec pct_state pct_state_inv). Defined.

Lemma pct_inv_preserved_witness :
  ∃ t s', pct_Next 100 pct_state = Ok (t, s') ∧ pct_inv s'.
Proof.
  do 2 eexists. split; [vm_compute; reflexivity|].
  refine (proj1 (pct_inv_preserved 100 pct_state _ pct_state_inv) _ _ _); [simpl; lia|vm_compute; reflexivity].
Defined.

(** ** The base strategy *)

Lemma TerminateTasks_spec_witness :
  ∃ s', TerminateTasks 100 two_threads = Ok (tt, s') ∧
    terminated (given_up (with_schedule [(-1)%Z; (-1)%Z] two_threads)) (threads s') ∧
    round_schedule s' = [(-1)%Z; (-1)%Z].
Proof.
  eexists. split; [vm_compute; reflexivity|].
  match goal with |- terminated _ (threads ?s') ∧ _ =>
    assert (TerminateTasks 100 two_threads = Ok (tt, s')) as H by (vm_compute; reflexivity);
    destruct (TerminateTasks_spec 100 two_threads tt s' H) as (_ & Ht & Hs & _); exact (conj Ht Hs)
  end.
Defined.

Lemma ResetCurrentRound_wait_free_witness :
  ∃ s', base_ResetCurrentRound 100 two_threads = Ok (tt, s') ∧
    ∃ c', slot s' (0, 0) = Some c' ∧ same_task one_task c'.
Proof.
  destruct (ResetCurrentRound_wait_free (HT:=reg_target) reg_budget reg_wait_free 100 two_threads eq_refl two_threads_live)
    as (s' & H & _ & _ & Hslots); [vm_compute; lia|].
  exists s'. split; [exact H|]. destruct (Hslots (0, 0) one_task eq_refl) as (c' & Hc' & Hs & _).
  exists c'. exact (conj Hc' Hs).
Defined.

Lemma GetNextTaskInThread_spec_witness :
  ∃ j : nat, GetNextTaskInThread 0 two_threads = Ok (Z.of_nat j) ∧ j ≤ 1.
Proof.
  destruct (GetNextTaskInThread_spec two_threads 0 [one_task] (-1) eq_refl eq_refl) as (j & Hj & Hle & _);
    [simpl; lia|]. exists j. exact (conj Hj Hle).
Defined.

(** ** Coroutines *)

(** [one_task] after its three resumes. *)
Definition one_task_done : CoroBase := mk_CoroBase 0 "add" [] void_v true no_futex None None.
Definition world_done : World := mk_World 1%Z ∅ None None.

Lemma Terminate_spec_witness :
  Terminate (Z.to_nat max_tries) one_task world_init = Ok (one_task_done, world_done).
Proof.
  apply (proj2 (Terminate_spec (Z.to_nat max_tries) one_task world_init one_task_done world_done (le_n _))).
  exists 3. split; [reflexivity|]. split; [|reflexivity].
  do 3 (eapply resumes_S; [reflexivity|]). apply resumes_O.
Defined.

(** A task that parked its token and returned. *)
Definition parked_task : CoroBase := mk_CoroBase 0 "add" [] void_v true no_futex (Some 7) None.
Definition parked_world : World := mk_World 0%Z {[7 := true]} None None.

Lemma Restart_keeps_parked_witness :
  ∃ c', Restart parked_task = Ok c' ∧ IsReturned c' = false ∧ same_task parked_task c' ∧
    ctx c' = Some (start (name parked_task) (args parked_task)) ∧
    IsParked c' parked_world = IsParked parked_task parked_world.
Proof. exact (Restart_keeps_parked parked_task parked_world eq_refl). Defined.

(** ** Data *)

Lemma StableVector_refines_list_witness :
  ∃ v, sv_run [EmplaceBack 5%Z; EmplaceBack 6%Z; EmplaceBack 7%Z; PopBack; Index 1; Front; Back; Size; Resize 5 9%Z]
         sv_empty =
       Ok ([Done; Done; Done; Done; Element 6%Z; Element 5%Z; Element 6%Z; Count 2%Z; Done], v) ∧
    size v = 5%Z ∧ destructor v = Ok [5; 6; 9; 9; 9]%Z.
Proof.
  exact (StableVector_refines_list
    [EmplaceBack 5%Z; EmplaceBack 6%Z; EmplaceBack 7%Z; PopBack; Index 1; Front; Back; Size; Resize 5 9%Z]
    _ _ eq_refl).
Defined.

Lemma StableVector_limits_witness : pop_back (sv_empty (T:=Z)) = Fail (Undefined "__builtin_clzll(0)").
Proof. exact (proj2 (proj2 (StableVector_limits sv_empty [] 0%Z sv_empty_rep)) eq_refl). Defined.

Lemma StableVector_moves_witness :
  ∃ v, emplace_back 1%Z sv_empty = Ok v ∧
    sv_rep (move_construct v).1 [1%Z] ∧ StableVector.size (move_construct v).2 = 1%Z ∧
    destructor (move_assign v sv_empty).2 = Ok [].
Proof.
  destruct (emplace_back_rep sv_empty [] 1%Z sv_empty_rep) as (v & E & HR); [simpl; lia|].
  exists v. split; [exact E|].
  destruct (StableVector_moves sv_empty v [] [1%Z] sv_empty_rep HR) as (H1 & _ & H2 & _).
  destruct (StableVector_moves v sv_empty [1%Z] [] HR sv_empty_rep) as (_ & _ & _ & _ & _ & H3).
  exact (conj H1 (conj H2 H3)).
Defined.

(** Two overlapping calls, the second one pending. *)
Definition small_history : list HistoryEvent :=
  [EInvoke (mk_Invoke (0, 0) 0); EInvoke (mk_Invoke (1, 0) 1); EResponse (mk_Response (0, 0) void_v 0)].

Lemma get_inv_res_mapping_spec_witness :
  ∃ m, get_inv_res_mapping small_history = Ok m ∧ ∀ i j, m !! i = Some j ↔ matching small_history i j.
Proof. exact (get_inv_res_mapping_spec small_history (well_formedb_sound small_history eq_refl)). Defined.

Lemma vw_eq_spec_witness :
  vw_eq (ValueWrapper_of 3%Z) (ValueWrapper_of 4%Z) = Ok (bool_decide (any_of 3%Z = any_of 4%Z)).
Proof. exact (proj1 vw_eq_spec Z _ _ 3%Z 4%Z). Defined.

(** ** Verifiers and blocking *)

Lemma Verify_alternates_witness :
  starts_after MutexVerifier.allowed [Started 0 "Unlock"; Finished 0 "Lock"; Started 1 "Lock"; Started 0 "Lock"].
Proof.
  eapply (MutexVerifier.Verify_alternates _ _ _).
  eapply verified_start; [eapply (verified_finish _ _ _ _ _ _ true); [eapply verified_start; [eapply verified_start; [apply verified_nil
    |reflexivity|vm_compute; reflexivity]|reflexivity|vm_compute; reflexivity]
    |reflexivity|vm_compute; reflexivity]|reflexivity|vm_compute; reflexivity].
Defined.

Lemma Verify_releases_held_witness :
  starts_after SharedMutexVerifier.allowed [Started 0 "unlock_shared"; Finished 0 "lock_shared"; Started 0 "lock_shared"].
Proof.
  eapply (SharedMutexVerifier.Verify_releases_held _ _ _).
  eapply verified_start; [eapply (verified_finish _ _ _ _ _ _ true); [eapply verified_start; [apply verified_nil
    |reflexivity|vm_compute; reflexivity]|reflexivity|vm_compute; reflexivity]
    |reflexivity|vm_compute; reflexivity].
Defined.

Lemma Lock_fifo_witness :
  ∃ ts, TokenMutex.runs [TokenMutex.Locking 3; TokenMutex.Locking 5; TokenMutex.Unlocking] [5] ts ∧
    ∀ i t, [5] !! i = Some t → TokenMutex.parked ts t = bool_decide (0 < i).
Proof.
  assert (∃ ts, TokenMutex.runs [TokenMutex.Locking 3; TokenMutex.Locking 5; TokenMutex.Unlocking] [5] ts) as [ts H].
  { eexists. apply (TokenMutex.runs_unlock [TokenMutex.Locking 3; TokenMutex.Locking 5] [3; 5] (Park 5 ∅));
      [|reflexivity].
    apply (TokenMutex.runs_lock [TokenMutex.Locking 3] [3] ∅ 5 [3; 5] (Park 5 ∅) true); [|reflexivity|set_solver|reflexivity].
    apply (TokenMutex.runs_lock [] [] ∅ 3 [3] ∅ false); [|reflexivity|set_solver|reflexivity].
    apply TokenMutex.runs_init. }
  exists ts. split; [exact H|]. exact (proj1 (proj2 (TokenMutex.Lock_fifo _ _ _ H))).
Defined.

Lemma hook_futex_wait_witness :
  ∃ blocked, Hook.hook true Hook.SYS_futex 8 Hook.FUTEX_WAIT_PRIVATE 1 = Ok (Hook.Yields blocked) ∧
    ∃ c', IsBlocked (Hook.hooked blocked one_task) world_init = (false, c').
Proof.
  destruct (Hook.hook_futex_wait (H:=reg_target) 8 1 one_task world_init) as (blocked & H & _ & Hne);
    [unfold in_int32; lia|].
  exists blocked. split; [exact H|]. destruct Hne as (c' & Hc & _); [discriminate|]. exists c'. exact Hc.
Defined.

(** ** Specifications *)

Lemma mutual_exclusion_witness : ∃ u, 0 < u < 2 ∧ [Mutex.lock; Mutex.unlock; Mutex.lock] !! u = Some Mutex.unlock.
Proof.
  refine (Mutex.mutual_exclusion [Mutex.lock; Mutex.unlock; Mutex.lock] Mutex.init [0%Z; 0%Z; 0%Z] (Mutex.mk_Mutex 1) 0 2
    eq_refl _ (conj eq_refl eq_refl) (conj eq_refl eq_refl)). lia.
Defined.

Lemma holders_spec_witness :
  SharedMutex.lock (SharedMutex.mk_SharedMutex 2) = (1%Z, SharedMutex.mk_SharedMutex 2) ∧
  SharedMutex.holders (SharedMutex.lock_shared (SharedMutex.mk_SharedMutex 2)).2 3 false.
Proof.
  assert (SharedMutex.holders (SharedMutex.mk_SharedMutex 2) 2 false) as Hh
    by (apply (SharedMutex.held_shared 2); lia).
  destruct (SharedMutex.holders_spec (SharedMutex.mk_SharedMutex 2) 2 false Hh) as (H1 & H2 & _); [lia|].
  exact (conj H1 (proj2 H2)).
Defined.
