(* ===== verification/ExamplesTLA.v ===== *)
(** * ExamplesTLA: the exhaustive scheduler on the racy register

    With two tasks every execution of the register is linearizable; with three,
    the scheduler finds one that is not. *)

From stdpp Require Import base gmap strings option list.
From S2P Require Import Prelude ValueWrapper History Linearizability Specs Coro Strategy PickStrategy PrettyPrint Scheduler.
From S2P Require Import Checkers Verifiers Liveness RaceRegister TLA TLAExhaustive TLALinear TLATermination Examples.

Import TLA.

Definition reg_config (tasks : nat) : Config := mk_Config tasks 0 100 2 reg_constructors.

Definition reg_cancel (x : Z) : Z := x.

Lemma reg_replay_safe tasks : replay_safe (reg_config tasks).
Proof.
  split.
  - done.
  - intros [] o sl H; simpl in H; by injection H as <-.
  - intros b th w a w' Hb H. simpl in Hb.
    repeat (apply elem_of_cons in Hb as [->|Hb]; [by injection H as _ <-|]). by apply not_elem_of_nil in Hb.
  - intros t [] r v' H. by injection H as <- _.
Qed.

Lemma reg_total tasks : total_target (reg_config tasks) reg_budget 2.
Proof.
  split.
  - split; [apply reg_wait_free|apply reg_start_budget].
  - apply default_permissive.
  - intros. by eexists.
  - intros [] o ts f' o' ts' bl st H; by inversion H.
  - intros b th w Hb. simpl in Hb.
    repeat (apply elem_of_cons in Hb as [->|Hb]; [by eexists _, _|]). by apply not_elem_of_nil in Hb.
Qed.

(** ** Every execution is covered by the specification *)

Definition reg_good (c : CoroBase) : bool :=
  match ctx c with
  | Some (AddLoad | AddStore _ | AddReturn) => String.eqb (name c) "add" && negb (IsReturned c)
  | Some (GetLoad | GetReturn _) => String.eqb (name c) "get" && negb (IsReturned c)
  | None => reg_task_ok c
  end.

Lemma reg_good_ok c : reg_good c = true → reg_task_ok c = true.
Proof.
  unfold reg_good, reg_task_ok. destruct (ctx c) as [[]|]; try done;
    intros [-> ->]%andb_true_iff; by rewrite ?orb_true_r.
Qed.

Lemma reg_step_good c o c' o' : plain_step c o c' o' → reg_good c = true → reg_good c' = true.
Proof.
  intros [st H] Hg. unfold Resume, reg_good in *. destruct (IsReturned c) eqn:Hr; [done|].
  destruct (ctx c) as [[]|] eqn:Hc; simpl in H; try done; apply andb_true_iff in Hg as [Hn _];
    injection H as <- _ _; unfold reg_task_ok; simpl; rewrite ?Hn; try done.
  by rewrite orb_true_r.
Qed.

Definition reg_all_good (C : aconf) : Prop := ∀ r c, task_in (c_threads C) r = Some c → reg_good c = true.

Lemma reg_astep_good tasks i C C1 : astep (reg_config tasks) i C C1 → reg_all_good C → reg_all_good C1.
Proof.
  intros [thread n c c' o' Ht Hn Hc Hr _ Hp|thread b c w c' o' Ht _ _ _ Hb Hbuild Hp] Hg u d; simpl.
  - assert (task_in (c_threads C) (i, n) = Some c) as Hin by (apply task_in_Some; eauto).
    destruct (decide ((i, n) = u)) as [<-|Hne].
    + rewrite (task_in_put_eq _ _ _ _ Hin). intros [= <-]. eapply reg_step_good; [done|by eapply Hg].
    + rewrite task_in_put_ne by done. apply Hg.
  - assert (reg_good c = true) as Hgc.
    { simpl in Hb. unfold Build in Hbuild. simpl in Hbuild.
      repeat (apply elem_of_cons in Hb as [->|Hb]; [by injection Hbuild as <- _|]). by apply not_elem_of_nil in Hb. }
    rewrite (put_new i thread) by done. intros [[_ ->]|Hd]%(task_in_push _ _ _ _ _ _ Ht); [|by eapply Hg].
    by eapply reg_step_good.
Qed.

Lemma reg_finishes_good tasks C D : finishes (reg_config tasks) C D → reg_all_good C → reg_all_good D.
Proof. induction 1 as [|i C C1 D _ Hs _ IH]; [done|]. intros HR. by eapply IH, reg_astep_good. Qed.

Lemma reg_init_good n : reg_all_good (conf_init n).
Proof. intros [th i] c (thread & Ht & Hi)%task_in_Some. by apply lookup_replicate in Ht as [-> _]. Qed.

Lemma reg_finishes_covered tasks n D :
  finishes (reg_config tasks) (conf_init n) D → covered reg_spec (as_base (c_threads D)).
Proof.
  intros HD. apply reg_covered. apply forallb_forall. intros thread Ht. apply forallb_forall. intros c Hc.
  apply list_elem_of_In, list_elem_of_lookup in Ht as [th Ht]. apply list_elem_of_In, list_elem_of_lookup in Hc as [i Hc].
  apply reg_good_ok, (reg_finishes_good _ _ _ HD (reg_init_good n) (th, i)), task_in_Some. eauto.
Qed.

Lemma reg_decided tasks n : decided (reg_config tasks) (conf_init n).
Proof.
  intros D HD. apply (verdict_linear reg_spec Register.init D); [|by eapply reg_finishes_covered].
  eapply finishes_recorded; [done|apply recorded_init].
Qed.

(** ** The runs *)

Abbreviation reg_run tasks := (Run (reg_config tasks) reg_cancel 10 100 (init 2)).
Definition reg_run_result (tasks : nat) : Result := (outcome_or (None, init 2) (reg_run tasks)).1.
Definition reg_run_state (tasks : nat) : TLAState := (outcome_or (None, init 2) (reg_run tasks)).2.

Lemma reg_run_Ok tasks : is_ok (reg_run tasks) = true → reg_run tasks = Ok (reg_run_result tasks, reg_run_state tasks).
Proof.
  intros H. rewrite (is_ok_eq (None, init 2) _ H) at 1. unfold reg_run_result, reg_run_state.
  by destruct (outcome_or _ _).
Qed.

Lemma reg_run_2 : is_ok (reg_run 2) = true ∧ reg_run_result 2 = None ∧ finished_rounds (reg_run_state 2) ≠ 0.
Proof. split; [|split]; vm_compute; [done|done|discriminate]. Qed.
Lemma reg_run_3 : is_ok (reg_run 3) = true ∧ is_Some (reg_run_result 3).
Proof. split; vm_compute; [done|by eexists]. Qed.

#[local] Opaque reg_run_result reg_run_state.

Abbreviation reg_executions tasks := (executions (reg_config tasks) 100 (conf_init 2)).

(** There is no bound on the rounds. *)
Lemma reg_within tasks ds : within_rounds (reg_config tasks) ds = ds.
Proof. reflexivity. Qed.

Lemma Run_exhaustive_witness :
  (∀ D, finishes (reg_config 2) (conf_init 2) D → accepted D) ∧
  is_Some (first_rejected (reg_executions 3)).
Proof.
  split.
  - destruct (Run_exhaustive (reg_config 2) (reg_replay_safe 2) reg_cancel 10 100 2 _ _
      (reg_run_Ok 2 (proj1 reg_run_2)) ltac:(discriminate)) as (_ & _ & _ & H).
    destruct (H (proj1 (proj2 reg_run_2))) as (Ha & _ & Hall). rewrite reg_within in Ha.
    destruct Hall as [E|[_ Hall]]; [destruct (proj2 (proj2 reg_run_2) E)|].
    intros D HD. exact (proj1 (Forall_forall _ _) Ha D (proj1 (Hall D) HD)).
  - destruct (Run_exhaustive (reg_config 3) (reg_replay_safe 3) reg_cancel 10 100 2 _ _
      (reg_run_Ok 3 (proj1 reg_run_3)) ltac:(discriminate)) as (_ & H & _).
    rewrite reg_within in H. rewrite <-H. exact (proj2 reg_run_3).
Defined.

Lemma Run_linearizable_witness :
  (∀ D, finishes (reg_config 2) (conf_init 2) D → linear reg_spec Register.init D) ∧
  ∃ D, D ∈ reg_executions 3 ∧ ¬ linear reg_spec Register.init D.
Proof.
  split.
  - pose proof (Run_linearizable (reg_config 2) reg_spec Register.init (reg_replay_safe 2) reg_cancel 10 100 2 _ _
      (reg_run_Ok 2 (proj1 reg_run_2)) ltac:(discriminate) (reg_finishes_covered 2 2)) as H. cbv zeta in H.
    rewrite (proj1 (proj2 reg_run_2)) in H. destruct H as (_ & _ & [H|H]); [|exact H].
    destruct (proj2 (proj2 reg_run_2) H).
  - pose proof (Run_linearizable (reg_config 3) reg_spec Register.init (reg_replay_safe 3) reg_cancel 10 100 2 _ _
      (reg_run_Ok 3 (proj1 reg_run_3)) ltac:(discriminate) (reg_finishes_covered 3 2)) as H. cbv zeta in H.
    destruct (proj2 reg_run_3) as [h Hh]. rewrite Hh in H.
    destruct H as (_ & ds1 & D & ds2 & E & _ & Hnot & _). exists D. split; [|exact Hnot].
    rewrite E. apply elem_of_app. right. by left.
Defined.

Lemma Run_returns_witness :
  ∃ r s', Run (reg_config 3) reg_cancel 10 100 (init 2) = Ok (r, s').
Proof.
  apply (Run_returns (reg_config 3) (reg_replay_safe 3) reg_cancel 10 reg_budget 2 (reg_total 3)).
  - lia.
  - unfold max_tries. lia.
  - done.
  - by vm_compute.
  - discriminate.
  - discriminate.
  - apply reg_decided.
  - simpl. lia.
  - done.
Defined.

(** ** The full history can be popped while it is empty

    A method that yields once before it announces the start of a coroutine: the
    row of the announcement takes the row of the start with it when it is undone,
    and the row of the start is then undone on an empty vector. *)

Section underflow.

Let late_target : Target := {|
  TargetObj := unit;
  Frame := nat;
  target_init := tt;
  target_Reset _ := tt;
  read_word _ _ := 0%Z;
  start _ _ := 0;
|}.
#[local] Existing Instance late_target.

Let late_code : Code := λ (f : nat) o ts,
  match f with
  | 0 => Ok (Yielded 1 o ts None None)
  | 1 => Ok (Yielded 2 o ts None (Some (mk_CoroutineStatus "co" true)))
  | _ => Ok (Returned void_v o ts)
  end.
#[local] Existing Instance late_code.

Let late_checker : ModelChecker := λ _ _, Ok true.
#[local] Existing Instance late_checker.
Let one_column : PrettyPrinter := 1%Z.
#[local] Existing Instance one_column.

Lemma full_history_underflow :
  Run (mk_Config 1 0 0 1 [mk_TaskBuilder "method" genEmpty]) (λ o, o) 10 10 (init 1) =
  Fail (Undefined "full_history.back()").
Proof. vm_compute. reflexivity. Qed.
End underflow.
