(* ===== verification/ExamplesRun.v ===== *)
(** * ExamplesRun: the genetic minimizer and whole runs on the racy register

    The non-linearizable round of Examples.v is minimized by [SmartMinimizor],
    and the scheduler runs two rounds of two tasks, which are accepted. *)

From stdpp Require Import base gmap strings option list.
From Stdlib Require Import ZArith SpecFloat.
From S2P Require Import Prelude ValueWrapper History Linearizability Specs Coro Strategy PickStrategy Scheduler.
From S2P Require Import Checkers Replay Minimization Smart SmartCorrect SchedulerRun Verifiers RaceRegister Examples.

(** ** Concrete randomness and containers *)

(** Draws of [0.5], and a container that appends. *)
#[local] Instance reg_real_rng : RealRng := λ g, (p, g).
#[local] Instance append_unordered : Unordered := {| arrange A l x := l ++ [x] |}.
#[local] Instance append_laws : UnorderedLaws.
Proof. split. intros A l x. simpl. by rewrite Permutation_app_comm. Qed.

Lemma reg_final_ids : map (map GetId) (threads (reg_base reg_final)) = [[0; 2]; [1; 3]]%Z.
Proof. vm_compute. reflexivity. Qed.

Lemma id_at_map `{HT : Target} `{HV : StrategyVerifier} (b : BaseStrategy) th i :
  id_at b (th, i) = map (map GetId) (threads b) !! th ≫= λ thread, thread !! i.
Proof.
  unfold id_at, slot. change (map (map GetId) (threads b)) with (map GetId <$> threads b).
  rewrite list_lookup_fmap. simpl. destruct (threads b !! th) as [thread|]; [|done]. simpl.
  by rewrite <-list_lookup_fmap.
Qed.

Lemma reg_unique_ids : unique_ids (reg_base reg_final).
Proof.
  intros [th i] [th' i'] id. rewrite !id_at_map, reg_final_ids.
  destruct th as [|[|]], i as [|[|]], th' as [|[|]], i' as [|[|]]; simpl; rewrite ?lookup_nil; simpl; congruence.
Qed.

(** ** The genetic minimizer *)

Lemma Solution_assertions_witness :
  in_unit (tasks_fitness 7 15) = true ∧ (in_unit (threads_fitness 0 4) = true ↔ 0 ≠ 0).
Proof. apply (Solution_assertions 7 15 0 4); lia. Defined.

Abbreviation reg_params := (default_params 2 3).
Abbreviation reg_smart := (mk_Smart initial_mutations_count 0 [] ()).

Abbreviation reg_smart_run := (Smart_Minimize (HS:=reg_strategy) 100 100 reg_params reg_histories (reg_smart, reg_final)).
Definition reg_smart_result : BothHistories * (SmartState * PickState RoundRobin.RoundRobinStrategy) :=
  outcome_or (reg_histories, (reg_smart, reg_final)) reg_smart_run.
Definition reg_smart_histories : BothHistories := reg_smart_result.1.
Definition reg_smart_state : SmartState := reg_smart_result.2.1.
Definition reg_smart_final : PickState RoundRobin.RoundRobinStrategy := reg_smart_result.2.2.

Lemma reg_smart_Ok : reg_smart_run = Ok (reg_smart_histories, (reg_smart_state, reg_smart_final)).
Proof. vm_compute. reflexivity. Qed.

Definition reg_solution : Solution :=
  outcome_or (mk_Solution [] reg_histories p 0) (make_solution (reg_base reg_final) reg_histories 4).
Lemma reg_solution_Ok : make_solution (reg_base reg_final) reg_histories 4 = Ok reg_solution.
Proof. vm_compute. reflexivity. Qed.

Abbreviation reg_population := (mk_Smart initial_mutations_count 4 [reg_solution] ()).
Abbreviation reg_runs := (run_minimization (HS:=reg_strategy) 100 100 reg_params 3 (reg_population, reg_final)).
Definition reg_runs_result : () * (SmartState * PickState RoundRobin.RoundRobinStrategy) :=
  outcome_or (tt, (reg_population, reg_final)) reg_runs.
Definition reg_runs_smart : SmartState := reg_runs_result.2.1.
Definition reg_runs_state : PickState RoundRobin.RoundRobinStrategy := reg_runs_result.2.2.

Lemma reg_runs_Ok : reg_runs = Ok (tt, (reg_runs_smart, reg_runs_state)).
Proof. vm_compute. reflexivity. Qed.

#[local] Opaque reg_final reg_histories reg_smart_histories reg_smart_state reg_smart_final.
#[local] Opaque reg_solution reg_runs_smart reg_runs_state.

Lemma reg_solution_subround : subround (reg_base reg_final) reg_solution.
Proof. exact (proj2 (make_solution_Ok _ _ _ _ reg_solution_Ok)). Qed.

Lemma Smart_Minimize_spec_witness :
  rejected_in (HS:=reg_strategy) reg_smart_final reg_smart_histories ∧
  (∀ r, id_at (reg_base reg_smart_final) r = id_at (reg_base reg_final) r) ∧
  ∀ r id, id_at (reg_base reg_final) r = Some id →
    id ∈ removed_tasks (reg_base reg_final) → id ∈ removed_tasks (reg_base reg_smart_final).
Proof.
  exact (Smart_Minimize_spec (HS:=reg_strategy) 100 100 reg_params reg_histories reg_smart reg_final
    reg_smart_histories reg_smart_state reg_smart_final reg_smart_Ok reg_unique_ids).
Defined.

Lemma run_minimization_improves_witness :
  ∃ best rest, population reg_runs_smart = best :: rest ∧ length (best :: rest) ≤ max_population_size ∧
    (best = reg_solution ∨ SFltb (fitness reg_solution) (fitness best) = true) ∧
    Forall (λ y, SFltb (fitness best) (fitness y) = false) rest ∧ Forall (subround (reg_base reg_final)) (best :: rest).
Proof.
  exact (run_minimization_improves (HS:=reg_strategy) 100 100 reg_params 3 reg_solution reg_population reg_final
    tt reg_runs_smart reg_runs_state reg_runs_Ok reg_unique_ids eq_refl reg_solution_subround).
Defined.

(** ** Whole runs *)

(** Two rounds of two tasks. *)
Definition two_params : SchedulerParams := mk_SchedulerParams 2 2 false 2 3.
Abbreviation reg_two := (StrategyScheduler_Run (HS:=reg_strategy) 100 100 two_params () reg_state).
Definition reg_two_state : PickState RoundRobin.RoundRobinStrategy := (outcome_or (None, reg_state) reg_two).2.

Lemma reg_two_Ok : reg_two = Ok (None, reg_two_state).
Proof. vm_compute. reflexivity. Qed.

#[local] Opaque reg_two_state.

(** The coverage of the rounds a run plays, by playing them. *)
Fixpoint rounds_good (tasks rounds : nat) (s : PickState RoundRobin.RoundRobinStrategy) : bool :=
  match rounds with
  | 0 => true
  | S rounds =>
      match run_loop (HS:=reg_strategy) 100 100 tasks ([], []) s with
      | Ok (_, s1) =>
          forallb (forallb reg_task_ok) (threads (reg_base s1)) &&
          match StartNextRound (Strategy:=reg_strategy) 100 s1 with Ok (_, s2) => rounds_good tasks rounds s2 | Fail _ => true end
      | Fail _ => true
      end
  end.

Lemma rounds_good_covered prm rounds s :
  rounds_good (max_tasks prm) rounds s = true →
  rounds_covered (HS:=reg_strategy) 100 100 prm reg_spec rounds s.
Proof.
  revert s. induction rounds as [|rounds IH]; intros s; cbn [rounds_good rounds_covered]; [done|].
  destruct (run_loop _ _ _ _ _) as [[h s1]|]; [|done]. intros [Hc Hn]%andb_true_iff h' s' [= <- <-].
  split; [by apply reg_covered|]. intros u s2 H. rewrite H in Hn. by apply IH.
Qed.

Lemma reg_rounds_covered : rounds_covered (HS:=reg_strategy) 100 100 two_params reg_spec 2 reg_state.
Proof. apply rounds_good_covered. vm_compute. reflexivity. Qed.

Lemma Run_spec_witness :
  nsteps (accepted_round (HS:=reg_strategy) 100 100 two_params reg_spec Register.init) 2 reg_state reg_two_state.
Proof.
  exact (Run_spec (HS:=reg_strategy) 100 100 two_params () reg_spec Register.init reg_state None reg_two_state
    reg_two_Ok eq_refl reg_empty reg_rounds_covered).
Defined.
