(* ===== verification/ExamplesMain.v ===== *)
(** * ExamplesMain: tables, options and whole programs

    The table of the racy register's history, a full history with a coroutine,
    the options of a target, and [ltest::Run] on the racy register. *)

From Stdlib Require Import ZArith Lia Ascii.
From stdpp Require Import base gmap strings pretty option list.
From S2P Require Import Prelude ValueWrapper Text Logger Options History Linearizability LincheckRecursive Specs.
From S2P Require Import Coro Strategy PickStrategy Pct Scheduler TLA PrettyPrint Checkers Minimization Smart.
From S2P Require Import SmartCorrect SchedulerRun Main Verifiers YieldPass CoYieldPass RaceRegister Examples.

(** ** Tables *)

Lemma printable_compute `{HT : Target} n task_of h :
  forallb (λ e, (0 <=? get_thread_num e)%Z && (get_thread_num e <? n)%Z &&
    match event_text task_of e with Ok t => String.length t <? 1000 | Fail _ => true end) h = true →
  Forall (printable n task_of) h.
Proof.
  rewrite forallb_forall. intros H. apply Forall_forall. intros e He%list_elem_of_In%H.
  apply andb_true_iff in He as [[H1%Z.leb_le H2%Z.ltb_lt]%andb_true_iff H3]. split; [done|].
  intros text Ht. rewrite Ht in H3. apply Nat.ltb_lt in H3. lia.
Qed.

Abbreviation reg_slot := (slot (reg_base reg_final)).

Lemma reg_printable : Forall (printable 2 reg_slot) reg_seq.
Proof. apply printable_compute. vm_compute. reflexivity. Qed.

Abbreviation no_text := (mk_Streams "" "").
Definition reg_table : Streams := (outcome_or (tt, no_text) (PrettyPrint 2 reg_slot reg_seq no_text)).2.
Lemma reg_table_Ok : PrettyPrint 2 reg_slot reg_seq no_text = Ok (tt, reg_table).
Proof. vm_compute. reflexivity. Qed.

(** The fourth line of the table: the invocation of [get]. *)
Example reg_table_row : column 0 (row_line 2 0 " [0] get()") = (" [0] get()" +:+ times 10 " ").
Proof. vm_compute. reflexivity. Qed.

Lemma two_threads : (0 ≤ 2 < 2 ^ 31)%Z.
Proof. done. Qed.

#[local] Opaque reg_final reg_histories reg_table.

Lemma PrettyPrint_table_witness :
  ∃ lines, out_text reg_table = "" +:+ unlines lines ∧ cout_text reg_table = "" ∧
    length lines = length reg_seq + 4 ∧ Forall (λ l, String.length l = 1 + 21 * width 2) lines ∧
    ∀ k e, reg_seq !! k = Some e → ∃ text l, event_text reg_slot e = Ok text ∧ lines !! (k + 3) = Some l ∧
      ∀ j, j < width 2 → column j l = if j =? Z.to_nat (get_thread_num e) then pad (" " +:+ text) else blank.
Proof. exact (PrettyPrint_table 2 reg_slot two_threads reg_seq no_text tt reg_table reg_printable reg_table_Ok). Defined.

Lemma PrettyPrint_returns_witness :
  (∃ u s', PrettyPrint 2 reg_slot reg_seq no_text = Ok (u, s')) ↔
  Forall (λ e, ∃ text, event_text reg_slot e = Ok text ∧ String.length text < 19) reg_seq.
Proof. exact (PrettyPrint_returns 2 reg_slot two_threads reg_seq no_text reg_printable). Defined.

(** A full history of two tasks, the second one with a coroutine. *)
Definition a_full_history : FullHistoryWithThreads :=
  [(0, inl (0, 0)); (1, inl (1, 0)); (1, inr (mk_CoroutineStatus "read" true)); (0, inl (0, 0));
   (1, inr (mk_CoroutineStatus "read" false)); (1, inl (1, 0))].
Definition a_full_table : Streams := (outcome_or (tt, no_text) (FullPrettyPrint 2 reg_slot a_full_history no_text)).2.
Lemma a_full_table_Ok : FullPrettyPrint 2 reg_slot a_full_history no_text = Ok (tt, a_full_table).
Proof. vm_compute. reflexivity. Qed.
Example a_full_table_leak : cout_text a_full_table = "0101"%string.
Proof. vm_compute. reflexivity. Qed.

#[local] Opaque a_full_table.

Lemma FullPrettyPrint_numbers_witness :
  let order := first_seen (tasks_of a_full_history) in
  NoDup order ∧ (∀ r, r ∈ order ↔ r ∈ tasks_of a_full_history) ∧
  ∃ ns, Forall2 (λ r n, order !! n = Some r) (tasks_of a_full_history) ns ∧
    cout_text a_full_table = "" +:+ cat (number_text <$> ns).
Proof. exact (FullPrettyPrint_numbers 2 reg_slot a_full_history no_text tt a_full_table a_full_table_Ok). Defined.

(** ** Options *)

Definition reg_options : DefaultOptions := mk_DefaultOptions 3 3 100 2 0 true false "random" "1,20,3" 15 15.

Lemma ParseOpts_SetOpts_witness :
  ParseOpts (SetOpts reg_options default_flags) =
  Ok (mk_Opts 3 3 100 2 false 15 15 0 true false false RND [1; 20; 3]%Z).
Proof.
  refine (ParseOpts_SetOpts reg_options default_flags RND [1; 20; 3]%Z _ _ _ _ _ _ _ eq_refl eq_refl _); simpl; try lia.
  repeat constructor; vm_compute; congruence.
Defined.

(** [--threads -1]. *)
Definition negative_flags : Flags := mk_Flags (-1) 15 100 5 false 15 15 0 false false "rr" "".
Definition negative_opts : Opts := mk_Opts (2 ^ 64 - 1) 15 100 5 false 15 15 0 false false false RR [].

Lemma ParseOpts_sizes_witness :
  ParseOpts negative_flags = Ok negative_opts ∧ Options.threads negative_opts = (2 ^ 64 + -1)%Z.
Proof.
  split; [reflexivity|].
  refine (proj1 (proj2 (proj2 (ParseOpts_sizes negative_flags negative_opts eq_refl _ _)))); vm_compute; split; congruence.
Defined.

(** ** Programs *)

#[local] Instance main_real_rng : RealRng := λ g, (p, g).
#[local] Instance main_unordered : Unordered := {| arrange A l x := l ++ [x] |}.

(** [DefaultCanceler]. *)
Definition no_cancel : @TargetObj reg_target → @TargetObj reg_target := λ x, x.

Definition no_seed : @rng reg_rng := tt.

Definition no_log : @AnyScheduler reg_target DefaultStrategyVerifier reg_rng → string := λ _, EmptyString.

Definition three_flags : Flags := mk_Flags 2 3 100 5 true 2 2 0 false false "rr" "".
Definition start_process : Process := mk_Process "" false (mk_Logger false).

Abbreviation reg_main strategy_flags := (Run reg_spec Register.init no_cancel 100 100 no_seed no_log None (λ _, strategy_flags) reg_constructors).
Definition reg_main_process : Process := (outcome_or (0%Z, start_process) (reg_main three_flags start_process)).2.
Lemma reg_main_Ok : reg_main three_flags start_process = Ok (1%Z, reg_main_process).
Proof. vm_compute. reflexivity. Qed.

#[local] Opaque reg_main_process.

Lemma Run_exit_code_witness :
  trap_syscall reg_main_process = false ∧ ∃ sch sch' h,
    scheduler_Run reg_spec Register.init no_cancel 100 100 no_seed 2 sch = Ok (Some h, sch') ∧
    Check_recursive reg_spec (TLA.view (final_threads sch')) Register.init h.2 = Ok false.
Proof.
  destruct (Run_exit_code reg_spec Register.init no_cancel 100 100 no_seed no_log None (λ _, three_flags) reg_constructors
    start_process 1%Z reg_main_process reg_main_Ok)
    as (Ht & opts & sch & result & sch' & before & Hopts & _ & Hrun & Hres). injection Hopts as <-.
  split; [exact Ht|]. destruct result as [h|]; [|destruct Hres as [E _]; discriminate E].
  exists sch, sch', h. exact (conj Hrun (proj1 (proj2 Hres))).
Defined.

Definition three_weights : Opts := mk_Opts 2 3 100 2 false 15 15 0 true false false RND [1; 20; 3]%Z.

Lemma MakeScheduler_fails_witness :
  typ three_weights = RND ∧ thread_weights three_weights ≠ [] ∧
  Z.of_nat (length (thread_weights three_weights)) ≠ Options.threads three_weights.
Proof. exact (MakeScheduler_fails no_seed three_weights reg_constructors start_process ltac:(simpl; lia)). Defined.

Definition tla_flags : Flags := mk_Flags 2 15 100 5 false 15 15 0 false false "tla" "".

Lemma Run_depth_0_witness : ∃ p' before,
  reg_main tla_flags start_process = Ok (0%Z, p') ∧ cout p' = before +:+ "success!" +:+ newline.
Proof.
  refine (Run_depth_0 reg_spec Register.init no_cancel 100 100 no_seed no_log None (λ _, tla_flags) reg_constructors
    (mk_Opts 2 15 100 5 false 15 15 0 false false false Options.TLA []) start_process eq_refl eq_refl eq_refl _ _); simpl; lia.
Defined.

(** ** The yield pass on [++x] *)

Inductive add_insn := ILoad | IStore | ICall (f : string) | IOther.

#[local] Instance add_llvm : LLVM := {|
  Instruction := add_insn;
  isa_LoadInst i := match i with ILoad => true | _ => false end;
  isa_StoreInst i := match i with IStore => true | _ => false end;
  isa_AtomicRMWInst _ := false;
  isa_CallInst i := match i with ICall _ => true | _ => false end;
  getCalledFunction i := match i with ICall f => Some f | _ => None end;
  CreateCall := ICall;
|}.
#[local] Instance add_llvm_laws : LLVMLaws.
Proof. by split. Qed.

Definition add_module : IRModule :=
  mk_Module [mk_Function "add" [[ILoad; IOther; IStore; IOther]]; mk_Function "main" [[ILoad; IOther]]]
    [("llvm.global.annotations", [("add", nonatomic_attr)])].
Definition add_yields : IRModule :=
  mk_Module [mk_Function "add" [[ILoad; ICall CoroYieldF; IOther; IStore; ICall CoroYieldF; IOther]];
             mk_Function "main" [[ILoad; IOther]]] (globals add_module).

Lemma YieldInsertPass_spec_witness :
  YieldInsertPass add_module = Ok add_yields ∧
  Forall2 (λ F F', (annotated add_module (F_name F) nonatomic_attr → interrupted F F') ∧
                   (¬ annotated add_module (F_name F) nonatomic_attr → F' = F)) (functions add_module) (functions add_yields).
Proof. exact (conj eq_refl (proj2 (YieldInsertPass_spec add_module add_yields eq_refl))). Defined.

(** ** The coroutine status pass *)

#[local] Instance add_collvm : CoLLVM := {|
  dyn_cast_InvokeInst _ := None;
  getFirstInsertionPt _ := 0;
  CreateStatusCall _ _ := ICall costatus_change;
  demangle name := name;
|}.
#[local] Instance add_collvm_laws : CoLLVMLaws.
Proof. by split. Qed.

(** A function that calls a coroutine; the filter of counique_args.yml, and one
    without a name. *)
Definition co_function : Function := mk_Function "fun" [[ILoad; ICall "CoFun(int)"; IOther]].
Definition named_filter : CoroutineFilter := mk_Filter None (Some "CoFun(int)") "CoFun".
Definition unnamed_filter : CoroutineFilter := mk_Filter (Some "fun") None "any".

Lemma CoInsertYields_ends_witness :
  CoYieldPass.InsertYields 100 [named_filter] co_function =
    Ok (mk_Function "fun" [[ILoad; ICall costatus_change; ICall "CoFun(int)"; ICall costatus_change; IOther]]) ∧
  CoYieldPass.InsertYields 100 [named_filter] co_function ≠ Fail OutOfFuel.
Proof.
  split; [reflexivity|].
  refine (proj1 (CoInsertYields_ends [named_filter] co_function 100 _ _)); [|vm_compute; lia].
  split; repeat constructor.
Defined.

Lemma CoInsertYields_diverges_witness :
  CoYieldPass.InsertYields 1000 [unnamed_filter] co_function = Fail OutOfFuel ∧
  CoYieldPass.InsertYields 1000 [unnamed_filter] co_function ≠ Ok co_function.
Proof.
  split; [vm_compute; reflexivity|].
  refine (CoInsertYields_diverges [unnamed_filter] co_function [ILoad] (ICall "CoFun(int)") [IOther] [] _ eq_refl _ _ 1000 co_function).
  - constructor. reflexivity.
  - repeat constructor.
  - split; [reflexivity|reflexivity|eexists; reflexivity].
Defined.
