(* ===== verification/ExamplesEnd.v ===== *)
(** * ExamplesEnd: correct targets from end to end

    The theorems about targets with linearization points, applied to the atomic
    register under concrete options. *)

From Stdlib Require Import ZArith Lia.
From stdpp Require Import base gmap strings option list.
From S2P Require Import Prelude ValueWrapper Text Logger Options History Linearizability Specs.
From S2P Require Import Coro Strategy PickStrategy Pct Scheduler TLA TLAExhaustive PrettyPrint Checkers Minimization Smart.
From S2P Require Import SmartCorrect SchedulerRun Main Verifiers Liveness Rows LinPoints EndToEnd RaceRegister AtomicRegister Examples.

Import AtomicRegister.

#[local] Instance end_real_rng : RealRng := λ g, (p, g).
#[local] Instance end_unordered : Unordered := {| arrange A l x := l ++ [x] |}.

Definition end_cancel : TargetObj → TargetObj := λ x, x.
Definition end_seed : @rng reg_rng := tt.
Definition no_log : @AnyScheduler AtomicRegister.target DefaultStrategyVerifier reg_rng → string := λ _, EmptyString.
Definition end_process : Process := mk_Process "" false (mk_Logger false).

(** [--strategy rr], [--strategy pct] and [--strategy tla --depth 2]. *)
Definition rr_flags : Flags := mk_Flags 2 3 2 5 false 15 15 0 false false "rr" "".
Definition rr_opts : Opts := mk_Opts 2 3 2 5 false 15 15 0 false false false RR [].
Definition exhaustive_flags : Flags := mk_Flags 2 2 1000 5 false 15 15 2 false false "tla" "".

Abbreviation atomic_main flags := (Run spec Register.init end_cancel 100 100 end_seed no_log None (λ _, flags) task_builders).

Definition exhaustive_process : Process :=
  (outcome_or (0%Z, end_process) (atomic_main exhaustive_flags end_process)).2.
Lemma exhaustive_main_Ok : atomic_main exhaustive_flags end_process = Ok (0%Z, exhaustive_process).
Proof. vm_compute. reflexivity. Qed.

Lemma atomic_replay_safe tasks rounds switches depth :
  replay_safe (TLA.mk_Config tasks rounds switches depth task_builders).
Proof.
  split.
  - done.
  - intros [] o sl H; simpl in H; by injection H as <-.
  - intros b th w a w' Hb H. simpl in Hb.
    repeat (apply elem_of_cons in Hb as [->|Hb]; [by injection H as _ <-|]). by apply not_elem_of_nil in Hb.
  - intros t [] r v' H. by injection H as <- _.
Qed.

#[local] Opaque exhaustive_process.

Lemma Run_linearizable_target_witness :
  ∃ before, cout exhaustive_process = before +:+ "success!" +:+ newline.
Proof.
  refine (proj2 (Run_linearizable_target spec Register.init end_cancel 100 100 end_seed no_log task_builders builders_good
    None (λ _, exhaustive_flags) end_process 0%Z exhaustive_process exhaustive_main_Ok _)).
  intros opts Hopts _. injection Hopts as <-. split; [apply atomic_replay_safe|done].
Defined.

Lemma Run_returns_0_witness : ∃ p' before,
  atomic_main rr_flags end_process = Ok (0%Z, p') ∧ cout p' = before +:+ "success!" +:+ newline.
Proof.
  refine (Run_returns_0 spec Register.init end_cancel 100 100 end_seed no_log task_builders builders_good budget 1 bounded
    default_permissive _ _ frame_ok in_int32 5 (short_texts 5 _) _ None (λ _, rr_flags) rr_opts end_process eq_refl
    (or_introl eq_refl) _ _ _ _).
  - intros bd Hbd th w Hw. exists [], w. split; [|done].
    apply elem_of_cons in Hbd as [->|Hbd%list_elem_of_singleton]; [|subst bd]; done.
  - done.
  - done.
  - done.
  - done.
  - vm_compute. lia.
  - vm_compute. lia.
  - vm_compute. lia.
Defined.
