(* ===== verification/ExamplesTargets.v ===== *)
(** * ExamplesTargets: the targets under the scheduler

    The theorems about the mutex queue, the futex mutex and the readers-writer
    lock at the first steps of a round-robin round, and the rounds in which the
    mutex that is not one and the deadlock are found. *)

From Stdlib Require Import ZArith Lia.
From stdpp Require Import base gmap strings option list.
From S2P Require Import Prelude ValueWrapper History Linearizability Specs.
From S2P Require Import Coro Strategy PickStrategy PrettyPrint Scheduler Checkers Minimization Smart SchedulerRun Verifiers Liveness.
From S2P Require Import Blocking LinPoints RaceRegister MutexQueue FutexMutex RWSpinLock Deadlock Examples.

#[local] Instance targets_real_rng : RealRng := λ g, (p, g).
#[local] Instance targets_unordered : Unordered := {| arrange A l x := l ++ [x] |}.

(** ** Rounds played step by step *)

Section steps.
Context `{HT : Target} `{HC : !Code} `{HV : StrategyVerifier} `{HS : !Strategy} `{HMC : ModelChecker} {HPP : PrettyPrinter} {SpecState : Type}.
Context (spec : gmap string (Method (State:=SpecState) (Args:=tuple))) (first_state : SpecState).
Context `{HLP : !LinPoints spec first_state}.

(** An iteration of [RunRound]'s loop, when it succeeds. *)
Definition one_step (s : BothHistories * St) : BothHistories * St :=
  match run_step 100 s.1 s.2 with Ok ((_, h), s') => (h, s') | Fail _ => s end.

Lemma one_step_reached (s : BothHistories * St) :
  is_ok (run_step 100 s.1 s.2) = true → reached spec first_state 100 s.1 s.2 →
  reached spec first_state 100 (one_step s).1 (one_step s).2.
Proof.
  unfold one_step. destruct (run_step 100 s.1 s.2) as [[[fin h] s']|] eqn:E; [|done]. intros _ H.
  eapply reached_step; [exact H|exact E].
Qed.
End steps.

(** ** The mutex queue *)

Module MutexQueueExample.
Import MutexQueue.

#[local] Instance queue_checker : ModelChecker := recursive_checker spec Specs.Queue.init.
#[local] Instance queue_checker_correct : CheckerCorrect spec Specs.Queue.init.
Proof. exact (recursive_checker_correct spec Specs.Queue.init). Qed.

(** [rand() % 10 + 1] is 5. *)
Definition builders : list TaskBuilder := task_builders (λ _ _, 4%Z).
Definition first : PickState RoundRobin.RoundRobinStrategy := RoundRobin.init 2 builders tt.
Definition params : SchedulerParams := mk_SchedulerParams 3 2 false 15 15.
Abbreviation strategy := (PickStrategy (Sub:=RoundRobin.RoundRobinStrategy)).

Lemma first_fresh : fresh_round spec Specs.Queue.init (pick_base first).
Proof.
  assert (∀ r, slot (pick_base first) r = None) as He by (intros [[|[|th]] i]; done).
  split; [exact He|by apply mq_fresh; [left|]|]. split; [|done..]. intros bd Hbd. by exists (λ _ _, 4%Z).
Qed.

(** The scheduler plays two rounds of three tasks. *)
Definition run_result : Result * PickState RoundRobin.RoundRobinStrategy :=
  outcome_or (None, first) (StrategyScheduler_Run (HS:=strategy) 100 100 params (tt : @rng reg_rng) first).
Lemma run_Ok :
  StrategyScheduler_Run (HS:=strategy) 100 100 params (tt : @rng reg_rng) first = Ok (run_result.1, run_result.2).
Proof. vm_compute. reflexivity. Qed.

#[local] Opaque run_result.

Lemma Run_no_false_alarm_witness : run_result.1 = None.
Proof.
  exact (Run_no_false_alarm (HS:=strategy) spec Specs.Queue.init 100 100 params _ _ _ _ run_Ok first_fresh).
Defined.

(** The state after two steps: the first task is inside, the second waits. *)
Definition after_one : bool * BothHistories * PickState RoundRobin.RoundRobinStrategy :=
  outcome_or (false, ([], []), first) (run_step (HS:=strategy) 100 ([], []) first).
Definition after_two : bool * BothHistories * PickState RoundRobin.RoundRobinStrategy :=
  outcome_or (false, ([], []), first) (run_step (HS:=strategy) 100 after_one.1.2 after_one.2).

Lemma after_two_reached : reached (HS:=strategy) spec Specs.Queue.init 100 after_two.1.2 after_two.2.
Proof.
  assert (run_step (HS:=strategy) 100 ([], []) first = Ok (after_one.1.1, after_one.1.2, after_one.2)) as E1
    by (vm_compute; reflexivity).
  assert (run_step (HS:=strategy) 100 after_one.1.2 after_one.2 = Ok (after_two.1.1, after_two.1.2, after_two.2)) as E2
    by (vm_compute; reflexivity).
  eapply reached_step; [eapply reached_step; [apply reached_start, first_fresh|exact E1]|exact E2].
Qed.

Definition two_base : BaseStrategy := pick_base after_two.2.

Lemma two_holder :
  ∃ c, slot two_base (0, 0) = Some c ∧ ctx c = Some (PopLoadTail 0) ∧ IsReturned c = false ∧ runnable c (world two_base).
Proof. eexists. split; [vm_compute; reflexivity|]. vm_compute. by split_and!. Qed.

Lemma two_waiter :
  ∃ c, slot two_base (1, 0) = Some c ∧ IsReturned c = false ∧ IsParked c (world two_base) = true.
Proof. eexists. split; [vm_compute; reflexivity|]. vm_compute. by split_and!. Qed.

#[local] Opaque after_two.

Lemma critical_section_witness :
  inside (slot two_base) (0, 0) (PopLoadTail 0) ∧
  (∀ r f, inside (slot two_base) r f → r = (0, 0)) ∧
  ∃ c c' w', slot two_base (0, 0) = Some c ∧ Resume c (world two_base) = Ok (c', w').
Proof.
  destruct two_holder as (c & Hc & Hf & Hret & Hrun).
  assert (inside (slot two_base) (0, 0) (PopLoadTail 0)) as Hin
    by (exists c; split; [exact Hc|]; split; [exact Hret|]; split; [exact Hf|reflexivity]).
  destruct (critical_section (HS:=strategy) 100 after_two.1.2 after_two.2 after_two_reached) as [Hone Hstep].
  split; [exact Hin|]. split; [intros r f H; exact (Hone _ _ _ _ H Hin)|].
  destruct (Hstep (0, 0) c Hc Hrun) as [(c' & w' & H)|[v Hv]]; [eauto|congruence].
Defined.

Lemma no_deadlock_witness :
  ∃ r c, slot two_base r = Some c ∧ IsReturned c = false ∧ IsParked c (world two_base) = false.
Proof.
  destruct two_waiter as (c & Hc & Hret & _).
  apply (no_deadlock (HS:=strategy) 100 after_two.1.2 after_two.2 after_two_reached). exists (1, 0), c. split; [exact Hc|exact Hret].
Defined.
End MutexQueueExample.

(** ** The futex mutexes *)

Module SimpleMutexExample.
Import FutexMutex SimpleMutex.

#[local] Instance simple_checker : ModelChecker := recursive_checker spec Mutex.init.
Abbreviation strategy := (PickStrategy (Sub:=RoundRobin.RoundRobinStrategy)).
Abbreviation state := (PickState RoundRobin.RoundRobinStrategy).
Definition first : state := RoundRobin.init 3 task_builders tt.

Lemma mutex_first_fresh : fresh_round spec Mutex.init (pick_base first).
Proof.
  assert (∀ r, slot (pick_base first) r = None) as He by (intros [[|[|[|th]]] i]; done).
  split; [exact He|by apply sm_fresh; [left|left|]|]. by split.
Qed.

(** The state after three steps: the first thread holds the mutex. *)
Abbreviation step_of := (one_step (HS:=strategy)).
Definition three : BothHistories * state := step_of (step_of (step_of (([], []), first))).

Lemma three_reached : reached (HS:=strategy) spec Mutex.init 100 three.1 three.2.
Proof.
  unfold three. do 3 (apply (one_step_reached (HS:=strategy)); [vm_compute; reflexivity|]).
  apply reached_start, mutex_first_fresh.
Qed.

Lemma three_holder : holds (sched_checker (pick_base three.2)) (slot (pick_base three.2)) 0.
Proof. left. exists 0. eexists _, LockReturn. split; [vm_compute; reflexivity|]. vm_compute. by split_and!. Qed.

#[local] Opaque three.

Lemma simple_mutex_excludes_witness :
  holds (sched_checker (pick_base three.2)) (slot (pick_base three.2)) 0 ∧
  ¬ holds (sched_checker (pick_base three.2)) (slot (pick_base three.2)) 1.
Proof.
  destruct (simple_mutex_excludes (HS:=strategy) 100 three.1 three.2 three_reached) as [H _].
  split; [exact three_holder|]. intros H1. discriminate (H 0 1 three_holder H1).
Defined.
End SimpleMutexExample.

(** ** The readers-writer lock *)

Module RWSpinLockExample.
Import RWSpinLock.

#[local] Instance rw_checker : ModelChecker := recursive_checker spec SharedMutex.init.
#[local] Instance rw_checker_correct : CheckerCorrect spec SharedMutex.init.
Proof. exact (recursive_checker_correct spec SharedMutex.init). Qed.
Lemma three_threads : (Z.of_nat 3 < 2 ^ 29 - 1)%Z.
Proof. done. Qed.
#[local] Instance rw_points : LinPoints spec SharedMutex.init := points 3 three_threads.
Abbreviation strategy := (PickStrategy (Sub:=RoundRobin.RoundRobinStrategy)).
Abbreviation state := (PickState RoundRobin.RoundRobinStrategy).

(** The methods are asked for last to first: [lock_shared] is the first that is
    accepted. *)
Definition first : state := RoundRobin.init 3 (reverse task_builders) tt.

Lemma rw_first_fresh : fresh_round spec SharedMutex.init (pick_base first).
Proof.
  assert (∀ r, slot (pick_base first) r = None) as He by (intros [[|[|[|th]]] i]; done).
  split; [exact He|by apply (rw_fresh 3); [left|left|]|]. split; [|by intros th|done].
  intros bd Hbd. change (bd ∈ task_builders). by apply elem_of_reverse.
Qed.

(** Two threads share the lock after two steps. *)
Abbreviation step_of := (one_step (HS:=strategy)).
Definition two : BothHistories * state := step_of (step_of (([], []), first)).

Lemma two_reached : reached (HS:=strategy) spec SharedMutex.init 100 two.1 two.2.
Proof.
  unfold two. do 2 (apply (one_step_reached (HS:=strategy)); [vm_compute; reflexivity|]).
  apply reached_start, rw_first_fresh.
Qed.

Lemma two_share : shares (sched_checker (pick_base two.2)) 0 ∧ shares (sched_checker (pick_base two.2)) 1.
Proof. vm_compute. by split. Qed.

#[local] Opaque two.

Lemma rwspinlock_excludes_witness :
  shares (sched_checker (pick_base two.2)) 0 ∧ shares (sched_checker (pick_base two.2)) 1 ∧
  ∀ th, ¬ holds (sched_checker (pick_base two.2)) th.
Proof.
  destruct (rwspinlock_excludes (HS:=strategy) 3 three_threads 100 two.1 two.2 two_reached) as (_ & H & _).
  split_and!; [apply two_share|apply two_share|]. intros th Hth. exact (H th 0 Hth (proj1 two_share)).
Defined.
End RWSpinLockExample.

Module NonlinearMutexExample.
Import FutexMutex NonlinearMutex.

#[local] Instance three_columns : PrettyPrinter := 3%Z.
#[local] Instance nonlinear_checker : ModelChecker := recursive_checker spec Mutex.init.
#[local] Instance nonlinear_checker_correct : CheckerCorrect spec Mutex.init.
Proof. exact (recursive_checker_correct spec Mutex.init). Qed.
Abbreviation strategy := (PickStrategy (Sub:=RoundRobin.RoundRobinStrategy)).

(** Three threads, which finish four calls. *)
Definition first : PickState RoundRobin.RoundRobinStrategy := RoundRobin.init 3 task_builders tt.
Definition round : BothHistories * PickState RoundRobin.RoundRobinStrategy :=
  outcome_or (([], []), first) (run_loop (HS:=strategy) 100 100 4 ([], []) first).

(** The tasks are covered by the specification. *)
Definition task_ok (c : CoroBase) : bool :=
  (String.eqb (name c) "Lock" || String.eqb (name c) "Unlock") && answers_int c.

Lemma task_ok_covered c : task_ok c = true → covered_task spec c.
Proof.
  intros [Hn Hc]%andb_true_iff.
  assert (name c = "Lock" ∨ name c = "Unlock") as Hname by (by apply orb_true_iff in Hn as [?%String.eqb_eq|?%String.eqb_eq]; [left|right]).
  destruct (mutex_known (name c) (args c) Hname) as (m & Hm & Htot). eapply covered_int; [exact Hm| |done].
  intros s. destruct (Htot s) as [[res s'] Hres]. destruct (mutex_result _ _ _ _ _ _ Hm Hres) as [z ->]. eauto.
Qed.

(** The round ends, and the checker rejects it. *)
Lemma round_Ok : run_loop (HS:=strategy) 100 100 4 ([], []) first = Ok (round.1, round.2).
Proof. vm_compute. reflexivity. Qed.
Lemma round_covered : covered spec (pick_base round.2).
Proof. apply (covered_forallb _ _ _ task_ok_covered). vm_compute. reflexivity. Qed.
Lemma round_rejected : mc_Check (task_at (pick_base round.2)) round.1.2 = Ok false.
Proof. vm_compute. reflexivity. Qed.

Lemma round_printed : print_log (HS:=strategy) round.1.2 round.2 = Ok (tt, round.2).
Proof. vm_compute. reflexivity. Qed.

#[local] Opaque round.

(** The mutex whose [Lock] stops trying when the word is 2 does not exclude,
    and the tool finds it: a round of four calls in three threads under round
    robin and MutexVerifier ends in a history that [RunRound] reports, and that
    is no history of a mutex. *)
Theorem nonlinear_mutex_reported :
  ∃ h s', RunRound (HS:=strategy) 100 100 4 first = Ok (Some h, s') ∧
    ¬ linearizable spec (task_at (pick_base s')) h.2 Mutex.init.
Proof.
  assert (empty_round (pick_base first)) as He by (intros [[|[|[|th]]] i]; done).
  exists round.1, round.2. exact (round_reported (HS:=strategy) spec Mutex.init 100 100 4 first _ _ round_Ok He round_covered round_printed round_rejected).
Qed.
End NonlinearMutexExample.

(** ** The deadlock *)

Module DeadlockExample.
Import Deadlock.

#[local] Instance deadlock_checker : ModelChecker := recursive_checker GetMethods init.
Abbreviation strategy := (PickStrategy (Sub:=RoundRobin.RoundRobinStrategy)).
Definition start_of (threads : nat) : PickState RoundRobin.RoundRobinStrategy := RoundRobin.init threads task_builders tt.

(** Two threads that lock the two mutexes in opposite orders deadlock, and
    the strategy notices: a round of two calls under round robin fails the
    assertion of [Pick].  A single thread ends its round, but then the checker
    throws: the specification answers an [int] where the method is [void]. *)
Theorem deadlock_found :
  RunRound (HS:=strategy) (HPP:=2%Z) 100 100 2 (start_of 2) = Fail (AssertFailed "deadlock") ∧
  RunRound (HS:=strategy) (HPP:=1%Z) 100 100 1 (start_of 1) = Fail BadAnyCast.
Proof. split; vm_compute; reflexivity. Qed.
End DeadlockExample.
