(* ===== verification/ExamplesNonlinear.v ===== *)
(** * ExamplesNonlinear: targets the tool reports

    The targets that are not linearizable, under the random strategy with a
    linear congruential generator: rounds that [RunRound] reports, whose
    histories are not linearizable. *)

From Stdlib Require Import ZArith Lia.
From stdpp Require Import base gmap strings option list.
From S2P Require Import Prelude ValueWrapper History Linearizability LincheckRecursive Specs.
From S2P Require Import Coro Strategy PickStrategy PrettyPrint Scheduler Checkers Verifiers.
From S2P Require Import NonlinearQueue NonlinearSet TreiberStack MSQueue FastQueue.

(** ** A generator *)

Definition lcg (g : Z) : Z := ((g * 1103515245 + 12345) mod 2147483648)%Z.
Definition draw (n : nat) (g : Z) : nat := Z.to_nat ((g / 65536) mod Z.of_nat n).

#[local] Instance lcg_rng : Rng := {|
  rng := Z;
  shuffle A l g := (rotate (draw (length l) g) l, lcg g);
  uniform_int a b g := ((a + (g / 65536) mod (b - a + 1))%Z, lcg g);
  discrete ws g := (Z.of_nat (draw (length ws) g), lcg g);
|}.

#[local] Instance lcg_rng_laws : RngLaws.
Proof.
  split.
  - intros A l g. simpl. unfold rotate. rewrite Permutation_app_comm. by rewrite take_drop.
  - intros a b g Hab. simpl. pose proof (Z.mod_pos_bound (g / 65536) (b - a + 1)). lia.
  - intros ws g _ Hs. simpl. unfold draw. destruct ws as [|x ws]; [simpl in Hs; lia|].
    pose proof (Z.mod_pos_bound (g / 65536) (Z.of_nat (length (x :: ws)))) as Hb. simpl length in *. lia.
Qed.

#[local] Existing Instance DefaultStrategyVerifier.
#[local] Instance three_columns : PrettyPrinter := 3%Z.
Abbreviation random := (PickStrategy (Sub:=Random.RandomStrategy)).

(** [rand()] is the number of the thread. *)
Definition rand `{Target} (thread_num : nat) (w : World) : Z := Z.of_nat thread_num.

(** ** Rounds that are reported *)

Section reported.
Context `{HT : Target} `{HC : !Code} {SpecState : Type}.
Context (spec : gmap string (Method (State:=SpecState) (Args:=tuple))) (first_state : SpecState).
Context (builders : list TaskBuilder).

Definition first (threads_count : nat) (seed : Z) : PickState Random.RandomStrategy :=
  Random.init threads_count builders (replicate threads_count 1%Z) seed.

(** A round of [tasks] calls in [threads] threads, which the tool reports and
    which is not linearizable. *)
Definition reported (threads tasks : nat) (seed : Z) : Prop :=
  ∃ h s', RunRound (HMC:=recursive_checker spec first_state) (HS:=random) 1000 1000 tasks (first threads seed) = Ok (Some h, s') ∧
    ¬ linearizable spec (task_at (pick_base s')) h.2 first_state.

Definition is_reported (ok : CoroBase → bool) (threads_count tasks : nat) (seed : Z) : bool :=
  match run_loop (HS:=random) 1000 1000 tasks ([], []) (first threads_count seed) with
  | Ok (h, s') =>
      forallb (forallb ok) (threads (pick_base s')) &&
      match print_log (HS:=random) h.2 s' with Ok _ => true | Fail _ => false end &&
      match Check_recursive spec (task_at (pick_base s')) first_state h.2 with Ok false => true | _ => false end
  | Fail _ => false
  end.

Lemma first_empty n seed : empty_round (pick_base (first n seed)).
Proof.
  intros [th i]. unfold slot. simpl. destruct (replicate n [] !! th) eqn:E; [|done].
  by apply lookup_replicate in E as [-> _].
Qed.

Lemma reported_by (ok : CoroBase → bool) n k seed :
  (∀ c, ok c = true → covered_task spec c) → is_reported ok n k seed = true → reported n k seed.
Proof.
  unfold is_reported. intros Hok H. destruct (run_loop _ _ _ _ _) as [[h s']|] eqn:Hrun; [|done].
  apply andb_true_iff in H as [[Hcov Hp]%andb_true_iff Hno]. exists h, s'.
  destruct (print_log _ _) as [[[] s1]|] eqn:Eprint; [|done]. pose proof (print_log_inv _ _ _ _ Eprint) as ->.
  refine (round_reported (HS:=random) (HMC:=recursive_checker spec first_state) spec first_state 1000 1000 k _ h s' Hrun
    (first_empty n seed) (covered_forallb _ _ _ Hok Hcov) Eprint _).
  unfold mc_Check, recursive_checker. by destruct (Check_recursive _ _ _ _) as [[]|].
Qed.
End reported.

(** ** Tasks the specifications cover *)

Section tasks.
Context `{HT : Target}.

(** A call [n(v)] of an [int]. *)
Definition calls_int (n : string) (c : CoroBase) : bool :=
  String.eqb (name c) n && match args c with [any_int _] => true | _ => false end.

Lemma calls_int_args n c : calls_int n c = true → name c = n ∧ ∃ v, args c = [any_int v].
Proof.
  intros [Hn%String.eqb_eq Ha]%andb_true_iff. split; [done|].
  destruct (args c) as [|[] [|? ?]]; try done. by eexists.
Qed.

Definition queue_task (c : CoroBase) : bool :=
  calls_int "Push" c || (String.eqb (name c) "Pop" && answers_int c).

Lemma queue_task_covered c : queue_task c = true → covered_task (Specs.Queue.GetMethods 0) c.
Proof.
  intros [[Hn [v Ha]]%calls_int_args|[Hn%String.eqb_eq Hc]%andb_true_iff]%orb_true_iff.
  - eapply covered_void; [by rewrite Hn|]. intros s. rewrite Ha. by eexists.
  - eapply covered_int; [by rewrite Hn| |done]. intros s. unfold Specs.Queue.pop_func.
    destruct (Specs.Queue.Pop s) as [z s']. by exists z, s'.
Qed.

Lemma stack_task_covered c : queue_task c = true → covered_task (Specs.Stack.GetMethods 0) c.
Proof.
  intros [[Hn [v Ha]]%calls_int_args|[Hn%String.eqb_eq Hc]%andb_true_iff]%orb_true_iff.
  - eapply covered_void; [by rewrite Hn|]. intros s. rewrite Ha. by eexists.
  - eapply covered_int; [by rewrite Hn| |done]. intros s. unfold Specs.Stack.pop_func.
    destruct (Specs.Stack.Pop s) as [z s']. by exists z, s'.
Qed.

Definition set_task (c : CoroBase) : bool := (calls_int "Insert" c || calls_int "Erase" c) && answers_int c.

Lemma set_task_covered c : set_task c = true → covered_task (Specs.SetSpec.GetMethods 0) c.
Proof.
  intros [[[Hn [v Ha]]%calls_int_args|[Hn [v Ha]]%calls_int_args]%orb_true_iff Hc]%andb_true_iff;
    (eapply covered_int; [by rewrite Hn| |done]); intros s; rewrite Ha; by eexists _, _.
Qed.

Definition bounded_task (c : CoroBase) : bool :=
  (calls_int "Push" c || String.eqb (name c) "Pop") && answers_int c.

Lemma bounded_task_covered c : bounded_task c = true → covered_task BoundedQueue.GetMethods c.
Proof.
  intros [[[Hn [v Ha]]%calls_int_args|Hn%String.eqb_eq]%orb_true_iff Hc]%andb_true_iff;
    (eapply covered_int; [by rewrite Hn| |done]); intros s.
  - rewrite Ha. unfold BoundedQueue.push_func. simpl. destruct (BoundedQueue.Push v s) as [z s']. by exists z, s'.
  - unfold BoundedQueue.pop_func. destruct (BoundedQueue.Pop s) as [z s']. by exists z, s'.
Qed.
End tasks.

(** ** The targets *)

(** The tool finds what is wrong with the five targets that are not
    linearizable: for each of them a round of a few calls under the random
    strategy ends in a history that [RunRound] reports, and that no order of the
    calls explains.  A [Pop] of the array queue finds nothing although there is
    an element all the time; three [Insert]s of an element into the set succeed
    with one [Erase]; the stack loses the element of a [Push] that gave up; the
    linked queue gives an element away twice; and a [Pop] of the bounded queue
    finds nothing after a [Push] that has returned, because an earlier one has
    not. *)
Theorem nonlinear_targets_reported :
  reported (HC:=NonlinearQueue.NonlinearQueue.code) NonlinearQueue.NonlinearQueue.spec Specs.Queue.init (NonlinearQueue.NonlinearQueue.task_builders rand) 2 4 790 ∧
  reported (HC:=NonlinearSet.NonlinearSet.code) NonlinearSet.NonlinearSet.spec Specs.SetSpec.init NonlinearSet.NonlinearSet.task_builders 2 4 812 ∧
  reported (HC:=TreiberStack.TreiberStack.code) TreiberStack.TreiberStack.spec Specs.Stack.init (TreiberStack.TreiberStack.task_builders rand) 3 6 315 ∧
  reported (HC:=MSQueue.MSQueue.code) MSQueue.MSQueue.spec Specs.Queue.init (MSQueue.MSQueue.task_builders rand) 3 6 20 ∧
  reported (HC:=FastQueue.FastQueue.code) FastQueue.FastQueue.spec BoundedQueue.init (FastQueue.FastQueue.task_builders rand) 2 4 364.
Proof.
  split_and!.
  - apply (reported_by _ _ _ _ _ _ _ queue_task_covered). vm_compute. reflexivity.
  - apply (reported_by _ _ _ _ _ _ _ set_task_covered). vm_compute. reflexivity.
  - apply (reported_by _ _ _ _ _ _ _ stack_task_covered). vm_compute. reflexivity.
  - apply (reported_by _ _ _ _ _ _ _ queue_task_covered). vm_compute. reflexivity.
  - apply (reported_by _ _ _ _ _ _ _ bounded_task_covered). vm_compute. reflexivity.
Qed.
