(* ===== verification/ExamplesUnique.v ===== *)
(** * ExamplesUnique: three calls of unique_args

    Two calls that have started, and the third one. *)

From stdpp Require Import base gmap strings option list.
From S2P Require Import Prelude ValueWrapper Specs Coro Strategy UniqueArgsTest.

Import UniqueArgsShared UniqueArgsTest.

Definition flags_of (l : list bool) : Flags := mk_Flags l (replicate limit false).

Lemma two_calls : calls [1; 0] (flags_of [true; true; false]).
Proof.
  eapply (calls_start [0] (flags_of [true; false; false]) 1 (mk_World _ ∅ None None) _ _ 1 _ ∅); [|reflexivity..].
  eapply (calls_start [] init 0 (mk_World _ ∅ None None) _ _ 0 _ ∅); [|reflexivity..]. apply calls_init.
Qed.

(** The third call gets the index that is left, and the first one is not the
    last of its batch. *)
Lemma unique_args_handed_out_witness :
  NoDup [1; 0] ∧
  ∃ v o', run_slice (GetDone 0) (flags_of [true; true; false]) ∅ = Ok (Returned v o' ∅) ∧
    value v = Some (any_of (None : option Z)).
Proof.
  destruct (unique_args_handed_out [1; 0] (flags_of [true; true; false]) two_calls) as (Hnd & _ & Hend).
  split; [exact Hnd|]. destruct (Hend 0 ∅) as (v & o' & last & Hrun & Hlast & Hv & _); [right; left|].
  destruct last.
  - exfalso. assert (Some false = Some true) as E; [|discriminate E].
    apply (proj1 Hlast eq_refl 1); [vm_compute; lia|discriminate].
  - exact (ex_intro _ v (ex_intro _ o' (conj Hrun Hv))).
Defined.
