(* ===== verification/ExamplesRegister.v ===== *)
(** * ExamplesRegister: the register behind a mutex under the scheduler

    A [std::mutex] as the C library implements it on Linux: a word that is 0
    (free), 1 (locked) or 2 (locked, with waiters).  With it the register of
    MutexedRegister.v runs: a task that finds the mutex locked waits on its
    futex, and no round is rejected. *)

From Stdlib Require Import ZArith Lia.
From stdpp Require Import base gmap strings option list.
From S2P Require Import Prelude ValueWrapper History Linearizability Specs.
From S2P Require Import Coro Strategy PickStrategy Scheduler Checkers Minimization Smart SchedulerRun Verifiers.
From S2P Require Import Blocking LinPoints MutexedRegister Examples ExamplesTargets.
From S2P Require RaceRegister.

Import MutexedRegister.

(** [lock] takes a free mutex, as 1 at its first attempt and as 2 once it has
    waited; it marks a locked one and waits. *)
#[local] Instance word_mutex : StdMutex := {|
  mtx := Z;
  mtx_init := 0%Z;
  lock_frame := bool;
  lock_entry := false;
  lock waited m := if (m =? 0)%Z then Acquired (if waited then 2 else 1)%Z else Contended true 2%Z 0%Z 2%Z;
  unlock m := (0%Z, if (m =? 2)%Z then Some 0%Z else None);
  mtx_word m _ := m;
|}.

#[local] Instance word_mutex_laws : StdMutexLaws.
Proof.
  refine {| owned (m : mtx) := negb (Z.eqb m 0) |}.
  - done.
  - simpl. intros lf m m'. destruct (Z.eqb_spec m 0) as [->|]; [|done]. intros [= <-]. by destruct lf.
  - simpl. intros lf m lf' m' a v. destruct (Z.eqb_spec m 0) as [|Hm]; [done|]. intros [= <- <- <- <-]. done.
  - done.
Defined.

#[local] Existing Instance DefaultStrategyVerifier.
#[local] Existing Instance RaceRegister.reg_rng.
#[local] Existing Instance RaceRegister.reg_rng_laws.
#[local] Instance register_checker : ModelChecker := recursive_checker spec Register.init.
#[local] Instance register_checker_correct : CheckerCorrect spec Register.init.
Proof. exact (recursive_checker_correct spec Register.init). Qed.

#[local] Instance register_real_rng : RealRng := λ g, (p, g).
#[local] Instance register_unordered : Unordered := {| arrange A l x := l ++ [x] |}.
Abbreviation strategy := (PickStrategy (Sub:=RoundRobin.RoundRobinStrategy)).

Definition first : PickState RoundRobin.RoundRobinStrategy := RoundRobin.init 2 (reverse task_builders) tt.
Definition params : SchedulerParams := mk_SchedulerParams 4 2 false 15 15.

Lemma mutexed_fresh : fresh_round spec Register.init (pick_base first).
Proof.
  assert (∀ r, slot (pick_base first) r = None) as He by (intros [[|[|th]] i]; done).
  split; [exact He|by apply mr_fresh; [left|]|].
  split; [|done..]. intros bd Hbd%elem_of_reverse. exact Hbd.
Qed.

(** Two rounds of four tasks, in which tasks do wait. *)
Definition run_result : Result * PickState RoundRobin.RoundRobinStrategy :=
  outcome_or (None, first) (StrategyScheduler_Run (HS:=strategy) 100 100 params (tt : @rng RaceRegister.reg_rng) first).
Lemma mutexed_run_Ok :
  StrategyScheduler_Run (HS:=strategy) 100 100 params (tt : @rng RaceRegister.reg_rng) first = Ok (run_result.1, run_result.2).
Proof. vm_compute. reflexivity. Qed.

(** The state after two steps: the first task owns the mutex and is about to
    store, the second waits on the futex. *)
Definition two_steps : BothHistories * PickState RoundRobin.RoundRobinStrategy :=
  one_step (HS:=strategy) (one_step (HS:=strategy) ([], [], first)).

Lemma two_steps_reached : reached (HS:=strategy) spec Register.init 100 two_steps.1 two_steps.2.
Proof.
  unfold two_steps. do 2 (apply (one_step_reached (HS:=strategy)); [vm_compute; reflexivity|]).
  apply reached_start, mutexed_fresh.
Qed.

Lemma two_steps_tasks :
  at_frame (slot (pick_base two_steps.2)) (0, 0) (AddStore 0) ∧
  owned (m_ (state (world (pick_base two_steps.2)))) = true ∧
  ∃ c, slot (pick_base two_steps.2) (1, 0) = Some c ∧ blocked_on (fstate c) (world (pick_base two_steps.2)) = true.
Proof.
  split; [eexists; split; [vm_compute; reflexivity|]; by vm_compute|].
  split; [by vm_compute|]. eexists. split; [vm_compute; reflexivity|]. by vm_compute.
Qed.

#[local] Opaque run_result two_steps.

(** Nothing is reported. *)
Lemma register_run_accepted : run_result.1 = None.
Proof.
  exact (Run_finds_nothing (HS:=strategy) spec Register.init 100 100 params _ _ _ _ mutexed_run_Ok mutexed_fresh).
Qed.

(** The owner of the mutex stores the successor of the current value. *)
Lemma mutexed_register_excludes_witness :
  at_frame (slot (pick_base two_steps.2)) (0, 0) (AddStore 0) ∧ x_ (state (world (pick_base two_steps.2))) = 0%Z.
Proof.
  destruct two_steps_tasks as (Hat & _). split; [exact Hat|].
  destruct (mutexed_register_excludes (HS:=strategy) 100 two_steps.1 two_steps.2 two_steps_reached) as [_ Hv].
  symmetry. exact (Hv _ _ Hat).
Defined.
