(* ===== verification/ExamplesDirected.v ===== *)
(** * ExamplesDirected: steering the random strategy

    The interleaving of the racy register that loses an increment: a script
    finds it, and so does the random strategy with the right draws. *)

From Stdlib Require Import ZArith Lia.
From stdpp Require Import base gmap strings option list.
From S2P Require Import Prelude ValueWrapper History Linearizability Specs.
From S2P Require Import Coro Strategy PickStrategy PrettyPrint Scheduler Checkers Verifiers.
From S2P Require Import Minimization Smart SmartCorrect SchedulerRun Directed RandomComplete RaceRegister Examples.

#[local] Existing Instance oracle.
#[local] Instance directed_printer : PrettyPrinter := 2%Z.
#[local] Instance directed_real_rng : RealRng := λ g, (p, g).
#[local] Instance directed_unordered : Unordered := {| arrange A l x := l ++ [x] |}.

(** ** The lost increment *)

Module LostIncrement.

Abbreviation random := (PickStrategy (Sub:=Random.RandomStrategy)).

Definition first : BaseStrategy := base_init 2 [reg_builder "get"; reg_builder "add"].
Definition params : SchedulerParams := mk_SchedulerParams 3 1 false 15 15.

(** Both threads start an [add] and load, then both store; the [get] is last. *)
Definition script : list choice :=
  [mk_choice 0 [1; 0]; mk_choice 1 [0; 1]; mk_choice 0 []; mk_choice 1 [];
   mk_choice 0 []; mk_choice 1 []; mk_choice 0 [1; 0]; mk_choice 0 []].

Definition directed_run : Result * (BaseStrategy * list choice) :=
  outcome_or (None, (first, [])) (StrategyScheduler_Run (HS:=Directed) 100 100 params ([] : @rng oracle) (first, script)).

Lemma directed_run_Ok :
  StrategyScheduler_Run (HS:=Directed) 100 100 params ([] : @rng oracle) (first, script) =
  Ok (directed_run.1, (directed_run.2.1, [])).
Proof. vm_compute. reflexivity. Qed.

(** The history: the [get] in slot (0, 1) answers 1. *)
Lemma directed_run_history : ∃ full seq, directed_run.1 = Some (full, seq) ∧
  last seq = Some (EResponse (mk_Response (0, 1) (ValueWrapper_of 1%Z) 0)) ∧ length full = 8.
Proof. do 2 eexists. split; [vm_compute; reflexivity|]. vm_compute. by split. Qed.

#[local] Opaque directed_run.

(** With some draws the random strategy reports it. *)
Lemma Run_random_complete_witness :
  ∃ (draws : @rng oracle) s', StrategyScheduler_Run (HS:=random) 100 100 params ([] : @rng oracle)
    (mk_Pick first draws (Random.mk_Random [1; 1]%Z [])) = Ok (directed_run.1, s') ∧ pick_base s' = directed_run.2.1.
Proof.
  apply (Run_random_complete ([] : @rng oracle) 100 100 params eq_refl [1; 1]%Z first directed_run.1 directed_run.2.1) with (script := script).
  - repeat constructor.
  - vm_compute. lia.
  - exact directed_run_Ok.
Defined.
End LostIncrement.
